(* ===== verification/_CoqProject ===== *)
-Q . S2P
Prelude.v
ByteBuffer.v
RingBuffer.v
Telemetry.v
Endian.v
Crc16.v
Payload.v
ThreadSafeQueue.v
Worker.v
Scan.v
StreamingParser.v
ParserCorrect.v
ParserTheorems.v
ParserProperties.v
CodecProperties.v
RingBufferProperties.v
QueueThreads.v
QueueLocked.v
QueueLinear.v
QueueSections.v
LockedProperties.v
QueueProperties.v
Float64.v
BusinessLogic.v
LogicCorrect.v
LogicProperties.v
AsyncLogger.v
LoggerProperties.v
Triples.v
Posix.v
Listener.v
ListenerWalk.v
ListenerLines.v
ListenerOwnership.v
ListenerCorrect.v
ListenerWake.v
ListenerChunks.v
Recorder.v
ListenerTrace.v
Traffic.v
ToyKernel.v
ListenerProperties.v
Main.v
MainProperties.v
Pipeline.v
Threads.v
System.v
SystemInvariant.v
SystemTypes.v
SystemTrace.v
SystemRefines.v
SystemOutput.v
SystemLive.v
SystemExec.v
SystemInevitable.v
Fairness.v
SystemFair.v
SystemServed.v
SystemDelivery.v
SystemLog.v
SystemProperties.v
Tester.v
TesterCorrect.v
TesterProgress.v
TesterProperties.v
OutputProperties.v
TraceProperties.v
LoadTest.v
FairProperties.v
