(* ===== verification/Prelude.v ===== *)
(** * Counter-drone streaming parser: verification library (root file)

    The program is a server of four threads. The [NetworkListener] accepts TCP
    clients with epoll and queues what they send as chunks of bytes tagged with
    the client's descriptor. The [StreamingParser] assembles the chunks of each
    client into framed packets, checks their CRC and queues the telemetry they
    carry. The [BusinessLogic] keeps the latest telemetry of every drone, raises
    alerts and reports throughput. The [AsyncLogger] writes the log messages of
    the other three. They communicate only through three [ThreadSafeQueue]s,
    which [main] constructs without a bound; [main] starts the threads and stops
    them in order.

    ** Files

    Shared:
    - [Prelude.v] (this file): results of C++ code ([outcome]), the monad [M] of
      code that changes an object, loops, exceptions, integers of machine width,
      [memcpy], and the lemmas and tactics for them.
    - [Triples.v]: a small program logic for [M]: triples, and [preserves], code
      that preserves a relation on states, with the tactic [preserving].
    - [Worker.v]: the loop that the three consumer threads share, and its
      correctness, proved once for any handler that follows an abstraction.

    The parser and what it is built from:
    - [ByteBuffer.v]: the interface between the parser and its byte buffer, with
      its laws, and a list as the simplest implementation.
    - [RingBuffer.v]: src/ringBuffer.cpp, an instance of that interface.
    - [Telemetry.v]: include/telemetry.h. [Endian.v]: [from_big_endian], for a
      host of either byte order (class [Host]). [Crc16.v]: [compute_crc16].
      [Payload.v]: [deserialize_payload].
    - [StreamingParser.v]: src/streamingParser.cpp, function by function.
    - [Scan.v]: the specification, a scanner of byte streams and the encoder of
      packets as README.md lays them out. [ParserCorrect.v] and
      [ParserTheorems.v]: the parser refines it.
    - [ParserProperties.v], [RingBufferProperties.v], [CodecProperties.v]: claims.

    The queue:
    - [ThreadSafeQueue.v]: the critical sections of include/threadSafeQueue.h,
      and the class [HasQueue] of components that refer to a queue.
    - [QueueThreads.v]: any number of threads inside one queue, as a step
      relation whose steps are critical sections. [QueueProperties.v]: claims.
    - [QueueLocked.v]: the same threads statement by statement, with the mutex
      and its owner. [QueueLinear.v]: the invariant of the mutex, the order in
      which calls take effect, the length of a critical section.
      [QueueSections.v]: a simulation by [QueueThreads.v].
      [LockedProperties.v]: claims.

    The other threads and the program:
    - [Float64.v]: IEEE 754 doubles by the Standard Library's [SpecFloat], and
      how C++ streams print them. [BusinessLogic.v], [LogicCorrect.v],
      [LogicProperties.v]: src/businessLogic.cpp.
    - [AsyncLogger.v], [LoggerProperties.v]: src/asyncLogger.cpp.
    - [Posix.v]: the system calls as a parameter, what the manual pages promise
      of them, and [SocketHandle]. [Listener.v]: src/listener.cpp.
      [ListenerOwnership.v], [ListenerCorrect.v], [ListenerProperties.v]: its
      invariant, its loops and the claims. [ToyKernel.v]: a concrete kernel that
      satisfies the laws, on which the listener runs. [Recorder.v]: any kernel
      can be given the history of its reads (class [PosixTrace]).
    - [ListenerWalk.v]: the walk through the listener's code, once for every
      relation that it preserves. Its instances: the bursts of connections and
      bytes ([ListenerCorrect.v]), [ListenerWake.v], [ListenerChunks.v],
      [ListenerTrace.v], [ListenerLines.v].
    - [Main.v], [MainProperties.v]: the command line of src/main.cpp, what it
      prints, and its shutdown as an abstract specification. [Pipeline.v]:
      listener, parser and business logic composed, each run on its own.

    The whole program:
    - [Threads.v]: the [run] functions cut into actions, between which other
      threads may interfere, and the proofs that they are exactly the sequences
      of these actions.
    - [System.v]: the four threads, [main], the signal handler and the kernel
      interleaved, as a step relation on the state of all of them.
      [SystemExec.v]: the same as a function of a schedule.
    - [ListenerWake.v]: the listener can be woken up. [ListenerChunks.v]: its
      chunks fit in its buffer. [ListenerTrace.v]: it queues what it has read and
      nothing else. [ListenerLines.v]: what it logs begins with its name.
    - [SystemInvariant.v], [SystemTypes.v], [SystemOutput.v]: invariants.
      [SystemRefines.v]: the simulation of the specification of [Main.v].
      [SystemLive.v], [SystemInevitable.v]: that the program can always end, and
      that a shutdown once begun does end. [SystemProperties.v]: claims.
    - [Traffic.v]: the specification of the whole data path, from what [recv]
      has read to the events of the scanner, connection by connection.
      [SystemTrace.v], [TraceProperties.v]: the program implements it.
    - [Fairness.v]: fair runs of any transition system, and how a measure proves
      that something comes about in them. [SystemFair.v]: the actors of the
      program and the shutdown. [SystemServed.v]: the classes [Producer] and
      [Consumer] of a thread that pushes to a queue and one that takes from it;
      [SystemDelivery.v]: their instances, and deliveries from end to end.
      [FairProperties.v]: claims.
    - [SystemLog.v], [OutputProperties.v]: the log, line by line.

    The load tester:
    - [Tester.v]: tests/drone_load_test.py, over any answers of the network, the
      clock and the random numbers (class [World]). [TesterCorrect.v]: what it
      says is what the server's scanner hears. [TesterProgress.v]: it keeps
      sending, by a record of what clock and coin have shown.
      [TesterProperties.v]: claims.
    - [LoadTest.v]: a fleet of its drones against the whole program.

    Definitions keep the names of the source. A member function is a
    computation in [M] over the record of its class; a reference to a queue is
    an instance of [HasQueue]; a [while] loop is [while_true], [loop_return] or
    a recursion on what the environment does in each round.

    ** What is shown

    - The whole program (C1-C14), for every interleaving of the threads, every
      answer of the system calls and every input. No undefined behaviour, and no
      uncaught exception but from the listener's set-up; nothing queued between
      the threads is lost, duplicated or reordered (C1). The drone table and the
      counters are those of a part of what the reference scanner finds in the
      bytes read, connection by connection, and of all of it when nothing is on
      its way (C2); packets sent as documented reach the table (C3); and after a
      load test the counters of the tester and of the server agree (C4), if no
      damaged frame holds a byte that could start another. In a fair run a
      requested shutdown is completed, what is read is handled, and what is
      logged is written (C5-C7). A complete run leaves every message on stdout
      and no descriptor open (C8); the log is, author by author and line by
      line, that of the references (C9); an open log file has the same messages
      up to the first write that fails, after which it is left behind silently
      (C8-C10). Without any fairness, a shutdown that has begun is inevitable
      (C11), and the end can be reached from every state
      ([program_can_shut_down]). C5-C7, C11 and the latter assume that no client
      floods the listener ([PosixBursts], see below), and allow for a process
      that an exception of the listener's set-up has ended. No ring buffer overflows (C12), every state is
      well typed (C13), and the program refines the shutdown specification (C14),
      whose own properties are in [MainProperties.v].
    - Parser (C15-C21). What is delivered, counted and logged for a client is a
      function of the bytes it sent: independent of how they were cut into
      chunks, of other clients, of earlier connections on the descriptor, of the
      host's byte order and of the buffer, which may be any implementation of
      the contract in [ByteBuffer.v] (C21). Encoded packets come
      out exactly; a valid packet is never skipped; the loop terminates; nothing
      throws.
    - Ring buffer (C22). It refines a bounded list of bytes for every sequence of
      calls. A capacity of zero divides by zero.
    - Packet format (C23-C25). Decoding inverts encoding and is memory safe; the
      checksum is CRC-16/MODBUS and detects bursts of 16 bits; damaged packets
      and noise are survived.
    - Queue, statement by statement (C26-C29). Calls are linearizable; the
      statements refine the critical sections; the mutex excludes and no access
      is undefined; a critical section ends after at most ten statements.
    - Queue, by critical sections (C30-C33). FIFO and bounded in every
      interleaving; no lost wake-up of a consumer; a producer's can be lost
      through a stop request in bounded mode, and only then; a stop request
      unblocks.
    - Business logic (C34, C35) and logger. Table, alerts and log are those of
      exact references; every message is written, also after a stop.
    - Listener (C36-C38). No descriptor leaks whatever system calls fail; bytes
      are forwarded exactly; a drop is notified once; handling an event ends.
    - Load tester (C39). Its encoder, written against the same protocol, and the
      server agree for every profile; it counts what it sends, and while the test
      lasts it sends. A damaged packet that holds, behind its first byte, one
      that could start a frame may hide what follows it: for the profile
      CORRUPTED the bytes are assumed to have no such frame, which the function
      [clear] decides.
    - The command line (C40): with ports of [int] range, the last of each kind
      wins, and ports are reduced modulo 2^16.

    Theorems without a number support these or say more about one component on
    its own: [Pipeline.v], for instance, runs listener, parser and business
    logic one after the other.

    ** How the program is interleaved

    A queue operation is atomic. That its mutex makes it so is a theorem:
    statement by statement the calls take effect one after the other, by the
    functions used here ([queue_linearizable]). What a thread does between two
    of them touches no other thread's data. A thread's action may push several
    items: they are put into the shared queue one at a time, in order, and the
    thread's next action waits for the last of them, so that every
    interleaving of the pushes of different threads is a run of the model.
    Pushes of one action to two different queues may come in either order,
    which adds runs and loses none. What happens in the network while an
    action of the listener is under way is part of what its system calls
    answer, and the write of the stop callback falls between two actions.
    [epoll_wait] returns only when the kernel says so ([epoll_ready]); a pop
    with nothing to pop and no stop request does not step. The stop callback
    of the listener runs on the thread of [main], inside [request_stop], or on
    the listener's own when it is registered late.

    ** Bounds and fuel

    [process_client] takes three iterations per unread byte and three more:
    every byte is looked at by at most two iterations that only advance the
    state and one that consumes it ([process_client_terminates]: any fuel from
    there on is enough). The drain loop of the logger takes one iteration per
    queued message and one more. The accept and drain loops of the listener
    end when the system calls say so: their fuel is the number of results they
    get ([client_event_protocol]) or the burst of connections and bytes at hand
    ([event_handling_terminates]); [no_descriptor_leaked] holds for any fuel.
    In the whole program an action of the listener is given any fuel, and one
    that runs out of it is no step: invariants hold for every fuel, and C5-C7,
    C11 and [program_can_shut_down] show that enough fuel exists as long as the
    bursts are finite. The loops of the load tester look at the
    clock in every round, and the clock reaches the end of the test: their
    fuel is the number of looks until then. The loops of the threads run for
    as many rounds as the environment grants; what holds after every number of
    rounds holds at every moment. [std::size_t] and [uint64_t] counters wrap
    at 2^64; the throughput interval is computed with that wrap-around.

    ** What is not modelled

    - Time: the 200 ms between two looks at the signal flag, and the bound of
      the clock's 64-bit count of nanoseconds (292 years).
    - That every thread gets its turn is an assumption of C5-C7: a scheduler that
      keeps a thread waiting for ever may withhold the end. A shutdown discards
      what has not been taken ([shutdown_discards] in [FairProperties.v]), so C6
      is about runs without one.
    - That no client floods the listener is another assumption of C5-C7 and C11
      (class [PosixBursts]): between two waits of the listener finitely many
      accepts and reads succeed. How many is not bounded, and a whole run may
      accept and read for ever. The code needs it: its drain loop reads until
      [EAGAIN] and looks at no stop token ([flooded_for_ever]).
    - Failing writes to stdout, the flush of stdout, what the destructor of the
      log file still tries to write after a failure, the failure of
      [std::signal], the sign of a printed NaN, and memory exhaustion.
    - Other descriptors' traffic inside the kernel: system calls are a parameter
      and only their documented results are assumed.
    - Of tests/drone_load_test.py the dashboard, the rates of sending, the window
      of packets per second and the command line; its coroutines share only
      counters, each change of which adds to one and is atomic: they are modelled
      one by one, and the counters of a fleet are the sums. That the network
      carries what the drones write is a hypothesis of C4 ([carried]).
    - run_test.sh and the build files. *)

From Stdlib Require Export ZArith Lia Strings.Byte.
From stdpp Require Export base tactics list gmap strings fin_maps pretty.

#[global] Open Scope Z_scope.

(** ** Results of C++ expressions and of stateful code *)

(** The exceptions the program throws, with their [what()] text. *)
Inductive exn :=
| Overflow_error (what : string)
| Out_of_range (what : string)
| System_error (code : Z) (what : string).

Definition what (e : exn) : string :=
  match e with
  | Overflow_error s | Out_of_range s => s
  | System_error _ s => s
  end.

(** The result of running a piece of C++: a value, an exception in flight,
    undefined behaviour, or a thread that is suspended on a condition
    variable. [OutOfFuel] is no behaviour of the program: it says that the
    evaluation of a loop was cut off, and the theorems on loops exclude it. *)
Inductive outcome (A : Type) :=
| Ok (a : A)
| Throw (e : exn)
| Undefined
| Blocked
| OutOfFuel.
Arguments Ok {A} a.
Arguments Throw {A} e.
Arguments Undefined {A}.
Arguments Blocked {A}.
Arguments OutOfFuel {A}.

#[export] Instance outcome_ret : MRet outcome := λ A a, Ok a.
#[export] Instance outcome_bind : MBind outcome := λ A B f m,
  match m with
  | Ok a => f a
  | Throw e => Throw e
  | Undefined => Undefined
  | Blocked => Blocked
  | OutOfFuel => OutOfFuel
  end.

(** Code that also changes an object of type [S]: the state survives a
    thrown exception, as the members of a C++ object do. *)
Definition M (S A : Type) : Type := S → outcome A * S.

#[export] Instance M_ret {S} : MRet (M S) := λ A a s, (Ok a, s).
#[export] Instance M_bind {S} : MBind (M S) := λ A B f m s,
  match m s with
  | (Ok a, s') => f a s'
  | (Throw e, s') => (Throw e, s')
  | (Undefined, s') => (Undefined, s')
  | (Blocked, s') => (Blocked, s')
  | (OutOfFuel, s') => (OutOfFuel, s')
  end.

(** [gets f] reads the state, [modify f] writes it, [lift o] runs an
    expression that does not touch it. *)
Definition gets {S A} (f : S → A) : M S A := λ s, (Ok (f s), s).
Definition modify {S} (f : S → S) : M S unit := λ s, (Ok tt, f s).
Definition lift {S A} (o : outcome A) : M S A := λ s, (o, s).

(** [throw e;] *)
Definition throw {S A} (e : exn) : M S A := lift (Throw e).

(** [try { m } catch (e) { h(e) }] for the exceptions [h] accepts; the others
    keep propagating. *)
Definition try_catch {S A} (m : M S A) (h : exn → option (M S A)) : M S A := λ s,
  match m s with
  | (Throw e, s') =>
      match h e with
      | Some handler => handler s'
      | None => (Throw e, s')
      end
  | r => r
  end.

(** What the body of a [while] loop does next. *)
Inductive control := Continue | Break.

(** [while (true) { body }] cut off after [fuel] iterations; a body that
    returns or breaks ends it. *)
Fixpoint while_true {S} (fuel : nat) (body : M S control) : M S unit :=
  match fuel with
  | O => lift OutOfFuel
  | Datatypes.S fuel =>
      c ← body;
      match c with
      | Continue => while_true fuel body
      | Break => mret tt
      end
  end.

(** The same for a loop whose body may [return] a value. *)
Fixpoint loop_return {S A} (fuel : nat) (body : M S (option A)) : M S A :=
  match fuel with
  | O => lift OutOfFuel
  | Datatypes.S fuel =>
      o ← body;
      match o with
      | Some a => mret a
      | None => loop_return fuel body
      end
  end.

(** [for (i = from; i < from + n; ++i) s = body(i, s)]. *)
Fixpoint for_loop {A} (n : nat) (from : Z) (body : Z → A → outcome A) (a : A)
  : outcome A :=
  match n with
  | O => Ok a
  | Datatypes.S n' => a' ← body from a; for_loop n' (from + 1) body a'
  end.

(** ** Machine integers *)

(** Unsigned arithmetic on [w] bits: every operation of the source wraps. *)
Definition wrap (w z : Z) : Z := z mod 2 ^ w.
Abbreviation u8 := (wrap 8).
Abbreviation u16 := (wrap 16).
Abbreviation u64 := (wrap 64).

(** [a % b] on unsigned operands: division by zero is undefined. *)
Definition umod (a b : Z) : outcome Z :=
  if b =? 0 then Undefined else Ok (a mod b).

(** The largest object size, hence the largest [std::vector] of bytes. *)
Definition PTRDIFF_MAX : Z := 2 ^ 63 - 1.

(** [std::to_string] of an integer. *)
Definition to_string (z : Z) : string := pretty z.

(** The escape [\n]. *)
Definition newline : string := String (Ascii.ascii_of_nat 10) "".

(** The number of elements of a container, as a [size_t]. *)
Definition zlen {A} (l : list A) : Z := Z.of_nat (length l).

(** A fallible step whose failure makes the whole function return
    [std::nullopt]. *)
Definition or_nullopt {A B} (m : outcome (option A)) (k : A → outcome (option B))
  : outcome (option B) :=
  o ← m; match o with Some a => k a | None => Ok None end.

Declare Scope cpp_scope.
Delimit Scope cpp_scope with cpp.
Notation "'let?' p := m 'in' k" := (or_nullopt m (λ p, k))
  (at level 10, p pattern, m at level 100, k at level 200)
  : cpp_scope.
#[global] Open Scope cpp_scope.

(** ** Bytes and memory *)

Abbreviation byte := Byte.byte.
Abbreviation x00 := Byte.x00.

Definition byte_val (b : byte) : Z := Z.of_N (Byte.to_N b).

Definition byte_of (z : Z) : byte :=
  match Byte.of_N (Z.to_N (u8 z)) with Some b => b | None => x00 end.

(** The [n] bytes at offset [off]. *)
Definition slice {A} (off n : Z) (l : list A) : list A :=
  take (Z.to_nat n) (drop (Z.to_nat off) l).

(** A range of [n] bytes at [off] lies inside an array of [len] bytes. *)
Definition in_range (off n len : Z) : bool :=
  (0 <=? off) && (0 <=? n) && (off + n <=? len).

(** The bytes [p[off .. off+n)]; outside the array the read is undefined. *)
Definition read_bytes (p : list byte) (off n : Z) : outcome (list byte) :=
  if in_range off n (zlen p)
  then Ok (slice off n p) else Undefined.

(** [std::memcpy(dst + doff, src + soff, n)]: the new contents of [dst]. *)
Definition memcpy (dst : list byte) (doff : Z) (src : list byte) (soff n : Z)
  : outcome (list byte) :=
  if in_range doff n (zlen dst) && in_range soff n (zlen src)
  then Ok (take (Z.to_nat doff) dst ++ slice soff n src
           ++ drop (Z.to_nat (doff + n)) dst)
  else Undefined.

(** * Lemmas *)

(** Decides the boolean comparisons on [Z] in sight. *)
Ltac zcases :=
  repeat match goal with
  | |- context [?a <? ?b] => destruct (Z.ltb_spec a b)
  | |- context [?a <=? ?b] => destruct (Z.leb_spec a b)
  | |- context [?a =? ?b] => destruct (Z.eqb_spec a b)
  | H : context [?a <? ?b] |- _ => destruct (Z.ltb_spec a b)
  | H : context [?a <=? ?b] |- _ => destruct (Z.leb_spec a b)
  | H : context [?a =? ?b] |- _ => destruct (Z.eqb_spec a b)
  end.

(** Decides one comparison by arithmetic and simplifies with it. *)
Ltac ztrue :=
  match goal with
  | |- context [?a <? ?b] =>
      first [ rewrite (proj2 (Z.ltb_lt a b)) by lia
            | rewrite (proj2 (Z.ltb_ge a b)) by lia ]
  | |- context [?a <=? ?b] =>
      first [ rewrite (proj2 (Z.leb_le a b)) by lia
            | rewrite (proj2 (Z.leb_gt a b)) by lia ]
  | |- context [?a =? ?b] =>
      first [ rewrite (proj2 (Z.eqb_eq a b)) by lia
            | rewrite (proj2 (Z.eqb_neq a b)) by lia ]
  end; cbn [andb orb negb].

Lemma bind_ok {A B} (a : A) (f : A → outcome B) : Ok a ≫= f = f a.
Proof. reflexivity. Qed.

Lemma or_nullopt_none {A B} (k : A → outcome (option B)) : or_nullopt (Ok None) k = Ok None.
Proof. reflexivity. Qed.

Lemma or_nullopt_some {A B} (a : A) (k : A → outcome (option B)) :
  or_nullopt (Ok (Some a)) k = k a.
Proof. reflexivity. Qed.

Create Rewrite HintDb outcome.
#[export] Hint Rewrite @bind_ok @or_nullopt_none @or_nullopt_some : outcome.

#[export] Instance exn_eq_dec : EqDecision exn.
Proof. solve_decision. Defined.

#[export] Instance byte_eq_dec : EqDecision byte := Byte.byte_eq_dec.

Create Rewrite HintDb zlen.
Create Rewrite HintDb machine.

Lemma zlen_nonneg {A} (l : list A) : 0 <= zlen l.
Proof. unfold zlen. lia. Qed.

Lemma zlen_nil {A} : zlen ([] : list A) = 0.
Proof. reflexivity. Qed.

Lemma zlen_cons {A} (x : A) l : zlen (x :: l) = 1 + zlen l.
Proof. unfold zlen. cbn [length]. lia. Qed.

Lemma zlen_app {A} (l k : list A) : zlen (l ++ k) = zlen l + zlen k.
Proof. unfold zlen. rewrite length_app. lia. Qed.

Lemma zlen_replicate {A} n (x : A) : 0 <= n → zlen (replicate (Z.to_nat n) x) = n.
Proof. unfold zlen. rewrite length_replicate. lia. Qed.

Lemma zlen_take {A} n (l : list A) :
  0 <= n → zlen (take (Z.to_nat n) l) = Z.min n (zlen l).
Proof. unfold zlen. rewrite length_take. lia. Qed.

Lemma zlen_drop {A} n (l : list A) :
  0 <= n → zlen (drop (Z.to_nat n) l) = Z.max 0 (zlen l - n).
Proof. unfold zlen. rewrite length_drop. lia. Qed.

Lemma to_nat_zlen {A} (l : list A) : Z.to_nat (zlen l) = length l.
Proof. unfold zlen. lia. Qed.

Lemma zlen_slice {A} off n (l : list A) :
  0 <= off → 0 <= n → off + n <= zlen l → zlen (slice off n l) = n.
Proof. intros. unfold slice. rewrite zlen_take, zlen_drop by lia. lia. Qed.

(** Splitting a list at two offsets. *)
Lemma drop_slice {A} off n (l : list A) :
  0 <= off → 0 <= n →
  drop (Z.to_nat off) l = slice off n l ++ drop (Z.to_nat (off + n)) l.
Proof.
  intros. unfold slice. rewrite Z2Nat.inj_add by done.
  by rewrite <-drop_drop, take_drop.
Qed.

Lemma slice_take {A} off n m (l : list A) :
  0 <= off → 0 <= n → off + n <= m → slice off n (take (Z.to_nat m) l) = slice off n l.
Proof.
  intros. unfold slice. rewrite skipn_firstn_comm.
  rewrite take_take. f_equal. lia.
Qed.

(** The slice that a known prefix and a known length single out. *)
Lemma slice_app_mid {A} off n (l k m : list A) :
  zlen l = off → zlen k = n → slice off n (l ++ k ++ m) = k.
Proof.
  intros <- <-. unfold slice. rewrite !to_nat_zlen, drop_app_length.
  apply take_app_length.
Qed.

#[export] Hint Rewrite @zlen_nil @zlen_cons @zlen_app : zlen.
#[export] Hint Rewrite @zlen_take @zlen_drop @zlen_replicate using lia : zlen.
#[export] Hint Resolve zlen_nonneg : core.

(** Brings the lengths of the lists in sight to arithmetic and decides it. *)
Ltac zlen_lia :=
  repeat match goal with
  | l : list _ |- _ =>
      lazymatch goal with
      | _ : 0 <= zlen l |- _ => fail
      | _ => pose proof (zlen_nonneg l)
      end
  end;
  autorewrite with zlen in *; lia.

Lemma wrap_small w z : 0 <= z < 2 ^ w → wrap w z = z.
Proof. intros. unfold wrap. by apply Z.mod_small. Qed.

Lemma wrap_bounds w z : 0 <= w → 0 <= wrap w z < 2 ^ w.
Proof. intros. unfold wrap. apply Z.mod_pos_bound. by apply Z.pow_pos_nonneg. Qed.

(** Wrapping at the end is enough. *)
Lemma wrap_add_l w a b : wrap w (wrap w a + b) = wrap w (a + b).
Proof. unfold wrap. apply Zplus_mod_idemp_l. Qed.

Lemma wrap_sub w a b : wrap w (wrap w a - wrap w b) = wrap w (a - b).
Proof. unfold wrap. symmetry. apply Zminus_mod. Qed.

Lemma u64_small z : 0 <= z < 18446744073709551616 → u64 z = z.
Proof. intros. apply wrap_small. done. Qed.

Lemma u16_small z : 0 <= z < 65536 → u16 z = z.
Proof. intros. apply wrap_small. done. Qed.

#[export] Hint Rewrite u64_small u16_small using lia : machine.

(** A sum of two indices below the modulus wraps at most once. *)
Lemma mod_once cap x :
  0 <= x < 2 * cap → x mod cap = if x <? cap then x else x - cap.
Proof.
  intros. destruct (Z.ltb_spec x cap).
  - apply Z.mod_small. lia.
  - symmetry. apply Z.mod_unique with 1; lia.
Qed.

Lemma in_range_true off n len :
  in_range off n len = true ↔ 0 <= off ∧ 0 <= n ∧ off + n <= len.
Proof. unfold in_range. rewrite !andb_true_iff, !Z.leb_le. tauto. Qed.

Lemma read_bytes_ok p off n :
  0 <= off → 0 <= n → off + n <= zlen p →
  read_bytes p off n = Ok (slice off n p).
Proof.
  intros. unfold read_bytes.
  by rewrite (proj2 (in_range_true off n (zlen p))).
Qed.

Lemma memcpy_ok dst doff src soff n :
  0 <= doff → 0 <= soff → 0 <= n →
  doff + n <= zlen dst → soff + n <= zlen src →
  memcpy dst doff src soff n
  = Ok (take (Z.to_nat doff) dst ++ slice soff n src
        ++ drop (Z.to_nat (doff + n)) dst).
Proof.
  intros. unfold memcpy.
  by rewrite (proj2 (in_range_true doff n (zlen dst))),
    (proj2 (in_range_true soff n (zlen src))).
Qed.

(** Where each byte of the destination comes from after a copy. *)
Lemma lookup_memcpy dst doff src soff n r j :
  memcpy dst doff src soff n = Ok r →
  r !! j = if (doff <=? Z.of_nat j) && (Z.of_nat j <? doff + n)
           then src !! Z.to_nat (soff + (Z.of_nat j - doff)) else dst !! j.
Proof.
  unfold memcpy, slice. destruct (in_range doff n (zlen dst)) eqn:E1; [|done].
  destruct (in_range soff n (zlen src)) eqn:E2; [|done].
  apply in_range_true in E1. apply in_range_true in E2. simpl. intros [= <-].
  unfold zlen in *.
  destruct (Z.leb_spec doff (Z.of_nat j)); simpl.
  - rewrite lookup_app_r by (rewrite length_take; lia).
    rewrite length_take, Nat.min_l by lia.
    destruct (Z.ltb_spec (Z.of_nat j) (doff + n)).
    + rewrite lookup_app_l by (rewrite length_take, length_drop; lia).
      rewrite lookup_take_lt by lia. rewrite lookup_drop. f_equal. lia.
    + rewrite lookup_app_r by (rewrite length_take, length_drop; lia).
      rewrite length_take, length_drop, lookup_drop. f_equal. lia.
  - rewrite lookup_app_l by (rewrite length_take; lia).
    by rewrite lookup_take_lt by lia.
Qed.

Lemma length_memcpy dst doff src soff n r :
  memcpy dst doff src soff n = Ok r → length r = length dst.
Proof.
  unfold memcpy, slice. destruct (in_range doff n (zlen dst)) eqn:E1; [|done].
  destruct (in_range soff n (zlen src)) eqn:E2; [|done].
  apply in_range_true in E1. apply in_range_true in E2. simpl. intros [= <-].
  unfold zlen in *.
  rewrite !length_app, !length_take, !length_drop. lia.
Qed.

Lemma memcpy_defined dst doff src soff n :
  0 <= doff → 0 <= soff → 0 <= n →
  doff + n <= zlen dst → soff + n <= zlen src →
  ∃ r, memcpy dst doff src soff n = Ok r.
Proof. intros. eexists. by apply memcpy_ok. Qed.

(** A copy that overwrites the whole destination. *)
Lemma memcpy_all dst src soff n :
  0 <= soff → zlen dst = n → soff + n <= zlen src →
  memcpy dst 0 src soff n = Ok (slice soff n src).
Proof.
  intros. pose proof (zlen_nonneg dst). rewrite memcpy_ok by lia. f_equal. simpl.
  rewrite (drop_ge dst) by (unfold zlen in *; lia). by rewrite app_nil_r.
Qed.

Lemma byte_val_bounds b : 0 <= byte_val b < 256.
Proof. pose proof (Byte.to_N_bounded b). unfold byte_val. lia. Qed.

Lemma byte_val_inj b1 b2 : byte_val b1 = byte_val b2 → b1 = b2.
Proof.
  intros H. apply N2Z.inj in H.
  pose proof (Byte.of_to_N b1) as H1. pose proof (Byte.of_to_N b2) as H2.
  rewrite H in H1. congruence.
Qed.

Lemma byte_val_of z : byte_val (byte_of z) = u8 z.
Proof.
  unfold byte_of. pose proof (wrap_bounds 8 z ltac:(lia)) as Hb.
  change (2 ^ 8) with 256 in Hb.
  destruct (Byte.of_N (Z.to_N (u8 z))) as [b|] eqn:E.
  - apply Byte.to_of_N in E. unfold byte_val. rewrite E. lia.
  - apply Byte.of_N_None_iff in E. lia.
Qed.

Lemma byte_of_val b : byte_of (byte_val b) = b.
Proof.
  apply byte_val_inj. rewrite byte_val_of. apply wrap_small.
  pose proof (byte_val_bounds b). lia.
Qed.

(** The monad's laws on known results. *)
Lemma M_bind_ok {S A B} (m : M S A) (f : A → M S B) s a s' :
  m s = (Ok a, s') → (m ≫= f) s = f a s'.
Proof. intros H. unfold mbind, M_bind. by rewrite H. Qed.

Lemma bind_modify {S B} (f : S → S) (k : unit → M S B) s : (modify f ≫= k) s = k tt (f s).
Proof. reflexivity. Qed.

Lemma bind_gets {S A B} (f : S → A) (k : A → M S B) s : (gets f ≫= k) s = k (f s) s.
Proof. reflexivity. Qed.

Lemma while_true_continue {S} fuel (body : M S control) s s' :
  body s = (Ok Continue, s') →
  while_true (Datatypes.S fuel) body s = while_true fuel body s'.
Proof. intros H. simpl. by rewrite (M_bind_ok _ _ _ _ _ H). Qed.

Lemma while_true_break {S} fuel (body : M S control) s s' :
  body s = (Ok Break, s') →
  while_true (Datatypes.S fuel) body s = (Ok tt, s').
Proof. intros H. simpl. by rewrite (M_bind_ok _ _ _ _ _ H). Qed.

(** Reduces a monadic step whose sub-results are known. *)
Ltac mrun := unfold mbind, M_bind, mret, M_ret, lift, gets, modify; simpl.

(** ** A measure of several parts *)

(** The lexicographic order on lists of one length. *)
Fixpoint lex (xs ys : list nat) : Prop :=
  match xs, ys with
  | x :: xs, y :: ys => (x < y)%nat ∧ length xs = length ys ∨ x = y ∧ lex xs ys
  | _, _ => False
  end.

Lemma lex_length xs ys : lex xs ys → length xs = length ys.
Proof.
  revert ys. induction xs as [|x xs IH]; intros [|y ys]; simpl; try done.
  intros [[_ ->]|[_ H]]; [done|]. by rewrite (IH ys H).
Qed.

Lemma lex_acc ys : Acc lex ys.
Proof.
  remember (length ys) as n eqn:E. revert ys E. induction n as [|n IH]; intros [|y ys] E; try discriminate.
  { constructor. by intros []. }
  revert ys E. induction (lt_wf y) as [y _ IHy]. intros ys E.
  assert (Acc lex ys) as Hys by (apply IH; simpl in E; congruence).
  induction Hys as [ys _ IHys]. constructor. intros [|x xs] Hlex; [done|].
  destruct Hlex as [[Hlt Hlen]|[-> Hlex]].
  - apply IHy; [done|]. simpl in *. congruence.
  - apply IHys; [done|]. apply lex_length in Hlex. simpl in *. congruence.
Qed.
