(* ===== verification/ByteBuffer.v ===== *)
(** * The byte buffer the streaming parser relies on

    The interface between [RingBuffer] (include/ringBuffer.h) and its one
    client, [StreamingParser]: the operations the parser calls, and the laws
    it needs of them, stated on the sequence of unread bytes. [RingBuffer.v]
    discharges the laws for the circular buffer of the source; the list buffer
    below is the reference model, so that a client defined over the interface
    can be run on either. *)

From S2P Require Import Prelude.

(** Default capacity in bytes (64 KiB). *)
Definition DEFAULT_CAPACITY : Z := 65536.

(** The [what()] text of the [std::overflow_error] a full buffer throws. *)
Definition overflow_what (n free : Z) : string :=
  ("RingBuffer overflow: tried to push " +:+ to_string n +:+ " bytes, only "
   +:+ to_string free +:+ " free")%string.

(** The operations: [bb_new] is the default-constructed buffer, [bb_peek dest]
    returns the new contents of the destination span [dest]. *)
Class ByteBuffer (B : Type) := {
  bb_new : B;
  bb_size : B → Z;
  bb_push : list byte → B → outcome B;
  bb_peek : list byte → B → outcome (list byte);
  bb_consume : Z → B → outcome B
}.

(** The contract. *)
Class ByteBufferSpec (B : Type) `{ByteBuffer B} := {
  bb_wf : B → Prop;
  bb_contents : B → list byte;
  bb_capacity : B → Z;
  bb_new_spec :
    bb_wf bb_new ∧ bb_contents bb_new = [] ∧ bb_capacity bb_new = DEFAULT_CAPACITY;
  bb_bounded b : bb_wf b → zlen (bb_contents b) <= bb_capacity b <= PTRDIFF_MAX;
  bb_size_spec b : bb_wf b → bb_size b = zlen (bb_contents b);
  bb_push_spec d b :
    bb_wf b → zlen (bb_contents b) + zlen d <= bb_capacity b →
    ∃ b', bb_push d b = Ok b' ∧ bb_wf b' ∧ bb_contents b' = bb_contents b ++ d
          ∧ bb_capacity b' = bb_capacity b;
  bb_push_full d b :
    bb_wf b → bb_capacity b < zlen (bb_contents b) + zlen d →
    bb_push d b
    = Throw (Overflow_error
        (overflow_what (zlen d) (bb_capacity b - zlen (bb_contents b))));
  bb_peek_spec dest b :
    bb_wf b → zlen dest <= zlen (bb_contents b) →
    bb_peek dest b = Ok (take (length dest) (bb_contents b));
  bb_consume_spec n b :
    bb_wf b → 0 <= n <= zlen (bb_contents b) →
    ∃ b', bb_consume n b = Ok b' ∧ bb_wf b'
          ∧ bb_contents b' = drop (Z.to_nat n) (bb_contents b)
          ∧ bb_capacity b' = bb_capacity b
}.

(** ** The reference buffer: the unread bytes as a list *)

Module ListBuffer.

Record t := mk { bytes : list byte }.

Definition push (data : list byte) (b : t) : outcome t :=
  if DEFAULT_CAPACITY <? zlen (bytes b) + zlen data
  then Throw (Overflow_error
         (overflow_what (zlen data) (DEFAULT_CAPACITY - zlen (bytes b))))
  else Ok (mk (bytes b ++ data)).

Definition peek (dest : list byte) (b : t) : outcome (list byte) :=
  if zlen (bytes b) <? zlen dest then Throw (Out_of_range "list buffer peek")
  else Ok (take (length dest) (bytes b)).

Definition consume (n : Z) (b : t) : outcome t :=
  if zlen (bytes b) <? n then Throw (Out_of_range "list buffer consume")
  else Ok (mk (drop (Z.to_nat n) (bytes b))).

#[global] Instance list_buffer : ByteBuffer t := {|
  bb_new := mk [];
  bb_size b := zlen (bytes b);
  bb_push := push;
  bb_peek := peek;
  bb_consume := consume
|}.

#[global, refine] Instance list_buffer_spec : ByteBufferSpec t := {|
  bb_wf b := zlen (bytes b) <= DEFAULT_CAPACITY;
  bb_contents := bytes;
  bb_capacity _ := DEFAULT_CAPACITY
|}.
Proof.
  - done.
  - intros b Hb. split; [done|]. by vm_compute.
  - done.
  - intros d b Hb Hd. eexists. simpl. unfold push. ztrue.
    repeat split. simpl. zlen_lia.
  - intros d b Hb Hd. simpl. unfold push. by ztrue.
  - intros dest b Hb Hd. simpl. unfold peek. by ztrue.
  - intros n b Hb Hn. eexists. simpl. unfold consume. ztrue.
    repeat split. simpl. zlen_lia.
Defined.

End ListBuffer.
