(* ===== verification/RingBuffer.v ===== *)
(** * RingBuffer (include/ringBuffer.h, src/ringBuffer.cpp)

    The fixed-capacity circular byte buffer, with its index arithmetic on
    64-bit [size_t] and its two-part copies. [contents] is the abstraction:
    the unread bytes in order. The invariant [wf] is preserved by every
    operation and rules out every out-of-bounds copy and every wrap-around of
    the index arithmetic; the operations refine append, prefix and drop on
    [contents]. *)

From S2P Require Import Prelude ByteBuffer.

Module RingBuffer.

(** ** State and operations *)

Record RingBuffer := mkRingBuffer {
  m_buf : list byte;
  m_capacity : Z;
  m_head : Z;
  m_tail : Z;
  m_count : Z
}.

(** [RingBuffer(capacity)]: a zero-filled backing array. *)
Definition new (capacity : Z) : RingBuffer :=
  mkRingBuffer (replicate (Z.to_nat capacity) x00) capacity 0 0 0.

Definition size (rb : RingBuffer) : Z := m_count rb.
Definition capacity (rb : RingBuffer) : Z := m_capacity rb.
Definition free_space (rb : RingBuffer) : Z := u64 (m_capacity rb - m_count rb).

Definition push (data : list byte) (rb : RingBuffer) : outcome RingBuffer :=
  let data_size := zlen data in
  if free_space rb <? data_size
  then Throw (Overflow_error (overflow_what data_size (free_space rb)))
  else
    let first_chunk := Z.min data_size (u64 (m_capacity rb - m_head rb)) in
    buf ← memcpy (m_buf rb) (m_head rb) data 0 first_chunk;
    buf ← (if first_chunk <? data_size
           then memcpy buf 0 data first_chunk (u64 (data_size - first_chunk))
           else Ok buf);
    head ← umod (u64 (m_head rb + data_size)) (m_capacity rb);
    Ok (mkRingBuffer buf (m_capacity rb) head (m_tail rb)
          (u64 (m_count rb + data_size))).

Definition peek_what (n available : Z) : string :=
  ("RingBuffer peek: requested " +:+ to_string n +:+ " bytes, only "
   +:+ to_string available +:+ " available")%string.

Definition peek (dest : list byte) (rb : RingBuffer) : outcome (list byte) :=
  let count := zlen dest in
  if m_count rb <? count then Throw (Out_of_range (peek_what count (m_count rb)))
  else
    let first_chunk := Z.min count (u64 (m_capacity rb - m_tail rb)) in
    dest ← memcpy dest 0 (m_buf rb) (m_tail rb) first_chunk;
    if first_chunk <? count
    then memcpy dest first_chunk (m_buf rb) 0 (u64 (count - first_chunk))
    else Ok dest.

Definition consume_what (n available : Z) : string :=
  ("RingBuffer consume: tried to discard " +:+ to_string n +:+ " bytes, only "
   +:+ to_string available +:+ " available")%string.

Definition consume (count : Z) (rb : RingBuffer) : outcome RingBuffer :=
  if m_count rb <? count
  then Throw (Out_of_range (consume_what count (m_count rb)))
  else
    tail ← umod (u64 (m_tail rb + count)) (m_capacity rb);
    Ok (mkRingBuffer (m_buf rb) (m_capacity rb) (m_head rb) tail
          (u64 (m_count rb - count))).

Definition clear (rb : RingBuffer) : RingBuffer :=
  mkRingBuffer (m_buf rb) (m_capacity rb) 0 0 0.

(** ** Invariant and abstraction *)

Record wf (rb : RingBuffer) : Prop := {
  wf_buf : zlen (m_buf rb) = m_capacity rb;
  wf_cap : 0 < m_capacity rb <= PTRDIFF_MAX;
  wf_tail : 0 <= m_tail rb < m_capacity rb;
  wf_count : 0 <= m_count rb <= m_capacity rb;
  wf_head : m_head rb = (m_tail rb + m_count rb) mod m_capacity rb
}.

(** The unread bytes, from Tail, around the end of the array. *)
Definition contents (rb : RingBuffer) : list byte :=
  take (Z.to_nat (m_count rb))
    (drop (Z.to_nat (m_tail rb)) (m_buf rb ++ m_buf rb)).

(** ** Lemmas *)

Lemma lookup_contents rb i :
  wf rb → Z.of_nat i < m_count rb →
  contents rb !! i = m_buf rb !! Z.to_nat ((m_tail rb + Z.of_nat i) mod m_capacity rb).
Proof.
  intros [Hb Hc Ht Hn _] Hi. unfold contents. unfold zlen in Hb.
  rewrite lookup_take_lt by lia. rewrite lookup_drop.
  rewrite mod_once by lia. destruct (Z.ltb_spec (m_tail rb + Z.of_nat i) (m_capacity rb)).
  - rewrite lookup_app_l by lia. f_equal. lia.
  - rewrite lookup_app_r by lia. f_equal. lia.
Qed.

Lemma length_contents rb : wf rb → zlen (contents rb) = m_count rb.
Proof.
  intros [Hb Hc Ht Hn _]. unfold contents, zlen in *.
  rewrite length_take, length_drop, length_app. lia.
Qed.

Lemma free_space_eq rb : wf rb → free_space rb = m_capacity rb - m_count rb.
Proof.
  intros [Hb Hc Ht Hn _]. unfold free_space, PTRDIFF_MAX in *. by apply u64_small; lia.
Qed.

Lemma new_wf cap : 0 < cap <= PTRDIFF_MAX → wf (new cap).
Proof.
  intros. split; simpl; try lia.
  - apply zlen_replicate. lia.
  - symmetry. apply Z.mod_0_l. lia.
Qed.

Lemma new_contents cap : contents (new cap) = [].
Proof. reflexivity. Qed.

Lemma head_bounds rb : wf rb → 0 <= m_head rb < m_capacity rb.
Proof. intros [Hb Hc Ht Hn ->]. apply Z.mod_pos_bound. lia. Qed.

(** The two copies of [push], byte by byte. *)
Lemma push_copies rb data :
  wf rb → zlen data <= m_capacity rb - m_count rb →
  let first_chunk := Z.min (zlen data) (u64 (m_capacity rb - m_head rb)) in
  ∃ buf,
    (buf ← memcpy (m_buf rb) (m_head rb) data 0 first_chunk;
     if first_chunk <? zlen data
     then memcpy buf 0 data first_chunk (u64 (zlen data - first_chunk))
     else Ok buf) = Ok buf
    ∧ length buf = length (m_buf rb)
    ∧ ∀ i, 0 <= i < m_count rb + zlen data →
        buf !! Z.to_nat ((m_tail rb + i) mod m_capacity rb)
        = if i <? m_count rb
          then m_buf rb !! Z.to_nat ((m_tail rb + i) mod m_capacity rb)
          else data !! Z.to_nat (i - m_count rb).
Proof.
  intros Hwf Hd first_chunk. pose proof (head_bounds rb Hwf) as Hh.
  destruct Hwf as [Hb Hc Ht Hn Hhd]. pose proof (zlen_nonneg data) as Hd0.
  assert (first_chunk = Z.min (zlen data) (m_capacity rb - m_head rb)) as Hf.
  { unfold first_chunk. rewrite u64_small; [done|]. unfold PTRDIFF_MAX in *. lia. }
  rewrite mod_once in Hhd by lia.
  destruct (memcpy_defined (m_buf rb) (m_head rb) data 0 first_chunk)
    as [buf1 H1]; [lia..|].
  rewrite H1. simpl.
  destruct (Z.ltb_spec first_chunk (zlen data)) as [Hw|Hw].
  - rewrite u64_small by (unfold PTRDIFF_MAX in *; lia).
    pose proof (length_memcpy _ _ _ _ _ _ H1) as L1.
    destruct (memcpy_defined buf1 0 data first_chunk (zlen data - first_chunk))
      as [buf2 H2]; [lia..| unfold zlen in *; lia | lia |].
    rewrite H2. exists buf2. split; [done|]. split.
    { rewrite (length_memcpy _ _ _ _ _ _ H2). done. }
    intros i Hi. rewrite (lookup_memcpy _ _ _ _ _ _ _ H2), (lookup_memcpy _ _ _ _ _ _ _ H1).
    rewrite mod_once by lia. rewrite Z2Nat.id by (zcases; lia).
    zcases; simpl; try lia; f_equal; lia.
  - exists buf1. split; [done|]. split; [by eapply length_memcpy|].
    intros i Hi. rewrite (lookup_memcpy _ _ _ _ _ _ _ H1).
    rewrite mod_once by lia. rewrite Z2Nat.id by (zcases; lia).
    zcases; simpl; try lia; f_equal; lia.
Qed.

Lemma push_ok rb data :
  wf rb → zlen data <= m_capacity rb - m_count rb →
  ∃ rb', push data rb = Ok rb' ∧ wf rb' ∧ contents rb' = contents rb ++ data
         ∧ m_capacity rb' = m_capacity rb.
Proof.
  intros Hwf Hd. destruct (push_copies rb data Hwf Hd) as (buf & Hcopy & Hlen & Hget).
  pose proof (free_space_eq rb Hwf) as Hfree. pose proof (head_bounds rb Hwf) as Hh.
  pose proof (length_contents rb Hwf) as Hlc.
  pose proof (λ i, lookup_contents rb i Hwf) as Hold.
  destruct Hwf as [Hb Hc Ht Hn Hhd]. pose proof (zlen_nonneg data) as Hd0.
  unfold PTRDIFF_MAX in *.
  unfold push. rewrite Hfree. ztrue.
  simpl. destruct (memcpy _ _ _ _ _) as [buf1| | | |]; simpl in Hcopy |- *; try discriminate.
  rewrite Hcopy. simpl.
  rewrite !u64_small by lia. unfold umod. ztrue. simpl.
  set (rb' := mkRingBuffer _ _ _ _ _).
  assert (wf rb') as Hwf'.
  { split; subst rb'; simpl; unfold PTRDIFF_MAX; try lia.
    - unfold zlen in *. lia.
    - rewrite Hhd, Zplus_mod_idemp_l. f_equal. lia. }
  exists rb'. split; [done|]. split; [done|]. split; [|done].
  pose proof (length_contents rb' Hwf') as Hlc'. simpl in Hlc'.
  apply list_eq. intros i.
  destruct (decide (Z.of_nat i < m_count rb + zlen data)) as [Hi|Hi].
  - rewrite (lookup_contents rb' i Hwf' Hi). simpl. rewrite Hget by lia.
    destruct (Z.ltb_spec (Z.of_nat i) (m_count rb)).
    + rewrite lookup_app_l by (unfold zlen in *; lia). by rewrite Hold.
    + rewrite lookup_app_r by (unfold zlen in *; lia). f_equal. unfold zlen in *. lia.
  - rewrite !lookup_ge_None_2; [done| |]; [rewrite length_app|]; unfold zlen in *; lia.
Qed.

Lemma push_full rb data :
  wf rb → m_capacity rb - m_count rb < zlen data →
  push data rb
  = Throw (Overflow_error (overflow_what (zlen data) (m_capacity rb - m_count rb))).
Proof. intros Hwf Hd. unfold push. rewrite free_space_eq by done. by ztrue. Qed.

Lemma peek_ok rb dest :
  wf rb → zlen dest <= m_count rb →
  peek dest rb = Ok (take (length dest) (contents rb)).
Proof.
  intros Hwf Hd. pose proof (λ i, lookup_contents rb i Hwf) as Hold.
  pose proof (length_contents rb Hwf) as Hlc.
  destruct Hwf as [Hb Hc Ht Hn _]. pose proof (zlen_nonneg dest) as Hd0.
  unfold PTRDIFF_MAX in *. unfold peek. ztrue.
  rewrite (u64_small (m_capacity rb - m_tail rb)) by lia.
  set (first := Z.min _ _).
  destruct (memcpy_defined dest 0 (m_buf rb) (m_tail rb) first) as [d1 H1]; [lia..|].
  rewrite H1. simpl. pose proof (length_memcpy _ _ _ _ _ _ H1) as L1.
  assert (∀ d2, length d2 = length dest →
    (∀ i, Z.of_nat i < zlen dest →
      d2 !! i = m_buf rb !! Z.to_nat ((m_tail rb + Z.of_nat i) mod m_capacity rb)) →
    d2 = take (length dest) (contents rb)) as Hdone.
  { intros d2 L2 Hd2. apply list_eq. intros i.
    destruct (decide (i < length dest)%nat).
    - rewrite lookup_take_lt, Hold, Hd2 by (unfold zlen in *; lia). done.
    - rewrite !lookup_ge_None_2; [done| |]; [rewrite length_take|]; lia. }
  destruct (Z.ltb_spec first (zlen dest)).
  - rewrite u64_small by lia.
    destruct (memcpy_defined d1 first (m_buf rb) 0 (zlen dest - first)) as [d2 H2];
      [lia..|unfold zlen in *; lia|lia|].
    rewrite H2. f_equal. apply Hdone.
    + by rewrite (length_memcpy _ _ _ _ _ _ H2).
    + intros i Hi. rewrite (lookup_memcpy _ _ _ _ _ _ _ H2), (lookup_memcpy _ _ _ _ _ _ _ H1).
      rewrite mod_once by lia. zcases; simpl; try lia; f_equal; lia.
  - f_equal. apply Hdone; [done|].
    intros i Hi. rewrite (lookup_memcpy _ _ _ _ _ _ _ H1).
    rewrite mod_once by lia. zcases; simpl; try lia; f_equal; lia.
Qed.

Lemma consume_ok rb n :
  wf rb → 0 <= n <= m_count rb →
  ∃ rb', consume n rb = Ok rb' ∧ wf rb'
         ∧ contents rb' = drop (Z.to_nat n) (contents rb)
         ∧ m_capacity rb' = m_capacity rb.
Proof.
  intros Hwf Hle. pose proof (λ i, lookup_contents rb i Hwf) as Hold.
  pose proof (length_contents rb Hwf) as Hlc.
  destruct Hwf as [Hb Hc Ht Hn Hhd]. unfold PTRDIFF_MAX in *.
  unfold consume. ztrue. rewrite !u64_small by lia. unfold umod. ztrue. simpl.
  set (rb' := mkRingBuffer _ _ _ _ _).
  assert (wf rb') as Hwf'.
  { split; subst rb'; simpl; unfold PTRDIFF_MAX; try lia.
    - apply Z.mod_pos_bound. lia.
    - rewrite Hhd, Zplus_mod_idemp_l. f_equal. lia. }
  exists rb'. split; [done|]. split; [done|]. split; [|done].
  pose proof (length_contents rb' Hwf') as Hlc'. simpl in Hlc'.
  apply list_eq. intros i. rewrite lookup_drop.
  destruct (decide (Z.of_nat i < m_count rb - n)) as [Hi|Hi].
  - rewrite (lookup_contents rb' i Hwf' Hi). simpl. rewrite Hold by lia.
    rewrite Zplus_mod_idemp_l. f_equal. f_equal. f_equal. lia.
  - rewrite !lookup_ge_None_2; [done| |]; unfold zlen in *; lia.
Qed.

Lemma clear_ok rb :
  wf rb → wf (clear rb) ∧ contents (clear rb) = [] ∧ size (clear rb) = 0
          ∧ free_space (clear rb) = capacity rb.
Proof.
  intros [Hb Hc Ht Hn Hhd]. unfold PTRDIFF_MAX in *.
  assert (wf (clear rb)) as Hw.
  { split; simpl; unfold PTRDIFF_MAX; try lia. symmetry. apply Z.mod_0_l. lia. }
  repeat split; try apply Hw. rewrite free_space_eq by done. simpl.
  unfold capacity. lia.
Qed.

(** ** The instance of the parser's interface *)

#[global] Instance ring_buffer : ByteBuffer RingBuffer := {|
  bb_new := new DEFAULT_CAPACITY;
  bb_size := size;
  bb_push := push;
  bb_peek := peek;
  bb_consume := consume
|}.

#[global, refine] Instance ring_buffer_spec : ByteBufferSpec RingBuffer := {|
  bb_wf := wf;
  bb_contents := contents;
  bb_capacity := m_capacity
|}.
Proof.
  - split; [by apply new_wf|done].
  - intros b Hb. rewrite length_contents by done.
    destruct Hb as [? ? ? ? ?]. lia.
  - intros b Hb. by rewrite length_contents.
  - intros d b Hb Hd. rewrite length_contents in Hd by done.
    apply push_ok; [done|lia].
  - intros d b Hb Hd. rewrite length_contents in Hd by done.
    rewrite length_contents by done. apply push_full; [done|lia].
  - intros dest b Hb Hd. rewrite length_contents in Hd by done. by apply peek_ok.
  - intros n b Hb Hn. rewrite length_contents in Hn by done. by apply consume_ok.
Defined.

End RingBuffer.
