(* ===== verification/Telemetry.v ===== *)
(** * Wire constants and data structures (include/telemetry.h)

    A [double] is kept as its 64-bit IEEE-754 pattern, which is what the
    parser copies off the wire; [Float64.v] gives the pattern its value. *)

From S2P Require Import Prelude.

Definition PACKET_HEADER : Z := 0xAA55.
Definition HEADER_SIZE : Z := 2.
Definition LENGTH_SIZE : Z := 2.
Definition CRC_SIZE : Z := 2.

(** The object representation of a [double], as a 64-bit integer. *)
Abbreviation double := Z (only parsing).

Record Telemetry := mkTelemetry {
  drone_id : string;
  latitude : double;
  longitude : double;
  altitude : double;
  speed : double;
  timestamp : Z
}.

(** [Telemetry telemetry;] with its default member initialisers: the pattern
    of [0.0] is all zeros. *)
Definition default_telemetry : Telemetry := mkTelemetry "" 0 0 0 0 0.

Record DataChunk := mkDataChunk {
  client_id : Z;
  data : list byte
}.

(** The ranges of the C++ field types. *)
Definition is_u64 (z : Z) : Prop := 0 <= z < 2 ^ 64.

Record telemetry_ok (t : Telemetry) : Prop := {
  ok_latitude : is_u64 (latitude t);
  ok_longitude : is_u64 (longitude t);
  ok_altitude : is_u64 (altitude t);
  ok_speed : is_u64 (speed t);
  ok_timestamp : is_u64 (timestamp t)
}.

#[export] Instance Telemetry_eq_dec : EqDecision Telemetry.
Proof. solve_decision. Defined.

#[export] Instance DataChunk_eq_dec : EqDecision DataChunk.
Proof. solve_decision. Defined.
