(* ===== verification/Endian.v ===== *)
(** * Byte order (the [from_big_endian] template of src/streamingParser.cpp)

    The parser copies wire bytes into an integer object with [memcpy] and then
    reverses the object's bytes on a little-endian host. The host's byte order
    is a parameter of everything that loads an integer; [load_from_wire]
    shows that the loaded value is the big-endian value on either host, and
    the encoder [be_bytes] is its inverse. *)

From S2P Require Import Prelude.

Inductive endian := little | big.

(** [std::endian::native]. *)
Class Host := native : endian.

(** The value of an integer object whose bytes, in address order, are [l]. *)
Fixpoint le_value (l : list byte) : Z :=
  match l with
  | [] => 0
  | b :: l => byte_val b + 256 * le_value l
  end.

Definition be_value (l : list byte) : Z := le_value (rev l).

Definition load_uint `{Host} (object : list byte) : Z :=
  match native with
  | little => le_value object
  | big => be_value object
  end.

(** [from_big_endian], on the object's bytes. *)
Definition from_big_endian `{Host} (object : list byte) : list byte :=
  match native with
  | little => if 1 <? zlen object then rev object else object
  | big => object
  end.

(** The [n] low bytes of [z], most significant first: [struct.pack('>H')] and
    the like. *)
Fixpoint le_bytes (n : nat) (z : Z) : list byte :=
  match n with
  | O => []
  | S n => byte_of z :: le_bytes n (z / 256)
  end.

Definition be_bytes (n : nat) (z : Z) : list byte := rev (le_bytes n z).

(** ** Lemmas *)

Lemma load_from_wire `{Host} (wire : list byte) :
  load_uint (from_big_endian wire) = be_value wire.
Proof.
  unfold load_uint, from_big_endian, be_value. destruct native; [|done].
  destruct (Z.ltb_spec 1 (zlen wire)); [done|].
  destruct wire as [|b [|b' wire]]; [done..|]. unfold zlen in *. simpl in *. lia.
Qed.

Lemma length_le_bytes n z : length (le_bytes n z) = n.
Proof. revert z. induction n; intros; simpl; auto. Qed.

Lemma length_be_bytes n z : length (be_bytes n z) = n.
Proof. unfold be_bytes. by rewrite length_rev, length_le_bytes. Qed.

Lemma zlen_be_bytes n z : zlen (be_bytes n z) = Z.of_nat n.
Proof. unfold zlen. by rewrite length_be_bytes. Qed.

Lemma le_value_bound l : 0 <= le_value l < 256 ^ zlen l.
Proof.
  induction l as [|b l IH]; [done|]. cbn [le_value].
  pose proof (byte_val_bounds b). rewrite zlen_cons, Z.pow_add_r by (auto; lia).
  change (256 ^ 1) with 256. lia.
Qed.

Lemma be_value_bound l : 0 <= be_value l < 256 ^ zlen l.
Proof.
  unfold be_value. pose proof (le_value_bound (rev l)) as Hb. revert Hb.
  unfold zlen. by rewrite length_rev.
Qed.

Lemma le_value_le_bytes n z :
  0 <= z < 256 ^ Z.of_nat n → le_value (le_bytes n z) = z.
Proof.
  revert z. induction n as [|n IH]; intros z Hz.
  - simpl in *. lia.
  - rewrite Nat2Z.inj_succ, Z.pow_succ_r in Hz by lia. cbn [le_bytes le_value].
    rewrite IH, byte_val_of.
    + unfold wrap. change (2 ^ 8) with 256. pose proof (Z.div_mod z 256). lia.
    + split; [apply Z.div_pos; lia|]. apply Z.div_lt_upper_bound; lia.
Qed.

Lemma be_value_be_bytes n z :
  0 <= z < 256 ^ Z.of_nat n → be_value (be_bytes n z) = z.
Proof. intros. unfold be_value, be_bytes. rewrite rev_involutive. by apply le_value_le_bytes. Qed.

Lemma le_bytes_le_value l : le_bytes (length l) (le_value l) = l.
Proof.
  induction l as [|b l IH]; [done|]. cbn [length le_bytes le_value].
  pose proof (byte_val_bounds b). pose proof (le_value_bound l).
  f_equal.
  - apply byte_val_inj. rewrite byte_val_of. unfold wrap. change (2 ^ 8) with 256.
    rewrite (Z.mul_comm 256), Z_mod_plus_full. by apply Z.mod_small.
  - replace ((byte_val b + 256 * le_value l) / 256) with (le_value l); [done|].
    rewrite (Z.mul_comm 256), Z.div_add, Z.div_small; lia.
Qed.

Lemma be_bytes_be_value l : be_bytes (length l) (be_value l) = l.
Proof.
  unfold be_bytes, be_value. rewrite <-(length_rev l), le_bytes_le_value.
  apply rev_involutive.
Qed.

Lemma be_bytes_be_value_n n l : length l = n → be_bytes n (be_value l) = l.
Proof. intros <-. apply be_bytes_be_value. Qed.

Create Rewrite HintDb endian.
#[export] Hint Rewrite @load_from_wire @length_be_bytes @zlen_be_bytes : endian.

#[global] Arguments le_bytes : simpl never.
#[global] Arguments be_bytes : simpl never.
#[global] Arguments be_value : simpl never.
