(* ===== verification/Crc16.v ===== *)
(** * CRC-16/MODBUS ([StreamingParser::compute_crc16], src/streamingParser.cpp)

    The bit-serial checksum as the source writes it, the pure fold it computes,
    its equivalence with the catalogue definition of CRC-16/MODBUS (polynomial
    0x8005, reflected input and output), and what it detects: the checksum is
    an injective linear map of the error pattern, so every error burst of at
    most 16 bits changes it. *)

From S2P Require Import Prelude Endian.

(** ** The code *)

(** [if (crc & 1) crc = (crc >> 1) ^ 0xA001; else crc >>= 1;] *)
Definition crc16_bit (crc : Z) : Z :=
  if Z.land crc 1 =? 0 then u16 (Z.shiftr crc 1)
  else u16 (Z.lxor (Z.shiftr crc 1) 0xA001).

(** [data[i]] through a raw pointer. *)
Definition read_byte (p : list byte) (i : Z) : outcome byte :=
  match (if 0 <=? i then p !! Z.to_nat i else None) with
  | Some b => Ok b
  | None => Undefined
  end.

Definition crc16_loop_body (data : list byte) (i crc : Z) : outcome Z :=
  b ← read_byte data i;
  let crc := u16 (Z.lxor crc (byte_val b)) in
  for_loop 8 0 (λ _ crc, Ok (crc16_bit crc)) crc.

Definition compute_crc16 (data : list byte) (len : Z) : outcome Z :=
  for_loop (Z.to_nat len) 0 (crc16_loop_body data) 0xFFFF.

(** ** The checksum as a fold *)

Definition crc16_byte (crc : Z) (b : byte) : Z :=
  Nat.iter 8 crc16_bit (u16 (Z.lxor crc (byte_val b))).

Definition crc16 (data : list byte) : Z := foldl crc16_byte 0xFFFF data.

(** ** Reference: the catalogue parameters
    width=16 poly=0x8005 init=0xffff refin=true refout=true xorout=0x0000 *)

(** The low [w] bits of [z], in the opposite order. *)
Fixpoint reflect (w : nat) (z : Z) : Z :=
  match w with
  | O => 0
  | S w => Z.lor (Z.shiftl (Z.b2z (Z.testbit z 0)) (Z.of_nat w)) (reflect w (Z.shiftr z 1))
  end.

Definition ref_bit (reg : Z) : Z :=
  if Z.testbit reg 15 then u16 (Z.lxor (Z.shiftl reg 1) 0x8005)
  else u16 (Z.shiftl reg 1).

Definition ref_byte (reg : Z) (b : byte) : Z :=
  Nat.iter 8 ref_bit (Z.lxor reg (Z.shiftl (reflect 8 (byte_val b)) 8)).

Definition crc16_modbus (data : list byte) : Z :=
  reflect 16 (foldl ref_byte 0xFFFF data).

(** ** Errors *)

(** The byte-wise difference of two messages. *)
Definition xor_bytes (l k : list byte) : list byte :=
  zip_with (λ a b, byte_of (Z.lxor (byte_val a) (byte_val b))) l k.

(** One step of the register without the truncation to 16 bits, so that it
    can carry an error pattern of any length. *)
Definition shift_step (c : Z) : Z :=
  Z.lxor (Z.shiftr c 1) (if Z.odd c then 0xA001 else 0).

(** * Lemmas *)

Ltac bits i :=
  apply Z.bits_inj'; intros i ?;
  repeat rewrite ?Z.lxor_spec, ?Z.lor_spec, ?Z.land_spec, ?Z.bits_0.

Lemma lxor_bound w a b :
  0 <= w → 0 <= a < 2 ^ w → 0 <= b < 2 ^ w → 0 <= Z.lxor a b < 2 ^ w.
Proof.
  intros Hw Ha Hb. assert (0 <= Z.lxor a b) as H0 by (apply Z.lxor_nonneg; lia).
  split; [done|]. destruct (Z.eq_dec (Z.lxor a b) 0) as [->|]; [by apply Z.pow_pos_nonneg|].
  apply Z.log2_lt_pow2; [lia|].
  eapply Z.le_lt_trans; [apply Z.log2_lxor; lia|].
  apply Z.max_lub_lt.
  - destruct (Z.eq_dec a 0) as [->|]; [|apply Z.log2_lt_pow2; lia].
    destruct (Z.eq_dec w 0) as [->|]; [|simpl; lia].
    replace b with 0 in * by (simpl in *; lia). done.
  - destruct (Z.eq_dec b 0) as [->|]; [|apply Z.log2_lt_pow2; lia].
    destruct (Z.eq_dec w 0) as [->|]; [|simpl; lia].
    replace a with 0 in * by (simpl in *; lia). done.
Qed.

Lemma shiftr1_bound w a : 0 <= w → 0 <= a < 2 ^ (w + 1) → 0 <= Z.shiftr a 1 < 2 ^ w.
Proof.
  intros Hw Ha. rewrite Z.shiftr_div_pow2 by lia. change (2 ^ 1) with 2.
  rewrite Z.pow_add_r in Ha by lia. change (2 ^ 1) with 2 in Ha.
  split; [apply Z.div_pos; lia|]. apply Z.div_lt_upper_bound; lia.
Qed.

Lemma shift_step_bound w a :
  16 <= w → 0 <= a < 2 ^ w → 0 <= shift_step a < 2 ^ w.
Proof.
  intros Hw Ha. unfold shift_step.
  pose proof (shiftr1_bound (w - 1) a ltac:(lia)) as Hs.
  replace (w - 1 + 1) with w in Hs by lia.
  assert (2 ^ (w - 1) < 2 ^ w) by (apply Z.pow_lt_mono_r; lia).
  assert (2 ^ 16 <= 2 ^ w) by (apply Z.pow_le_mono_r; lia).
  change (2 ^ 16) with 65536 in *.
  apply lxor_bound; [lia|lia|]. destruct (Z.odd a); lia.
Qed.

Lemma crc16_bit_step c : 0 <= c < 65536 → crc16_bit c = shift_step c.
Proof.
  intros Hc. unfold crc16_bit, shift_step.
  change 1 with (Z.ones 1) at 1. rewrite Z.land_ones by lia. change (2 ^ 1) with 2.
  rewrite Zmod_odd.
  pose proof (shiftr1_bound 16 c ltac:(lia) ltac:(simpl; lia)) as Hs.
  change (2 ^ 16) with 65536 in Hs. destruct (Z.odd c); simpl.
  - apply u16_small. by apply (lxor_bound 16).
  - rewrite Z.lxor_0_r. by apply u16_small.
Qed.

Lemma shift_step_0 : shift_step 0 = 0.
Proof. reflexivity. Qed.

(** The step is linear over bitwise exclusive or... *)
Lemma shift_step_lxor a b : shift_step (Z.lxor a b) = Z.lxor (shift_step a) (shift_step b).
Proof.
  unfold shift_step. rewrite Z.shiftr_lxor.
  rewrite <-!Z.bit0_odd, Z.lxor_spec.
  bits i. destruct (Z.testbit a 0), (Z.testbit b 0); simpl xorb;
    rewrite ?Z.bits_0;
    repeat match goal with |- context [Z.testbit ?x i] => destruct (Z.testbit x i) end;
    reflexivity.
Qed.

(** ... and has a trivial kernel on 16 bits, because the polynomial's top bit
    lands where nothing is shifted in. *)
Lemma shift_step_kernel e : 0 <= e < 65536 → shift_step e = 0 → e = 0.
Proof.
  intros He. unfold shift_step. rewrite Z.lxor_eq_0_iff, Z.shiftr_div_pow2 by lia.
  change (2 ^ 1) with 2. intros Hd. pose proof (Z.div_mod e 2 ltac:(lia)).
  rewrite Zmod_odd in *. destruct (Z.odd e); lia.
Qed.

(** Without feedback: an even register is halved. *)
Lemma shift_step_double e : shift_step (2 * e) = e.
Proof.
  unfold shift_step. rewrite Z.odd_mul. simpl. rewrite Z.lxor_0_r.
  rewrite Z.shiftr_div_pow2 by lia. change (2 ^ 1) with 2.
  rewrite Z.mul_comm. by apply Z.div_mul.
Qed.

Abbreviation steps n := (Nat.iter n shift_step).

Lemma steps_lxor n a b : steps n (Z.lxor a b) = Z.lxor (steps n a) (steps n b).
Proof. induction n as [|n IH]; [done|]. simpl. by rewrite IH, shift_step_lxor. Qed.

Lemma steps_pow2 n e : steps n (e * 2 ^ Z.of_nat n) = e.
Proof.
  revert e. induction n as [|n IH]; intros e; [simpl; lia|].
  rewrite Nat2Z.inj_succ, Z.pow_succ_r by lia. rewrite Nat.iter_succ_r.
  replace (e * (2 * 2 ^ Z.of_nat n)) with (2 * (e * 2 ^ Z.of_nat n)) by lia.
  by rewrite shift_step_double.
Qed.

Lemma steps_bound n a : 0 <= a < 65536 → 0 <= steps n a < 65536.
Proof.
  intros. induction n as [|n IH]; [done|]. simpl. by apply (shift_step_bound 16).
Qed.

Lemma steps_kernel n e : 0 <= e < 65536 → steps n e = 0 → e = 0.
Proof.
  intros He. induction n as [|n IH]; [done|]. simpl. intros H0.
  apply IH. apply shift_step_kernel; [by apply steps_bound|done].
Qed.

Lemma steps_add n m a : steps (n + m) a = steps n (steps m a).
Proof. apply Nat.iter_add. Qed.

(** The register stays within 16 bits and a byte is eight steps. *)
Lemma crc16_byte_steps c b :
  0 <= c < 65536 →
  crc16_byte c b = steps 8 (Z.lxor c (byte_val b)) ∧ 0 <= crc16_byte c b < 65536.
Proof.
  intros Hc. pose proof (byte_val_bounds b).
  assert (0 <= Z.lxor c (byte_val b) < 65536) as Hx by (apply (lxor_bound 16); simpl; lia).
  unfold crc16_byte. rewrite u16_small by done.
  enough (∀ n, Nat.iter n crc16_bit (Z.lxor c (byte_val b)) = steps n (Z.lxor c (byte_val b)))
    as Heq by (rewrite Heq; split; [done|by apply steps_bound]).
  intros n. induction n as [|n IH]; [done|]. simpl.
  rewrite IH, crc16_bit_step; [done|]. by apply steps_bound.
Qed.

Lemma crc16_fold_bound data c :
  0 <= c < 65536 → 0 <= foldl crc16_byte c data < 65536.
Proof.
  revert c. induction data as [|b data IH]; intros c Hc; [done|]. simpl.
  apply IH. by apply crc16_byte_steps.
Qed.

Lemma crc16_bound data : 0 <= crc16 data < 65536.
Proof. apply crc16_fold_bound. lia. Qed.

(** The loop of the source is the fold, and reads nothing outside the array. *)
Lemma crc16_loop_body_ok data i c b :
  data !! i = Some b → crc16_loop_body data (Z.of_nat i) c = Ok (crc16_byte c b).
Proof.
  intros H. unfold crc16_loop_body, read_byte. ztrue. by rewrite Nat2Z.id, H.
Qed.

Lemma crc16_loop_ok data n from c :
  (from + n <= length data)%nat →
  for_loop n (Z.of_nat from) (crc16_loop_body data) c
  = Ok (foldl crc16_byte c (take n (drop from data))).
Proof.
  revert from c. induction n as [|n IH]; intros from c Hn; [done|].
  destruct (lookup_lt_is_Some_2 data from ltac:(lia)) as [b Hb].
  rewrite (drop_S data b from Hb). simpl.
  rewrite (crc16_loop_body_ok data from c b Hb). simpl.
  replace (Z.of_nat from + 1) with (Z.of_nat (S from)) by lia.
  apply IH. lia.
Qed.

Lemma compute_crc16_ok data len :
  0 <= len <= zlen data →
  compute_crc16 data len = Ok (crc16 (take (Z.to_nat len) data)).
Proof.
  intros Hlen. unfold compute_crc16, crc16.
  apply (crc16_loop_ok data _ 0%nat). unfold zlen in Hlen. lia.
Qed.

(** ** Error detection *)

Lemma xor_bytes_cons a b l k :
  xor_bytes (a :: l) (b :: k)
  = byte_of (Z.lxor (byte_val a) (byte_val b)) :: xor_bytes l k.
Proof. reflexivity. Qed.

Lemma byte_xor_val a b :
  byte_val (byte_of (Z.lxor (byte_val a) (byte_val b))) = Z.lxor (byte_val a) (byte_val b).
Proof.
  rewrite byte_val_of. apply wrap_small.
  pose proof (byte_val_bounds a). pose proof (byte_val_bounds b).
  by apply (lxor_bound 8).
Qed.

(** Adding a multiple of 256 to a byte does not carry. *)
Lemma lxor_low_byte c b z :
  0 <= b < 256 → Z.lxor c (b + 256 * z) = Z.lxor (Z.lxor c b) (z * 2 ^ 8).
Proof.
  intros Hb. rewrite Z.lxor_assoc. f_equal. change (2 ^ 8) with 256.
  rewrite (Z.mul_comm 256). apply Z.add_nocarry_lxor.
  bits i. change 256 with (2 ^ 8).
  destruct (Z.ltb_spec i 8).
  - rewrite Z.mul_pow2_bits_low by lia. apply andb_false_r.
  - rewrite <-(Z.mod_small b (2 ^ 8)) by (simpl; lia).
    by rewrite Z.mod_pow2_bits_high by lia.
Qed.

(** The difference of two checksums is the shifted error pattern. *)
Lemma crc16_difference l k c d :
  length l = length k → 0 <= c < 65536 → 0 <= d < 65536 →
  Z.lxor (foldl crc16_byte c l) (foldl crc16_byte d k)
  = steps (8 * length l) (Z.lxor (Z.lxor c d) (le_value (xor_bytes l k))).
Proof.
  revert k c d. induction l as [|a l IH]; intros [|b k] c d Hlen Hc Hd; try done.
  { simpl. by rewrite Z.lxor_0_r. }
  cbn [foldl length]. rewrite xor_bytes_cons. cbn [le_value]. rewrite byte_xor_val.
  destruct (crc16_byte_steps c a Hc) as [Ea Ba].
  destruct (crc16_byte_steps d b Hd) as [Eb Bb].
  rewrite IH by (try done; simpl in Hlen; lia). rewrite Ea, Eb, <-steps_lxor.
  replace (8 * S (length l))%nat with (8 * length l + 8)%nat by lia.
  rewrite steps_add. f_equal.
  rewrite lxor_low_byte.
  2: { rewrite <-byte_xor_val. apply byte_val_bounds. }
  rewrite (steps_lxor 8 (Z.lxor (Z.lxor c d) _)), (steps_pow2 8).
  rewrite steps_lxor. f_equal. rewrite <-steps_lxor. f_equal. bits i.
  repeat match goal with |- context [Z.testbit ?x i] => destruct (Z.testbit x i) end;
    reflexivity.
Qed.

Lemma crc16_burst l k e p :
  length l = length k →
  le_value (xor_bytes l k) = e * 2 ^ p → 0 < e < 65536 → 0 <= p →
  crc16 l ≠ crc16 k.
Proof.
  intros Hlen He Hb Hp Heq. unfold crc16 in Heq.
  pose proof (crc16_difference l k 0xFFFF 0xFFFF Hlen ltac:(lia) ltac:(lia)) as Hd.
  rewrite Heq, Z.lxor_nilpotent, Z.lxor_nilpotent, Z.lxor_0_l, He in Hd.
  pose proof (le_value_bound (xor_bytes l k)) as Hlb. rewrite He in Hlb.
  assert (zlen (xor_bytes l k) = Z.of_nat (length l)) as Hz.
  { unfold zlen, xor_bytes. rewrite length_zip_with. lia. }
  rewrite Hz in Hlb. change 256 with (2 ^ 8) in Hlb.
  rewrite <-Z.pow_mul_r in Hlb by lia.
  assert (p < 8 * Z.of_nat (length l)) as Hp8.
  { apply (Z.pow_lt_mono_r_iff 2); [lia..|].
    assert (0 < 2 ^ p) by (by apply Z.pow_pos_nonneg). nia. }
  replace (8 * length l)%nat with ((8 * length l - Z.to_nat p) + Z.to_nat p)%nat in Hd by lia.
  rewrite steps_add in Hd. rewrite <-(Z2Nat.id p) in Hd at 3 by lia.
  rewrite steps_pow2 in Hd. symmetry in Hd. apply steps_kernel in Hd; lia.
Qed.

(** ** The catalogue definition *)

Lemma reflect_bits w z i :
  0 <= i →
  Z.testbit (reflect w z) i
  = (i <? Z.of_nat w) && Z.testbit z (Z.of_nat w - 1 - i).
Proof.
  intros Hi. revert z. induction w as [|w IH]; intros z.
  { ztrue. apply Z.bits_0. }
  cbn [reflect]. rewrite Z.lor_spec, IH, Z.shiftl_spec, Nat2Z.inj_succ by lia.
  destruct (Z.ltb_spec i (Z.of_nat w)).
  - ztrue. rewrite Z.shiftr_spec, (Z.testbit_neg_r _ (i - Z.of_nat w)) by lia. simpl. f_equal. lia.
  - rewrite orb_false_r. destruct (Z.eq_dec i (Z.of_nat w)) as [->|].
    + rewrite Z.sub_diag, Z.b2z_bit0, (proj2 (Z.ltb_lt _ _)) by lia.
      rewrite andb_true_l. f_equal. lia.
    + rewrite (proj2 (Z.ltb_ge _ _)) by lia.
      destruct (Z.testbit z 0); [apply (Z.bits_above_log2 1)|apply Z.bits_0]; simpl; lia.
Qed.

Lemma bits_above w z i : 0 <= z < 2 ^ w → 0 <= w <= i → Z.testbit z i = false.
Proof.
  intros Hz Hi. rewrite <-(Z.mod_small z (2 ^ w)) by lia.
  apply Z.mod_pow2_bits_high. lia.
Qed.

Lemma wrap_bits w z i : 0 <= i → 0 <= w → Z.testbit (wrap w z) i = (i <? w) && Z.testbit z i.
Proof.
  intros. unfold wrap. destruct (Z.ltb_spec i w).
  - by apply Z.mod_pow2_bits_low.
  - apply Z.mod_pow2_bits_high. lia.
Qed.

(** The polynomial of the source is the catalogue's, reflected. *)
Lemma polynomial_reflected i :
  0 <= i < 16 → Z.testbit 0xA001 (15 - i) = Z.testbit 0x8005 i.
Proof.
  intros Hi.
  assert (Forall (λ i, Z.testbit 0xA001 (15 - i) = Z.testbit 0x8005 i) (seqZ 0 16)) as HF.
  { by repeat constructor. }
  rewrite Forall_forall in HF. apply HF. apply elem_of_seqZ. lia.
Qed.

Lemma reflect_step c :
  0 <= c < 65536 → reflect 16 (shift_step c) = ref_bit (reflect 16 c).
Proof.
  intros Hc. unfold ref_bit. rewrite reflect_bits by lia. simpl (_ && _).
  bits i. rewrite reflect_bits by done. unfold shift_step.
  rewrite <-Z.bit0_odd. change (Z.of_nat 16 - 1 - 15) with 0.
  change (Z.of_nat 16) with 16.
  destruct (Z.ltb_spec i 16) as [Hi|Hi].
  - assert (Z.testbit (Z.shiftl (reflect 16 c) 1) i = Z.testbit c (16 - i)) as Hr.
    { rewrite Z.shiftl_spec by done. destruct (Z.eq_dec i 0) as [->|].
      - rewrite (bits_above 16 c) by (simpl; lia). by apply Z.testbit_neg_r.
      - rewrite reflect_bits by lia. ztrue. f_equal. lia. }
    rewrite Z.lxor_spec, Z.shiftr_spec by lia.
    replace (16 - 1 - i + 1) with (16 - i) by lia.
    replace (16 - 1 - i) with (15 - i) by lia.
    destruct (Z.testbit c 0); rewrite wrap_bits by lia; ztrue; rewrite ?Z.lxor_spec, Hr.
    + by rewrite polynomial_reflected.
    + by rewrite Z.bits_0, xorb_false_r.
  - destruct (Z.testbit c 0); rewrite wrap_bits by lia; by ztrue.
Qed.

Lemma reflect_byte c b :
  0 <= b < 256 →
  reflect 16 (Z.lxor c b) = Z.lxor (reflect 16 c) (Z.shiftl (reflect 8 b) 8).
Proof.
  intros Hb. bits i. rewrite !reflect_bits, Z.shiftl_spec, Z.lxor_spec by done.
  change (Z.of_nat 16) with 16. destruct (Z.ltb_spec i 8).
  - rewrite (Z.testbit_neg_r _ (i - 8)) by lia. rewrite xorb_false_r.
    rewrite (bits_above 8 b) by (simpl; lia). by rewrite xorb_false_r.
  - rewrite reflect_bits by lia. change (Z.of_nat 8) with 8.
    destruct (Z.ltb_spec i 16).
    + ztrue. f_equal; f_equal; lia.
    + by ztrue.
Qed.

Lemma reflect_involutive c : 0 <= c < 65536 → reflect 16 (reflect 16 c) = c.
Proof.
  intros Hc. bits i. rewrite !reflect_bits by done. change (Z.of_nat 16) with 16.
  destruct (Z.ltb_spec i 16).
  - rewrite reflect_bits by lia. ztrue. f_equal. lia.
  - simpl. symmetry. apply (bits_above 16); simpl; lia.
Qed.

Lemma ref_byte_reflect c b :
  0 <= c < 65536 → ref_byte (reflect 16 c) b = reflect 16 (crc16_byte c b).
Proof.
  intros Hc. pose proof (byte_val_bounds b). destruct (crc16_byte_steps c b Hc) as [-> _].
  assert (0 <= Z.lxor c (byte_val b) < 65536) by (apply (lxor_bound 16); simpl; lia).
  unfold ref_byte. rewrite <-reflect_byte by done.
  enough (∀ n, Nat.iter n ref_bit (reflect 16 (Z.lxor c (byte_val b)))
               = reflect 16 (steps n (Z.lxor c (byte_val b)))) as Hn by apply Hn.
  intros n. induction n as [|n IH]; [done|]. rewrite !Nat.iter_succ, IH.
  symmetry. apply reflect_step. by apply steps_bound.
Qed.

Lemma crc16_is_modbus data : crc16_modbus data = crc16 data.
Proof.
  unfold crc16_modbus, crc16.
  enough (∀ c, 0 <= c < 65536 →
    foldl ref_byte (reflect 16 c) data = reflect 16 (foldl crc16_byte c data)) as Hgo.
  { change 0xFFFF with (reflect 16 0xFFFF) at 1. rewrite Hgo by lia.
    apply reflect_involutive. apply crc16_fold_bound. lia. }
  induction data as [|b data IH]; intros c Hc; [done|]. cbn [foldl].
  rewrite ref_byte_reflect by done. apply IH. by apply crc16_byte_steps.
Qed.

(** The catalogue's check value: the checksum of the digits 1 to 9. *)
Example crc16_check_value : crc16 (String.list_byte_of_string "123456789") = 0x4B37.
Proof. reflexivity. Qed.
