(* ===== verification/Payload.v ===== *)
(** * Telemetry payloads ([StreamingParser::deserialize_payload],
    src/streamingParser.cpp)

    The field-by-field decoder with its running offset and bounds checks, the
    single-check decoder [parse_payload] it is equal to, and the wire layout
    of README.md ([encode_payload]) it inverts: a payload decodes to [t]
    exactly when it starts with the encoding of [t]. *)

From S2P Require Import Prelude Endian Telemetry.

(** ** The code *)

(** The generic lambda [read_field]: [sizeof(T) = sz]. It returns the field's
    value and the advanced offset, or nothing when the payload is too short. *)
Definition read_field `{Host} (sz : Z) (data : list byte) (len offset : Z)
  : outcome (option (Z * Z)) :=
  if len <? u64 (offset + sz) then Ok None
  else
    field ← memcpy (replicate (Z.to_nat sz) x00) 0 data offset sz;
    Ok (Some (load_uint (from_big_endian field), u64 (offset + sz))).

(** [deserialize_payload(data, len)]; [data] is the memory from the payload
    pointer to the end of its array, which may be longer than [len]. *)
Definition deserialize_payload `{Host} (data : list byte) (len : Z)
  : outcome (option Telemetry) :=
  let offset := 0 in
  let? (id_len, offset) := read_field 2 data len offset in
  if len <? u64 (offset + id_len) then Ok None
  else
    id ← read_bytes data offset id_len;
    let offset := u64 (offset + id_len) in
    let? (latitude, offset) := read_field 8 data len offset in
    let? (longitude, offset) := read_field 8 data len offset in
    let? (altitude, offset) := read_field 8 data len offset in
    let? (speed, offset) := read_field 8 data len offset in
    let? (timestamp, offset) := read_field 8 data len offset in
    Ok (Some (mkTelemetry (String.string_of_list_byte id)
                latitude longitude altitude speed timestamp)).

(** ** Specification *)

(** The big-endian integer in the [n] bytes at [off]. *)
Definition field_at (off n : Z) (bs : list byte) : Z := be_value (slice off n bs).

(** Decoding with one length check up front. *)
Definition parse_payload (bs : list byte) : option Telemetry :=
  let id_len := field_at 0 2 bs in
  if zlen bs <? 2 then None
  else if zlen bs <? 2 + id_len + 40 then None
  else Some (mkTelemetry
    (String.string_of_list_byte (slice 2 id_len bs))
    (field_at (2 + id_len) 8 bs) (field_at (10 + id_len) 8 bs)
    (field_at (18 + id_len) 8 bs) (field_at (26 + id_len) 8 bs)
    (field_at (34 + id_len) 8 bs)).

(** The layout of README.md, "Payload structure". *)
Definition encode_payload (t : Telemetry) : list byte :=
  let id := String.list_byte_of_string (drone_id t) in
  be_bytes 2 (zlen id) ++ id
  ++ be_bytes 8 (latitude t) ++ be_bytes 8 (longitude t)
  ++ be_bytes 8 (altitude t) ++ be_bytes 8 (speed t)
  ++ be_bytes 8 (timestamp t).

(** The telemetry the layout can carry: fields of their C++ width, and an
    identifier whose length fits the 16-bit prefix. *)
Definition encodable (t : Telemetry) : Prop :=
  telemetry_ok t ∧ zlen (String.list_byte_of_string (drone_id t)) < 65536.

(** * Lemmas *)

Lemma field_at_bound off n bs :
  0 <= off → 0 <= n → off + n <= zlen bs → 0 <= field_at off n bs < 256 ^ n.
Proof.
  intros. unfold field_at. pose proof (be_value_bound (slice off n bs)) as Hb.
  by rewrite zlen_slice in Hb.
Qed.

Lemma read_field_ok `{Host} sz data len offset :
  0 <= sz <= 8 → 0 <= offset <= len → len <= zlen data → len <= PTRDIFF_MAX →
  read_field sz data len offset
  = Ok (if len <? offset + sz then None
        else Some (field_at offset sz data, offset + sz)).
Proof.
  intros Hs Ho Hl Hm. unfold PTRDIFF_MAX in *. unfold read_field.
  rewrite u64_small by lia. destruct (Z.ltb_spec len (offset + sz)); [done|].
  rewrite memcpy_all by (autorewrite with zlen; lia). simpl.
  by autorewrite with endian.
Qed.

(** The staged decoder is the single-check one, and touches no byte beyond
    [len]. *)
Lemma deserialize_payload_parse `{Host} data len :
  0 <= len <= zlen data → len <= PTRDIFF_MAX →
  deserialize_payload data len = Ok (parse_payload (take (Z.to_nat len) data)).
Proof.
  intros Hl Hm. unfold deserialize_payload, parse_payload, field_at.
  rewrite zlen_take by lia. rewrite Z.min_l by lia.
  rewrite read_field_ok by lia.
  destruct (Z.ltb_spec len (0 + 2)); autorewrite with outcome; [by ztrue|].
  rewrite (slice_take 0 2) by lia. fold (field_at 0 2 data).
  pose proof (field_at_bound 0 2 data ltac:(lia) ltac:(lia) ltac:(lia)) as Hid.
  set (id := field_at 0 2 data) in *. change (256 ^ 2) with 65536 in Hid.
  change (0 + 2) with 2 in *. rewrite u64_small by (unfold PTRDIFF_MAX in *; lia).
  rewrite (proj2 (Z.ltb_ge len 2)) by lia.
  destruct (Z.ltb_spec len (2 + id)); [by ztrue|].
  rewrite read_bytes_ok by lia. autorewrite with outcome.
  repeat (rewrite read_field_ok by lia;
    match goal with
    | |- context [if ?a <? ?b then None else Some (field_at _ _ _, _)] =>
        destruct (Z.ltb_spec a b); autorewrite with outcome; [by ztrue|]
    end).
  ztrue. rewrite !slice_take by lia. unfold field_at.
  replace (2 + id + 8) with (10 + id) by lia. replace (10 + id + 8) with (18 + id) by lia.
  replace (18 + id + 8) with (26 + id) by lia. by replace (26 + id + 8) with (34 + id) by lia.
Qed.

Lemma zlen_encode_payload t :
  zlen (encode_payload t) = 42 + zlen (String.list_byte_of_string (drone_id t)).
Proof. unfold encode_payload. rewrite !zlen_app, !zlen_be_bytes. lia. Qed.

(** Reading back an integer field written between two known parts. *)
Lemma field_at_encoded off n m l v k :
  zlen l = off → Z.of_nat m = n → 0 <= v < 256 ^ n →
  field_at off n (l ++ be_bytes m v ++ k) = v.
Proof.
  intros Hl <- Hv. unfold field_at.
  rewrite slice_app_mid by (try rewrite zlen_be_bytes; done).
  by apply be_value_be_bytes.
Qed.

Lemma parse_encode_payload t extra :
  encodable t → parse_payload (encode_payload t ++ extra) = Some t.
Proof.
  intros [[Hlat Hlon Halt Hsp Hts] Hid]. unfold is_u64 in *.
  unfold parse_payload. rewrite zlen_app, zlen_encode_payload.
  pose proof (zlen_nonneg extra). unfold encode_payload.
  set (id := String.list_byte_of_string (drone_id t)) in *.
  pose proof (zlen_nonneg id). rewrite <-!app_assoc.
  assert (∀ l, field_at 0 2 (be_bytes 2 (zlen id) ++ l) = zlen id) as Hpre.
  { intros l. apply (field_at_encoded 0 2 2 []); [done..|]. simpl. lia. }
  rewrite Hpre. do 2 ztrue.
  rewrite (slice_app_mid 2 (zlen id) (be_bytes 2 (zlen id)) id) by
    (try rewrite zlen_be_bytes; done).
  subst id. rewrite String.string_of_list_byte_of_string.
  destruct t as [s lat lon alt sp ts].
  cbn [drone_id latitude longitude altitude speed timestamp] in *. change (2 ^ 64) with (256 ^ 8) in *.
  f_equal. f_equal;
    [ do 1 rewrite app_assoc | do 2 rewrite app_assoc | do 3 rewrite app_assoc
    | do 4 rewrite app_assoc | do 5 rewrite app_assoc ];
    (apply field_at_encoded; [|done|done]);
    rewrite ?zlen_app, ?zlen_be_bytes; lia.
Qed.

(** Splitting off the field at an offset. *)
Lemma drop_field off n bs :
  0 <= off → off + Z.of_nat n <= zlen bs →
  drop (Z.to_nat off) bs
  = be_bytes n (field_at off (Z.of_nat n) bs) ++ drop (Z.to_nat (off + Z.of_nat n)) bs.
Proof.
  intros. rewrite (drop_slice off (Z.of_nat n)) by lia. f_equal. unfold field_at.
  symmetry. apply be_bytes_be_value_n.
  enough (zlen (slice off (Z.of_nat n) bs) = Z.of_nat n) by (unfold zlen in *; lia).
  apply zlen_slice; lia.
Qed.

Lemma parse_payload_inv bs t :
  parse_payload bs = Some t → encodable t ∧ ∃ extra, bs = encode_payload t ++ extra.
Proof.
  unfold parse_payload. destruct (Z.ltb_spec (zlen bs) 2); [done|].
  pose proof (field_at_bound 0 2 bs ltac:(lia) ltac:(lia) ltac:(lia)) as Hid.
  set (id := field_at 0 2 bs) in *. change (256 ^ 2) with 65536 in Hid.
  destruct (Z.ltb_spec (zlen bs) (2 + id + 40)); [done|]. intros [= <-].
  assert (zlen (slice 2 id bs) = id) as Hlen by (apply zlen_slice; lia).
  split.
  - split; [|simpl; rewrite String.list_byte_of_string_of_list_byte; lia].
    split; simpl; apply (field_at_bound _ 8); lia.
  - exists (drop (Z.to_nat (2 + id + 40)) bs). unfold encode_payload. simpl.
    rewrite String.list_byte_of_string_of_list_byte, Hlen, <-!app_assoc.
    change bs with (drop (Z.to_nat 0) bs) at 1.
    rewrite (drop_field 0 2) by (simpl; lia). f_equal. simpl (0 + _).
    rewrite (drop_slice 2 id) by lia. f_equal.
    rewrite (drop_field (2 + id) 8) by lia. f_equal.
    replace (2 + id + Z.of_nat 8) with (10 + id) by lia.
    rewrite (drop_field (10 + id) 8) by lia. f_equal.
    replace (10 + id + Z.of_nat 8) with (18 + id) by lia.
    rewrite (drop_field (18 + id) 8) by lia. f_equal.
    replace (18 + id + Z.of_nat 8) with (26 + id) by lia.
    rewrite (drop_field (26 + id) 8) by lia. f_equal.
    replace (26 + id + Z.of_nat 8) with (34 + id) by lia.
    rewrite (drop_field (34 + id) 8) by lia. f_equal.
    by replace (34 + id + Z.of_nat 8) with (2 + id + 40) by lia.
Qed.
