(* ===== verification/ThreadSafeQueue.v ===== *)
(** * ThreadSafeQueue (include/threadSafeQueue.h)

    The FIFO queue between the threads: the member functions, each the
    body of one critical section: what it does to the queue, what it returns,
    or that the thread must wait. The threads, condition variables and stop
    requests around it are in [QueueThreads.v]. *)

From S2P Require Import Prelude.

(** ** State and member functions *)

Record ThreadSafeQueue (T : Type) := mkQueue {
  m_queue : list T;
  m_max_size : Z
}.
Arguments mkQueue {T} _ _.
Arguments m_queue {T} _.
Arguments m_max_size {T} _.

(** [ThreadSafeQueue(max_size)], [0] meaning unbounded. *)
Definition new_queue {T} (max_size : Z) : ThreadSafeQueue T := mkQueue [] max_size.

(** [cv.wait(lock, st, pred)]: [while (!st.stop_requested()) { if (pred())
    return true; sleep }  return pred();], up to the point where the thread
    sleeps. *)
Definition wait (stop_requested pred : bool) : outcome bool :=
  if stop_requested then Ok pred
  else if pred then Ok true else Blocked.

(** [push(item, st)]. The stop token is read by the wait and again after it;
    a stop may be requested in between. *)
Definition push {T} (item : T) (stop_in_wait stop_after : bool)
    (q : ThreadSafeQueue T) : outcome (bool * ThreadSafeQueue T) :=
  ready ← (if 0 <? m_max_size q
           then wait stop_in_wait (zlen (m_queue q) <? m_max_size q)
           else Ok true);
  if negb ready then Ok (false, q)
  else if stop_after then Ok (false, q)
  else Ok (true, mkQueue (m_queue q ++ [item]) (m_max_size q)).

(** [pop(st)]. *)
Definition pop {T} (stop_in_wait : bool) (q : ThreadSafeQueue T)
  : outcome (option T * ThreadSafeQueue T) :=
  ready ← wait stop_in_wait (match m_queue q with [] => false | _ => true end);
  match ready, m_queue q with
  | true, item :: rest => Ok (Some item, mkQueue rest (m_max_size q))
  | true, [] => Undefined (* front() of an empty queue *)
  | false, _ => Ok (None, q)
  end.

Definition queue_size {T} (q : ThreadSafeQueue T) : Z := zlen (m_queue q).

(** [push(item)] with the default token, which never requests a stop. *)
Definition push_default {T} (item : T) (q : ThreadSafeQueue T)
  : outcome (bool * ThreadSafeQueue T) := push item false false q.

(** The queue after a push that is known to succeed. *)
Definition enqueue {T} (item : T) (q : ThreadSafeQueue T) : ThreadSafeQueue T :=
  mkQueue (m_queue q ++ [item]) (m_max_size q).

(** ** Components that hold a reference to a queue *)

(** A component of state [S] refers to one queue of [T]: the program's
    components hold [ThreadSafeQueue<T>&] members of pairwise different [T]. *)
Class HasQueue (S T : Type) := {
  queue_of : S → ThreadSafeQueue T;
  set_queue : ThreadSafeQueue T → S → S
}.

Class HasQueueLaws (S T : Type) `{HasQueue S T} := {
  queue_of_set q (s : S) : queue_of (set_queue q s) = q;
  set_queue_of (s : S) : set_queue (queue_of s) s = s;
  set_queue_twice q q' (s : S) : set_queue q (set_queue q' s) = set_queue q s
}.

Section Reference.
Context {S T : Type} `{HasQueue S T}.

(** [m_xxx_queue.push(item);] as a statement: the result is ignored. *)
Definition push_to (item : T) : M S unit :=
  q ← gets queue_of;
  r ← lift (push_default item q);
  modify (set_queue r.2).

(** [m_xxx_queue.pop(stop_token)]. *)
Definition pop_from (stop : bool) : M S (option T) :=
  q ← gets queue_of;
  r ← lift (pop stop q);
  modify (set_queue r.2);;
  mret r.1.

End Reference.

(** ** Lemmas *)

Lemma push_unbounded {T} (item : T) q :
  m_max_size q = 0 → push_default item q = Ok (true, enqueue item q).
Proof. destruct q as [l m]. simpl. by intros ->. Qed.

Lemma enqueue_max {T} (item : T) q : m_max_size (enqueue item q) = m_max_size q.
Proof. done. Qed.

Lemma pop_cases {T} stop (q : ThreadSafeQueue T) :
  pop stop q = match m_queue q with
               | item :: rest => Ok (Some item, mkQueue rest (m_max_size q))
               | [] => if stop then Ok (None, q) else Blocked
               end.
Proof. unfold pop, wait. by destruct (m_queue q), stop. Qed.

Section ReferenceLemmas.
Context {S T : Type} `{HasQueue S T}.

Lemma push_to_ok (item : T) (s : S) :
  m_max_size (queue_of (T:=T) s) = 0 →
  push_to item s = (Ok tt, set_queue (enqueue item (queue_of s)) s).
Proof. intros Hq. unfold push_to. mrun. by rewrite push_unbounded. Qed.

Lemma pop_from_cases stop (s : S) :
  pop_from stop s
  = match m_queue (queue_of s) with
    | item :: rest =>
        (Ok (Some item), set_queue (mkQueue rest (m_max_size (queue_of s))) s)
    | [] => if stop then (Ok None, set_queue (queue_of s) s) else (Blocked, s)
    end.
Proof.
  unfold pop_from. mrun. rewrite pop_cases. destruct (m_queue (queue_of s)); [|done].
  by destruct stop.
Qed.

End ReferenceLemmas.
