(* ===== verification/Worker.v ===== *)
(** * The loop of a consumer thread

    [StreamingParser::run], [BusinessLogic::run] and [AsyncLogger::run] share
    one loop:
<<
    while (!stop_token.stop_requested()) {
        auto maybe = m_queue.pop(stop_token);
        if (!maybe.has_value()) break;
        ... handle *maybe ...
    }
>>
    It is defined once, over the queue the component reads ([HasQueue]) and
    its handler, and its correctness is proved once: the items handled are
    those that arrived, in order, and the loop ends or waits as it should. *)

From S2P Require Import Prelude ThreadSafeQueue.

Section Loop.
Context {S T E : Type} `{HasQueue S T}.

(** What the rest of the program does around one iteration: the items that
    arrive before it, what the stop token answers at the loop condition and
    inside [pop], and what else the handler reads (a clock). *)
Record Round := mkRound {
  arrivals : list T;
  stop_check : bool;
  stop_in_pop : bool;
  env : E
}.

Context (handle : E → T → M S unit).

Definition arrive (items : list T) : M S unit :=
  modify (λ s, set_queue
    (mkQueue (m_queue (queue_of s) ++ items) (m_max_size (queue_of (T:=T) s))) s).

Definition worker_iteration (r : Round) : M S control :=
  if stop_check r then mret Break
  else
    maybe_item ← pop_from (stop_in_pop r);
    match maybe_item with
    | None => mret Break
    | Some item => handle (env r) item;; mret Continue
    end.

(** The loop over the rounds the environment grants; [true] when the thread
    left the loop, [false] when it is still running. *)
Fixpoint worker_loop (rounds : list Round) : M S bool :=
  match rounds with
  | [] => mret false
  | r :: rounds =>
      arrive (arrivals r);;
      c ← worker_iteration r;
      match c with Continue => worker_loop rounds | Break => mret true end
  end.

End Loop.
Arguments Round : clear implicits.
Arguments mkRound {T E} _ _ _ _.

(** The ways a loop can stand after some rounds: left, still running, or
    waiting for an item. *)
Definition loop_outcome (o : outcome bool) : Prop :=
  o = Ok true ∨ o = Ok false ∨ o = Blocked.

(** Where a loop that handled [n] items stands: it is still running only when
    it has used up its rounds; it waits only on an empty queue, [left]; it was
    left only because a stop had been requested. *)
Record loop_progress {T E} (o : outcome bool) (n : nat) (rounds : list (Round T E))
    (left : list T) : Prop := {
  progress_running : o = Ok false → n = length rounds;
  progress_waiting : o = Blocked → left = [];
  progress_ended : o ≠ Ok false → ∃ r, rounds !! n = Some r
    ∧ (o = Ok true → stop_check r = true ∨ stop_in_pop r = true)
}.

(** No stop is requested and there is an item for every round. *)
Definition prompt {T E} (rounds : list (Round T E)) : Prop :=
  Forall (λ r, stop_check r = false ∧ stop_in_pop r = false) rounds
  ∧ ∀ k, (k < length rounds)%nat →
      (k < length (concat (map arrivals (take (S k) rounds))))%nat.

(** ** Correctness *)

Section Correct.
Context {S T E A : Type} `{HasQueue S T} `{!HasQueueLaws S T}.
Context (handle : E → T → M S unit).

(** An abstraction of the component that its handler follows. *)
Context (repr : A → S → Prop) (after : A → E * T → A).

(** The handler returns, follows [after], and leaves the queue it reads
    alone; what happens to that queue does not concern the abstraction. *)
Context (handle_ok : ∀ a s e x, repr a s →
  ∃ s', handle e x s = (Ok tt, s') ∧ repr (after a (e, x)) s' ∧ queue_of s' = queue_of (T:=T) s).
Context (repr_queue : ∀ a s (q : ThreadSafeQueue T), repr a s → repr a (set_queue q s)).

(** The rounds whose arrivals have been seen when [n] items were handled. *)
Definition started (o : outcome bool) (n : nat) : nat :=
  match o with Ok false => n | _ => Datatypes.S n end.

(** The items handled, [xs], each with what its round's environment said,
    and the items still queued are together exactly those that arrived. *)
Lemma worker_loop_ok rounds a s :
  repr a s →
  ∃ o s' xs,
    worker_loop handle rounds s = (o, s') ∧ loop_outcome o
    ∧ repr (foldl after a xs) s'
    ∧ map fst xs = map env (take (length xs) rounds)
    ∧ m_queue (queue_of s) ++ concat (map arrivals (take (started o (length xs)) rounds))
      = map snd xs ++ m_queue (queue_of s')
    ∧ (o = Ok false → length xs = length rounds)
    ∧ (o = Blocked ∨ (o = Ok true ∧ Forall (λ r, stop_check r = false) rounds) →
       m_queue (queue_of (T:=T) s') = [])
    ∧ (Forall (λ r, stop_in_pop r = true) rounds → o ≠ Blocked)
    ∧ (o ≠ Ok false → ∃ r, rounds !! length xs = Some r
         ∧ (o = Ok true → stop_check r = true ∨ stop_in_pop r = true)).
Proof.
  revert a s. induction rounds as [|r rounds IH]; intros a s Hr.
  { exists (Ok false), s, []. split_and!; try done; [by right; left| |by intros [?|[? _]]].
    simpl. by rewrite app_nil_r. }
  cbn [worker_loop]. unfold arrive. mrun.
  set (q := mkQueue (m_queue (queue_of s) ++ arrivals r) _).
  assert (m_queue (queue_of (set_queue q s)) = m_queue (queue_of s) ++ arrivals r) as Hq
    by (by rewrite queue_of_set).
  unfold worker_iteration. destruct (stop_check r) eqn:Hsc.
  { exists (Ok true), (set_queue q s), []. simpl. rewrite app_nil_r, Hq.
    split_and!; try done; [by left|by apply repr_queue| |intros _; exists r; by auto].
    intros [?|[_ Hall%Forall_inv]]; [done|congruence]. }
  mrun. rewrite pop_from_cases. destruct (m_queue (queue_of (set_queue q s))) as [|x rest] eqn:Eq.
  { destruct (stop_in_pop r) eqn:Hsp.
    - exists (Ok true), (set_queue (queue_of (set_queue q s)) (set_queue q s)), [].
      rewrite set_queue_of, Eq. simpl. rewrite app_nil_r.
      split_and!; try done; [by left|by apply repr_queue|intros _; exists r; by auto].
    - exists Blocked, (set_queue q s), []. rewrite Eq. simpl. rewrite app_nil_r.
      split_and!; try done; [by right; right|by apply repr_queue| |intros _; exists r; by auto].
      intros Hall%Forall_inv. congruence. }
  set (s0 := set_queue _ (set_queue q s)).
  destruct (handle_ok a s0 (env r) x) as (s1 & E1 & Hr1 & Hq1).
  { by apply repr_queue, repr_queue. }
  rewrite E1. destruct (IH (after a (env r, x)) s1 Hr1)
    as (o & s' & xs & E' & Ho & Hr' & Henv & Hxs & Hrun & Hblk & Hpop & Hstop).
  exists o, s', ((env r, x) :: xs). split; [done|]. split; [done|]. split; [done|].
  split; [simpl; by rewrite Henv|]. split; [|split; [|split; [|split]]].
  - assert (started o (length ((env r, x) :: xs)) = Datatypes.S (started o (length xs))) as ->
      by (by destruct o as [[]| | | |]).
    cbn [take firstn map concat snd]. rewrite app_assoc, <-Hq, <-!app_comm_cons.
    f_equal. rewrite <-Hxs, Hq1. unfold s0. by rewrite queue_of_set.
  - intros Hf. simpl. by rewrite Hrun.
  - intros [?|[? Hall%Forall_inv_tail]]; apply Hblk; [by left|by right].
  - intros Hall%Forall_inv_tail. by apply Hpop.
  - intros Hd. by apply Hstop.
Qed.

End Correct.

(** On a prompt schedule, the loop handles an item in every round. *)
Lemma prompt_keeps_up {T E} (rounds : list (Round T E)) o xs left :
  prompt rounds → loop_outcome o → loop_progress o (length xs) rounds left →
  concat (map arrivals (take (started o (length xs)) rounds)) = xs ++ left →
  length xs = length rounds ∧ concat (map arrivals rounds) = xs ++ left.
Proof.
  intros [Hstop Hitems] Ho [Hrun Hwait Hend] Hq.
  assert (o ≠ Ok false → False) as Hf.
  { intros Hne. destruct (Hend Hne) as (r & Hr & Hs).
    pose proof (lookup_lt_Some _ _ _ Hr) as Hlen.
    rewrite Forall_lookup in Hstop. destruct (Hstop _ _ Hr) as [H1 H2].
    destruct Ho as [-> | [-> | ->]]; [|done|].
    - destruct (Hs eq_refl); congruence.
    - rewrite (Hwait eq_refl), app_nil_r in Hq. cbn [started] in Hq.
      pose proof (Hitems _ Hlen) as Hi. rewrite Hq in Hi. lia. }
  destruct Ho as [-> | [-> | ->]]; [by destruct Hf| |by destruct Hf].
  rewrite (Hrun eq_refl) in *. split; [done|]. cbn [started] in Hq. by rewrite take_ge in Hq.
Qed.
