(* ===== verification/Scan.v ===== *)
(** * What the byte stream of one client means

    The reference the parser is verified against: a function from the bytes
    received so far to the packets, failures and bytes left over. It has no
    state machine, no buffer and no notion of chunk: at each position it
    classifies the bytes at hand ([classify]) and either stops for more, drops
    one byte, or consumes one whole frame. The theorems are about the
    stream: what has been decided never changes when more bytes arrive, what
    is left over is bounded, encoded packets come out as they went in, and no
    valid frame is passed over. *)

From S2P Require Import Prelude Endian Telemetry Crc16 Payload.

(** The largest payload the parser accepts. *)
Definition max_payload : Z := 256.

(** The verdict on the bytes at the front of the stream. *)
Inductive verdict :=
| NeedMore
| Resync
| BadCrc
| Accept (payload : list byte).

#[export] Instance verdict_eq_dec : EqDecision verdict.
Proof. solve_decision. Defined.

Definition classify (l : list byte) : verdict :=
  if zlen l <? 2 then NeedMore
  else if negb (field_at 0 2 l =? PACKET_HEADER) then Resync
  else if zlen l <? 4 then NeedMore
  else
    let n := field_at 2 2 l in
    if (n =? 0) || (max_payload <? n) then Resync
    else if zlen l <? n + 6 then NeedMore
    else if field_at (n + 4) 2 l =? crc16 (slice 0 (n + 4) l)
         then Accept (slice 4 n l)
         else BadCrc.

(** What the client's owner sees. *)
Inductive event :=
| Received (t : Telemetry)
| CrcMismatch
| Malformed.

Definition payload_event (payload : list byte) : event :=
  match parse_payload payload with
  | Some t => Received t
  | None => Malformed
  end.

(** The events a verdict emits and the bytes it consumes. *)
Definition emits (v : verdict) : list event :=
  match v with
  | NeedMore | Resync => []
  | BadCrc => [CrcMismatch]
  | Accept p => [payload_event p]
  end.

Definition advance (v : verdict) : nat :=
  match v with
  | NeedMore => 0
  | Resync | BadCrc => 1
  | Accept p => length p + 6
  end.

Fixpoint scan_fuel (fuel : nat) (l : list byte) : list event * list byte :=
  match fuel with
  | O => ([], l)
  | S fuel =>
      match classify l with
      | NeedMore => ([], l)
      | v => let '(es, r) := scan_fuel fuel (drop (advance v) l) in (emits v ++ es, r)
      end
  end.

(** Every verdict but [NeedMore] consumes a byte, so the length is fuel
    enough ([scan_unfold]). *)
Definition scan (l : list byte) : list event * list byte := scan_fuel (length l) l.

(** The scan of [l] accepts the frame with payload [p] at offset [o]. *)
Inductive accepts : list byte → nat → list byte → Prop :=
| accept_here l p :
    classify l = Accept p → accepts l 0 p
| accept_later l o p :
    classify l ≠ NeedMore →
    accepts (drop (advance (classify l)) l) o p →
    accepts l (advance (classify l) + o) p.

(** The telemetry among the events. *)
Definition received (es : list event) : list Telemetry :=
  omap (λ e, match e with Received t => Some t | _ => None end) es.

(** The rejected packets among the events. *)
Definition failures (es : list event) : Z :=
  zlen (List.filter (λ e, match e with Received _ => false | _ => true end) es).

(** ** The encoder (README.md, "Wire Protocol") *)

Definition frame_body (payload : list byte) : list byte :=
  be_bytes 2 PACKET_HEADER ++ be_bytes 2 (zlen payload) ++ payload.

Definition encode_frame (payload : list byte) : list byte :=
  frame_body payload ++ be_bytes 2 (crc16 (frame_body payload)).

Definition encode_packet (t : Telemetry) : list byte := encode_frame (encode_payload t).

(** A payload size the parser accepts. *)
Definition sendable (t : Telemetry) : Prop :=
  telemetry_ok t ∧ zlen (String.list_byte_of_string (drone_id t)) <= 214.

(** * Lemmas *)

(** Peels the comparisons off [classify l]. *)
Ltac classify_cases l :=
  unfold classify;
  destruct (Z.ltb_spec (zlen l) 2);
  [|destruct (Z.eqb_spec (field_at 0 2 l) PACKET_HEADER) as [Hhdr|Hhdr]; cbn [negb];
    [destruct (Z.ltb_spec (zlen l) 4);
     [|destruct (Z.eqb_spec (field_at 2 2 l) 0); cbn [orb];
       [|destruct (Z.ltb_spec max_payload (field_at 2 2 l));
         [|destruct (Z.ltb_spec (zlen l) (field_at 2 2 l + 6));
           [|destruct (Z.eqb_spec (field_at (field_at 2 2 l + 4) 2 l)
                         (crc16 (slice 0 (field_at 2 2 l + 4) l))) as [Hcrc|Hcrc]]]]]|]].

Lemma field_at_app off n l k :
  0 <= off → 0 <= n → off + n <= zlen l → field_at off n (l ++ k) = field_at off n l.
Proof.
  intros. unfold field_at, slice, zlen in *. f_equal.
  rewrite drop_app_le by lia. apply take_app_le. rewrite length_drop. lia.
Qed.

Lemma slice_app off n (l k : list byte) :
  0 <= off → 0 <= n → off + n <= zlen l → slice off n (l ++ k) = slice off n l.
Proof.
  intros. unfold slice, zlen in *.
  rewrite drop_app_le by lia. apply take_app_le. rewrite length_drop. lia.
Qed.

Lemma length_field_nonneg l : 4 <= zlen l → 0 <= field_at 2 2 l < 65536.
Proof. intros. apply (field_at_bound 2 2); lia. Qed.

(** A verdict is final: more bytes do not change it. *)
Lemma classify_app l k : classify l ≠ NeedMore → classify (l ++ k) = classify l.
Proof.
  pose proof (zlen_nonneg k). intros Hv. revert Hv. unfold classify.
  destruct (Z.ltb_spec (zlen l) 2); [done|].
  rewrite zlen_app, (field_at_app 0 2) by lia. rewrite (proj2 (Z.ltb_ge _ 2)) by lia.
  destruct (negb _); [done|].
  destruct (Z.ltb_spec (zlen l) 4); [done|].
  rewrite (field_at_app 2 2) by lia. rewrite (proj2 (Z.ltb_ge _ 4)) by lia.
  pose proof (length_field_nonneg l ltac:(lia)).
  set (n := field_at 2 2 l) in *. destruct (_ || _); [done|].
  destruct (Z.ltb_spec (zlen l) (n + 6)); [done|].
  rewrite (proj2 (Z.ltb_ge _ (n + 6))) by lia.
  by rewrite field_at_app, !slice_app by lia.
Qed.

Lemma advance_length l : (advance (classify l) <= length l)%nat.
Proof.
  classify_cases l; cbn [advance]; unfold zlen in *; try lia.
  pose proof (length_field_nonneg l ltac:(unfold zlen; lia)).
  pose proof (zlen_slice 4 (field_at 2 2 l) l). unfold zlen in *. lia.
Qed.

Lemma advance_pos l : classify l ≠ NeedMore → (0 < advance (classify l))%nat.
Proof. destruct (classify l); simpl; [done|lia..]. Qed.

(** Enough fuel is enough. *)
Lemma scan_fuel_enough fuel l :
  (length l <= fuel)%nat → scan_fuel fuel l = scan l.
Proof.
  unfold scan. revert l. induction fuel as [fuel IH] using lt_wf_ind. intros l Hl.
  destruct fuel as [|fuel].
  { by destruct l; [|simpl in Hl; lia]. }
  pose proof (advance_length l) as Ha. pose proof (advance_pos l) as Hp.
  destruct l as [|b l]; [done|]. cbn [length scan_fuel].
  set (l' := b :: l) in *. assert (length l' = S (length l)) as Hlen by done.
  destruct (classify l') eqn:E; [done|..]; specialize (Hp ltac:(done));
    (set (k := drop _ l'); assert (length k <= length l)%nat
      by (subst k; rewrite length_drop; lia));
    rewrite (IH fuel ltac:(lia) k ltac:(lia)), (IH (length l) ltac:(lia) k ltac:(lia));
    done.
Qed.

Lemma scan_unfold l :
  scan l = match classify l with
           | NeedMore => ([], l)
           | v => let '(es, r) := scan (drop (advance v) l) in (emits v ++ es, r)
           end.
Proof.
  pose proof (advance_length l) as Ha. pose proof (advance_pos l) as Hp.
  destruct l as [|b l]; [done|]. unfold scan at 1. cbn [length scan_fuel].
  set (l' := b :: l) in *. assert (length l' = S (length l)) as Hlen by done.
  destruct (classify l') eqn:E; [done|..]; specialize (Hp ltac:(done));
    (rewrite scan_fuel_enough; [done|rewrite length_drop; lia]).
Qed.

Lemma scan_needmore l : classify l = NeedMore → scan l = ([], l).
Proof. intros H. rewrite scan_unfold. by rewrite H. Qed.

Lemma scan_advance l :
  classify l ≠ NeedMore →
  scan l = (emits (classify l) ++ (scan (drop (advance (classify l)) l)).1,
            (scan (drop (advance (classify l)) l)).2).
Proof.
  intros H. rewrite scan_unfold at 1. destruct (classify l); [done|..];
    cbv zeta; by destruct (scan (drop _ l)).
Qed.

(** Induction along the scan. *)
Lemma scan_ind (P : list byte → Prop) :
  (∀ l, classify l = NeedMore → P l) →
  (∀ l, classify l ≠ NeedMore → P (drop (advance (classify l)) l) → P l) →
  ∀ l, P l.
Proof.
  intros Hstop Hgo l. remember (length l) as n eqn:E. revert l E.
  induction n as [n IH] using lt_wf_ind. intros l ->.
  destruct (decide (classify l = NeedMore)) as [Hn|Hn]; [by apply Hstop|].
  apply Hgo; [done|]. apply (IH (length (drop (advance (classify l)) l))); [|done].
  rewrite length_drop. pose proof (advance_length l). pose proof (advance_pos l Hn). lia.
Qed.

Lemma scan_app l k :
  scan (l ++ k) = ((scan l).1 ++ (scan ((scan l).2 ++ k)).1, (scan ((scan l).2 ++ k)).2).
Proof.
  induction l as [l Hl|l Hl IH] using scan_ind.
  - rewrite (scan_needmore l Hl). simpl. by destruct (scan (l ++ k)).
  - rewrite (scan_advance l Hl), (scan_advance (l ++ k)) by (by rewrite classify_app).
    rewrite classify_app by done. rewrite drop_app_le by apply advance_length.
    rewrite IH. simpl. by rewrite app_assoc.
Qed.

(** The bytes left over are undecided, and fewer than the largest frame. *)
Lemma scan_rest l : classify (scan l).2 = NeedMore.
Proof.
  induction l as [l Hl|l Hl IH] using scan_ind.
  - by rewrite scan_needmore.
  - by rewrite scan_advance.
Qed.

Lemma scan_rest_suffix l : ∃ pre, l = pre ++ (scan l).2.
Proof.
  induction l as [l Hl|l Hl [pre IH]] using scan_ind.
  - exists []. by rewrite scan_needmore.
  - exists (take (advance (classify l)) l ++ pre). rewrite scan_advance by done.
    simpl. by rewrite <-app_assoc, <-IH, take_drop.
Qed.

Lemma needmore_bound l : classify l = NeedMore → zlen l < 262.
Proof. classify_cases l; unfold max_payload in *; intros; try done; lia. Qed.

Lemma scan_rest_bound l : zlen (scan l).2 < 262.
Proof. apply needmore_bound, scan_rest. Qed.

(** Scanning twice finds nothing new. *)
Lemma scan_rest_stable l : scan (scan l).2 = ([], (scan l).2).
Proof. apply scan_needmore, scan_rest. Qed.

(** ** Frames *)

Lemma zlen_frame_body p : zlen (frame_body p) = 4 + zlen p.
Proof. unfold frame_body. rewrite !zlen_app, !zlen_be_bytes. lia. Qed.

Lemma zlen_encode_frame p : zlen (encode_frame p) = 6 + zlen p.
Proof. unfold encode_frame. rewrite zlen_app, zlen_frame_body, zlen_be_bytes. lia. Qed.

(** A frame whose checksum field is [c]. *)
Definition framed (p : list byte) (c : Z) : list byte := frame_body p ++ be_bytes 2 c.

Lemma classify_framed p c k :
  1 <= zlen p <= 256 → 0 <= c < 65536 →
  classify (framed p c ++ k) = if c =? crc16 (frame_body p) then Accept p else BadCrc.
Proof.
  intros Hp Hcr. pose proof (zlen_nonneg k). unfold framed.
  set (l := (frame_body p ++ be_bytes 2 c) ++ k).
  assert (zlen l = 6 + zlen p + zlen k) as Hz.
  { unfold l. rewrite !zlen_app, zlen_frame_body, zlen_be_bytes. lia. }
  assert (field_at 0 2 l = PACKET_HEADER) as Hh.
  { unfold l, frame_body. rewrite <-!app_assoc. by apply (field_at_encoded 0 2 2 []). }
  assert (field_at 2 2 l = zlen p) as Hl.
  { unfold l, frame_body. rewrite <-!app_assoc.
    apply field_at_encoded; [apply zlen_be_bytes|done|lia]. }
  assert (slice 0 (zlen p + 4) l = frame_body p) as Hb.
  { unfold l. rewrite <-app_assoc.
    apply (slice_app_mid 0 _ []); [done|]. rewrite zlen_frame_body. lia. }
  assert (slice 4 (zlen p) l = p) as Hpay.
  { unfold l, frame_body. rewrite <-!app_assoc, app_assoc.
    apply slice_app_mid; [by rewrite zlen_app, !zlen_be_bytes|done]. }
  assert (field_at (zlen p + 4) 2 l = c) as Hc.
  { unfold l. rewrite <-app_assoc. apply field_at_encoded; [|done|done].
    rewrite zlen_frame_body. lia. }
  unfold classify, max_payload. rewrite Hz, Hh, Hl, Hb, Hpay, Hc.
  rewrite !Z.eqb_refl. cbn [negb]. do 5 ztrue. done.
Qed.

Lemma classify_frame p k :
  1 <= zlen p <= 256 → classify (encode_frame p ++ k) = Accept p.
Proof.
  intros Hp. change (encode_frame p) with (framed p (crc16 (frame_body p))).
  by rewrite (classify_framed p _ k Hp (crc16_bound _)), Z.eqb_refl.
Qed.

(** A payload damaged by one burst of at most 16 bits is caught. *)
Lemma xor_bytes_app l k l' k' :
  length l = length l' → xor_bytes (l ++ k) (l' ++ k') = xor_bytes l l' ++ xor_bytes k k'.
Proof. intros. unfold xor_bytes. by apply zip_with_app. Qed.

Lemma le_value_xor_same l m :
  le_value (xor_bytes l l ++ m) = 256 ^ zlen l * le_value m.
Proof.
  induction l as [|b l IH]; [simpl; by destruct (le_value m)|].
  rewrite xor_bytes_cons, <-app_comm_cons. cbn [le_value].
  rewrite IH, byte_xor_val, Z.lxor_nilpotent, zlen_cons, Z.pow_add_r by (auto; lia). lia.
Qed.

Lemma damaged_payload_crc p p' e o :
  length p = length p' → le_value (xor_bytes p p') = e * 2 ^ o →
  0 < e < 65536 → 0 <= o →
  crc16 (frame_body p) ≠ crc16 (frame_body p').
Proof.
  intros Hl He Hb Ho. apply (crc16_burst _ _ e (32 + o)); [| |done|lia].
  - unfold frame_body. rewrite !length_app, !length_be_bytes. lia.
  - unfold frame_body. unfold zlen. rewrite Hl.
    rewrite !app_assoc, (xor_bytes_app _ _ _ _ eq_refl), le_value_xor_same, He.
    rewrite Z.pow_add_r by lia. rewrite zlen_app, !zlen_be_bytes. simpl (256 ^ _). lia.
Qed.

Lemma classify_accept_inv l p :
  classify l = Accept p → 1 <= zlen p <= 256 ∧ ∃ k, l = encode_frame p ++ k.
Proof.
  classify_cases l; try done. intros [= <-]. unfold max_payload in *.
  pose proof (length_field_nonneg l ltac:(lia)). set (m := field_at 2 2 l) in *.
  assert (zlen (slice 4 m l) = m) as Hm by (apply zlen_slice; lia).
  split; [lia|]. exists (drop (Z.to_nat (4 + m + Z.of_nat 2)) l).
  unfold encode_frame.
  assert (slice 0 (m + 4) l = frame_body (slice 4 m l)) as Hbody.
  { unfold slice at 1. simpl (Z.to_nat 0). rewrite drop_0.
    transitivity (take (Z.to_nat (m + 4)) (frame_body (slice 4 m l)
      ++ drop (Z.to_nat (4 + m)) l)).
    - f_equal. unfold frame_body. rewrite Hm, <-!app_assoc.
      change l with (drop (Z.to_nat 0) l) at 1.
      rewrite (drop_field 0 2) by (simpl; lia). simpl (0 + _).
      change (Z.of_nat 2) with 2. rewrite Hhdr.
      f_equal. rewrite (drop_field 2 2) by (simpl; lia). f_equal.
      apply (drop_slice 4 m); lia.
    - apply take_app_length'. pose proof (zlen_frame_body (slice 4 m l)).
      unfold zlen in *. lia. }
  rewrite <-Hbody, <-Hcrc, <-app_assoc. unfold field_at.
  rewrite (be_bytes_be_value_n 2).
  2: { pose proof (zlen_slice (m + 4) 2 l). unfold zlen in *. lia. }
  change l with (drop (Z.to_nat 0) l) at 1.
  rewrite (drop_slice 0 (m + 4)) by lia. f_equal.
  rewrite (drop_slice (0 + (m + 4)) 2) by lia.
  replace (0 + (m + 4)) with (m + 4) by lia.
  by replace (m + 4 + 2) with (4 + m + Z.of_nat 2) by lia.
Qed.

Lemma advance_accept p : advance (Accept p) = length (encode_frame p).
Proof. cbn [advance]. pose proof (zlen_encode_frame p). unfold zlen in *. lia. Qed.

Lemma scan_frame p k :
  1 <= zlen p <= 256 →
  scan (encode_frame p ++ k) = (payload_event p :: (scan k).1, (scan k).2).
Proof.
  intros Hp. rewrite scan_advance by (by rewrite classify_frame).
  rewrite classify_frame, advance_accept, drop_app_length by done. done.
Qed.

Lemma scan_frames ps k :
  Forall (λ p, 1 <= zlen p <= 256) ps →
  scan (concat (map encode_frame ps) ++ k)
  = (map payload_event ps ++ (scan k).1, (scan k).2).
Proof.
  induction 1 as [|p ps Hp Hps IH]; [simpl; by destruct (scan k)|].
  rewrite map_cons, concat_cons, <-app_assoc, scan_frame, IH by done. done.
Qed.

Lemma sendable_payload t :
  sendable t →
  1 <= zlen (encode_payload t) <= 256 ∧ payload_event (encode_payload t) = Received t.
Proof.
  intros [Hok Hid]. split.
  - rewrite zlen_encode_payload. pose proof (zlen_nonneg (String.list_byte_of_string (drone_id t))).
    lia.
  - unfold payload_event. rewrite <-(app_nil_r (encode_payload t)).
    rewrite parse_encode_payload; [done|]. split; [done|lia].
Qed.

(** Whatever a stream holds, the telemetry found in it can be sent. *)
Lemma payload_event_sendable p t :
  zlen p <= 256 → payload_event p = Received t → sendable t.
Proof.
  unfold payload_event. destruct (parse_payload p) as [t'|] eqn:E; [|done]. intros Hp [= <-].
  destruct (parse_payload_inv p t' E) as [[Hok _] [extra ->]]. split; [done|].
  rewrite zlen_app, zlen_encode_payload in Hp. pose proof (zlen_nonneg extra). lia.
Qed.

Lemma emits_sendable l t : Received t ∈ emits (classify l) → sendable t.
Proof.
  destruct (classify l) as [| | |p] eqn:E; cbn [emits]; intros Hin;
    [by apply elem_of_nil in Hin..|by apply list_elem_of_singleton in Hin|].
  apply list_elem_of_singleton in Hin. apply (payload_event_sendable p); [|done].
  destruct (classify_accept_inv l p E) as [Hp _]. lia.
Qed.

Lemma scan_sendable l : Forall sendable (received (scan l).1).
Proof.
  apply Forall_forall. intros t Ht. unfold received in Ht.
  apply list_elem_of_omap in Ht as (e & He & Ee).
  assert (e = Received t) as -> by (destruct e; naive_solver). clear Ee.
  induction l as [l Hl|l Hl IH] using scan_ind.
  - rewrite scan_needmore in He by done. set_solver.
  - rewrite scan_advance in He by done. cbn [fst] in He.
    apply elem_of_app in He as [He|He]; [by apply (emits_sendable l)|by apply IH].
Qed.

Lemma scan_packets ts k :
  Forall sendable ts →
  scan (concat (map encode_packet ts) ++ k) = (map Received ts ++ (scan k).1, (scan k).2).
Proof.
  intros Hts. unfold encode_packet.
  rewrite <-(map_map encode_payload encode_frame), scan_frames.
  - f_equal. f_equal. rewrite map_map. apply map_ext_in. intros t Ht.
    rewrite <-list_elem_of_In in Ht. rewrite Forall_forall in Hts.
    by apply sendable_payload, Hts.
  - apply Forall_map. eapply Forall_impl; [done|]. intros t Ht. by apply sendable_payload.
Qed.

Lemma received_app es es' : received (es ++ es') = received es ++ received es'.
Proof. apply omap_app. Qed.

Lemma received_map ts : received (map Received ts) = ts.
Proof.
  induction ts as [|t ts IH]; [done|].
  change (t :: received (map Received ts) = t :: ts). by rewrite IH.
Qed.

Lemma failures_received ts : failures (map Received ts) = 0.
Proof. by induction ts as [|t ts IH]. Qed.

(** ** No valid frame is passed over *)

Lemma accepts_event l o p : accepts l o p → payload_event p ∈ (scan l).1.
Proof.
  induction 1 as [l p H|l o p Hl Ha IH].
  - rewrite scan_advance by (by rewrite H). rewrite H. simpl. left.
  - rewrite scan_advance by done. simpl. apply elem_of_app. by right.
Qed.

Lemma accepts_sound l o p : accepts l o p → classify (drop o l) = Accept p.
Proof.
  induction 1 as [l p H|l o p Hl Ha IH]; [by rewrite drop_0|].
  by rewrite <-drop_drop.
Qed.

Lemma valid_frame_found l i p :
  classify (drop i l) = Accept p → (i + length (scan l).2 < length l)%nat →
  accepts l i p ∨ ∃ o q, accepts l o q ∧ (o < i < o + length q + 6)%nat.
Proof.
  revert i. induction l as [l Hl|l Hl IH] using scan_ind; intros i Hp Hi.
  { rewrite scan_needmore in Hi by done. simpl in Hi. lia. }
  rewrite scan_advance in Hi by done. simpl in Hi.
  pose proof (advance_length l) as Ha. pose proof (advance_pos l Hl) as Hpos.
  destruct (decide (i < advance (classify l))%nat) as [Hlt|Hge].
  - destruct i as [|i]; [left; apply accept_here; by rewrite drop_0 in Hp|].
    right. destruct (classify l) as [| | |q] eqn:E; simpl in Hlt; try lia.
    exists 0%nat, q. split; [by apply accept_here|lia].
  - set (a := advance (classify l)) in *.
    destruct (IH (i - a)%nat) as [Hacc|(o & q & Hacc & Ho)].
    + rewrite drop_drop. by replace (a + (i - a))%nat with i by lia.
    + rewrite length_drop. lia.
    + left. replace i with (a + (i - a))%nat by lia. by apply accept_later.
    + right. exists (a + o)%nat, q. split; [by apply accept_later|lia].
Qed.

#[global] Arguments encode_frame : simpl never.
#[global] Arguments encode_packet : simpl never.
#[global] Arguments classify : simpl never.
#[global] Arguments scan : simpl never.

(** ** Noise *)

(** A byte that cannot start a frame is skipped as soon as another follows. *)
Lemma classify_noise b l : b ≠ Byte.xaa → l ≠ [] → classify (b :: l) = Resync.
Proof.
  intros Hb Hl. destruct l as [|c m]; [done|]. unfold classify. rewrite !zlen_cons.
  pose proof (zlen_nonneg m). rewrite (proj2 (Z.ltb_ge _ 2)) by lia.
  enough (field_at 0 2 (b :: c :: m) ≠ PACKET_HEADER) as Hh by (by rewrite (proj2 (Z.eqb_neq _ _))).
  intros Hh. apply Hb, byte_val_inj. change (byte_val Byte.xaa) with 0xAA.
  unfold field_at, slice, be_value in Hh. simpl (take _ _) in Hh. simpl (rev _) in Hh.
  cbn [le_value] in Hh. unfold PACKET_HEADER in Hh.
  pose proof (byte_val_bounds b). pose proof (byte_val_bounds c). lia.
Qed.

Lemma scan_noise_byte b l : b ≠ Byte.xaa → l ≠ [] → scan (b :: l) = scan l.
Proof.
  intros Hb Hl. pose proof (classify_noise b l Hb Hl) as Hc.
  rewrite scan_advance by (by rewrite Hc). rewrite Hc. cbn [emits advance skipn]. rewrite drop_0.
  by destruct (scan l).
Qed.

(** The scan passes over bytes that cannot start a frame. *)
Lemma scan_noise noise l :
  Byte.xaa ∉ noise → l ≠ [] → scan (noise ++ l) = scan l.
Proof.
  intros Hn Hl. induction noise as [|b noise IH]; [done|].
  apply not_elem_of_cons in Hn as [Hb Hn]. rewrite <-app_comm_cons, <-IH by done.
  apply scan_noise_byte; [done|]. by destruct noise.
Qed.

(** At the end of the stream the last of them may be kept. *)
Lemma scan_noise_events noise l : Byte.xaa ∉ noise → (scan (noise ++ l)).1 = (scan l).1.
Proof.
  intros Hn. destruct (decide (l = [])) as [->|Hl]; [|by rewrite scan_noise].
  rewrite app_nil_r. induction noise as [|b noise IH]; [done|].
  apply not_elem_of_cons in Hn as [Hb Hn].
  destruct (decide (noise = [])) as [->|Hne]; [by rewrite scan_needmore|].
  rewrite scan_noise_byte by done. by apply IH.
Qed.
