(* ===== verification/StreamingParser.v ===== *)
(** * StreamingParser (include/streamingParser.h, src/streamingParser.cpp)

    The parser thread as the source writes it: the three-state machine over
    one client's buffer with deferred consumption, the per-client map, the
    dispatch of one chunk with its two [try] blocks, and the thread's loop.
    The code is generic in the byte buffer ([ByteBuffer.v]); the program's
    parser is the one over [RingBuffer]. *)

From S2P Require Import Prelude ByteBuffer Telemetry Endian Crc16 Payload ThreadSafeQueue Worker.

(** ** State *)

Inductive State := WAIT_HEADER | WAIT_LENGTH | WAIT_PAYLOAD_AND_CRC.

#[export] Instance State_eq_dec : EqDecision State.
Proof. solve_decision. Defined.

Record ClientState (B : Type) := mkClient {
  state : State;
  ring_buffer : B;
  scratch_buf : list byte;
  payload_length : Z
}.
Arguments mkClient {B} _ _ _ _.
Arguments state {B} _.
Arguments ring_buffer {B} _.
Arguments scratch_buf {B} _.
Arguments payload_length {B} _.

Record StreamingParser (B : Type) := mkParser {
  m_raw_queue : ThreadSafeQueue DataChunk;
  m_parsed_queue : ThreadSafeQueue Telemetry;
  m_log_queue : ThreadSafeQueue string;
  m_crc_failures : Z;
  m_clients : gmap Z (ClientState B)
}.
Arguments mkParser {B} _ _ _ _ _.
Arguments m_raw_queue {B} _.
Arguments m_parsed_queue {B} _.
Arguments m_log_queue {B} _.
Arguments m_crc_failures {B} _.
Arguments m_clients {B} _.

(** The largest payload: [static constexpr uint16_t MAX_PAYLOAD_SIZE]. *)
Definition MAX_PAYLOAD_SIZE : Z := 256.

(** Log texts. *)
Definition running_text : string := "[StreamingParser] Running" +:+ newline.
Definition crc_mismatch_text : string :=
  "[StreamingParser] CRC mismatch — resyncing" +:+ newline.
Definition malformed_text : string :=
  "[StreamingParser] Malformed payload — skipping" +:+ newline.
Definition cleanup_text (id : Z) : string :=
  "[StreamingParser] Cleaned up state for client fd=" +:+ to_string id +:+ newline.
Definition overflow_text (e : exn) (id : Z) : string :=
  "[StreamingParser] " +:+ what e +:+ " — dropping client fd="
  +:+ to_string id +:+ newline.
Definition unexpected_text (e : exn) (id : Z) : string :=
  "[StreamingParser] Unexpected error for client fd=" +:+ to_string id +:+ ": "
  +:+ what e +:+ " — dropping client" +:+ newline.
Definition shutdown_text (failures : Z) : string :=
  "[StreamingParser] Shutting down (CRC failures: " +:+ to_string failures +:+ ")"
  +:+ newline.

Section Parser.
Context {B : Type} `{ByteBuffer B} `{Host}.

(** ** Member updates *)

Definition set_clients (cs : gmap Z (ClientState B)) (p : StreamingParser B) :=
  mkParser (m_raw_queue p) (m_parsed_queue p) (m_log_queue p) (m_crc_failures p) cs.
Definition set_raw_queue (q : ThreadSafeQueue DataChunk) (p : StreamingParser B) :=
  mkParser q (m_parsed_queue p) (m_log_queue p) (m_crc_failures p) (m_clients p).
Definition set_parsed_queue (q : ThreadSafeQueue Telemetry) (p : StreamingParser B) :=
  mkParser (m_raw_queue p) q (m_log_queue p) (m_crc_failures p) (m_clients p).
Definition set_log_queue (q : ThreadSafeQueue string) (p : StreamingParser B) :=
  mkParser (m_raw_queue p) (m_parsed_queue p) q (m_crc_failures p) (m_clients p).
Definition set_crc_failures (n : Z) (p : StreamingParser B) :=
  mkParser (m_raw_queue p) (m_parsed_queue p) (m_log_queue p) n (m_clients p).

Definition set_state (s : State) (c : ClientState B) :=
  mkClient s (ring_buffer c) (scratch_buf c) (payload_length c).
Definition set_ring_buffer (b : B) (c : ClientState B) :=
  mkClient (state c) b (scratch_buf c) (payload_length c).
Definition set_scratch_buf (s : list byte) (c : ClientState B) :=
  mkClient (state c) (ring_buffer c) s (payload_length c).
Definition set_payload_length (n : Z) (c : ClientState B) :=
  mkClient (state c) (ring_buffer c) (scratch_buf c) n.

(** A default-constructed [ClientState]. *)
Definition new_client : ClientState B := mkClient WAIT_HEADER bb_new [] 0.

(** [StreamingParser(raw_queue, parsed_queue, log_queue)]. *)
Definition new_parser (raw : ThreadSafeQueue DataChunk) (parsed : ThreadSafeQueue Telemetry)
    (log : ThreadSafeQueue string) : StreamingParser B := mkParser raw parsed log 0 ∅.

Definition crc_failure_count (p : StreamingParser B) : Z := m_crc_failures p.

(** ** Queue operations of the thread *)

#[export] Instance raw_ref : HasQueue (StreamingParser B) DataChunk :=
  {| queue_of := m_raw_queue; set_queue := set_raw_queue |}.
#[export] Instance parsed_ref : HasQueue (StreamingParser B) Telemetry :=
  {| queue_of := m_parsed_queue; set_queue := set_parsed_queue |}.
#[export] Instance log_ref : HasQueue (StreamingParser B) string :=
  {| queue_of := m_log_queue; set_queue := set_log_queue |}.

(** [m_log_queue.push(text)] and [m_parsed_queue.push(t)]: the results are
    ignored, and the default stop token never stops them. *)
Definition push_log (text : string) : M (StreamingParser B) unit := push_to text.

Definition push_parsed (t : Telemetry) : M (StreamingParser B) unit := push_to t.

(** ** [process_client] *)

(** The parser and the [ClientState&] it works on. *)
Definition ProcState : Type := StreamingParser B * ClientState B.

Definition on_parser {A} (m : M (StreamingParser B) A) : M ProcState A := λ s,
  let '(r, p) := m s.1 in (r, (p, s.2)).

Definition modify_client (f : ClientState B → ClientState B) : M ProcState unit :=
  modify (λ s, (s.1, f s.2)).

(** [client_state.ring_buffer.consume(n)]. *)
Definition consume (n : Z) : M ProcState unit :=
  c ← gets snd;
  b ← lift (bb_consume n (ring_buffer c));
  modify_client (set_ring_buffer b).

Definition fail_packet (text : string) : M ProcState unit :=
  on_parser (modify (λ p, set_crc_failures (u64 (m_crc_failures p + 1)) p);;
             push_log text).

(** [std::memcpy] of a 16-bit field into a zeroed [uint16_t], then
    [from_big_endian]. *)
Definition read_u16 (src : list byte) (off : Z) : outcome Z :=
  object ← memcpy (replicate 2 x00) 0 src off 2;
  Ok (load_uint (from_big_endian object)).

(** [std::vector<std::byte>::resize]. *)
Definition resize (n : Z) (v : list byte) : list byte :=
  take (Z.to_nat n) v ++ replicate (Z.to_nat n - length v) x00.

Definition wait_header (c : ClientState B) : M ProcState control :=
  if bb_size (ring_buffer c) <? HEADER_SIZE then mret Break
  else
    header_buf ← lift (bb_peek (replicate (Z.to_nat HEADER_SIZE) x00) (ring_buffer c));
    header ← lift (read_u16 header_buf 0);
    if negb (header =? PACKET_HEADER)
    then consume 1;; mret Continue
    else modify_client (set_state WAIT_LENGTH);; mret Continue.

Definition wait_length (c : ClientState B) : M ProcState control :=
  if bb_size (ring_buffer c) <? HEADER_SIZE + LENGTH_SIZE then mret Break
  else
    header_length_buf ←
      lift (bb_peek (replicate (Z.to_nat (HEADER_SIZE + LENGTH_SIZE)) x00) (ring_buffer c));
    n ← lift (read_u16 header_length_buf HEADER_SIZE);
    modify_client (set_payload_length n);;
    if (n =? 0) || (MAX_PAYLOAD_SIZE <? n)
    then consume 1;; modify_client (set_state WAIT_HEADER);; mret Continue
    else modify_client (set_state WAIT_PAYLOAD_AND_CRC);; mret Continue.

Definition wait_payload_and_crc (c : ClientState B) : M ProcState control :=
  let total := u64 (HEADER_SIZE + LENGTH_SIZE + payload_length c + CRC_SIZE) in
  if bb_size (ring_buffer c) <? total then mret Break
  else
    let resized := resize total (scratch_buf c) in
    modify_client (set_scratch_buf resized);;
    scratch ← lift (bb_peek resized (ring_buffer c));
    modify_client (set_scratch_buf scratch);;
    let crc_data_len := u64 (HEADER_SIZE + LENGTH_SIZE + payload_length c) in
    computed_crc ← lift (compute_crc16 scratch crc_data_len);
    received_crc ← lift (read_u16 scratch crc_data_len);
    if negb (received_crc =? computed_crc)
    then
      fail_packet crc_mismatch_text;;
      consume 1;;
      modify_client (set_state WAIT_HEADER);; mret Continue
    else
      consume total;;
      maybe_telemetry ←
        lift (deserialize_payload (drop (Z.to_nat (HEADER_SIZE + LENGTH_SIZE)) scratch)
                (payload_length c));
      (match maybe_telemetry with
       | Some t => on_parser (push_parsed t)
       | None => fail_packet malformed_text
       end);;
      modify_client (set_state WAIT_HEADER);; mret Continue.

(** The body of [while (true)]: the [switch] on the client's state. *)
Definition process_step : M ProcState control :=
  c ← gets snd;
  match state c with
  | WAIT_HEADER => wait_header c
  | WAIT_LENGTH => wait_length c
  | WAIT_PAYLOAD_AND_CRC => wait_payload_and_crc c
  end.

(** Each byte is looked at by at most three iterations: two that only move
    the state forward and one that consumes. *)
Definition process_fuel (c : ClientState B) : nat :=
  3 * Z.to_nat (bb_size (ring_buffer c)) + 3.

Definition process_client : M ProcState unit := λ s,
  while_true (process_fuel s.2) process_step s.

(** ** [run] *)

(** Runs [m] on the map entry [client_state] refers to. *)
Definition on_client {A} (id : Z) (m : M ProcState A) : M (StreamingParser B) A := λ p,
  match m_clients p !! id with
  | Some c => let '(r, (p', c')) := m (p, c) in
              (r, set_clients (<[id := c']> (m_clients p')) p')
  | None => (Undefined, p)
  end.

Definition erase_client (id : Z) : M (StreamingParser B) unit :=
  modify (λ p, set_clients (delete id (m_clients p)) p).

(** [auto& client_state = m_clients[id];] *)
Definition touch_client (id : Z) : M (StreamingParser B) unit :=
  modify (λ p, match m_clients p !! id with
               | Some _ => p
               | None => set_clients (<[id := new_client]> (m_clients p)) p
               end).

Definition push_bytes (bytes : list byte) : M ProcState unit :=
  c ← gets snd;
  b ← lift (bb_push bytes (ring_buffer c));
  modify_client (set_ring_buffer b).

(** The loop body after a chunk has been popped. *)
Definition handle_chunk (chunk : DataChunk) : M (StreamingParser B) unit :=
  let id := client_id chunk in
  match data chunk with
  | [] => erase_client id;; push_log (cleanup_text id)
  | _ =>
      touch_client id;;
      pushed ← try_catch (on_client id (push_bytes (data chunk));; mret true)
        (λ e, match e with
              | Overflow_error _ =>
                  Some (push_log (overflow_text e id);; erase_client id;; mret false)
              | _ => None
              end);
      if (pushed : bool) then
        try_catch (on_client id process_client)
          (λ e, Some (push_log (unexpected_text e id);; erase_client id))
      else mret tt
  end.

(** The chunks [cs] in the order the loop pops them. *)
Fixpoint feed (cs : list DataChunk) : M (StreamingParser B) unit :=
  match cs with
  | [] => mret tt
  | c :: cs => handle_chunk c;; feed cs
  end.

(** The thread's loop over the rounds the environment grants it. *)
Definition run_loop (rounds : list (Round DataChunk unit)) : M (StreamingParser B) bool :=
  worker_loop (λ _, handle_chunk) rounds.

(** [run] before and after its loop. *)
Definition start_up : M (StreamingParser B) unit := push_log running_text.

Definition shut_down : M (StreamingParser B) unit :=
  n ← gets m_crc_failures;
  push_log (shutdown_text n).

(** [run(stop_token)]. *)
Definition run (rounds : list (Round DataChunk unit)) : M (StreamingParser B) bool :=
  start_up;;
  finished ← run_loop rounds;
  if (finished : bool) then shut_down;; mret true else mret false.

End Parser.
