(* ===== verification/ParserCorrect.v ===== *)
(** * The parser implements the stream reference

    [process_client] on any buffer that meets [ByteBufferSpec] does what
    [scan] says of the unread bytes, in a bounded number of iterations and
    without an exception or undefined behaviour; [handle_chunk] refines one
    step of the abstract parser below, which knows only the bytes left over
    per client; and from that follow the properties of the whole stream. *)

From S2P Require Import Prelude ByteBuffer RingBuffer Telemetry Endian Crc16 Payload Scan ThreadSafeQueue Worker StreamingParser.

(** ** Abstract parser *)

(** What the parser thread does to the rest of the program. *)
Inductive effect :=
| Deliver (t : Telemetry)
| CountFailure
| Log (text : string).

Definition event_effects (e : event) : list effect :=
  match e with
  | Received t => [Deliver t]
  | CrcMismatch => [CountFailure; Log crc_mismatch_text]
  | Malformed => [CountFailure; Log malformed_text]
  end.

Definition events_effects (es : list event) : list effect := mbind event_effects es.

(** The bytes left over, per client that has an entry. *)
Abbreviation leftovers := (gmap Z (list byte)).

(** One chunk: a disconnect, a chunk that does not fit, or more bytes. *)
Definition abs_chunk (ls : leftovers) (chunk : DataChunk) : list effect * leftovers :=
  let id := client_id chunk in
  match data chunk with
  | [] => ([Log (cleanup_text id)], delete id ls)
  | bytes =>
      let old := default [] (ls !! id) in
      if DEFAULT_CAPACITY <? zlen old + zlen bytes
      then ([Log (overflow_text
              (Overflow_error (overflow_what (zlen bytes) (DEFAULT_CAPACITY - zlen old))) id)],
            delete id ls)
      else
        let '(es, rest) := scan (old ++ bytes) in
        (events_effects es, <[id := rest]> ls)
  end.

(** A sequence of chunks, each effect tagged with the client it is for. *)
Fixpoint abs_run (ls : leftovers) (cs : list DataChunk) : list (Z * effect) * leftovers :=
  match cs with
  | [] => ([], ls)
  | c :: cs =>
      let '(es, ls) := abs_chunk ls c in
      let '(es', ls) := abs_run ls cs in
      (map (pair (client_id c)) es ++ es', ls)
  end.

(** The telemetry delivered. *)
Definition delivered (es : list effect) : list Telemetry :=
  omap (λ e, match e with Deliver t => Some t | _ => None end) es.

(** The packets counted as failures. *)
Definition counted (es : list effect) : Z :=
  zlen (List.filter (λ e, match e with CountFailure => true | _ => false end) es).

(** The messages logged. *)
Definition logged (es : list effect) : list string :=
  omap (λ e, match e with Log s => Some s | _ => None end) es.

Section Correct.
Context {B : Type} `{ByteBufferSpec B} `{Host}.

Implicit Types (p : StreamingParser B) (c : ClientState B) (l : list byte).

Definition apply_effect p (e : effect) : StreamingParser B :=
  match e with
  | Deliver t => set_parsed_queue (enqueue t (m_parsed_queue p)) p
  | CountFailure => set_crc_failures (u64 (m_crc_failures p + 1)) p
  | Log s => set_log_queue (enqueue s (m_log_queue p)) p
  end.

Definition apply_effects p (es : list effect) : StreamingParser B :=
  foldl apply_effect p es.

(** The output queues the program constructs have no bound. *)
Definition unbounded p : Prop :=
  m_max_size (m_parsed_queue p) = 0 ∧ m_max_size (m_log_queue p) = 0.

(** The invariant of one client, whose unread bytes are [l]: the buffer's
    own, and what each state of the machine has already checked. *)
Definition client_inv c l : Prop :=
  bb_wf (ring_buffer c) ∧ bb_capacity (ring_buffer c) = DEFAULT_CAPACITY
  ∧ bb_contents (ring_buffer c) = l
  ∧ match state c with
    | WAIT_HEADER => True
    | WAIT_LENGTH => 2 <= zlen l ∧ field_at 0 2 l = PACKET_HEADER
    | WAIT_PAYLOAD_AND_CRC =>
        4 <= zlen l ∧ field_at 0 2 l = PACKET_HEADER
        ∧ payload_length c = field_at 2 2 l
        ∧ 1 <= payload_length c <= MAX_PAYLOAD_SIZE
    end.

(** Iterations left: three per unread byte, fewer in the later states. *)
Definition measure c : nat :=
  3 * length (bb_contents (ring_buffer c))
  + match state c with WAIT_HEADER => 2 | WAIT_LENGTH => 1 | WAIT_PAYLOAD_AND_CRC => 0 end.

(** ** Lemmas on one iteration *)

Lemma read_u16_ok src off :
  0 <= off → off + 2 <= zlen src → read_u16 src off = Ok (field_at off 2 src).
Proof.
  intros. unfold read_u16. rewrite memcpy_all by (try done; lia).
  simpl. by rewrite load_from_wire.
Qed.

Lemma zlen_resize n v : 0 <= n → zlen (resize n v) = n.
Proof.
  intros. unfold resize, zlen. rewrite length_app, length_take, length_replicate. lia.
Qed.

Lemma buffer_peek_ok c l dest :
  client_inv c l → zlen dest <= zlen l →
  bb_peek dest (ring_buffer c) = Ok (take (length dest) l).
Proof. intros (Hwf & _ & Hl & _) Hd. rewrite <-Hl in *. by apply bb_peek_spec. Qed.

Lemma size_ok c l : client_inv c l → bb_size (ring_buffer c) = zlen l.
Proof. intros (Hwf & _ & Hl & _). rewrite <-Hl. by apply bb_size_spec. Qed.

(** Consuming, then going back to hunting for a header. *)
Lemma buffer_consume_ok p c l n :
  client_inv c l → 0 <= n <= zlen l →
  ∃ b, consume n (p, c) = (Ok tt, (p, set_ring_buffer b c))
       ∧ client_inv (set_state WAIT_HEADER (set_ring_buffer b c)) (drop (Z.to_nat n) l).
Proof.
  intros (Hwf & Hcap & Hl & _) Hn. rewrite <-Hl in *.
  destruct (bb_consume_spec n (ring_buffer c) Hwf Hn) as (b & E & Hb & Hbl & Hbc).
  exists b. split; [|repeat split; simpl; congruence].
  unfold consume, mbind, M_bind, gets, lift. simpl. by rewrite E.
Qed.

Lemma push_log_ok p text :
  unbounded p → push_log text p = (Ok tt, apply_effect p (Log text)).
Proof. intros [_ Hq]. exact (push_to_ok text p Hq). Qed.

Lemma push_parsed_ok p t :
  unbounded p → push_parsed t p = (Ok tt, apply_effect p (Deliver t)).
Proof. intros [Hq _]. exact (push_to_ok t p Hq). Qed.

Lemma fail_packet_ok p c text :
  unbounded p →
  fail_packet text (p, c) = (Ok tt, (apply_effects p [CountFailure; Log text], c)).
Proof.
  intros Hu. unfold fail_packet, on_parser. simpl.
  unfold mbind, M_bind, modify. rewrite push_log_ok; [done|]. exact Hu.
Qed.

Lemma apply_effects_unbounded p es : unbounded p → unbounded (apply_effects p es).
Proof.
  revert p. induction es as [|e es IH]; intros p Hu; [done|]. simpl. apply IH.
  destruct e; exact Hu.
Qed.

Lemma apply_effects_app p es es' :
  apply_effects p (es ++ es') = apply_effects (apply_effects p es) es'.
Proof. apply foldl_app. Qed.

(** The three outcomes of an iteration. *)
Inductive step_result p c l : outcome control * ProcState → Prop :=
| step_stop :
    classify l = NeedMore → step_result p c l (Ok Break, (p, c))
| step_silent c' :
    client_inv c' l → (measure c' < measure c)%nat →
    step_result p c l (Ok Continue, (p, c'))
| step_consume c' :
    classify l ≠ NeedMore →
    client_inv c' (drop (advance (classify l)) l) → state c' = WAIT_HEADER →
    step_result p c l
      (Ok Continue, (apply_effects p (events_effects (emits (classify l))), c')).

Lemma step_verdict p c l v p' c' :
  classify l = v → v ≠ NeedMore →
  p' = apply_effects p (events_effects (emits v)) →
  client_inv c' (drop (advance v) l) → state c' = WAIT_HEADER →
  step_result p c l (Ok Continue, (p', c')).
Proof. intros <- Hv ->. by apply step_consume. Qed.

(** A verdict that drops one byte. *)
Lemma drop_one_result p c c2 l v p' :
  client_inv c2 l → 1 <= zlen l →
  classify l = v → v ≠ NeedMore → advance v = 1%nat →
  p' = apply_effects p (events_effects (emits v)) →
  step_result p c l
    ((consume 1;; modify_client (set_state WAIT_HEADER);; mret Continue) (p', c2)).
Proof.
  intros Hc Hl Hv Hn Ha Hp. destruct (buffer_consume_ok p' c2 l 1 Hc ltac:(lia)) as (b & E & Hb).
  mrun. rewrite E. eapply step_verdict; [done..| |done]. by rewrite Ha.
Qed.

Lemma wait_header_result p c l :
  client_inv c l → state c = WAIT_HEADER → step_result p c l (wait_header c (p, c)).
Proof.
  intros Hc Hs. unfold wait_header. rewrite (size_ok c l Hc).
  unfold HEADER_SIZE. destruct (Z.ltb_spec (zlen l) 2).
  { apply step_stop. unfold classify. by ztrue. }
  rewrite (buffer_peek_ok c l) by (try done; simpl; lia).
  mrun. rewrite read_u16_ok by (rewrite ?(zlen_take 2); simpl; lia).
  unfold field_at. rewrite (slice_take 0 2 2) by lia. fold (field_at 0 2 l).
  destruct (Z.eqb_spec (field_at 0 2 l) PACKET_HEADER) as [Hh|Hh]; cbn [negb].
  - apply step_silent; [|unfold measure; simpl; rewrite Hs; simpl; lia].
    destruct Hc as (? & ? & ? & _). by repeat split.
  - assert (classify l = Resync) as Hv.
    { unfold classify. ztrue. by rewrite (proj2 (Z.eqb_neq _ _) Hh). }
    destruct (buffer_consume_ok p c l 1 Hc ltac:(lia)) as (b & E & Hb).
    rewrite E. eapply step_verdict; [exact Hv|done|done| |exact Hs].
    unfold client_inv in *. simpl in *. by rewrite Hs.
Qed.

Lemma wait_length_result p c l :
  client_inv c l → state c = WAIT_LENGTH → step_result p c l (wait_length c (p, c)).
Proof.
  intros Hc Hs. unfold wait_length. rewrite (size_ok c l Hc).
  unfold HEADER_SIZE, LENGTH_SIZE. change (2 + 2) with 4.
  assert (2 <= zlen l ∧ field_at 0 2 l = PACKET_HEADER) as [Hl2 Hh].
  { destruct Hc as (_ & _ & _ & Hst). by rewrite Hs in Hst. }
  destruct (Z.ltb_spec (zlen l) 4).
  { apply step_stop. unfold classify. ztrue. rewrite Hh, Z.eqb_refl. cbn [negb]. by ztrue. }
  rewrite (buffer_peek_ok c l) by (try done; simpl; lia).
  mrun. rewrite read_u16_ok by (rewrite ?(zlen_take 4); simpl; lia).
  unfold field_at. rewrite (slice_take 2 2 4) by lia. fold (field_at 2 2 l).
  pose proof (length_field_nonneg l ltac:(lia)) as Hn.
  set (n := field_at 2 2 l) in *. simpl.
  assert (∀ st, client_inv (mkClient st (ring_buffer c) (scratch_buf c) n) l
    ↔ match st with
      | WAIT_PAYLOAD_AND_CRC => 1 <= n <= MAX_PAYLOAD_SIZE
      | _ => True
      end) as Hinv.
  { intros st. destruct Hc as (? & ? & ? & _).
    unfold client_inv. simpl. destruct st; tauto || (split; [tauto|]; auto with lia). }
  destruct (_ || _) eqn:Hbad.
  - assert (classify l = Resync) as Hv.
    { unfold classify. do 2 ztrue. rewrite Hh, Z.eqb_refl. cbn [negb]. fold n.
      unfold MAX_PAYLOAD_SIZE, max_payload in *. by rewrite Hbad. }
    assert (client_inv (set_payload_length n c) l) as Hc2.
    { unfold set_payload_length. rewrite Hs. by apply Hinv. }
    apply (drop_one_result p c _ l Resync p Hc2); [lia|done..].
  - apply step_silent; [apply Hinv|unfold measure; simpl; rewrite Hs; simpl; lia].
    unfold MAX_PAYLOAD_SIZE in *. zcases; simpl in Hbad; try done. lia.
Qed.

(** What the frame is, once its header and length have been read. *)
Lemma classify_in_frame c l :
  client_inv c l → state c = WAIT_PAYLOAD_AND_CRC →
  let n := payload_length c in
  4 <= zlen l ∧ 1 <= n <= 256
  ∧ classify l = if zlen l <? n + 6 then NeedMore
                 else if field_at (n + 4) 2 l =? crc16 (slice 0 (n + 4) l)
                      then Accept (slice 4 n l) else BadCrc.
Proof.
  intros (_ & _ & _ & Hst) Hs. rewrite Hs in Hst. destruct Hst as (Hl4 & Hh & Hn & Hb).
  unfold MAX_PAYLOAD_SIZE in Hb. cbv zeta. split; [done|]. split; [done|].
  unfold classify, max_payload. rewrite Hh, Z.eqb_refl, <-Hn. cbn [negb]. by do 4 ztrue.
Qed.

(** The parts of the scratch copy of a frame are those of the stream. *)
Lemma scratch_reads n l :
  0 <= n → 4 + n + 2 <= zlen l →
  let scratch := take (Z.to_nat (4 + n + 2)) l in
  zlen scratch = 4 + n + 2 ∧ take (Z.to_nat (4 + n)) scratch = slice 0 (n + 4) l
  ∧ field_at (4 + n) 2 scratch = field_at (n + 4) 2 l ∧ slice 4 n scratch = slice 4 n l.
Proof.
  intros Hn Hl. cbv zeta. split_and!.
  - rewrite zlen_take by lia. lia.
  - rewrite take_take. unfold slice. simpl (Z.to_nat 0). rewrite drop_0. f_equal. lia.
  - unfold field_at. rewrite slice_take by lia. f_equal. f_equal. lia.
  - by rewrite slice_take by lia.
Qed.

Lemma wait_payload_result p c l :
  unbounded p → client_inv c l → state c = WAIT_PAYLOAD_AND_CRC →
  step_result p c l (wait_payload_and_crc c (p, c)).
Proof.
  intros Hu Hc Hs. unfold wait_payload_and_crc. rewrite (size_ok c l Hc).
  unfold HEADER_SIZE, LENGTH_SIZE, CRC_SIZE. change (2 + 2) with 4.
  destruct (classify_in_frame c l Hc Hs) as (Hl4 & Hb & Hv). set (n := payload_length c) in *.
  rewrite !u64_small by lia. destruct (Z.ltb_spec (zlen l) (4 + n + 2)).
  { apply step_stop. rewrite Hv. by ztrue. }
  rewrite (proj2 (Z.ltb_ge (zlen l) (n + 6))) in Hv by lia.
  set (c1 := set_scratch_buf (resize (4 + n + 2) (scratch_buf c)) c).
  assert (zlen (resize (4 + n + 2) (scratch_buf c)) = 4 + n + 2) as Hr
    by (apply zlen_resize; lia).
  mrun. fold c1. change (ring_buffer c) with (ring_buffer c1).
  rewrite (buffer_peek_ok c l) by (try done; lia). simpl.
  rewrite <-to_nat_zlen, Hr.
  destruct (scratch_reads n l ltac:(lia) ltac:(lia)) as (Hsl & Hcrc & Hfield & Hpay).
  set (scratch := take (Z.to_nat (4 + n + 2)) l) in *.
  rewrite compute_crc16_ok, Hcrc, read_u16_ok, Hfield by lia.
  set (c2 := set_scratch_buf scratch c1).
  assert (client_inv c2 l) as Hc2 by exact Hc.
  destruct (field_at (n + 4) 2 l =? crc16 (slice 0 (n + 4) l)); cbn [negb].
  - destruct (buffer_consume_ok p c2 l (4 + n + 2) Hc2 ltac:(lia)) as (b & E & Hbc).
    rewrite E. simpl.
    rewrite deserialize_payload_parse
      by (unfold PTRDIFF_MAX; rewrite ?(zlen_drop 4) by lia; lia).
    change (take (Z.to_nat n) (drop (Z.to_nat 4) scratch)) with (slice 4 n scratch).
    rewrite Hpay.
    assert (advance (Accept (slice 4 n l)) = Z.to_nat (4 + n + 2)) as Ha.
    { simpl. pose proof (zlen_slice 4 n l). unfold zlen in *. lia. }
    destruct (parse_payload (slice 4 n l)) as [t|] eqn:Hp; simpl;
      [unfold on_parser; simpl; rewrite push_parsed_ok by done|rewrite fail_packet_ok by done];
      simpl; (eapply step_verdict; [exact Hv|done| |by rewrite Ha|done]);
      unfold emits, payload_event; by rewrite Hp.
  - rewrite fail_packet_ok by done.
    apply (drop_one_result p c c2 l BadCrc _ Hc2); [lia|done..].
Qed.

Lemma process_step_result p c l :
  unbounded p → client_inv c l → step_result p c l (process_step (p, c)).
Proof.
  intros Hu Hc. unfold process_step. mrun. destruct (state c) eqn:Hs.
  - by apply wait_header_result.
  - by apply wait_length_result.
  - by apply wait_payload_result.
Qed.

(** ** The whole loop *)

Lemma measure_consumed c c' l n :
  client_inv c l → client_inv c' (drop n l) → state c' = WAIT_HEADER →
  (0 < n <= length l)%nat → (measure c' < measure c)%nat.
Proof.
  intros (_ & _ & Hl & _) (_ & _ & Hl' & _) Hs Hn. unfold measure.
  rewrite Hl, Hl', Hs, length_drop. lia.
Qed.

Lemma process_loop_ok fuel p c l :
  unbounded p → client_inv c l → (measure c < fuel)%nat →
  ∃ c', while_true fuel process_step (p, c)
        = (Ok tt, (apply_effects p (events_effects (scan l).1), c'))
        ∧ client_inv c' (scan l).2.
Proof.
  revert p c l. induction fuel as [|fuel IH]; intros p c l Hu Hc Hf; [lia|].
  destruct (process_step (p, c)) as [r s] eqn:E.
  pose proof (process_step_result p c l Hu Hc) as Hr. rewrite E in Hr.
  inversion Hr as [Hn|c' Hc' Hm|c' Hv Hc' Hs]; subst.
  - exists c. rewrite (while_true_break _ _ _ _ E), scan_needmore by done. done.
  - rewrite (while_true_continue _ _ _ _ E). apply IH; [done..|lia].
  - rewrite (while_true_continue _ _ _ _ E).
    pose proof (measure_consumed c c' l (advance (classify l)) Hc Hc' Hs
      (conj (advance_pos l Hv) (advance_length l))).
    destruct (IH (apply_effects p (events_effects (emits (classify l)))) c' _
      (apply_effects_unbounded _ _ Hu) Hc' ltac:(lia)) as (c'' & E' & Hc'').
    exists c''. rewrite E', (scan_advance l Hv). simpl. split; [|done].
    unfold events_effects at 3. rewrite bind_app, apply_effects_app. done.
Qed.

Lemma process_fuel_enough c l : client_inv c l → (measure c < process_fuel c)%nat.
Proof.
  intros Hc. unfold measure, process_fuel. rewrite (size_ok c l Hc).
  destruct Hc as (_ & _ & -> & _). unfold zlen. rewrite Nat2Z.id.
  destruct (state c); lia.
Qed.

Lemma process_client_ok p c l :
  unbounded p → client_inv c l →
  ∃ c', process_client (p, c)
        = (Ok tt, (apply_effects p (events_effects (scan l).1), c'))
        ∧ client_inv c' (scan l).2.
Proof.
  intros Hu Hc. apply process_loop_ok; [done..|]. by eapply process_fuel_enough.
Qed.

(** ** One chunk *)

(** The map of clients stands for the left-over bytes, entry by entry. *)
Definition clients_repr (cs : gmap Z (ClientState B)) (ls : leftovers) : Prop :=
  ∀ id, option_Forall2 client_inv (cs !! id) (ls !! id).

Lemma clients_repr_empty : clients_repr ∅ ∅.
Proof. intros id. rewrite !lookup_empty. constructor. Qed.

Lemma clients_repr_insert cs ls id c l :
  clients_repr cs ls → client_inv c l → clients_repr (<[id := c]> cs) (<[id := l]> ls).
Proof.
  intros Hr Hc id'. rewrite !lookup_insert. case_decide; [by constructor|apply Hr].
Qed.

Lemma clients_repr_delete cs ls id :
  clients_repr cs ls → clients_repr (delete id cs) (delete id ls).
Proof.
  intros Hr id'. rewrite !lookup_delete. case_decide; [constructor|apply Hr].
Qed.

Lemma new_client_inv : client_inv new_client [].
Proof.
  destruct bb_new_spec as (Hw & Hc & Hcap). by repeat split.
Qed.

Lemma client_inv_append c l b d :
  client_inv c l → bb_wf b → bb_contents b = l ++ d →
  bb_capacity b = DEFAULT_CAPACITY → client_inv (set_ring_buffer b c) (l ++ d).
Proof.
  intros (_ & _ & _ & Hst) Hw Hb Hcap. repeat split; [done..|]. simpl.
  pose proof (zlen_nonneg d). rewrite zlen_app.
  destruct (state c); [done|..].
  - destruct Hst as [Hl Hh]. by rewrite field_at_app by lia; split; [lia|].
  - destruct Hst as (Hl & Hh & Hn & Hb').
    rewrite !field_at_app by lia. repeat split; try done; lia.
Qed.

(** [apply_effects] leaves the client map alone. *)
Lemma m_clients_apply p es : m_clients (apply_effects p es) = m_clients p.
Proof.
  revert p. induction es as [|e es IH]; intros p; [done|]. simpl.
  rewrite IH. by destruct e.
Qed.

Lemma m_raw_queue_apply p es : m_raw_queue (apply_effects p es) = m_raw_queue p.
Proof.
  revert p. induction es as [|e es IH]; intros p; [done|]. simpl.
  rewrite IH. by destruct e.
Qed.

Lemma apply_set_clients p cs es :
  apply_effects (set_clients cs p) es = set_clients cs (apply_effects p es).
Proof.
  revert p. induction es as [|e es IH]; intros p; [done|]. simpl.
  rewrite <-IH. by destruct e.
Qed.

Lemma set_clients_twice cs cs' p : set_clients cs (set_clients cs' p) = set_clients cs p.
Proof. done. Qed.

Lemma touch_client_ok p ls id :
  clients_repr (m_clients p) ls →
  ∃ cs c, touch_client id p = (Ok tt, set_clients cs p)
          ∧ cs !! id = Some c ∧ client_inv c (default [] (ls !! id))
          ∧ ∀ c', <[id := c']> cs = <[id := c']> (m_clients p)
                  ∧ delete id cs = delete id (m_clients p).
Proof.
  intros Hr. unfold touch_client, modify. pose proof (Hr id) as Hid.
  destruct (m_clients p !! id) as [c|] eqn:E; inversion Hid as [? l Hc E1 E2|]; subst.
  - exists (m_clients p), c. split; [by destruct p|]. by rewrite E.
  - exists (<[id := new_client]> (m_clients p)), new_client.
    split; [done|]. split; [apply lookup_insert_eq|]. split; [apply new_client_inv|].
    intros c'. split; [apply insert_insert_eq|]. by apply delete_insert_eq.
Qed.

Lemma push_bytes_ok p c l d :
  client_inv c l → zlen l + zlen d <= DEFAULT_CAPACITY →
  ∃ c', push_bytes d (p, c) = (Ok tt, (p, c')) ∧ client_inv c' (l ++ d).
Proof.
  intros Hc Hd. destruct (Hc) as (Hw & Hcap & Hl & _).
  destruct (bb_push_spec d (ring_buffer c) Hw) as (b & E & Hb & Hbl & Hbc);
    [by rewrite Hl, Hcap|].
  exists (set_ring_buffer b c). split.
  - unfold push_bytes. mrun. by rewrite E.
  - apply client_inv_append; congruence.
Qed.

Lemma push_bytes_full p c l d :
  client_inv c l → DEFAULT_CAPACITY < zlen l + zlen d →
  push_bytes d (p, c)
  = (Throw (Overflow_error (overflow_what (zlen d) (DEFAULT_CAPACITY - zlen l))), (p, c)).
Proof.
  intros (Hw & Hcap & Hl & _) Hd. unfold push_bytes. mrun.
  rewrite (bb_push_full d (ring_buffer c) Hw) by (by rewrite Hl, Hcap).
  by rewrite Hl, Hcap.
Qed.

Lemma on_client_run {A} id (m : M ProcState A) p c r p' c' :
  m_clients p !! id = Some c → m (p, c) = (r, (p', c')) →
  on_client id m p = (r, set_clients (<[id := c']> (m_clients p')) p').
Proof. intros Hl Hm. unfold on_client. by rewrite Hl, Hm. Qed.

(** One chunk refines one step of the abstract parser. *)
Lemma handle_chunk_ok p ls chunk :
  unbounded p → clients_repr (m_clients p) ls →
  ∃ cs, handle_chunk chunk p
        = (Ok tt, set_clients cs (apply_effects p (abs_chunk ls chunk).1))
        ∧ clients_repr cs (abs_chunk ls chunk).2.
Proof.
  intros Hu Hr. unfold handle_chunk, abs_chunk.
  destruct chunk as [id [|b bytes]]; cbn [client_id data].
  { exists (delete id (m_clients p)). split; [|by apply clients_repr_delete].
    unfold erase_client. mrun. by rewrite push_log_ok. }
  set (d := b :: bytes).
  destruct (touch_client_ok p ls id Hr) as (cs1 & c & E1 & Hlook & Hc & Hins).
  rewrite (M_bind_ok _ _ _ _ _ E1). set (p1 := set_clients cs1 p).
  set (old := default [] (ls !! id)) in *.
  destruct (Z.ltb_spec DEFAULT_CAPACITY (zlen old + zlen d)) as [Hbig|Hfit].
  - pose proof (push_bytes_full p1 c old d Hc Hbig) as Ep.
    pose proof (on_client_run id (push_bytes d) p1 c _ _ _ Hlook Ep) as Eo.
    unfold try_catch. mrun. rewrite Eo. simpl. rewrite push_log_ok by exact Hu.
    exists (delete id cs1). simpl. split.
    + unfold erase_client. mrun. rewrite insert_id by done. done.
    + rewrite (proj2 (Hins c)). by apply clients_repr_delete.
  - destruct (push_bytes_ok p1 c old d Hc Hfit) as (c2 & Ep & Hc2).
    pose proof (on_client_run id (push_bytes d) p1 c _ _ _ Hlook Ep) as Eo.
    unfold try_catch. mrun. rewrite Eo. simpl.
    set (p2 := set_clients _ _).
    destruct (process_client_ok p2 c2 (old ++ d) Hu Hc2) as (c3 & Epc & Hc3).
    pose proof (on_client_run id process_client p2 c2 _ _ _
      (lookup_insert_eq _ _ _) Epc) as Eo2.
    rewrite Eo2. destruct (scan (old ++ d)) as [es rest]. simpl in *.
    exists (<[id := c3]> cs1). split.
    + rewrite m_clients_apply. unfold p2, p1. rewrite !apply_set_clients. simpl.
      by rewrite insert_insert_eq, !set_clients_twice.
    + rewrite (proj1 (Hins c3)). by apply clients_repr_insert.
Qed.

(** ** Sequences of chunks *)

Lemma abs_run_cons ls chunk cs :
  abs_run ls (chunk :: cs)
  = (map (pair (client_id chunk)) (abs_chunk ls chunk).1
       ++ (abs_run (abs_chunk ls chunk).2 cs).1,
     (abs_run (abs_chunk ls chunk).2 cs).2).
Proof.
  simpl. destruct (abs_chunk ls chunk) as [es ls']. simpl. by destruct (abs_run ls' cs).
Qed.

Lemma map_snd_pair {A} (z : Z) (es : list A) : map snd (map (pair z) es) = es.
Proof. rewrite map_map. by apply map_id. Qed.

Lemma feed_ok cs p ls :
  unbounded p → clients_repr (m_clients p) ls →
  ∃ clients, feed cs p
        = (Ok tt, set_clients clients (apply_effects p (map snd (abs_run ls cs).1)))
        ∧ clients_repr clients (abs_run ls cs).2.
Proof.
  revert p ls. induction cs as [|chunk cs IH]; intros p ls Hu Hr.
  { exists (m_clients p). by destruct p. }
  rewrite abs_run_cons. cbn [feed fst snd].
  destruct (handle_chunk_ok p ls chunk Hu Hr) as (cl & E & Hr').
  rewrite (M_bind_ok _ _ _ _ _ E). rewrite map_app, map_snd_pair, apply_effects_app.
  destruct (IH (set_clients cl (apply_effects p (abs_chunk ls chunk).1))
    (abs_chunk ls chunk).2 (apply_effects_unbounded p _ Hu) Hr') as (cl' & E' & Hr'').
  exists cl'. by rewrite E', apply_set_clients, set_clients_twice.
Qed.

End Correct.
