(* ===== verification/ParserTheorems.v ===== *)
(** * What the parser thread guarantees

    The properties of the parser over the circular buffer, from the
    refinement of [ParserCorrect.v]: the stream it recovers does not depend on
    how TCP cut it into chunks, packets come out as they were encoded, clients
    do not affect one another, a buffer never holds more than one undecided
    frame, and the thread never dies. *)

From S2P Require Import Prelude ByteBuffer RingBuffer Telemetry Endian Crc16 Payload Scan ThreadSafeQueue Worker StreamingParser ParserCorrect.

(** ** Vocabulary *)

(** The largest chunk that fits beside any undecided frame. *)
Definition max_chunk : Z := 65275.

(** A data chunk of client [id] (the listener's are at most 4096 bytes). *)
Definition carries (id : Z) (chunk : DataChunk) : Prop :=
  client_id chunk = id ∧ data chunk ≠ [] ∧ zlen (data chunk) <= max_chunk.

(** The bytes of a sequence of chunks. *)
Definition stream (cs : list DataChunk) : list byte := concat (map data cs).

(** The chunks of one client. *)
Definition only (id : Z) (cs : list DataChunk) : list DataChunk :=
  List.filter (λ c, client_id c =? id) cs.

(** The effects tagged with one client. *)
Definition for_client (id : Z) (out : list (Z * effect)) : list effect :=
  map snd (List.filter (λ e, e.1 =? id) out).

(** The signal that a client is gone. *)
Definition disconnect (id : Z) : DataChunk := mkDataChunk id [].

(** The unread bytes of a client of the program's parser. *)
Definition unread {B} `{ByteBufferSpec B} (id : Z) (p : StreamingParser B) : list byte :=
  match m_clients p !! id with
  | Some c => bb_contents (ring_buffer c)
  | None => []
  end.

(** Every left-over is an undecided prefix of a frame. *)
Definition undecided (ls : leftovers) : Prop :=
  ∀ id, classify (default [] (ls !! id)) = NeedMore.

(** * Lemmas on the abstract parser *)

Lemma undecided_empty : undecided ∅.
Proof. intros id. by rewrite lookup_empty. Qed.

Lemma abs_chunk_undecided ls chunk : undecided ls → undecided (abs_chunk ls chunk).2.
Proof.
  intros Hu id. unfold abs_chunk. destruct chunk as [i [|b bytes]]; cbn [client_id data].
  { simpl. rewrite lookup_delete. by case_decide. }
  set (d := b :: bytes). set (old := default [] (ls !! i)).
  destruct (_ <? _); simpl.
  - rewrite lookup_delete. by case_decide.
  - pose proof (scan_rest (old ++ d)) as Hrest.
    destruct (scan (old ++ d)) as [es rest]. simpl in *.
    rewrite lookup_insert. by case_decide.
Qed.

Lemma abs_run_undecided ls cs : undecided ls → undecided (abs_run ls cs).2.
Proof.
  revert ls. induction cs as [|c cs IH]; intros ls Hu; [done|].
  rewrite abs_run_cons. by apply IH, abs_chunk_undecided.
Qed.

(** A disconnect forgets what was left over. *)
Lemma abs_disconnect ls id :
  ∃ ls', abs_chunk ls (disconnect id) = ([Log (cleanup_text id)], ls')
         ∧ ls' !! id = None.
Proof. exists (delete id ls). split; [done|]. apply lookup_delete_eq. Qed.

(** A data chunk that fits is scanned after what was left over. *)
Lemma abs_chunk_fits ls id chunk :
  undecided ls → carries id chunk →
  abs_chunk ls chunk
  = (events_effects (scan (default [] (ls !! id) ++ data chunk)).1,
     <[id := (scan (default [] (ls !! id) ++ data chunk)).2]> ls).
Proof.
  intros Hu (<- & Hd & Hm). unfold abs_chunk, max_chunk in *.
  pose proof (needmore_bound _ (Hu (client_id chunk))).
  destruct (data chunk) as [|b bytes] eqn:E; [done|].
  unfold DEFAULT_CAPACITY. rewrite (proj2 (Z.ltb_ge _ _)) by lia.
  by destruct (scan _).
Qed.

Lemma events_effects_app es es' :
  events_effects (es ++ es') = events_effects es ++ events_effects es'.
Proof. apply bind_app. Qed.

(** A client's chunks are scanned as one stream. *)
Lemma abs_run_session ls id cs :
  undecided ls → Forall (carries id) cs →
  (abs_run ls cs).1
  = map (pair id) (events_effects (scan (default [] (ls !! id) ++ stream cs)).1)
  ∧ default [] ((abs_run ls cs).2 !! id)
    = (scan (default [] (ls !! id) ++ stream cs)).2.
Proof.
  intros Hu Hcs. revert ls Hu. induction Hcs as [|c cs Hc Hcs IH]; intros ls Hu.
  { unfold stream. simpl. rewrite app_nil_r, scan_needmore by apply Hu. done. }
  rewrite abs_run_cons. cbn [fst snd].
  set (old := default [] (ls !! id)). change (stream (c :: cs)) with (data c ++ stream cs).
  rewrite (app_assoc old), (scan_app (old ++ data c)). cbn [fst snd].
  destruct (IH _ (abs_chunk_undecided ls c Hu)) as [IH1 IH2]. rewrite IH1, IH2.
  rewrite (abs_chunk_fits ls id c Hu Hc). cbn [fst snd]. fold old.
  rewrite lookup_insert_eq. simpl (default _ _).
  destruct Hc as (-> & _). by rewrite events_effects_app, map_app.
Qed.

Lemma abs_run_app ls cs cs' :
  abs_run ls (cs ++ cs')
  = ((abs_run ls cs).1 ++ (abs_run (abs_run ls cs).2 cs').1,
     (abs_run (abs_run ls cs).2 cs').2).
Proof.
  revert ls. induction cs as [|c cs IH]; intros ls.
  - simpl. by destruct (abs_run ls cs').
  - rewrite <-app_comm_cons, !abs_run_cons, IH. cbn [fst snd]. by rewrite <-app_assoc.
Qed.

(** ** Clients do not affect one another *)

Lemma abs_chunk_other ls chunk id :
  client_id chunk ≠ id → (abs_chunk ls chunk).2 !! id = ls !! id.
Proof.
  intros Hid. unfold abs_chunk. destruct chunk as [i [|b bytes]]; cbn [client_id data] in *.
  { by apply lookup_delete_ne. }
  destruct (_ <? _); [by apply lookup_delete_ne|].
  destruct (scan _). by apply lookup_insert_ne.
Qed.

Lemma abs_chunk_agree ls ls' chunk :
  ls !! client_id chunk = ls' !! client_id chunk →
  (abs_chunk ls chunk).1 = (abs_chunk ls' chunk).1
  ∧ (abs_chunk ls chunk).2 !! client_id chunk = (abs_chunk ls' chunk).2 !! client_id chunk.
Proof.
  intros Hl. unfold abs_chunk. rewrite <-Hl.
  destruct chunk as [i [|b bytes]]; cbn [client_id data] in *.
  { cbn [snd]. by rewrite !lookup_delete_eq. }
  destruct (_ <? _); [cbn [snd]; by rewrite !lookup_delete_eq|].
  destruct (scan _). cbn [snd]. by rewrite !lookup_insert_eq.
Qed.

Lemma for_client_app id out out' :
  for_client id (out ++ out') = for_client id out ++ for_client id out'.
Proof. unfold for_client. by rewrite List.filter_app, map_app. Qed.

Lemma for_client_tagged id i (es : list effect) :
  for_client id (map (pair i) es) = if i =? id then es else [].
Proof.
  unfold for_client. induction es as [|e es IH]; simpl; [by destruct (i =? id)|].
  destruct (i =? id); simpl; congruence.
Qed.

Lemma abs_run_isolated ls ls' cs id :
  ls !! id = ls' !! id →
  for_client id (abs_run ls cs).1 = map snd (abs_run ls' (only id cs)).1
  ∧ (abs_run ls cs).2 !! id = (abs_run ls' (only id cs)).2 !! id.
Proof.
  revert ls ls'. induction cs as [|c cs IH]; intros ls ls' Hl; [done|].
  rewrite abs_run_cons. cbn [fst snd]. rewrite for_client_app, for_client_tagged.
  unfold only. cbn [List.filter]. fold (only id cs).
  destruct (Z.eqb_spec (client_id c) id) as [Hid|Hid].
  - rewrite abs_run_cons. cbn [fst snd]. rewrite map_app, map_snd_pair.
    subst id. destruct (abs_chunk_agree ls ls' c Hl) as [H1 H2].
    destruct (IH _ _ H2) as [H3 H4]. by rewrite H1, H3.
  - simpl. apply IH. by rewrite abs_chunk_other.
Qed.

Lemma abs_run_tags ls cs : Forall (λ e, e.1 ∈ map client_id cs) (abs_run ls cs).1.
Proof.
  revert ls. induction cs as [|c cs IH]; intros ls; [constructor|].
  rewrite abs_run_cons. cbn [fst snd map]. apply Forall_app. split.
  - apply Forall_map, Forall_true. intros e. simpl. left.
  - eapply Forall_impl; [apply IH|]. simpl. intros e He. by right.
Qed.

(** ** What the effects do to the queues *)

Lemma logged_app es es' : logged (es ++ es') = logged es ++ logged es'.
Proof. apply omap_app. Qed.

Lemma delivered_app es es' : delivered (es ++ es') = delivered es ++ delivered es'.
Proof. apply omap_app. Qed.

Lemma delivered_events es : delivered (events_effects es) = received es.
Proof.
  induction es as [|e es IH]; [done|]. change (e :: es) with ([e] ++ es).
  rewrite events_effects_app, delivered_app, received_app, IH. by destruct e.
Qed.

(** Whatever arrives, the telemetry delivered can be sent. *)
Lemma abs_chunk_sendable ls chunk : Forall sendable (delivered (abs_chunk ls chunk).1).
Proof.
  unfold abs_chunk. destruct (data chunk) as [|b bytes]; [constructor|].
  destruct (_ <? _); [constructor|].
  pose proof (scan_sendable (default [] (ls !! client_id chunk) ++ b :: bytes)) as Hs.
  destruct (scan _) as [es rest]. cbn [fst] in *. by rewrite delivered_events.
Qed.

Lemma abs_run_sendable ls cs : Forall sendable (delivered (map snd (abs_run ls cs).1)).
Proof.
  revert ls. induction cs as [|c cs IH]; intros ls; [constructor|].
  rewrite abs_run_cons. cbn [fst]. rewrite map_app, map_snd_pair, delivered_app.
  apply Forall_app. split; [apply abs_chunk_sendable|apply IH].
Qed.

Lemma counted_app es es' : counted (es ++ es') = counted es + counted es'.
Proof. unfold counted. by rewrite List.filter_app, zlen_app. Qed.

Lemma failures_app es es' : failures (es ++ es') = failures es + failures es'.
Proof. unfold failures. by rewrite List.filter_app, zlen_app. Qed.

Lemma counted_events es : counted (events_effects es) = failures es.
Proof.
  induction es as [|e es IH]; [done|]. change (e :: es) with ([e] ++ es).
  rewrite events_effects_app, counted_app, failures_app, IH. by destruct e.
Qed.

Section Queues.
Context {B : Type} `{ByteBufferSpec B} `{Host}.

Implicit Types (p : StreamingParser B).

Lemma apply_effects_parsed p es :
  m_queue (m_parsed_queue (apply_effects p es))
  = m_queue (m_parsed_queue p) ++ delivered es.
Proof.
  revert p. induction es as [|e es IH]; intros p; [by rewrite app_nil_r|].
  simpl. rewrite IH. by destruct e; simpl; rewrite <-?app_assoc.
Qed.

Lemma apply_effects_log p es :
  m_queue (m_log_queue (apply_effects p es)) = m_queue (m_log_queue p) ++ logged es.
Proof.
  revert p. induction es as [|e es IH]; intros p; [by rewrite app_nil_r|].
  simpl. rewrite IH. by destruct e; simpl; rewrite <-?app_assoc.
Qed.

Lemma apply_effects_failures p es :
  0 <= m_crc_failures p < 2 ^ 64 →
  m_crc_failures (apply_effects p es) = u64 (m_crc_failures p + counted es).
Proof.
  revert p. induction es as [|e es IH]; intros p Hp.
  { simpl. change (counted []) with 0. rewrite Z.add_0_r. symmetry. by apply wrap_small. }
  change (e :: es) with ([e] ++ es). rewrite counted_app, apply_effects_app, IH.
  2: { destruct e; simpl; try done. by apply wrap_bounds. }
  destruct e; [done| |done]. cbn [apply_effects foldl apply_effect m_crc_failures set_crc_failures].
  unfold wrap. rewrite Zplus_mod_idemp_l. f_equal. change (counted [CountFailure]) with 1. lia.
Qed.

Lemma unread_repr p ls id :
  clients_repr (m_clients p) ls → unread id p = default [] (ls !! id).
Proof.
  intros Hr. unfold unread. destruct (Hr id) as [c l Hc|]; [|done].
  by destruct Hc as (_ & _ & Hl & _).
Qed.

(** A fresh parser fed any chunks: what [feed_ok] says from the start. *)
Lemma feed_new raw parsed log cs :
  m_max_size parsed = 0 → m_max_size log = 0 →
  ∃ clients,
    feed cs (new_parser raw parsed log : StreamingParser B)
    = (Ok tt, set_clients clients
        (apply_effects (new_parser raw parsed log) (map snd (abs_run ∅ cs).1)))
    ∧ clients_repr clients (abs_run ∅ cs).2.
Proof. intros Hp Hl. apply feed_ok; [by split|apply clients_repr_empty]. Qed.

End Queues.

(** ** The thread's loop *)

Section Loop.
Context {B : Type} `{ByteBufferSpec B} `{Host}.

Implicit Types (p : StreamingParser B).

#[export] Instance raw_ref_laws : HasQueueLaws (StreamingParser B) DataChunk.
Proof. split; [done|by intros []|done]. Qed.

Lemma apply_set_raw q p es :
  apply_effects (set_raw_queue q p) es = set_raw_queue q (apply_effects p es).
Proof.
  revert p. induction es as [|e es IH]; intros p; [done|]. simpl.
  rewrite <-IH. by destruct e.
Qed.

(** The parser after taking the chunks [cs] off its raw queue, from a start
    [p0] with no clients. *)
Definition consumed p0 (cs : list DataChunk) p : Prop :=
  ∃ clients rest,
    p = set_raw_queue rest (set_clients clients
          (apply_effects p0 (map snd (abs_run ∅ cs).1)))
    ∧ clients_repr clients (abs_run ∅ cs).2.

Lemma consumed_queue p0 cs p q : consumed p0 cs p → consumed p0 cs (set_raw_queue q p).
Proof. intros (cl & rest & -> & Hr). by exists cl, q. Qed.

Lemma consumed_step p0 cs p (u : unit) chunk :
  unbounded p0 → consumed p0 cs p →
  ∃ p', handle_chunk chunk p = (Ok tt, p') ∧ consumed p0 (cs ++ [chunk]) p'
        ∧ m_raw_queue p' = m_raw_queue p.
Proof.
  intros Hu (cl & rest & -> & Hr).
  set (p1 := set_raw_queue rest _).
  destruct (handle_chunk_ok p1 (abs_run ∅ cs).2 chunk) as (cl' & E & Hr').
  { by apply (apply_effects_unbounded p0). }
  { done. }
  rewrite E. eexists. split; [done|].
  split; [|cbn [m_raw_queue set_clients]; by rewrite m_raw_queue_apply].
  exists cl', rest. rewrite abs_run_app, abs_run_cons. cbn [fst snd abs_run]. split; [|done].
  unfold p1. rewrite app_nil_r, map_app, map_snd_pair, apply_effects_app.
  by rewrite apply_set_raw, apply_set_clients.
Qed.

(** [run_loop] hands the chunks to [handle_chunk] in order. *)
Lemma run_loop_ok rounds p :
  unbounded p → clients_repr (m_clients p) ∅ →
  ∃ o p' cs,
    run_loop rounds p = (o, p') ∧ loop_outcome o ∧ consumed p cs p'
    ∧ m_queue (m_raw_queue p) ++ concat (map arrivals (take (started o (length cs)) rounds))
      = cs ++ m_queue (m_raw_queue p')
    ∧ loop_progress o (length cs) rounds (m_queue (m_raw_queue p')).
Proof.
  intros Hu Hr.
  destruct (worker_loop_ok (λ _ : unit, handle_chunk) (λ cs p', consumed p cs p')
    (λ cs c, cs ++ [c.2])) with (rounds := rounds) (a := [] : list DataChunk) (s := p)
    as (o & p' & xs & E & Ho & Hc & _ & Hq & Hrun & Hwait & _ & Hend).
  - intros cs p1 [] c Hc. by apply consumed_step.
  - intros cs p1 q. apply consumed_queue.
  - exists (m_clients p), (m_raw_queue p). by destruct p.
  - exists o, p', (map snd xs). rewrite length_map. split; [done|]. split; [done|].
    split; [|split; [done|split; [done|by auto|done]]].
    enough (∀ cs, foldl (λ cs c, cs ++ [c.2]) cs xs = cs ++ map snd xs) as Hfold
      by (by rewrite Hfold in Hc).
    clear. induction xs as [|x xs IH]; intros cs; simpl; [by rewrite app_nil_r|].
    by rewrite IH, <-app_assoc.
Qed.

End Loop.
