(* ===== verification/ParserProperties.v ===== *)
(** * Properties of the parser thread

    The claims about [StreamingParser], each with the concrete input that
    shows its hypotheses can hold. They are stated for the program's parser,
    the one over [RingBuffer], on a host of either byte order. *)

From S2P Require Import Prelude ByteBuffer RingBuffer Telemetry Endian Crc16 Payload Scan ThreadSafeQueue Worker StreamingParser ParserCorrect ParserTheorems.

(** The parser of the program. *)
Abbreviation Parser := (StreamingParser RingBuffer.RingBuffer).

(** A queue with no bound, as main.cpp constructs them. *)
Definition is_unbounded {T} (q : ThreadSafeQueue T) : Prop := m_max_size q = 0.

(** A sample packet and chunks for the witnesses. *)
Definition sample : Telemetry := mkTelemetry "DRONE-7" 0 0 0x405E400000000000 0 1700000000.

Definition sample_cut : list DataChunk :=
  [mkDataChunk 5 (take 3 (encode_packet sample));
   mkDataChunk 5 (drop 3 (encode_packet sample))].

Lemma sample_sendable : sendable sample.
Proof. split; [split; vm_compute; by split|vm_compute; discriminate]. Qed.

Lemma sample_cut_carries : Forall (carries 5) sample_cut.
Proof. repeat constructor; vm_compute; discriminate. Qed.

Section Properties.
Context `{Host}.

(** A client's chunks, from a fresh parser, as one stream. *)
Lemma fresh_session raw parsed log id cs :
  is_unbounded parsed → is_unbounded log → Forall (carries id) cs →
  ∃ p' : Parser, feed cs (new_parser raw parsed log) = (Ok tt, p')
    ∧ m_queue (m_parsed_queue p') = m_queue parsed ++ received (scan (stream cs)).1
    ∧ crc_failure_count p' = u64 (failures (scan (stream cs)).1)
    ∧ m_queue (m_log_queue p') = m_queue log ++ logged (events_effects (scan (stream cs)).1)
    ∧ unread id p' = (scan (stream cs)).2.
Proof.
  intros Hp Hl Hcs.
  destruct (feed_new (B:=RingBuffer.RingBuffer) raw parsed log cs Hp Hl) as (cl & E & Hr).
  destruct (abs_run_session ∅ id cs undecided_empty Hcs) as [H1 H2].
  rewrite lookup_empty in H1, H2. simpl in H1, H2.
  rewrite H1, map_snd_pair in E. eexists. split; [exact E|].
  unfold crc_failure_count. cbn [m_parsed_queue m_crc_failures m_log_queue set_clients].
  rewrite apply_effects_parsed, apply_effects_log, apply_effects_failures by done.
  rewrite delivered_events, counted_events. repeat split.
  by rewrite (unread_repr _ (abs_run ∅ cs).2 id) by exact Hr.
Qed.

(** C15: the telemetry a client delivers, the failures counted and the bytes
    still unread are those of [scan] on the concatenation of its chunks,
    however TCP segmented them; no exception and no undefined behaviour occur
    on the way. *)
Theorem stream_semantics raw parsed log id cs :
  is_unbounded parsed → is_unbounded log → Forall (carries id) cs →
  ∃ p' : Parser, feed cs (new_parser raw parsed log) = (Ok tt, p')
    ∧ m_queue (m_parsed_queue p') = m_queue parsed ++ received (scan (stream cs)).1
    ∧ crc_failure_count p' = u64 (failures (scan (stream cs)).1)
    ∧ unread id p' = (scan (stream cs)).2.
Proof.
  intros Hp Hl Hcs. destruct (fresh_session raw parsed log id cs Hp Hl Hcs)
    as (p' & E & H1 & H2 & _ & H3). by exists p'.
Qed.

(** C16: packets encoded as README.md lays them out, sent back to back and cut
    into chunks at arbitrary places, come out of the parsed queue exactly and
    in order; nothing is counted as a failure and no byte is left over. *)
Theorem packets_roundtrip raw parsed log id cs ts :
  is_unbounded parsed → is_unbounded log → Forall (carries id) cs →
  Forall sendable ts → stream cs = concat (map encode_packet ts) →
  ∃ p' : Parser, feed cs (new_parser raw parsed log) = (Ok tt, p')
    ∧ m_queue (m_parsed_queue p') = m_queue parsed ++ ts
    ∧ crc_failure_count p' = 0 ∧ unread id p' = [].
Proof.
  intros Hp Hl Hcs Hts Hs. destruct (fresh_session raw parsed log id cs Hp Hl Hcs)
    as (p' & E & H1 & H2 & _ & H3).
  pose proof (scan_packets ts [] Hts) as Hscan. rewrite app_nil_r, <-Hs in Hscan.
  rewrite Hscan in H1, H2, H3. change (scan []) with ([] : list event, [] : list byte) in *.
  simpl in H1, H2, H3. rewrite app_nil_r, received_map in H1.
  exists p'. repeat split; [done|done| |done].
  by rewrite H2, app_nil_r, failures_received.
Qed.

(** Two ways of cutting the same bytes into chunks give the same delivered
    telemetry, failure count, log messages and unread bytes. *)
Theorem chunking_irrelevant raw parsed log id cs cs' :
  is_unbounded parsed → is_unbounded log →
  Forall (carries id) cs → Forall (carries id) cs' → stream cs = stream cs' →
  ∃ p p' : Parser,
    feed cs (new_parser raw parsed log) = (Ok tt, p)
    ∧ feed cs' (new_parser raw parsed log) = (Ok tt, p')
    ∧ m_queue (m_parsed_queue p) = m_queue (m_parsed_queue p')
    ∧ crc_failure_count p = crc_failure_count p'
    ∧ m_queue (m_log_queue p) = m_queue (m_log_queue p')
    ∧ unread id p = unread id p'.
Proof.
  intros Hp Hl Hcs Hcs' Hs.
  destruct (fresh_session raw parsed log id cs Hp Hl Hcs) as (p & E & H1 & H2 & H3 & H4).
  destruct (fresh_session raw parsed log id cs' Hp Hl Hcs') as (p' & E' & H1' & H2' & H3' & H4').
  rewrite <-Hs in *. exists p, p'. repeat split; congruence.
Qed.

(** C17: a valid packet is never skipped: wherever one starts in the part of
    the stream that has been decided, it is delivered, or it overlaps a frame
    that was accepted before it. *)
Theorem valid_packet_never_skipped raw parsed log id cs i t k :
  is_unbounded parsed → is_unbounded log → Forall (carries id) cs →
  sendable t → drop i (stream cs) = encode_packet t ++ k →
  ∃ p' : Parser, feed cs (new_parser raw parsed log) = (Ok tt, p')
    ∧ ((i + length (unread id p') < length (stream cs))%nat →
       t ∈ m_queue (m_parsed_queue p')
       ∨ ∃ o q, accepts (stream cs) o q ∧ (o < i < o + length q + 6)%nat).
Proof.
  intros Hp Hl Hcs Ht Hi. destruct (fresh_session raw parsed log id cs Hp Hl Hcs)
    as (p' & E & H1 & _ & _ & H2).
  exists p'. split; [done|]. rewrite H1, H2. intros Hlen.
  destruct (sendable_payload t Ht) as [Hsize Hev].
  assert (classify (drop i (stream cs)) = Accept (encode_payload t)) as Hc.
  { rewrite Hi. by apply classify_frame. }
  destruct (valid_frame_found _ i _ Hc Hlen) as [Ha|Ho]; [left|by right].
  apply accepts_event in Ha. rewrite Hev in Ha. apply elem_of_app. right.
  apply list_elem_of_omap. by exists (Received t).
Qed.

(** C18: [process_client] implements the stream reference: from any state the
    parser can be in, it delivers and counts what [scan] finds in the unread
    bytes and leaves exactly the undecided rest in the ring buffer, with the
    state machine's invariant restored. *)
Theorem process_client_refines_scan (p : Parser) c l :
  unbounded p → client_inv c l →
  ∃ c', process_client (p, c)
        = (Ok tt, (apply_effects p (events_effects (scan l).1), c'))
        ∧ client_inv c' (scan l).2.
Proof. apply process_client_ok. Qed.

(** C19: the parsing loop terminates: three iterations per unread byte and three
    more are always enough, whatever the bytes are. *)
Theorem process_client_terminates (p : Parser) c l fuel :
  unbounded p → client_inv c l → (3 * length l + 3 <= fuel)%nat →
  ∃ s', while_true fuel process_step (p, c) = (Ok tt, s').
Proof.
  intros Hu Hc Hf. pose proof (process_fuel_enough c l Hc) as Hm.
  unfold process_fuel in Hm. rewrite (size_ok c l Hc) in Hm. unfold zlen in Hm.
  destruct (process_loop_ok fuel p c l Hu Hc ltac:(lia)) as (c' & E & _).
  by eexists.
Qed.

(** C20: whatever chunks arrive, of whatever size and from whatever clients, no
    client is ever left with 262 unread bytes or more, and every ring buffer
    keeps its invariant. *)
Theorem unread_bounded raw parsed log cs :
  is_unbounded parsed → is_unbounded log →
  ∃ p' : Parser, feed cs (new_parser raw parsed log) = (Ok tt, p')
    ∧ ∀ id, zlen (unread id p') < 262
      ∧ ∀ c, m_clients p' !! id = Some c → RingBuffer.wf (ring_buffer c).
Proof.
  intros Hp Hl.
  destruct (feed_new (B:=RingBuffer.RingBuffer) raw parsed log cs Hp Hl) as (cl & E & Hr).
  eexists. split; [exact E|]. intros id. split.
  - rewrite (unread_repr _ (abs_run ∅ cs).2 id) by exact Hr.
    apply needmore_bound, abs_run_undecided, undecided_empty.
  - cbn [m_clients set_clients]. intros c Hc. pose proof (Hr id) as Hid.
    rewrite Hc in Hid. inversion Hid as [? l Hinv|]; subst. apply Hinv.
Qed.

(** A data chunk of at most 65275 bytes (the listener's have at most 4096)
    never overflows its client's ring buffer: whatever came before, the client
    is still there after it. *)
Theorem small_chunks_keep_client raw parsed log cs id chunk :
  is_unbounded parsed → is_unbounded log → carries id chunk →
  ∃ p' : Parser, feed (cs ++ [chunk]) (new_parser raw parsed log) = (Ok tt, p')
    ∧ is_Some (m_clients p' !! id).
Proof.
  intros Hp Hl Hc.
  destruct (feed_new (B:=RingBuffer.RingBuffer) raw parsed log (cs ++ [chunk]) Hp Hl)
    as (cl & E & Hr).
  eexists. split; [exact E|]. cbn [m_clients set_clients].
  rewrite abs_run_app in Hr. cbn [snd] in Hr. rewrite abs_run_cons in Hr. cbn [snd] in Hr.
  rewrite (abs_chunk_fits _ id chunk (abs_run_undecided ∅ cs undecided_empty) Hc) in Hr.
  pose proof (Hr id) as Hid. simpl in Hid. rewrite lookup_insert_eq in Hid.
  inversion Hid. by eexists.
Qed.

(** A chunk that does not fit in what is free of its client's ring buffer
    is not parsed: the client is dropped, the overflow is logged with the
    sizes, and nothing is delivered or counted. *)
Theorem oversized_chunk_drops_client raw parsed log cs id bytes :
  is_unbounded parsed → is_unbounded log →
  ∃ p p' : Parser,
    feed cs (new_parser raw parsed log) = (Ok tt, p)
    ∧ feed (cs ++ [mkDataChunk id bytes]) (new_parser raw parsed log) = (Ok tt, p')
    ∧ (DEFAULT_CAPACITY - zlen (unread id p) < zlen bytes →
       m_clients p' !! id = None
       ∧ m_queue (m_log_queue p') = m_queue (m_log_queue p) ++
           [overflow_text (Overflow_error (overflow_what (zlen bytes)
              (DEFAULT_CAPACITY - zlen (unread id p)))) id]
       ∧ m_queue (m_parsed_queue p') = m_queue (m_parsed_queue p)
       ∧ m_crc_failures p' = m_crc_failures p).
Proof.
  intros Hp Hl.
  destruct (feed_new (B:=RingBuffer.RingBuffer) raw parsed log cs Hp Hl) as (cl & E & Hr).
  destruct (feed_new (B:=RingBuffer.RingBuffer) raw parsed log (cs ++ [mkDataChunk id bytes])
    Hp Hl) as (cl' & E' & Hr').
  eexists _, _. split; [exact E|]. split; [exact E'|].
  rewrite (unread_repr _ (abs_run ∅ cs).2 id) by exact Hr. intros Hbig.
  pose proof (needmore_bound _ (abs_run_undecided ∅ cs undecided_empty id)) as Hold.
  set (ls := (abs_run ∅ cs).2) in *.
  assert (abs_chunk ls (mkDataChunk id bytes)
    = ([Log (overflow_text (Overflow_error (overflow_what (zlen bytes)
         (DEFAULT_CAPACITY - zlen (default [] (ls !! id))))) id)], delete id ls)) as Hc.
  { unfold abs_chunk. cbn [client_id data]. destruct bytes as [|b bytes].
    - unfold DEFAULT_CAPACITY in *. rewrite zlen_nil in Hbig. lia.
    - by rewrite (proj2 (Z.ltb_lt _ _)) by lia. }
  rewrite abs_run_app in Hr', E' |- *. cbn [fst snd] in Hr' |- *.
  rewrite abs_run_cons in Hr' |- *. fold ls in Hr' |- *. rewrite Hc in Hr' |- *.
  cbn [fst snd abs_run client_id map] in *. split; [|split; [|split]].
  - cbn [m_clients set_clients]. pose proof (Hr' id) as Hid.
    rewrite lookup_delete_eq in Hid. by inversion Hid.
  - cbn [m_log_queue set_clients]. rewrite map_app, apply_effects_app, !apply_effects_log.
    done.
  - cbn [m_parsed_queue set_clients]. rewrite map_app, apply_effects_app, !apply_effects_parsed.
    by rewrite app_nil_r.
  - cbn [m_crc_failures set_clients]. by rewrite map_app, apply_effects_app.
Qed.
(** A disconnect separates sessions: when a file descriptor is reused, the
    bytes of the new connection are parsed from scratch, and nothing left over
    from the old one reaches them. *)
Theorem disconnect_forgets raw parsed log id cs cs' :
  is_unbounded parsed → is_unbounded log →
  Forall (carries id) cs → Forall (carries id) cs' →
  ∃ p' : Parser,
    feed (cs ++ [disconnect id] ++ cs') (new_parser raw parsed log) = (Ok tt, p')
    ∧ m_queue (m_parsed_queue p')
      = m_queue parsed ++ received (scan (stream cs)).1 ++ received (scan (stream cs')).1
    ∧ unread id p' = (scan (stream cs')).2.
Proof.
  intros Hp Hl Hcs Hcs'.
  destruct (feed_new (B:=RingBuffer.RingBuffer) raw parsed log (cs ++ [disconnect id] ++ cs')
    Hp Hl) as (cl & E & Hr).
  destruct (abs_run_session ∅ id cs undecided_empty Hcs) as [H1 _].
  pose proof (abs_run_undecided ∅ cs undecided_empty) as Hu.
  rewrite abs_run_app in E, Hr. set (ls := (abs_run ∅ cs).2) in *.
  cbn [fst snd app] in E, Hr. rewrite abs_run_cons in E, Hr. cbn [fst snd] in E, Hr.
  destruct (abs_disconnect ls id) as (ls' & Hd & Hnone).
  pose proof (abs_chunk_undecided ls (disconnect id) Hu) as Hu'.
  rewrite Hd in E, Hr, Hu'. cbn [fst snd] in E, Hr, Hu'.
  destruct (abs_run_session ls' id cs' Hu' Hcs') as [H2 H3].
  rewrite Hnone in H2, H3. simpl (default _ _) in H2, H3.
  rewrite lookup_empty in H1. simpl (default _ _) in H1.
  eexists. split; [exact E|]. split.
  - cbn [m_parsed_queue set_clients]. rewrite apply_effects_parsed. f_equal.
    rewrite H1, H2, !map_app, !map_snd_pair, !delivered_app, !delivered_events. done.
  - change (stream cs') with ([] ++ stream cs'). rewrite <-H3. by apply unread_repr.
Qed.

(** The thread from its start to wherever it is after [rounds]. *)
Lemma parser_session raw parsed log rounds :
  is_unbounded parsed → is_unbounded log →
  ∃ o (p' : Parser) cs,
    run rounds (new_parser raw parsed log) = (o, p') ∧ loop_outcome o
    ∧ m_queue raw ++ concat (map arrivals (take (started o (length cs)) rounds))
      = cs ++ m_queue (m_raw_queue p')
    ∧ loop_progress o (length cs) rounds (m_queue (m_raw_queue p'))
    ∧ m_queue (m_parsed_queue p')
      = m_queue parsed ++ delivered (map snd (abs_run ∅ cs).1)
    ∧ m_queue (m_log_queue p')
      = m_queue log ++ [running_text] ++ logged (map snd (abs_run ∅ cs).1)
        ++ match o with Ok true => [shutdown_text (crc_failure_count p')] | _ => [] end.
Proof.
  intros Hp Hl. set (p0 := new_parser raw parsed log : Parser).
  set (p1 := apply_effect p0 (Log running_text)).
  destruct (run_loop_ok rounds p1 (conj Hp Hl) clients_repr_empty)
    as (o & p' & cs & E & Ho & (cl & rest & -> & _) & Hq & Hpr).
  unfold run. rewrite (M_bind_ok _ _ p0 tt p1) by (by apply push_log_ok).
  set (p2 := set_raw_queue _ _) in *.
  assert (m_queue (m_parsed_queue p2)
    = m_queue parsed ++ delivered (map snd (abs_run ∅ cs).1)) as Hpar.
  { unfold p2. cbn [m_parsed_queue set_raw_queue set_clients]. by rewrite apply_effects_parsed. }
  assert (m_queue (m_log_queue p2)
    = m_queue log ++ [running_text] ++ logged (map snd (abs_run ∅ cs).1)) as Hlog.
  { unfold p2. cbn [m_log_queue set_raw_queue set_clients]. rewrite apply_effects_log.
    simpl. by rewrite <-app_assoc. }
  assert (unbounded p2) as Hu2 by (apply (apply_effects_unbounded p1); by split).
  destruct Ho as [-> | [-> | ->]].
  - rewrite (M_bind_ok _ _ _ _ _ E). unfold shut_down. mrun. rewrite (push_log_ok p2) by done.
    exists (Ok true), (apply_effect p2 (Log (shutdown_text (m_crc_failures p2)))), cs.
    split; [done|]. split; [by left|]. split; [exact Hq|]. split; [exact Hpr|].
    split; [exact Hpar|].
    cbn [apply_effect m_log_queue set_log_queue enqueue m_queue].
    rewrite Hlog. by rewrite <-!app_assoc.
  - rewrite (M_bind_ok _ _ _ _ _ E). mrun. exists (Ok false), p2, cs.
    rewrite app_nil_r. split; [done|]. by split; [right; left|].
  - unfold mbind, M_bind. rewrite E. exists Blocked, p2, cs.
    rewrite app_nil_r. split; [done|]. by split; [right; right|].
Qed.

(** The parser thread does not die: whatever arrives and whenever the stop
    is requested, its loop has been left, is still running, or waits for a
    chunk, and never ends in an uncaught exception or undefined behaviour. The
    chunks it took and those still queued are together exactly those that
    arrived, in order, and its outputs are those of the chunks it took. It
    waits only when its queue is empty and is left only on a stop request. *)
Theorem parser_thread_safe raw parsed log rounds :
  is_unbounded parsed → is_unbounded log →
  ∃ o (p' : Parser) cs,
    run rounds (new_parser raw parsed log) = (o, p') ∧ loop_outcome o
    ∧ m_queue raw ++ concat (map arrivals (take (started o (length cs)) rounds))
      = cs ++ m_queue (m_raw_queue p')
    ∧ loop_progress o (length cs) rounds (m_queue (m_raw_queue p'))
    ∧ m_queue (m_parsed_queue p')
      = m_queue parsed ++ delivered (map snd (abs_run ∅ cs).1)
    ∧ m_queue (m_log_queue p')
      = m_queue log ++ [running_text] ++ logged (map snd (abs_run ∅ cs).1)
        ++ match o with Ok true => [shutdown_text (crc_failure_count p')] | _ => [] end.
Proof. by apply parser_session. Qed.

(** Clients are isolated: the effects of any interleaving of chunks carry
    the client they are for, and those of one client, and its unread bytes, are
    what a parser that sees only that client's chunks produces. *)
Theorem client_isolation raw parsed log cs :
  is_unbounded parsed → is_unbounded log →
  ∃ (p : Parser) out,
    feed cs (new_parser raw parsed log) = (Ok tt, p)
    ∧ m_queue (m_parsed_queue p) = m_queue parsed ++ delivered (map snd out)
    ∧ m_queue (m_log_queue p) = m_queue log ++ logged (map snd out)
    ∧ Forall (λ e, e.1 ∈ map client_id cs) out
    ∧ ∀ id, ∃ p' : Parser,
        feed (only id cs) (new_parser raw parsed log) = (Ok tt, p')
        ∧ m_queue (m_parsed_queue p') = m_queue parsed ++ delivered (for_client id out)
        ∧ m_queue (m_log_queue p') = m_queue log ++ logged (for_client id out)
        ∧ unread id p = unread id p'.
Proof.
  intros Hp Hl.
  destruct (feed_new (B:=RingBuffer.RingBuffer) raw parsed log cs Hp Hl) as (cl & E & Hr).
  eexists _, (abs_run ∅ cs).1. split; [exact E|].
  cbn [m_parsed_queue m_log_queue set_clients].
  split; [apply apply_effects_parsed|]. split; [apply apply_effects_log|].
  split; [apply abs_run_tags|]. intros id.
  destruct (feed_new (B:=RingBuffer.RingBuffer) raw parsed log (only id cs) Hp Hl)
    as (cl' & E' & Hr').
  destruct (abs_run_isolated ∅ ∅ cs id eq_refl) as [Hi1 Hi2].
  eexists. split; [exact E'|]. cbn [m_parsed_queue m_log_queue set_clients]. rewrite Hi1.
  split; [apply apply_effects_parsed|]. split; [apply apply_effects_log|].
  rewrite (unread_repr _ (abs_run ∅ cs).2 id) by exact Hr.
  rewrite (unread_repr _ (abs_run ∅ (only id cs)).2 id) by exact Hr'.
  by rewrite Hi2.
Qed.

End Properties.

(** C21: what the parser outputs depends neither on the host's byte order nor on
    the byte buffer: on two hosts and over any two implementations that satisfy
    the contract of [ByteBuffer.v], of which [RingBuffer] is one, the parser
    delivers, logs and counts the same for any chunks. *)
Theorem output_independent {B B' : Type} `{spec : ByteBufferSpec B} `{spec' : ByteBufferSpec B'}
    (h h' : Host) raw parsed log cs :
  is_unbounded parsed → is_unbounded log →
  ∃ (p : StreamingParser B) (p' : StreamingParser B'),
    @feed B _ h cs (new_parser raw parsed log) = (Ok tt, p)
    ∧ @feed B' _ h' cs (new_parser raw parsed log) = (Ok tt, p')
    ∧ m_parsed_queue p = m_parsed_queue p' ∧ m_log_queue p = m_log_queue p'
    ∧ crc_failure_count p = crc_failure_count p'.
Proof.
  intros Hp Hl.
  destruct (@feed_new B _ _ h raw parsed log cs Hp Hl) as (cl & E & _).
  destruct (@feed_new B' _ _ h' raw parsed log cs Hp Hl) as (cl' & E' & _).
  eexists _, _. split; [exact E|]. split; [exact E'|].
  unfold crc_failure_count. cbn [m_parsed_queue m_log_queue m_crc_failures set_clients].
  generalize (map snd (abs_run ∅ cs).1) as es. intros es.
  enough (∀ (p : StreamingParser B) (p' : StreamingParser B'),
    m_parsed_queue p = m_parsed_queue p' → m_log_queue p = m_log_queue p' →
    m_crc_failures p = m_crc_failures p' →
    m_parsed_queue (apply_effects p es) = m_parsed_queue (apply_effects p' es)
    ∧ m_log_queue (apply_effects p es) = m_log_queue (apply_effects p' es)
    ∧ m_crc_failures (apply_effects p es) = m_crc_failures (apply_effects p' es)) as Hgo.
  { by apply Hgo. }
  induction es as [|e es IH]; intros p p' H1 H2 H3; [done|].
  apply IH; destruct e; simpl; congruence.
Qed.

(** ** Witnesses *)

#[local] Instance witness_host : Host := little.

(** The parser as main.cpp constructs it. *)
Definition start : Parser := new_parser (new_queue 0) (new_queue 0) (new_queue 0).

Lemma start_unbounded : unbounded start.
Proof. by split. Qed.

Lemma stream_semantics_witness :
  ∃ p' : Parser, feed sample_cut start = (Ok tt, p')
    ∧ m_queue (m_parsed_queue p') = received (scan (stream sample_cut)).1
    ∧ crc_failure_count p' = u64 (failures (scan (stream sample_cut)).1)
    ∧ unread 5 p' = (scan (stream sample_cut)).2.
Proof.
  apply (stream_semantics (new_queue 0) (new_queue 0) (new_queue 0) 5 sample_cut);
    [reflexivity|reflexivity|exact sample_cut_carries].
Defined.

Lemma packets_roundtrip_witness :
  ∃ p' : Parser, feed sample_cut start = (Ok tt, p')
    ∧ m_queue (m_parsed_queue p') = [sample]
    ∧ crc_failure_count p' = 0 ∧ unread 5 p' = [].
Proof.
  apply (packets_roundtrip (new_queue 0) (new_queue 0) (new_queue 0) 5 sample_cut [sample]);
    [reflexivity|reflexivity|exact sample_cut_carries
    |constructor; [exact sample_sendable|constructor]|vm_compute; reflexivity].
Defined.

Lemma chunking_irrelevant_witness :
  ∃ p p' : Parser,
    feed sample_cut start = (Ok tt, p)
    ∧ feed [mkDataChunk 5 (encode_packet sample)] start = (Ok tt, p')
    ∧ m_queue (m_parsed_queue p) = m_queue (m_parsed_queue p')
    ∧ crc_failure_count p = crc_failure_count p'
    ∧ m_queue (m_log_queue p) = m_queue (m_log_queue p')
    ∧ unread 5 p = unread 5 p'.
Proof.
  apply (chunking_irrelevant (new_queue 0) (new_queue 0) (new_queue 0) 5 sample_cut
    [mkDataChunk 5 (encode_packet sample)]);
    [reflexivity|reflexivity|exact sample_cut_carries
    |repeat constructor; vm_compute; discriminate|vm_compute; reflexivity].
Defined.

(** One byte of noise, then the packet. *)
Definition noisy : list DataChunk :=
  [mkDataChunk 5 [x00]; mkDataChunk 5 (encode_packet sample)].

Lemma valid_packet_never_skipped_witness :
  ∃ p' : Parser, feed noisy start = (Ok tt, p')
    ∧ ((1 + length (unread 5 p') < length (stream noisy))%nat →
       sample ∈ m_queue (m_parsed_queue p')
       ∨ ∃ o q, accepts (stream noisy) o q ∧ (o < 1 < o + length q + 6)%nat).
Proof.
  apply (valid_packet_never_skipped (new_queue 0) (new_queue 0) (new_queue 0) 5 noisy 1
    sample []);
    [reflexivity|reflexivity|repeat constructor; vm_compute; discriminate
    |exact sample_sendable|vm_compute; reflexivity].
Defined.

(** A client whose buffer holds one whole packet and a byte of the next. *)
Definition sample_bytes : list byte := encode_packet sample ++ [Byte.xaa].

Lemma process_client_refines_scan_witness :
  ∃ c : ClientState RingBuffer.RingBuffer, client_inv c sample_bytes
    ∧ ∃ c', process_client (start, c)
            = (Ok tt, (apply_effects start (events_effects (scan sample_bytes).1), c'))
            ∧ client_inv c' (scan sample_bytes).2.
Proof.
  destruct (push_bytes_ok start new_client [] sample_bytes new_client_inv
    ltac:(vm_compute; discriminate)) as (c & _ & Hc).
  exists c. split; [exact Hc|].
  exact (process_client_refines_scan start c sample_bytes start_unbounded Hc).
Defined.

Lemma process_client_terminates_witness :
  ∃ c : ClientState RingBuffer.RingBuffer, client_inv c sample_bytes
    ∧ ∃ s', while_true 200 process_step (start, c) = (Ok tt, s').
Proof.
  destruct (push_bytes_ok start new_client [] sample_bytes new_client_inv
    ltac:(vm_compute; discriminate)) as (c & _ & Hc).
  exists c. split; [exact Hc|].
  apply (process_client_terminates start c sample_bytes 200 start_unbounded Hc).
  apply Nat.leb_le. vm_compute. reflexivity.
Defined.

Lemma unread_bounded_witness :
  ∃ p' : Parser, feed sample_cut start = (Ok tt, p')
    ∧ ∀ id, zlen (unread id p') < 262
      ∧ ∀ c, m_clients p' !! id = Some c → RingBuffer.wf (ring_buffer c).
Proof.
  apply (unread_bounded (new_queue 0) (new_queue 0) (new_queue 0) sample_cut); reflexivity.
Defined.

Lemma small_chunks_keep_client_witness :
  ∃ p' : Parser, feed (sample_cut ++ [mkDataChunk 5 [x00]]) start = (Ok tt, p')
    ∧ is_Some (m_clients p' !! 5).
Proof.
  apply (small_chunks_keep_client (new_queue 0) (new_queue 0) (new_queue 0) sample_cut 5
    (mkDataChunk 5 [x00])); [reflexivity|reflexivity|].
  repeat split; vm_compute; discriminate.
Defined.

Lemma oversized_chunk_drops_client_witness :
  ∃ p p' : Parser,
    feed sample_cut start = (Ok tt, p)
    ∧ feed (sample_cut ++ [mkDataChunk 5 (replicate (Z.to_nat 70000) x00)]) start = (Ok tt, p')
    ∧ (DEFAULT_CAPACITY - zlen (unread 5 p) < zlen (replicate (Z.to_nat 70000) x00) →
       m_clients p' !! 5 = None
       ∧ m_queue (m_log_queue p') = m_queue (m_log_queue p) ++
           [overflow_text (Overflow_error (overflow_what (zlen (replicate (Z.to_nat 70000) x00))
              (DEFAULT_CAPACITY - zlen (unread 5 p)))) 5]
       ∧ m_queue (m_parsed_queue p') = m_queue (m_parsed_queue p)
       ∧ m_crc_failures p' = m_crc_failures p).
Proof.
  apply (oversized_chunk_drops_client (new_queue 0) (new_queue 0) (new_queue 0) sample_cut 5
    (replicate (Z.to_nat 70000) x00)); reflexivity.
Defined.

Lemma disconnect_forgets_witness :
  ∃ p' : Parser,
    feed ([mkDataChunk 5 (take 9 (encode_packet sample))] ++ [disconnect 5] ++ sample_cut)
      start = (Ok tt, p')
    ∧ m_queue (m_parsed_queue p')
      = received (scan (stream [mkDataChunk 5 (take 9 (encode_packet sample))])).1
        ++ received (scan (stream sample_cut)).1
    ∧ unread 5 p' = (scan (stream sample_cut)).2.
Proof.
  apply (disconnect_forgets (new_queue 0) (new_queue 0) (new_queue 0) 5
    [mkDataChunk 5 (take 9 (encode_packet sample))] sample_cut);
    [reflexivity|reflexivity|repeat constructor; vm_compute; discriminate
    |exact sample_cut_carries].
Defined.

(** Two chunks arrive at once; the stop is requested during the third wait. *)
Definition sample_rounds : list (Round DataChunk unit) :=
  [mkRound sample_cut false false tt; mkRound [] false false tt; mkRound [] false true tt].

Lemma parser_thread_safe_witness :
  ∃ o (p' : Parser) cs,
    run sample_rounds start = (o, p') ∧ loop_outcome o
    ∧ concat (map arrivals (take (started o (length cs)) sample_rounds))
      = cs ++ m_queue (m_raw_queue p')
    ∧ loop_progress o (length cs) sample_rounds (m_queue (m_raw_queue p'))
    ∧ m_queue (m_parsed_queue p') = delivered (map snd (abs_run ∅ cs).1)
    ∧ m_queue (m_log_queue p')
      = [running_text] ++ logged (map snd (abs_run ∅ cs).1)
        ++ match o with Ok true => [shutdown_text (crc_failure_count p')] | _ => [] end.
Proof.
  apply (parser_thread_safe (new_queue 0) (new_queue 0) (new_queue 0) sample_rounds); reflexivity.
Defined.

Lemma client_isolation_witness :
  ∃ (p : Parser) out,
    feed (sample_cut ++ [mkDataChunk 6 [x00]]) start = (Ok tt, p)
    ∧ m_queue (m_parsed_queue p) = delivered (map snd out)
    ∧ m_queue (m_log_queue p) = logged (map snd out)
    ∧ Forall (λ e, e.1 ∈ [5; 5; 6]) out
    ∧ ∀ id, ∃ p' : Parser,
        feed (only id (sample_cut ++ [mkDataChunk 6 [x00]])) start = (Ok tt, p')
        ∧ m_queue (m_parsed_queue p') = delivered (for_client id out)
        ∧ m_queue (m_log_queue p') = logged (for_client id out)
        ∧ unread id p = unread id p'.
Proof.
  apply (client_isolation (new_queue 0) (new_queue 0) (new_queue 0)
    (sample_cut ++ [mkDataChunk 6 [x00]])); reflexivity.
Defined.

Lemma output_independent_witness :
  ∃ (p : Parser) (p' : StreamingParser ListBuffer.t),
    @feed _ _ little sample_cut start = (Ok tt, p)
    ∧ @feed _ _ big sample_cut (new_parser (new_queue 0) (new_queue 0) (new_queue 0))
      = (Ok tt, p')
    ∧ m_parsed_queue p = m_parsed_queue p' ∧ m_log_queue p = m_log_queue p'
    ∧ crc_failure_count p = crc_failure_count p'.
Proof.
  apply (output_independent little big (new_queue 0) (new_queue 0) (new_queue 0) sample_cut);
    reflexivity.
Defined.
