(* ===== verification/CodecProperties.v ===== *)
(** * Properties of the packet format

    The decoder of payloads, the checksum, and what the parser makes of
    damaged packets and of noise between packets. *)

From S2P Require Import Prelude ByteBuffer RingBuffer Telemetry Endian Crc16 Payload Scan ThreadSafeQueue StreamingParser ParserCorrect ParserTheorems ParserProperties.

Section Properties.
Context `{Host}.

(** C23: on a host of either byte order, a payload decodes to [t] exactly when
    it starts with the encoding of [t] that README.md lays out; the bytes
    after it are ignored. *)
Theorem payload_decodes_iff data len t :
  0 <= len <= zlen data → len <= PTRDIFF_MAX →
  deserialize_payload data len = Ok (Some t)
  ↔ encodable t ∧ ∃ extra, take (Z.to_nat len) data = encode_payload t ++ extra.
Proof.
  intros Hl Hm. rewrite deserialize_payload_parse by done. split.
  - intros [= E]. by apply parse_payload_inv.
  - intros [Ht [extra ->]]. by rewrite parse_encode_payload.
Qed.

(** Decoding is memory safe whatever the bytes: it returns (a telemetry or
    nothing), and it looks at no byte past the payload, so the rest of the
    scratch buffer does not matter. *)
Theorem payload_decoding_safe payload rest rest' :
  zlen payload <= PTRDIFF_MAX →
  ∃ o, deserialize_payload (payload ++ rest) (zlen payload) = Ok o
       ∧ deserialize_payload (payload ++ rest') (zlen payload) = Ok o
       ∧ (o = None ↔ zlen payload < 42 ∨ zlen payload < 42 + field_at 0 2 payload).
Proof.
  intros Hm. exists (parse_payload payload).
  assert (∀ r, deserialize_payload (payload ++ r) (zlen payload) = Ok (parse_payload payload))
    as E.
  { intros r. rewrite deserialize_payload_parse by (done || zlen_lia).
    by rewrite to_nat_zlen, take_app_length. }
  split; [apply E|]. split; [apply E|].
  unfold parse_payload. destruct (Z.ltb_spec (zlen payload) 2).
  { split; [|done]. intros _. lia. }
  pose proof (field_at_bound 0 2 payload ltac:(lia) ltac:(lia) ltac:(lia)).
  destruct (Z.ltb_spec (zlen payload) (2 + field_at 0 2 payload + 40)).
  - split; [|done]. intros _. lia.
  - split; [done|]. intros ?. lia.
Qed.

End Properties.

(** C24: the checksum loop computes the catalogue's CRC-16/MODBUS (polynomial
    0x8005 processed most significant bit first, initial value 0xFFFF, input
    and output reflected) of the first [len] bytes, and reads nothing else. *)
Theorem compute_crc16_is_modbus data len :
  0 <= len <= zlen data →
  compute_crc16 data len = Ok (crc16_modbus (take (Z.to_nat len) data)).
Proof. intros Hl. by rewrite compute_crc16_ok, crc16_is_modbus. Qed.

(** The checksum tells apart any two messages of the same length that
    differ by one burst of at most 16 bits, bits being counted from the least
    significant of the first byte on ([e] is the burst, [o] its position). *)
Theorem crc_detects_bursts l k e o :
  length l = length k →
  le_value (xor_bytes l k) = e * 2 ^ o → 0 < e < 65536 → 0 <= o →
  ∃ c d, compute_crc16 l (zlen l) = Ok c ∧ compute_crc16 k (zlen k) = Ok d ∧ c ≠ d.
Proof.
  intros Hlen He Hb Ho. exists (crc16 l), (crc16 k).
  rewrite !compute_crc16_ok, !to_nat_zlen by (split; [apply zlen_nonneg|lia]).
  rewrite !take_ge by done. repeat split. by eapply crc16_burst.
Qed.

Section Damage.
Context `{Host}.

(** C25: a packet whose payload was damaged on the way by one burst of at most
    16 bits is not delivered: the failure is counted and logged, and parsing
    goes on with the second byte of the damaged packet. *)
Theorem damaged_packet_rejected raw parsed log id cs sent arrived e o k :
  is_unbounded parsed → is_unbounded log → Forall (carries id) cs →
  1 <= zlen sent <= 256 → length sent = length arrived →
  le_value (xor_bytes sent arrived) = e * 2 ^ o → 0 < e < 65536 → 0 <= o →
  stream cs = framed arrived (crc16 (frame_body sent)) ++ k →
  let '(es, rest) := scan (drop 1 (stream cs)) in
  ∃ p' : Parser, feed cs (new_parser raw parsed log) = (Ok tt, p')
    ∧ m_queue (m_parsed_queue p') = m_queue parsed ++ received es
    ∧ crc_failure_count p' = u64 (1 + failures es)
    ∧ m_queue (m_log_queue p')
      = m_queue log ++ crc_mismatch_text :: logged (events_effects es)
    ∧ unread id p' = rest.
Proof.
  intros Hp Hl Hcs Hs Hlen He Hb Ho Hst.
  destruct (fresh_session raw parsed log id cs Hp Hl Hcs) as (p' & E & H1 & H2 & H3 & H4).
  pose proof (damaged_payload_crc sent arrived e o Hlen He Hb Ho) as Hcrc.
  assert (classify (stream cs) = BadCrc) as Hc.
  { rewrite Hst, classify_framed; [|unfold zlen in *; lia|apply crc16_bound].
    by rewrite (proj2 (Z.eqb_neq _ _)). }
  rewrite (scan_advance (stream cs)) in H1, H2, H3, H4 by (by rewrite Hc).
  rewrite Hc in *. cbn [emits advance fst snd] in *.
  destruct (scan (drop 1 (stream cs))) as [es rest]. cbn [fst snd] in *.
  exists p'. repeat split; [done|exact H1| |exact H3|done].
  rewrite H2. unfold failures. cbn [app List.filter]. by rewrite zlen_cons.
Qed.

(** Noise costs nothing: any number of bytes other than 0xAA before a
    packet are dropped one by one without a failure being counted, and the
    packet and those after it are delivered exactly. *)
Theorem noise_before_packets raw parsed log id cs noise t ts :
  is_unbounded parsed → is_unbounded log → Forall (carries id) cs →
  Byte.xaa ∉ noise → Forall sendable (t :: ts) →
  stream cs = noise ++ concat (map encode_packet (t :: ts)) →
  ∃ p' : Parser, feed cs (new_parser raw parsed log) = (Ok tt, p')
    ∧ m_queue (m_parsed_queue p') = m_queue parsed ++ t :: ts
    ∧ crc_failure_count p' = 0 ∧ unread id p' = [].
Proof.
  intros Hp Hl Hcs Hn Hts Hst.
  destruct (fresh_session raw parsed log id cs Hp Hl Hcs) as (p' & E & H1 & H2 & _ & H3).
  assert (scan (stream cs) = (map Received (t :: ts), [])) as Hscan.
  { rewrite Hst, scan_noise; [|done|].
    - rewrite <-(app_nil_r (concat _)), scan_packets by done. cbn [fst snd].
      change (scan []) with ([] : list event, [] : list byte). cbn [fst snd].
      by rewrite app_nil_r.
    - by rewrite map_cons, concat_cons. }
  rewrite Hscan in H1, H2, H3. cbn [fst snd] in *. rewrite received_map in H1.
  exists p'. repeat split; [done|done| |done]. rewrite H2, failures_received. reflexivity.
Qed.

End Damage.

(** ** Witnesses *)

#[local] Instance witness_host : Host := big.

Definition sample_payload : list byte := encode_payload sample.

Lemma payload_decodes_iff_witness :
  deserialize_payload (sample_payload ++ [Byte.x55]) 50 = Ok (Some sample)
  ↔ encodable sample ∧ ∃ extra, take 50 (sample_payload ++ [Byte.x55]) = sample_payload ++ extra.
Proof.
  apply (payload_decodes_iff (sample_payload ++ [Byte.x55]) 50 sample);
    [vm_compute; split; discriminate|vm_compute; discriminate].
Defined.

Lemma payload_decoding_safe_witness :
  ∃ o, deserialize_payload ([Byte.x00; Byte.xff] ++ [Byte.x55]) 2 = Ok o
       ∧ deserialize_payload ([Byte.x00; Byte.xff] ++ []) 2 = Ok o
       ∧ (o = None ↔ 2 < 42 ∨ 2 < 42 + field_at 0 2 [Byte.x00; Byte.xff]).
Proof.
  apply (payload_decoding_safe [Byte.x00; Byte.xff] [Byte.x55] []). vm_compute. discriminate.
Defined.

Lemma compute_crc16_is_modbus_witness :
  compute_crc16 sample_payload 9 = Ok (crc16_modbus (take 9 sample_payload)).
Proof. apply (compute_crc16_is_modbus sample_payload 9). vm_compute. split; discriminate. Defined.

(** A 16-bit burst across the byte boundary at bit 4. *)
Lemma crc_detects_bursts_witness :
  ∃ c d, compute_crc16 [Byte.x00; Byte.x00; Byte.x00] 3 = Ok c
         ∧ compute_crc16 [Byte.xf0; Byte.xff; Byte.x0f] 3 = Ok d ∧ c ≠ d.
Proof.
  apply (crc_detects_bursts [Byte.x00; Byte.x00; Byte.x00] [Byte.xf0; Byte.xff; Byte.x0f]
    0xFFFF 4); [reflexivity|reflexivity|by split|discriminate].
Defined.

(** A damaged one-byte payload. *)
Definition damaged : list DataChunk :=
  [mkDataChunk 5 (framed [Byte.x03] (crc16 (frame_body [Byte.x01])))].

Lemma damaged_packet_rejected_witness :
  let '(es, rest) := scan (drop 1 (stream damaged)) in
  ∃ p' : Parser, feed damaged (new_parser (new_queue 0) (new_queue 0) (new_queue 0)) = (Ok tt, p')
    ∧ m_queue (m_parsed_queue p') = [] ++ received es
    ∧ crc_failure_count p' = u64 (1 + failures es)
    ∧ m_queue (m_log_queue p')
      = [] ++ crc_mismatch_text :: logged (events_effects es)
    ∧ unread 5 p' = rest.
Proof.
  apply (damaged_packet_rejected (new_queue 0) (new_queue 0) (new_queue 0) 5 damaged
    [Byte.x01] [Byte.x03] 2 0 []);
    [reflexivity|reflexivity|repeat constructor; vm_compute; discriminate
    |vm_compute; split; discriminate|reflexivity|reflexivity|by split|discriminate
    |vm_compute; reflexivity].
Defined.

Lemma noise_before_packets_witness :
  ∃ p' : Parser, feed noisy (new_parser (new_queue 0) (new_queue 0) (new_queue 0)) = (Ok tt, p')
    ∧ m_queue (m_parsed_queue p') = [sample]
    ∧ crc_failure_count p' = 0 ∧ unread 5 p' = [].
Proof.
  apply (noise_before_packets (new_queue 0) (new_queue 0) (new_queue 0) 5 noisy [x00] sample []);
    [reflexivity|reflexivity|repeat constructor; vm_compute; discriminate
    |vm_compute; intros Hin; inversion Hin; subst; by inversion H1
    |constructor; [exact sample_sendable|constructor]|vm_compute; reflexivity].
Defined.
