(* ===== verification/RingBufferProperties.v ===== *)
(** * Properties of [RingBuffer]

    The circular buffer against its abstract specification, a bounded list of
    bytes, over arbitrary sequences of calls, and its behaviour at capacity
    zero, which the constructor accepts. *)

From S2P Require Import Prelude ByteBuffer RingBuffer.

Import RingBuffer.

(** ** Calls *)

Inductive request :=
| Push (data : list byte)
| Peek (dest : list byte)
| Consume (count : Z)
| Clear.

(** What a caller observes of one call: the bytes it wrote to the destination
    or the exception, and then [size()] and [free_space()]. *)
Definition reply : Type := outcome (list byte) * Z * Z.

(** A mutating member function: it leaves the object alone when it throws. *)
Definition update {S} (f : S → outcome S) : M S unit :=
  s ← gets id; s' ← lift (f s); modify (λ _, s').

Definition serve (r : request) : M RingBuffer (list byte) :=
  match r with
  | Push data => update (push data);; mret []
  | Peek dest => rb ← gets id; lift (peek dest rb)
  | Consume count => update (consume count);; mret []
  | Clear => modify clear;; mret []
  end.

Fixpoint session (rs : list request) (rb : RingBuffer) : list reply * RingBuffer :=
  match rs with
  | [] => ([], rb)
  | r :: rs =>
      let '(o, rb) := serve r rb in
      let '(os, rb') := session rs rb in
      ((o, size rb, free_space rb) :: os, rb')
  end.

(** ** Specification: a list of at most [cap] bytes *)

Definition serve_list (cap : Z) (r : request) : M (list byte) (list byte) := λ l,
  match r with
  | Push data =>
      if zlen l + zlen data <=? cap then (Ok [], l ++ data)
      else (Throw (Overflow_error (overflow_what (zlen data) (cap - zlen l))), l)
  | Peek dest =>
      if zlen dest <=? zlen l then (Ok (take (length dest) l), l)
      else (Throw (Out_of_range (peek_what (zlen dest) (zlen l))), l)
  | Consume count =>
      if count <=? zlen l then (Ok [], drop (Z.to_nat count) l)
      else (Throw (Out_of_range (consume_what count (zlen l))), l)
  | Clear => (Ok [], [])
  end.

Fixpoint session_list (cap : Z) (rs : list request) (l : list byte)
  : list reply * list byte :=
  match rs with
  | [] => ([], l)
  | r :: rs =>
      let '(o, l) := serve_list cap r l in
      let '(os, l') := session_list cap rs l in
      ((o, zlen l, cap - zlen l) :: os, l')
  end.

(** A [size_t] argument is not negative. *)
Definition valid (r : request) : Prop :=
  match r with Consume count => 0 <= count | _ => True end.

(** ** Refinement *)

(** The buffer [rb] represents the bytes [l]. *)
Record represents (cap : Z) (rb : RingBuffer) (l : list byte) : Prop := {
  rep_wf : wf rb;
  rep_contents : contents rb = l;
  rep_capacity : m_capacity rb = cap
}.

Lemma represents_observed cap rb l :
  represents cap rb l → size rb = zlen l ∧ free_space rb = cap - zlen l.
Proof.
  intros [Hwf <- <-]. rewrite length_contents, free_space_eq by done. done.
Qed.

Lemma serve_refines cap rb l r :
  represents cap rb l → valid r →
  ∃ rb', serve r rb = ((serve_list cap r l).1, rb')
         ∧ represents cap rb' (serve_list cap r l).2.
Proof.
  intros Hrep Hv. destruct (represents_observed _ _ _ Hrep) as [Hsize _].
  destruct Hrep as [Hwf Hl Hcap]. unfold size in Hsize.
  destruct r as [data|dest|count|]; unfold serve, serve_list, update; mrun.
  - destruct (Z.leb_spec (zlen l + zlen data) cap).
    + destruct (push_ok rb data Hwf ltac:(lia)) as (rb' & -> & ? & ? & ?).
      exists rb'. split; [done|]. split; simpl; congruence.
    + rewrite push_full by (done || lia). exists rb. split; [|done].
      by rewrite Hcap, Hsize.
  - exists rb. destruct (Z.leb_spec (zlen dest) (zlen l)).
    + rewrite peek_ok by (done || lia). by rewrite Hl.
    + unfold peek. ztrue. by rewrite Hsize.
  - destruct (Z.leb_spec count (zlen l)).
    + simpl in Hv. destruct (consume_ok rb count Hwf ltac:(lia)) as (rb' & -> & ? & ? & ?).
      exists rb'. split; [done|]. split; simpl; congruence.
    + unfold consume. ztrue. exists rb. by rewrite Hsize.
  - exists (clear rb). split; [done|]. by destruct (clear_ok rb Hwf) as (? & ? & _).
Qed.

(** C22: a ring buffer of any capacity a vector can have answers every sequence
    of calls, failing ones included, exactly like a bounded list of bytes:
    same bytes out, same exceptions with the same texts, same sizes. No call
    reads or writes outside the backing array. *)
Theorem ring_buffer_refines_list cap rs :
  0 < cap <= PTRDIFF_MAX → Forall valid rs →
  ∃ rb', session rs (new cap) = ((session_list cap rs []).1, rb')
         ∧ represents cap rb' (session_list cap rs []).2.
Proof.
  intros Hcap Hrs.
  assert (represents cap (new cap) []) as Hrep by (split; [by apply new_wf|done|done]).
  revert Hrep. generalize (new cap) as rb, ([] : list byte) as l.
  induction Hrs as [|r rs Hr Hrs IH]; intros rb l Hrep; [by exists rb|]. simpl.
  destruct (serve_refines cap rb l r Hrep Hr) as (rb1 & -> & Hrep1).
  destruct (serve_list cap r l) as [o l1]. cbn [fst snd] in *.
  destruct (IH rb1 l1 Hrep1) as (rb' & -> & Hrep').
  destruct (represents_observed _ _ _ Hrep1) as [-> ->].
  destruct (session_list cap rs l1) as [os l']. by exists rb'.
Qed.

(** At capacity zero, which the constructor accepts, the buffer refuses
    every byte as it should, but pushing nothing or consuming nothing divides
    by zero. *)
Theorem zero_capacity_divides_by_zero data :
  push data (new 0)
  = (if zlen data =? 0 then Undefined
     else Throw (Overflow_error (overflow_what (zlen data) 0)))
  ∧ consume 0 (new 0) = Undefined.
Proof.
  split; [|done]. destruct data as [|b data]; [done|].
  pose proof (zlen_nonneg data). unfold push. rewrite zlen_cons.
  change (free_space (new 0)) with 0. by do 2 ztrue.
Qed.

(** ** Witnesses *)

(** Wraps around a four-byte array, and runs into both errors. *)
Definition wrapping : list request :=
  [Push [Byte.x01; Byte.x02; Byte.x03]; Consume 2; Push [Byte.x04; Byte.x05; Byte.x06];
   Peek [x00; x00; x00; x00]; Push [Byte.x07]; Consume 5; Clear].

Lemma ring_buffer_refines_list_witness :
  ∃ rb', session wrapping (new 4) = ((session_list 4 wrapping []).1, rb')
         ∧ represents 4 rb' (session_list 4 wrapping []).2.
Proof.
  apply (ring_buffer_refines_list 4 wrapping); [by split|].
  repeat constructor; vm_compute; discriminate.
Defined.

Example wrapping_peek : (session wrapping (new 4)).1 !! 3%nat
  = Some (Ok [Byte.x03; Byte.x04; Byte.x05; Byte.x06], 4, 0).
Proof. reflexivity. Qed.
