(* ===== verification/QueueThreads.v ===== *)
(** * Threads sharing one [ThreadSafeQueue]

    The critical sections of [ThreadSafeQueue.v] run by any number of threads
    in any interleaving: calls, sleeping on [m_not_full] and [m_not_empty],
    [notify_one] (which wakes one arbitrary sleeper), spurious wake-ups and
    stop requests, as a step relation. A stop request wakes the thread it is
    for; that an implementation may wake the other sleepers of the condition
    variable as well is covered by the spurious wake-ups. The history of pushed
    and popped items is recorded to state the properties. *)

From S2P Require Import Prelude ThreadSafeQueue.

(** ** Configurations *)

(** Where a thread is: outside the queue; about to take the mutex and evaluate
    its wait predicate; or asleep on a condition variable. *)
Inductive pc (T : Type) :=
| Idle
| PushReady (item : T)
| PushAsleep (item : T)
| PopReady
| PopAsleep.
Arguments Idle {T}.
Arguments PushReady {T} item.
Arguments PushAsleep {T} item.
Arguments PopReady {T}.
Arguments PopAsleep {T}.

Inductive condvar := m_not_empty | m_not_full.

Definition waits_on {T} (cv : condvar) (p : pc T) : bool :=
  match cv, p with
  | m_not_empty, PopAsleep | m_not_full, PushAsleep _ => true
  | _, _ => false
  end.

Definition wakes {T} (cv : condvar) (p : pc T) : bool :=
  match cv, p with
  | m_not_empty, PopReady | m_not_full, PushReady _ => true
  | _, _ => false
  end.

Definition wake {T} (p : pc T) : pc T :=
  match p with
  | PushAsleep item => PushReady item
  | PopAsleep => PopReady
  | p => p
  end.

Record Monitor (T : Type) := mkMonitor {
  queue : ThreadSafeQueue T;
  threads : list (pc T);
  stops : gset nat;
  pushed : list T;
  popped : list T
}.
Arguments mkMonitor {T} _ _ _ _ _.
Arguments queue {T} _.
Arguments threads {T} _.
Arguments stops {T} _.
Arguments pushed {T} _.
Arguments popped {T} _.

Section Threads.
Context {T : Type}.
Implicit Types (m : Monitor T) (ts : list (pc T)) (t : nat).

(** [st.stop_requested()] on the token thread [t] passes. *)
Definition stopped m t : bool := bool_decide (t ∈ stops m).

Definition set_thread t (p : pc T) m : Monitor T :=
  mkMonitor (queue m) (<[t := p]> (threads m)) (stops m) (pushed m) (popped m).

Definition wake_thread t ts : list (pc T) :=
  match ts !! t with Some p => <[t := wake p]> ts | None => ts end.

(** [cv.notify_one()]. *)
Inductive notify_one (cv : condvar) : list (pc T) → list (pc T) → Prop :=
| notify_sleeper ts t p :
    ts !! t = Some p → waits_on cv p = true → notify_one cv ts (<[t := wake p]> ts)
| notify_nobody ts :
    Forall (λ p, waits_on cv p = false) ts → notify_one cv ts ts.

Inductive step : Monitor T → Monitor T → Prop :=
| call_push m t item :
    threads m !! t = Some Idle → step m (set_thread t (PushReady item) m)
| call_pop m t :
    threads m !! t = Some Idle → step m (set_thread t PopReady m)
| run_push m t item q ts :
    threads m !! t = Some (PushReady item) → stopped m t = false →
    push item false false (queue m) = Ok (true, q) →
    notify_one m_not_empty (<[t := Idle]> (threads m)) ts →
    step m (mkMonitor q ts (stops m) (pushed m ++ [item]) (popped m))
| run_push_stopped m t item q :
    (* the stop may arrive between the wait and the check after it *)
    threads m !! t = Some (PushReady item) →
    push item (stopped m t) true (queue m) = Ok (false, q) →
    step m (mkMonitor q (<[t := Idle]> (threads m)) ({[t]} ∪ stops m) (pushed m) (popped m))
| run_push_sleep m t item :
    threads m !! t = Some (PushReady item) →
    push item (stopped m t) false (queue m) = Blocked →
    step m (set_thread t (PushAsleep item) m)
| run_pop m t item q ts :
    threads m !! t = Some PopReady →
    pop (stopped m t) (queue m) = Ok (Some item, q) →
    notify_one m_not_full (<[t := Idle]> (threads m)) ts →
    step m (mkMonitor q ts (stops m) (pushed m) (popped m ++ [item]))
| run_pop_stopped m t q :
    threads m !! t = Some PopReady →
    pop (stopped m t) (queue m) = Ok (None, q) →
    step m (mkMonitor q (<[t := Idle]> (threads m)) (stops m) (pushed m) (popped m))
| run_pop_sleep m t :
    threads m !! t = Some PopReady →
    pop (stopped m t) (queue m) = Blocked →
    step m (set_thread t PopAsleep m)
| spurious_wakeup m t p :
    threads m !! t = Some p → step m (set_thread t (wake p) m)
| request_stop m t :
    step m (mkMonitor (queue m) (wake_thread t (threads m)) ({[t]} ∪ stops m)
              (pushed m) (popped m)).

(** [n] threads around an empty queue. *)
Definition init (max_size : Z) (n : nat) : Monitor T :=
  mkMonitor (new_queue max_size) (replicate n Idle) ∅ [] [].

Definition reachable (max_size : Z) (n : nat) m : Prop := rtc step (init max_size n) m.

(** The threads in a given place. *)
Definition count (P : pc T → bool) ts : Z := zlen (List.filter P ts).

(** * Lemmas *)

Lemma reachable_invariant (I : Monitor T → Prop) max_size n m :
  I (init max_size n) → (∀ m m', I m → step m m' → I m') →
  reachable max_size n m → I m.
Proof.
  intros Hinit Hstep. apply (rtc_ind_r I); [done|]. intros m1 m2 _ Hs Hm. by eapply Hstep.
Qed.

Lemma count_nonneg P ts : 0 <= count P ts.
Proof. apply zlen_nonneg. Qed.

Lemma count_cons P p ts : count P (p :: ts) = Z.b2z (P p) + count P ts.
Proof. unfold count. cbn [List.filter]. destruct (P p); [by rewrite zlen_cons|done]. Qed.

Lemma count_insert P ts t p p' :
  ts !! t = Some p →
  count P (<[t := p']> ts) = count P ts - Z.b2z (P p) + Z.b2z (P p').
Proof.
  revert t. induction ts as [|q ts IH]; intros [|t]; try done; simpl.
  - intros [= ->]. rewrite !count_cons. lia.
  - intros Hp. rewrite !count_cons, (IH t Hp). lia.
Qed.

Lemma count_idle P n : P Idle = false → count P (replicate n Idle) = 0.
Proof. intros HP. induction n as [|n IH]; [done|]. simpl. by rewrite count_cons, HP, IH. Qed.

Lemma count_none P ts : Forall (λ p, P p = false) ts → count P ts = 0.
Proof. induction 1 as [|p ts Hp _ IH]; [done|]. by rewrite count_cons, Hp, IH. Qed.

(** The wake-up debt: nobody sleeps on [cv], or [n] threads are on their way. *)
Definition covered (cv : condvar) (n : Z) ts : Prop :=
  count (waits_on cv) ts = 0 ∨ n <= count (wakes cv) ts.

Lemma covered_insert cv n n' ts t p p' :
  ts !! t = Some p → waits_on cv p' = false →
  n' - Z.b2z (wakes cv p') <= n - Z.b2z (wakes cv p) →
  covered cv n ts → covered cv n' (<[t := p']> ts).
Proof.
  intros Hp Hw Hn [Hc|Hc]; [left|right]; rewrite (count_insert _ _ _ _ _ Hp).
  - rewrite Hw. pose proof (count_nonneg (waits_on cv) (<[t := p']> ts)) as H0.
    rewrite (count_insert _ _ _ _ _ Hp), Hw in H0. destruct (waits_on cv p); simpl in *; lia.
  - lia.
Qed.

Lemma covered_wake cv n ts t p :
  ts !! t = Some p → covered cv n ts → covered cv n (<[t := wake p]> ts).
Proof.
  intros Hp. apply (covered_insert _ _ _ _ _ _ _ Hp); destruct cv, p; simpl; (done || lia).
Qed.

Lemma covered_wake_thread cv n ts t : covered cv n ts → covered cv n (wake_thread t ts).
Proof.
  unfold wake_thread. destruct (ts !! t) as [p|] eqn:Hp; [by apply covered_wake|done].
Qed.

(** A notification pays for one more. *)
Lemma covered_notify cv n ts ts' :
  covered cv n ts → notify_one cv ts ts' → covered cv (n + 1) ts'.
Proof.
  intros Hc Hn. revert Hc. destruct Hn as [ts1 t p Hp Hw|ts1 Hnone]; intros Hc.
  - apply (covered_insert _ n _ _ _ _ _ Hp); [by destruct cv, p| |done].
    destruct cv, p; try done; simpl; lia.
  - left. by apply count_none.
Qed.

Lemma covered_notified cv cv' n ts ts' :
  covered cv n ts → notify_one cv' ts ts' → covered cv n ts'.
Proof.
  intros Hc Hn. revert Hc. destruct Hn; intros Hc; [by apply covered_wake|done].
Qed.

(** The critical sections by cases. *)
Lemma push_cases (item : T) stop stop_after q :
  push item stop stop_after q
  = if (0 <? m_max_size q) && negb (zlen (m_queue q) <? m_max_size q)
    then (if stop then Ok (false, q) else Blocked)
    else if stop_after then Ok (false, q) else Ok (true, enqueue item q).
Proof.
  unfold push, wait. destruct (0 <? m_max_size q), (_ <? _), stop, stop_after; done.
Qed.

Lemma push_true (item : T) stop stop_after q q' :
  push item stop stop_after q = Ok (true, q') →
  q' = enqueue item q ∧ (0 < m_max_size q → zlen (m_queue q) < m_max_size q).
Proof. rewrite push_cases. zcases; destruct stop, stop_after; simpl; try discriminate;
    intros [= <-]; (split; [done|lia]). Qed.

Lemma pop_some stop (q q' : ThreadSafeQueue T) item :
  pop stop q = Ok (Some item, q') →
  m_queue q = item :: m_queue q' ∧ m_max_size q' = m_max_size q.
Proof.
  rewrite pop_cases. destruct q as [[|x l] n]; simpl; [by destruct stop|].
  by intros [= -> <-].
Qed.

Lemma push_false (item : T) stop stop_after q q' :
  push item stop stop_after q = Ok (false, q') →
  q' = q ∧ (stop = true ∨ stop_after = true).
Proof.
  rewrite push_cases. destruct (_ && _), stop, stop_after; try discriminate;
    intros [= <-]; auto.
Qed.

Lemma pop_none stop (q q' : ThreadSafeQueue T) :
  pop stop q = Ok (None, q') → q' = q ∧ m_queue q = [] ∧ stop = true.
Proof. rewrite pop_cases. destruct (m_queue q), stop; try discriminate. by intros [= <-]. Qed.

Lemma pop_blocked stop (q : ThreadSafeQueue T) :
  pop stop q = Blocked → m_queue q = [] ∧ stop = false.
Proof. rewrite pop_cases. by destruct (m_queue q), stop. Qed.

Lemma push_blocked (item : T) stop stop_after q :
  push item stop stop_after q = Blocked →
  0 < m_max_size q <= zlen (m_queue q) ∧ stop = false.
Proof.
  rewrite push_cases. zcases; destruct stop, stop_after; simpl; try discriminate; by split.
Qed.

(** ** Invariants *)

(** Items come out in the order they went in, and a bounded queue stays
    within its bound. *)
Record fifo max_size m : Prop := {
  fifo_order : pushed m = popped m ++ m_queue (queue m);
  fifo_max : m_max_size (queue m) = max_size;
  fifo_bound : 0 < max_size → zlen (m_queue (queue m)) <= max_size
}.

Lemma step_fifo max_size m m' : fifo max_size m → step m m' → fifo max_size m'.
Proof.
  intros [Ho Hm Hb] Hs. destruct Hs as [| |m t item q ts _ _ Hq _|m t item q _ Hq| |
    m t item q ts _ Hq _|m t q _ Hq| | |]; try (by split).
  - apply push_true in Hq as [-> Hq]. split; cbn [pushed popped queue enqueue m_queue m_max_size].
    + by rewrite Ho, app_assoc.
    + done.
    + intros ?. rewrite zlen_app, zlen_cons, zlen_nil. lia.
  - apply push_false in Hq as [-> _]. by split.
  - apply pop_some in Hq as [Hl Hn]. split; cbn [pushed popped queue].
    + by rewrite Ho, Hl, <-app_assoc.
    + congruence.
    + intros ?. specialize (Hb ltac:(done)). rewrite Hl, zlen_cons in Hb. lia.
  - apply pop_none in Hq as [-> _]. by split.
Qed.

Lemma init_fifo max_size n : 0 <= max_size → fifo max_size (init max_size n).
Proof. by split. Qed.

(** The thread of [Ht] moves on; the debt [Hc] is kept. *)
Ltac covered_move Ht Hc :=
  eapply (covered_insert _ _ _ _ _ _ _ Ht); [| |exact Hc]; simpl; first [done|lia].

(** Every item that sleeping consumers could take has an awake consumer. *)
Definition items_covered m : Prop :=
  covered m_not_empty (zlen (m_queue (queue m))) (threads m).

Lemma step_items_covered m m' : items_covered m → step m m' → items_covered m'.
Proof.
  unfold items_covered. intros Hc Hs. revert Hc.
  destruct Hs as [m t item Ht|m t Ht|m t item q ts Ht _ Hq Hn|m t item q Ht Hq|m t item Ht _|
    m t item q ts Ht Hq Hn|m t q Ht Hq|m t Ht Hq|m t p Ht|m t];
    cbn [queue threads set_thread]; intros Hc.
  - covered_move Ht Hc.
  - covered_move Ht Hc.
  - apply push_true in Hq as [-> _]. cbn [enqueue m_queue].
    rewrite zlen_app, zlen_cons, zlen_nil. eapply covered_notify, Hn. covered_move Ht Hc.
  - apply push_false in Hq as [-> _]. covered_move Ht Hc.
  - covered_move Ht Hc.
  - apply pop_some in Hq as [Hl _]. rewrite Hl, zlen_cons in Hc.
    eapply covered_notified, Hn. covered_move Ht Hc.
  - apply pop_none in Hq as (-> & -> & _). right. apply count_nonneg.
  - apply pop_blocked in Hq as [-> _]. right. apply count_nonneg.
  - by apply covered_wake.
  - by apply covered_wake_thread.
Qed.

(** Without stop requests, every free slot that sleeping producers could fill
    has an awake producer. *)
Definition slots_covered m : Prop :=
  stops m = ∅ →
  covered m_not_full (m_max_size (queue m) - zlen (m_queue (queue m))) (threads m).

Lemma step_slots_covered m m' : slots_covered m → step m m' → slots_covered m'.
Proof.
  unfold slots_covered. intros Hc Hs. revert Hc.
  destruct Hs as [m t item Ht|m t Ht|m t item q ts Ht _ Hq Hn|m t item q Ht Hq|m t item Ht Hq|
    m t item q ts Ht Hq Hn|m t q Ht Hq|m t Ht Hq|m t p Ht|m t];
    cbn [queue threads stops set_thread]; intros Hc Hst;
    try (specialize (Hc Hst)); try (exfalso; set_solver).
  - covered_move Ht Hc.
  - covered_move Ht Hc.
  - apply push_true in Hq as [-> _]. cbn [enqueue m_queue m_max_size].
    rewrite zlen_app, zlen_cons, zlen_nil. eapply covered_notified, Hn. covered_move Ht Hc.
  - apply push_blocked in Hq as [Hq _]. right.
    pose proof (count_nonneg (wakes m_not_full) (<[t := PushAsleep item]> (threads m))). lia.
  - apply pop_some in Hq as [Hl Hm]. rewrite Hl, Hm, zlen_cons in *.
    replace (m_max_size (queue m) - zlen (m_queue q))
      with (m_max_size (queue m) - (1 + zlen (m_queue q)) + 1) by lia.
    eapply covered_notify, Hn. covered_move Ht Hc.
  - apply pop_none in Hq as (-> & _). covered_move Ht Hc.
  - apply pop_blocked in Hq as _. covered_move Ht Hc.
  - by apply covered_wake.
Qed.

(** A stop request wakes its thread, and the thread never sleeps again. *)
Definition asleep (p : pc T) : bool := waits_on m_not_empty p || waits_on m_not_full p.

Definition stopped_awake m : Prop :=
  ∀ t p, t ∈ stops m → threads m !! t = Some p → asleep p = false.

Lemma asleep_wake p : asleep (wake p) = false.
Proof. by destruct p. Qed.

(** What a thread's place can become by the others' notifications. *)
Lemma notify_lookup cv ts ts' t p :
  notify_one cv ts ts' → ts' !! t = Some p →
  ∃ p0, ts !! t = Some p0 ∧ (p = p0 ∨ (waits_on cv p0 = true ∧ p = wake p0)).
Proof.
  intros Hn. revert t p. destruct Hn as [ts t' p' Hp Hw|ts _]; intros t p Ht; [|by eauto].
  destruct (decide (t' = t)) as [->|Hne].
  - rewrite list_lookup_insert_eq in Ht by (by eapply lookup_lt_Some).
    injection Ht as <-. eauto.
  - rewrite list_lookup_insert_ne in Ht by done. eauto.
Qed.

Lemma notify_asleep cv ts ts' t p :
  notify_one cv ts ts' → ts' !! t = Some p → asleep p = true →
  ts !! t = Some p.
Proof.
  intros Hn Ht Ha. destruct (notify_lookup _ _ _ _ _ Hn Ht) as (p0 & Hp0 & [->|[_ ->]]); [done|].
  by rewrite asleep_wake in Ha.
Qed.

Lemma insert_asleep ts t t' p p' :
  <[t' := p']> ts !! t = Some p → asleep p = true → asleep p' = false → ts !! t = Some p.
Proof.
  intros Ht Ha Hp'. destruct (decide (t' = t)) as [->|Hne].
  - apply list_lookup_insert_Some in Ht as [(_ & <- & _)|[? _]]; [|done]. congruence.
  - by rewrite list_lookup_insert_ne in Ht.
Qed.

Lemma wake_thread_asleep ts t t' p :
  wake_thread t' ts !! t = Some p → asleep p = true → t ≠ t' ∧ ts !! t = Some p.
Proof.
  unfold wake_thread. destruct (ts !! t') as [q|] eqn:Hq; intros Ht Ha.
  - split; [|by eapply insert_asleep, asleep_wake].
    intros ->. rewrite list_lookup_insert_eq in Ht by (by eapply lookup_lt_Some).
    injection Ht as <-. by rewrite asleep_wake in Ha.
  - split; [|done]. intros ->. congruence.
Qed.

Lemma step_stopped_awake m m' : stopped_awake m → step m m' → stopped_awake m'.
Proof.
  unfold stopped_awake. intros Hm Hs u pu Hu Hpu. apply not_true_iff_false. intros Ha.
  enough (u ∈ stops m ∧ threads m !! u = Some pu) as [H1 H2]
    by (specialize (Hm _ _ H1 H2); congruence).
  destruct Hs as [m t item Ht|m t Ht|m t item q ts Ht _ Hq Hn|m t item q Ht Hq|m t item Ht Hq|
    m t item q ts Ht Hq Hn|m t q Ht Hq|m t Ht Hq|m t p Ht|m t];
    cbn [queue threads stops set_thread] in *.
  - split; [done|]. by eapply insert_asleep.
  - split; [done|]. by eapply insert_asleep.
  - split; [done|]. eapply insert_asleep; [by eapply notify_asleep|done|done].
  - apply insert_asleep in Hpu as Hpu'; [|done|done]. split; [|done].
    apply elem_of_union in Hu as [->%elem_of_singleton|Hu]; [|done].
    rewrite Ht in Hpu'. by simplify_eq.
  - split; [done|]. destruct (decide (u = t)) as [->|].
    + apply push_blocked in Hq as [_ Hq]. unfold stopped in Hq.
      by apply bool_decide_eq_false in Hq.
    + by rewrite list_lookup_insert_ne in Hpu.
  - split; [done|]. eapply insert_asleep; [by eapply notify_asleep|done|done].
  - split; [done|]. by eapply insert_asleep.
  - split; [done|]. destruct (decide (u = t)) as [->|].
    + apply pop_blocked in Hq as [_ Hq]. unfold stopped in Hq.
      by apply bool_decide_eq_false in Hq.
    + by rewrite list_lookup_insert_ne in Hpu.
  - split; [done|]. eapply insert_asleep; [done|done|apply asleep_wake].
  - apply wake_thread_asleep in Hpu as [Hne Hpu]; [|done].
    by apply elem_of_union in Hu as [Hu%elem_of_singleton|Hu].
Qed.

(** Somebody or nobody is there to be notified. *)
Lemma notify_total cv ts : ∃ ts', notify_one cv ts ts'.
Proof.
  destruct (decide (Forall (λ p, waits_on cv p = false) ts)) as [Hn|Hn].
  { exists ts. by apply notify_nobody. }
  apply not_Forall_Exists in Hn; [|apply _].
  apply Exists_exists in Hn as (p & Hin & Hp).
  apply list_elem_of_lookup in Hin as [t Ht]. eexists. apply (notify_sleeper cv ts t p Ht).
  by apply not_false_iff_true in Hp.
Qed.

Lemma notify_idle cv ts ts' t :
  notify_one cv ts ts' → ts !! t = Some Idle → ts' !! t = Some Idle.
Proof.
  intros Hn. revert t. destruct Hn as [ts t' p' Hp Hw|ts _]; intros t Ht; [|done].
  rewrite list_lookup_insert_ne; [done|]. intros ->. rewrite Hp in Ht. simplify_eq.
  by destruct cv.
Qed.

Lemma init_threads max_size n t p : threads (init max_size n) !! t = Some p → p = Idle.
Proof. simpl. by intros [-> _]%lookup_replicate. Qed.

(** In unbounded mode no producer ever sleeps. *)
Record never_full m : Prop := {
  never_full_max : m_max_size (queue m) = 0;
  never_full_awake : Forall (λ p, waits_on m_not_full p = false) (threads m)
}.

Lemma waits_on_wake cv (p : pc T) : waits_on cv (wake p) = false.
Proof. by destruct cv, p. Qed.

Lemma notify_never_waits cv cv' ts ts' :
  Forall (λ p, waits_on cv p = false) ts → notify_one cv' ts ts' →
  Forall (λ p, waits_on cv p = false) ts'.
Proof.
  intros HF Hn. revert HF. destruct Hn; intros HF; [|done].
  apply Forall_insert; [done|apply waits_on_wake].
Qed.

Lemma step_never_full m m' : never_full m → step m m' → never_full m'.
Proof.
  intros [Hm HF] Hs. destruct Hs as [m t item Ht|m t Ht|m t item q ts Ht _ Hq Hn|
    m t item q Ht Hq|m t item Ht Hq|m t item q ts Ht Hq Hn|m t q Ht Hq|m t Ht Hq|m t p Ht|m t];
    (split; cbn [queue threads set_thread]); try done; try (by apply Forall_insert).
  - by apply push_true in Hq as [-> _].
  - apply push_true in Hq as [-> _]. eapply notify_never_waits, Hn. by apply Forall_insert.
  - by apply push_false in Hq as [-> _].
  - apply push_blocked in Hq. lia.
  - apply pop_some in Hq as [_ ->]. done.
  - apply pop_some in Hq as [_ _]. eapply notify_never_waits, Hn. by apply Forall_insert.
  - by apply pop_none in Hq as [-> _].
  - apply Forall_insert; [done|apply waits_on_wake].
  - unfold wake_thread. destruct (threads m !! t); [|done].
    apply Forall_insert; [done|apply waits_on_wake].
Qed.

Lemma init_never_full n : never_full (init 0 n).
Proof. split; [done|]. by apply Forall_replicate. Qed.

End Threads.
