(* ===== verification/QueueLocked.v ===== *)
(** * [ThreadSafeQueue] statement by statement

    The member functions of include/threadSafeQueue.h one statement at a time,
    with the mutex as the thread that owns it: any number of threads call
    [push], [pop] and [size], wait for the mutex, evaluate the wait's stop token
    and predicate, release the mutex and sleep, are woken and take the mutex
    again. Here nothing is atomic but a statement; that the mutex makes the
    critical sections of [QueueThreads.v] atomic is a theorem. *)

From S2P Require Import Prelude ThreadSafeQueue QueueThreads.

Module Locked.

(** ** Threads *)

(** What a call returns, with what [push] was called for. *)
Inductive result (T : Type) :=
| Pushed (item : T) (done : bool)
| Popped (item : option T)
| Size (n : Z).
Arguments Pushed {T} item done.
Arguments Popped {T} item.
Arguments Size {T} n.

(** The statement a thread is at. [wait(lock, st, pred)] is
    [while (!st.stop_requested()) { if (pred()) return true; wait(lock); }
    return pred();]. *)
Inductive place (T : Type) :=
| Outside
(* push *)
| PushLock (item : T) (* std::unique_lock lock(m_mutex) *)
| PushEnter (item : T) (* if (m_max_size > 0) *)
| PushLoop (item : T) (* while (!st.stop_requested()) *)
| PushTest (item : T) (* if (pred()) return true; *)
| PushWait (item : T) (* wait(lock): release and sleep *)
| PushSleeping (item : T)
| PushWoken (item : T) (* wait(lock): take the mutex again *)
| PushLast (item : T) (* return pred(); *)
| PushToken (item : T) (* if (st.stop_requested()) return false; *)
| PushInsert (item : T) (* m_queue.push(std::move(item)); *)
| PushNotify (item : T) (* m_not_empty.notify_one(); *)
(* pop *)
| PopLock
| PopLoop
| PopTest
| PopWait
| PopSleeping
| PopWoken
| PopLast
| PopFront (* T item = std::move(m_queue.front()); *)
| PopRemove (item : T) (* m_queue.pop(); *)
| PopNotify (item : T) (* m_not_full.notify_one(); *)
(* size *)
| SizeLock
| SizeRead
(* return, with the destructor of the lock *)
| Return (r : result T).
Arguments Outside {T}.
Arguments PushLock {T} item.
Arguments PushEnter {T} item.
Arguments PushLoop {T} item.
Arguments PushTest {T} item.
Arguments PushWait {T} item.
Arguments PushSleeping {T} item.
Arguments PushWoken {T} item.
Arguments PushLast {T} item.
Arguments PushToken {T} item.
Arguments PushInsert {T} item.
Arguments PushNotify {T} item.
Arguments PopLock {T}.
Arguments PopLoop {T}.
Arguments PopTest {T}.
Arguments PopWait {T}.
Arguments PopSleeping {T}.
Arguments PopWoken {T}.
Arguments PopLast {T}.
Arguments PopFront {T}.
Arguments PopRemove {T} item.
Arguments PopNotify {T} item.
Arguments SizeLock {T}.
Arguments SizeRead {T}.
Arguments Return {T} r.

(** The object and its threads; and, to state what they do, the calls in the
    order in which their results were decided, and in which they returned. *)
Record Shared (T : Type) := mkShared {
  queue : ThreadSafeQueue T;
  m_mutex : option nat;
  threads : list (place T);
  stops : gset nat;
  decided : list (nat * result T);
  returned : list (nat * result T)
}.
Arguments mkShared {T} _ _ _ _ _ _.
Arguments queue {T} _.
Arguments m_mutex {T} _.
Arguments threads {T} _.
Arguments stops {T} _.
Arguments decided {T} _.
Arguments returned {T} _.

Section Statements.
Context {T : Type}.
Implicit Types (q : ThreadSafeQueue T) (p : place T) (s : Shared T) (t : nat).

(** ** Statements *)

Definition has_room q : bool := zlen (m_queue q) <? m_max_size q.
Definition nonempty q : bool := match m_queue q with [] => false | _ => true end.

(** Where a thread goes that gets the mutex. *)
Definition after_lock p : option (place T) :=
  match p with
  | PushLock item => Some (PushEnter item)
  | PushWoken item => Some (PushLoop item)
  | PopLock | PopWoken => Some PopLoop
  | SizeLock => Some SizeRead
  | _ => None
  end.

(** The statements that only read and write the members, under the mutex;
    [front()] and [pop()] of an empty queue have no defined behaviour. *)
Definition statement (stop : bool) q p : outcome (ThreadSafeQueue T * place T) :=
  match p with
  | PushEnter item => Ok (q, if 0 <? m_max_size q then PushLoop item else PushToken item)
  | PushLoop item => Ok (q, if stop then PushLast item else PushTest item)
  | PushTest item => Ok (q, if has_room q then PushToken item else PushWait item)
  | PushLast item => Ok (q, if has_room q then PushToken item else Return (Pushed item false))
  | PushToken item => Ok (q, if stop then Return (Pushed item false) else PushInsert item)
  | PushInsert item => Ok (enqueue item q, PushNotify item)
  | PopLoop => Ok (q, if stop then PopLast else PopTest)
  | PopTest => Ok (q, if nonempty q then PopFront else PopWait)
  | PopLast => Ok (q, if nonempty q then PopFront else Return (Popped None))
  | PopFront => match m_queue q with item :: _ => Ok (q, PopRemove item) | [] => Undefined end
  | PopRemove item =>
      match m_queue q with
      | _ :: rest => Ok (mkQueue rest (m_max_size q), PopNotify item)
      | [] => Undefined
      end
  | SizeRead => Ok (q, Return (Size (queue_size q)))
  | _ => Blocked (* not such a statement *)
  end.

(** [wait(lock)] has released the mutex; and a sleeper that is woken. *)
Definition fall_asleep p : option (place T * place T) :=
  match p with
  | PushWait item => Some (PushSleeping item, PushLoop item)
  | PopWait => Some (PopSleeping, PopLoop)
  | _ => None
  end.

Definition awaken p : place T :=
  match p with
  | PushSleeping item => PushWoken item
  | PopSleeping => PopWoken
  | p => p
  end.

Definition sleeps_on (cv : condvar) p : bool :=
  match cv, p with
  | m_not_empty, PopSleeping | m_not_full, PushSleeping _ => true
  | _, _ => false
  end.

Inductive notify_one (cv : condvar) : list (place T) → list (place T) → Prop :=
| notify_sleeper ts t p :
    ts !! t = Some p → sleeps_on cv p = true → notify_one cv ts (<[t := awaken p]> ts)
| notify_nobody ts :
    Forall (λ p, sleeps_on cv p = false) ts → notify_one cv ts ts.

(** What is notified, and what the call then returns. *)
Definition notification p : option (condvar * result T) :=
  match p with
  | PushNotify item => Some (m_not_empty, Pushed item true)
  | PopNotify item => Some (m_not_full, Popped (Some item))
  | _ => None
  end.

(** The call whose result the statement decides: where the queue changes, or
    else where the result is known. *)
Definition decides p p' : list (result T) :=
  match p, p' with
  | PushInsert item, _ => [Pushed item true]
  | PopRemove item, _ => [Popped (Some item)]
  | _, Return r => [r]
  | _, _ => []
  end.

(** ** Steps *)

Definition stopped s t : bool := bool_decide (t ∈ stops s).

Definition with_threads ts s : Shared T :=
  mkShared (queue s) (m_mutex s) ts (stops s) (decided s) (returned s).

Definition with_mutex owner t p s : Shared T :=
  mkShared (queue s) owner (<[t := p]> (threads s)) (stops s) (decided s) (returned s).

Definition awaken_thread t ts : list (place T) :=
  match ts !! t with Some p => <[t := awaken p]> ts | None => ts end.

Inductive call : place T → Prop :=
| call_push item : call (PushLock item)
| call_pop : call PopLock
| call_size : call SizeLock.

Inductive step : Shared T → Shared T → Prop :=
| calls s t p :
    threads s !! t = Some Outside → call p → step s (with_threads (<[t := p]> (threads s)) s)
| locks s t p p' :
    m_mutex s = None → threads s !! t = Some p → after_lock p = Some p' →
    step s (with_mutex (Some t) t p' s)
| executes s t p q' p' :
    m_mutex s = Some t → threads s !! t = Some p →
    statement (stopped s t) (queue s) p = Ok (q', p') →
    step s (mkShared q' (m_mutex s) (<[t := p']> (threads s)) (stops s)
              (decided s ++ map (pair t) (decides p p')) (returned s))
| sleeps s t p asleep again :
    m_mutex s = Some t → threads s !! t = Some p → fall_asleep p = Some (asleep, again) →
    stopped s t = false → step s (with_mutex None t asleep s)
| does_not_sleep s t p asleep again :
    (* the stop request came in time to be noticed by [wait(lock)] *)
    m_mutex s = Some t → threads s !! t = Some p → fall_asleep p = Some (asleep, again) →
    stopped s t = true → step s (with_mutex (Some t) t again s)
| notifies s t p cv r ts :
    m_mutex s = Some t → threads s !! t = Some p → notification p = Some (cv, r) →
    notify_one cv (<[t := Return r]> (threads s)) ts → step s (with_threads ts s)
| returns s t r :
    m_mutex s = Some t → threads s !! t = Some (Return r) →
    step s (mkShared (queue s) None (<[t := Outside]> (threads s)) (stops s)
              (decided s) (returned s ++ [(t, r)]))
| wakes_spuriously s t p :
    threads s !! t = Some p → step s (with_threads (<[t := awaken p]> (threads s)) s)
| stop_requested s t :
    step s (mkShared (queue s) (m_mutex s) (awaken_thread t (threads s)) ({[t]} ∪ stops s)
              (decided s) (returned s)).

Definition init (max_size : Z) (n : nat) : Shared T :=
  mkShared (new_queue max_size) None (replicate n Outside) ∅ [] [].

Definition reachable (max_size : Z) (n : nat) s : Prop := rtc step (init max_size n) s.

End Statements.
End Locked.
