(* ===== verification/QueueLinear.v ===== *)
(** * The mutex makes the critical sections atomic

    For the statement-level model of [QueueLocked.v]: the invariant of the mutex
    and of what its holder knows, that the calls take effect one at a time, and
    how long a critical section can last. *)

From S2P Require Import Prelude ThreadSafeQueue QueueThreads QueueLocked.

Import Locked.

Section Linear.
Context {T : Type}.
Implicit Types (q : ThreadSafeQueue T) (p : place T) (s : Shared T) (t : nat) (r : result T).

(** ** Atomic calls *)

(** The effect of a whole call with result [r], by the functions that the
    program's model uses. *)
Inductive performs : result T → ThreadSafeQueue T → ThreadSafeQueue T → Prop :=
| performs_push item q q' :
    push item false false q = Ok (true, q') → performs (Pushed item true) q q'
| performs_push_stopped item q q' :
    push item true true q = Ok (false, q') → performs (Pushed item false) q q'
| performs_pop item q q' :
    pop false q = Ok (Some item, q') → performs (Popped (Some item)) q q'
| performs_pop_stopped q q' :
    pop true q = Ok (None, q') → performs (Popped None) q q'
| performs_size q : performs (Size (queue_size q)) q q.

Inductive legal : ThreadSafeQueue T → list (result T) → ThreadSafeQueue T → Prop :=
| legal_nil q : legal q [] q
| legal_snoc q rs q1 r q2 : legal q rs q1 → performs r q1 q2 → legal q (rs ++ [r]) q2.

(** The results of one thread's calls. *)
Definition by_thread t (rs : list (nat * result T)) : list (result T) :=
  map snd (List.filter (λ x, bool_decide (x.1 = t)) rs).

Lemma by_thread_app t rs rs' : by_thread t (rs ++ rs') = by_thread t rs ++ by_thread t rs'.
Proof. unfold by_thread. by rewrite List.filter_app, map_app. Qed.

Lemma by_thread_pair t u rs :
  by_thread t (map (pair u) rs) = if decide (u = t) then rs else [].
Proof.
  unfold by_thread. case_decide as Hu; induction rs as [|r rs IH]; try done;
    cbn [map List.filter fst].
  - rewrite bool_decide_eq_true_2 by done. cbn [map snd]. by f_equal.
  - by rewrite bool_decide_eq_false_2.
Qed.

(** ** Who holds the mutex, and what it knows *)

Definition holds p : bool :=
  match p with
  | Outside | PushLock _ | PushSleeping _ | PushWoken _ | PopLock | PopSleeping | PopWoken
  | SizeLock => false
  | _ => true
  end.

(** Inside the wait of a bounded [push]. *)
Definition waits_for_room p : bool :=
  match p with
  | PushLoop _ | PushTest _ | PushWait _ | PushSleeping _ | PushWoken _ | PushLast _ => true
  | _ => false
  end.

Definition knows (stop : bool) q p : Prop :=
  match p with
  | PushWait _ => has_room q = false
  | PushLast _ | PopLast => stop = true
  | PushToken _ | PushInsert _ => 0 < m_max_size q → has_room q = true
  | PopWait => m_queue q = []
  | PopFront => m_queue q ≠ []
  | PopRemove item => ∃ rest, m_queue q = item :: rest
  | _ => True
  end.

(** A result that has been decided and not yet been returned. *)
Definition owed p : list (result T) :=
  match p with
  | PushNotify item => [Pushed item true]
  | PopNotify item => [Popped (Some item)]
  | Return r => [r]
  | _ => []
  end.

Record coherent (max_size : Z) s : Prop := {
  co_owner t : m_mutex s = Some t → (t < length (threads s))%nat;
  co_mutex t p : threads s !! t = Some p → holds p = bool_decide (m_mutex s = Some t);
  co_bounded t p : threads s !! t = Some p → waits_for_room p = true → 0 < m_max_size (queue s);
  co_knows t p : m_mutex s = Some t → threads s !! t = Some p → knows (stopped s t) (queue s) p;
  co_legal : legal (new_queue max_size) (map snd (decided s)) (queue s);
  co_calls t p : threads s !! t = Some p →
    by_thread t (decided s) = by_thread t (returned s) ++ owed p
}.

(** ** One statement *)

Lemma has_room_push q item :
  (0 < m_max_size q → has_room q = true) → push item false false q = Ok (true, enqueue item q).
Proof.
  intros Hr. rewrite push_cases. unfold has_room in Hr. destruct (Z.ltb_spec 0 (m_max_size q)); [|done].
  by rewrite Hr.
Qed.

Lemma no_room_push q item stop :
  0 < m_max_size q → has_room q = false →
  push item stop false q = if stop then Ok (false, q) else Blocked.
Proof.
  intros Hm Hr. rewrite push_cases. unfold has_room in Hr. rewrite Hr.
  by rewrite (proj2 (Z.ltb_lt 0 _) Hm).
Qed.

Lemma push_stopped q item : push item true true q = Ok (false, q).
Proof. rewrite push_cases. by destruct (_ && _). Qed.

(** What a statement of the mutex's holder does. *)
Record stated (stop : bool) q p q' p' : Prop := {
  stated_holds : holds p' = true;
  stated_knows : knows stop q' p';
  stated_bounded : (waits_for_room p = true → 0 < m_max_size q) →
    waits_for_room p' = true → 0 < m_max_size q';
  stated_max : m_max_size q' = m_max_size q;
  stated_performs :
    match decides p p' with [] => q' = q | [r] => performs r q q' | _ => False end;
  stated_owed : owed p' = owed p ++ decides p p'
}.

Lemma statement_ok stop q p q' p' :
  knows stop q p → statement stop q p = Ok (q', p') → stated stop q p q' p'.
Proof.
  intros Hk E. destruct p; cbn [statement knows] in *; try discriminate.
  - injection E as <- <-. destruct (Z.ltb_spec 0 (m_max_size q)); by split; cbn; try lia.
  - injection E as <- <-. by destruct stop; split; cbn; auto.
  - injection E as <- <-. destruct (has_room q) eqn:Er; by split; cbn; auto.
  - injection E as <- <-. subst stop. destruct (has_room q) eqn:Er; split; cbn; auto; try done.
    constructor. apply push_stopped.
  - injection E as <- <-. destruct stop; split; cbn; auto; try done.
    constructor. apply push_stopped.
  - injection E as <- <-. split; cbn; auto; try done. constructor. by apply has_room_push.
  - injection E as <- <-. by destruct stop; split; cbn; auto.
  - injection E as <- <-. unfold nonempty. destruct (m_queue q) eqn:Eq; by split; cbn; rewrite ?Eq; auto.
  - injection E as <- <-. subst stop. unfold nonempty.
    destruct (m_queue q) eqn:Eq; split; cbn; rewrite ?Eq; auto; try done.
    constructor. by rewrite pop_cases, Eq.
  - destruct (m_queue q) as [|item rest] eqn:Eq; [done|]. injection E as <- <-.
    split; cbn; auto; try done. by exists rest.
  - destruct Hk as [rest Eq]. rewrite Eq in E. injection E as <- <-.
    split; cbn; auto; try done. constructor. by rewrite pop_cases, Eq.
  - injection E as <- <-. split; cbn; auto; try done. constructor.
Qed.

(** It is never undefined. *)
Lemma statement_defined stop q p : knows stop q p → statement stop q p ≠ Undefined.
Proof.
  destruct p; cbn [statement knows]; try done.
  - by destruct (m_queue q).
  - by intros [rest ->].
Qed.

(** ** The invariant *)

Lemma coherent_init max_size n : coherent max_size (init max_size n).
Proof.
  assert (∀ t p, threads (init max_size n) !! t = Some p → p = Outside) as Ho.
  { intros t p Ht. by apply lookup_replicate in Ht as [-> _]. }
  split; try done; try (intros t p ->%Ho; done). constructor.
Qed.

(** One thread moves to [p'], which decides [rs] and returns [ret]. *)
Record move s t p q' owner p' (rs ret : list (result T)) : Prop := {
  move_from : threads s !! t = Some p;
  move_holds : holds p' = bool_decide (owner = Some t);
  move_others u : u ≠ t → owner = Some u → m_mutex s = Some u ∧ q' = queue s;
  move_free u : u ≠ t → m_mutex s = Some u → owner = Some u;
  move_max : m_max_size q' = m_max_size (queue s);
  move_bounded : waits_for_room p' = true → 0 < m_max_size q';
  move_knows : owner = Some t → knows (stopped s t) q' p';
  move_performs : match rs with [] => q' = queue s | [r] => performs r (queue s) q' | _ => False end;
  move_owed : ret ++ owed p' = owed p ++ rs
}.

Lemma legal_more q rs q1 rs' q2 :
  legal q rs q1 → match rs' with [] => q2 = q1 | [r] => performs r q1 q2 | _ => False end →
  legal q (rs ++ rs') q2.
Proof.
  intros Hl. destruct rs' as [|r [|]]; [intros ->; by rewrite app_nil_r| |done].
  by apply legal_snoc.
Qed.

Lemma map_snd_pair_list t (rs : list (result T)) : map snd (map (pair t) rs) = rs.
Proof. by rewrite map_map, map_id. Qed.

Lemma coherent_move max_size s t p q' owner p' rs ret :
  coherent max_size s → move s t p q' owner p' rs ret →
  coherent max_size (mkShared q' owner (<[t := p']> (threads s)) (stops s)
    (decided s ++ map (pair t) rs) (returned s ++ map (pair t) ret)).
Proof.
  intros [C1 C2 C3 C4 C5 C6] [M1 M2 M3 M4 M5 M6 M7 M8 M9].
  pose proof (lookup_lt_Some _ _ _ M1) as Hlt.
  assert (∀ u pu, <[t := p']> (threads s) !! u = Some pu →
    (u = t ∧ pu = p') ∨ (u ≠ t ∧ threads s !! u = Some pu)) as Hcase.
  { intros u pu Hu. apply list_lookup_insert_Some in Hu as [(-> & -> & _)|[Hne Hu]];
      [by left|by right]. }
  split; cbn [queue m_mutex threads stops decided returned].
  - intros u Hu. rewrite length_insert. destruct (decide (u = t)) as [->|Hne]; [done|].
    by apply C1, (M3 u).
  - intros u pu [[-> ->]|[Hne Hu]]%Hcase; [done|]. rewrite (C2 u pu Hu).
    apply bool_decide_ext. split; [by apply M4|by apply M3].
  - intros u pu [[-> ->]|[Hne Hu]]%Hcase; [done|]. rewrite M5. by apply (C3 u).
  - intros u pu Ho [[-> ->]|[Hne Hu]]%Hcase; [by apply M7|].
    destruct (M3 u Hne Ho) as [Ho' ->]. by apply (C4 u).
  - rewrite map_app, map_snd_pair_list. by apply (legal_more _ _ (queue s)).
  - intros u pu [[-> ->]|[Hne Hu]]%Hcase; rewrite !by_thread_app, !by_thread_pair.
    + rewrite !decide_True by done. by rewrite (C6 t p M1), <-!app_assoc, M9.
    + rewrite !decide_False, !app_nil_r by done. by apply C6.
Qed.

(** The same where nothing is decided or returned. *)
Lemma coherent_goto max_size s t p owner p' :
  coherent max_size s → move s t p (queue s) owner p' [] [] →
  coherent max_size (with_mutex owner t p' s).
Proof.
  intros Hc Hm. pose proof (coherent_move _ _ _ _ _ _ _ _ _ Hc Hm) as Hc'.
  by rewrite !app_nil_r in Hc'.
Qed.

Lemma coherent_awaken max_size s t p :
  coherent max_size s → threads s !! t = Some p →
  coherent max_size (with_threads (<[t := awaken p]> (threads s)) s).
Proof.
  intros Hc Ht. apply (coherent_goto _ _ _ p); [done|]. destruct Hc as [C1 C2 C3 C4 C5 C6].
  split; try done.
  - rewrite <-(C2 t p Ht). by destruct p.
  - intros Hw. apply (C3 t p Ht). by destruct p.
  - intros Ho. assert (awaken p = p) as ->; [|by apply C4].
    pose proof (C2 t p Ht) as Hh. rewrite bool_decide_eq_true_2 in Hh by done. by destruct p.
  - rewrite app_nil_r. by destruct p.
Qed.

Lemma coherent_notify max_size s cv ts ts' :
  coherent max_size (with_threads ts s) → notify_one cv ts ts' → coherent max_size (with_threads ts' s).
Proof.
  intros Hc Hn. revert Hc. destruct Hn as [ts t p Ht _|]; intros Hc; [|done].
  exact (coherent_awaken _ _ t p Hc Ht).
Qed.

Lemma knows_stopped stop stop' q p : (stop = true → stop' = true) → knows stop q p → knows stop' q p.
Proof. by destruct p; cbn; auto. Qed.

Lemma coherent_stop max_size s t :
  coherent max_size s →
  coherent max_size (mkShared (queue s) (m_mutex s) (awaken_thread t (threads s)) ({[t]} ∪ stops s)
    (decided s) (returned s)).
Proof.
  intros Hc. assert (coherent max_size (with_threads (awaken_thread t (threads s)) s)) as Hw.
  { unfold awaken_thread. destruct (threads s !! t) as [p|] eqn:Ht; [by apply coherent_awaken|].
    by destruct s. }
  destruct Hw as [C1 C2 C3 C4 C5 C6]. split; try done. intros u pu Ho Hu.
  eapply knows_stopped; [|by apply (C4 u pu)]. unfold stopped. cbn.
  rewrite !bool_decide_eq_true. set_solver.
Qed.

(** No place is both outside the mutex and its owner's. *)
Lemma holder_place max_size s t p :
  coherent max_size s → threads s !! t = Some p → holds p = false → m_mutex s ≠ Some t.
Proof. intros Hc Ht Hh. rewrite (co_mutex _ _ Hc t p Ht) in Hh. by apply bool_decide_eq_false in Hh. Qed.

Lemma move_executes max_size s t p q' p' :
  coherent max_size s → m_mutex s = Some t → threads s !! t = Some p →
  statement (stopped s t) (queue s) p = Ok (q', p') →
  move s t p q' (m_mutex s) p' (decides p p') [].
Proof.
  intros Hc Ho Ht E.
  pose proof (statement_ok _ _ _ _ _ (co_knows _ _ Hc t p Ho Ht) E) as [S1 S2 S3 S4 S5 S6].
  split; try done.
  - by rewrite S1, bool_decide_eq_true_2.
  - intros u Hne Hu. congruence.
  - intros Hw. apply S3; [|done]. by apply (co_bounded _ _ Hc t).
Qed.

(** The holder goes to sleep, or back to the test of the stop token. *)
Lemma move_waits max_size s t p asleep again (sleep : bool) :
  coherent max_size s → m_mutex s = Some t → threads s !! t = Some p →
  fall_asleep p = Some (asleep, again) →
  move s t p (queue s) (if sleep then None else Some t) (if sleep then asleep else again) [] [].
Proof.
  intros Hc Ho Ht Hf. pose proof (co_bounded _ _ Hc t p Ht) as Hb.
  destruct p; try discriminate; injection Hf as <- <-; destruct sleep; split; auto; try done;
    try (by intros u ? [= ->]); try (by intros u ? ?; congruence);
    by rewrite bool_decide_eq_true_2.
Qed.

Lemma move_notifies max_size s t p cv r :
  coherent max_size s → m_mutex s = Some t → threads s !! t = Some p →
  notification p = Some (cv, r) → move s t p (queue s) (m_mutex s) (Return r) [] [].
Proof.
  intros Hc Ho Ht Hn. destruct p; try discriminate; injection Hn as <- <-; split; auto; try done;
    by rewrite bool_decide_eq_true_2.
Qed.

Lemma move_returns s t r :
  m_mutex s = Some t → threads s !! t = Some (Return r) →
  move s t (Return r) (queue s) None Outside [] [r].
Proof. intros Ho Ht. split; auto; try done. intros u Hne Hu. congruence. Qed.

Lemma step_coherent max_size s s' : coherent max_size s → step s s' → coherent max_size s'.
Proof.
  intros Hc Hs. destruct Hs as [s t p Ht Hp|s t p p' Ho Ht Hp|s t p q' p' Ho Ht E|
    s t p asleep again Ho Ht Hf Hst|s t p asleep again Ho Ht Hf Hst|s t p cv r ts Ho Ht Hn Hts|
    s t r Ho Ht|s t p Ht|s t].
  - assert (m_mutex s ≠ Some t) as Hne by (by eapply holder_place).
    apply (coherent_goto _ _ _ Outside); [done|]. destruct Hp; split; try done;
      by rewrite bool_decide_eq_false_2.
  - apply (coherent_goto _ _ _ p); [done|]. pose proof (co_bounded _ _ Hc t p Ht) as Hb.
    destruct p; try done; injection Hp as <-; split; try done; try (by intros u ? ?; congruence);
      try (by rewrite bool_decide_eq_true_2); auto.
  - rewrite <-(app_nil_r (returned s)).
    exact (coherent_move _ _ _ _ _ _ _ _ _ Hc (move_executes _ _ _ _ _ _ Hc Ho Ht E)).
  - apply (coherent_goto _ _ _ p); [done|].
    exact (move_waits _ _ _ _ _ _ true Hc Ho Ht Hf).
  - apply (coherent_goto _ _ _ p); [done|].
    exact (move_waits _ _ _ _ _ _ false Hc Ho Ht Hf).
  - apply (coherent_notify _ _ cv (<[t := Return r]> (threads s))); [|done].
    apply (coherent_goto _ s t p); [done|]. by eapply move_notifies.
  - rewrite <-(app_nil_r (decided s)).
    exact (coherent_move _ _ _ _ _ _ _ _ _ Hc (move_returns _ _ _ Ho Ht)).
  - by apply coherent_awaken.
  - by apply coherent_stop.
Qed.

Lemma reachable_coherent max_size n s : reachable max_size n s → coherent max_size s.
Proof.
  apply (rtc_ind_r (coherent max_size)); [apply coherent_init|].
  intros s1 s2 _ Hs Hc. by eapply step_coherent.
Qed.
(** ** The order of the calls *)

Lemma performs_functional r q q1 q2 : performs r q q1 → performs r q q2 → q1 = q2.
Proof. intros H1 H2. destruct H1; inversion H2; subst; congruence. Qed.

Lemma legal_snoc_inv q rs r q2 :
  legal q (rs ++ [r]) q2 → ∃ q1, legal q rs q1 ∧ performs r q1 q2.
Proof.
  remember (rs ++ [r]) as l eqn:E. intros Hl. destruct Hl as [q|q rs' q1 r' q2 Hl Hp].
  - by destruct rs.
  - apply app_inj_tail in E as [-> ->]. eauto.
Qed.

Lemma legal_functional q rs q1 q2 : legal q rs q1 → legal q rs q2 → q1 = q2.
Proof.
  intros H1. revert q2. induction H1 as [q|q rs qm r q1 _ IH Hp]; intros q2 H2.
  - inversion H2 as [|? rs ? r ? _ _ E]; [done|]. by destruct rs.
  - apply legal_snoc_inv in H2 as (qm' & Hl' & Hp'). apply IH in Hl' as ->.
    by eapply performs_functional.
Qed.

Lemma legal_split q rs rs' q2 :
  legal q (rs ++ rs') q2 → ∃ q1, legal q rs q1 ∧ legal q1 rs' q2.
Proof.
  revert q2. induction rs' as [|r rs' IH] using rev_ind; intros q2 Hl.
  - rewrite app_nil_r in Hl. exists q2. split; [done|constructor].
  - rewrite app_assoc in Hl. apply legal_snoc_inv in Hl as (qm & Hl' & Hp).
    apply IH in Hl' as (q1 & H1 & H2). exists q1. split; [done|]. by eapply legal_snoc.
Qed.

Lemma step_decided s s' : step s s' → ∃ later, decided s' = decided s ++ later.
Proof. destruct 1; first [by exists []; rewrite app_nil_r | by eexists]. Qed.

Lemma steps_decided s s' : rtc step s s' → ∃ later, decided s' = decided s ++ later.
Proof.
  induction 1 as [s|s s1 s2 Hs _ [l2 IH]]; [by exists []; rewrite app_nil_r|].
  destruct (step_decided _ _ Hs) as [l1 E]. exists (l1 ++ l2). by rewrite IH, E, app_assoc.
Qed.

Lemma steps_legal max_size s s' :
  coherent max_size s → coherent max_size s' → rtc step s s' →
  ∃ later, decided s' = decided s ++ later ∧ legal (queue s) (map snd later) (queue s').
Proof.
  intros Hc Hc' Hs. destruct (steps_decided _ _ Hs) as [later E]. exists later. split; [done|].
  pose proof (co_legal _ _ Hc') as Hl. rewrite E, map_app in Hl.
  apply legal_split in Hl as (q1 & H1 & H2).
  by rewrite (legal_functional _ _ _ _ (co_legal _ _ Hc) H1).
Qed.

(** ** How long a critical section lasts *)

(** The statements a thread has left before it releases the mutex, at most. *)
Definition statements_left (stop : bool) p : nat :=
  match p with
  | PushEnter _ => 10
  | PushLoop _ => if stop then 6 else 9
  | PushTest _ => 8
  | PushWait _ => 7
  | PushLast _ => 5
  | PushToken _ => 4
  | PushInsert _ => 3
  | PushNotify _ => 2
  | PopLoop => if stop then 6 else 9
  | PopTest => 8
  | PopWait => 7
  | PopLast => 5
  | PopFront => 4
  | PopRemove _ => 3
  | PopNotify _ => 2
  | SizeRead => 2
  | Return _ => 1
  | _ => 0
  end.

Lemma statement_left stop q p q' p' :
  statement stop q p = Ok (q', p') → (statements_left stop p' < statements_left stop p)%nat.
Proof.
  intros E. destruct p; cbn [statement] in E; try discriminate;
    repeat case_match; simplify_eq; cbn; repeat case_match; lia.
Qed.

Lemma statement_moves stop q p q' p' : statement stop q p = Ok (q', p') → p' ≠ p.
Proof. intros E%statement_left ->. lia. Qed.

Definition section_left s : nat :=
  match m_mutex s with
  | Some t => match threads s !! t with Some p => statements_left (stopped s t) p | None => 0%nat end
  | None => 0%nat
  end.

Lemma section_left_at s t p :
  m_mutex s = Some t → threads s !! t = Some p → section_left s = statements_left (stopped s t) p.
Proof. intros Ho Ht. unfold section_left. by rewrite Ho, Ht. Qed.

Lemma section_left_bound s : (section_left s <= 10)%nat.
Proof.
  unfold section_left. repeat case_match; try lia. destruct p; simpl; repeat case_match; lia.
Qed.

(** A notification is always possible, and leaves who is not asleep alone. *)
Lemma notify_possible cv (ts : list (place T)) : ∃ ts', notify_one cv ts ts'.
Proof.
  destruct (decide (Exists (λ p, sleeps_on cv p = true) ts)) as [He|He].
  - apply list.Exists_exists in He as (p & [t Ht]%list_elem_of_lookup & Hp).
    eexists. by eapply notify_sleeper.
  - exists ts. apply notify_nobody. apply Forall_Exists_neg in He.
    eapply Forall_impl; [exact He|]. cbn. intros p Hp. by apply not_true_is_false.
Qed.

Lemma notify_keeps cv ts ts' t p :
  notify_one cv ts ts' → ts !! t = Some p → holds p = true → ts' !! t = Some p.
Proof.
  intros Hn. destruct Hn as [ts u pu Hu _|ts _]; intros Ht Hp; [|done].
  apply list_lookup_insert_Some. destruct (decide (u = t)) as [->|Hne]; [left|by right].
  split; [done|]. rewrite Hu in Ht. injection Ht as ->. split; [|by eapply lookup_lt_Some].
  by destruct p.
Qed.

(** The kinds of statement the mutex's holder can be at. *)
Lemma holder_cases stop q p :
  holds p = true → knows stop q p →
  (∃ q' p', statement stop q p = Ok (q', p')) ∨
  (∃ asleep again, fall_asleep p = Some (asleep, again)) ∨
  (∃ cv r, notification p = Some (cv, r)) ∨ (∃ r, p = Return r).
Proof.
  intros Hh Hk. destruct p; try discriminate; cbn [statement fall_asleep notification knows] in *;
    try (left; eexists _, _; reflexivity); try (by eauto 8).
  - left. destruct (m_queue q); [done|]. eauto.
  - left. destruct Hk as [rest ->]. eauto.
Qed.

Lemma waits_can_step s t p asleep again :
  m_mutex s = Some t → threads s !! t = Some p → fall_asleep p = Some (asleep, again) →
  ∃ s', step s s' ∧ threads s' !! t ≠ Some p.
Proof.
  intros Ho Ht Hf. pose proof (lookup_lt_Some _ _ _ Ht) as Hlt.
  destruct (stopped s t) eqn:Es;
    (eexists; split;
      [first [exact (sleeps _ _ _ _ _ Ho Ht Hf Es)|exact (does_not_sleep _ _ _ _ _ Ho Ht Hf Es)]|]); cbn;
    rewrite list_lookup_insert_eq by done; intros [= ->]; destruct p; discriminate.
Qed.

Lemma holder_can_step max_size s t p :
  coherent max_size s → m_mutex s = Some t → threads s !! t = Some p →
  ∃ s', step s s' ∧ threads s' !! t ≠ Some p.
Proof.
  intros Hc Ho Ht. pose proof (lookup_lt_Some _ _ _ Ht) as Hlt.
  pose proof (co_mutex _ _ Hc t p Ht) as Hh. rewrite bool_decide_eq_true_2 in Hh by done.
  destruct (holder_cases _ _ p Hh (co_knows _ _ Hc t p Ho Ht))
    as [(q' & p' & E)|[(asleep & again & Hf)|[(cv & r & Hn)|[r ->]]]].
  - eexists. split; [exact (executes _ _ _ _ _ Ho Ht E)|]. cbn. rewrite list_lookup_insert_eq by done.
    intros [= Hp]. by eapply statement_moves.
  - by eapply waits_can_step.
  - destruct (notify_possible cv (<[t := Return r]> (threads s))) as [ts Hts].
    eexists. split; [exact (notifies _ _ _ _ _ _ Ho Ht Hn Hts)|]. cbn.
    rewrite (notify_keeps _ _ _ t (Return r) Hts) by (by rewrite ?list_lookup_insert_eq).
    by destruct p.
  - eexists. split; [exact (returns _ _ _ Ho Ht)|]. cbn. by rewrite list_lookup_insert_eq.
Qed.

(** Every step of the holder brings it closer to releasing the mutex; the
    others' steps do not keep it back. *)
Definition advances s s' t : Prop :=
  m_mutex s' = None ∨
  m_mutex s' = Some t ∧ (section_left s' < section_left s)%nat ∨
  m_mutex s' = Some t ∧ threads s' !! t = threads s !! t ∧ (section_left s' <= section_left s)%nat.

Lemma advances_other s s' t p :
  m_mutex s = Some t → threads s !! t = Some p → m_mutex s' = Some t → threads s' !! t = Some p →
  (stopped s t = true → stopped s' t = true) → advances s s' t.
Proof.
  intros Ho Ht Ho' Ht' Hst. right. right. split; [done|]. split; [congruence|].
  rewrite (section_left_at _ _ _ Ho Ht), (section_left_at _ _ _ Ho' Ht').
  destruct (stopped s t); [by rewrite Hst|]. destruct p, (stopped s' t); simpl; lia.
Qed.

Lemma advances_moved s s' t p p' :
  m_mutex s = Some t → threads s !! t = Some p → m_mutex s' = Some t → threads s' !! t = Some p' →
  stopped s' t = stopped s t →
  (statements_left (stopped s t) p' < statements_left (stopped s t) p)%nat → advances s s' t.
Proof.
  intros Ho Ht Ho' Ht' Hst Hl. right. left. split; [done|].
  by rewrite (section_left_at _ _ _ Ho Ht), (section_left_at _ _ _ Ho' Ht'), Hst.
Qed.

Lemma awaken_keeps ts t u p :
  ts !! t = Some p → holds p = true → awaken_thread u ts !! t = Some p.
Proof.
  intros Ht Hp. unfold awaken_thread. destruct (ts !! u) as [pu|] eqn:Hu; [|done].
  destruct (decide (u = t)) as [->|Hne]; [|by rewrite list_lookup_insert_ne].
  rewrite list_lookup_insert_eq by (by eapply lookup_lt_Some).
  rewrite Hu in Ht. injection Ht as ->. by destruct p.
Qed.

Lemma step_advances max_size s s' t :
  coherent max_size s → m_mutex s = Some t → step s s' → advances s s' t.
Proof.
  intros Hc Ho Hs. pose proof (co_owner _ _ Hc t Ho) as Hlt.
  destruct (lookup_lt_is_Some_2 _ _ Hlt) as [p Ht].
  pose proof (co_mutex _ _ Hc t p Ht) as Hh. rewrite bool_decide_eq_true_2 in Hh by done.
  destruct Hs as [s u pu Hu Hp|s u pu p' Ho' Hu Hp|s u pu q' p' Ho' Hu E|
    s u pu asleep again Ho' Hu Hf Hst|s u pu asleep again Ho' Hu Hf Hst|s u pu cv r ts Ho' Hu Hn Hts|
    s u r Ho' Hu|s u pu Hu|s u]; try (by left); try congruence;
    try (assert (u = t) as -> by congruence; assert (pu = p) as -> by congruence).
  - eapply advances_other; try done. cbn. rewrite list_lookup_insert_ne; [done|].
    intros ->. by rewrite Ht in Hu; simplify_eq.
  - eapply advances_moved; try done; cbn; [by apply list_lookup_insert_eq|].
    by eapply statement_left.
  - eapply advances_moved; try done; cbn; [by apply list_lookup_insert_eq|].
    rewrite Hst. destruct p; try discriminate; injection Hf as <- <-; simpl; lia.
  - eapply advances_moved; try done; cbn.
    + by eapply notify_keeps; [| apply list_lookup_insert_eq|].
    + destruct p; try discriminate; injection Hn as <- <-; simpl; lia.
  - eapply advances_other; try done. cbn.
    pose proof (awaken_keeps _ t u p Ht Hh) as Hk. unfold awaken_thread in Hk. by rewrite Hu in Hk.
  - eapply advances_other; try done; cbn; [by apply awaken_keeps|].
    unfold stopped. cbn. rewrite !bool_decide_eq_true. set_solver.
Qed.
End Linear.
