(* ===== verification/QueueSections.v ===== *)
(** * The statements implement the critical sections

    A simulation: whatever threads do statement by statement ([QueueLocked.v]),
    threads that run whole critical sections ([QueueThreads.v]) can do, with the
    same items in the same order and the same threads asleep. A critical section
    happens when its thread notifies, or gives up, or falls asleep. *)

From S2P Require Import Prelude ThreadSafeQueue QueueThreads QueueLocked QueueLinear.

Import Locked.

Section Sections.
Context {T : Type}.
Implicit Types (q : ThreadSafeQueue T) (p : place T) (s : Shared T) (t : nat) (r : result T)
  (m : Monitor T).

(** ** What a thread looks like to the others *)

Definition section p : pc T :=
  match p with
  | PushLock item | PushEnter item | PushLoop item | PushTest item | PushWait item
  | PushWoken item | PushLast item | PushToken item | PushInsert item | PushNotify item =>
      PushReady item
  | PushSleeping item => PushAsleep item
  | PopLock | PopLoop | PopTest | PopWait | PopWoken | PopLast | PopFront | PopRemove _
  | PopNotify _ => PopReady
  | PopSleeping => PopAsleep
  | Outside | SizeLock | SizeRead | Return _ => Idle
  end.

(** A stop request that comes after [push] has read the token is not noticed. *)
Definition past_token p : bool :=
  match p with PushInsert _ | PushNotify _ => true | _ => false end.

Definition past_token_at s t : bool :=
  match threads s !! t with Some p => past_token p | None => false end.

(** The queue has changed and nobody has been notified yet. *)
Definition performed p : list (result T) :=
  match p with
  | PushNotify item => [Pushed item true]
  | PopNotify item => [Popped (Some item)]
  | _ => []
  end.

Definition pending s : list (result T) :=
  match m_mutex s with
  | Some t => match threads s !! t with Some p => performed p | None => [] end
  | None => []
  end.

Definition pushes (rs : list (result T)) : list T :=
  flat_map (λ r, match r with Pushed item true => [item] | _ => [] end) rs.
Definition pops (rs : list (result T)) : list T :=
  flat_map (λ r, match r with Popped (Some item) => [item] | _ => [] end) rs.

Definition lags (rs : list (result T)) q q' : Prop :=
  match rs with [] => q' = q | [r] => performs r q q' | _ => False end.

Record simulates s m : Prop := {
  sim_threads : QueueThreads.threads m = section <$> threads s;
  sim_stops t : t ∈ QueueThreads.stops m ↔ t ∈ stops s ∧ past_token_at s t = false;
  sim_pushed : pushed m ++ pushes (pending s) = pushes (map snd (decided s));
  sim_popped : popped m ++ pops (pending s) = pops (map snd (decided s));
  sim_queue : lags (pending s) (QueueThreads.queue m) (queue s)
}.

(** ** Moves *)

Lemma pending_at s t p :
  threads s !! t = Some p → m_mutex s = None ∧ performed p = [] ∨ m_mutex s = Some t →
  pending s = performed p.
Proof. unfold pending. intros Ht [[-> ->]| ->]; [done|]. by rewrite Ht. Qed.

Lemma pushes_app rs rs' : pushes (rs ++ rs') = pushes rs ++ pushes rs'.
Proof. apply flat_map_app. Qed.
Lemma pops_app rs rs' : pops (rs ++ rs') = pops rs ++ pops rs'.
Proof. apply flat_map_app. Qed.

(** The thread [t], which alone can hold the mutex, moves from [p] to [p']. *)
Record follows s m t p q' owner p' (rs : list (result T)) m' : Prop := {
  fol_from : threads s !! t = Some p;
  fol_owner : m_mutex s = None ∧ performed p = [] ∨ m_mutex s = Some t;
  fol_owner' : owner = None ∧ performed p' = [] ∨ owner = Some t;
  fol_threads : QueueThreads.threads m' = <[t := section p']> (QueueThreads.threads m);
  fol_stops u : u ≠ t → u ∈ QueueThreads.stops m' ↔ u ∈ QueueThreads.stops m;
  fol_token : t ∈ QueueThreads.stops m' ↔ t ∈ stops s ∧ past_token p' = false;
  fol_pushed : pushed m' ++ pushes (performed p') = pushed m ++ pushes (performed p ++ rs);
  fol_popped : popped m' ++ pops (performed p') = popped m ++ pops (performed p ++ rs);
  fol_queue : lags (performed p') (QueueThreads.queue m') q'
}.

Lemma simulates_follows s m t p q' owner p' rs m' ret :
  simulates s m → follows s m t p q' owner p' rs m' →
  simulates (mkShared q' owner (<[t := p']> (threads s)) (stops s)
    (decided s ++ map (pair t) rs) ret) m'.
Proof.
  intros [S1 S2 S3 S4 S5] [F1 F2 F3 F4 F5 F6 F7 F8 F9].
  pose proof (lookup_lt_Some _ _ _ F1) as Hlt. rewrite (pending_at _ _ _ F1 F2) in S3, S4, S5.
  assert (pending (mkShared q' owner (<[t := p']> (threads s)) (stops s)
    (decided s ++ map (pair t) rs) ret) = performed p') as Hp.
  { apply (pending_at _ t); [by apply list_lookup_insert_eq|done]. }
  split; rewrite ?Hp; cbn [threads stops decided queue].
  - by rewrite F4, S1, list_fmap_insert.
  - intros u. unfold past_token_at. cbn [threads stops].
    destruct (decide (u = t)) as [->|Hne]; [by rewrite list_lookup_insert_eq|].
    rewrite (F5 u Hne), list_lookup_insert_ne by done. apply S2.
  - by rewrite F7, map_app, map_snd_pair_list, !pushes_app, app_assoc, S3.
  - by rewrite F8, map_app, map_snd_pair_list, !pops_app, app_assoc, S4.
  - done.
Qed.

(** The abstract threads need not move. *)
Lemma follows_stutter s m t p q' owner p' rs :
  simulates s m → threads s !! t = Some p →
  m_mutex s = None ∨ m_mutex s = Some t → owner = None ∧ performed p' = [] ∨ owner = Some t →
  performed p = [] → section p' = section p → past_token p' = past_token p ∨ stopped s t = false →
  pushes (performed p') = pushes rs → pops (performed p') = pops rs →
  lags (performed p') (queue s) q' → follows s m t p q' owner p' rs m.
Proof.
  intros [S1 S2 S3 S4 S5] Ht Ho Ho' Hp Hsec Htok Hpu Hpo Hl.
  assert (m_mutex s = None ∧ performed p = [] ∨ m_mutex s = Some t) as Ho1 by naive_solver.
  rewrite (pending_at _ _ _ Ht Ho1), Hp in S5. cbn in S5.
  split; try done; rewrite ?Hp; cbn [app]; try congruence.
  - symmetry. apply list_insert_id. by rewrite S1, list_lookup_fmap, Ht, Hsec.
  - rewrite S2. unfold past_token_at. rewrite Ht. destruct Htok as [->|Hns]; [done|].
    apply bool_decide_eq_false in Hns. tauto.
Qed.

Lemma sim_stopped s m t p :
  simulates s m → threads s !! t = Some p → past_token p = false →
  QueueThreads.stopped m t = stopped s t.
Proof.
  intros Hs Ht Hp. apply bool_decide_ext. rewrite (sim_stops _ _ Hs). unfold past_token_at.
  rewrite Ht, Hp. tauto.
Qed.

Lemma sim_at s m t p :
  simulates s m → threads s !! t = Some p → QueueThreads.threads m !! t = Some (section p).
Proof. intros Hs Ht. by rewrite (sim_threads _ _ Hs), list_lookup_fmap, Ht. Qed.

Lemma sim_quiet s m t p :
  simulates s m → threads s !! t = Some p → m_mutex s = Some t → performed p = [] →
  queue s = QueueThreads.queue m.
Proof.
  intros Hs Ht Ho Hp. pose proof (sim_queue _ _ Hs) as Hq.
  by rewrite (pending_at _ t p), Hp in Hq by auto.
Qed.

(** ** What the statements are to the critical sections *)

Lemma statement_section stop q p q' p' :
  knows stop q p → statement stop q p = Ok (q', p') →
  performed p = [] ∧
  (section p' = section p ∧ (past_token p' = past_token p ∨ stop = false) ∧
    pushes (performed p') = pushes (decides p p') ∧ pops (performed p') = pops (decides p p') ∧
    lags (performed p') q q' ∨
  stop = true ∧ q' = q ∧ (∃ item, section p = PushReady item ∧ p' = Return (Pushed item false) ∧
    past_token p = false ∧ decides p p' = [Pushed item false]) ∨
  stop = true ∧ q' = q ∧ m_queue q = [] ∧ section p = PopReady ∧ p' = Return (Popped None) ∧
    past_token p = false ∧ decides p p' = [Popped None]).
Proof.
  intros Hk E. pose proof (statement_ok _ _ _ _ _ Hk E) as Hd.
  destruct p; cbn [statement knows] in *; try discriminate; (split; [done|]);
    repeat case_match; simplify_eq; apply stated_performs in Hd; cbn in Hd; cbn;
    try (by left; auto 8);
    try (by right; left; eauto 8); right; right; unfold nonempty in *; by case_match.
Qed.

(** ** The simulation *)

(** A state of the abstract threads that matches [s] can be reached from [m]. *)
Definition simulated m s : Prop := ∃ m', rtc QueueThreads.step m m' ∧ simulates s m'.

Lemma simulated_stutter s m : simulates s m → simulated m s.
Proof. intros Hs. by exists m. Qed.

Lemma simulated_step s m m' : QueueThreads.step m m' → simulates s m' → simulated m s.
Proof. intros Hm Hs. exists m'. split; [by apply rtc_once|done]. Qed.

Lemma simulates_goto s m t p owner p' m' :
  simulates s m → follows s m t p (queue s) owner p' [] m' → simulates (with_mutex owner t p' s) m'.
Proof.
  intros Hs Hf. pose proof (simulates_follows _ _ _ _ _ _ _ _ _ (returned s) Hs Hf) as Hs'.
  by rewrite app_nil_r in Hs'.
Qed.

Lemma follows_gives_up s m t p r m' :
  simulates s m → threads s !! t = Some p → m_mutex s = Some t →
  performed p = [] → past_token p = false → pushes [r] = [] → pops [r] = [] →
  QueueThreads.threads m' = <[t := Idle]> (QueueThreads.threads m) →
  (∀ u, u ∈ QueueThreads.stops m' ↔ u ∈ QueueThreads.stops m) →
  pushed m' = pushed m → popped m' = popped m → QueueThreads.queue m' = QueueThreads.queue m →
  follows s m t p (queue s) (m_mutex s) (Return r) [r] m'.
Proof.
  intros Hs Ht Ho Hp Htok Hpu Hpo Hth Hst Hm1 Hm2 Hq.
  split; rewrite ?Hp, ?Hm1, ?Hm2; cbn [app performed]; auto; try congruence.
  - rewrite Hst, (sim_stops _ _ Hs). unfold past_token_at. by rewrite Ht, Htok.
  - by rewrite Hpu.
  - by rewrite Hpo.
  - cbn. rewrite Hq. by eapply sim_quiet.
Qed.

Lemma executes_simulated s m t p q' p' :
  simulates s m → m_mutex s = Some t → threads s !! t = Some p →
  knows (stopped s t) (queue s) p → statement (stopped s t) (queue s) p = Ok (q', p') →
  simulated m (mkShared q' (m_mutex s) (<[t := p']> (threads s)) (stops s)
    (decided s ++ map (pair t) (decides p p')) (returned s)).
Proof.
  intros Hs Ho Ht Hk E. pose proof (sim_at _ _ _ _ Hs Ht) as Hat.
  destruct (statement_section _ _ _ _ _ Hk E) as
    [Hp [(H1 & H2 & H3 & H4 & H5)|[(H1 & -> & item & H3 & -> & H4 & ->)|
      (H1 & -> & H3 & H4 & -> & H5 & ->)]]].
  - apply simulated_stutter. eapply simulates_follows; [done|]. eapply follows_stutter; eauto.
  - pose proof (sim_stopped _ _ _ _ Hs Ht H4) as Hst. rewrite H3 in Hat. rewrite H1 in Hst.
    eapply simulated_step; [eapply run_push_stopped; [done|]; rewrite Hst; apply push_stopped|].
    eapply simulates_follows; [done|]. apply follows_gives_up; try done.
    intros u. cbn. apply bool_decide_eq_true in Hst. set_solver.
  - pose proof (sim_stopped _ _ _ _ Hs Ht H5) as Hst. rewrite H4 in Hat. rewrite H1 in Hst.
    pose proof (sim_quiet _ _ _ _ Hs Ht Ho Hp) as Hq.
    eapply simulated_step; [eapply run_pop_stopped; [done|]; by rewrite Hst, pop_cases, <-Hq, H3|].
    eapply simulates_follows; [done|]. by apply follows_gives_up.
Qed.

(** The thread falls asleep, having found no room or no item. *)
Lemma sleeps_simulated max_size s m t p asleep again :
  coherent max_size s → simulates s m → m_mutex s = Some t → threads s !! t = Some p →
  fall_asleep p = Some (asleep, again) → stopped s t = false →
  simulated m (with_mutex None t asleep s).
Proof.
  intros Hc Hs Ho Ht Hf Hst. pose proof (sim_at _ _ _ _ Hs Ht) as Hat.
  pose proof (co_knows _ _ Hc t p Ho Ht) as Hk. pose proof (co_bounded _ _ Hc t p Ht) as Hb.
  assert (performed p = [] ∧ past_token p = false ∧ performed asleep = [] ∧
    past_token asleep = false) as (Hp & Htok & Hp' & Htok')
    by (by destruct p; simplify_eq; injection Hf as <- <-).
  rewrite <-(sim_stopped _ _ _ _ Hs Ht Htok) in Hst.
  pose proof (sim_quiet _ _ _ _ Hs Ht Ho Hp) as Hq.
  assert (QueueThreads.step m (set_thread t (section asleep) m)) as Hstep.
  { destruct p; simplify_eq; injection Hf as <- <-; cbn [section knows] in *.
    - apply run_push_sleep; [done|]. rewrite Hst, <-Hq, no_room_push; auto.
    - apply run_pop_sleep; [done|]. by rewrite Hst, pop_cases, <-Hq, Hk. }
  eapply simulated_step; [exact Hstep|]. eapply (simulates_goto _ m _ p); [done|].
  split; rewrite ?Hp, ?Hp'; auto; try done.
  cbn. rewrite (sim_stops _ _ Hs). unfold past_token_at. by rewrite Ht, Htok, Htok'.
Qed.

Lemma section_awaken p : section (awaken p) = wake (section p).
Proof. by destruct p. Qed.

Lemma sleeps_section cv p : sleeps_on cv p = waits_on cv (section p).
Proof. by destruct cv, p. Qed.

Lemma pending_awaken s t p :
  threads s !! t = Some p →
  pending (with_threads (<[t := awaken p]> (threads s)) s) = pending s.
Proof.
  intros Ht. unfold pending, with_threads. cbn [m_mutex threads].
  destruct (m_mutex s) as [u|]; [|done]. destruct (decide (u = t)) as [->|Hne].
  - rewrite list_lookup_insert_eq by (by eapply lookup_lt_Some). rewrite Ht. by destruct p.
  - by rewrite list_lookup_insert_ne.
Qed.

Lemma simulates_awaken s m t p :
  simulates s m → threads s !! t = Some p →
  simulates (with_threads (<[t := awaken p]> (threads s)) s) (set_thread t (wake (section p)) m).
Proof.
  intros [S1 S2 S3 S4 S5] Ht. split; rewrite ?(pending_awaken _ _ _ Ht); try done.
  - cbn. by rewrite S1, list_fmap_insert, section_awaken.
  - intros u. cbn. rewrite S2. unfold past_token_at. cbn.
    destruct (decide (u = t)) as [->|Hne]; [|by rewrite list_lookup_insert_ne].
    rewrite Ht, list_lookup_insert_eq by (by eapply lookup_lt_Some). by destruct p.
Qed.

Lemma simulates_notify s m cv ts ts' :
  simulates (with_threads ts s) m → notify_one cv ts ts' →
  ∃ ats, QueueThreads.notify_one cv (QueueThreads.threads m) ats ∧
    simulates (with_threads ts' s)
      (mkMonitor (QueueThreads.queue m) ats (QueueThreads.stops m) (pushed m) (popped m)).
Proof.
  intros Hs Hn. revert Hs. destruct Hn as [ts t p Ht Hp|ts Hnone]; intros Hs.
  - pose proof (sim_at _ _ _ _ Hs Ht) as Hat. rewrite sleeps_section in Hp.
    eexists. split; [by eapply QueueThreads.notify_sleeper|].
    exact (simulates_awaken _ _ t p Hs Ht).
  - exists (QueueThreads.threads m). split; [|by destruct m].
    apply QueueThreads.notify_nobody. rewrite (sim_threads _ _ Hs). cbn.
    apply Forall_fmap. eapply Forall_impl; [exact Hnone|]. cbn. intros p. by rewrite sleeps_section.
Qed.

Lemma pop_any_stop stop q q' item :
  pop false q = Ok (Some item, q') → pop stop q = Ok (Some item, q').
Proof. rewrite !pop_cases. by destruct (m_queue q). Qed.

(** A stop request that has come too late for [push] comes after it. *)
Lemma late_stop q ats st pu po t :
  ats !! t = Some Idle →
  QueueThreads.step (T := T) (mkMonitor q ats st pu po) (mkMonitor q ats ({[t]} ∪ st) pu po).
Proof.
  intros Ht. pose proof (request_stop (mkMonitor q ats st pu po) t) as Hr.
  unfold wake_thread in Hr. cbn in Hr. rewrite Ht in Hr. cbn in Hr. by rewrite list_insert_id in Hr.
Qed.

(** Both kinds of notification, after the abstract step [Hrun]. *)
Lemma notified_simulated s m t p cv r ts pu po :
  simulates s m → m_mutex s = Some t → threads s !! t = Some p →
  notification p = Some (cv, r) → notify_one cv (<[t := Return r]> (threads s)) ts →
  pu = pushed m ++ pushes (performed p) → po = popped m ++ pops (performed p) →
  (∀ ats, QueueThreads.notify_one cv (<[t := Idle]> (QueueThreads.threads m)) ats →
    QueueThreads.step m (mkMonitor (queue s) ats (QueueThreads.stops m) pu po)) →
  simulated m (with_threads ts s).
Proof.
  intros Hs Ho Ht Hn Hts Hpu Hpo Hrun.
  set (st := if stopped s t then {[t]} ∪ QueueThreads.stops m else QueueThreads.stops m).
  assert (simulates (with_mutex (m_mutex s) t (Return r) s)
    (mkMonitor (queue s) (<[t := Idle]> (QueueThreads.threads m)) st pu po)) as Hi.
  { eapply (simulates_goto _ m _ p); [done|].
    split; cbn; rewrite ?app_nil_r; auto.
    - intros u Hne. unfold st. destruct (stopped s t); set_solver.
    - unfold st, stopped. case_bool_decide as Hst; [set_solver|].
      rewrite (sim_stops _ _ Hs). tauto. }
  destruct (simulates_notify _ _ cv (<[t := Return r]> (threads s)) ts Hi Hts) as (ats & Hats & Hsim).
  eexists. split; [|exact Hsim]. eapply rtc_l; [by apply Hrun|]. cbn.
  unfold st in *. destruct (stopped s t); [|done]. apply rtc_once, late_stop.
  apply (sim_at _ _ t (Return r)) in Hsim; [done|]. cbn.
  eapply notify_keeps; [done| |done]. apply list_lookup_insert_eq. by eapply lookup_lt_Some.
Qed.

Lemma notifies_simulated s m t p cv r ts :
  simulates s m → m_mutex s = Some t → threads s !! t = Some p →
  notification p = Some (cv, r) → notify_one cv (<[t := Return r]> (threads s)) ts →
  simulated m (with_threads ts s).
Proof.
  intros Hs Ho Ht Hn Hts. pose proof (sim_at _ _ _ _ Hs Ht) as Hat.
  pose proof (sim_queue _ _ Hs) as Hq. rewrite (pending_at _ t p) in Hq by auto.
  pose proof (sim_stops _ _ Hs t) as Hst. unfold past_token_at in Hst. rewrite Ht in Hst.
  eapply notified_simulated; [done..|]. intros ats Hats.
  destruct p; try discriminate; injection Hn as <- <-; cbn in *; rewrite app_nil_r.
  - inversion Hq; subst. eapply run_push; [done| |done|done].
    unfold QueueThreads.stopped. rewrite bool_decide_eq_false. naive_solver.
  - inversion Hq; subst. eapply run_pop; [done| |done]. by apply pop_any_stop.
Qed.

Lemma simulates_awaken_thread s m t :
  simulates s m →
  simulates (with_threads (awaken_thread t (threads s)) s)
    (mkMonitor (QueueThreads.queue m) (wake_thread t (QueueThreads.threads m)) (QueueThreads.stops m)
      (pushed m) (popped m)).
Proof.
  intros Hs. pose proof (simulates_awaken s m t) as Ha. unfold awaken_thread, wake_thread.
  rewrite (sim_threads _ _ Hs), list_lookup_fmap.
  destruct (threads s !! t) as [p|] eqn:Ht; cbn.
  - pose proof (Ha p Hs eq_refl) as Hsim. unfold set_thread in Hsim.
    by rewrite (sim_threads _ _ Hs) in Hsim.
  - rewrite <-(sim_threads _ _ Hs). by destruct s, m.
Qed.

(** A stop request, which a [push] past its test of the token does not notice yet. *)
Lemma stop_simulated s m t :
  simulates s m →
  simulated m (mkShared (queue s) (m_mutex s) (awaken_thread t (threads s)) ({[t]} ∪ stops s)
    (decided s) (returned s)).
Proof.
  intros Hs. destruct (past_token_at s t) eqn:Htok.
  - apply simulated_stutter. assert (awaken_thread t (threads s) = threads s) as ->.
    { unfold past_token_at, awaken_thread in *. destruct (threads s !! t) as [p|] eqn:Ht; [|done].
      apply list_insert_id. rewrite Ht. by destruct p. }
    destruct Hs as [S1 S2 S3 S4 S5]. split; try done.
    intros u. rewrite S2. unfold past_token_at in *. cbn.
    destruct (decide (u = t)) as [->|Hne]; [rewrite Htok|]; set_solver.
  - eapply simulated_step; [apply request_stop|].
    destruct (simulates_awaken_thread s m t Hs) as [S1 S2 S3 S4 S5]. split; try done.
    intros u. specialize (S2 u). unfold past_token_at in S2, Htok |- *. cbn in *.
    rewrite elem_of_union, elem_of_singleton, S2, elem_of_union, elem_of_singleton.
    enough (u = t → match awaken_thread t (threads s) !! u with
      Some p => past_token p | None => false end = false) by tauto.
    intros ->. unfold awaken_thread. destruct (threads s !! t) as [p|] eqn:Ht; [|by rewrite Ht].
    rewrite list_lookup_insert_eq by (by eapply lookup_lt_Some). by destruct p.
Qed.

(** A thread that does not own the mutex before or after. *)
Lemma simulates_outside s m t p p' m' :
  simulates s m → threads s !! t = Some p → m_mutex s ≠ Some t →
  past_token p' = past_token p →
  QueueThreads.threads m' = <[t := section p']> (QueueThreads.threads m) →
  QueueThreads.stops m' = QueueThreads.stops m → QueueThreads.queue m' = QueueThreads.queue m →
  pushed m' = pushed m → popped m' = popped m →
  simulates (with_threads (<[t := p']> (threads s)) s) m'.
Proof.
  intros [S1 S2 S3 S4 S5] Ht Hne Htok Hth Hst Hq Hpu Hpo.
  assert (pending (with_threads (<[t := p']> (threads s)) s) = pending s) as Hp.
  { unfold pending. cbn. destruct (m_mutex s) as [u|]; [|done].
    by rewrite list_lookup_insert_ne by congruence. }
  split; rewrite ?Hp, ?Hth, ?Hst, ?Hq, ?Hpu, ?Hpo; try done.
  - cbn. by rewrite S1, list_fmap_insert.
  - intros u. rewrite S2. unfold past_token_at. cbn.
    destruct (decide (u = t)) as [->|?]; [|by rewrite list_lookup_insert_ne].
    rewrite Ht, list_lookup_insert_eq by (by eapply lookup_lt_Some). by rewrite Htok.
Qed.

Lemma calls_simulated max_size s m t p :
  coherent max_size s → simulates s m → threads s !! t = Some Outside → call p →
  simulated m (with_threads (<[t := p]> (threads s)) s).
Proof.
  intros Hc Hs Ht Hp. pose proof (sim_at _ _ _ _ Hs Ht) as Hat.
  assert (m_mutex s ≠ Some t) as Hne by (by eapply holder_place).
  destruct Hp as [item| |].
  - eapply simulated_step; [by eapply QueueThreads.call_push|]. by eapply simulates_outside.
  - eapply simulated_step; [by eapply QueueThreads.call_pop|]. by eapply simulates_outside.
  - apply simulated_stutter. eapply simulates_outside; try done.
    symmetry. by apply list_insert_id.
Qed.

Lemma step_simulated max_size s s' m :
  coherent max_size s → simulates s m → step s s' → simulated m s'.
Proof.
  intros Hc Hs Hstep. destruct Hstep as [s t p Ht Hp|s t p p' Ho Ht Hp|s t p q' p' Ho Ht E|
    s t p asleep again Ho Ht Hf Hst|s t p asleep again Ho Ht Hf Hst|s t p cv r ts Ho Ht Hn Hts|
    s t r Ho Ht|s t p Ht|s t].
  - by eapply calls_simulated.
  - apply simulated_stutter. eapply (simulates_goto _ m _ p); [done|].
    destruct p; try discriminate; injection Hp as <-; by apply follows_stutter; auto.
  - eapply executes_simulated; eauto. by eapply co_knows.
  - by eapply sleeps_simulated.
  - apply simulated_stutter. eapply (simulates_goto _ m _ p); [done|].
    destruct p; try discriminate; injection Hf as <- <-; by apply follows_stutter; auto.
  - by eapply notifies_simulated.
  - apply simulated_stutter.
    pose proof (simulates_follows s m t (Return r) (queue s) None Outside [] m
      (returned s ++ [(t, r)]) Hs) as Hsim. rewrite app_nil_r in Hsim. apply Hsim.
    by apply follows_stutter; auto.
  - eapply simulated_step; [|by apply simulates_awaken].
    eapply spurious_wakeup. by eapply sim_at.
  - by apply stop_simulated.
Qed.

Lemma simulates_init max_size n :
  simulates (init max_size n) (QueueThreads.init max_size n).
Proof.
  split; try done.
  - cbn. by rewrite fmap_replicate.
  - intros t. cbn. set_solver.
Qed.

Lemma reachable_simulated max_size n s :
  reachable max_size n s → ∃ m, QueueThreads.reachable max_size n m ∧ simulates s m.
Proof.
  intros Hr. assert (coherent max_size s ∧ ∃ m, QueueThreads.reachable max_size n m ∧ simulates s m)
    as [_ ?]; [|done]. revert Hr.
  apply (rtc_ind_r (λ s, coherent max_size s ∧
    ∃ m, QueueThreads.reachable max_size n m ∧ simulates s m)).
  - split; [apply coherent_init|]. eexists. split; [apply rtc_refl|apply simulates_init].
  - intros s1 s2 _ Hs [Hc (m & Hm & Hsim)]. split; [by eapply step_coherent|].
    destruct (step_simulated _ _ _ _ Hc Hsim Hs) as (m' & Hm' & Hsim').
    exists m'. split; [|done]. unfold QueueThreads.reachable in *. by etrans.
Qed.

End Sections.
