(* ===== verification/LockedProperties.v ===== *)
(** * Properties of [ThreadSafeQueue] statement by statement

    That the mutex does what it is for: the members are accessed by one thread
    at a time and no access is undefined, every critical section comes to an
    end, the calls take effect one at a time between call and return, and the
    whole is a refinement of the threads of [QueueThreads.v]. *)

From S2P Require Import Prelude ThreadSafeQueue QueueThreads QueueLocked QueueLinear QueueSections.

Import Locked.

Section Properties.
Context {T : Type}.
Implicit Types (s : Shared T) (p : place T).

(** C26: the queue is linearizable. From any reachable state on, whatever the
    threads do statement by statement, the calls whose results are decided take
    the queue to its later state one after the other, each by the whole
    function that the rest of the development uses for it; and a thread's
    results are decided in the order of its calls, each before its call
    returns and not before it is made: what a thread has decided is what it
    has returned and, from the decision to the return, its pending result. *)
Theorem queue_linearizable max_size n s s' :
  reachable max_size n s → rtc step s s' →
  ∃ later, decided s' = decided s ++ later
    ∧ legal (queue s) (map snd later) (queue s')
    ∧ ∀ t p, threads s' !! t = Some p →
        by_thread t (decided s') = by_thread t (returned s') ++ owed p.
Proof.
  intros Hr Hs. pose proof (reachable_coherent _ _ _ Hr) as Hc.
  assert (coherent max_size s') as Hc'.
  { eapply reachable_coherent. unfold reachable in *. by etrans. }
  destruct (steps_legal _ _ _ Hc Hc' Hs) as (later & E & Hl). exists later.
  split; [done|]. split; [done|]. intros t p Ht. by eapply co_calls.
Qed.

(** C27: the statements implement the critical sections. Every state that
    threads reach statement by statement is matched by a state that threads
    reach by whole critical sections, with the same threads asleep, the same
    queue but for a change not yet notified, the same items pushed and popped
    in the same order, and the same stop requests but for those that came when
    [push] had already read its token. *)
Theorem statements_refine_sections max_size n s :
  reachable max_size n s → ∃ m, QueueThreads.reachable max_size n m ∧ simulates s m.
Proof. apply reachable_simulated. Qed.

(** C28: the mutex excludes. In every interleaving at most one thread is inside
    a critical section, it is the one that owns the mutex, and none of the
    statements it executes is undefined: [front()] and [pop()] are never called
    on an empty queue. *)
Theorem mutual_exclusion max_size n s t u p p' :
  reachable max_size n s → threads s !! t = Some p → threads s !! u = Some p' →
  holds p = true →
  m_mutex s = Some t
  ∧ statement (stopped s t) (queue s) p ≠ Undefined
  ∧ (holds p' = true → u = t).
Proof.
  intros Hr%reachable_coherent Ht Hu Hp. pose proof (co_mutex _ _ Hr) as Hm.
  pose proof (Hm t p Ht) as Ho. rewrite Hp in Ho. symmetry in Ho.
  apply bool_decide_eq_true in Ho. split; [done|]. split.
  - eapply statement_defined. by eapply co_knows.
  - intros Hp'. specialize (Hm u p' Hu). rewrite Hp' in Hm. symmetry in Hm.
    apply bool_decide_eq_true in Hm. congruence.
Qed.

(** C29: a critical section ends. The thread that owns the mutex can always
    execute its next statement; whatever step is made, by it or by another
    thread, the owner keeps the mutex until it releases it, and has fewer
    statements left after each of its own, and no more after the others'; it
    never has more than ten. So the mutex is released, whatever the others do,
    provided its owner runs. *)
Theorem critical_section_ends max_size n s t :
  reachable max_size n s → m_mutex s = Some t →
  (section_left s <= 10)%nat
  ∧ (∃ s', step s s' ∧ threads s' !! t ≠ threads s !! t)
  ∧ ∀ s', step s s' → advances s s' t.
Proof.
  intros Hr%reachable_coherent Ho. split; [apply section_left_bound|]. split.
  - destruct (lookup_lt_is_Some_2 _ _ (co_owner _ _ Hr t Ho)) as [p Ht]. rewrite Ht.
    by eapply holder_can_step.
  - intros s' Hs. by eapply step_advances.
Qed.

(** Nobody waits for the mutex in vain: while nobody owns it, whoever waits for
    it can take it. *)
Theorem free_mutex_is_taken max_size n s t p :
  reachable max_size n s → m_mutex s = None → threads s !! t = Some p →
  p = Outside ∨ (∃ cv, sleeps_on cv p = true)
  ∨ ∃ p', after_lock p = Some p' ∧ step s (with_mutex (Some t) t p' s).
Proof.
  intros Hr%reachable_coherent Ho Ht. pose proof (co_mutex _ _ Hr t p Ht) as Hp.
  rewrite Ho in Hp. rewrite bool_decide_eq_false_2 in Hp by done.
  destruct p; try discriminate; try (by left);
    try (by right; left; first [by exists m_not_empty|by exists m_not_full]);
    right; right; eexists; (split; [done|]); exact (locks _ _ _ _ Ho Ht eq_refl).
Qed.

End Properties.

(** ** Witnesses *)

(** One statement, or one move of another kind, of the run below. *)
Ltac run_statement t := eapply rtc_l; [eapply (executes _ t); reflexivity|]; cbn.
Ltac run_lock t := eapply rtc_l; [eapply (locks _ t); reflexivity|]; cbn.

(** A consumer has found the queue empty and sleeps; a producer has inserted
    its item and is about to notify. *)
Lemma insertion_run :
  ∃ s : Shared nat, rtc step (init 1 2) s ∧ m_mutex s = Some 0%nat
    ∧ threads s = [PushNotify 7%nat; PopSleeping]
    ∧ m_queue (queue s) = [7%nat] ∧ decided s = [(0%nat, Pushed 7%nat true)].
Proof.
  eexists. split.
  - eapply rtc_l; [apply (calls _ 1 PopLock); [reflexivity|constructor]|]; cbn.
    run_lock 1%nat. run_statement 1%nat. run_statement 1%nat.
    eapply rtc_l; [eapply (sleeps _ 1); reflexivity|]; cbn.
    eapply rtc_l; [apply (calls _ 0 (PushLock 7%nat)); [reflexivity|constructor]|]; cbn.
    run_lock 0%nat. run_statement 0%nat. run_statement 0%nat. run_statement 0%nat.
    run_statement 0%nat. run_statement 0%nat.
    apply rtc_refl.
  - by repeat split.
Qed.

Lemma queue_linearizable_witness :
  ∃ s : Shared nat, m_queue (queue s) = [7%nat]
    ∧ ∃ later, decided s = [] ++ later
        ∧ legal (new_queue 1) (map snd later) (queue s)
        ∧ ∀ t p, threads s !! t = Some p →
            by_thread t (decided s) = by_thread t (returned s) ++ owed p.
Proof.
  destruct insertion_run as (s & Hr & _ & _ & Hq & _). exists s. split; [exact Hq|].
  apply (queue_linearizable 1 2 (init 1 2) s); [apply rtc_refl|exact Hr].
Defined.

Lemma statements_refine_sections_witness :
  ∃ s : Shared nat, threads s = [PushNotify 7%nat; PopSleeping]
    ∧ ∃ m, QueueThreads.reachable 1 2 m ∧ simulates s m.
Proof.
  destruct insertion_run as (s & Hr & _ & Ht & _). exists s. split; [exact Ht|].
  apply (statements_refine_sections 1 2 s Hr).
Defined.

Lemma mutual_exclusion_witness :
  ∃ s : Shared nat, m_mutex s = Some 0%nat
    ∧ statement (stopped s 0) (queue s) (PushNotify 7%nat) ≠ Undefined
    ∧ (holds (T := nat) PopSleeping = true → 1%nat = 0%nat).
Proof.
  destruct insertion_run as (s & Hr & _ & Ht & _). exists s.
  apply (mutual_exclusion 1 2 s 0 1 (PushNotify 7%nat) PopSleeping Hr); [|rewrite Ht; reflexivity|reflexivity].
  rewrite Ht; reflexivity.
Defined.

Lemma critical_section_ends_witness :
  ∃ s : Shared nat, (section_left s <= 10)%nat
    ∧ (∃ s', step s s' ∧ threads s' !! 0%nat ≠ threads s !! 0%nat)
    ∧ ∀ s', step s s' → advances s s' 0.
Proof.
  destruct insertion_run as (s & Hr & Ho & _). exists s.
  apply (critical_section_ends 1 2 s 0 Hr Ho).
Defined.
