(* ===== verification/QueueProperties.v ===== *)
(** * Properties of [ThreadSafeQueue] shared by threads

    FIFO order, boundedness and the absence of lost wake-ups for consumers in
    every interleaving; the interleaving in which a stop request loses the
    wake-up of a producer, and that without stop requests none is lost; and
    that a stop request always gets its thread out of the queue. *)

From S2P Require Import Prelude ThreadSafeQueue QueueThreads.

Section Properties.
Context {T : Type}.
Implicit Types m : Monitor T.

(** C30: in every interleaving of any number of producers and consumers, with
    spurious wake-ups and stop requests, the items popped so far followed by
    those in the queue are exactly the items pushed, in order: none is lost,
    duplicated or reordered; and a bounded queue never exceeds its bound. *)
Theorem queue_is_fifo max_size n m :
  0 <= max_size → reachable max_size n m →
  pushed m = popped m ++ m_queue (queue m)
  ∧ (0 < max_size → queue_size (queue m) <= max_size).
Proof.
  intros Hm Hr.
  destruct (reachable_invariant (fifo max_size) max_size n m (init_fifo _ _ Hm)
    (step_fifo max_size) Hr) as [Ho _ Hb].
  by split.
Qed.

(** C31: no wake-up of a consumer is lost: while a consumer sleeps, at least as
    many consumers are on their way to the queue as it holds items, and if it
    holds one, some consumer is ready to take it without blocking. *)
Theorem no_item_stranded max_size n m t :
  reachable max_size n m → threads m !! t = Some PopAsleep →
  queue_size (queue m) <= count (wakes m_not_empty) (threads m)
  ∧ (m_queue (queue m) ≠ [] →
     ∃ u item q, threads m !! u = Some PopReady
       ∧ pop (stopped m u) (queue m) = Ok (Some item, q)).
Proof.
  intros Hr Ht.
  assert (items_covered m) as Hc.
  { apply (reachable_invariant items_covered max_size n); [|apply step_items_covered|done].
    left. by apply count_idle. }
  destruct Hc as [Hc|Hc].
  { pose proof (count_nonneg (waits_on m_not_empty) (<[t := Idle]> (threads m))) as H0.
    rewrite (count_insert _ _ _ _ _ Ht) in H0. simpl in H0. lia. }
  split; [done|]. intros Hne.
  destruct (m_queue (queue m)) as [|item l] eqn:E; [done|]. rewrite zlen_cons in Hc.
  pose proof (zlen_nonneg l). unfold count in Hc.
  destruct (List.filter (wakes m_not_empty) (threads m)) as [|p ps] eqn:F.
  { rewrite zlen_nil in Hc. lia. }
  assert (In p (threads m) ∧ wakes m_not_empty p = true) as [Hin Hp].
  { apply filter_In. rewrite F. by left. }
  apply list_elem_of_In, list_elem_of_lookup in Hin as [u Hu].
  destruct p; try done. eexists u, item, _. split; [exact Hu|]. by rewrite pop_cases, E.
Qed.

(** C32: a stop request can lose the wake-up of another producer. In bounded
    mode a state is reachable in which the queue is empty, a producer sleeps
    waiting for a free slot although every slot is free, a consumer sleeps
    waiting for an item, and the only other thread is outside the queue: it
    was stopped after it had been given the notification, and [push] returned
    without passing it on. *)
Theorem stop_strands_producer (a b c : T) :
  ∃ m, reachable 1 3 m
    ∧ m_queue (queue m) = []
    ∧ threads m = [Idle; PushAsleep c; PopAsleep].
Proof.
  eexists. split.
  - unfold reachable.
    eapply rtc_l. { apply (call_push _ 0 a). reflexivity. }
    eapply rtc_l.
    { eapply (run_push _ 0 a); [reflexivity..|]. apply notify_nobody. by repeat constructor. }
    eapply rtc_l. { apply (call_push _ 0 b). reflexivity. }
    eapply rtc_l. { eapply (run_push_sleep _ 0 b); reflexivity. }
    eapply rtc_l. { apply (call_push _ 1 c). reflexivity. }
    eapply rtc_l. { eapply (run_push_sleep _ 1 c); reflexivity. }
    eapply rtc_l. { apply (call_pop _ 2). reflexivity. }
    eapply rtc_l.
    { eapply (run_pop _ 2 a); [reflexivity..|]. apply (notify_sleeper _ _ 0 (PushAsleep b)); done. }
    eapply rtc_l. { eapply (run_push_stopped _ 0 b); reflexivity. }
    eapply rtc_l. { apply (call_pop _ 2). reflexivity. }
    eapply rtc_l. { eapply (run_pop_sleep _ 2); reflexivity. }
    apply rtc_refl.
  - done.
Qed.

(** As long as no stop is requested, no wake-up of a producer is lost
    either: while a producer sleeps, at least as many producers are on their
    way to the queue as it has free slots. *)
Theorem no_slot_stranded max_size n m t item :
  reachable max_size n m → stops m = ∅ → threads m !! t = Some (PushAsleep item) →
  m_max_size (queue m) - queue_size (queue m) <= count (wakes m_not_full) (threads m).
Proof.
  intros Hr Hs Ht.
  assert (slots_covered m) as Hc.
  { apply (reachable_invariant slots_covered max_size n); [|apply step_slots_covered|done].
    intros _. left. by apply count_idle. }
  destruct (Hc Hs) as [H0|H0]; [|done].
  pose proof (count_nonneg (waits_on m_not_full) (<[t := Idle]> (threads m))) as H1.
  rewrite (count_insert _ _ _ _ _ Ht) in H1. simpl in H1. lia.
Qed.

(** C33: a stop request always unblocks its thread: once requested, the thread
    is not asleep and never will be, and if it is inside [push] or [pop], one
    step of its own takes it out. *)
Theorem stop_unblocks max_size n m t p :
  reachable max_size n m → t ∈ stops m → threads m !! t = Some p →
  p = Idle ∨ ∃ m', step m m' ∧ threads m' !! t = Some Idle.
Proof.
  intros Hr Hs Ht.
  assert (stopped_awake m) as Ha.
  { apply (reachable_invariant stopped_awake max_size n); [|apply step_stopped_awake|done].
    intros u q _ ->%init_threads. done. }
  specialize (Ha t p Hs Ht).
  assert (stopped m t = true) as Hst by (by apply bool_decide_eq_true).
  assert (<[t := Idle]> (threads m) !! t = Some Idle) as Hidle.
  { apply list_lookup_insert_eq. by eapply lookup_lt_Some. }
  destruct p as [|item|item| |]; [by left|right|done|right|done].
  - eexists. split; [eapply (run_push_stopped m t item (queue m) Ht)|exact Hidle].
    rewrite Hst, push_cases. by destruct (_ && _).
  - destruct (m_queue (queue m)) as [|item l] eqn:E.
    + eexists. split; [eapply (run_pop_stopped m t (queue m) Ht)|exact Hidle].
      by rewrite Hst, pop_cases, E.
    + destruct (notify_total m_not_full (<[t := Idle]> (threads m))) as [ts Hts].
      eexists. split; [eapply (run_pop m t item _ ts Ht _ Hts)|by eapply notify_idle].
      Unshelve. 2: { by rewrite pop_cases, E. }
Qed.

(** An unbounded queue, which is what main.cpp constructs, never makes a
    producer wait: no interleaving has a producer asleep, and a push by a
    thread that has not been stopped appends its item. *)
Theorem unbounded_never_blocks n m t p :
  reachable 0 n m → threads m !! t = Some p →
  waits_on m_not_full p = false
  ∧ ∀ item, push item false false (queue m) = Ok (true, enqueue item (queue m)).
Proof.
  intros Hr Ht.
  destruct (reachable_invariant never_full 0 n m (init_never_full n) step_never_full Hr)
    as [Hm HF].
  split; [|intros item; by apply push_unbounded].
  by rewrite Forall_lookup in HF; eapply HF.
Qed.

End Properties.

(** ** Witnesses *)

(** A producer leaves one item and a second one is about to push; a consumer
    that went to sleep first has been notified. *)
Lemma one_item_run :
  ∃ m : Monitor nat, reachable 1 3 m ∧ m_queue (queue m) = [7%nat]
    ∧ threads m = [Idle; PopReady; PopAsleep].
Proof.
  eexists. split.
  - unfold reachable.
    eapply rtc_l. { apply (call_pop _ 1). reflexivity. }
    eapply rtc_l. { eapply (run_pop_sleep _ 1); reflexivity. }
    eapply rtc_l. { apply (call_pop _ 2). reflexivity. }
    eapply rtc_l. { eapply (run_pop_sleep _ 2); reflexivity. }
    eapply rtc_l. { apply (call_push _ 0 7%nat). reflexivity. }
    eapply rtc_l.
    { eapply (run_push _ 0 7%nat); [reflexivity..|].
      apply (notify_sleeper _ _ 1 PopAsleep); reflexivity. }
    apply rtc_refl.
  - by split.
Qed.

Lemma queue_is_fifo_witness :
  ∃ m : Monitor nat, m_queue (queue m) = [7%nat]
    ∧ pushed m = popped m ++ m_queue (queue m) ∧ (0 < 1 → queue_size (queue m) <= 1).
Proof.
  destruct one_item_run as (m & Hr & Hq & _). exists m. split; [exact Hq|].
  apply (queue_is_fifo 1 3 m); [discriminate|exact Hr].
Defined.

Lemma no_item_stranded_witness :
  ∃ m : Monitor nat,
    queue_size (queue m) <= count (wakes m_not_empty) (threads m)
    ∧ (m_queue (queue m) ≠ [] →
       ∃ u item q, threads m !! u = Some PopReady
         ∧ pop (stopped m u) (queue m) = Ok (Some item, q)).
Proof.
  destruct one_item_run as (m & Hr & _ & Ht). exists m.
  apply (no_item_stranded 1 3 m 2 Hr). rewrite Ht. reflexivity.
Defined.

(** A producer asleep on a full queue. *)
Lemma full_run :
  ∃ m : Monitor nat, reachable 1 2 m ∧ stops m = ∅ ∧ threads m = [Idle; PushAsleep 8%nat].
Proof.
  eexists. split.
  - unfold reachable.
    eapply rtc_l. { apply (call_push _ 0 7%nat). reflexivity. }
    eapply rtc_l.
    { eapply (run_push _ 0 7%nat); [reflexivity..|]. apply notify_nobody. by repeat constructor. }
    eapply rtc_l. { apply (call_push _ 1 8%nat). reflexivity. }
    eapply rtc_l. { eapply (run_push_sleep _ 1 8%nat); reflexivity. }
    apply rtc_refl.
  - by split.
Qed.

Lemma no_slot_stranded_witness :
  ∃ m : Monitor nat, threads m = [Idle; PushAsleep 8%nat]
    ∧ m_max_size (queue m) - queue_size (queue m) <= count (wakes m_not_full) (threads m).
Proof.
  destruct full_run as (m & Hr & Hs & Ht). exists m. split; [exact Ht|].
  apply (no_slot_stranded 1 2 m 1 8%nat Hr Hs). rewrite Ht. reflexivity.
Defined.

Lemma stop_unblocks_witness :
  ∃ m : Monitor nat, threads m = [Idle; PushReady 8%nat]
    ∧ (PushReady 8%nat = Idle ∨ ∃ m', step m m' ∧ threads m' !! 1%nat = Some Idle).
Proof.
  destruct full_run as (m & Hr & Hs & Ht).
  exists (mkMonitor (queue m) (wake_thread 1 (threads m)) ({[1%nat]} ∪ stops m)
            (pushed m) (popped m)).
  split; [cbn [threads]; rewrite Ht; reflexivity|].
  apply (stop_unblocks 1 2 _ 1).
  - unfold reachable. eapply rtc_r; [exact Hr|apply (request_stop m 1)].
  - cbn [stops]. set_solver.
  - cbn [threads]. rewrite Ht. reflexivity.
Defined.

Lemma unbounded_never_blocks_witness :
  ∃ m : Monitor nat, threads m = [PushReady 7%nat]
    ∧ waits_on m_not_full (PushReady 7%nat) = false
    ∧ ∀ item, push item false false (queue m) = Ok (true, enqueue item (queue m)).
Proof.
  eexists. split; [|eapply (unbounded_never_blocks 1 _ 0 (PushReady 7%nat))].
  2: { unfold reachable. eapply rtc_l; [apply (call_push _ 0 7%nat); reflexivity|apply rtc_refl]. }
  - reflexivity.
  - reflexivity.
Defined.
