(* ===== verification/Float64.v ===== *)
(** * IEEE-754 double precision

    The value of the 64-bit patterns the parser copies off the wire, the
    comparison and the arithmetic the program does on doubles (the Standard
    Library's executable specification of binary floating point, at 53 bits
    of precision), and what an [std::ostream] prints for one. *)

From Stdlib Require Import SpecFloat.
From S2P Require Import Prelude Telemetry.

Abbreviation float := spec_float.

Definition precision : Z := 53.
Definition emax : Z := 1024.

(** The value of an object representation. *)
Definition of_bits (b : double) : float :=
  let s := Z.testbit b 63 in
  let exponent := Z.land (Z.shiftr b 52) 0x7FF in
  let fraction := Z.land b (Z.ones 52) in
  if exponent =? 0x7FF then
    if fraction =? 0 then S754_infinity s else S754_nan
  else
    match (if exponent =? 0 then fraction else fraction + 2 ^ 52) with
    | Zpos m => S754_finite s m (Z.max exponent 1 - 1075)
    | _ => S754_zero s
    end.

(** [0.0]. *)
Definition zero : float := S754_zero false.

(** [x > y], [x < y], [x / y] and [static_cast<double>(n)]. *)
Definition gtb (x y : float) : bool := SFltb y x.
Definition ltb (x y : float) : bool := SFltb x y.
Definition div (x y : float) : float := SFdiv precision emax x y.
Definition of_int (n : Z) : float := binary_normalize precision emax n 0 false.

(** ** Printing ([operator<<] of [std::ostream]) *)

(** [n / d] rounded to the nearest integer, ties to even. *)
Definition round_div (n d : Z) : Z :=
  let q := n / d in
  let r := n mod d in
  if 2 * r <? d then q
  else if d <? 2 * r then q + 1
  else if Z.even q then q else q + 1.

(** [m * 2^e] as a fraction. *)
Definition fraction (m : positive) (e : Z) : Z * Z :=
  if 0 <=? e then (Zpos m * 2 ^ e, 1) else (Zpos m, 2 ^ (- e)).

Definition minus (s : bool) : string := if s then "-" else "".

Fixpoint zeros (n : nat) : string :=
  match n with O => "" | S n => String (Ascii.ascii_of_nat 48) (zeros n) end.

(** [z] in exactly [n] digits or more. *)
Definition padded (n : Z) (z : Z) : string :=
  let s := to_string z in
  (zeros (Z.to_nat n - String.length s) +:+ s)%string.

(** [std::fixed << std::setprecision(1)]. *)
Definition print_fixed1 (x : float) : string :=
  match x with
  | S754_nan => "nan"
  | S754_infinity s => minus s +:+ "inf"
  | S754_zero s => minus s +:+ "0.0"
  | S754_finite s m e =>
      let '(n, d) := fraction m e in
      let t := round_div (10 * n)%Z d in
      minus s +:+ to_string (t / 10)%Z +:+ "." +:+ to_string (t mod 10)%Z
  end%string.

(** A decimal fraction of [n] digits, without its trailing zeros. *)
Fixpoint decimals (n : nat) (z : Z) : string :=
  match n with
  | O => ""
  | S n' => if z mod 10 =? 0 then decimals n' (z / 10)
            else ("." +:+ padded (Z.of_nat n) z)%string
  end.

(** [10^k <= n / d]. *)
Definition at_least_pow10 (k n d : Z) : bool :=
  if 0 <=? k then 10 ^ k * d <=? n else d <=? n * 10 ^ (- k).

(** The largest [k] with [10^k <= n / d], searched downwards from an estimate
    that is at most two too large. *)
Fixpoint decimal_exponent (fuel : nat) (k n d : Z) : Z :=
  match fuel with
  | O => k
  | S fuel => if at_least_pow10 k n d then k else decimal_exponent fuel (k - 1) n d
  end.

(** The six significant digits of [n / d], as an integer, and the decimal
    exponent of the first of them. *)
Definition six_digits (n d : Z) : Z * Z :=
  let k := decimal_exponent 4 ((Z.log2 n - Z.log2 d + 1) * 30103 / 100000 + 1) n d in
  let digits :=
    if k <=? 5 then round_div (n * 10 ^ (5 - k)) d else round_div n (d * 10 ^ (k - 5)) in
  if digits =? 10 ^ 6 then (10 ^ 5, k + 1) else (digits, k).

(** The default format: [%g] with six significant digits. *)
Definition print_general (x : float) : string :=
  match x with
  | S754_nan => "nan"
  | S754_infinity s => minus s +:+ "inf"
  | S754_zero s => minus s +:+ "0"
  | S754_finite s m e =>
      let '(n, d) := fraction m e in
      let '(digits, k) := six_digits n d in
      minus s +:+
      if ((-4 <=? k) && (k <? 6))%Z
      then to_string (digits / 10 ^ (5 - k))%Z
           +:+ decimals (Z.to_nat (5 - k)) (digits mod 10 ^ (5 - k))%Z
      else to_string (digits / 10 ^ 5)%Z +:+ decimals 5 (digits mod 10 ^ 5)%Z
           +:+ "e" +:+ (if (k <? 0)%Z then "-" else "+") +:+ padded 2 (Z.abs k)
  end%string.

Example print_examples :
  map (print_general ∘ of_bits)
    [0x405E000000000000; 0x405E600000000000; 0x4132D68780000000; 0x3F1A36E2EB1C432D;
     0x3EE4F8B588E368F1; 0x7FEFFFFFFFFFFFFF; 0x1; 0x412E847FFFDF3B64; 0xC05E000000000000]
  = ["120"; "121.5"; "1.23457e+06"; "0.0001"; "1e-05"; "1.79769e+308"; "4.94066e-324";
     "1e+06"; "-120"]%string
  ∧ map (print_fixed1 ∘ of_bits) [0x3FD0000000000000; 0x40934A6666666666; 0x3FA999999999999A]
    = ["0.2"; "1234.6"; "0.1"]%string.
Proof. split; vm_compute; reflexivity. Qed.

(** ** The comparison is exact *)

(** The value of a finite number in units of [2^-1074], the smallest positive
    double. *)
Definition scaled (x : float) : Z :=
  match x with
  | S754_finite s m e =>
      if s then - (Zpos m * 2 ^ (e + 1074)) else Zpos m * 2 ^ (e + 1074)
  | _ => 0
  end.

Definition is_finite (x : float) : bool :=
  match x with S754_zero _ | S754_finite _ _ _ => true | _ => false end.

(** A number in the form every double has: 53 bits, fewer only at the bottom
    of the exponent range. *)
Definition canonical (x : float) : Prop :=
  match x with
  | S754_finite _ m e =>
      Zpos m < 2 ^ 53 ∧ -1074 <= e ∧ (e = -1074 ∨ 2 ^ 52 <= Zpos m)
  | _ => True
  end.

Lemma of_bits_canonical b : canonical (of_bits b).
Proof.
  unfold of_bits.
  set (E := Z.land _ 0x7FF). set (f := Z.land b (Z.ones 52)).
  assert (0 <= f < 2 ^ 52) as Hf.
  { unfold f. rewrite Z.land_ones by lia. apply Z.mod_pos_bound. lia. }
  assert (0 <= E) as HE by (apply Z.land_nonneg; lia).
  destruct (E =? 0x7FF); [by destruct (f =? 0)|].
  destruct (Z.eqb_spec E 0) as [->|HE0].
  - destruct f as [|m|m]; simpl in *; lia.
  - destruct (f + 2 ^ 52) as [|m|m] eqn:Em; simpl in *; lia.
Qed.

(** Canonical magnitudes compare by exponent first. *)
Lemma magnitude_compare m1 e1 m2 e2 :
  canonical (S754_finite false m1 e1) → canonical (S754_finite false m2 e2) →
  (Zpos m1 * 2 ^ (e1 + 1074) ?= Zpos m2 * 2 ^ (e2 + 1074))
  = match e1 ?= e2 with Eq => Pos.compare m1 m2 | c => c end.
Proof.
  intros (H1 & L1 & S1) (H2 & L2 & S2).
  assert (∀ m m' e e' : Z, 0 < m < 2 ^ 53 → 2 ^ 52 <= m' → -1074 <= e < e' →
    m * 2 ^ (e + 1074) < m' * 2 ^ (e' + 1074)) as Hlt.
  { intros m m' e e' Hm Hm' He.
    apply Z.lt_le_trans with (2 ^ 53 * 2 ^ (e + 1074)).
    - apply Z.mul_lt_mono_pos_r; [apply Z.pow_pos_nonneg; lia|lia].
    - apply Z.le_trans with (2 ^ 52 * 2 ^ (e' + 1074)).
      + rewrite <-!Z.pow_add_r by lia. apply Z.pow_le_mono_r; lia.
      + apply Z.mul_le_mono_nonneg_r; [apply Z.pow_nonneg; lia|done]. }
  destruct (Z.compare_spec e1 e2) as [->|He|He].
  - rewrite <-Zmult_compare_compat_r by (apply Z.lt_gt, Z.pow_pos_nonneg; lia). done.
  - apply Z.compare_lt_iff, Hlt; lia.
  - apply Z.compare_gt_iff, Hlt; lia.
Qed.

(** On finite doubles [x > y] compares the exact values. *)
Lemma gtb_exact x y :
  canonical x → canonical y → is_finite x = true → is_finite y = true →
  gtb x y = (scaled y <? scaled x).
Proof.
  intros Hx Hy Fx Fy. unfold gtb, SFltb, Z.ltb.
  enough (SFcompare y x = Some (scaled y ?= scaled x)) as -> by done.
  assert (∀ m e, 0 < Zpos m * 2 ^ (e + 1074) ∨ e + 1074 < 0) as Hpos.
  { intros m e. destruct (Z.ltb_spec (e + 1074) 0); [by right|left].
    apply Z.mul_pos_pos; [done|by apply Z.pow_pos_nonneg]. }
  destruct x as [sx|sx| |sx mx ex], y as [sy|sy| |sy my ey]; try done;
    unfold scaled, SFcompare; cbn [canonical] in Hx, Hy;
    try (specialize (Hpos mx ex) as Px); try (specialize (Hpos my ey) as Py).
  - f_equal. symmetry. destruct sy; [apply Z.compare_lt_iff|apply Z.compare_gt_iff]; lia.
  - f_equal. symmetry. destruct sx; [apply Z.compare_gt_iff|apply Z.compare_lt_iff]; lia.
  - pose proof (magnitude_compare my ey mx ex Hy Hx) as Hm.
    destruct sy, sx; f_equal; symmetry.
    + rewrite Z.compare_opp, Z.compare_antisym, Hm. by destruct (ey ?= ex).
    + apply Z.compare_lt_iff. lia.
    + apply Z.compare_gt_iff. lia.
    + exact Hm.
Qed.

#[global] Arguments of_bits : simpl never.
#[global] Arguments of_int : simpl never.
#[global] Arguments div : simpl never.
#[global] Arguments gtb : simpl never.
#[global] Arguments ltb : simpl never.
#[global] Arguments print_general : simpl never.
#[global] Arguments print_fixed1 : simpl never.
