(* ===== verification/BusinessLogic.v ===== *)
(** * BusinessLogic (include/businessLogic.h, src/businessLogic.cpp)

    The thread that tracks the drones: the table of latest telemetry, the
    altitude and speed alerts, and the throughput report with its clock
    arithmetic in double precision. A [Clock::time_point] is its count of
    nanoseconds; the readings of the clock are inputs. *)

From S2P Require Import Prelude Telemetry Float64 ThreadSafeQueue Worker.

Module BusinessLogic.

(** ** State *)

Record BusinessLogic := mkLogic {
  m_parsed_queue : ThreadSafeQueue Telemetry;
  m_log_queue : ThreadSafeQueue string;
  m_drones : gmap string Telemetry;
  m_packets_processed : Z;
  m_start_time : Z;
  m_last_report_time : Z;
  m_packets_at_last_report : Z
}.

(** [BusinessLogic(parsed_queue, log_queue)]; the time points start at the
    clock's epoch. *)
Definition new_logic (parsed : ThreadSafeQueue Telemetry) (log : ThreadSafeQueue string)
  : BusinessLogic := mkLogic parsed log ∅ 0 0 0 0.

Definition set_parsed_queue (q : ThreadSafeQueue Telemetry) (l : BusinessLogic) :=
  mkLogic q (m_log_queue l) (m_drones l) (m_packets_processed l) (m_start_time l)
    (m_last_report_time l) (m_packets_at_last_report l).
Definition set_log_queue (q : ThreadSafeQueue string) (l : BusinessLogic) :=
  mkLogic (m_parsed_queue l) q (m_drones l) (m_packets_processed l) (m_start_time l)
    (m_last_report_time l) (m_packets_at_last_report l).
Definition set_drones (d : gmap string Telemetry) (l : BusinessLogic) :=
  mkLogic (m_parsed_queue l) (m_log_queue l) d (m_packets_processed l) (m_start_time l)
    (m_last_report_time l) (m_packets_at_last_report l).
Definition set_processed (n : Z) (l : BusinessLogic) :=
  mkLogic (m_parsed_queue l) (m_log_queue l) (m_drones l) n (m_start_time l)
    (m_last_report_time l) (m_packets_at_last_report l).
Definition set_start_time (t : Z) (l : BusinessLogic) :=
  mkLogic (m_parsed_queue l) (m_log_queue l) (m_drones l) (m_packets_processed l) t
    (m_last_report_time l) (m_packets_at_last_report l).
Definition set_last_report (t n : Z) (l : BusinessLogic) :=
  mkLogic (m_parsed_queue l) (m_log_queue l) (m_drones l) (m_packets_processed l)
    (m_start_time l) t n.

#[global] Instance parsed_ref : HasQueue BusinessLogic Telemetry :=
  {| queue_of := m_parsed_queue; set_queue := set_parsed_queue |}.
#[global] Instance log_ref : HasQueue BusinessLogic string :=
  {| queue_of := m_log_queue; set_queue := set_log_queue |}.

Definition push_log (text : string) : M BusinessLogic unit := push_to text.

Definition active_drone_count (l : BusinessLogic) : Z := Z.of_nat (size (m_drones l)).

(** ** Constants and texts *)

Definition ALTITUDE_THRESHOLD : float := of_int 120.
Definition SPEED_THRESHOLD : float := of_int 50.

(** [std::chrono::duration<double>(d).count()] of [d] nanoseconds. *)
Definition seconds (ns : Z) : float := div (of_int ns) (of_int 1000000000).

(** [REPORT_INTERVAL], converted the same way from whole seconds. *)
Definition REPORT_INTERVAL : float := of_int 5.

(** [(elapsed > 0.0) ? static_cast<double>(n) / elapsed : 0.0]. *)
Definition rate (n : Z) (elapsed : float) : float :=
  if gtb elapsed zero then div (of_int n) elapsed else zero.

Definition running_text : string := "[BusinessLogic] Running" +:+ newline.

Definition alert_text (id quantity : string) (value threshold : float) : string :=
  "[ALERT] Drone " +:+ id +:+ " " +:+ quantity +:+ " " +:+ print_general value
  +:+ " exceeds threshold " +:+ print_general threshold +:+ newline.

Definition throughput_text (interval_pps avg_pps : float) (total drones : Z) : string :=
  "[Throughput] " +:+ print_fixed1 interval_pps +:+ " pkt/s (interval), "
  +:+ print_fixed1 avg_pps +:+ " pkt/s (avg), " +:+ to_string total +:+ " total, "
  +:+ to_string drones +:+ " drones" +:+ newline.

Definition summary_text (processed drones : Z) (avg_pps : float) : string :=
  "[BusinessLogic] Shutting down (processed " +:+ to_string processed +:+ " packets, "
  +:+ to_string drones +:+ " unique drones, avg " +:+ print_fixed1 avg_pps
  +:+ " pkt/s)" +:+ newline.

(** ** Operations *)

Definition check_alerts (telemetry : Telemetry) : M BusinessLogic unit :=
  (if gtb (of_bits (altitude telemetry)) ALTITUDE_THRESHOLD
   then push_log (alert_text (drone_id telemetry) "altitude"
          (of_bits (altitude telemetry)) ALTITUDE_THRESHOLD)
   else mret tt);;
  if gtb (of_bits (speed telemetry)) SPEED_THRESHOLD
  then push_log (alert_text (drone_id telemetry) "speed"
         (of_bits (speed telemetry)) SPEED_THRESHOLD)
  else mret tt.

(** [now] is what [Clock::now()] answers. *)
Definition report_throughput (now : Z) : M BusinessLogic unit :=
  l ← gets id;
  let interval_elapsed := seconds (now - m_last_report_time l) in
  if ltb interval_elapsed REPORT_INTERVAL then mret tt
  else
    let interval_packets := u64 (m_packets_processed l - m_packets_at_last_report l) in
    let interval_pps := rate interval_packets interval_elapsed in
    let total_elapsed := seconds (now - m_start_time l) in
    let avg_pps := rate (m_packets_processed l) total_elapsed in
    push_log (throughput_text interval_pps avg_pps (m_packets_processed l)
                (active_drone_count l));;
    modify (set_last_report now (m_packets_processed l)).

(** The loop body after a packet has been popped. *)
Definition handle_telemetry (now : Z) (telemetry : Telemetry) : M BusinessLogic unit :=
  modify (λ l, set_drones (<[drone_id telemetry := telemetry]> (m_drones l)) l);;
  modify (λ l, set_processed (u64 (m_packets_processed l + 1)) l);;
  check_alerts telemetry;;
  report_throughput now.

Definition run_loop (rounds : list (Round Telemetry Z)) : M BusinessLogic bool :=
  worker_loop handle_telemetry rounds.

(** [run] before and after its loop; [start] and [stop] are the first and the
    last reading of the clock. *)
Definition start_up (start : Z) : M BusinessLogic unit :=
  push_log running_text;;
  modify (set_start_time start);;
  modify (λ l, set_last_report (m_start_time l) (m_packets_at_last_report l) l).

Definition shut_down (stop : Z) : M BusinessLogic unit :=
  l ← gets id;
  let total_elapsed := seconds (stop - m_start_time l) in
  push_log (summary_text (m_packets_processed l) (active_drone_count l)
              (rate (m_packets_processed l) total_elapsed)).

(** [run(stop_token)]. *)
Definition run (start : Z) (rounds : list (Round Telemetry Z)) (stop : Z)
  : M BusinessLogic bool :=
  start_up start;;
  finished ← run_loop rounds;
  if (finished : bool) then shut_down stop;; mret true else mret false.

#[global] Arguments seconds : simpl never.
#[global] Arguments rate : simpl never.
#[global] Arguments alert_text : simpl never.
#[global] Arguments throughput_text : simpl never.
#[global] Arguments summary_text : simpl never.

End BusinessLogic.
