(* ===== verification/LogicCorrect.v ===== *)
(** * The business logic against its reference

    What the log and the drone table must be for the packets handled so far,
    as functions of the list of packets: exact threshold comparisons instead
    of floating point, packet counts as lengths of lists instead of wrapping
    counters, distinct identifiers instead of the size of a hash map. *)

From Stdlib Require Import SpecFloat.
From S2P Require Import Prelude Telemetry Float64 ThreadSafeQueue Worker BusinessLogic.

Import BusinessLogic.

(** ** Reference *)

(** The double [b] is greater than the whole number [n]; a NaN is not. *)
Definition exceeds (n : Z) (b : double) : bool :=
  match of_bits b with
  | S754_infinity s => negb s
  | S754_nan => false
  | x => n * 2 ^ 1074 <? scaled x
  end.

Definition alerts (t : Telemetry) : list string :=
  (if exceeds 120 (altitude t)
   then [alert_text (drone_id t) "altitude" (of_bits (altitude t)) ALTITUDE_THRESHOLD] else [])
  ++ (if exceeds 50 (speed t)
      then [alert_text (drone_id t) "speed" (of_bits (speed t)) SPEED_THRESHOLD] else []).

(** The latest telemetry of every drone. *)
Definition latest (ts : list Telemetry) : gmap string Telemetry :=
  foldl (λ m t, <[drone_id t := t]> m) ∅ ts.

Definition drones (ts : list Telemetry) : Z :=
  Z.of_nat (size (list_to_set (map drone_id ts) : gset string)).

(** The interval since [last] has not reached five seconds. *)
Definition within_interval (last now : Z) : bool := ltb (seconds (now - last)) REPORT_INTERVAL.

(** The log lines for the packets [xs], each with the time it was handled at:
    [seen] came before, [window] of them after the last report, at [last]. *)
Fixpoint lines (start last window : Z) (seen : list Telemetry) (xs : list (Z * Telemetry))
  : list string :=
  match xs with
  | [] => []
  | (now, t) :: xs =>
      let seen := seen ++ [t] in
      alerts t ++
      if within_interval last now then lines start last (window + 1) seen xs
      else throughput_text (rate (u64 (window + 1)) (seconds (now - last)))
             (rate (u64 (zlen seen)) (seconds (now - start))) (u64 (zlen seen)) (drones seen)
           :: lines start now 0 seen xs
  end.

(** ** Lemmas on the reference *)

Lemma latest_snoc ts t : latest (ts ++ [t]) = <[drone_id t := t]> (latest ts).
Proof. unfold latest. by rewrite foldl_app. Qed.

Lemma latest_lookup ts id :
  latest ts !! id = last (List.filter (λ t, bool_decide (drone_id t = id)) ts).
Proof.
  induction ts as [|t ts IH] using rev_ind; [done|].
  rewrite latest_snoc, List.filter_app. cbn [List.filter].
  case_bool_decide as Hid.
  - subst id. by rewrite lookup_insert_eq, last_snoc.
  - by rewrite lookup_insert_ne, app_nil_r.
Qed.

Lemma dom_latest ts : dom (latest ts) = (list_to_set (map drone_id ts) : gset string).
Proof.
  induction ts as [|t ts IH] using rev_ind; [apply dom_empty_L|].
  rewrite latest_snoc, dom_insert_L, IH, map_app, list_to_set_app_L.
  cbn [map list_to_set]. by rewrite union_empty_r_L, union_comm_L.
Qed.

Lemma size_latest ts : Z.of_nat (size (latest ts)) = drones ts.
Proof. unfold drones. by rewrite <-dom_latest, size_dom. Qed.

(** A whole number as a double compares exactly with any double. *)
Lemma gtb_whole n m e b :
  of_int n = S754_finite false m e → canonical (of_int n) → scaled (of_int n) = n * 2 ^ 1074 →
  gtb (of_bits b) (of_int n) = exceeds n b.
Proof.
  intros Hn Hc Hs. unfold exceeds. pose proof (of_bits_canonical b) as Hb.
  destruct (of_bits b) as [s|s| |s m' e'] eqn:E.
  - rewrite gtb_exact; [by rewrite Hs|done|done|done|by rewrite Hn].
  - rewrite Hn. by destruct s.
  - by rewrite Hn.
  - rewrite gtb_exact; [by rewrite Hs|done|done|done|by rewrite Hn].
Qed.

Lemma altitude_threshold b : gtb (of_bits b) ALTITUDE_THRESHOLD = exceeds 120 b.
Proof.
  eapply gtb_whole; [vm_compute; reflexivity| |vm_compute; reflexivity].
  vm_compute. split; [done|]. split; [discriminate|right; discriminate].
Qed.

Lemma speed_threshold b : gtb (of_bits b) SPEED_THRESHOLD = exceeds 50 b.
Proof.
  eapply gtb_whole; [vm_compute; reflexivity| |vm_compute; reflexivity].
  vm_compute. split; [done|]. split; [discriminate|right; discriminate].
Qed.

(** ** The handler *)

(** The log queue of [l] with more lines. *)
Definition add_lines (ls : list string) (l : BusinessLogic) : BusinessLogic :=
  set_log_queue (mkQueue (m_queue (m_log_queue l) ++ ls) (m_max_size (m_log_queue l))) l.

Lemma add_lines_nil l : add_lines [] l = l.
Proof. unfold add_lines. rewrite app_nil_r. by destruct l as [? []]. Qed.

Lemma add_lines_app ls ls' l : add_lines ls' (add_lines ls l) = add_lines (ls ++ ls') l.
Proof. unfold add_lines. simpl. by rewrite <-app_assoc. Qed.

Lemma push_log_line text l :
  m_max_size (m_log_queue l) = 0 → push_log text l = (Ok tt, add_lines [text] l).
Proof. intros Hq. exact (push_to_ok text l Hq). Qed.

Lemma check_alerts_ok t l :
  m_max_size (m_log_queue l) = 0 → check_alerts t l = (Ok tt, add_lines (alerts t) l).
Proof.
  intros Hq. unfold check_alerts, alerts. rewrite altitude_threshold, speed_threshold.
  destruct (exceeds 120 (altitude t)), (exceeds 50 (speed t)); mrun;
    repeat (rewrite push_log_line by done; simpl); rewrite ?add_lines_app, ?add_lines_nil; done.
Qed.

(** The reference as a state: packets seen, time of the last report, packets
    seen by then, lines written. *)
Record reference := mkRef {
  seen : list Telemetry;
  last_report : Z;
  reported : Z;
  written : list string
}.

Definition ref_step (start : Z) (r : reference) (x : Z * Telemetry) : reference :=
  let '(now, t) := x in
  let ts := seen r ++ [t] in
  let n := zlen ts in
  if within_interval (last_report r) now
  then mkRef ts (last_report r) (reported r) (written r ++ alerts t)
  else mkRef ts now n (written r ++ alerts t ++
         [throughput_text (rate (u64 (n - reported r)) (seconds (now - last_report r)))
            (rate (u64 n) (seconds (now - start))) (u64 n) (drones ts)]).

Lemma ref_lines start r xs :
  written (foldl (ref_step start) r xs)
  = written r ++ lines start (last_report r) (zlen (seen r) - reported r) (seen r) xs
  ∧ seen (foldl (ref_step start) r xs) = seen r ++ map snd xs.
Proof.
  revert r. induction xs as [|[now t] xs IH]; intros r; [by rewrite !app_nil_r|].
  cbn [foldl]. destruct (IH (ref_step start r (now, t))) as [-> ->].
  cbn [lines ref_step map snd]. destruct (within_interval (last_report r) now);
    cbn [written seen last_report reported].
  - rewrite <-!app_assoc, zlen_app, zlen_cons, zlen_nil.
    split; [|done]. repeat f_equal. lia.
  - rewrite <-!app_assoc, zlen_app, zlen_cons, zlen_nil, Z.sub_diag.
    split; [|done]. cbn [app]. repeat f_equal; lia.
Qed.

(** The component [l] is where the reference [r] is. *)
Record follows (start : Z) (log : list string) (r : reference) (l : BusinessLogic) : Prop := {
  follows_unbounded : m_max_size (m_log_queue l) = 0;
  follows_log : m_queue (m_log_queue l) = log ++ written r;
  follows_drones : m_drones l = latest (seen r);
  follows_processed : m_packets_processed l = u64 (zlen (seen r));
  follows_start : m_start_time l = start;
  follows_last : m_last_report_time l = last_report r;
  follows_reported : m_packets_at_last_report l = u64 (reported r)
}.

(** What [report_throughput] writes and remembers. *)
Lemma report_throughput_ok now l :
  m_max_size (m_log_queue l) = 0 →
  report_throughput now l
  = (Ok tt,
     if within_interval (m_last_report_time l) now then l
     else set_last_report now (m_packets_processed l)
            (add_lines [throughput_text
               (rate (u64 (m_packets_processed l - m_packets_at_last_report l))
                  (seconds (now - m_last_report_time l)))
               (rate (m_packets_processed l) (seconds (now - m_start_time l)))
               (m_packets_processed l) (active_drone_count l)] l)).
Proof.
  intros Hu. unfold report_throughput.
  rewrite bind_gets. cbv zeta. unfold id.
  change (ltb (seconds (now - m_last_report_time l)) REPORT_INTERVAL)
    with (within_interval (m_last_report_time l) now).
  destruct (within_interval _ now); [done|].
  by rewrite (M_bind_ok _ _ _ _ _ (push_log_line _ l Hu)).
Qed.

Lemma handle_telemetry_ok start log r l now t :
  follows start log r l →
  ∃ l', handle_telemetry now t l = (Ok tt, l') ∧ follows start log (ref_step start r (now, t)) l'
        ∧ m_parsed_queue l' = m_parsed_queue l.
Proof.
  intros [Hu Hl Hd Hn Hs Ht Hr]. unfold handle_telemetry.
  rewrite !bind_modify. set (l2 := set_processed _ _).
  rewrite (M_bind_ok _ _ _ _ _ (check_alerts_ok t l2 Hu)).
  rewrite report_throughput_ok by done. eexists. split; [done|].
  assert (m_packets_processed l2 = u64 (zlen (seen r ++ [t]))) as Hn'.
  { unfold l2. cbn [m_packets_processed set_processed set_drones].
    by rewrite Hn, wrap_add_l, zlen_app, zlen_cons, zlen_nil. }
  assert (m_drones l2 = latest (seen r ++ [t])) as Hd' by (by rewrite latest_snoc, <-Hd).
  assert (active_drone_count l2 = drones (seen r ++ [t])) as Hc
    by (unfold active_drone_count; by rewrite Hd', size_latest).
  change (m_parsed_queue l) with (m_parsed_queue l2).
  change (m_max_size (m_log_queue l)) with (m_max_size (m_log_queue l2)) in Hu.
  change (m_log_queue l) with (m_log_queue l2) in Hl.
  change (m_start_time l) with (m_start_time l2) in Hs.
  change (m_last_report_time l) with (m_last_report_time l2) in Ht.
  change (m_packets_at_last_report l) with (m_packets_at_last_report l2) in Hr.
  clearbody l2. clear Hn Hd. destruct l2 as [pq lq dr n st lr rep].
  cbn [m_parsed_queue m_log_queue m_drones m_packets_processed m_start_time
    m_last_report_time m_packets_at_last_report] in *. subst dr n st lr rep.
  unfold ref_step, add_lines, active_drone_count in *.
  cbn [m_parsed_queue m_log_queue m_drones m_packets_processed m_start_time m_last_report_time
    m_packets_at_last_report set_log_queue m_queue m_max_size] in *.
  rewrite wrap_sub, Hc. destruct (within_interval (last_report r) now); (split; [|done]);
    (split; [done| |done..]); cbn [m_log_queue set_last_report m_queue written];
    by rewrite Hl, <-!app_assoc.
Qed.

(** Before and after the loop. *)
Lemma start_up_ok start l :
  m_max_size (m_log_queue l) = 0 →
  start_up start l
  = (Ok tt, set_last_report start (m_packets_at_last_report l)
              (set_start_time start (add_lines [running_text] l))).
Proof. intros Hu. unfold start_up. by rewrite (M_bind_ok _ _ _ _ _ (push_log_line _ l Hu)). Qed.

Lemma shut_down_ok stop l :
  m_max_size (m_log_queue l) = 0 →
  shut_down stop l
  = (Ok tt, add_lines [summary_text (m_packets_processed l) (active_drone_count l)
                         (rate (m_packets_processed l) (seconds (stop - m_start_time l)))] l).
Proof. intros Hu. unfold shut_down. rewrite bind_gets. by apply push_log_line. Qed.

(** The thread as a whole: the loop keeps [follows]. *)
#[export] Instance parsed_ref_laws : HasQueueLaws BusinessLogic Telemetry.
Proof. split; [done|by intros []|done]. Qed.

Lemma logic_loop_ok start log r l rounds :
  follows start log r l →
  ∃ o l' xs,
    run_loop rounds l = (o, l') ∧ loop_outcome o
    ∧ follows start log (foldl (ref_step start) r xs) l'
    ∧ map fst xs = map env (take (length xs) rounds)
    ∧ m_queue (m_parsed_queue l) ++ concat (map arrivals (take (started o (length xs)) rounds))
      = map snd xs ++ m_queue (m_parsed_queue l')
    ∧ loop_progress o (length xs) rounds (m_queue (m_parsed_queue l')).
Proof.
  intros Hf.
  destruct (worker_loop_ok handle_telemetry (follows start log) (ref_step start))
    with (rounds := rounds) (a := r) (s := l)
    as (o & l' & xs & E & Ho & Hf' & He & Hq & H1 & H2 & _ & H3).
  - intros a s now t Ha. by apply (handle_telemetry_ok start log a s now t).
  - intros a s q []. by split.
  - done.
  - exists o, l', xs. split_and!; try done. split; [done|by auto|done].
Qed.
