(* ===== verification/LogicProperties.v ===== *)
(** * Properties of the business logic

    The drone table, the alerts and the log of the thread, for every schedule
    of arrivals, stop requests and clock readings. *)

From Stdlib Require Import SpecFloat.
From S2P Require Import Prelude Telemetry Float64 ThreadSafeQueue Worker BusinessLogic LogicCorrect.

Import BusinessLogic.

(** The summary, when the thread has finished. *)
Definition farewell (o : outcome bool) (start stop : Z) (ts : list Telemetry) : list string :=
  match o with
  | Ok true => [summary_text (u64 (zlen ts)) (drones ts)
                  (rate (u64 (zlen ts)) (seconds (stop - start)))]
  | _ => []
  end.

(** The thread from its start to wherever it is after [rounds]. *)
Lemma run_session parsed log start rounds stop :
  m_max_size log = 0 →
  ∃ o l' xs,
    run start rounds stop (new_logic parsed log) = (o, l') ∧ loop_outcome o
    ∧ map fst xs = map env (take (length xs) rounds)
    ∧ m_queue parsed ++ concat (map arrivals (take (started o (length xs)) rounds))
      = map snd xs ++ m_queue (m_parsed_queue l')
    ∧ loop_progress o (length xs) rounds (m_queue (m_parsed_queue l'))
    ∧ m_drones l' = latest (map snd xs)
    ∧ m_packets_processed l' = u64 (zlen xs)
    ∧ m_queue (m_log_queue l') = m_queue log ++ running_text :: lines start start 0 [] xs
        ++ farewell o start stop (map snd xs).
Proof.
  intros Hu. unfold run. rewrite (M_bind_ok _ _ _ _ _ (start_up_ok start (new_logic parsed log) Hu)).
  set (l0 := set_last_report _ _ _). set (r0 := mkRef [] start 0 []).
  assert (follows start (m_queue log ++ [running_text]) r0 l0) as Hf.
  { split; try done. simpl. by rewrite app_nil_r. }
  destruct (logic_loop_ok start _ r0 l0 rounds Hf) as (o & l' & xs & E & Ho & Hf' & He & Hq & Hpr).
  destruct (ref_lines start r0 xs) as [Hw Hs]. cbn [written seen r0 last_report reported] in *.
  assert (zlen (map snd xs) = zlen xs) as Hz by (unfold zlen; by rewrite length_map).
  destruct Hf' as [Hu' Hl Hd Hn Hst _ _]. rewrite Hw in Hl. rewrite Hs in Hd, Hn.
  cbn [app] in *. change (zlen [] - 0) with 0 in Hl. rewrite <-app_assoc in Hl.
  destruct Ho as [-> | [-> | ->]].
  - rewrite (M_bind_ok _ _ _ _ _ E), (M_bind_ok _ _ _ _ _ (shut_down_ok stop l' Hu')).
    exists (Ok true). eexists. exists xs. split; [reflexivity|]. split; [by left|].
    split; [done|]. split; [exact Hq|]. split; [exact Hpr|].
    split; [done|]. split; [by rewrite <-Hz|].
    unfold add_lines, id. cbn [m_log_queue set_log_queue m_queue farewell].
    unfold active_drone_count. rewrite Hl, Hd, size_latest, Hn, Hst, <-!app_assoc. done.
  - rewrite (M_bind_ok _ _ _ _ _ E). exists (Ok false), l', xs.
    split; [reflexivity|]. split; [by right; left|]. split; [done|]. split; [exact Hq|].
    split; [exact Hpr|]. split; [done|]. split; [by rewrite <-Hz|]. by rewrite app_nil_r.
  - unfold mbind, M_bind. rewrite E. exists Blocked, l', xs.
    split; [reflexivity|]. split; [by right; right|]. split; [done|]. split; [exact Hq|].
    split; [exact Hpr|]. split; [done|]. split; [by rewrite <-Hz|]. by rewrite app_nil_r.
Qed.

(** C34: the business-logic thread never dies, takes the packets in the order
    they were queued and loses none, waits only when there is none and is left
    only on a stop request; and its table holds for every drone
    exactly the latest packet taken from it: a drone is in the table if and
    only if one of its packets was, and [active_drone_count] is the number of
    distinct identifiers. *)
Theorem table_holds_latest parsed log start rounds stop :
  m_max_size log = 0 →
  ∃ o l' xs,
    run start rounds stop (new_logic parsed log) = (o, l') ∧ loop_outcome o
    ∧ m_queue parsed ++ concat (map arrivals (take (started o (length xs)) rounds))
      = xs ++ m_queue (m_parsed_queue l')
    ∧ loop_progress o (length xs) rounds (m_queue (m_parsed_queue l'))
    ∧ (∀ id, m_drones l' !! id
             = last (List.filter (λ t, bool_decide (drone_id t = id)) xs))
    ∧ active_drone_count l' = Z.of_nat (size (list_to_set (map drone_id xs) : gset string))
    ∧ m_packets_processed l' = u64 (zlen xs).
Proof.
  intros Hu. destruct (run_session parsed log start rounds stop Hu)
    as (o & l' & xs & E & Ho & _ & Hq & Hpr & Hd & Hn & _).
  exists o, l', (map snd xs). rewrite length_map. split; [done|]. split; [done|].
  split; [done|]. split; [done|]. split; [|split].
  - intros id. rewrite Hd. apply latest_lookup.
  - unfold active_drone_count. rewrite Hd. apply size_latest.
  - rewrite Hn. unfold zlen. by rewrite length_map.
Qed.

(** C35: the alerts of a packet are exact: whatever the 64 bits of the altitude
    are, the altitude alert is logged if and only if they encode +infinity or
    a number strictly greater than 120 (compared exactly, not in floating
    point), and likewise the speed alert for 50; a NaN alerts nobody. Nothing
    else changes. *)
Theorem alerts_exact t l :
  m_max_size (m_log_queue l) = 0 →
  check_alerts t l = (Ok tt, add_lines (alerts t) l)
  ∧ (∀ b n, exceeds n b = true ↔
       of_bits b = S754_infinity false
       ∨ (is_finite (of_bits b) = true ∧ n * 2 ^ 1074 < scaled (of_bits b))).
Proof.
  intros Hu. split; [by apply check_alerts_ok|]. intros b n. unfold exceeds.
  destruct (of_bits b) as [s|s| |s m e]; simpl is_finite.
  - rewrite Z.ltb_lt. split; [intros H; by right|by intros [?|[_ ?]]].
  - destruct s; split; try done; [by intros [?|[? _]]|by left].
  - split; [done|by intros [?|[? _]]].
  - rewrite Z.ltb_lt. split; [intros H; by right|by intros [?|[_ ?]]].
Qed.

(** The log of the thread, line by line: the start message; for every
    packet its alerts, and a throughput report exactly when five seconds have
    passed since the last one, with the number of packets since then, the
    number of all packets so far and the number of distinct drones, each
    packet being counted in one interval; and at the end the summary. *)
Theorem log_is_reference parsed log start rounds stop :
  m_max_size log = 0 →
  ∃ o l' xs,
    run start rounds stop (new_logic parsed log) = (o, l') ∧ loop_outcome o
    ∧ map fst xs = map env (take (length xs) rounds)
    ∧ m_queue parsed ++ concat (map arrivals (take (started o (length xs)) rounds))
      = map snd xs ++ m_queue (m_parsed_queue l')
    ∧ m_queue (m_log_queue l') = m_queue log ++ running_text :: lines start start 0 [] xs
        ++ farewell o start stop (map snd xs).
Proof.
  intros Hu. destruct (run_session parsed log start rounds stop Hu)
    as (o & l' & xs & E & Ho & He & Hq & _ & _ & _ & Hl).
  by exists o, l', xs.
Qed.

(** ** Witnesses *)

(** 121.5 m and 10 m/s; then 100 m and NaN m/s; then +infinity m. *)
Definition high : Telemetry := mkTelemetry "A" 0 0 0x405E600000000000 0x4024000000000000 1.
Definition odd : Telemetry := mkTelemetry "B" 0 0 0x4059000000000000 0x7FF8000000000000 2.
Definition top : Telemetry := mkTelemetry "A" 0 0 0x7FF0000000000000 0 3.

Definition packets : list (Round Telemetry Z) :=
  [mkRound [high; odd] false false 1000000000; mkRound [] false false 6000000000;
   mkRound [top] false false 7000000000; mkRound [] false true 0].

Definition idle : BusinessLogic := new_logic (new_queue 0) (new_queue 0).

Example packets_log :
  m_queue (m_log_queue (run 0 packets 10000000000 idle).2)
  = [running_text;
     "[ALERT] Drone A altitude 121.5 exceeds threshold 120" +:+ newline;
     "[Throughput] 0.3 pkt/s (interval), 0.3 pkt/s (avg), 2 total, 2 drones" +:+ newline;
     "[ALERT] Drone A altitude inf exceeds threshold 120" +:+ newline;
     "[BusinessLogic] Shutting down (processed 3 packets, 2 unique drones, avg 0.3 pkt/s)"
       +:+ newline]%string.
Proof. vm_compute. reflexivity. Qed.

Lemma table_holds_latest_witness :
  ∃ o l' xs,
    run 0 packets 10000000000 idle = (o, l') ∧ loop_outcome o
    ∧ concat (map arrivals (take (started o (length xs)) packets))
      = xs ++ m_queue (m_parsed_queue l')
    ∧ loop_progress o (length xs) packets (m_queue (m_parsed_queue l'))
    ∧ (∀ id, m_drones l' !! id
             = last (List.filter (λ t, bool_decide (drone_id t = id)) xs))
    ∧ active_drone_count l' = Z.of_nat (size (list_to_set (map drone_id xs) : gset string))
    ∧ m_packets_processed l' = u64 (zlen xs).
Proof.
  apply (table_holds_latest (new_queue 0) (new_queue 0) 0 packets 10000000000). reflexivity.
Defined.

Lemma alerts_exact_witness :
  check_alerts high idle = (Ok tt, add_lines (alerts high) idle)
  ∧ (∀ b n, exceeds n b = true ↔
       of_bits b = S754_infinity false
       ∨ (is_finite (of_bits b) = true ∧ n * 2 ^ 1074 < scaled (of_bits b))).
Proof. apply (alerts_exact high idle). reflexivity. Defined.

Lemma log_is_reference_witness :
  ∃ o l' xs,
    run 0 packets 10000000000 idle = (o, l') ∧ loop_outcome o
    ∧ map fst xs = map env (take (length xs) packets)
    ∧ concat (map arrivals (take (started o (length xs)) packets))
      = map snd xs ++ m_queue (m_parsed_queue l')
    ∧ m_queue (m_log_queue l') = running_text :: lines 0 0 0 [] xs
        ++ farewell o 0 10000000000 (map snd xs).
Proof.
  apply (log_is_reference (new_queue 0) (new_queue 0) 0 packets 10000000000). reflexivity.
Defined.
