(* ===== verification/AsyncLogger.v ===== *)
(** * AsyncLogger (include/asyncLogger.h, src/asyncLogger.cpp)

    The thread that owns the output: it writes every message to stdout and,
    when a file is open, to the file with a flush, and it drains the queue
    before it returns. A file stream is what is on disk, what is still in its
    buffer and whether a write has failed; the file system and its failures are
    a parameter ([Filesystem]). *)

From S2P Require Import Prelude ThreadSafeQueue Worker.

Module AsyncLogger.

(** ** State *)

(** What becomes of a flush: the device takes everything, or only the first [n]
    characters before it reports an error. *)
Inductive fate := Written | Failed (n : nat).

(** [std::ofstream]: whether it is open and has no [badbit]; the messages on
    disk, the last one perhaps cut short, and those not flushed; and the fates
    of the flushes to come, [Written] from the end of the list on. *)
Record ofstream := mkStream {
  is_open : bool;
  good : bool;
  disk : list string;
  buffer : list string;
  fates : list fate
}.

(** [std::cout] is the process's; it is kept beside the logger's members. *)
Record AsyncLogger := mkLogger {
  m_log_queue : ThreadSafeQueue string;
  m_log_file : ofstream;
  cout : list string
}.

Definition set_log_queue (q : ThreadSafeQueue string) (l : AsyncLogger) :=
  mkLogger q (m_log_file l) (cout l).
Definition set_log_file (f : ofstream) (l : AsyncLogger) :=
  mkLogger (m_log_queue l) f (cout l).
Definition set_cout (ms : list string) (l : AsyncLogger) :=
  mkLogger (m_log_queue l) (m_log_file l) ms.

#[global] Instance log_ref : HasQueue AsyncLogger string :=
  {| queue_of := m_log_queue; set_queue := set_log_queue |}.

(** ** Constructors *)

(** [create_directories] succeeds or fails with an error code; [open_append]
    fails with [errno] or finds what the file holds already, and then the device
    does with the flushes what it does. *)
Class Filesystem := {
  create_directories : string → outcome unit;
  open_append : string → Z + list string;
  device : list fate
}.

Definition closed : ofstream := mkStream false true [] [] [].

(** [AsyncLogger(log_queue)]. *)
Definition new_stdout_logger (q : ThreadSafeQueue string) (out : list string) : AsyncLogger :=
  mkLogger q closed out.

Definition slash : Ascii.ascii := Ascii.ascii_of_nat 47.

(** Drops the longest prefix of characters that satisfy [f]. *)
Fixpoint drop_while (f : Ascii.ascii → bool) (l : list Ascii.ascii) : list Ascii.ascii :=
  match l with
  | c :: l' => if f c then drop_while f l' else l
  | [] => []
  end.

(** [path::parent_path] on POSIX: without the file name and the separators
    before it; of a file in the root directory, the root directory. *)
Definition parent_path (p : string) : string :=
  let l := String.list_ascii_of_string p in
  let is_slash c := bool_decide (c = slash) in
  let dir := drop_while (λ c, negb (is_slash c)) (rev l) in
  match drop_while is_slash dir, dir with
  | [], c :: _ => String c ""
  | d, _ => String.string_of_list_ascii (rev d)
  end.

Definition has_parent_path (p : string) : bool :=
  match parent_path p with EmptyString => false | _ => true end.

Definition open_what (path : string) : string := "Failed to open log file: " +:+ path.

(** [AsyncLogger(log_queue, log_file_path)]. *)
Definition new_logger `{Filesystem} (q : ThreadSafeQueue string) (log_file_path : string)
    (out : list string) : outcome AsyncLogger :=
  match log_file_path with
  | EmptyString => Ok (mkLogger q closed out)
  | _ =>
      (if has_parent_path log_file_path
       then create_directories (parent_path log_file_path) else Ok tt);;
      match open_append log_file_path with
      | inl errno => Throw (System_error errno (open_what log_file_path))
      | inr contents => Ok (mkLogger q (mkStream true true contents [] device) out)
      end
  end.

(** ** Operations *)

(** With [badbit] set, neither does anything. *)
Definition stream_write (message : string) (f : ofstream) : ofstream :=
  if good f then mkStream (is_open f) true (disk f) (buffer f ++ [message]) (fates f) else f.

Definition stream_flush (f : ofstream) : ofstream :=
  if good f then
    match fates f with
    | Failed n :: rest =>
        mkStream (is_open f) false
          (disk f ++ [String.substring 0 n (String.concat "" (buffer f))]) (buffer f) rest
    | fs => mkStream (is_open f) true (disk f ++ buffer f) [] (tail fs)
    end
  else f.

Definition write_message (message : string) : M AsyncLogger unit :=
  modify (λ l, set_cout (cout l ++ [message]) l);;
  l ← gets id;
  if is_open (m_log_file l) then
    modify (λ l, set_log_file (stream_write message (m_log_file l)) l);;
    modify (λ l, set_log_file (stream_flush (m_log_file l)) l)
  else mret tt.

(** One iteration of the second loop: [pop] with a token that is already
    stopped. [late] are messages that arrive meanwhile. *)
Definition drain_round (late : list string) : Round string unit := mkRound late false true tt.

Definition drain_step : M AsyncLogger control :=
  worker_iteration (λ _, write_message) (drain_round []).

(** The second loop: while messages still arrive, and after the last of them,
    when one iteration per queued message and one more are enough. *)
Definition drain (late : list (list string)) : M AsyncLogger unit :=
  finished ← worker_loop (λ _, write_message) (map drain_round late);
  if (finished : bool) then mret tt
  else λ l, while_true (Datatypes.S (length (m_queue (m_log_queue l)))) drain_step l.

(** [run(stop_token)]. *)
Definition run (rounds : list (Round string unit)) (late : list (list string))
  : M AsyncLogger bool :=
  finished ← worker_loop (λ _, write_message) rounds;
  if (finished : bool) then drain late;; mret true else mret false.

End AsyncLogger.
