(* ===== verification/LoggerProperties.v ===== *)
(** * Properties of the logger

    No message is lost, reordered or duplicated, the file mirrors stdout and
    is flushed after every message until a flush fails, after which the file
    receives nothing, and the constructor fails fast. *)

From S2P Require Import Prelude ThreadSafeQueue Worker AsyncLogger.

Import AsyncLogger.

#[export] Instance log_ref_laws : HasQueueLaws AsyncLogger string.
Proof. split; [done|by intros []|done]. Qed.

(** ** The file after writing [ms] *)

(** What gets on disk. *)
Fixpoint on_disk (fs : list fate) (ms : list string) : list string :=
  match fs, ms with
  | Failed n :: _, m :: _ => [String.substring 0 n m]
  | _ :: fs, m :: ms => m :: on_disk fs ms
  | _, _ => ms
  end.

Definition mirrored (ms : list string) (f : ofstream) : ofstream :=
  foldl (λ f m, stream_flush (stream_write m f)) f ms.

Definition fresh (f : ofstream) : Prop := good f = true ∧ buffer f = [].

Lemma on_disk_nil fs : on_disk fs [] = [].
Proof. by destruct fs as [|[]]. Qed.

Lemma on_disk_written k fs ms :
  on_disk (replicate k Written ++ fs) ms = take k ms ++ on_disk fs (drop k ms).
Proof.
  revert ms. induction k as [|k IH]; intros [|m ms]; simpl; rewrite ?on_disk_nil; try done.
  by rewrite IH.
Qed.

Lemma mirrored_snoc ms m f : mirrored (ms ++ [m]) f = stream_flush (stream_write m (mirrored ms f)).
Proof. apply (foldl_snoc (λ f m, stream_flush (stream_write m f))). Qed.

Lemma mirrored_bad ms f : good f = false → mirrored ms f = f.
Proof.
  intros Hg. induction ms as [|m ms IH] using rev_ind; [done|].
  rewrite mirrored_snoc, IH. unfold stream_write, stream_flush. by rewrite Hg, Hg.
Qed.

Lemma mirrored_open ms f : is_open (mirrored ms f) = is_open f.
Proof.
  induction ms as [|m ms IH] using rev_ind; [done|]. rewrite mirrored_snoc, <-IH.
  unfold stream_flush, stream_write. by repeat case_match.
Qed.

Lemma mirrored_disk ms f : fresh f → disk (mirrored ms f) = disk f ++ on_disk (fates f) ms.
Proof.
  revert f. induction ms as [|m ms IH]; intros [o g d b fs] [Hg Hb]; cbn in Hg, Hb; subst.
  { cbn. by rewrite on_disk_nil, app_nil_r. }
  change (mirrored (m :: ms) ?f) with (mirrored ms (stream_flush (stream_write m f))).
  destruct fs as [|[|n] fs]; cbn.
  - rewrite IH by done. cbn. by rewrite <-app_assoc.
  - rewrite IH by done. cbn. by rewrite <-app_assoc.
  - by rewrite mirrored_bad.
Qed.

(** ** The logger after writing [ms] *)

Definition written (l0 : AsyncLogger) (ms : list string) (l : AsyncLogger) : Prop :=
  cout l = cout l0 ++ ms
  ∧ m_log_file l = if is_open (m_log_file l0) then mirrored ms (m_log_file l0) else m_log_file l0.

Lemma written_nil l : written l [] l.
Proof. split; [by rewrite app_nil_r|by destruct (is_open _)]. Qed.

Lemma written_disk l0 ms l :
  fresh (m_log_file l0) → written l0 ms l →
  disk (m_log_file l) = disk (m_log_file l0)
    ++ (if is_open (m_log_file l0) then on_disk (fates (m_log_file l0)) ms else []).
Proof.
  intros Hf [_ ->]. destruct (is_open _); [by apply mirrored_disk|by rewrite app_nil_r].
Qed.

Lemma write_message_ok l0 ms l m :
  written l0 ms l →
  ∃ l', write_message m l = (Ok tt, l') ∧ written l0 (ms ++ [m]) l'
        ∧ m_log_queue l' = m_log_queue l.
Proof.
  intros [Hc Hf]. unfold write_message. rewrite bind_modify, bind_gets.
  unfold id. cbn [m_log_file set_cout].
  assert (is_open (m_log_file l) = is_open (m_log_file l0)) as Ho.
  { rewrite Hf. destruct (is_open (m_log_file l0)) eqn:E; [by rewrite mirrored_open|done]. }
  rewrite Ho. unfold written. destruct (is_open (m_log_file l0));
    (eexists; split; [reflexivity|]; split; [|done]); cbn; rewrite Hc, <-app_assoc;
    (split; [done|]); [by rewrite mirrored_snoc, Hf|done].
Qed.

Lemma written_queue l0 ms l q : written l0 ms l → written l0 ms (set_log_queue q l).
Proof. done. Qed.

Lemma fold_snoc {X Y} (a : list Y) (xs : list (X * Y)) :
  foldl (λ a x, a ++ [x.2]) a xs = a ++ map snd xs.
Proof.
  revert a. induction xs as [|x xs IH]; intros a; simpl; [by rewrite app_nil_r|].
  by rewrite IH, <-app_assoc.
Qed.

(** Either loop, for as many rounds as it is given. *)
Lemma write_loop_ok l0 ms l rounds :
  written l0 ms l →
  ∃ o l' xs,
    worker_loop (λ _ : unit, write_message) rounds l = (o, l') ∧ loop_outcome o
    ∧ written l0 (ms ++ xs) l'
    ∧ m_queue (m_log_queue l) ++ concat (map arrivals (take (started o (length xs)) rounds))
      = xs ++ m_queue (m_log_queue l')
    ∧ (o = Ok false → length xs = length rounds)
    ∧ (o = Blocked ∨ (o = Ok true ∧ Forall (λ r, stop_check r = false) rounds) →
       m_queue (m_log_queue l') = [])
    ∧ (Forall (λ r, stop_in_pop r = true) rounds → o ≠ Blocked).
Proof.
  intros Hw.
  destruct (worker_loop_ok (λ _ : unit, write_message) (written l0) (λ ms x, ms ++ [x.2]))
    with (rounds := rounds) (a := ms) (s := l)
    as (o & l' & xs & E & Ho & Hw' & _ & Hq & Hf & Hb & Hp & _).
  - intros a s [] m Ha. by apply write_message_ok.
  - intros a s q. apply written_queue.
  - done.
  - exists o, l', (map snd xs). rewrite fold_snoc in Hw'. rewrite length_map. done.
Qed.

(** The second loop once nothing more arrives: it empties the queue and ends. *)
Lemma drain_rest_ok l0 ms l :
  written l0 ms l →
  ∃ l', while_true (Datatypes.S (length (m_queue (m_log_queue l)))) drain_step l = (Ok tt, l')
    ∧ written l0 (ms ++ m_queue (m_log_queue l)) l' ∧ m_queue (m_log_queue l') = [].
Proof.
  remember (m_queue (m_log_queue l)) as queued eqn:Hq. symmetry in Hq. revert ms l Hq.
  induction queued as [|m queued IH]; intros ms l Hq Hw.
  - assert (drain_step l = (Ok Break, l)) as Hs.
    { unfold drain_step, worker_iteration. mrun. rewrite pop_from_cases. simpl. rewrite Hq.
      by destruct l. }
    exists l. rewrite (while_true_break _ _ _ _ Hs), app_nil_r. done.
  - set (l1 := set_log_queue (mkQueue queued (m_max_size (m_log_queue l))) l).
    destruct (write_message_ok l0 ms l1 m) as (l2 & Hm & Hw2 & Hq2); [done|].
    assert (drain_step l = (Ok Continue, l2)) as Hs.
    { unfold drain_step, worker_iteration. cbn [stop_check drain_round].
      rewrite (M_bind_ok _ _ l (Some m) l1).
      - by rewrite (M_bind_ok _ _ _ _ _ Hm).
      - rewrite pop_from_cases. simpl. by rewrite Hq. }
    change (length (m :: queued)) with (Datatypes.S (length queued)).
    rewrite (while_true_continue _ _ _ _ Hs).
    destruct (IH (ms ++ [m]) l2) as (l' & E & Hw' & Hq'); [by rewrite Hq2|done|].
    exists l'. split; [done|]. split; [|done]. by rewrite <-app_assoc in Hw'.
Qed.

Lemma arrivals_late n late :
  map arrivals (take n (map drain_round late)) = take n late.
Proof. rewrite firstn_map, map_map. apply map_id. Qed.

Lemma drain_ok l0 ms l late :
  written l0 ms l →
  ∃ l' xs k, drain late l = (Ok tt, l') ∧ written l0 (ms ++ xs) l'
    ∧ m_queue (m_log_queue l) ++ concat (take k late) = xs
    ∧ m_queue (m_log_queue l') = [].
Proof.
  intros Hw. destruct (write_loop_ok l0 ms l (map drain_round late) Hw)
    as (o & l1 & xs & E & Ho & Hw1 & Hq & _ & Hb & Hp).
  rewrite arrivals_late in Hq.
  assert (Forall (λ r, stop_check r = false) (map drain_round late)) as Hsc
    by (apply Forall_map; by apply Forall_true).
  assert (o ≠ Blocked) as Hnb by (apply Hp, Forall_map; by apply Forall_true).
  unfold drain. destruct Ho as [-> | [-> | ->]]; [| |done].
  - rewrite (M_bind_ok _ _ _ _ _ E). specialize (Hb (or_intror (conj eq_refl Hsc))).
    rewrite Hb, app_nil_r in Hq. by exists l1, xs, (started (Ok true) (length xs)).
  - rewrite (M_bind_ok _ _ _ _ _ E).
    destruct (drain_rest_ok l0 (ms ++ xs) l1 Hw1) as (l2 & E2 & Hw2 & Hq2).
    exists l2, (xs ++ m_queue (m_log_queue l1)), (started (Ok false) (length xs)).
    rewrite app_assoc. split; [exact E2|]. by rewrite <-Hq.
Qed.

(** Whatever arrives, whenever the stop is requested and whatever becomes of the
    file, the logger never dies; what it has written to stdout, followed by what
    is still queued, is exactly what was queued and has arrived, in order; a file
    that is open has received the same messages, up to a flush that fails; and
    when the thread has returned, nothing is left in the queue. *)
Lemma run_written rounds late l :
  ∃ o l' ms n k,
    run rounds late l = (o, l') ∧ loop_outcome o ∧ written l ms l'
    ∧ m_queue (m_log_queue l) ++ concat (map arrivals (take n rounds)) ++ concat (take k late)
      = ms ++ m_queue (m_log_queue l')
    ∧ (o = Ok true → m_queue (m_log_queue l') = []).
Proof.
  destruct (write_loop_ok l [] l rounds (written_nil l)) as (o & l1 & xs & E & Ho & Hw1 & Hq & _).
  cbn [app] in *. unfold run. destruct Ho as [-> | [-> | ->]].
  - rewrite (M_bind_ok _ _ _ _ _ E).
    destruct (drain_ok l xs l1 late Hw1) as (l2 & xs2 & k & E2 & Hw2 & Hq2 & Hm).
    rewrite (M_bind_ok _ _ _ _ _ E2).
    exists (Ok true), l2, (xs ++ xs2), (started (Ok true) (length xs)), k.
    split_and!; try done; [by left|].
    rewrite Hm, app_nil_r, app_assoc, Hq, <-app_assoc. by f_equal.
  - rewrite (M_bind_ok _ _ _ _ _ E).
    exists (Ok false), l1, xs, (started (Ok false) (length xs)), 0%nat.
    simpl (concat (take 0 late)). rewrite app_nil_r. split_and!; try done. by right; left.
  - unfold mbind, M_bind. rewrite E.
    exists Blocked, l1, xs, (started Blocked (length xs)), 0%nat.
    simpl (concat (take 0 late)). rewrite app_nil_r. split_and!; try done. by right; right.
Qed.

Theorem logger_loses_nothing rounds late l :
  fresh (m_log_file l) →
  ∃ o l' ms n k,
    run rounds late l = (o, l') ∧ loop_outcome o
    ∧ cout l' = cout l ++ ms
    ∧ disk (m_log_file l') = disk (m_log_file l)
      ++ (if is_open (m_log_file l) then on_disk (fates (m_log_file l)) ms else [])
    ∧ m_queue (m_log_queue l) ++ concat (map arrivals (take n rounds)) ++ concat (take k late)
      = ms ++ m_queue (m_log_queue l')
    ∧ (o = Ok true → m_queue (m_log_queue l') = []).
Proof.
  intros Hf. destruct (run_written rounds late l) as (o & l' & ms & n & k & E & Ho & Hw & Hq & Hm).
  exists o, l', ms, n, k. split_and!; [done|done|by apply Hw|by apply written_disk|done|done].
Qed.

(** C10: a log file that cannot be written any more is not noticed. If the
    device takes [k] messages and fails at the next, of which it takes [n]
    characters, the logger goes on: no exception is thrown, and every message
    that was queued or arrives still comes to stdout, in order; the file holds
    the first [k] of them, those [n] characters, and nothing of what follows,
    whether or not the device would take it again. *)
Theorem failed_log_is_silent rounds late l k n later :
  fresh (m_log_file l) → is_open (m_log_file l) = true →
  fates (m_log_file l) = replicate k Written ++ Failed n :: later →
  ∃ o l' ms i j,
    run rounds late l = (o, l') ∧ loop_outcome o
    ∧ m_queue (m_log_queue l) ++ concat (map arrivals (take i rounds)) ++ concat (take j late)
      = ms ++ m_queue (m_log_queue l')
    ∧ (o = Ok true → m_queue (m_log_queue l') = [])
    ∧ cout l' = cout l ++ ms
    ∧ disk (m_log_file l') = disk (m_log_file l) ++ take k ms
      ++ match ms !! k with Some m => [String.substring 0 n m] | None => [] end.
Proof.
  intros Hf Ho Hd. destruct (run_written rounds late l) as (o & l' & ms & i & j & E & Hl & Hw & Hq & Hm).
  exists o, l', ms, i, j. split_and!; [done|done|done|done|by apply Hw|].
  rewrite (written_disk l ms l') by done. rewrite Ho, Hd, on_disk_written. do 2 f_equal.
  rewrite <-(Nat.add_0_r k), <-lookup_drop, Nat.add_0_r. by destruct (drop k ms).
Qed.

(** From whatever state its loop is in, once the logger sees the stop
    request it terminates with everything written that was queued, and
    everything that arrived while it was shutting down. *)
Theorem stop_drains_everything arrived stop_in_pop l :
  fresh (m_log_file l) →
  let ms := m_queue (m_log_queue l) ++ arrived in
  ∃ l', run [mkRound arrived true stop_in_pop tt] [] l = (Ok true, l')
    ∧ cout l' = cout l ++ ms
    ∧ disk (m_log_file l') = disk (m_log_file l)
      ++ (if is_open (m_log_file l) then on_disk (fates (m_log_file l)) ms else [])
    ∧ m_queue (m_log_queue l') = [].
Proof.
  intros Hf ms. unfold run. cbn [worker_loop]. unfold arrive, worker_iteration.
  cbn [arrivals stop_check]. mrun.
  set (l1 := set_log_queue _ l).
  destruct (drain_ok l [] l1 [] (written_queue l [] l _ (written_nil l)))
    as (l2 & xs & k & E & Hw & Hq & Hm).
  rewrite E. exists l2. rewrite take_nil in Hq. simpl in Hq. rewrite app_nil_r in Hq.
  subst xs. split_and!; [done|by apply Hw|by apply (written_disk l)|done].
Qed.

(** The constructor fails fast and creates what it needs: without a path
    it touches no file; with one it creates the parent directories (if any),
    reports the error of either step, and otherwise appends to what the file
    holds. *)
Theorem constructor_cases `{Filesystem} q path out :
  new_logger q path out
  = match path, has_parent_path path, create_directories (parent_path path), open_append path with
    | EmptyString, _, _, _ => Ok (new_stdout_logger q out)
    | _, true, Throw e, _ => Throw e
    | _, true, Undefined, _ => Undefined
    | _, true, Blocked, _ => Blocked
    | _, true, OutOfFuel, _ => OutOfFuel
    | _, _, _, inl errno => Throw (System_error errno (open_what path))
    | _, _, _, inr contents => Ok (mkLogger q (mkStream true true contents [] device) out)
    end.
Proof.
  unfold new_logger. destruct path as [|c path]; [done|]. set (p := String c path).
  destruct (has_parent_path p), (create_directories (parent_path p)), (open_append p); done.
Qed.

(** ** Witnesses *)

Definition two_messages : list (Round string unit) :=
  [mkRound ["a"; "b"] false false tt; mkRound [] false true tt]%string.

(** A logger appending to a file that already holds a line, on a device that
    fails at the second flush. *)
Definition appending : AsyncLogger :=
  mkLogger (new_queue 0) (mkStream true true ["old"%string] [] [Written; Failed 1]) [].

Lemma logger_loses_nothing_witness :
  ∃ o l' ms n k,
    run two_messages [["c"%string]] appending = (o, l') ∧ loop_outcome o
    ∧ cout l' = ms ∧ disk (m_log_file l') = "old"%string :: on_disk [Written; Failed 1] ms
    ∧ concat (map arrivals (take n two_messages)) ++ concat (take k [["c"%string]])
      = ms ++ m_queue (m_log_queue l')
    ∧ (o = Ok true → m_queue (m_log_queue l') = []).
Proof. apply (logger_loses_nothing two_messages [["c"%string]] appending). done. Defined.

Lemma failed_log_is_silent_witness :
  ∃ o l' ms i j,
    run two_messages [["c"%string]] appending = (o, l') ∧ loop_outcome o
    ∧ concat (map arrivals (take i two_messages)) ++ concat (take j [["c"%string]])
      = ms ++ m_queue (m_log_queue l')
    ∧ (o = Ok true → m_queue (m_log_queue l') = [])
    ∧ cout l' = ms
    ∧ disk (m_log_file l') = "old"%string :: take 1 ms
      ++ match ms !! 1%nat with Some m => [String.substring 0 1 m] | None => [] end.
Proof.
  apply (failed_log_is_silent two_messages [["c"%string]] appending 1 1 []);
    [split; reflexivity|reflexivity|reflexivity].
Defined.

(** The fourth message fails after three characters. *)
Example failing_run :
  let l := (run [mkRound ["a"; "b"]%string true false tt] [["middle"; "last"]%string]
    (mkLogger (mkQueue ["first"%string] 0)
      (mkStream true true [] [] [Written; Written; Written; Failed 3]) [])).2 in
  cout l = ["first"; "a"; "b"; "middle"; "last"]%string
  ∧ disk (m_log_file l) = ["first"; "a"; "b"; "mid"]%string ∧ good (m_log_file l) = false.
Proof. vm_compute. repeat split. Qed.

Lemma stop_drains_everything_witness :
  ∃ l', run [mkRound ["x"%string] true true tt] []
          (mkLogger (mkQueue ["w"%string] 0) (mkStream true true ["old"%string] [] []) []) = (Ok true, l')
    ∧ cout l' = ["w"; "x"]%string ∧ disk (m_log_file l') = ["old"; "w"; "x"]%string
    ∧ m_queue (m_log_queue l') = [].
Proof.
  apply (stop_drains_everything ["x"%string] true
    (mkLogger (mkQueue ["w"%string] 0) (mkStream true true ["old"%string] [] []) [])). done.
Defined.

Example parent_paths :
  map parent_path ["log/counter_drone.log"; "drone.log"; "/drone.log"; "a/b//c"; "a/"]%string
  = ["log"; ""; "/"; "a/b"; "a"]%string.
Proof. reflexivity. Qed.
