(* ===== verification/Triples.v ===== *)
(** * Triples for code that changes an object

    [runs m s Q R]: from the state [s] the code [m] has defined behaviour and
    does not wait; when it returns [a] in [s'], [Q a s'] holds; when it throws
    [e] in [s'], [R (Some e) s'] does, and when a loop in it was cut off,
    [R None s']. The rules follow the syntax of the code. *)

From S2P Require Import Prelude.

Section Triples.
Context {S : Type}.

Definition runs {A} (m : M S A) (s : S) (Q : A → S → Prop) (R : option exn → S → Prop)
  : Prop :=
  match m s with
  | (Ok a, s') => Q a s'
  | (Throw e, s') => R (Some e) s'
  | (OutOfFuel, s') => R None s'
  | (Undefined, _) | (Blocked, _) => False
  end.

(** No exception and no loop cut off. *)
Definition never : option exn → S → Prop := λ _ _, False.

Lemma runs_ret {A} (a : A) s (Q : A → S → Prop) R : Q a s → runs (mret a) s Q R.
Proof. done. Qed.

Lemma runs_bind {A B} (m : M S A) (k : A → M S B) s Q R :
  runs m s (λ a s', runs (k a) s' Q R) R → runs (m ≫= k) s Q R.
Proof. unfold runs, mbind, M_bind. by destruct (m s) as [[a|e| | |] s']. Qed.

Lemma runs_gets {A} (f : S → A) s (Q : A → S → Prop) R : Q (f s) s → runs (gets f) s Q R.
Proof. done. Qed.

Lemma runs_modify f s (Q : unit → S → Prop) R : Q tt (f s) → runs (modify f) s Q R.
Proof. done. Qed.

Lemma runs_throw {A} e s (Q : A → S → Prop) R : R (Some e) s → runs (throw e) s Q R.
Proof. done. Qed.

Lemma runs_consequence {A} (m : M S A) s (Q Q' : A → S → Prop) (R R' : option exn → S → Prop) :
  runs m s Q R → (∀ a s', Q a s' → Q' a s') → (∀ e s', R e s' → R' e s') → runs m s Q' R'.
Proof. unfold runs. destruct (m s) as [[a|e| | |] s']; auto. Qed.

Lemma runs_returns {A} (m : M S A) s (Q : A → S → Prop) :
  runs m s Q never → ∃ a s', m s = (Ok a, s') ∧ Q a s'.
Proof. unfold runs, never. destruct (m s) as [[a|e| | |] s']; try done. by exists a, s'. Qed.

(** The postcondition may mention the run itself. *)
Lemma runs_self {A} (m : M S A) s (Q : A → S → Prop) R :
  runs m s Q R → runs m s (λ a s', Q a s' ∧ m s = (Ok a, s')) R.
Proof. unfold runs. by destruct (m s) as [[a|e| | |] s']. Qed.

(** A handler that catches every exception [m] may throw. *)
Lemma runs_try {A} (m : M S A) h s (Q : A → S → Prop) R :
  runs m s Q (λ e s', match e with
                      | Some e => ∃ handler, h e = Some handler ∧ runs handler s' Q R
                      | None => R None s'
                      end) →
  runs (try_catch m h) s Q R.
Proof.
  unfold runs, try_catch. destruct (m s) as [[a|e| | |] s']; try done.
  intros (handler & -> & Hh). exact Hh.
Qed.

(** Loops by an invariant; the cut-off state satisfies it too. *)
Lemma runs_while (I : S → Prop) (R : option exn → S → Prop) fuel body s :
  (∀ s, I s → runs body s (λ _ s', I s') R) → (∀ s, I s → R None s) →
  I s → runs (while_true fuel body) s (λ _ s', I s') R.
Proof.
  intros Hb Hx. revert s. induction fuel as [|fuel IH]; intros s Hi; [by apply Hx|].
  cbn [while_true]. apply runs_bind. eapply runs_consequence; [by apply Hb| |done].
  intros [] s' Hi'; [by apply IH|by apply runs_ret].
Qed.

Lemma runs_loop_return {A} (I : S → Prop) (R : option exn → S → Prop) fuel
    (body : M S (option A)) s :
  (∀ s, I s → runs body s (λ _ s', I s') R) → (∀ s, I s → R None s) →
  I s → runs (loop_return fuel body) s (λ _ s', I s') R.
Proof.
  intros Hb Hx. revert s. induction fuel as [|fuel IH]; intros s Hi; [by apply Hx|].
  cbn [loop_return]. apply runs_bind. eapply runs_consequence; [by apply Hb| |done].
  intros [a|] s' Hi'; [by apply runs_ret|by apply IH].
Qed.

(** Loops with a measure that goes down whenever they go on: they end. *)
Lemma runs_while_measure (I : S → Prop) (measure : S → nat) (R : option exn → S → Prop)
    fuel body s :
  (∀ s, I s → runs body s (λ c s', I s' ∧
     match c with Continue => (measure s' < measure s)%nat | Break => True end) R) →
  I s → (measure s < fuel)%nat → runs (while_true fuel body) s (λ _ s', I s') R.
Proof.
  intros Hb. revert s. induction fuel as [|fuel IH]; intros s Hi Hm; [lia|].
  cbn [while_true]. apply runs_bind. eapply runs_consequence; [by apply Hb| |done].
  intros [] s' [Hi' Hm']; [apply IH; [done|lia]|by apply runs_ret].
Qed.

Lemma runs_loop_return_measure {A} (I : S → Prop) (measure : S → nat)
    (R : option exn → S → Prop) fuel (body : M S (option A)) s :
  (∀ s, I s → runs body s (λ o s', I s' ∧
     match o with None => (measure s' < measure s)%nat | Some _ => True end) R) →
  I s → (measure s < fuel)%nat → runs (loop_return fuel body) s (λ _ s', I s') R.
Proof.
  intros Hb. revert s. induction fuel as [|fuel IH]; intros s Hi Hm; [lia|].
  cbn [loop_return]. apply runs_bind. eapply runs_consequence; [by apply Hb| |done].
  intros [a|] s' [Hi' Hm']; [by apply runs_ret|apply IH; [done|lia]].
Qed.

End Triples.

(** ** What holds if code returns

    [returning m s Q]: if [m], run from [s], returns [a] in [s'], then [Q a s'].
    Everything else that may happen to [m] is left to other lemmas. *)
Section Returning.
Context {S : Type}.

Definition returning {A} (m : M S A) (s : S) (Q : A → S → Prop) : Prop :=
  ∀ a s', m s = (Ok a, s') → Q a s'.

Lemma returning_ret {A} (a : A) s (Q : A → S → Prop) : Q a s → returning (mret a) s Q.
Proof. by intros HQ a' s' [= <- <-]. Qed.

Lemma returning_modify f s (Q : unit → S → Prop) : Q tt (f s) → returning (modify f) s Q.
Proof. by intros HQ a' s' [= <- <-]. Qed.

Lemma returning_bind {A B} (m : M S A) (k : A → M S B) s (Q : B → S → Prop) :
  returning m s (λ a s', returning (k a) s' Q) → returning (m ≫= k) s Q.
Proof.
  intros Hm b s'. unfold mbind, M_bind. destruct (m s) as [[a|e| | |] s1] eqn:E; try done.
  by apply Hm.
Qed.

Lemma returning_consequence {A} (m : M S A) s (Q Q' : A → S → Prop) :
  returning m s Q → (∀ a s', Q a s' → Q' a s') → returning m s Q'.
Proof. intros Hm HQ a s' E. by apply HQ, Hm. Qed.

(** A loop goes on in [I] and comes to its end in [Q]. *)
Lemma returning_while (I Q : S → Prop) fuel (body : M S control) s :
  (∀ s, I s → returning body s (λ c s', match c with Continue => I s' | Break => Q s' end)) →
  I s → returning (while_true fuel body) s (λ _ s', Q s').
Proof.
  intros Hb. revert s. induction fuel as [|fuel IH]; intros s Hi; [by intros a s' [=]|].
  cbn [while_true]. apply returning_bind. eapply returning_consequence; [by apply Hb|].
  intros [] s' Hs; [by apply IH|by apply returning_ret].
Qed.

End Returning.

(** ** Code that preserves a relation

    [preserves R m]: whatever the outcome of [m], the states before and after
    it are related by the preorder [R]. *)
Section Preserves.
Context {S : Type} (R : S → S → Prop) `{!PreOrder R}.

Definition preserves {A} (m : M S A) : Prop := ∀ s, R s (m s).2.

Lemma preserves_ret {A} (a : A) : preserves (mret a).
Proof. by intros s. Qed.

Lemma preserves_throw {A} e : preserves (throw (A:=A) e).
Proof. by intros s. Qed.

Lemma preserves_gets {A} (f : S → A) : preserves (gets f).
Proof. by intros s. Qed.

Lemma preserves_bind {A B} (m : M S A) (k : A → M S B) :
  preserves m → (∀ a, preserves (k a)) → preserves (m ≫= k).
Proof.
  intros Hm Hk s. specialize (Hm s). unfold mbind, M_bind.
  destruct (m s) as [[a|e| | |] s1]; try done. etransitivity; [exact Hm|apply Hk].
Qed.

Lemma preserves_try {A} (m : M S A) h :
  preserves m → (∀ e handler, h e = Some handler → preserves handler) → preserves (try_catch m h).
Proof.
  intros Hm Hh s. specialize (Hm s). unfold try_catch.
  destruct (m s) as [[a|e| | |] s1]; try done. destruct (h e) as [handler|] eqn:E; [|done].
  etransitivity; [exact Hm|by apply (Hh e)].
Qed.

Lemma preserves_while fuel (body : M S control) : preserves body → preserves (while_true fuel body).
Proof.
  intros Hb. induction fuel as [|fuel IH]; [by intros s|]. cbn [while_true].
  apply preserves_bind; [done|]. intros []; [done|apply preserves_ret].
Qed.

Lemma preserves_loop {A} fuel (body : M S (option A)) :
  preserves body → preserves (loop_return fuel body).
Proof.
  intros Hb. induction fuel as [|fuel IH]; [by intros s|]. cbn [loop_return].
  apply preserves_bind; [done|]. intros [a|]; [apply preserves_ret|done].
Qed.

Lemma preserves_returning {A} (m : M S A) s :
  preserves m → returning m s (λ _ s', R s s').
Proof. intros Hm a s' E. specialize (Hm s). by rewrite E in Hm. Qed.

End Preserves.

Create HintDb preserves.
#[export] Hint Resolve preserves_ret preserves_throw preserves_gets preserves_while preserves_loop
  : preserves.
#[export] Hint Extern 0 (PreOrder _) => typeclasses eauto : preserves.

(** One statement, and what follows it. *)
Ltac preserves_first := apply preserves_bind; [typeclasses eauto| |].

(** Walks through the syntax; the statements are left to the hints. *)
Ltac preserving := repeat first [ progress intros | solve [eauto 3 with preserves]
  | preserves_first
  | match goal with
    | |- preserves _ (if ?b then _ else _) => destruct b
    | |- preserves _ (match ?b with _ => _ end) => destruct b
    end ].

(** The failures of one statement are those of the whole. *)
Ltac same_failures := let HR := fresh in intros ? ? HR; exact HR.

(** One statement whose lemma is given. *)
Ltac step_by lem :=
  apply runs_bind; eapply runs_consequence; [eapply lem; eassumption|cbv beta|same_failures].
