(* ===== verification/Posix.v ===== *)
(** * The operating system and the ownership of file descriptors

    The system calls the listener makes are a parameter: the class [Posix]
    gives each one's result and its effect on the world, and [PosixLaws] what
    the manual pages promise about descriptors. [SocketHandle]
    (include/listener.h, src/listener.cpp) is the RAII wrapper that owns one. *)

From S2P Require Import Prelude.

(** ** System calls *)

(** The return value and [errno]. *)
Record sysret := mkRet { ret : Z; errno : Z }.

Class Posix (W : Type) := {
  sys_socket : W → sysret * W;
  sys_setsockopt_reuseaddr : Z → W → sysret * W;
  sys_fcntl_getfl : Z → W → sysret * W;
  sys_fcntl_setfl : Z → Z → W → sysret * W;
  sys_bind : Z → Z → W → sysret * W;
  sys_listen : Z → W → sysret * W;
  sys_epoll_create1 : W → sysret * W;
  sys_eventfd : W → sysret * W;
  sys_epoll_ctl_add : Z → Z → Z → W → sysret * W;
  sys_epoll_ctl_del : Z → Z → W → sysret * W;
  (** the ready descriptors with their event flags *)
  sys_epoll_wait : Z → Z → W → (sysret * list (Z * Z)) * W;
  (** the peer's address as [inet_ntop] prints it *)
  sys_accept : Z → W → (sysret * string) * W;
  (** the bytes received *)
  sys_recv : Z → Z → W → (sysret * list byte) * W;
  sys_read_event : Z → W → W;
  sys_write_event : Z → W → W;
  sys_close : Z → W → W;
  strerror : Z → string
}.

(** Linux constants. *)
Definition EINTR : Z := 4.
Definition EAGAIN : Z := 11.
Definition EWOULDBLOCK : Z := EAGAIN.
Definition O_NONBLOCK : Z := 0x800.
Definition EPOLLIN : Z := 0x1.
Definition EPOLLERR : Z := 0x8.
Definition EPOLLHUP : Z := 0x10.
Definition EPOLLET : Z := 0x80000000.

(** A call that opens a descriptor returns a new one, or fails. *)
Definition opens {W} (open_fds : W → gset Z) (f : W → sysret * W) : Prop :=
  ∀ w, let '(r, w') := f w in
    (0 <= ret r ∧ (ret r ∉ open_fds w) ∧ open_fds w' = {[ret r]} ∪ open_fds w)
    ∨ (ret r < 0 ∧ open_fds w' = open_fds w).

(** A call that does not change what [observe] sees, such as the open
    descriptors. *)
Definition keeps {W A} (observe : W → A) (f : W → W) : Prop :=
  ∀ w, observe (f w) = observe w.

(** What the manual pages say about descriptors: [open_fds] are those the
    process has open. *)
Class PosixLaws (W : Type) `{Posix W} := {
  open_fds : W → gset Z;
  socket_opens : opens open_fds sys_socket;
  epoll_create1_opens : opens open_fds sys_epoll_create1;
  eventfd_opens : opens open_fds sys_eventfd;
  accept_opens fd : opens open_fds (λ w, let '(r, _, w') := sys_accept fd w in (r, w'));
  close_closes fd w : open_fds (sys_close fd w) = open_fds w ∖ {[fd]};
  setsockopt_keeps fd : keeps open_fds (λ w, (sys_setsockopt_reuseaddr fd w).2);
  getfl_keeps fd : keeps open_fds (λ w, (sys_fcntl_getfl fd w).2);
  setfl_keeps fd flags : keeps open_fds (λ w, (sys_fcntl_setfl fd flags w).2);
  bind_keeps fd port : keeps open_fds (λ w, (sys_bind fd port w).2);
  listen_keeps fd : keeps open_fds (λ w, (sys_listen fd w).2);
  ctl_add_keeps ep fd ev : keeps open_fds (λ w, (sys_epoll_ctl_add ep fd ev w).2);
  ctl_del_keeps ep fd : keeps open_fds (λ w, (sys_epoll_ctl_del ep fd w).2);
  wait_keeps ep n : keeps open_fds (λ w, (sys_epoll_wait ep n w).2);
  recv_keeps fd n : keeps open_fds (λ w, (sys_recv fd n w).2);
  read_event_keeps fd : keeps open_fds (sys_read_event fd);
  write_event_keeps fd : keeps open_fds (sys_write_event fd);
  (** [recv] returns the number of bytes it stored, at most the buffer's. *)
  recv_length fd n w :
    let '(r, bytes, _) := sys_recv fd n w in
    0 < ret r → ret r = zlen bytes ∧ zlen bytes <= n
}.

(** An assumption about the clients, and not about the system calls: that they
    come in bursts. [burst] bounds the accepts and the reads that succeed from
    now on until the listener is back at [epoll_wait] and gets nothing more. The
    listener needs it, because its accept loop and its drain loop go on until
    [EAGAIN] and look at no stop token meanwhile; [flooded_for_ever] in
    [ListenerProperties.v] is what happens otherwise. There is no law for
    [sys_epoll_wait] and none for what the kernel does by itself: there the next
    burst may begin, of any size, and a run may accept and read for ever. *)
Class PosixBursts (W : Type) `{Posix W} := {
  burst : W → nat;
  accept_burst fd w :
    let '(r, _, w') := sys_accept fd w in
    if ret r <? 0 then (burst w' <= burst w)%nat else (burst w' < burst w)%nat;
  recv_burst fd n w :
    let '(r, _, w') := sys_recv fd n w in
    if 0 <? ret r then (burst w' < burst w)%nat else (burst w' <= burst w)%nat;
  getfl_burst fd w : (burst (sys_fcntl_getfl fd w).2 <= burst w)%nat;
  setfl_burst fd flags w : (burst (sys_fcntl_setfl fd flags w).2 <= burst w)%nat;
  ctl_add_burst ep fd ev w : (burst (sys_epoll_ctl_add ep fd ev w).2 <= burst w)%nat;
  ctl_del_burst ep fd w : (burst (sys_epoll_ctl_del ep fd w).2 <= burst w)%nat;
  read_event_burst fd w : (burst (sys_read_event fd w) <= burst w)%nat;
  close_burst fd w : (burst (sys_close fd w) <= burst w)%nat
}.

(** What the manual pages say about waiting: [watched] are the descriptors in
    the interest list of each epoll instance, [raised] the eventfds whose
    counter is not zero, and [epoll_ready] says that [epoll_wait] would return
    now. [kernel_moves] is what happens without a call of the process:
    connections and data arrive. *)
Class PosixWake (W : Type) `{PosixLaws W} := {
  watched : W → gset (Z * Z);
  raised : W → gset Z;
  epoll_ready : Z → W → Prop;
  kernel_moves : W → W → Prop;
  raised_ready ep fd w : (ep, fd) ∈ watched w → fd ∈ raised w → epoll_ready ep w;
  ctl_add_watches ep fd ev w :
    let '(r, w') := sys_epoll_ctl_add ep fd ev w in
    raised w' = raised w
    ∧ watched w' = if ret r <? 0 then watched w else {[(ep, fd)]} ∪ watched w;
  ctl_del_unwatches ep fd w :
    let '(_, w') := sys_epoll_ctl_del ep fd w in
    raised w' = raised w ∧ watched w ∖ {[(ep, fd)]} ⊆ watched w';
  write_event_raises fd w :
    raised (sys_write_event fd w) = {[fd]} ∪ raised w
    ∧ watched (sys_write_event fd w) = watched w;
  read_event_lowers fd w :
    raised w ∖ {[fd]} ⊆ raised (sys_read_event fd w)
    ∧ watched (sys_read_event fd w) = watched w;
  close_forgets fd w :
    raised w ∖ {[fd]} ⊆ raised (sys_close fd w)
    ∧ filter (λ x, x.1 ≠ fd ∧ x.2 ≠ fd) (watched w) ⊆ watched (sys_close fd w);
  accept_wake fd : keeps (λ w, (watched w, raised w)) (λ w, (sys_accept fd w).2);
  getfl_wake fd : keeps (λ w, (watched w, raised w)) (λ w, (sys_fcntl_getfl fd w).2);
  setfl_wake fd flags :
    keeps (λ w, (watched w, raised w)) (λ w, (sys_fcntl_setfl fd flags w).2);
  wait_wake ep n : keeps (λ w, (watched w, raised w)) (λ w, (sys_epoll_wait ep n w).2);
  recv_wake fd n : keeps (λ w, (watched w, raised w)) (λ w, (sys_recv fd n w).2);
  moves_wake w w' :
    kernel_moves w w' →
    open_fds w' = open_fds w ∧ watched w ⊆ watched w' ∧ raised w ⊆ raised w'
}.

(** ** What has come in *)

(** The bytes that [recv] has read from a descriptor, and that a descriptor has
    been taken off an interest list. *)
Inductive traffic := Read (fd : Z) (bytes : list byte) | Removed (fd : Z).

(** A kernel with its history: [transcript] are the reads and the removals so
    far, in order. [Recorder.v] equips any kernel with it. *)
Class PosixTrace (W : Type) `{PosixWake W} := {
  transcript : W → list traffic;
  recv_transcript fd n w :
    let '(r, bytes, w') := sys_recv fd n w in
    transcript w' = transcript w ++ (if 0 <? ret r then [Read fd bytes] else []);
  ctl_del_transcript ep fd w :
    transcript (sys_epoll_ctl_del ep fd w).2 = transcript w ++ [Removed fd];
  socket_transcript : keeps transcript (λ w, (sys_socket w).2);
  setsockopt_transcript fd : keeps transcript (λ w, (sys_setsockopt_reuseaddr fd w).2);
  getfl_transcript fd : keeps transcript (λ w, (sys_fcntl_getfl fd w).2);
  setfl_transcript fd flags : keeps transcript (λ w, (sys_fcntl_setfl fd flags w).2);
  bind_transcript fd port : keeps transcript (λ w, (sys_bind fd port w).2);
  listen_transcript fd : keeps transcript (λ w, (sys_listen fd w).2);
  epoll_create1_transcript : keeps transcript (λ w, (sys_epoll_create1 w).2);
  eventfd_transcript : keeps transcript (λ w, (sys_eventfd w).2);
  ctl_add_transcript ep fd ev : keeps transcript (λ w, (sys_epoll_ctl_add ep fd ev w).2);
  wait_transcript ep n : keeps transcript (λ w, (sys_epoll_wait ep n w).2);
  accept_transcript fd : keeps transcript (λ w, (sys_accept fd w).2);
  read_event_transcript fd : keeps transcript (sys_read_event fd);
  write_event_transcript fd : keeps transcript (sys_write_event fd);
  close_transcript fd : keeps transcript (sys_close fd);
  moves_transcript w w' : kernel_moves w w' → transcript w' = transcript w
}.

(** ** SocketHandle *)

Record SocketHandle := mkHandle { m_fd : Z }.

Section Handle.
Context {W : Type} `{Posix W}.

Definition empty_handle : SocketHandle := mkHandle (-1).

Definition get (h : SocketHandle) : Z := m_fd h.
Definition valid (h : SocketHandle) : bool := 0 <=? m_fd h.

(** [~SocketHandle()]. *)
Definition destroy (h : SocketHandle) (w : W) : W :=
  if 0 <=? m_fd h then sys_close (m_fd h) w else w.

(** [SocketHandle(SocketHandle&& other)]: the new handle and what is left of
    [other]. *)
Definition move_construct (other : SocketHandle) : SocketHandle * SocketHandle :=
  (mkHandle (m_fd other), mkHandle (-1)).

(** [reset(fd)]. *)
Definition reset (fd : Z) (h : SocketHandle) (w : W) : SocketHandle * W :=
  (mkHandle fd, if 0 <=? m_fd h then sys_close (m_fd h) w else w).

(** [this = std::move(other)] for two different objects, and for one. *)
Definition move_assign (this other : SocketHandle) (w : W)
  : SocketHandle * SocketHandle * W :=
  let '(this, w) := reset (m_fd other) this w in (this, mkHandle (-1), w).
Definition self_move_assign (this : SocketHandle) (w : W) : SocketHandle * W := (this, w).

(** [release()]. *)
Definition release (h : SocketHandle) : Z * SocketHandle := (m_fd h, mkHandle (-1)).

End Handle.
