(* ===== verification/Listener.v ===== *)
(** * NetworkListener (include/listener.h, src/listener.cpp)

    The epoll server: set-up of the server socket, the accept loop, the drain
    loop of a client, disconnection and the event loop, over the system calls
    of [Posix.v]. The loops end when the system calls say so, so they take
    fuel; [ListenerCorrect.v] says how much is enough. *)

From S2P Require Import Prelude Telemetry ThreadSafeQueue Posix.

Module Listener.

(** ** State *)

Record NetworkListener := mkListener {
  m_port : Z;
  m_queue : ThreadSafeQueue DataChunk;
  m_log_queue : ThreadSafeQueue string;
  m_server_fd : SocketHandle;
  m_epoll_fd : SocketHandle;
  m_event_fd : SocketHandle;
  m_clients : gmap Z SocketHandle;
  m_recv_buf : list byte
}.

Definition MAX_EPOLL_EVENTS : Z := 64.
Definition RECV_BUF_SIZE : Z := 4096.

(** [NetworkListener(port, queue, log_queue)]. *)
Definition new_listener (port : Z) (queue : ThreadSafeQueue DataChunk)
    (log : ThreadSafeQueue string) : NetworkListener :=
  mkListener port queue log empty_handle empty_handle empty_handle ∅
    (replicate (Z.to_nat RECV_BUF_SIZE) x00).

Definition set_queue (q : ThreadSafeQueue DataChunk) (l : NetworkListener) :=
  mkListener (m_port l) q (m_log_queue l) (m_server_fd l) (m_epoll_fd l) (m_event_fd l)
    (m_clients l) (m_recv_buf l).
Definition set_log_queue (q : ThreadSafeQueue string) (l : NetworkListener) :=
  mkListener (m_port l) (m_queue l) q (m_server_fd l) (m_epoll_fd l) (m_event_fd l)
    (m_clients l) (m_recv_buf l).
Definition set_server_fd (h : SocketHandle) (l : NetworkListener) :=
  mkListener (m_port l) (m_queue l) (m_log_queue l) h (m_epoll_fd l) (m_event_fd l)
    (m_clients l) (m_recv_buf l).
Definition set_epoll_fd (h : SocketHandle) (l : NetworkListener) :=
  mkListener (m_port l) (m_queue l) (m_log_queue l) (m_server_fd l) h (m_event_fd l)
    (m_clients l) (m_recv_buf l).
Definition set_event_fd (h : SocketHandle) (l : NetworkListener) :=
  mkListener (m_port l) (m_queue l) (m_log_queue l) (m_server_fd l) (m_epoll_fd l) h
    (m_clients l) (m_recv_buf l).
Definition set_clients (cs : gmap Z SocketHandle) (l : NetworkListener) :=
  mkListener (m_port l) (m_queue l) (m_log_queue l) (m_server_fd l) (m_epoll_fd l)
    (m_event_fd l) cs (m_recv_buf l).
Definition set_recv_buf (b : list byte) (l : NetworkListener) :=
  mkListener (m_port l) (m_queue l) (m_log_queue l) (m_server_fd l) (m_epoll_fd l)
    (m_event_fd l) (m_clients l) b.

Section Listening.
Context {W : Type} `{Posix W}.

(** The listener and the rest of the world. *)
Definition Listening : Type := NetworkListener * W.

#[export] Instance queue_ref : HasQueue Listening DataChunk :=
  {| queue_of s := m_queue s.1; ThreadSafeQueue.set_queue q s := (set_queue q s.1, s.2) |}.
#[export] Instance log_ref : HasQueue Listening string :=
  {| queue_of s := m_log_queue s.1;
     ThreadSafeQueue.set_queue q s := (set_log_queue q s.1, s.2) |}.

Definition push_log (text : string) : M Listening unit := push_to text.
Definition push_chunk (chunk : DataChunk) : M Listening unit := push_to chunk.

Definition self : M Listening NetworkListener := gets fst.
Definition modify_self (f : NetworkListener → NetworkListener) : M Listening unit :=
  modify (λ s, (f s.1, s.2)).

(** A system call, and one whose result is ignored. *)
Definition sys {A} (f : W → A * W) : M Listening A := λ s,
  let '(a, w) := f s.2 in (Ok a, (s.1, w)).
Definition sys_ (f : W → W) : M Listening unit := modify (λ s, (s.1, f s.2)).

(** ** Texts *)

Definition prefix : string := "[NetworkListener] ".

Definition listening_text (port : Z) : string :=
  prefix +:+ "Listening on port " +:+ to_string port +:+ newline.
Definition accept_error_text (errno : Z) : string :=
  prefix +:+ "accept() error: " +:+ strerror errno +:+ newline.

(** [e.what()] of a [std::system_error]: the argument of its constructor, and
    the message of the error code. *)
Definition system_what (code : Z) (what_arg : string) : string :=
  what_arg +:+ ": " +:+ strerror code.

Definition nonblocking_text (fd code : Z) (what_arg : string) : string :=
  prefix +:+ "set_nonblocking failed for client fd=" +:+ to_string fd +:+ ": "
  +:+ system_what code what_arg +:+ newline.
Definition ctl_error_text (errno : Z) : string :=
  prefix +:+ "epoll_ctl add client failed: " +:+ strerror errno +:+ newline.
Definition connected_text (fd : Z) (addr : string) : string :=
  prefix +:+ "Client connected (fd=" +:+ to_string fd +:+ ", addr=" +:+ addr +:+ ")"
  +:+ newline.
Definition recv_error_text (fd errno : Z) : string :=
  prefix +:+ "recv() error on fd " +:+ to_string fd +:+ ": " +:+ strerror errno +:+ newline.
Definition disconnected_text (fd : Z) : string :=
  prefix +:+ "Client disconnected (fd=" +:+ to_string fd +:+ ")" +:+ newline.
Definition wait_error_text (errno : Z) : string :=
  prefix +:+ "epoll_wait error: " +:+ strerror errno +:+ newline.
Definition shutdown_text : string :=
  prefix +:+ "Shutdown event received. Shutting down..." +:+ newline.

(** ** Set-up *)

Definition set_nonblocking (fd : Z) : M Listening unit :=
  flags ← sys (sys_fcntl_getfl fd);
  if ret flags <? 0 then throw (System_error (errno flags) "fcntl F_GETFL failed")
  else
    r ← sys (sys_fcntl_setfl fd (Z.lor (ret flags) O_NONBLOCK));
    if ret r <? 0 then throw (System_error (errno r) "fcntl F_SETFL O_NONBLOCK failed")
    else mret tt.

(** [m_xxx_fd.reset(fd)]. *)
Definition reset_member (get_member : NetworkListener → SocketHandle)
    (set_member : SocketHandle → NetworkListener → NetworkListener) (fd : Z)
  : M Listening unit := λ s,
  let '(h, w) := reset fd (get_member s.1) s.2 in (Ok tt, (set_member h s.1, w)).

Definition bind_what (port : Z) : string := "Failed to bind on port " +:+ to_string port.

Definition setup_server_socket : M Listening unit :=
  server_socket ← sys sys_socket;
  if ret server_socket <? 0
  then throw (System_error (errno server_socket) "Failed to create socket")
  else
    reset_member m_server_fd set_server_fd (ret server_socket);;
    l ← self;
    r ← sys (sys_setsockopt_reuseaddr (get (m_server_fd l)));
    if ret r <? 0 then throw (System_error (errno r) "setsockopt SO_REUSEADDR failed")
    else
      set_nonblocking (get (m_server_fd l));;
      r ← sys (sys_bind (get (m_server_fd l)) (m_port l));
      if ret r <? 0 then throw (System_error (errno r) (bind_what (m_port l)))
      else
        r ← sys (sys_listen (get (m_server_fd l)));
        if ret r <? 0 then throw (System_error (errno r) "Failed to listen")
        else push_log (listening_text (m_port l)).

Definition setup_epoll : M Listening unit :=
  epoll_instance ← sys sys_epoll_create1;
  if ret epoll_instance <? 0
  then throw (System_error (errno epoll_instance) "epoll_create1 failed")
  else
    reset_member m_epoll_fd set_epoll_fd (ret epoll_instance);;
    shutdown_fd ← sys sys_eventfd;
    if ret shutdown_fd <? 0 then throw (System_error (errno shutdown_fd) "eventfd failed")
    else
      reset_member m_event_fd set_event_fd (ret shutdown_fd);;
      l ← self;
      r ← sys (sys_epoll_ctl_add (get (m_epoll_fd l)) (get (m_server_fd l)) EPOLLIN);
      if ret r <? 0 then throw (System_error (errno r) "epoll_ctl add server_fd failed")
      else
        r ← sys (sys_epoll_ctl_add (get (m_epoll_fd l)) (get (m_event_fd l)) EPOLLIN);
        if ret r <? 0 then throw (System_error (errno r) "epoll_ctl add event_fd failed")
        else mret tt.

(** ** Connections *)

(** The end of a local handle's life. *)
Definition destroy_handle (h : SocketHandle) : M Listening unit := sys_ (destroy h).

(** [m_clients.emplace(key, std::move(handle))]: the node takes the handle
    over; when the key is taken, the node is destroyed with it. *)
Definition emplace_client (key : Z) (handle : SocketHandle) : M Listening SocketHandle :=
  let '(node, handle) := move_construct handle in
  l ← self;
  (match m_clients l !! key with
   | None => modify_self (set_clients (<[key := node]> (m_clients l)))
   | Some _ => destroy_handle node
   end);;
  mret handle.

(** One iteration of the accept loop. *)
Definition accept_step : M Listening control :=
  l ← self;
  '(raw_fd, addr_str) ← sys (sys_accept (get (m_server_fd l)));
  if ret raw_fd <? 0 then
    if (errno raw_fd =? EAGAIN) || (errno raw_fd =? EWOULDBLOCK) then mret Break
    else push_log (accept_error_text (errno raw_fd));; mret Break
  else
    let client_handle := mkHandle (ret raw_fd) in
    nonblocking ← try_catch (set_nonblocking (get client_handle);; mret true)
      (λ e, match e with
            | System_error code what_arg =>
                Some (push_log (nonblocking_text (get client_handle) code what_arg);;
                      mret false)
            | _ => None
            end);
    if negb nonblocking then destroy_handle client_handle;; mret Continue
    else
      r ← sys (sys_epoll_ctl_add (get (m_epoll_fd l)) (get client_handle)
                 (Z.lor EPOLLIN EPOLLET));
      if ret r <? 0 then
        push_log (ctl_error_text (errno r));;
        destroy_handle client_handle;; mret Continue
      else
        push_log (connected_text (get client_handle) addr_str);;
        let fd_key := get client_handle in
        client_handle ← emplace_client fd_key client_handle;
        destroy_handle client_handle;; mret Continue.

Definition handle_accept (fuel : nat) : M Listening unit := while_true fuel accept_step.

(** ** Data *)

(** [recv] into [m_recv_buf]. *)
Definition recv (client_fd : Z) : M Listening sysret :=
  l ← self;
  '(bytes_received, bytes) ← sys (sys_recv client_fd (zlen (m_recv_buf l)));
  let stored := take (Z.to_nat (ret bytes_received)) bytes in
  modify_self (set_recv_buf (stored ++ drop (length stored) (m_recv_buf l)));;
  mret bytes_received.

(** One iteration of the drain loop: the value it returns, if it does. *)
Definition drain_step (client_fd : Z) : M Listening (option bool) :=
  bytes_received ← recv client_fd;
  if 0 <? ret bytes_received then
    l ← self;
    let chunk_data := take (Z.to_nat (ret bytes_received)) (m_recv_buf l) in
    push_chunk (mkDataChunk client_fd chunk_data);; mret None
  else if ret bytes_received =? 0 then mret (Some false)
  else if (errno bytes_received =? EAGAIN) || (errno bytes_received =? EWOULDBLOCK)
  then mret (Some true)
  else
    push_log (recv_error_text client_fd (errno bytes_received));;
    mret (Some false).

Definition handle_client_data (fuel : nat) (client_fd : Z) : M Listening bool :=
  loop_return fuel (drain_step client_fd).

(** [m_clients.erase(fd)]: the erased node's handle is destroyed. *)
Definition erase_client (client_fd : Z) : M Listening unit :=
  l ← self;
  match m_clients l !! client_fd with
  | Some handle =>
      modify_self (set_clients (delete client_fd (m_clients l)));; destroy_handle handle
  | None => mret tt
  end.

Definition disconnect_client (client_fd : Z) : M Listening unit :=
  l ← self;
  _ ← sys (sys_epoll_ctl_del (get (m_epoll_fd l)) client_fd);
  erase_client client_fd;;
  push_chunk (mkDataChunk client_fd []);;
  push_log (disconnected_text client_fd).

(** ** Events *)

(** One event; [Break] when [run] returns. *)
Definition dispatch (fuel : nat) (event : Z * Z) : M Listening control :=
  let '(source_fd, ev_flags) := event in
  l ← self;
  if source_fd =? get (m_event_fd l) then
    sys_ (sys_read_event (get (m_event_fd l)));;
    push_log shutdown_text;;
    mret Break
  else if source_fd =? get (m_server_fd l) then handle_accept fuel;; mret Continue
  else if negb (Z.land ev_flags (Z.lor EPOLLERR EPOLLHUP) =? 0) then
    disconnect_client source_fd;; mret Continue
  else if negb (Z.land ev_flags EPOLLIN =? 0) then
    alive ← handle_client_data fuel source_fd;
    (if negb alive then disconnect_client source_fd else mret tt);; mret Continue
  else mret Continue.

Fixpoint dispatch_all (fuel : nat) (events : list (Z * Z)) : M Listening control :=
  match events with
  | [] => mret Continue
  | e :: events =>
      c ← dispatch fuel e;
      match c with Continue => dispatch_all fuel events | Break => mret Break end
  end.

(** One iteration of the event loop. *)
Definition event_step (fuel : nat) (stop_requested : bool) : M Listening control :=
  if stop_requested then mret Break
  else
    l ← self;
    '(ready_count, events) ← sys (sys_epoll_wait (get (m_epoll_fd l)) MAX_EPOLL_EVENTS);
    if ret ready_count <? 0 then
      if errno ready_count =? EINTR then mret Continue
      else push_log (wait_error_text (errno ready_count));; mret Break
    else dispatch_all fuel (take (Z.to_nat (ret ready_count)) events).

(** The event loop; [stops] is what the stop token answers at each iteration. *)
Fixpoint event_loop (fuel : nat) (stops : list bool) : M Listening bool :=
  match stops with
  | [] => mret false
  | stop_requested :: stops =>
      c ← event_step fuel stop_requested;
      match c with Continue => event_loop fuel stops | Break => mret true end
  end.

(** The stop callback; it runs when the stop is requested, which may be before
    [run] registers it. *)
Definition shutdown_waker : M Listening unit :=
  l ← self; sys_ (sys_write_event (get (m_event_fd l))).

Definition run (fuel : nat) (stopped_already : bool) (stops : list bool) : M Listening bool :=
  setup_server_socket;;
  setup_epoll;;
  (if stopped_already then shutdown_waker else mret tt);;
  event_loop fuel stops.

(** [~NetworkListener()]: the members are destroyed last to first. *)
Definition destroy_listener (l : NetworkListener) (w : W) : W :=
  let w := foldl (λ w h, destroy h w) w (map snd (map_to_list (m_clients l))) in
  destroy (m_server_fd l) (destroy (m_epoll_fd l) (destroy (m_event_fd l) w)).

End Listening.
End Listener.
