(* ===== verification/ListenerWalk.v ===== *)
(** * Relations that the listener's code preserves

    A relation on the listener and the world is preserved by an operation when
    its system calls and its changes of the listener's members preserve it. The
    rest of the walk through the code is the same for every relation, and is
    here: [ListenerCorrect.v], [ListenerWake.v], [ListenerChunks.v] and
    [ListenerTrace.v] each apply it to a relation of theirs. *)

From S2P Require Import Prelude Telemetry ThreadSafeQueue Posix Triples Listener.

Import Listener.

(** A line of the listener's in the log. *)
Definition own_line (text : string) : Prop := ∃ rest, text = (prefix +:+ rest)%string.

#[export] Hint Extern 0 (own_line _) => (eexists; reflexivity) : preserves.

Section Walk.
Context {W : Type} `{Posix W}.
Context (R : Listening (W:=W) → Listening (W:=W) → Prop) `{!PreOrder R}.

(** ** Statements *)

(** A system call preserves the relation as far as the world goes. *)
Definition harmless (f : W → W) : Prop := ∀ l w, R (l, w) (l, f w).

Lemma preserves_self : preserves R self.
Proof. apply (preserves_gets R). Qed.

Lemma preserves_sys {A} (f : W → A * W) : harmless (λ w, (f w).2) → preserves R (sys f).
Proof. intros Hf [l w]. specialize (Hf l w). unfold sys. simpl in *. by destruct (f w). Qed.

Lemma preserves_sys_ (f : W → W) : harmless f → preserves R (sys_ f).
Proof. intros Hf [l w]. apply Hf. Qed.

Lemma preserves_modify_self f : (∀ l w, R (l, w) (f l, w)) → preserves R (modify_self f).
Proof. intros Hf [l w]. apply Hf. Qed.

(** A push changes the queue and nothing else. *)
Lemma preserves_push {T} `{HasQueue Listening T} (item : T) :
  (∀ q s, R s (ThreadSafeQueue.set_queue q s)) → preserves R (push_to item).
Proof.
  intros Hset s. unfold push_to, push_default. mrun.
  destruct (push item false false (queue_of s)) as [[b q]| | | |]; try done. apply Hset.
Qed.

Lemma preserves_push_log text :
  (∀ q l w, R (l, w) (set_log_queue q l, w)) → preserves R (push_log text).
Proof. intros Hset. apply preserves_push. intros q [l w]. apply Hset. Qed.

Lemma preserves_push_chunk chunk :
  (∀ q l w, R (l, w) (set_queue q l, w)) → preserves R (push_chunk chunk).
Proof. intros Hset. apply preserves_push. intros q [l w]. apply Hset. Qed.

Lemma preserves_destroy h : (∀ fd, harmless (sys_close fd)) → preserves R (destroy_handle h).
Proof.
  intros Hc. apply preserves_sys_. intros l w. unfold destroy.
  destruct (0 <=? m_fd h); [apply Hc|done].
Qed.

Lemma preserves_reset get_member set_member fd :
  (∀ fd, harmless (sys_close fd)) → (∀ h l w, R (l, w) (set_member h l, w)) →
  preserves R (reset_member get_member set_member fd).
Proof.
  intros Hc Hset [l w]. unfold reset_member, reset. cbn [fst snd].
  destruct (0 <=? m_fd (get_member l)); [|apply Hset].
  etransitivity; [exact (Hc (m_fd (get_member l)) l w)|apply Hset].
Qed.

(** ** Operations *)

#[local] Hint Resolve preserves_self : preserves.

Lemma preserves_set_nonblocking fd :
  harmless (λ w, (sys_fcntl_getfl fd w).2) →
  (∀ flags, harmless (λ w, (sys_fcntl_setfl fd flags w).2)) → preserves R (set_nonblocking fd).
Proof.
  intros Hg Hs. unfold set_nonblocking. preserves_first; [by apply preserves_sys|].
  intros flags. destruct (ret flags <? 0); [preserving|].
  preserves_first; [by apply preserves_sys|]. preserving.
Qed.

(** What [accept_step] does with a new descriptor. *)
Lemma preserves_admit fd addr epoll (rest : M (Listening (W:=W)) control) :
  let client_handle := mkHandle fd in
  preserves R (set_nonblocking fd) →
  harmless (λ w, (sys_epoll_ctl_add epoll fd (Z.lor EPOLLIN EPOLLET) w).2) →
  (∀ text, own_line text → preserves R (push_log text)) →
  preserves R (destroy_handle client_handle) →
  preserves R rest →
  preserves R (
    nonblocking ← try_catch (set_nonblocking (get client_handle);; mret true)
      (λ e, match e with
            | System_error code what_arg =>
                Some (push_log (nonblocking_text (get client_handle) code what_arg);;
                      mret false)
            | _ => None
            end);
    if negb nonblocking then destroy_handle client_handle;; mret Continue
    else
      r ← sys (sys_epoll_ctl_add epoll (get client_handle) (Z.lor EPOLLIN EPOLLET));
      if ret r <? 0 then
        push_log (ctl_error_text (errno r));; destroy_handle client_handle;; mret Continue
      else push_log (connected_text (get client_handle) addr);; rest).
Proof.
  cbv zeta. cbn [get m_fd]. intros Hn Ha Hp Hd Hr. preserves_first.
  - apply preserves_try; [apply _|preserving|]. intros [] handler; intros [= <-]. preserving.
  - intros nonblocking. destruct (negb nonblocking); [preserving|].
    preserves_first; [by apply preserves_sys|]. preserving.
Qed.

Lemma preserves_emplace key h :
  (∀ cs l w, R (l, w) (set_clients cs l, w)) → (∀ h, preserves R (destroy_handle h)) →
  preserves R (emplace_client key h).
Proof.
  intros Hc Hd. unfold emplace_client, move_construct.
  pose proof (λ f, preserves_modify_self (λ l, set_clients (f l) l) (λ l w, Hc _ l w)) as Hm.
  preserves_first; [preserving|]. intros l. preserves_first; [|preserving].
  destruct (m_clients l !! key); [apply Hd|]. by apply preserves_modify_self.
Qed.

Lemma preserves_erase_client fd :
  (∀ cs l w, R (l, w) (set_clients cs l, w)) → (∀ h, preserves R (destroy_handle h)) →
  preserves R (erase_client fd).
Proof.
  intros Hc Hd. unfold erase_client. preserves_first; [preserving|]. intros l.
  destruct (m_clients l !! fd) as [h|]; [|preserving].
  preserves_first; [by apply preserves_modify_self|]. intros _. apply Hd.
Qed.

(** ** Events *)

Section Events.
Hypothesis read_event_harmless : ∀ fd, harmless (sys_read_event fd).
Hypothesis wait_harmless : ∀ ep n, harmless (λ w, (sys_epoll_wait ep n w).2).
Hypothesis log_preserves : ∀ text, own_line text → preserves R (push_log text).
Hypothesis accept_preserves : preserves R accept_step.
Hypothesis drain_preserves : ∀ fd, preserves R (drain_step fd).
Hypothesis disconnect_preserves : ∀ fd, preserves R (disconnect_client fd).

Lemma preserves_dispatch fuel event : preserves R (dispatch fuel event).
Proof.
  destruct event as [source_fd flags]. unfold dispatch, handle_accept, handle_client_data.
  pose proof (λ fd, preserves_sys_ _ (read_event_harmless fd)) as Hread.
  preserving.
Qed.

Lemma preserves_dispatch_all fuel events : preserves R (dispatch_all fuel events).
Proof.
  pose proof (preserves_dispatch fuel) as Hd.
  induction events as [|e events IH]; [preserving|]. cbn [dispatch_all]. preserving.
Qed.

Lemma preserves_event_step fuel stop : preserves R (event_step fuel stop).
Proof.
  pose proof (λ ep n, preserves_sys _ (wait_harmless ep n)) as Hw.
  pose proof (preserves_dispatch_all fuel) as Hd. unfold event_step. preserving.
Qed.

End Events.
End Walk.

#[export] Hint Resolve preserves_self : preserves.
