(* ===== verification/ListenerLines.v ===== *)
(** * The lines the listener logs

    Every message that the listener queues for the logger begins with its name,
    whatever the system calls answer. *)

From S2P Require Import Prelude Telemetry ThreadSafeQueue Posix Triples Listener ListenerWalk.

Import Listener.

Section Lines.
Context {W : Type} `{Posix W}.
Implicit Types (s : Listening (W:=W)) (l : NetworkListener) (w : W).

Definition own_lines l : Prop := Forall own_line (ThreadSafeQueue.m_queue (m_log_queue l)).

Definition stays_own s s' : Prop := own_lines s.1 → own_lines s'.1.

#[export] Instance stays_own_preorder : PreOrder stays_own.
Proof. unfold stays_own. split; [by intros s|]. intros s1 s2 s3. tauto. Qed.

Abbreviation signs := (preserves stays_own).

Lemma signs_world (f : W → W) : harmless stays_own f.
Proof. intros l w Hl. exact Hl. Qed.

Lemma signs_member (f : NetworkListener → NetworkListener) l w :
  m_log_queue (f l) = m_log_queue l → stays_own (l, w) (f l, w).
Proof. intros E. unfold stays_own, own_lines. simpl. by rewrite E. Qed.

Lemma signs_push_log text : own_line text → signs (push_log text).
Proof.
  intros Ht [l w] Hl. unfold push_log, push_to, push_default, push, wait, own_lines in *. mrun.
  destruct (0 <? _); [destruct (zlen _ <? _)|]; cbn; try done; apply Forall_app;
    (split; [done|by constructor]).
Qed.

Lemma signs_push_chunk chunk : signs (push_chunk chunk).
Proof. apply preserves_push_chunk; [apply _|]. intros q l w. by apply signs_member. Qed.

Lemma signs_set_nonblocking fd : signs (set_nonblocking fd).
Proof. apply preserves_set_nonblocking; [apply _|..]; intros; apply signs_world. Qed.

Lemma signs_destroy h : signs (destroy_handle h).
Proof. apply preserves_destroy; [apply _|]. intros. apply signs_world. Qed.

#[local] Hint Resolve signs_push_log signs_push_chunk signs_set_nonblocking signs_destroy : preserves.
#[local] Hint Extern 1 (signs (sys _)) => (apply preserves_sys, signs_world) : preserves.
#[local] Hint Extern 1 (signs (sys_ _)) => (apply preserves_sys_, signs_world) : preserves.
#[local] Hint Extern 1 (signs (reset_member _ _ _)) =>
  (by apply preserves_reset; [apply _|intros; apply signs_world|intros; apply signs_member]) : preserves.
#[local] Hint Extern 1 (signs (modify_self _)) =>
  (by apply preserves_modify_self; intros; apply signs_member) : preserves.

Lemma signs_setup_server_socket : signs setup_server_socket.
Proof. unfold setup_server_socket. preserving. Qed.

Lemma signs_setup_epoll : signs setup_epoll.
Proof. unfold setup_epoll. preserving. Qed.

Lemma signs_accept_step : signs accept_step.
Proof.
  unfold accept_step. preserves_first; [preserving|]. intros l.
  preserves_first; [preserving|]. intros [r addr]. destruct (ret r <? 0); [preserving|].
  apply preserves_admit; [apply _|apply signs_set_nonblocking|apply signs_world|apply signs_push_log
    |apply signs_destroy|].
  preserves_first; [|preserving].
  apply preserves_emplace; [apply _|intros; by apply signs_member|apply signs_destroy].
Qed.

Lemma signs_drain_step fd : signs (drain_step fd).
Proof.
  unfold drain_step. preserves_first; [|preserving]. unfold recv.
  preserves_first; [preserving|]. intros l. preserves_first; [preserving|].
  intros [r bytes]. preserving.
Qed.

Lemma signs_disconnect fd : signs (disconnect_client fd).
Proof.
  unfold disconnect_client. preserves_first; [preserving|]. intros l.
  preserves_first; [preserving|]. intros _. preserves_first; [|preserving].
  apply preserves_erase_client; [apply _|intros; by apply signs_member|apply signs_destroy].
Qed.

Lemma signs_event_step fuel stop : signs (event_step fuel stop).
Proof.
  apply preserves_event_step; [apply _|intros; apply signs_world..|apply signs_push_log
    |apply signs_accept_step|apply signs_drain_step|apply signs_disconnect].
Qed.

Lemma signs_waker : signs shutdown_waker.
Proof. unfold shutdown_waker. preserving. Qed.

End Lines.
