(* ===== verification/ListenerOwnership.v ===== *)
(** * The listener owns its descriptors

    The invariant that ties the listener's handles to the descriptors the
    process has open: each one the listener opened is held by exactly one
    handle, and those of the rest of the process are not touched. Every
    operation keeps it, exceptions included, for any behaviour of the kernel
    that satisfies [PosixLaws]. *)

From S2P Require Import Prelude Telemetry ThreadSafeQueue Posix Triples Listener.

Import Listener.

#[local] Set Warnings "-clear-no-such-hyp".

Definition handle_fd (h : SocketHandle) : gset Z :=
  if 0 <=? m_fd h then {[m_fd h]} else ∅.

(** ** The sets of descriptors *)

(** [O] is open; [B] is the rest of the process's, and the server socket, the
    epoll instance, the eventfd and the clients hold [S], [E], [V] and [C]. *)
Record layout (O B S E V C : gset Z) : Prop := {
  lay_open : O = B ∪ (S ∪ E ∪ V ∪ C);
  lay_base : B ## S ∪ E ∪ V ∪ C;
  lay_epoll : S ## E;
  lay_event : S ∪ E ## V;
  lay_clients : S ∪ E ∪ V ## C
}.

Section Layout.
Implicit Types (O B S E V C : gset Z) (fd : Z).

Ltac layout_solver :=
  split; try (apply set_eq; intros ?); set_unfold; naive_solver.

(** A new descriptor belongs to the rest for the moment. *)
Lemma layout_open O B S E V C fd :
  layout O B S E V C → fd ∉ O → layout ({[fd]} ∪ O) ({[fd]} ∪ B) S E V C.
Proof. intros [-> ? ? ? ?] ?. layout_solver. Qed.

Lemma layout_close O B S E V C fd :
  layout O ({[fd]} ∪ B) S E V C → fd ∉ B → layout (O ∖ {[fd]}) B S E V C.
Proof. intros [-> ? ? ? ?] ?. layout_solver. Qed.

Lemma layout_server O B S E V C fd :
  layout O ({[fd]} ∪ B) S E V C → fd ∉ B → layout (O ∖ S) B {[fd]} E V C.
Proof. intros [-> ? ? ? ?] ?. layout_solver. Qed.

Lemma layout_epoll O B S E V C fd :
  layout O ({[fd]} ∪ B) S E V C → fd ∉ B → layout (O ∖ E) B S {[fd]} V C.
Proof. intros [-> ? ? ? ?] ?. layout_solver. Qed.

Lemma layout_event O B S E V C fd :
  layout O ({[fd]} ∪ B) S E V C → fd ∉ B → layout (O ∖ V) B S E {[fd]} C.
Proof. intros [-> ? ? ? ?] ?. layout_solver. Qed.

Lemma layout_insert O B S E V C fd :
  layout O ({[fd]} ∪ B) S E V C → fd ∉ B → layout O B S E V ({[fd]} ∪ C).
Proof. intros [-> ? ? ? ?] ?. layout_solver. Qed.

Lemma layout_delete O B S E V C fd :
  layout O B S E V C → fd ∈ C → layout (O ∖ {[fd]}) B S E V (C ∖ {[fd]}).
Proof.
  intros [-> ? ? ? ?] ?. split; try (apply set_eq; intros x; destruct (decide (x = fd)));
    set_unfold; naive_solver.
Qed.

Lemma layout_fresh O B S E V C fd : layout O ({[fd]} ∪ B) S E V C → fd ∉ C.
Proof. intros [-> ? ? ? ?] ?. set_unfold. naive_solver. Qed.

End Layout.

(** ** The invariant *)

Section Ownership.
Context {W : Type} `{PosixLaws W}.
Implicit Types (s : Listening (W:=W)) (l : NetworkListener) (w : W) (base : gset Z).

Definition layout_of base s : Prop :=
  layout (open_fds s.2) base (handle_fd (m_server_fd s.1)) (handle_fd (m_epoll_fd s.1))
    (handle_fd (m_event_fd s.1)) (dom (m_clients s.1)).

Record owns base s : Prop := {
  own_layout : layout_of base s;
  own_clients : map_Forall (λ fd h, m_fd h = fd ∧ 0 <= fd) (m_clients s.1);
  own_queues : m_max_size (m_queue s.1) = 0 ∧ m_max_size (m_log_queue s.1) = 0
}.

(** Keeping the invariant, even when an exception is thrown or a loop cut off. *)
Definition safe {A} base (m : M Listening A) s : Prop :=
  runs m s (λ _ s', owns base s') (λ _ s', owns base s').

(** The same without an exception. *)
Definition quiet {A} base (m : M Listening A) s : Prop :=
  runs m s (λ _ s', owns base s') (λ e s', e = None ∧ owns base s').

Lemma quiet_safe {A} base (m : M Listening A) s : quiet base m s → safe base m s.
Proof. intros Hq. eapply runs_consequence; [exact Hq|done|]. by intros e s' []. Qed.

(** The same without a loop. *)
Definition loopless {A} base (m : M Listening A) s : Prop :=
  runs m s (λ _ s', owns base s') (λ e s', e ≠ None ∧ owns base s').

Lemma loopless_safe {A} base (m : M Listening A) s : loopless base m s → safe base m s.
Proof. intros Hq. eapply runs_consequence; [exact Hq|done|]. by intros e s' []. Qed.

(** ** Pieces *)

Lemma open_destroy h (w : W) : open_fds (destroy h w) = open_fds w ∖ handle_fd h.
Proof.
  unfold destroy, handle_fd. destruct (0 <=? m_fd h); [apply close_closes|].
  by rewrite difference_empty_L.
Qed.

Lemma handle_fd_valid fd : 0 <= fd → handle_fd (mkHandle fd) = {[fd]}.
Proof. intros Hf. unfold handle_fd. simpl. by ztrue. Qed.

Lemma owns_world base l w w' : owns base (l, w) → open_fds w' = open_fds w → owns base (l, w').
Proof. intros [Hl Hc Hq] Hw. split; try done. unfold layout_of in *. simpl in *. by rewrite Hw. Qed.

Lemma push_log_safe base s text R :
  owns base s → runs (push_log text) s (λ _ s', owns base s') R.
Proof.
  intros [Hl Hc [Hq Hu]]. unfold runs, push_log.
  pose proof (push_to_ok text s) as E. rewrite (E Hu). by split.
Qed.

Lemma push_chunk_safe base s chunk R :
  owns base s → runs (push_chunk chunk) s (λ _ s', owns base s') R.
Proof.
  intros [Hl Hc [Hq Hu]]. unfold runs, push_chunk.
  pose proof (push_to_ok chunk s) as E. rewrite (E Hq). by split.
Qed.

Lemma sys_safe {A} base s (f : W → A * W) R :
  keeps open_fds (λ w, (f w).2) → owns base s →
  runs (sys f) s (λ _ s', owns base s') R.
Proof.
  intros Hk Ho. unfold runs, sys. destruct s as [l w]. specialize (Hk w). simpl in *.
  destruct (f w) as [a w']. by eapply owns_world.
Qed.

Lemma sys__safe base s (f : W → W) R :
  keeps open_fds f → owns base s → runs (sys_ f) s (λ _ s', owns base s') R.
Proof. intros Hk Ho. destruct s as [l w]. by eapply owns_world. Qed.

(** A call that opens a descriptor hands it to the rest for the moment. *)
Definition opened base (r : sysret) s : Prop :=
  if ret r <? 0 then owns base s
  else 0 <= ret r ∧ (ret r ∉ base) ∧ owns ({[ret r]} ∪ base) s.

Lemma opens_owned base l w r w' :
  owns base (l, w) →
  (0 <= ret r ∧ (ret r ∉ open_fds w) ∧ open_fds w' = {[ret r]} ∪ open_fds w)
  ∨ (ret r < 0 ∧ open_fds w' = open_fds w) →
  opened base r (l, w').
Proof.
  intros Ho Hr. unfold opened. destruct Hr as [(Hp & Hn & Hw)|[Hp Hw]].
  - ztrue. destruct Ho as [Hl Hc Hq]. unfold layout_of in Hl. simpl in *.
    split; [done|]. split.
    + rewrite (lay_open _ _ _ _ _ _ Hl) in Hn. by apply not_elem_of_union in Hn as [? _].
    + split; try done. unfold layout_of. simpl. rewrite Hw. by apply layout_open.
  - ztrue. by eapply owns_world.
Qed.

Lemma sys_opens base s (f : W → sysret * W) R :
  opens open_fds f → owns base s → runs (sys f) s (opened base) R.
Proof.
  intros Hf Ho. unfold runs, sys. destruct s as [l w]. specialize (Hf w). simpl in *.
  destruct (f w) as [r w']. by eapply opens_owned.
Qed.

(** ** Handing descriptors over *)

(** A local handle dies: its descriptor is closed. *)
Lemma destroy_handle_safe base s fd R :
  0 <= fd → fd ∉ base → owns ({[fd]} ∪ base) s →
  runs (destroy_handle (mkHandle fd)) s (λ _ s', owns base s') R.
Proof.
  intros Hf Hn [Hl Hc Hq]. destruct s as [l w].
  unfold destroy_handle, sys_, runs, modify. split; try done. unfold layout_of in *. simpl in *.
  rewrite open_destroy, handle_fd_valid by done. by apply layout_close.
Qed.

Lemma destroy_empty_safe base s R :
  owns base s → runs (destroy_handle (mkHandle (-1))) s (λ _ s', owns base s') R.
Proof. intros Ho. by destruct s. Qed.

(** A member takes it over, and what the member held is closed. *)
Lemma reset_member_safe base s fd R get_member set_member :
  (get_member, set_member) ∈ [(m_server_fd, set_server_fd); (m_epoll_fd, set_epoll_fd);
                              (m_event_fd, set_event_fd)] →
  0 <= fd → fd ∉ base → owns ({[fd]} ∪ base) s →
  runs (reset_member get_member set_member fd) s (λ _ s', owns base s') R.
Proof.
  intros Hin Hf Hn [Hl Hc Hq]. destruct s as [l w].
  unfold reset_member, reset, runs. simpl in *.
  fold (destroy (get_member l) w). unfold layout_of in Hl. simpl in Hl.
  rewrite !elem_of_cons in Hin.
  destruct Hin as [[= -> ->]|[[= -> ->]|[[= -> ->]|[]%not_elem_of_nil]]];
    (split; [|done|done]); unfold layout_of; simpl;
    rewrite open_destroy, handle_fd_valid by done;
    by first [apply layout_server|apply layout_epoll|apply layout_event].
Qed.

(** The map of clients takes it over; its key is free, because the kernel
    never returns a descriptor that is open. *)
Lemma emplace_safe base s fd R :
  0 <= fd → fd ∉ base → owns ({[fd]} ∪ base) s →
  runs (emplace_client fd (mkHandle fd)) s
    (λ h s', h = mkHandle (-1) ∧ owns base s') R.
Proof.
  intros Hf Hn [Hl Hc Hq]. destruct s as [l w]. unfold layout_of in Hl. simpl in *.
  unfold emplace_client, move_construct, self.
  apply runs_bind, runs_gets. cbn [fst].
  assert (m_clients l !! fd = None) as ->
    by (apply not_elem_of_dom; by eapply layout_fresh).
  unfold runs, modify_self, modify. mrun. split; [done|].
  split; [|by apply map_Forall_insert_2|done].
  unfold layout_of. simpl. rewrite dom_insert_L. by apply layout_insert.
Qed.

(** A client is erased: its descriptor is closed with it. *)
Lemma erase_client_safe base s fd R :
  owns base s → runs (erase_client fd) s (λ _ s', owns base s') R.
Proof.
  intros Ho. unfold erase_client, self. apply runs_bind, runs_gets.
  destruct (m_clients s.1 !! fd) as [h|] eqn:Hfd; [|by apply runs_ret].
  destruct Ho as [Hl Hc Hq]. destruct s as [l w]. unfold layout_of in Hl. simpl in *.
  destruct (Hc fd h Hfd) as [Hh Hp]. destruct h as [n]. simpl in Hh. subst n.
  unfold runs, modify_self, destroy_handle, sys_, modify. mrun.
  split; [|by apply map_Forall_delete|done].
  unfold layout_of. simpl. rewrite open_destroy, handle_fd_valid, dom_delete_L by done.
  apply layout_delete; [done|]. by apply elem_of_dom_2 in Hfd.
Qed.

(** ** Operations *)

Create HintDb descriptors.
#[local] Hint Resolve setsockopt_keeps getfl_keeps setfl_keeps bind_keeps listen_keeps
  ctl_add_keeps ctl_del_keeps wait_keeps recv_keeps read_event_keeps write_event_keeps
  socket_opens epoll_create1_opens eventfd_opens : descriptors.

(** One statement of the code that keeps the invariant. *)
Ltac keep_step :=
  apply runs_bind; eapply runs_consequence;
  [ first [ apply push_log_safe | apply push_chunk_safe
          | apply sys_safe; [auto with descriptors|]
          | apply sys__safe; [auto with descriptors|] ]; eassumption
  | cbv beta; intros ? ? ?
  | same_failures ].

Ltac read_self := apply runs_bind, runs_gets; cbv beta.

Lemma set_nonblocking_safe base s fd :
  owns base s →
  runs (set_nonblocking fd) s (λ _ s', owns base s')
    (λ e s', owns base s' ∧ ∃ code text, e = Some (System_error code text)).
Proof.
  intros Ho. unfold set_nonblocking. keep_step.
  destruct (ret _ <? 0); [apply runs_throw; split; [done|by eexists _, _]|]. keep_step.
  destruct (ret _ <? 0); [apply runs_throw; split; [done|by eexists _, _]|by apply runs_ret].
Qed.

(** A call that opens a descriptor, and the member that takes it over. *)
Ltac open_step :=
  apply runs_bind; eapply runs_consequence;
  [ apply sys_opens; [solve [auto with descriptors]|eassumption]
  | cbv beta; intros r1 s1 Hop; unfold opened in Hop;
    destruct (ret r1 <? 0); [by apply runs_throw; split|];
    destruct Hop as (? & ? & ?); apply runs_bind;
    eapply runs_consequence;
    [ eapply reset_member_safe; [rewrite !elem_of_cons; tauto|eassumption..]
    | cbv beta; clear dependent s1 r1; intros ? ? ?
    | same_failures ]
  | same_failures ].

(** [if (r < 0) throw ...;] *)
Ltac check_step := destruct (ret _ <? 0); [by apply runs_throw; split|].

Lemma setup_server_socket_safe base s : owns base s → loopless base setup_server_socket s.
Proof.
  intros Ho. unfold loopless, setup_server_socket. open_step. read_self. keep_step. check_step.
  apply runs_bind. eapply runs_consequence; [by apply set_nonblocking_safe| |].
  2: { by intros ? ? [? (? & ? & ->)]. }
  cbv beta. intros ? ? ?. keep_step. check_step. keep_step. check_step. by apply push_log_safe.
Qed.

Lemma setup_epoll_safe base s : owns base s → loopless base setup_epoll s.
Proof.
  intros Ho. unfold loopless, setup_epoll. open_step. open_step. read_self.
  keep_step. check_step. keep_step. check_step. by apply runs_ret.
Qed.

Lemma sys_accept_safe base s fd R :
  owns base s → runs (sys (sys_accept fd)) s (λ r s', opened base r.1 s') R.
Proof.
  intros Ho. unfold runs, sys. destruct s as [l w]. pose proof (accept_opens fd w) as Hf.
  cbn [snd fst] in *. destruct (sys_accept fd w) as [[r addr] w']. by eapply opens_owned.
Qed.

(** A new client is set to non-blocking, or the failure is logged. *)
Lemma nonblocking_safe base s fd R :
  owns base s →
  runs (try_catch (set_nonblocking fd;; mret true)
    (λ e, match e with
          | System_error code what_arg =>
              Some (push_log (nonblocking_text fd code what_arg);; mret false)
          | _ => None
          end)) s (λ _ s', owns base s') R.
Proof.
  intros Ho. apply runs_try, runs_bind. eapply runs_consequence; [by apply set_nonblocking_safe| |].
  - cbv beta. intros _ s1 Ho1. by apply runs_ret.
  - intros e s1 (Ho1 & code & text & ->). eexists. split; [done|].
    keep_step. by apply runs_ret.
Qed.

Lemma accept_step_safe base s R :
  owns base s → runs accept_step s (λ _ s', owns base s') R.
Proof.
  intros Ho. unfold accept_step. read_self. step_by sys_accept_safe.
  intros [raw_fd addr] s1 Hop. simpl in Hop. unfold opened in Hop.
  destruct (ret raw_fd <? 0).
  { destruct (_ || _); [by apply runs_ret|]. keep_step. by apply runs_ret. }
  destruct Hop as (Hp & Hn & Ho1). cbn [get m_fd]. step_by nonblocking_safe.
  intros nonblocking s2 Ho2. destruct nonblocking; cbn [negb].
  2: { step_by destroy_handle_safe. intros _ s3 Ho3. by apply runs_ret. }
  keep_step. destruct (ret _ <? 0).
  { keep_step. step_by destroy_handle_safe. intros _ s3 Ho3. by apply runs_ret. }
  keep_step. step_by emplace_safe. intros h s3 [-> Ho3].
  step_by destroy_empty_safe. intros _ s4 Ho4. by apply runs_ret.
Qed.

Lemma handle_accept_safe base fuel s : owns base s → quiet base (handle_accept fuel) s.
Proof.
  intros Ho. unfold quiet, handle_accept.
  apply (runs_while (owns base) (λ e s', e = None ∧ owns base s')); [|done|done].
  intros s1 Ho1. by apply accept_step_safe.
Qed.

Lemma recv_safe base s fd R :
  owns base s → runs (recv fd) s (λ _ s', owns base s') R.
Proof.
  intros Ho. unfold recv. read_self. keep_step. destruct a as [r bytes].
  apply runs_bind, runs_modify, runs_ret. by destruct H1.
Qed.

Lemma drain_step_safe base s fd R :
  owns base s → runs (drain_step fd) s (λ _ s', owns base s') R.
Proof.
  intros Ho. unfold drain_step. step_by recv_safe. intros r s1 Ho1.
  destruct (0 <? ret r).
  { read_self. keep_step. by apply runs_ret. }
  destruct (ret r =? 0); [by apply runs_ret|].
  destruct (_ || _); [by apply runs_ret|]. keep_step. by apply runs_ret.
Qed.

Lemma handle_client_data_safe base fuel fd s :
  owns base s → quiet base (handle_client_data fuel fd) s.
Proof.
  intros Ho. unfold quiet, handle_client_data.
  apply (runs_loop_return (owns base) (λ e s', e = None ∧ owns base s')); [|done|done].
  intros s1 Ho1. by apply drain_step_safe.
Qed.

Lemma disconnect_client_safe base fd s R :
  owns base s → runs (disconnect_client fd) s (λ _ s', owns base s') R.
Proof.
  intros Ho. unfold disconnect_client. read_self. keep_step.
  step_by erase_client_safe. intros _ s1 Ho1. keep_step. by apply push_log_safe.
Qed.

Lemma dispatch_safe base fuel event s : owns base s → quiet base (dispatch fuel event) s.
Proof.
  intros Ho. destruct event as [source_fd flags]. unfold quiet, dispatch. read_self.
  destruct (source_fd =? _).
  { keep_step. keep_step. by apply runs_ret. }
  destruct (source_fd =? _).
  { step_by handle_accept_safe. intros _ s1 Ho1. by apply runs_ret. }
  destruct (negb _).
  { step_by disconnect_client_safe. intros _ s1 Ho1. by apply runs_ret. }
  destruct (negb _); [|by apply runs_ret].
  step_by handle_client_data_safe. intros alive s1 Ho1. apply runs_bind.
  destruct (negb alive).
  - eapply runs_consequence; [by apply disconnect_client_safe|done|].
    same_failures.
  - by do 2 apply runs_ret.
Qed.

Lemma dispatch_all_safe base fuel events s : owns base s → quiet base (dispatch_all fuel events) s.
Proof.
  revert s. induction events as [|e events IH]; intros s Ho; [by apply runs_ret|].
  unfold quiet. cbn [dispatch_all]. step_by dispatch_safe. intros [] s1 Ho1.
  - by apply IH.
  - by apply runs_ret.
Qed.

Lemma event_step_safe base fuel stop s : owns base s → quiet base (event_step fuel stop) s.
Proof.
  intros Ho. unfold quiet, event_step. destruct stop; [by apply runs_ret|].
  read_self. keep_step. destruct a as [r events]. destruct (ret r <? 0).
  { destruct (_ =? _); [by apply runs_ret|]. keep_step. by apply runs_ret. }
  by apply dispatch_all_safe.
Qed.

Lemma event_loop_safe base fuel stops s : owns base s → quiet base (event_loop fuel stops) s.
Proof.
  revert s. induction stops as [|stop stops IH]; intros s Ho; [by apply runs_ret|].
  unfold quiet. cbn [event_loop]. step_by event_step_safe. intros [] s1 Ho1.
  - by apply IH.
  - by apply runs_ret.
Qed.

Lemma waker_safe base already s R :
  owns base s →
  runs (if already : bool then shutdown_waker else mret tt) s (λ _ s', owns base s') R.
Proof.
  intros Ho. destruct already; [|by apply runs_ret]. unfold shutdown_waker. read_self.
  by apply sys__safe; [auto with descriptors|].
Qed.

Lemma run_safe base fuel already stops s : owns base s → safe base (run fuel already stops) s.
Proof.
  intros Ho. unfold safe, run. apply runs_bind.
  eapply runs_consequence; [by apply setup_server_socket_safe| |by intros ? ? []].
  cbv beta. intros _ s1 Ho1. apply runs_bind.
  eapply runs_consequence; [by apply setup_epoll_safe| |by intros ? ? []].
  cbv beta. intros _ s2 Ho2. step_by waker_safe. intros _ s3 Ho3.
  by apply quiet_safe, event_loop_safe.
Qed.

(** ** The beginning and the end of the listener's life *)

Lemma new_listener_owns port queue log w :
  m_max_size queue = 0 → m_max_size log = 0 →
  owns (open_fds w) (new_listener port queue log, w).
Proof.
  intros Hq Hl. split; [|done|done]. unfold layout_of. simpl. rewrite dom_empty_L.
  unfold handle_fd. simpl. split; set_solver.
Qed.

Lemma open_destroy_all hs (w : W) :
  open_fds (foldl (λ w h, destroy h w) w hs) = open_fds w ∖ ⋃ (map handle_fd hs).
Proof.
  revert w. induction hs as [|h hs IH]; intros w; simpl; [by rewrite difference_empty_L|].
  rewrite IH, open_destroy. by rewrite difference_difference_l_L.
Qed.

Lemma client_fds (cs : gmap Z SocketHandle) :
  map_Forall (λ fd h, m_fd h = fd ∧ 0 <= fd) cs →
  ⋃ (map handle_fd (map snd (map_to_list cs))) = dom cs.
Proof.
  intros Hc. apply set_eq. intros x.
  rewrite elem_of_union_list, elem_of_dom. split.
  - intros (X & HX & Hx). apply list_elem_of_fmap in HX as (h & -> & Hh).
    apply list_elem_of_fmap in Hh as ([fd h'] & -> & Hin). apply elem_of_map_to_list in Hin.
    destruct (Hc fd h' Hin) as [Hm Hp]. destruct h' as [n]. simpl in *. subst n.
    rewrite handle_fd_valid in Hx by done. apply elem_of_singleton in Hx as ->. by eexists.
  - intros [h Hh]. destruct (Hc x h Hh) as [Hm Hp]. exists (handle_fd h). split.
    + apply list_elem_of_fmap. exists h. split; [done|]. apply list_elem_of_fmap.
      exists (x, h). by rewrite elem_of_map_to_list.
    + destruct h as [n]. simpl in Hm. subst n. rewrite handle_fd_valid by done. set_solver.
Qed.

Lemma destroy_listener_closes base l w :
  owns base (l, w) → open_fds (destroy_listener l w) = base.
Proof.
  intros [Hl Hc _]. unfold layout_of in Hl. simpl in Hl, Hc. unfold destroy_listener.
  rewrite !open_destroy, open_destroy_all, client_fds by done.
  destruct Hl as [-> ? ? ? ?]. apply set_eq. intros x. set_unfold. naive_solver.
Qed.

End Ownership.
