(* ===== verification/ListenerCorrect.v ===== *)
(** * What the listener reads and when its loops end

    The drain loop against the sequence of results [recv] gives ([receives]),
    and the termination of the accept and drain loops when connections and data
    come in bursts ([PosixBursts]). *)

From S2P Require Import Prelude Telemetry ThreadSafeQueue Posix Triples Listener ListenerWalk ListenerOwnership.

Import Listener.

(** ** Draining a client *)

Section Drain.
Context {W : Type} `{PosixLaws W}.
Implicit Types (l : NetworkListener) (w : W).

(** [recv] on [fd] answers with the chunks [cs], one per call, and then with
    [r], which is not positive. *)
Inductive receives (fd : Z) : W → list (list byte) → sysret → W → Prop :=
| receives_end w r bytes w' :
    sys_recv fd RECV_BUF_SIZE w = (r, bytes, w') → ret r <= 0 →
    receives fd w [] r w'
| receives_more w r bytes w1 cs r' w' :
    sys_recv fd RECV_BUF_SIZE w = (r, bytes, w1) → 0 < ret r →
    receives fd w1 cs r' w' → receives fd w (bytes :: cs) r' w'.

(** The client is still there: [recv] failed only for want of data. *)
Definition still_alive (r : sysret) : bool :=
  negb (ret r =? 0) && ((errno r =? EAGAIN) || (errno r =? EWOULDBLOCK)).

(** The message about the end, if it was an error. *)
Definition end_message (fd : Z) (r : sysret) : list string :=
  if (ret r =? 0) || still_alive r then [] else [recv_error_text fd (errno r)].

(** What reading [cs] and then [r] does to the listener. *)
Record drained (fd : Z) l (cs : list (list byte)) (r : sysret) l' : Prop := {
  drained_queue : m_queue l'
    = mkQueue (ThreadSafeQueue.m_queue (m_queue l) ++ map (mkDataChunk fd) cs)
        (m_max_size (m_queue l));
  drained_log : m_log_queue l'
    = mkQueue (ThreadSafeQueue.m_queue (m_log_queue l) ++ end_message fd r)
        (m_max_size (m_log_queue l));
  drained_clients : m_clients l' = m_clients l;
  drained_members : m_server_fd l' = m_server_fd l ∧ m_epoll_fd l' = m_epoll_fd l
                    ∧ m_event_fd l' = m_event_fd l;
  drained_buf : zlen (m_recv_buf l') = RECV_BUF_SIZE
}.

(** The buffers and queues the loop relies on. *)
Record ready l : Prop := {
  ready_buf : zlen (m_recv_buf l) = RECV_BUF_SIZE;
  ready_queue : m_max_size (m_queue l) = 0;
  ready_log : m_max_size (m_log_queue l) = 0
}.

Lemma queue_eta {T} (q : ThreadSafeQueue T) :
  mkQueue (ThreadSafeQueue.m_queue q ++ []) (m_max_size q) = q.
Proof. rewrite app_nil_r. by destruct q. Qed.

Lemma zlen_overwrite (bytes buf : list byte) :
  zlen bytes <= zlen buf → zlen (bytes ++ drop (length bytes) buf) = zlen buf.
Proof. unfold zlen. rewrite length_app, length_drop. lia. Qed.

(** The buffer after a call that stored [bytes]. *)
Definition received_into (bytes : list byte) l : NetworkListener :=
  set_recv_buf (bytes ++ drop (length bytes) (m_recv_buf l)) l.

Lemma recv_run l w fd r bytes w' :
  ready l → sys_recv fd RECV_BUF_SIZE w = (r, bytes, w') →
  recv fd (l, w) = (Ok r, (received_into (take (Z.to_nat (ret r)) bytes) l, w')).
Proof.
  intros Hr E. unfold recv, self, modify_self, sys. mrun. by rewrite (ready_buf l Hr), E.
Qed.

Lemma received_into_ready bytes l :
  zlen bytes <= RECV_BUF_SIZE → ready l → ready (received_into bytes l).
Proof.
  intros Hb [Hbuf Hq Hl]. split; try done. simpl. rewrite zlen_overwrite; [done|]. by rewrite Hbuf.
Qed.

Lemma push_chunk_run l w chunk :
  m_max_size (m_queue l) = 0 →
  push_chunk chunk (l, w) = (Ok tt, (set_queue (enqueue chunk (m_queue l)) l, w)).
Proof.
  intros Hq. unfold push_chunk. pose proof (push_to_ok chunk ((l, w) : Listening)) as E.
  by rewrite (E Hq).
Qed.

Lemma push_log_run l w text :
  m_max_size (m_log_queue l) = 0 →
  push_log text (l, w) = (Ok tt, (set_log_queue (enqueue text (m_log_queue l)) l, w)).
Proof.
  intros Hq. unfold push_log. pose proof (push_to_ok text ((l, w) : Listening)) as E.
  by rewrite (E Hq).
Qed.

(** One more chunk. *)
Lemma drain_step_more l w fd r bytes w' :
  ready l → sys_recv fd RECV_BUF_SIZE w = (r, bytes, w') → 0 < ret r →
  let l1 := received_into bytes l in
  let l2 := set_queue (enqueue (mkDataChunk fd bytes) (m_queue l)) l1 in
  drain_step fd (l, w) = (Ok None, (l2, w')) ∧ ready l2.
Proof.
  intros Hr E Hp. pose proof (recv_length fd RECV_BUF_SIZE w) as Hlen. rewrite E in Hlen.
  destruct (Hlen Hp) as [Hret Hmax]. cbv zeta.
  pose proof (received_into_ready bytes l Hmax Hr) as Hr1.
  split; [|by destruct Hr1].
  unfold drain_step. rewrite (M_bind_ok _ _ _ _ _ (recv_run l w fd r bytes w' Hr E)).
  rewrite Hret, to_nat_zlen, take_ge by done. rewrite Hret in Hp. ztrue.
  unfold self. rewrite bind_gets. cbn [fst]. unfold received_into at 1. cbn [m_recv_buf set_recv_buf].
  rewrite take_app_length.
  by rewrite (M_bind_ok _ _ _ _ _ (push_chunk_run _ w' _ (ready_queue _ Hr1))).
Qed.

(** The end. *)
Lemma drain_step_end l w fd r bytes w' :
  ready l → sys_recv fd RECV_BUF_SIZE w = (r, bytes, w') → ret r <= 0 →
  ∃ l', drain_step fd (l, w) = (Ok (Some (still_alive r)), (l', w')) ∧ drained fd l [] r l'.
Proof.
  intros Hr E Hp. unfold drain_step.
  rewrite (M_bind_ok _ _ _ _ _ (recv_run l w fd r bytes w' Hr E)).
  replace (Z.to_nat (ret r)) with 0%nat by lia. rewrite take_0.
  assert (received_into [] l = l) as -> by (by destruct l).
  ztrue. pose proof (queue_eta (m_queue l)) as Hq. destruct Hr as [Hb _ Hg].
  assert (∀ l', m_queue l' = m_queue l → m_recv_buf l' = m_recv_buf l →
    m_log_queue l' = mkQueue (ThreadSafeQueue.m_queue (m_log_queue l) ++ end_message fd r)
      (m_max_size (m_log_queue l)) →
    m_clients l' = m_clients l → m_server_fd l' = m_server_fd l →
    m_epoll_fd l' = m_epoll_fd l → m_event_fd l' = m_event_fd l → drained fd l [] r l') as Hd.
  { intros l' H1 H2 H3 H4 H5 H6 H7. split; try done; [simpl; by rewrite H1, Hq|by rewrite H2]. }
  unfold end_message, still_alive in *.
  destruct (ret r =? 0); cbn [negb andb orb] in *.
  { exists l. split; [done|]. apply Hd; try done. by rewrite queue_eta. }
  destruct ((errno r =? EAGAIN) || (errno r =? EWOULDBLOCK)).
  - exists l. split; [done|]. apply Hd; try done. by rewrite queue_eta.
  - rewrite (M_bind_ok _ _ _ _ _ (push_log_run _ _ _ Hg)).
    eexists. split; [done|]. by apply Hd.
Qed.

(** The whole loop. *)
Lemma handle_client_data_run fd w cs r w' :
  receives fd w cs r w' → ∀ fuel l, ready l → (length cs < fuel)%nat →
  ∃ l', handle_client_data fuel fd (l, w) = (Ok (still_alive r), (l', w'))
        ∧ drained fd l cs r l'.
Proof.
  unfold handle_client_data.
  induction 1 as [w r bytes w' E Hp|w r bytes w1 cs r' w' E Hp Hrec IH]; intros fuel l Hr Hf.
  - destruct fuel as [|fuel]; [lia|]. cbn [loop_return].
    destruct (drain_step_end l w fd r bytes w' Hr E Hp) as (l' & E' & Hd).
    rewrite (M_bind_ok _ _ _ _ _ E'). by exists l'.
  - destruct fuel as [|fuel]; [simpl in Hf; lia|]. cbn [loop_return].
    destruct (drain_step_more l w fd r bytes w1 Hr E Hp) as [E' Hr1].
    rewrite (M_bind_ok _ _ _ _ _ E').
    destruct (IH fuel _ Hr1 ltac:(simpl in Hf; lia)) as (l' & E2 & [H1 H2 H3 H4 H5]).
    exists l'. split; [done|]. split; try done. rewrite H1. simpl. by rewrite <-app_assoc.
Qed.

(** Every chunk read is a data chunk that fits a ring buffer. *)
Lemma receives_sizes fd w cs r w' :
  receives fd w cs r w' → Forall (λ c, c ≠ [] ∧ zlen c <= RECV_BUF_SIZE) cs.
Proof.
  induction 1 as [|w r bytes w1 cs r' w' E Hp Hrec IH]; [done|]. constructor; [|done].
  pose proof (recv_length fd RECV_BUF_SIZE w) as Hlen. rewrite E in Hlen.
  destruct (Hlen Hp) as [Hret Hmax]. split; [|done]. intros ->. rewrite zlen_nil in Hret. lia.
Qed.

End Drain.

(** ** Termination *)

Section Termination.
Context {W : Type} `{PosixLaws W} `{!PosixBursts W}.
Implicit Types (s : Listening (W:=W)) (base : gset Z).

(** The burst does not grow. *)
Definition spends s s' : Prop := (burst s'.2 <= burst s.2)%nat.

#[local] Instance spends_preorder : PreOrder spends.
Proof. unfold spends. split; [by intros s|]. intros s1 s2 s3 H12 H23. lia. Qed.

(** Code that does not add to the burst, whatever its outcome. *)
Abbreviation frugal := (preserves spends).

Lemma harmless_burst f : (∀ w, (burst (f w) <= burst w)%nat) → harmless spends f.
Proof. intros Hf l w. apply Hf. Qed.

Lemma spends_members l l' w : spends (l, w) (l', w).
Proof. apply Nat.le_refl. Qed.

Lemma frugal_push_log text : frugal (push_log text).
Proof. apply preserves_push_log; [apply _|]. intros q l w. apply spends_members. Qed.

Lemma frugal_push_chunk chunk : frugal (push_chunk chunk).
Proof. apply preserves_push_chunk; [apply _|]. intros q l w. apply spends_members. Qed.

Lemma frugal_destroy h : frugal (destroy_handle h).
Proof. apply preserves_destroy; [apply _|]. intros fd. apply harmless_burst, close_burst. Qed.

Lemma frugal_set_nonblocking fd : frugal (set_nonblocking fd).
Proof.
  apply preserves_set_nonblocking; [apply _|apply harmless_burst, getfl_burst|].
  intros flags. apply harmless_burst, setfl_burst.
Qed.

Lemma frugal_ctl_del ep fd : frugal (sys (sys_epoll_ctl_del ep fd)).
Proof. apply preserves_sys, harmless_burst, ctl_del_burst. Qed.

#[local] Hint Resolve frugal_push_log frugal_push_chunk frugal_destroy frugal_ctl_del : preserves.

(** What [accept_step] does with a new descriptor. *)
Lemma frugal_admitted key h : frugal (h ← emplace_client key h; destroy_handle h;; mret Continue).
Proof.
  preserves_first; [|preserving]. apply preserves_emplace; [apply _|intros; apply spends_members|apply frugal_destroy].
Qed.

(** An accepted connection, and a chunk read, use up the burst. *)
Lemma accept_step_burst s s' :
  accept_step s = (Ok Continue, s') → (burst s'.2 < burst s.2)%nat.
Proof.
  destruct s as [l w]. unfold accept_step, self. rewrite bind_gets. cbn [fst].
  unfold mbind at 1, M_bind at 1, sys at 1. cbn [snd fst].
  pose proof (accept_burst (get (m_server_fd l)) w) as Hs.
  destruct (sys_accept (get (m_server_fd l)) w) as [[r addr] w'].
  destruct (ret r <? 0).
  - destruct (_ || _); [done|]. unfold mbind, M_bind.
    by destruct (push_log _ _) as [[[]|e| | |] s1].
  - match goal with |- ?rest _ = _ → _ => assert (frugal rest) as Hf end.
    { apply preserves_admit; [apply _|apply frugal_set_nonblocking|apply harmless_burst, ctl_add_burst
        |intros; apply frugal_push_log|apply frugal_destroy|apply frugal_admitted]. }
    specialize (Hf (l, w')). intros E. rewrite E in Hf. unfold spends in Hf. simpl in Hf |- *. lia.
Qed.

Lemma drain_step_burst s fd s' :
  drain_step fd s = (Ok None, s') → (burst s'.2 < burst s.2)%nat.
Proof.
  destruct s as [l w]. unfold drain_step, recv, self, sys, modify_self. mrun.
  pose proof (recv_burst fd (zlen (m_recv_buf l)) w) as Hs.
  destruct (sys_recv fd (zlen (m_recv_buf l)) w) as [[r bytes] w'].
  destruct (0 <? ret r).
  - intros E. match type of E with match ?p with _ => _ end = _ =>
      destruct p as [[[]|e| | |] s1] eqn:Ep end; try done.
    injection E as <-.
    match type of Ep with push_chunk ?c ?s0 = _ => pose proof (frugal_push_chunk c s0) as Hf end.
    rewrite Ep in Hf. unfold spends in Hf. simpl in Hf |- *. lia.
  - destruct (ret r =? 0); [done|]. destruct (_ || _); [done|].
    match goal with |- match ?p with _ => _ end = _ → _ => by destruct p as [[[]|e| | |] s1] end.
Qed.

(** The loops end, whatever the kernel does within the burst. *)
Lemma handle_accept_ends base fuel s :
  owns base s → (burst s.2 < fuel)%nat →
  runs (handle_accept fuel) s (λ _ s', owns base s') never.
Proof.
  intros Ho Hf. unfold handle_accept.
  apply (runs_while_measure (owns base) (λ s, burst s.2)); [|done|done].
  intros s1 Ho1. eapply runs_consequence; [apply runs_self; by apply accept_step_safe| |].
  - intros c s2 [Ho2 E]. split; [done|]. destruct c; [by apply accept_step_burst|done].
  - same_failures.
Qed.

Lemma handle_client_data_ends base fuel fd s :
  owns base s → (burst s.2 < fuel)%nat →
  runs (handle_client_data fuel fd) s (λ _ s', owns base s') never.
Proof.
  intros Ho Hf. unfold handle_client_data.
  apply (runs_loop_return_measure (owns base) (λ s, burst s.2)); [|done|done].
  intros s1 Ho1. eapply runs_consequence; [apply runs_self; by apply drain_step_safe| |].
  - intros c s2 [Ho2 E]. split; [done|]. destruct c; [done|by eapply drain_step_burst].
  - same_failures.
Qed.

Lemma dispatch_ends base fuel event s :
  owns base s → (burst s.2 < fuel)%nat →
  runs (dispatch fuel event) s (λ _ s', owns base s') never.
Proof.
  intros Ho Hf. destruct event as [source_fd flags]. unfold dispatch, self.
  apply runs_bind, runs_gets.
  pose proof (read_event_keeps (get (m_event_fd s.1))) as Hread.
  destruct (source_fd =? _).
  { step_by sys__safe. intros _ s1 Ho1. step_by push_log_safe. intros _ s2 Ho2.
    by apply runs_ret. }
  destruct (source_fd =? _).
  { step_by handle_accept_ends. intros _ s1 Ho1. by apply runs_ret. }
  destruct (negb _).
  { step_by disconnect_client_safe. intros _ s1 Ho1. by apply runs_ret. }
  destruct (negb _); [|by apply runs_ret].
  step_by handle_client_data_ends. intros alive s1 Ho1. apply runs_bind. destruct (negb alive).
  - eapply runs_consequence; [by apply (disconnect_client_safe base)| |same_failures].
    cbv beta. intros _ s2 Ho2. by apply runs_ret.
  - by do 2 apply runs_ret.
Qed.

(** A whole iteration of the event loop ends. *)

Lemma frugal_accept_step : frugal accept_step.
Proof.
  unfold accept_step. preserves_first; [preserving|]. intros l. preserves_first.
  { apply preserves_sys, harmless_burst. intros w.
    pose proof (accept_burst (get (m_server_fd l)) w) as Hs.
    destruct (sys_accept (get (m_server_fd l)) w) as [[r addr] w'].
    simpl. destruct (ret r <? 0); lia. }
  intros [r addr]. destruct (ret r <? 0); [preserving|].
  apply preserves_admit; [apply _|apply frugal_set_nonblocking|apply harmless_burst, ctl_add_burst
    |intros; apply frugal_push_log|apply frugal_destroy|apply frugal_admitted].
Qed.

Lemma frugal_drain_step fd : frugal (drain_step fd).
Proof.
  unfold drain_step, recv. preserves_first; [|preserving].
  preserves_first; [preserving|]. intros l. preserves_first.
  - apply preserves_sys, harmless_burst. intros w.
    pose proof (recv_burst fd (zlen (m_recv_buf l)) w) as Hs.
    destruct (sys_recv fd (zlen (m_recv_buf l)) w) as [[r bytes] w'].
    simpl. destruct (0 <? ret r); lia.
  - intros [r bytes]. preserves_first; [|preserving]. apply preserves_modify_self. intros. apply spends_members.
Qed.

Lemma frugal_disconnect fd : frugal (disconnect_client fd).
Proof.
  unfold disconnect_client. preserves_first; [preserving|]. intros l.
  preserves_first; [preserving|]. intros _. preserves_first; [|preserving].
  apply preserves_erase_client; [apply _|intros; apply spends_members|apply frugal_destroy].
Qed.

Lemma frugal_dispatch fuel event : frugal (dispatch fuel event).
Proof.
  apply preserves_dispatch; [apply _|intros fd; apply harmless_burst, read_event_burst
    |intros; apply frugal_push_log|apply frugal_accept_step|apply frugal_drain_step|apply frugal_disconnect].
Qed.

Lemma dispatch_all_ends base fuel events s :
  owns base s → (burst s.2 < fuel)%nat →
  runs (dispatch_all fuel events) s (λ _ s', owns base s') never.
Proof.
  revert s. induction events as [|e events IH]; intros s Ho Hf; [by apply runs_ret|].
  cbn [dispatch_all]. apply runs_bind.
  eapply runs_consequence; [apply runs_self; by apply (dispatch_ends base)| |same_failures].
  cbv beta. intros c s1 [Ho1 E]. pose proof (frugal_dispatch fuel e s) as Hs. unfold spends in Hs. rewrite E in Hs.
  simpl in Hs. destruct c; [apply IH; [done|lia]|by apply runs_ret].
Qed.

(** The burst that begins at [epoll_wait]. *)
Definition next_burst s : nat :=
  burst (sys_epoll_wait (get (m_epoll_fd s.1)) MAX_EPOLL_EVENTS s.2).2.

Lemma event_step_ends base fuel stop s :
  owns base s → (next_burst s < fuel)%nat →
  runs (event_step fuel stop) s (λ _ s', owns base s') never.
Proof.
  intros Ho Hf. unfold event_step. destruct stop; [by apply runs_ret|].
  unfold self. apply runs_bind, runs_gets. apply runs_bind. destruct s as [l w].
  unfold next_burst in Hf. cbn [fst snd] in Hf.
  pose proof (wait_keeps (get (m_epoll_fd l)) MAX_EPOLL_EVENTS w) as Hk. cbn beta in Hk.
  unfold runs at 1, sys. cbn [fst snd] in *.
  destruct (sys_epoll_wait (get (m_epoll_fd l)) MAX_EPOLL_EVENTS w) as [[r events] w'].
  cbn [snd] in Hf, Hk. assert (owns base (l, w')) as Ho' by (by eapply owns_world).
  destruct (ret r <? 0); [|apply dispatch_all_ends; [done|simpl; lia]].
  destruct (_ =? _); [by apply runs_ret|]. step_by push_log_safe. intros _ s1 Ho1.
  by apply runs_ret.
Qed.

End Termination.
