(* ===== verification/ListenerWake.v ===== *)
(** * The listener can be woken up

    [run] registers an eventfd with its epoll instance, and the stop callback
    writes to it. From the set-up to the moment the event is read the epoll
    instance watches the eventfd, and once the callback has run the eventfd
    stays raised: [epoll_wait] cannot sleep through a shutdown. An iteration of
    the event loop also ends, whatever the burst of connections and data. *)

From S2P Require Import Prelude Telemetry ThreadSafeQueue Posix Triples Listener ListenerWalk ListenerOwnership ListenerCorrect.

Import Listener.

Section Wake.
Context {W : Type} `{PosixWake W}.
Implicit Types (s : Listening (W:=W)) (l : NetworkListener) (w : W) (base : gset Z).

(** The epoll instance watches the eventfd, which is raised if [b]. *)
Record attentive (b : bool) s : Prop := {
  att_epoll : 0 <= get (m_epoll_fd s.1);
  att_event : 0 <= get (m_event_fd s.1);
  att_watched : (get (m_epoll_fd s.1), get (m_event_fd s.1)) ∈ watched s.2;
  att_raised : b = true → get (m_event_fd s.1) ∈ raised s.2
}.

(** ** Code that does not disturb *)

Section Calm.
Variables ep ev : Z.

Definition calm_world w w' : Prop :=
  ((ep, ev) ∈ watched w → (ep, ev) ∈ watched w') ∧ (ev ∈ raised w → ev ∈ raised w').

(** The two handles, the interest list and the counter stay as they are. *)
Record calm s s' : Prop := {
  calm_handles : m_epoll_fd s'.1 = m_epoll_fd s.1 ∧ m_event_fd s'.1 = m_event_fd s.1;
  calm_wake : calm_world s.2 s'.2
}.

#[export] Instance calm_preorder : PreOrder calm.
Proof.
  split; [by split|]. intros s1 s2 s3 [[] []] [[] []]. split; split; try congruence; tauto.
Qed.

Abbreviation calmly := (preserves calm).

Lemma calm_harmless (f : W → W) : (∀ w, calm_world w (f w)) → harmless calm f.
Proof. intros Hf l w. by split. Qed.

Lemma calm_member (f : NetworkListener → NetworkListener) l w :
  m_epoll_fd (f l) = m_epoll_fd l → m_event_fd (f l) = m_event_fd l → calm (l, w) (f l, w).
Proof. by split. Qed.

Lemma calmly_push_log text : calmly (push_log text).
Proof. by apply preserves_push_log; [apply _|]. Qed.

Lemma calmly_push_chunk chunk : calmly (push_chunk chunk).
Proof. by apply preserves_push_chunk; [apply _|]. Qed.

Lemma keeps_calm (f : W → W) w : keeps (λ w, (watched w, raised w)) f → calm_world w (f w).
Proof. intros Hf. specialize (Hf w). injection Hf as E1 E2. unfold calm_world. by rewrite E1, E2. Qed.

(** Closing another descriptor. *)
Lemma destroy_calm h w : m_fd h ≠ ep → m_fd h ≠ ev → calm_world w (destroy h w).
Proof.
  intros Hep Hev. unfold destroy. destruct (0 <=? m_fd h); [|done].
  destruct (close_forgets (m_fd h) w) as [Hr Hw]. split.
  - intros Hin. apply Hw, elem_of_filter. simpl. auto.
  - intros Hin. apply Hr. set_solver.
Qed.

Lemma calmly_destroy h : m_fd h ≠ ep → m_fd h ≠ ev → calmly (destroy_handle h).
Proof. intros Hep Hev. apply preserves_sys_, calm_harmless. intros w. by apply destroy_calm. Qed.

Lemma ctl_add_calm e fd flags w : calm_world w (sys_epoll_ctl_add e fd flags w).2.
Proof.
  pose proof (ctl_add_watches e fd flags w) as Hc.
  destruct (sys_epoll_ctl_add e fd flags w) as [r w']. destruct Hc as [E1 E2].
  unfold calm_world. simpl. rewrite E1, E2. split; [|done]. destruct (ret r <? 0); set_solver.
Qed.

Lemma ctl_del_calm e fd w : fd ≠ ev → calm_world w (sys_epoll_ctl_del e fd w).2.
Proof.
  intros Hne. pose proof (ctl_del_unwatches e fd w) as Hc.
  destruct (sys_epoll_ctl_del e fd w) as [r w']. destruct Hc as [E1 E2].
  unfold calm_world. simpl. rewrite E1. split; [|done]. set_solver.
Qed.

Lemma keeps_harmless (f : W → W) :
  keeps (λ w, (watched w, raised w)) f → harmless calm f.
Proof. intros Hf. apply calm_harmless. intros w. by apply keeps_calm. Qed.

Lemma calmly_ctl_add e fd flags : calmly (sys (sys_epoll_ctl_add e fd flags)).
Proof. apply preserves_sys, calm_harmless, ctl_add_calm. Qed.

#[local] Hint Resolve calmly_push_log calmly_push_chunk calmly_destroy calmly_ctl_add : preserves.

Lemma calmly_set_nonblocking fd : calmly (set_nonblocking fd).
Proof.
  apply preserves_set_nonblocking; [apply _|apply keeps_harmless, getfl_wake|].
  intros flags. apply keeps_harmless, setfl_wake.
Qed.

Lemma calmly_handle_client_data fuel fd : calmly (handle_client_data fuel fd).
Proof.
  apply preserves_loop; [apply _|]. unfold drain_step, recv. preserves_first; [|preserving].
  preserves_first; [preserving|]. intros l. preserves_first; [apply preserves_sys, keeps_harmless, recv_wake|].
  intros [r bytes]. preserves_first; [by apply preserves_modify_self|preserving].
Qed.

(** What follows a successful accept concerns another descriptor. *)
Lemma calmly_emplace {A} key fd (k : SocketHandle → M Listening A) :
  fd ≠ ep → fd ≠ ev → calmly (k (mkHandle (-1))) → calmly (h ← emplace_client key (mkHandle fd); k h).
Proof.
  intros Hep Hev Hk s.
  assert (calmly (emplace_client key (mkHandle fd))) as Hc.
  { unfold emplace_client, move_construct. preserves_first; [preserving|]. intros l.
    preserves_first; [|preserving].
    destruct (m_clients l !! key); [by apply calmly_destroy|by apply preserves_modify_self]. }
  specialize (Hc s).
  assert ((emplace_client key (mkHandle fd) s).1 = Ok (mkHandle (-1))) as E.
  { unfold emplace_client, move_construct, self. rewrite bind_gets.
    by destruct (m_clients s.1 !! key). }
  unfold mbind, M_bind. destruct (emplace_client key (mkHandle fd) s) as [o s1].
  simpl in E, Hc. subst o. etransitivity; [exact Hc|apply Hk].
Qed.

Lemma accept_step_calm base s :
  owns base s → get (m_epoll_fd s.1) = ep → get (m_event_fd s.1) = ev → 0 <= ep → 0 <= ev →
  calm s (accept_step s).2.
Proof.
  intros Ho Eep Eev Hep Hev. destruct s as [l w]. unfold accept_step, self. rewrite bind_gets.
  cbn [fst]. unfold mbind at 1, M_bind at 1, sys at 1. cbn [snd fst].
  pose proof (accept_wake (get (m_server_fd l)) w) as Hw.
  pose proof (accept_opens (get (m_server_fd l)) w) as Hopens. cbn beta in Hw, Hopens.
  destruct (sys_accept (get (m_server_fd l)) w) as [[r addr] w'].
  assert (calm (l, w) (l, w')) as Hc.
  { split; [done|]. simpl in *. injection Hw as E1 E2. unfold calm_world. by rewrite E1, E2. }
  match goal with |- calm _ (?rest _).2 => enough (calmly rest) as Hr
    by (etransitivity; [exact Hc|apply Hr]) end.
  destruct (Z.ltb_spec (ret r) 0) as [Hneg|Hpos]; [preserving|].
  destruct Hopens as [(_ & Hfresh & _)|[? _]]; [|lia].
  destruct Ho as [Hl _ _]. unfold layout_of in Hl. simpl in Hl, Eep, Eev.
  unfold get in Eep, Eev. rewrite (lay_open _ _ _ _ _ _ Hl) in Hfresh. unfold handle_fd in Hfresh.
  rewrite Eep, Eev, (proj2 (Z.leb_le 0 ep)), (proj2 (Z.leb_le 0 ev)) in Hfresh by done.
  assert (ret r ≠ ep ∧ ret r ≠ ev) as [Hne1 Hne2] by set_solver.
  apply preserves_admit; [apply _|apply calmly_set_nonblocking|apply calm_harmless, ctl_add_calm
    |intros; apply calmly_push_log|by apply calmly_destroy|].
  apply calmly_emplace; [done..|]. preserves_first; [apply calmly_destroy; simpl; lia|preserving].
Qed.

Lemma handle_accept_calm base fuel s :
  owns base s → get (m_epoll_fd s.1) = ep → get (m_event_fd s.1) = ev → 0 <= ep → 0 <= ev →
  calm s (handle_accept fuel s).2.
Proof.
  intros Ho Eep Eev Hep Hev. unfold handle_accept. revert s Ho Eep Eev.
  induction fuel as [|fuel IH]; intros s Ho Eep Eev; [done|]. cbn [while_true].
  pose proof (accept_step_calm base s Ho Eep Eev Hep Hev) as Hc.
  pose proof (accept_step_safe base s (λ _ _, True) Ho) as Hs. unfold runs in Hs.
  unfold mbind at 1, M_bind at 1. destruct (accept_step s) as [[[]|e| | |] s1]; try done.
  simpl in Hc. destruct (calm_handles _ _ Hc) as [E1 E2].
  etransitivity; [exact Hc|]. apply IH; [done|congruence..].
Qed.

(** A client's descriptor is neither of the two. *)
Lemma erase_client_calm base fd s :
  owns base s → get (m_epoll_fd s.1) = ep → get (m_event_fd s.1) = ev → 0 <= ep → 0 <= ev →
  calm s (erase_client fd s).2.
Proof.
  intros [Hl Hcl _] Eep Eev Hep Hev. destruct s as [l w].
  unfold erase_client, self. rewrite bind_gets. cbn [fst snd] in *.
  unfold layout_of in Hl. cbn [fst snd] in Hl.
  destruct (m_clients l !! fd) as [h|] eqn:Eh; [|done].
  destruct (Hcl fd h Eh) as [Hh Hfd0]. apply elem_of_dom_2 in Eh as Hdom.
  unfold get, handle_fd in *. pose proof (lay_clients _ _ _ _ _ _ Hl) as Hdisj.
  rewrite Eep, Eev, (proj2 (Z.leb_le 0 ep)), (proj2 (Z.leb_le 0 ev)) in Hdisj by done.
  assert (fd ≠ ep ∧ fd ≠ ev) as [Hne1 Hne2] by set_solver.
  match goal with |- calm _ (?rest _).2 => enough (calmly rest) as Hr by apply Hr end.
  preserves_first; [by apply preserves_modify_self|]. intros _. apply calmly_destroy; congruence.
Qed.

Lemma disconnect_calm base fd s :
  owns base s → get (m_epoll_fd s.1) = ep → get (m_event_fd s.1) = ev → 0 <= ep → 0 <= ev →
  fd ≠ ev → calm s (disconnect_client fd s).2.
Proof.
  intros Ho Eep Eev Hep Hev Hfd. destruct s as [l w].
  unfold disconnect_client, self. rewrite bind_gets. cbn [fst].
  pose proof (ctl_del_keeps (get (m_epoll_fd l)) fd w) as Hkeep. cbn beta in Hkeep.
  unfold mbind at 1, M_bind at 1, sys at 1. cbn [snd fst].
  pose proof (ctl_del_calm (get (m_epoll_fd l)) fd w Hfd) as Hw.
  destruct (sys_epoll_ctl_del (get (m_epoll_fd l)) fd w) as [r w'].
  assert (owns base (l, w')) as Ho' by (by eapply owns_world).
  transitivity (l, w'); [by split|]. pose proof (erase_client_calm base fd (l, w') Ho' Eep Eev Hep Hev).
  unfold mbind at 1, M_bind at 1. destruct (erase_client fd (l, w')) as [[[]|e| | |] s1]; try done.
  etransitivity; [done|].
  match goal with |- calm _ (?rest _).2 => enough (calmly rest) as Hr by apply Hr end. preserving.
Qed.

End Calm.

(** ** The event loop stays attentive *)

Lemma calm_attentive b ep ev s s' :
  get (m_epoll_fd s.1) = ep → get (m_event_fd s.1) = ev →
  calm ep ev s s' → attentive b s → attentive b s'.
Proof.
  intros <- <- [[E1 E2] [Hw Hr]] [H2 H3 H4 H5].
  split; rewrite ?E1, ?E2; [done..|by apply Hw|]. intros Hb. by apply Hr, H5.
Qed.

Lemma dispatch_attentive b base fuel event s s' :
  owns base s → attentive b s → dispatch fuel event s = (Ok Continue, s') → attentive b s'.
Proof.
  intros Ho Ha. destruct event as [source_fd flags]. pose proof Ha as [Hep Hev _ _].
  unfold dispatch, self. rewrite bind_gets.
  destruct (Z.eqb_spec source_fd (get (m_event_fd s.1))) as [->|Hne].
  { unfold mbind at 1, M_bind at 1, sys_, modify.
    match goal with |- (push_log ?t ≫= _) ?s1 = _ → _ =>
      unfold mbind, M_bind; by destruct (push_log t s1) as [[[]|e| | |] s2] end. }
  destruct (source_fd =? _).
  { pose proof (handle_accept_calm _ _ base fuel s Ho eq_refl eq_refl Hep Hev) as Hc.
    unfold mbind, M_bind. destruct (handle_accept fuel s) as [[[]|e| | |] s1]; try done.
    intros [= <-]. eapply calm_attentive; [done..|exact Hc|done]. }
  pose proof (λ s1 Ho1 E1 E2,
    disconnect_calm (get (m_epoll_fd s.1)) (get (m_event_fd s.1)) base source_fd s1 Ho1 E1 E2
      Hep Hev Hne) as Hd.
  destruct (negb _).
  { specialize (Hd s Ho eq_refl eq_refl).
    unfold mbind, M_bind. destruct (disconnect_client source_fd s) as [[[]|e| | |] s1]; try done.
    intros [= <-]. eapply calm_attentive; [done..|exact Hd|done]. }
  destruct (negb _); [|by intros [= <-]].
  pose proof (calmly_handle_client_data (get (m_epoll_fd s.1)) (get (m_event_fd s.1)) fuel
    source_fd s) as Hc.
  pose proof (handle_client_data_safe base fuel source_fd s Ho) as Hs. unfold quiet, runs in Hs.
  unfold mbind at 1, M_bind at 1.
  destruct (handle_client_data fuel source_fd s) as [[alive|e| | |] s1]; try done.
  cbn [snd] in Hc. destruct (calm_handles _ _ _ _ Hc) as [E1 E2]. destruct (negb alive).
  - specialize (Hd s1 Hs). rewrite E1, E2 in Hd. specialize (Hd eq_refl eq_refl).
    unfold mbind, M_bind. destruct (disconnect_client source_fd s1) as [[[]|e| | |] s2]; try done.
    intros [= <-]. eapply calm_attentive; [done..| |done]. etransitivity; [exact Hc|exact Hd].
  - intros [= <-]. eapply calm_attentive; [done..|exact Hc|done].
Qed.

Lemma dispatch_all_attentive b base fuel events s s' :
  owns base s → attentive b s → dispatch_all fuel events s = (Ok Continue, s') → attentive b s'.
Proof.
  revert s. induction events as [|e events IH]; intros s Ho Ha; [by intros [= <-]|].
  cbn [dispatch_all]. pose proof (dispatch_safe base fuel e s Ho) as Hs. unfold quiet, runs in Hs.
  unfold mbind, M_bind. destruct (dispatch fuel e s) as [[[]|x| | |] s1] eqn:E; try done.
  intros Eall. apply (IH s1); [done| |exact Eall]. by apply (dispatch_attentive b base fuel e s).
Qed.

(** An iteration that does not leave the loop. *)
Lemma event_step_attentive b base fuel stop s s' :
  owns base s → attentive b s → event_step fuel stop s = (Ok Continue, s') → attentive b s'.
Proof.
  intros Ho Ha. unfold event_step. destruct stop; [done|]. destruct s as [l w].
  unfold self. rewrite bind_gets. cbn [fst].
  pose proof (wait_wake (get (m_epoll_fd l)) MAX_EPOLL_EVENTS w) as Hw. cbn beta in Hw.
  pose proof (wait_keeps (get (m_epoll_fd l)) MAX_EPOLL_EVENTS w) as Hk. cbn beta in Hk.
  unfold mbind at 1, M_bind at 1, sys at 1. cbn [snd fst].
  destruct (sys_epoll_wait (get (m_epoll_fd l)) MAX_EPOLL_EVENTS w) as [[r events] w'].
  cbn [snd] in Hw, Hk. injection Hw as E1 E2.
  assert (owns base (l, w')) as Ho' by (by eapply owns_world).
  assert (attentive b (l, w')) as Ha' by (destruct Ha; split; simpl in *; by rewrite ?E1, ?E2).
  destruct (ret r <? 0); [|by apply (dispatch_all_attentive b base)].
  destruct (_ =? _); [by intros [= <-]|].
  match goal with |- (push_log ?t ≫= _) ?s1 = _ → _ =>
    unfold mbind, M_bind; by destruct (push_log t s1) as [[[]|e| | |] s2] end.
Qed.

(** ** Set-up and the stop callback *)

Lemma setup_epoll_attentive s s' : setup_epoll s = (Ok tt, s') → attentive false s'.
Proof.
  destruct s as [l w]. unfold setup_epoll, sys, reset_member, reset, self. mrun.
  destruct (sys_epoll_create1 w) as [r1 w1]. destruct (Z.ltb_spec (ret r1) 0); [done|]. mrun.
  match goal with |- context [sys_eventfd ?w2] => destruct (sys_eventfd w2) as [r2 w3] end.
  destruct (Z.ltb_spec (ret r2) 0); [done|]. mrun.
  match goal with |- context [sys_epoll_ctl_add ?e ?f ?x ?w4] =>
    destruct (sys_epoll_ctl_add e f x w4) as [r3 w5] end.
  destruct (ret r3 <? 0); [done|]. mrun.
  match goal with |- context [sys_epoll_ctl_add ?e ?f ?x ?w6] =>
    pose proof (ctl_add_watches e f x w6) as Hc;
    destruct (sys_epoll_ctl_add e f x w6) as [r4 w7] end.
  destruct (ret r4 <? 0); [done|]. intros [= <-]. destruct Hc as [_ Hw].
  split; simpl; [done..| |done]. rewrite Hw. set_solver.
Qed.

Lemma shutdown_waker_attentive b s :
  attentive b s → ∃ s', shutdown_waker s = (Ok tt, s') ∧ attentive true s' ∧ s'.1 = s.1.
Proof.
  intros [Hep Hev Hw _]. destruct s as [l w]. simpl in *.
  destruct (write_event_raises (get (m_event_fd l)) w) as [E1 E2].
  eexists. split; [reflexivity|]. split; [|done]. split; simpl; [done..| |].
  - by rewrite E2.
  - intros _. rewrite E1. set_solver.
Qed.

End Wake.
