(* ===== verification/ListenerChunks.v ===== *)
(** * The chunks the listener queues

    The receive buffer keeps its size, and every chunk that the listener queues
    fits in it: what the parser gets is never larger than [RECV_BUF_SIZE]. *)

From S2P Require Import Prelude Telemetry ThreadSafeQueue Posix Triples Listener ListenerWalk ListenerOwnership ListenerCorrect.

Import Listener.

Section Chunks.
Context {W : Type} `{PosixLaws W}.
Implicit Types (s : Listening (W:=W)) (l : NetworkListener) (w : W).

Definition small (c : DataChunk) : Prop := zlen (data c) <= RECV_BUF_SIZE.

Record fitting l : Prop := {
  fitting_buf : zlen (m_recv_buf l) = RECV_BUF_SIZE;
  fitting_chunks : Forall small (ThreadSafeQueue.m_queue (m_queue l))
}.

(** Code that queues nothing larger than the buffer, whatever its outcome. *)
Definition stays_fitting s s' : Prop := fitting s.1 → fitting s'.1.

#[export] Instance stays_fitting_preorder : PreOrder stays_fitting.
Proof. unfold stays_fitting. split; [by intros s|]. intros s1 s2 s3. tauto. Qed.

Abbreviation tidy := (preserves stays_fitting).

Lemma tidy_world (f : W → W) : harmless stays_fitting f.
Proof. intros l w Hl. exact Hl. Qed.

Lemma tidy_member (f : NetworkListener → NetworkListener) l w :
  m_recv_buf (f l) = m_recv_buf l → m_queue (f l) = m_queue l → stays_fitting (l, w) (f l, w).
Proof. intros E1 E2 [Hb Hc]. split; simpl; by rewrite ?E1, ?E2. Qed.

Lemma tidy_push_log text : tidy (push_log text).
Proof. apply preserves_push_log; [apply _|]. intros q l w. by apply tidy_member. Qed.

Lemma push_chunk_fitting c s : small c → fitting s.1 → fitting (push_chunk c s).2.1.
Proof.
  intros Hc [Hb Hs]. unfold push_chunk, push_to, push_default, push, wait. mrun.
  destruct (0 <? _); [destruct (zlen _ <? _)|]; (split; [done|]); cbn; try done;
    apply Forall_app; split; [done|by constructor|done|by constructor].
Qed.

Lemma tidy_push_notice fd : tidy (push_chunk (mkDataChunk fd [])).
Proof. intros s Hs. by apply push_chunk_fitting. Qed.

Lemma tidy_set_nonblocking fd : tidy (set_nonblocking fd).
Proof. apply preserves_set_nonblocking; [apply _|..]; intros; apply tidy_world. Qed.

Lemma tidy_destroy h : tidy (destroy_handle h).
Proof. apply preserves_destroy; [apply _|]. intros. apply tidy_world. Qed.

#[local] Hint Resolve tidy_push_log tidy_push_notice tidy_set_nonblocking tidy_destroy : preserves.
#[local] Hint Extern 1 (tidy (sys _)) => (apply preserves_sys, tidy_world) : preserves.
#[local] Hint Extern 1 (tidy (sys_ _)) => (apply preserves_sys_, tidy_world) : preserves.
#[local] Hint Extern 1 (tidy (reset_member _ _ _)) =>
  (by apply preserves_reset; [apply _|intros; apply tidy_world|intros; apply tidy_member]) : preserves.

Lemma tidy_setup_server_socket : tidy setup_server_socket.
Proof. unfold setup_server_socket. preserving. Qed.

Lemma tidy_setup_epoll : tidy setup_epoll.
Proof. unfold setup_epoll. preserving. Qed.

Lemma tidy_accept_step : tidy accept_step.
Proof.
  unfold accept_step. preserves_first; [preserving|]. intros l.
  preserves_first; [preserving|]. intros [r addr]. destruct (ret r <? 0); [preserving|].
  apply preserves_admit; [apply _|apply tidy_set_nonblocking|apply tidy_world|intros; apply tidy_push_log
    |apply tidy_destroy|].
  preserves_first; [|preserving].
  apply preserves_emplace; [apply _|intros; by apply tidy_member|apply tidy_destroy].
Qed.

(** The chunk is a part of the buffer. *)
Lemma tidy_drain_step fd : tidy (drain_step fd).
Proof.
  intros [l w] [Hb Hc]. unfold drain_step, recv, self, sys, modify_self. mrun. cbn [fst snd] in *.
  pose proof (recv_length fd (zlen (m_recv_buf l)) w) as Hlen.
  destruct (sys_recv fd (zlen (m_recv_buf l)) w) as [[r bytes] w']. mrun. cbn [fst snd] in *.
  set (stored := take (Z.to_nat (ret r)) bytes).
  assert (zlen stored <= zlen (m_recv_buf l)) as Hstored.
  { destruct (Z.leb_spec (ret r) 0) as [Hr|Hr].
    - unfold stored. replace (Z.to_nat (ret r)) with 0%nat by lia. apply zlen_nonneg.
    - destruct (Hlen Hr) as [E Hmax]. unfold stored. rewrite E, to_nat_zlen, take_ge; done. }
  set (l1 := set_recv_buf (stored ++ drop (length stored) (m_recv_buf l)) l).
  assert (fitting l1) as Hl1 by (split; [by cbn; rewrite zlen_overwrite|done]).
  destruct (0 <? ret r).
  - match goal with |- fitting (match push_chunk ?c ?s0 with _ => _ end).2.1 =>
      pose proof (push_chunk_fitting c s0) as Hp; destruct (push_chunk c s0) as [[[]|e| | |] s1] end;
      apply Hp; try done;
      pose proof (fitting_buf _ Hl1) as Hbuf; unfold small, zlen in *; cbn [data];
      rewrite length_take; lia.
  - destruct (ret r =? 0); [done|]. destruct (_ || _); [done|].
    match goal with |- fitting (match push_log ?t ?s0 with _ => _ end).2.1 =>
      pose proof (tidy_push_log t s0 Hl1) as Hp; by destruct (push_log t s0) as [[[]|e| | |] s1] end.
Qed.

Lemma tidy_disconnect fd : tidy (disconnect_client fd).
Proof.
  unfold disconnect_client. preserves_first; [preserving|]. intros l.
  preserves_first; [preserving|]. intros _. preserves_first; [|preserving].
  apply preserves_erase_client; [apply _|intros; by apply tidy_member|apply tidy_destroy].
Qed.

Lemma tidy_event_step fuel stop : tidy (event_step fuel stop).
Proof.
  apply preserves_event_step; [apply _|intros; apply tidy_world..|intros; apply tidy_push_log|apply tidy_accept_step
    |apply tidy_drain_step|apply tidy_disconnect].
Qed.

Lemma tidy_waker : tidy shutdown_waker.
Proof. unfold shutdown_waker. preserving. Qed.

End Chunks.
