(* ===== verification/Recorder.v ===== *)
(** * Any kernel, with a record of its traffic

    [Recorded W] is the kernel [W] and the list of what its calls have read and
    removed. It satisfies every law that [W] satisfies, and those of
    [PosixTrace]: to speak of a transcript assumes nothing about the kernel. *)

From S2P Require Import Prelude Posix.

Record Recorded (W : Type) := mkRecorded { machine : W; recorded : list traffic }.
Arguments mkRecorded {W} machine recorded.
Arguments machine {W} r.
Arguments recorded {W} r.

(** A machine before anything has come in. *)
Definition unrecorded {W} (w : W) : Recorded W := mkRecorded w [].

Section Recorder.
Context {W : Type} `{PosixWake W}.
Implicit Types k : Recorded W.

(** A call that is not recorded, and one that is. *)
Definition silently {A} (f : W → A * W) k : A * Recorded W :=
  let '(a, w) := f (machine k) in (a, mkRecorded w (recorded k)).
Definition silently_ (f : W → W) k : Recorded W := mkRecorded (f (machine k)) (recorded k).

Definition recorded_recv (fd n : Z) k : sysret * list byte * Recorded W :=
  let '(r, bytes, w) := sys_recv fd n (machine k) in
  (r, bytes, mkRecorded w (recorded k ++ (if 0 <? ret r then [Read fd bytes] else []))).

Definition recorded_ctl_del (ep fd : Z) k : sysret * Recorded W :=
  let '(r, w) := sys_epoll_ctl_del ep fd (machine k) in
  (r, mkRecorded w (recorded k ++ [Removed fd])).

#[export] Instance recorded_posix : Posix (Recorded W) := {|
  sys_socket := silently sys_socket;
  sys_setsockopt_reuseaddr fd := silently (sys_setsockopt_reuseaddr fd);
  sys_fcntl_getfl fd := silently (sys_fcntl_getfl fd);
  sys_fcntl_setfl fd flags := silently (sys_fcntl_setfl fd flags);
  sys_bind fd port := silently (sys_bind fd port);
  sys_listen fd := silently (sys_listen fd);
  sys_epoll_create1 := silently sys_epoll_create1;
  sys_eventfd := silently sys_eventfd;
  sys_epoll_ctl_add ep fd ev := silently (sys_epoll_ctl_add ep fd ev);
  sys_epoll_ctl_del := recorded_ctl_del;
  sys_epoll_wait ep n := silently (sys_epoll_wait ep n);
  sys_accept fd := silently (sys_accept fd);
  sys_recv := recorded_recv;
  sys_read_event fd := silently_ (sys_read_event fd);
  sys_write_event fd := silently_ (sys_write_event fd);
  sys_close fd := silently_ (sys_close fd);
  strerror := strerror
|}.

(** ** The laws carry over *)

Lemma silently_world {A} (f : W → A * W) k :
  (silently f k).2 = mkRecorded (f (machine k)).2 (recorded k).
Proof. unfold silently. by destruct (f (machine k)). Qed.

(** What is observed of the machine is observed of the recorded one. *)
Lemma silently_keeps {A B} (observe : W → B) (f : W → A * W) :
  keeps observe (λ w, (f w).2) → keeps (observe ∘ machine) (λ k, (silently f k).2).
Proof. intros Hf k. rewrite silently_world. apply Hf. Qed.

Lemma silently_opens (f : W → sysret * W) :
  opens open_fds f → opens (open_fds ∘ machine) (silently f).
Proof.
  intros Hf k. specialize (Hf (machine k)). unfold silently. by destruct (f (machine k)).
Qed.

Lemma silently_recorded {A} (f : W → A * W) : keeps recorded (λ k, (silently f k).2).
Proof. intros k. by rewrite silently_world. Qed.

Lemma recv_world fd n k : machine (recorded_recv fd n k).2 = (sys_recv fd n (machine k)).2.
Proof. unfold recorded_recv. by destruct (sys_recv fd n (machine k)) as [[r bytes] w]. Qed.

Lemma ctl_del_world ep fd k :
  machine (recorded_ctl_del ep fd k).2 = (sys_epoll_ctl_del ep fd (machine k)).2.
Proof. unfold recorded_ctl_del. by destruct (sys_epoll_ctl_del ep fd (machine k)). Qed.

#[export, refine] Instance recorded_laws : PosixLaws (Recorded W) :=
  {| open_fds k := open_fds (machine k) |}.
Proof.
  all: try (intros; apply silently_opens).
  all: try (intros; apply (silently_keeps open_fds)).
  - apply socket_opens.
  - apply epoll_create1_opens.
  - apply eventfd_opens.
  - intros fd k. pose proof (accept_opens fd (machine k)) as Ha. cbn in *. unfold silently.
    by destruct (sys_accept fd (machine k)) as [[r addr] w].
  - intros fd k. apply close_closes.
  - apply setsockopt_keeps.
  - apply getfl_keeps.
  - apply setfl_keeps.
  - apply bind_keeps.
  - apply listen_keeps.
  - apply ctl_add_keeps.
  - intros ep fd k. cbn. rewrite ctl_del_world. apply ctl_del_keeps.
  - apply wait_keeps.
  - intros fd n k. cbn. rewrite recv_world. apply recv_keeps.
  - intros fd k. apply read_event_keeps.
  - intros fd k. apply write_event_keeps.
  - intros fd n k. pose proof (recv_length fd n (machine k)) as Hr. cbn. unfold recorded_recv.
    by destruct (sys_recv fd n (machine k)) as [[r bytes] w].
Defined.

#[export, refine] Instance recorded_burst `{!PosixBursts W} : PosixBursts (Recorded W) :=
  {| burst k := burst (machine k) |}.
Proof.
  - intros fd k. pose proof (accept_burst fd (machine k)) as Hs. cbn. unfold silently.
    by destruct (sys_accept fd (machine k)) as [[r addr] w].
  - intros fd n k. pose proof (recv_burst fd n (machine k)) as Hs. cbn. unfold recorded_recv.
    by destruct (sys_recv fd n (machine k)) as [[r bytes] w].
  - intros fd k. cbn. rewrite silently_world. apply getfl_burst.
  - intros fd flags k. cbn. rewrite silently_world. apply setfl_burst.
  - intros ep fd ev k. cbn. rewrite silently_world. apply ctl_add_burst.
  - intros ep fd k. cbn. rewrite ctl_del_world. apply ctl_del_burst.
  - intros fd k. apply read_event_burst.
  - intros fd k. apply close_burst.
Defined.

#[export, refine] Instance recorded_wake : PosixWake (Recorded W) :=
  {| watched k := watched (machine k); raised k := raised (machine k);
     epoll_ready ep k := epoll_ready ep (machine k);
     kernel_moves k k' := kernel_moves (machine k) (machine k') ∧ recorded k' = recorded k |}.
Proof.
  - intros ep fd k. apply raised_ready.
  - intros ep fd ev k. pose proof (ctl_add_watches ep fd ev (machine k)) as Hc. cbn. unfold silently.
    by destruct (sys_epoll_ctl_add ep fd ev (machine k)) as [r w].
  - intros ep fd k. pose proof (ctl_del_unwatches ep fd (machine k)) as Hc. cbn.
    unfold recorded_ctl_del. by destruct (sys_epoll_ctl_del ep fd (machine k)) as [r w].
  - intros fd k. apply write_event_raises.
  - intros fd k. apply read_event_lowers.
  - intros fd k. apply close_forgets.
  - intros fd k. cbn. rewrite silently_world. apply accept_wake.
  - intros fd k. cbn. rewrite silently_world. apply getfl_wake.
  - intros fd flags k. cbn. rewrite silently_world. apply setfl_wake.
  - intros ep n k. cbn. rewrite silently_world. apply wait_wake.
  - intros fd n k. cbn. rewrite recv_world. apply recv_wake.
  - intros k k' [Hm _]. exact (moves_wake _ _ Hm).
Defined.

#[export, refine] Instance recorded_trace : PosixTrace (Recorded W) := {| transcript := recorded |}.
Proof.
  all: try (intros; apply silently_recorded).
  all: try (intros fd k; reflexivity).
  - intros fd n k. cbn. unfold recorded_recv.
    by destruct (sys_recv fd n (machine k)) as [[r bytes] w].
  - intros ep fd k. cbn. unfold recorded_ctl_del.
    by destruct (sys_epoll_ctl_del ep fd (machine k)) as [r w].
  - by intros k k' [_ E].
Defined.

#[export] Instance recorded_ready_dec `{Hdec : !∀ ep (w : W), Decision (epoll_ready ep w)} ep k :
  Decision (epoll_ready ep k) := Hdec ep (machine k).

End Recorder.
