(* ===== verification/ListenerTrace.v ===== *)
(** * The listener queues what it reads

    Whatever the listener does, its data queue grows by exactly the chunks that
    the transcript of the kernel grows by: every read is queued, tagged with its
    descriptor, every removal of a client is queued as an empty chunk, in order,
    and nothing else is. *)

From S2P Require Import Prelude Telemetry ThreadSafeQueue Posix Triples Listener ListenerWalk ListenerOwnership ListenerCorrect.

Import Listener.

(** The chunk that stands for an event of the transcript. *)
Definition chunk_of (e : traffic) : DataChunk :=
  match e with
  | Read fd bytes => mkDataChunk fd bytes
  | Removed fd => mkDataChunk fd []
  end.

(** A read that returned bytes. *)
Definition ordinary (e : traffic) : Prop :=
  match e with Read _ bytes => bytes ≠ [] | Removed _ => True end.

Section Trace.
Context {W : Type} `{PosixTrace W}.
Implicit Types (s : Listening (W:=W)) (l : NetworkListener) (w : W) (es : list traffic).

(** With an unbounded queue, the events [es] have been queued between the two
    states. *)
Record queued es s s' : Prop := {
  queued_bound : m_max_size (m_queue s'.1) = 0;
  queued_events : transcript s'.2 = transcript s.2 ++ es;
  queued_ordinary : Forall ordinary es;
  queued_chunks :
    ThreadSafeQueue.m_queue (m_queue s'.1)
    = ThreadSafeQueue.m_queue (m_queue s.1) ++ map chunk_of es
}.

Definition faithful s s' : Prop := m_max_size (m_queue s.1) = 0 → ∃ es, queued es s s'.

#[export] Instance faithful_preorder : PreOrder faithful.
Proof.
  split.
  - intros s Hu. exists []. split; simpl; by rewrite ?app_nil_r.
  - intros s1 s2 s3 H12 H23 Hu. destruct (H12 Hu) as (es & [E1 E2 E3 E4]).
    destruct (H23 E1) as (es' & [F1 F2 F3 F4]). exists (es ++ es').
    split; [done|by rewrite F2, E2, app_assoc|by apply Forall_app|].
    by rewrite F4, E4, map_app, app_assoc.
Qed.

Abbreviation faithfully := (preserves faithful).

(** Nothing is read or queued. *)
Lemma faithful_nothing s s' :
  transcript s'.2 = transcript s.2 → m_queue s'.1 = m_queue s.1 → faithful s s'.
Proof. intros Et Eq Hu. exists []. split; rewrite ?Et, ?Eq; simpl; by rewrite ?app_nil_r. Qed.

Lemma faithful_world (f : W → W) : keeps transcript f → harmless faithful f.
Proof. intros Hf l w. by apply faithful_nothing; [apply Hf|]. Qed.

Lemma faithful_member (f : NetworkListener → NetworkListener) l w :
  m_queue (f l) = m_queue l → faithful (l, w) (f l, w).
Proof. intros E. by apply faithful_nothing. Qed.

Lemma faithfully_sys {A} (f : W → A * W) : keeps transcript (λ w, (f w).2) → faithfully (sys f).
Proof. intros Hf. by apply preserves_sys, faithful_world. Qed.

Lemma faithfully_push_log text : faithfully (push_log text).
Proof. apply preserves_push_log; [apply _|]. intros q l w. by apply faithful_member. Qed.

Lemma faithfully_destroy h : faithfully (destroy_handle h).
Proof. apply preserves_destroy; [apply _|]. intros fd. apply faithful_world, close_transcript. Qed.

Lemma faithfully_set_nonblocking fd : faithfully (set_nonblocking fd).
Proof.
  apply preserves_set_nonblocking; [apply _|apply faithful_world, getfl_transcript|].
  intros flags. apply faithful_world, setfl_transcript.
Qed.

Lemma faithfully_reset get_member set_member fd :
  (∀ h l, m_queue (set_member h l) = m_queue l) → faithfully (reset_member get_member set_member fd).
Proof.
  intros Hset. apply preserves_reset; [apply _|intros; apply faithful_world, close_transcript|].
  intros h l w. by apply (faithful_member (set_member h)).
Qed.

#[local] Hint Resolve faithfully_push_log faithfully_destroy faithfully_set_nonblocking : preserves.
#[local] Hint Extern 1 (faithfully (reset_member _ _ _)) => (by apply faithfully_reset) : preserves.
#[local] Hint Resolve socket_transcript setsockopt_transcript bind_transcript listen_transcript
  epoll_create1_transcript eventfd_transcript ctl_add_transcript : preserves.
#[local] Hint Extern 2 (faithfully (sys _)) => (apply faithfully_sys) : preserves.

(** ** What reads nothing *)

Lemma faithfully_setup_server_socket : faithfully setup_server_socket.
Proof. unfold setup_server_socket. preserving. Qed.

Lemma faithfully_setup_epoll : faithfully setup_epoll.
Proof. unfold setup_epoll. preserving. Qed.

Lemma faithfully_waker : faithfully shutdown_waker.
Proof.
  unfold shutdown_waker. preserves_first; [preserving|]. intros l.
  apply preserves_sys_, faithful_world, write_event_transcript.
Qed.

Lemma faithfully_accept_step : faithfully accept_step.
Proof.
  unfold accept_step. preserves_first; [preserving|]. intros l.
  preserves_first; [apply faithfully_sys, accept_transcript|].
  intros [r addr]. destruct (ret r <? 0); [preserving|].
  apply preserves_admit; [apply _|apply faithfully_set_nonblocking
    |apply faithful_world, ctl_add_transcript|intros; apply faithfully_push_log|apply faithfully_destroy|].
  preserves_first; [|preserving].
  apply preserves_emplace; [apply _|intros; by apply faithful_member|apply faithfully_destroy].
Qed.

(** ** Reads and removals *)

(** Every read is queued at once. *)
Lemma faithfully_drain_step fd : faithfully (drain_step fd).
Proof.
  intros [l w] Hu. cbn [fst] in Hu. unfold drain_step, recv, self, sys, modify_self. mrun.
  pose proof (recv_length fd (zlen (m_recv_buf l)) w) as Hlen.
  pose proof (recv_transcript fd (zlen (m_recv_buf l)) w) as Htr.
  destruct (sys_recv fd (zlen (m_recv_buf l)) w) as [[r bytes] w']. mrun.
  set (stored := take (Z.to_nat (ret r)) bytes).
  change (set_recv_buf (stored ++ drop (length stored) (m_recv_buf l)) l)
    with (received_into stored l).
  destruct (Z.ltb_spec 0 (ret r)) as [Hp|Hp].
  - destruct (Hlen Hp) as [Hret Hmax].
    assert (stored = bytes) as ->
      by (unfold stored; rewrite Hret, to_nat_zlen; by apply take_ge).
    rewrite Hret, to_nat_zlen. cbn [m_recv_buf received_into set_recv_buf fst].
    rewrite take_app_length. 
    rewrite (push_chunk_run (received_into bytes l) w' _ Hu).
    exists [Read fd bytes]. split; [done|done| |done]. constructor; [|done].
    intros ->. rewrite zlen_nil in Hret. lia.
  - rewrite app_nil_r in Htr.
    assert (faithful (l, w) (received_into stored l, w')) as Hf by (by apply faithful_nothing).
    destruct (ret r =? 0); [by apply Hf|]. destruct (_ || _); [by apply Hf|].
    match goal with |- context [push_log ?t ?s0] =>
      pose proof (faithfully_push_log t s0) as Hl; destruct (push_log t s0) as [[[]|e| | |] s1] end;
      by apply (transitivity Hf Hl).
Qed.

Lemma erase_client_run fd l w :
  ∃ l' w', erase_client fd (l, w) = (Ok tt, (l', w'))
    ∧ m_queue l' = m_queue l ∧ transcript w' = transcript w.
Proof.
  unfold erase_client, self, modify_self, destroy_handle, sys_. mrun.
  destruct (m_clients l !! fd) as [h|]; [|by exists l, w].
  eexists _, _. split; [reflexivity|]. split; [done|].
  unfold destroy. destruct (0 <=? m_fd h); [apply close_transcript|done].
Qed.

(** Every removal is queued as an empty chunk. *)
Lemma faithfully_disconnect fd : faithfully (disconnect_client fd).
Proof.
  intros [l w] Hu. cbn [fst] in Hu. unfold disconnect_client, self, sys. rewrite bind_gets. cbn [fst].
  pose proof (ctl_del_transcript (get (m_epoll_fd l)) fd w) as Htr.
  unfold mbind at 1, M_bind at 1. cbn [snd fst].
  destruct (sys_epoll_ctl_del (get (m_epoll_fd l)) fd w) as [r w1]. cbn [snd] in Htr.
  destruct (erase_client_run fd l w1) as (l2 & w2 & E2 & Eq & Et).
  rewrite (M_bind_ok _ _ _ _ _ E2).
  rewrite (M_bind_ok _ _ _ _ _ (push_chunk_run l2 w2 _ ltac:(by rewrite Eq))).
  match goal with |- ∃ es, queued es _ (push_log ?t ?s0).2 =>
    assert (faithful (l, w) s0) as Hf end.
  { intros _. exists [Removed fd].
    split; cbn; [by rewrite Eq|by rewrite Et, Htr|by constructor|by rewrite Eq]. }
  exact (transitivity Hf (faithfully_push_log _ _) Hu).
Qed.

Lemma faithfully_event_step fuel stop : faithfully (event_step fuel stop).
Proof.
  apply preserves_event_step; [apply _|intros; apply faithful_world, read_event_transcript
    |intros; apply faithful_world, wait_transcript|intros; apply faithfully_push_log
    |apply faithfully_accept_step|apply faithfully_drain_step|apply faithfully_disconnect].
Qed.

End Trace.
