(* ===== verification/Traffic.v ===== *)
(** * What has been heard

    The specification of the whole data path, from what [recv] has read to the
    events of the scanner: on every descriptor, the bytes read up to the moment
    the client is dropped are one stream. [heard] does this read by read for all
    descriptors; [connections] says it for one, without any left-over bytes. The
    chunks that the listener queues make the parser do exactly that. *)

From S2P Require Import Prelude Telemetry Endian Scan ThreadSafeQueue StreamingParser ParserCorrect ParserTheorems Posix Listener ListenerChunks ListenerTrace.

Implicit Types (es : list traffic) (ls : leftovers).

(** ** The specification *)

(** The byte streams of the connections that [fd] has had, the last of which
    may still be open. *)
Definition connection_step (fd : Z) (st : list (list byte) * list byte) (e : traffic)
  : list (list byte) * list byte :=
  match e with
  | Read fd' bytes => if fd' =? fd then (st.1, st.2 ++ bytes) else st
  | Removed fd' => if fd' =? fd then (st.1 ++ [st.2], []) else st
  end.

Definition connections (fd : Z) es : list (list byte) :=
  let '(closed, current) := foldl (connection_step fd) ([], []) es in closed ++ [current].

(** What the scanner finds in them. *)
Definition said (fd : Z) es : list event :=
  concat (map (λ bytes, (scan bytes).1) (connections fd es)).

(** The events of one client. *)
Definition events_of (fd : Z) (out : list (Z * event)) : list event :=
  map snd (List.filter (λ e, e.1 =? fd) out).

(** ** Read by read *)

Definition listen (st : list (Z * event) * leftovers) (e : traffic)
  : list (Z * event) * leftovers :=
  match e with
  | Read fd bytes =>
      let '(found, rest) := scan (default [] (st.2 !! fd) ++ bytes) in
      (st.1 ++ map (pair fd) found, <[fd := rest]> st.2)
  | Removed fd => (st.1, delete fd st.2)
  end.

Definition heard es : list (Z * event) * leftovers := foldl listen ([], ∅) es.

Lemma heard_snoc es e : heard (es ++ [e]) = listen (heard es) e.
Proof. unfold heard. by rewrite foldl_app. Qed.

(** What has been heard stays. *)
Lemma heard_prefix es es' : (heard es).1 `prefix_of` (heard (es ++ es')).1.
Proof.
  induction es' as [|e es' IH] using rev_ind; [by rewrite app_nil_r|].
  rewrite app_assoc, heard_snoc. etransitivity; [exact IH|].
  destruct (heard (es ++ es')) as [out ls]. destruct e as [fd bytes|fd]; cbn; [|done].
  destruct (scan _). by apply prefix_app_r.
Qed.

Lemma events_of_app fd out out' : events_of fd (out ++ out') = events_of fd out ++ events_of fd out'.
Proof. unfold events_of. by rewrite List.filter_app, map_app. Qed.

Lemma events_of_tagged fd fd' found :
  events_of fd (map (pair fd') found) = if fd' =? fd then found else [].
Proof.
  unfold events_of. induction found as [|e found IH]; simpl; [by destruct (fd' =? fd)|].
  destruct (fd' =? fd); simpl; congruence.
Qed.

(** Every client is heard as if it were alone, connection by connection. *)
Lemma heard_said_aux fd es :
  let '(closed, current) := foldl (connection_step fd) ([], []) es in
  events_of fd (heard es).1 = concat (map (λ bytes, (scan bytes).1) closed) ++ (scan current).1
  ∧ default [] ((heard es).2 !! fd) = (scan current).2.
Proof.
  induction es as [|e es IH] using rev_ind; [done|].
  rewrite foldl_app, heard_snoc. cbn [foldl].
  destruct (foldl (connection_step fd) ([], []) es) as [closed current].
  destruct (heard es) as [out ls]. cbn [fst snd] in IH. destruct IH as [IH1 IH2].
  destruct e as [fd' bytes|fd']; cbn [connection_step listen fst snd].
  - destruct (Z.eqb_spec fd' fd) as [->|Hne].
    + rewrite IH2, (scan_app current bytes). destruct (scan ((scan current).2 ++ bytes)) as [found rest].
      cbn [fst snd]. rewrite events_of_app, events_of_tagged, Z.eqb_refl, IH1, <-app_assoc.
      by rewrite lookup_insert_eq.
    + destruct (scan (default [] (ls !! fd') ++ bytes)) as [found rest]. cbn [fst snd].
      rewrite events_of_app, events_of_tagged, (proj2 (Z.eqb_neq fd' fd) Hne), app_nil_r.
      by rewrite lookup_insert_ne.
  - destruct (Z.eqb_spec fd' fd) as [->|Hne]; cbn [fst snd].
    + rewrite map_app, concat_app. cbn [map concat]. rewrite lookup_delete_eq, IH1.
      change (scan []) with (@nil event, @nil byte). by rewrite !app_nil_r.
    + by rewrite lookup_delete_ne.
Qed.

Lemma heard_said fd es : events_of fd (heard es).1 = said fd es.
Proof.
  pose proof (heard_said_aux fd es) as Ha. unfold said, connections.
  destruct (foldl (connection_step fd) ([], []) es) as [closed current]. destruct Ha as [-> _].
  rewrite map_app, concat_app. cbn [map concat]. by rewrite app_nil_r.
Qed.

(** ** The parser hears it *)

(** A read of at most a buffer, and not of nothing. *)
Definition proper (e : traffic) : Prop := ordinary e ∧ small (chunk_of e).

Lemma abs_chunk_listen ls e out :
  undecided ls → proper e →
  ∃ found,
    listen (out, ls) e = (out ++ map (pair (client_id (chunk_of e))) found,
                          (abs_chunk ls (chunk_of e)).2)
    ∧ delivered (abs_chunk ls (chunk_of e)).1 = received found
    ∧ counted (abs_chunk ls (chunk_of e)).1 = failures found.
Proof.
  intros Hu [Ho Hs]. destruct e as [fd bytes|fd]; cbn [chunk_of client_id listen fst snd].
  - rewrite (abs_chunk_fits ls fd) by
      (done || (split; [done|split; [exact Ho|]]; unfold small, max_chunk, Listener.RECV_BUF_SIZE in *;
                cbn in *; lia)).
    cbn [data]. destruct (scan (default [] (ls !! fd) ++ bytes)) as [found rest]. exists found.
    cbn [fst snd]. by rewrite delivered_events, counted_events.
  - exists []. cbn. by rewrite app_nil_r.
Qed.

(** What the parser delivers and counts. *)
Lemma heard_parsed es :
  Forall proper es →
  (abs_run ∅ (map chunk_of es)).2 = (heard es).2
  ∧ delivered (map snd (abs_run ∅ (map chunk_of es)).1) = received (map snd (heard es).1)
  ∧ counted (map snd (abs_run ∅ (map chunk_of es)).1) = failures (map snd (heard es).1).
Proof.
  induction es as [|e es IH] using rev_ind; [done|].
  intros [Hes He]%Forall_app. apply Forall_cons in He as [He _].
  destruct (IH Hes) as (IH1 & IH2 & IH3). clear IH.
  rewrite heard_snoc, map_app, abs_run_app. cbn [map].
  rewrite abs_run_cons. cbn [fst snd abs_run]. rewrite app_nil_r, map_app, map_snd_pair.
  destruct (heard es) as [out ls]. cbn [fst snd] in *. rewrite IH1 in *.
  assert (undecided ls) as Hu by (rewrite <-IH1; apply abs_run_undecided, undecided_empty).
  destruct (abs_chunk_listen ls e out Hu He) as (found & -> & Hd & Hc). cbn [fst snd].
  rewrite delivered_app, counted_app, map_app, map_snd_pair, received_app, failures_app.
  by rewrite Hd, Hc, IH2, IH3.
Qed.

(** ** Packets *)

(** Encoded packets, in any number of connections, are said as they were sent. *)
Lemma said_packets fd es (sent : list (list Telemetry)) :
  connections fd es = map (λ ts, concat (map encode_packet ts)) sent →
  Forall (Forall sendable) sent → said fd es = map Received (concat sent).
Proof.
  unfold said. intros ->. rewrite map_map. induction sent as [|ts sent IH]; [done|].
  intros [Hts Hsent]%Forall_cons. cbn [map concat]. rewrite map_app, (IH Hsent). f_equal.
  pose proof (scan_packets ts [] Hts) as Hs. rewrite app_nil_r in Hs. rewrite Hs.
  change (scan []) with (@nil event, @nil byte). by rewrite app_nil_r.
Qed.
