(* ===== verification/ToyKernel.v ===== *)
(** * A small kernel

    A concrete instance of the system calls: descriptors are numbers, an unused
    one is handed out; connections and data wait in lists, and a read takes no
    more bytes than it asks for; [epoll_wait] answers with the raised eventfds
    it watches, or from a script. It satisfies the laws of [Posix.v], which
    shows that they can hold, and the listener runs on it. *)

From S2P Require Import Prelude Posix.

Record Kernel := mkKernel {
  k_open : gset Z;
  k_backlog : list string;
  k_inbox : list (list byte);
  k_events : list (list (Z * Z));
  k_watched : gset (Z * Z);
  k_raised : gset Z
}.

(** A machine where nothing is watched yet. *)
Definition fresh_kernel (o : gset Z) (backlog : list string) (inbox : list (list byte))
    (events : list (list (Z * Z))) : Kernel := mkKernel o backlog inbox events ∅ ∅.

(** An unused descriptor. *)
Definition unused (k : Kernel) : Z :=
  Z.of_nat (fresh (set_map Z.to_nat (k_open k) : gset nat)).

Definition with_open (o : gset Z) (k : Kernel) : Kernel :=
  mkKernel o (k_backlog k) (k_inbox k) (k_events k) (k_watched k) (k_raised k).
Definition with_network (backlog : list string) (inbox : list (list byte)) (k : Kernel) : Kernel :=
  mkKernel (k_open k) backlog inbox (k_events k) (k_watched k) (k_raised k).
Definition with_events (events : list (list (Z * Z))) (k : Kernel) : Kernel :=
  mkKernel (k_open k) (k_backlog k) (k_inbox k) events (k_watched k) (k_raised k).
Definition with_wake (ws : gset (Z * Z)) (rs : gset Z) (k : Kernel) : Kernel :=
  mkKernel (k_open k) (k_backlog k) (k_inbox k) (k_events k) ws rs.

Definition k_new (k : Kernel) : sysret * Kernel :=
  (mkRet (unused k) 0, with_open ({[unused k]} ∪ k_open k) k).

Definition k_ok (k : Kernel) : sysret * Kernel := (mkRet 0 0, k).

Definition k_accept (k : Kernel) : sysret * string * Kernel :=
  match k_backlog k with
  | [] => (mkRet (-1) EAGAIN, "", k)
  | addr :: rest =>
      (mkRet (unused k) 0, addr,
       with_open ({[unused k]} ∪ k_open k) (with_network rest (k_inbox k) k))
  end%string.

(** A read takes what is there of one piece; what does not fit stays. *)
Definition k_recv (n : Z) (k : Kernel) : sysret * list byte * Kernel :=
  match k_inbox k with
  | [] => (mkRet (-1) EAGAIN, [], k)
  | bytes :: rest =>
      let got := take (Z.to_nat n) bytes in
      let rest := match drop (Z.to_nat n) bytes with [] => rest | b :: bs => (b :: bs) :: rest end in
      (mkRet (zlen got) 0, got, with_network (k_backlog k) rest k)
  end.

(** The raised eventfds that [ep] watches. *)
Definition k_wakeups (ep : Z) (k : Kernel) : list (Z * Z) :=
  map (λ x, (x.2, EPOLLIN)) (elements (filter (λ x, x.1 = ep ∧ x.2 ∈ k_raised k) (k_watched k))).

Definition k_wait (ep : Z) (k : Kernel) : sysret * list (Z * Z) * Kernel :=
  match k_wakeups ep k, k_events k with
  | [], [] => (mkRet 0 0, [], k)
  | [], events :: rest => (mkRet (zlen events) 0, events, with_events rest k)
  | events, _ => (mkRet (zlen events) 0, events, k)
  end.

Definition k_close (fd : Z) (k : Kernel) : Kernel :=
  with_wake (filter (λ x, x.1 ≠ fd ∧ x.2 ≠ fd) (k_watched k)) (k_raised k ∖ {[fd]})
    (with_open (k_open k ∖ {[fd]}) k).

#[export] Instance kernel : Posix Kernel := {|
  sys_socket := k_new;
  sys_setsockopt_reuseaddr _ := k_ok;
  sys_fcntl_getfl _ := k_ok;
  sys_fcntl_setfl _ _ := k_ok;
  sys_bind _ _ := k_ok;
  sys_listen _ := k_ok;
  sys_epoll_create1 := k_new;
  sys_eventfd := k_new;
  sys_epoll_ctl_add ep fd _ k :=
    (mkRet 0 0, with_wake ({[(ep, fd)]} ∪ k_watched k) (k_raised k) k);
  sys_epoll_ctl_del ep fd k :=
    (mkRet 0 0, with_wake (k_watched k ∖ {[(ep, fd)]}) (k_raised k) k);
  sys_epoll_wait ep _ := k_wait ep;
  sys_accept _ := k_accept;
  sys_recv _ := k_recv;
  sys_read_event fd k := with_wake (k_watched k) (k_raised k ∖ {[fd]}) k;
  sys_write_event fd k := with_wake (k_watched k) ({[fd]} ∪ k_raised k) k;
  sys_close := k_close;
  strerror _ := "error"%string
|}.

Lemma unused_nonneg k : 0 <= unused k.
Proof. unfold unused. lia. Qed.

Lemma unused_fresh k : unused k ∉ k_open k.
Proof.
  unfold unused. set (X := set_map Z.to_nat (k_open k) : gset nat). intros Hin.
  apply (is_fresh X). apply elem_of_map. exists (Z.of_nat (fresh X)).
  split; [by rewrite Nat2Z.id|done].
Qed.

Lemma k_new_opens : opens k_open k_new.
Proof.
  intros k. simpl. left. split; [apply unused_nonneg|]. split; [apply unused_fresh|done].
Qed.

(** Waiting changes nothing but the script. *)
Lemma k_wait_only_script ep k : ∃ events, (k_wait ep k).2 = with_events events k.
Proof.
  unfold k_wait. destruct (k_wakeups ep k); [destruct (k_events k) as [|e es] eqn:E|].
  - exists (k_events k). by destruct k.
  - by exists es.
  - exists (k_events k). by destruct k.
Qed.

Lemma k_recv_only_inbox n k : ∃ inbox, (k_recv n k).2 = with_network (k_backlog k) inbox k.
Proof.
  unfold k_recv. destruct (k_inbox k) as [|b bs] eqn:E; [|by eexists].
  exists (k_inbox k). by destruct k.
Qed.

#[export, refine] Instance kernel_laws : PosixLaws Kernel := {| open_fds := k_open |}.
Proof.
  all: try (intros; intros k; reflexivity).
  - apply k_new_opens.
  - apply k_new_opens.
  - apply k_new_opens.
  - intros fd k. simpl. unfold k_accept. destruct (k_backlog k); [by right|left].
    split; [apply unused_nonneg|]. split; [apply unused_fresh|done].
  - intros fd k. done.
  - intros ep n k. simpl. by destruct (k_wait_only_script ep k) as [events ->].
  - intros fd n k. simpl. by destruct (k_recv_only_inbox n k) as [inbox ->].
  - intros fd n k. simpl. unfold k_recv. destruct (k_inbox k) as [|bytes rest]; cbn [ret]; [lia|].
    intros Hp. split; [done|]. destruct (Z.leb_spec n 0) as [Hn|Hn].
    + exfalso. replace (Z.to_nat n) with 0%nat in Hp by lia. by apply Z.lt_irrefl in Hp.
    + rewrite zlen_take by lia. lia.
Defined.

#[export, refine] Instance kernel_burst : PosixBursts Kernel :=
  {| burst k := (length (k_backlog k) + length (concat (k_inbox k)))%nat |}.
Proof.
  all: try (intros; reflexivity).
  - intros fd k. pose proof (unused_nonneg k). destruct k as [o [|addr b] i e ws rs]; simpl in *; [lia|].
    ztrue. lia.
  - intros fd n k. destruct k as [o b [|bytes i] e ws rs]; simpl; [lia|].
    set (got := take (Z.to_nat n) bytes). pose proof (zlen_nonneg got).
    assert (length (concat (match drop (Z.to_nat n) bytes with [] => i | b :: bs => (b :: bs) :: i end))
      = length (drop (Z.to_nat n) bytes) + length (concat i))%nat as E
      by (destruct (drop (Z.to_nat n) bytes); simpl; [done|by rewrite length_app]).
    pose proof (f_equal length (take_drop (Z.to_nat n) bytes)) as Hlen.
    rewrite length_app in Hlen |- *. fold got in Hlen. rewrite E.
    destruct (Z.ltb_spec 0 (zlen got)); unfold zlen in *; lia.
Defined.

(** What [epoll_wait] does not sleep through: a raised eventfd that is watched,
    or an event of the script. *)
Definition k_ready (ep : Z) (k : Kernel) : Prop :=
  (∃ fd, (ep, fd) ∈ k_watched k ∧ fd ∈ k_raised k) ∨ k_events k ≠ [].

#[export] Instance k_ready_dec ep k : Decision (k_ready ep k).
Proof.
  refine (cast_if (decide (k_wakeups ep k ≠ [] ∨ k_events k ≠ [])));
    unfold k_ready, k_wakeups in *.
  - destruct o as [Hw|He]; [left|by right].
    destruct (elements (filter _ (k_watched k))) as [|[e fd] xs] eqn:E; [done|].
    exists fd. assert ((e, fd) ∈ elements (filter (λ x : Z * Z, x.1 = ep ∧ x.2 ∈ k_raised k) (k_watched k)))
      as Hin by (rewrite E; left).
    apply elem_of_elements, elem_of_filter in Hin as [[<- Hr] Hin]. done.
  - intros [(fd & Hw & Hr)|He]; apply n; [left|by right].
    assert ((ep, fd) ∈ elements (filter (λ x : Z * Z, x.1 = ep ∧ x.2 ∈ k_raised k) (k_watched k)))
      as Hin by (by apply elem_of_elements, elem_of_filter).
    by destruct (elements _) as [|x xs]; [apply not_elem_of_nil in Hin|].
Defined.

(** Connections and data arrive; nothing else changes by itself. *)
Definition k_moves (k k' : Kernel) : Prop :=
  ∃ backlog inbox, k' = with_network (k_backlog k ++ backlog) (k_inbox k ++ inbox) k.

#[export, refine] Instance kernel_wake : PosixWake Kernel :=
  {| watched := k_watched; raised := k_raised; epoll_ready := k_ready; kernel_moves := k_moves |}.
Proof.
  - intros ep fd k Hw Hr. left. by exists fd.
  - intros ep fd ev k. by split.
  - intros ep fd k. by split.
  - intros fd k. by split.
  - intros fd k. by split.
  - intros fd k. by split.
  - intros fd k. simpl. unfold k_accept. by destruct (k_backlog k).
  - intros fd k. done.
  - intros fd flags k. done.
  - intros ep n k. simpl. by destruct (k_wait_only_script ep k) as [events ->].
  - intros fd n k. simpl. by destruct (k_recv_only_inbox n k) as [inbox ->].
  - intros k k' (backlog & inbox & ->). by split.
Defined.

#[export] Instance kernel_ready_dec ep (k : Kernel) : Decision (epoll_ready ep k) := k_ready_dec ep k.
