(* ===== verification/ListenerProperties.v ===== *)
(** * Properties of the listener

    Descriptors, data and termination, for every kernel that satisfies the
    laws of [Posix.v]; the witnesses run on the small kernel of
    [ToyKernel.v]. *)

From S2P Require Import Prelude Telemetry ThreadSafeQueue Posix Triples Listener ListenerOwnership ListenerCorrect ToyKernel.

Import Listener.

Section Properties.
Context {W : Type} `{PosixLaws W}.

(** C36: no descriptor is leaked and none of the rest of the process is closed.
    However long the listener runs, whatever the kernel answers, and whether
    [run] returns, throws from its set-up or is still in a loop: every client
    in the table is open and is its own key, and destroying the listener
    leaves exactly the descriptors open that were open before it. *)
Theorem no_descriptor_leaked port queue log (w : W) fuel already stops :
  m_max_size queue = 0 → m_max_size log = 0 →
  ∃ o l' w',
    run fuel already stops (new_listener port queue log, w) = (o, (l', w'))
    ∧ o ≠ Undefined ∧ o ≠ Blocked
    ∧ (∀ fd h, m_clients l' !! fd = Some h → get h = fd ∧ fd ∈ open_fds w')
    ∧ open_fds (destroy_listener l' w') = open_fds w.
Proof.
  intros Hq Hl. pose proof (new_listener_owns port queue log w Hq Hl) as Ho.
  pose proof (run_safe (open_fds w) fuel already stops _ Ho) as Hs. unfold safe, runs in Hs.
  destruct (run fuel already stops (new_listener port queue log, w)) as [o [l' w']].
  exists o, l', w'. split; [done|].
  assert (o ≠ Undefined ∧ o ≠ Blocked ∧ owns (open_fds w) (l', w')) as (Hu & Hb & Ho')
    by (by destruct o).
  split; [done|]. split; [done|]. split; [|by apply destroy_listener_closes].
  intros fd h Hh. destruct Ho' as [Hlay Hc _]. simpl in Hc. destruct (Hc fd h Hh) as [Hm _].
  split; [done|]. unfold layout_of in Hlay. simpl in Hlay. destruct Hlay as [-> _ _ _ _].
  apply elem_of_dom_2 in Hh. set_solver.
Qed.

(** The drain loop delivers the bytes of the socket exactly: when [recv]
    answers with the chunks [cs] and then stops, the chunks are queued for the
    parser in order under the client's descriptor, each non-empty and at most
    4096 bytes; the result is false exactly when the peer closed or an error
    other than EAGAIN occurred, and only an error is logged. *)
Theorem drain_delivers_bytes fd l (w : W) cs r w' fuel :
  ready l → receives fd w cs r w' → (length cs < fuel)%nat →
  ∃ l', handle_client_data fuel fd (l, w) = (Ok (still_alive r), (l', w'))
    ∧ ThreadSafeQueue.m_queue (m_queue l')
      = ThreadSafeQueue.m_queue (m_queue l) ++ map (mkDataChunk fd) cs
    ∧ Forall (λ c, c ≠ [] ∧ zlen c <= 4096) cs
    ∧ ThreadSafeQueue.m_queue (m_log_queue l')
      = ThreadSafeQueue.m_queue (m_log_queue l) ++ end_message fd r
    ∧ m_clients l' = m_clients l.
Proof.
  intros Hr Hrec Hf. destruct (handle_client_data_run fd w cs r w' Hrec fuel l Hr Hf)
    as (l' & E & [H1 H2 H3 _ _]).
  exists l'. rewrite H1, H2. split_and!; try done. by eapply receives_sizes.
Qed.

(** What a disconnect does. *)
Lemma disconnect_client_run fd l (w : W) :
  m_max_size (m_queue l) = 0 → m_max_size (m_log_queue l) = 0 →
  ∃ w', disconnect_client fd (l, w)
    = (Ok tt, (set_log_queue (enqueue (disconnected_text fd) (m_log_queue l))
                 (set_queue (enqueue (mkDataChunk fd []) (m_queue l))
                    (set_clients (delete fd (m_clients l)) l)), w')).
Proof.
  intros Hq Hl. unfold disconnect_client, self. rewrite bind_gets.
  unfold mbind at 1, M_bind at 1, sys. cbn [fst snd].
  destruct (sys_epoll_ctl_del (get (m_epoll_fd l)) fd w) as [r w1].
  assert (∃ w2, erase_client fd (l, w1) = (Ok tt, (set_clients (delete fd (m_clients l)) l, w2)))
    as [w2 He].
  { unfold erase_client, self. rewrite bind_gets. cbn [fst].
    destruct (m_clients l !! fd) as [h|] eqn:Hfd; [by eexists|].
    exists w1. rewrite delete_id by done. by destruct l. }
  rewrite (M_bind_ok _ _ _ _ _ He).
  rewrite (M_bind_ok _ _ _ _ _ (push_chunk_run (set_clients (delete fd (m_clients l)) l) w2 _ Hq)).
  exists w2. by rewrite push_log_run.
Qed.

(** The two questions [run] asks about an event of a client. *)
Definition hung_up (flags : Z) : bool := negb (Z.land flags (Z.lor EPOLLERR EPOLLHUP) =? 0).
Definition readable (flags : Z) : bool := negb (Z.land flags EPOLLIN =? 0).

(** C37: the session of a client as the parser sees it. An event of a client
    queues the data read from it and then, if and only if the client is
    dropped from the table, one empty chunk after all of its data; on an
    error or hang-up nothing more is read. *)
Theorem client_event_protocol fd flags l (w : W) cs r w' fuel :
  ready l → fd ≠ get (m_event_fd l) → fd ≠ get (m_server_fd l) →
  receives fd w cs r w' → (length cs < fuel)%nat →
  let dropped := hung_up flags || (readable flags && negb (still_alive r)) in
  let read := if negb (hung_up flags) && readable flags then cs else [] in
  ∃ l' w'', dispatch fuel (fd, flags) (l, w) = (Ok Continue, (l', w''))
    ∧ ThreadSafeQueue.m_queue (m_queue l')
      = ThreadSafeQueue.m_queue (m_queue l) ++ map (mkDataChunk fd) read
        ++ (if dropped then [mkDataChunk fd []] else [])
    ∧ m_clients l' = if dropped then delete fd (m_clients l) else m_clients l.
Proof.
  intros Hr He Hs Hrec Hf. unfold dispatch, self. rewrite bind_gets. cbn [fst].
  rewrite (proj2 (Z.eqb_neq _ _) He), (proj2 (Z.eqb_neq _ _) Hs).
  fold (hung_up flags). fold (readable flags). destruct Hr as [Hb Hq Hl] eqn:Hready.
  destruct (hung_up flags); cbn [negb andb orb].
  { destruct (disconnect_client_run fd l w Hq Hl) as [w2 E].
    rewrite (M_bind_ok _ _ _ _ _ E). by eexists _, w2. }
  destruct (readable flags); cbn [negb andb orb].
  2: { exists l, w. by rewrite app_nil_r. }
  destruct (handle_client_data_run fd w cs r w' Hrec fuel l Hr Hf) as (l1 & E & [H1 H2 H3 _ _]).
  rewrite (M_bind_ok _ _ _ _ _ E).
  destruct (still_alive r); cbn [negb].
  - exists l1, w'. rewrite app_nil_r, H1. done.
  - destruct (disconnect_client_run fd l1 w') as [w2 E2]; [by rewrite H1|by rewrite H2|].
    rewrite (M_bind_ok _ _ _ _ _ E2). eexists _, w2. split; [done|].
    split; simpl; [rewrite H1; simpl; by rewrite <-app_assoc|by rewrite H3].
Qed.

(** C38: handling an event terminates: when the burst of connections and data is
    finite ([PosixBursts]), no accept loop and no drain loop runs for ever and no
    exception escapes from it, whatever the kernel answers. *)
Theorem event_handling_terminates `{!PosixBursts W} base fuel event s :
  owns base s → (burst s.2 < fuel)%nat →
  ∃ c s', dispatch fuel event s = (Ok c, s') ∧ owns base s'.
Proof. intros Ho Hf. by apply runs_returns, dispatch_ends. Qed.

(** Without that, it need not. A client that sends as fast as the listener
    reads, so that there is always something to read, keeps the listener in its
    drain loop for ever: whatever the fuel, it runs out. The loop does not look
    at the stop token, so a shutdown that is requested meanwhile waits for it. *)
Theorem flooded_for_ever (flooded : W → Prop) fd :
  (∀ w, flooded w →
    let '(r, _, w') := sys_recv fd RECV_BUF_SIZE w in 0 < ret r ∧ flooded w') →
  ∀ fuel l w, ready l → flooded w → ∃ s', handle_client_data fuel fd (l, w) = (OutOfFuel, s').
Proof.
  intros Hflood fuel. unfold handle_client_data.
  induction fuel as [|fuel IH]; intros l w Hr Hw; [by eexists|].
  specialize (Hflood w Hw). destruct (sys_recv fd RECV_BUF_SIZE w) as [[r bytes] w1] eqn:E.
  destruct Hflood as [Hp Hw1]. destruct (drain_step_more l w fd r bytes w1 Hr E Hp) as [E1 Hr1].
  cbn [loop_return]. rewrite (M_bind_ok _ _ _ _ _ E1). by apply IH.
Qed.

End Properties.

(** ** Witnesses *)

(** Standard input, output and error are open; two clients are waiting, and
    data for one of them. *)
Definition machine : Kernel :=
  fresh_kernel {[0; 1; 2]} ["10.0.0.1"; "10.0.0.2"]%string [[Byte.x01; Byte.x02]; [Byte.x03]; []]
    [[(3, EPOLLIN)]; [(6, EPOLLIN)]; [(5, EPOLLIN)]].

Definition fresh_listener : NetworkListener := new_listener 9000 (new_queue 0) (new_queue 0).

Example machine_run :
  let '(o, (l, w)) := run 10 false [false; false; false; true] (fresh_listener, machine) in
  (o, ThreadSafeQueue.m_queue (m_queue l), elements (dom (m_clients l)),
   bool_decide (k_open w = {[0; 1; 2; 3; 4; 5; 7]}),
   bool_decide (k_open (destroy_listener l w) = {[0; 1; 2]}))
  = (Ok true,
     [mkDataChunk 6 [Byte.x01; Byte.x02]; mkDataChunk 6 [Byte.x03]; mkDataChunk 6 []],
     [7], true, true).
Proof. vm_compute. reflexivity. Qed.

Lemma no_descriptor_leaked_witness :
  ∃ o l' w',
    run 10 false [false; false; false; true] (fresh_listener, machine) = (o, (l', w'))
    ∧ o ≠ Undefined ∧ o ≠ Blocked
    ∧ (∀ fd h, m_clients l' !! fd = Some h → get h = fd ∧ fd ∈ open_fds w')
    ∧ open_fds (destroy_listener l' w') = open_fds machine.
Proof.
  apply (no_descriptor_leaked 9000 (new_queue 0) (new_queue 0) machine 10 false
    [false; false; false; true]); reflexivity.
Defined.

(** What [recv] answers on the machine: two chunks, then the end. *)
Definition machine_chunks : list (list byte) := [[Byte.x01; Byte.x02]; [Byte.x03]].

Lemma machine_receives :
  ∃ w', receives 6 machine machine_chunks (mkRet 0 0) w'.
Proof.
  eexists. eapply receives_more; [reflexivity|reflexivity|].
  eapply receives_more; [reflexivity|reflexivity|].
  eapply receives_end; [reflexivity|]. discriminate.
Qed.

Lemma fresh_listener_ready : ready fresh_listener.
Proof. by split. Qed.

Lemma drain_delivers_bytes_witness :
  ∃ w' l', handle_client_data 5 6 (fresh_listener, machine) = (Ok false, (l', w'))
    ∧ ThreadSafeQueue.m_queue (m_queue l')
      = [mkDataChunk 6 [Byte.x01; Byte.x02]; mkDataChunk 6 [Byte.x03]]
    ∧ Forall (λ c, c ≠ [] ∧ zlen c <= 4096) machine_chunks
    ∧ ThreadSafeQueue.m_queue (m_log_queue l') = []
    ∧ m_clients l' = ∅.
Proof.
  destruct machine_receives as [w' Hr]. exists w'.
  apply (drain_delivers_bytes 6 fresh_listener machine machine_chunks (mkRet 0 0) w' 5
    fresh_listener_ready Hr). simpl. lia.
Defined.

Lemma client_event_protocol_witness :
  ∃ l' w'', dispatch 5 (6, EPOLLIN) (fresh_listener, machine) = (Ok Continue, (l', w''))
    ∧ ThreadSafeQueue.m_queue (m_queue l')
      = [mkDataChunk 6 [Byte.x01; Byte.x02]; mkDataChunk 6 [Byte.x03]; mkDataChunk 6 []]
    ∧ m_clients l' = delete 6 (m_clients fresh_listener).
Proof.
  destruct machine_receives as [w' Hr].
  apply (client_event_protocol 6 EPOLLIN fresh_listener machine machine_chunks (mkRet 0 0) w' 5
    fresh_listener_ready); [discriminate|discriminate|exact Hr|simpl; lia].
Defined.

Lemma event_handling_terminates_witness :
  ∃ c s', dispatch 6 (6, EPOLLIN) (fresh_listener, machine) = (Ok c, s')
          ∧ owns (open_fds machine) s'.
Proof.
  apply (event_handling_terminates (open_fds machine) 6 (6, EPOLLIN) (fresh_listener, machine)).
  - apply (new_listener_owns 9000 (new_queue 0) (new_queue 0) machine); reflexivity.
  - simpl. lia.
Defined.

(** A machine on which every read finds a byte. *)
#[local] Instance flooding : Posix Kernel := {|
  sys_socket := k_new;
  sys_setsockopt_reuseaddr _ := k_ok;
  sys_fcntl_getfl _ := k_ok;
  sys_fcntl_setfl _ _ := k_ok;
  sys_bind _ _ := k_ok;
  sys_listen _ := k_ok;
  sys_epoll_create1 := k_new;
  sys_eventfd := k_new;
  sys_epoll_ctl_add _ _ _ := k_ok;
  sys_epoll_ctl_del _ _ := k_ok;
  sys_epoll_wait ep _ := k_wait ep;
  sys_accept _ := k_accept;
  sys_recv _ n k := if 0 <? n then (mkRet 1 0, [Byte.x00], k) else (mkRet 0 0, [], k);
  sys_read_event _ k := k;
  sys_write_event _ k := k;
  sys_close := k_close;
  strerror _ := "error"%string
|}.

#[local, refine] Instance flooding_laws : PosixLaws Kernel := {| open_fds := k_open |}.
Proof.
  all: try (intros; intros k; reflexivity).
  - apply k_new_opens.
  - apply k_new_opens.
  - apply k_new_opens.
  - intros fd k. exact (accept_opens (PosixLaws := kernel_laws) fd k).
  - done.
  - intros ep n k. exact (wait_keeps (PosixLaws := kernel_laws) ep n k).
  - intros fd n k. cbn. by destruct (0 <? n).
  - intros fd n k. cbn. destruct (Z.ltb_spec 0 n); cbn; [|lia]. intros _. split; [done|]. change (1 <= n). lia.
Defined.

Lemma flooded_for_ever_witness :
  ∃ s', handle_client_data 1000 6 (fresh_listener, machine) = (OutOfFuel, s').
Proof.
  apply (flooded_for_ever (λ _, True) 6).
  - intros w _. split; [reflexivity|exact I].
  - exact fresh_listener_ready.
  - exact I.
Defined.
