(* ===== verification/Main.v ===== *)
(** * The program (src/main.cpp)

    The command line, what main prints, and the order in which the threads are
    stopped and joined. The shutdown is a step relation: what main does next, what the
    other threads may do meanwhile, and the history of the log messages. *)

From S2P Require Import Prelude.

Module Main.

(** ** The command line *)

Definition default_port : Z := 9000.
Definition default_log_file : string := "log/counter_drone.log".

Definition code (c : Ascii.ascii) : Z := Z.of_nat (Ascii.nat_of_ascii c).

(** [isspace] in the "C" locale. *)
Definition is_space (c : Ascii.ascii) : bool :=
  (code c =? 32) || ((9 <=? code c) && (code c <=? 13)).

Definition is_digit (c : Ascii.ascii) : bool := (48 <=? code c) && (code c <=? 57).

Fixpoint skip_spaces (s : string) : string :=
  match s with
  | String c s' => if is_space c then skip_spaces s' else s
  | EmptyString => s
  end.

(** The number the leading digits make, after [acc]. *)
Fixpoint digits (acc : Z) (s : string) : Z :=
  match s with
  | String c s' => if is_digit c then digits (10 * acc + (code c - 48)) s' else acc
  | EmptyString => acc
  end.

(** [std::atoi]; a value that is no [int] is undefined behaviour. *)
Definition atoi (s : string) : outcome Z :=
  let s := skip_spaces s in
  let n := match s with
           | String c s' =>
               if code c =? 45 then - digits 0 s'
               else if code c =? 43 then digits 0 s' else digits 0 s
           | EmptyString => 0
           end in
  if (- 2 ^ 31 <=? n) && (n <? 2 ^ 31) then Ok n else Undefined.

(** The loop over [argv[1]], ..., [argv[argc - 1]]. *)
Fixpoint parse_arguments (arguments : list string) (port : Z) (log_file_path : string)
  : outcome (Z * string) :=
  match arguments with
  | [] => Ok (port, log_file_path)
  | argument :: rest =>
      match bool_decide (argument = "--log-file"%string), rest with
      | true, path :: rest => parse_arguments rest port path
      | _, _ => n ← atoi argument; parse_arguments rest (u16 n) log_file_path
      end
  end.

Definition command_line (arguments : list string) : outcome (Z * string) :=
  parse_arguments arguments default_port default_log_file.

(** ** Shutdown *)

Inductive thread := listener_thread | parser_thread | logic_thread | logger_thread.

#[global] Instance thread_eq_dec : EqDecision thread.
Proof. solve_decision. Defined.

#[global] Instance thread_countable : Countable thread.
Proof.
  refine (inj_countable' (λ t, match t with
            | listener_thread => 0 | parser_thread => 1 | logic_thread => 2 | logger_thread => 3
            end)%nat
          (λ n, match n with
            | 0 => listener_thread | 1 => parser_thread | 2 => logic_thread | _ => logger_thread
            end)%nat _).
  by intros [].
Defined.

Inductive action := request_stop (t : thread) | join (t : thread) | print (text : string).

#[global] Instance action_eq_dec : EqDecision action.
Proof. solve_decision. Defined.

(** What main prints: before it constructs the components, when it has seen the
    signal, and at the end. *)
Definition banner (port : Z) (log_file_path : string) : list string :=
  ["=== Counter-Drone Communication Layer ===" +:+ newline;
   "Starting on port " +:+ to_string port +:+ "  (logging to " +:+ log_file_path +:+ ")"
   +:+ "  (Ctrl+C to stop)" +:+ newline +:+ newline]%string.
Definition sigint_text : string :=
  newline +:+ "[Main] SIGINT received — initiating graceful shutdown..." +:+ newline.
Definition goodbye_text : string := "[Main] All threads joined. Goodbye." +:+ newline.

(** What main does once it has seen [g_shutdown_requested]; the last join is the
    destructor of [logger_thread]. *)
Definition shutdown_sequence : list action :=
  [print sigint_text;
   request_stop listener_thread; join listener_thread;
   request_stop parser_thread; join parser_thread;
   request_stop logic_thread; join logic_thread;
   request_stop logger_thread; print goodbye_text; join logger_thread].

(** How far main is, the threads that have been asked to stop and those that
    have returned, the log queue, and the messages pushed and written. *)
Record Program := mkProgram {
  progress : nat;
  asked : gset thread;
  returned : gset thread;
  log_queue : list string;
  pushed : list string;
  written : list string
}.

Definition launched : Program := mkProgram 0 ∅ ∅ [] [] [].

Inductive step : Program → Program → Prop :=
| main_requests p t :
    shutdown_sequence !! progress p = Some (request_stop t) →
    step p (mkProgram (S (progress p)) ({[t]} ∪ asked p) (returned p) (log_queue p) (pushed p)
              (written p))
| main_joins p t :
    shutdown_sequence !! progress p = Some (join t) → t ∈ returned p →
    step p (mkProgram (S (progress p)) (asked p) (returned p) (log_queue p) (pushed p)
              (written p))
| main_prints p text :
    shutdown_sequence !! progress p = Some (print text) →
    step p (mkProgram (S (progress p)) (asked p) (returned p) (log_queue p) (pushed p)
              (written p))
| thread_logs p t message :
    t ≠ logger_thread → t ∉ returned p →
    step p (mkProgram (progress p) (asked p) (returned p) (log_queue p ++ [message])
              (pushed p ++ [message]) (written p))
| thread_returns p t :
    (* a pipeline thread may also return by itself, as the listener does when
       epoll_wait fails *)
    t ≠ logger_thread → t ∉ returned p →
    step p (mkProgram (progress p) (asked p) ({[t]} ∪ returned p) (log_queue p) (pushed p)
              (written p))
| logger_writes p message rest :
    logger_thread ∉ returned p → log_queue p = message :: rest →
    step p (mkProgram (progress p) (asked p) (returned p) rest (pushed p)
              (written p ++ [message]))
| logger_returns p :
    (* the logger returns when it has been asked and its queue is empty *)
    logger_thread ∈ asked p → logger_thread ∉ returned p → log_queue p = [] →
    step p (mkProgram (progress p) (asked p) ({[logger_thread]} ∪ returned p) (log_queue p)
              (pushed p) (written p)).

Definition reachable (p : Program) : Prop := rtc step launched p.

(** Main has executed all of its shutdown sequence. *)
Definition finished (p : Program) : Prop := progress p = length shutdown_sequence.

End Main.
