(* ===== verification/MainProperties.v ===== *)
(** * Properties of the program

    The command line read back from its options, and the shutdown order that
    makes the last message of every thread reach the log. *)

From S2P Require Import Prelude Main.

Import Main.

(** ** Decimal numerals *)

Lemma digits_char acc d s :
  (d < 10)%N → digits acc (String (pretty_N_char d) s) = digits (10 * acc + Z.of_N d) s.
Proof.
  intros Hd.
  assert (is_digit (pretty_N_char d) = true ∧ code (pretty_N_char d) - 48 = Z.of_N d) as [H1 H2].
  { assert (d ∈ [0; 1; 2; 3; 4; 5; 6; 7; 8; 9]%N) as Hin by (set_unfold; lia).
    set_unfold. destruct_or!; subst d; by split. }
  cbn [digits]. by rewrite H1, H2.
Qed.

Lemma digits_numeral x s : digits 0 (pretty_N_go x s) = digits (Z.of_N x) s.
Proof.
  revert s. induction (N.lt_wf_0 x) as [x _ IH]. intros s.
  destruct (decide (x = 0)%N) as [->|Hx]; [by rewrite pretty_N_go_0|].
  rewrite pretty_N_go_step by lia. rewrite IH by (apply N.div_lt; lia).
  rewrite digits_char by (apply N.mod_lt; lia). f_equal.
  pose proof (N.div_mod x 10 ltac:(lia)). lia.
Qed.

Lemma numeral_head x s :
  (0 < x)%N → ∃ d s', (d < 10)%N ∧ pretty_N_go x s = String (pretty_N_char d) s'.
Proof.
  revert s. induction (N.lt_wf_0 x) as [x _ IH]. intros s Hx. rewrite pretty_N_go_step by lia.
  destruct (decide (x `div` 10 = 0)%N) as [->|Hq].
  - rewrite pretty_N_go_0. exists (x `mod` 10)%N, s. split; [by apply N.mod_lt|done].
  - apply IH; [by apply N.div_lt|]. by apply N.neq_0_lt_0.
Qed.

(** A digit is no space and no sign. *)
Lemma digit_char d :
  (d < 10)%N →
  is_space (pretty_N_char d) = false ∧ (code (pretty_N_char d) =? 45) = false
  ∧ (code (pretty_N_char d) =? 43) = false.
Proof.
  intros Hd. assert (d ∈ [0; 1; 2; 3; 4; 5; 6; 7; 8; 9]%N) as Hin by (set_unfold; lia).
  set_unfold. destruct_or!; subst d; by split_and!.
Qed.

Definition is_int (n : Z) : Prop := - 2 ^ 31 ≤ n < 2 ^ 31.

Lemma in_int_range n : is_int n → (- 2 ^ 31 <=? n) && (n <? 2 ^ 31) = true.
Proof. unfold is_int. lia. Qed.

Definition minus_sign : Ascii.ascii := Ascii.ascii_of_nat 45.

Lemma atoi_pretty n : is_int n → atoi (pretty n) = Ok n.
Proof.
  intros Hn. apply in_int_range in Hn. destruct n as [|p|p]; [done| |].
  - replace (pretty (Z.pos p)) with (pretty_N_go (N.pos p) "") by done.
    destruct (numeral_head (N.pos p) "" ltac:(lia)) as (d & s & Hd & E).
    destruct (digit_char d Hd) as (H1 & H2 & H3).
    unfold atoi. rewrite E. cbn [skip_spaces]. rewrite H1, H2, H3, <- E, digits_numeral.
    cbn [digits Z.of_N]. by rewrite Hn.
  - replace (pretty (Z.neg p)) with (String minus_sign (pretty_N_go (N.pos p) "")) by done.
    unfold atoi. cbn [skip_spaces]. change (is_space minus_sign) with false. cbn match.
    change (code minus_sign =? 45) with true. cbn match. rewrite digits_numeral.
    change (- digits (Z.of_N (N.pos p)) "") with (Z.neg p). by rewrite Hn.
Qed.

Lemma pretty_not_log_file (n : Z) : bool_decide (pretty n = "--log-file"%string) = false.
Proof.
  apply bool_decide_eq_false. destruct n as [|p|p]; [done| |].
  - replace (pretty (Z.pos p)) with (pretty_N_go (N.pos p) "") by done.
    destruct (numeral_head (N.pos p) "" ltac:(lia)) as (d & s & Hd & ->).
    intros [= E _]. destruct (digit_char d Hd) as (_ & H2 & _). by rewrite E in H2.
  - replace (pretty (Z.neg p)) with (String minus_sign (pretty_N_go (N.pos p) "")) by done.
    destruct (numeral_head (N.pos p) "" ltac:(lia)) as (d & s & Hd & ->).
    intros [= E _]. destruct (digit_char d Hd) as (_ & H2 & _). by rewrite E in H2.
Qed.

(** ** Options *)

(** What a command line says, and how it is written. *)
Inductive option_given := port_given (n : Z) | log_file_given (path : string).

Definition render (o : option_given) : list string :=
  match o with
  | port_given n => [pretty n]
  | log_file_given path => ["--log-file"%string; path]
  end.

Definition ports_given (os : list option_given) : list Z :=
  omap (λ o, match o with port_given n => Some n | _ => None end) os.
Definition log_files_given (os : list option_given) : list string :=
  omap (λ o, match o with log_file_given path => Some path | _ => None end) os.

Definition last_or {A} (d : A) (l : list A) : A := default d (last l).

Lemma last_or_cons {A} (d x : A) l : last_or d (x :: l) = last_or x l.
Proof. unfold last_or. rewrite last_cons. by destruct (last l). Qed.

Lemma parse_rendered os port path :
  Forall is_int (ports_given os) →
  parse_arguments (concat (map render os)) port path
  = Ok (last_or port (map u16 (ports_given os)), last_or path (log_files_given os)).
Proof.
  revert port path. induction os as [|[n|p] os IH]; intros port path H; [done| |].
  - change (ports_given (port_given n :: os)) with (n :: ports_given os) in *.
    apply Forall_cons_1 in H as [Hn H]. cbn [map concat render app parse_arguments].
    rewrite pretty_not_log_file, atoi_pretty by done. cbn [mbind outcome_bind].
    rewrite IH by done. cbn [map]. by rewrite last_or_cons.
  - change (log_files_given (log_file_given p :: os)) with (p :: log_files_given os).
    cbn [map concat render app parse_arguments].
    change (bool_decide ("--log-file"%string = "--log-file"%string)) with true. cbn match.
    rewrite IH by done. by rewrite last_or_cons.
Qed.

(** C40: The command line reads back what was meant: with any mixture of
    [--log-file <path>] options and decimal port numbers (of [int] range), the
    last port and the last path win, the others keep their defaults 9000 and
    log/counter_drone.log, and the port is the number reduced modulo 2^16. *)
Theorem command_line_roundtrip os :
  Forall is_int (ports_given os) →
  command_line (concat (map render os))
  = Ok (last_or default_port (map u16 (ports_given os)),
        last_or default_log_file (log_files_given os)).
Proof. apply parse_rendered. Qed.

Lemma command_line_roundtrip_witness :
  Forall is_int (ports_given [port_given 8080; log_file_given "a.log"; port_given 65537])
  ∧ command_line ["8080"; "--log-file"; "a.log"; "65537"] = Ok (1, "a.log"%string).
Proof.
  assert (Forall is_int (ports_given [port_given 8080; log_file_given "a.log"; port_given 65537]))
    as H by (repeat constructor; compute; congruence).
  split; [done|].
  exact (command_line_roundtrip [port_given 8080; log_file_given "a.log"; port_given 65537] H).
Defined.

(** An option [--log-file] that is the last argument has no value to take:
    whatever options precede it, it is read as a port, and the port is 0. *)
Theorem dangling_log_file os :
  Forall is_int (ports_given os) →
  command_line (concat (map render os) ++ ["--log-file"%string])
  = Ok (0, last_or default_log_file (log_files_given os)).
Proof.
  unfold command_line. generalize default_port default_log_file.
  induction os as [|[n|p] os IH]; intros port path H; [done| |].
  - change (ports_given (port_given n :: os)) with (n :: ports_given os) in *.
    apply Forall_cons_1 in H as [Hn H]. cbn [map concat render app parse_arguments].
    rewrite pretty_not_log_file, atoi_pretty by done. cbn [mbind outcome_bind]. by apply IH.
  - change (log_files_given (log_file_given p :: os)) with (p :: log_files_given os).
    rewrite last_or_cons. by apply (IH port p).
Qed.

Lemma dangling_log_file_witness :
  Forall is_int (ports_given [port_given 8080])
  ∧ command_line ["8080"; "--log-file"] = Ok (0, default_log_file).
Proof.
  assert (Forall is_int (ports_given [port_given 8080])) as H
    by (repeat constructor; compute; congruence).
  split; [done|]. exact (dangling_log_file [port_given 8080] H).
Defined.

(** ** Shutdown *)

(** What holds in every reachable state: nothing is lost between the threads
    and the log; main has asked and joined the threads its progress says; the
    logger has returned only when asked, with an empty queue. *)
Record shutdown_inv (p : Program) : Prop := {
  inv_log : pushed p = written p ++ log_queue p;
  inv_asked t : t ∈ asked p ↔ request_stop t ∈ take (progress p) shutdown_sequence;
  inv_joined t : join t ∈ take (progress p) shutdown_sequence → t ∈ returned p;
  inv_drained :
    logger_thread ∈ returned p → logger_thread ∈ asked p ∧ log_queue p = []
}.

Lemma launched_inv : shutdown_inv launched.
Proof. split; [done| | |]; cbn; set_solver. Qed.

(** Main asks the logger to stop after it has joined the others. *)
Lemma logger_requested_last n t :
  request_stop logger_thread ∈ take n shutdown_sequence → t ≠ logger_thread →
  join t ∈ take n shutdown_sequence.
Proof.
  intros H Ht.
  do 8 (destruct n as [|n]; [exfalso; revert H; cbn; set_solver|]).
  cbn. destruct t; set_solver.
Qed.

(** Once the logger has been asked to stop, the others have returned. *)
Lemma logger_asked_last p t :
  shutdown_inv p → logger_thread ∈ asked p → t ≠ logger_thread → t ∈ returned p.
Proof.
  intros Hp Hl Ht. apply (inv_joined p Hp). apply (inv_asked p Hp) in Hl.
  by apply logger_requested_last.
Qed.

Lemma step_inv p q : step p q → shutdown_inv p → shutdown_inv q.
Proof.
  intros Hs Hp. pose proof Hp as [H1 H2 H3 H4].
  destruct Hs as [p t E|p t E Ht|p x E|p t m Ht Hr|p t Ht Hr|p m r Hr E|p Ha Hr E];
    split; cbn [progress asked returned log_queue pushed written]; try done.
  - intros u. rewrite (take_S_r _ _ _ E), elem_of_app, <- H2. set_solver.
  - intros u. rewrite (take_S_r _ _ _ E), elem_of_app. set_solver.
  - intros Hl. destruct (H4 Hl). set_solver.
  - intros u. rewrite (take_S_r _ _ _ E), elem_of_app, <- H2. set_solver.
  - intros u. rewrite (take_S_r _ _ _ E), elem_of_app. set_solver.
  - intros u. rewrite (take_S_r _ _ _ E), elem_of_app, <- H2. set_solver.
  - intros u. rewrite (take_S_r _ _ _ E), elem_of_app. set_solver.
  - by rewrite H1, app_assoc.
  - intros Hl. destruct (H4 Hl) as [Ha _]. destruct Hr. by apply logger_asked_last.
  - set_solver.
  - intros [Hl%elem_of_singleton|Hl]%elem_of_union; [congruence|]. by apply H4.
  - by rewrite H1, E, <- app_assoc.
  - set_solver.
Qed.

Lemma reachable_inv p : reachable p → shutdown_inv p.
Proof.
  apply (rtc_ind_r (R := step) shutdown_inv launched); [apply launched_inv|].
  intros q r _ Hs. by apply step_inv.
Qed.

(** The logger can always empty the queue. *)
Lemma logger_can_drain p :
  logger_thread ∉ returned p →
  ∃ q, rtc step p q ∧ log_queue q = [] ∧ progress q = progress p ∧ asked q = asked p
       ∧ returned q = returned p.
Proof.
  remember (log_queue p) as l eqn:E. revert p E.
  induction l as [|m l IH]; intros p E Hr; [by exists p|].
  destruct (IH (mkProgram (progress p) (asked p) (returned p) l (pushed p) (written p ++ [m])))
    as (q & Hq & H); [done..|].
  exists q. split; [|done]. eapply rtc_l; [|exact Hq]. by apply logger_writes.
Qed.

(** A thread that main joins can return, and main can go on. *)
Lemma thread_can_return p t :
  (t = logger_thread → logger_thread ∈ asked p) →
  ∃ q, rtc step p q ∧ t ∈ returned q ∧ progress q = progress p.
Proof.
  intros Ha. destruct (decide (t ∈ returned p)) as [Hr|Hr]; [by exists p|].
  destruct (decide (t = logger_thread)) as [->|Ht].
  - destruct (logger_can_drain p Hr) as (q & Hq & E1 & E2 & E3 & E4).
    eexists. split; [eapply rtc_r; [exact Hq|]; apply logger_returns; rewrite ?E3, ?E4; auto|].
    split; [set_solver|done].
  - eexists. split; [by apply rtc_once, thread_returns|]. split; [set_solver|done].
Qed.

(** Main joins only a thread that it has asked to stop. *)
Lemma joined_was_asked p t :
  shutdown_inv p → shutdown_sequence !! progress p = Some (join t) → t ∈ asked p.
Proof.
  intros Hp E. apply (inv_asked p Hp).
  destruct (progress p) as [|[|[|[|[|[|[|[|[|[|n]]]]]]]]]]; cbn in *; simplify_eq; set_solver.
Qed.

Lemma main_can_advance p a :
  shutdown_inv p → shutdown_sequence !! progress p = Some a →
  ∃ q, rtc step p q ∧ progress q = S (progress p).
Proof.
  intros Hp E. destruct a as [t|t|x].
  - eexists. split; [by apply rtc_once, (main_requests _ t)|done].
  - destruct (thread_can_return p t) as (q & Hq & Hr & E').
    { intros ->. by apply joined_was_asked. }
    eexists. split; [eapply rtc_r; [exact Hq|]; apply (main_joins _ t)|]; cbn; congruence.
  - eexists. split; [by apply rtc_once, (main_prints _ x)|done].
Qed.

(** Main does not go beyond its sequence. *)
Lemma progress_bound p : reachable p → (progress p ≤ length shutdown_sequence)%nat.
Proof.
  apply (rtc_ind_r (R := step) (λ p, progress p ≤ length shutdown_sequence)%nat launched); [cbn; lia|].
  intros q r _ Hs IHq. destruct Hs; try done;
    match goal with H : _ !! _ = Some _ |- _ => apply lookup_lt_Some in H end; cbn in *; lia.
Qed.

Lemma main_can_finish p : reachable p → ∃ q, rtc step p q ∧ finished q.
Proof.
  remember (length shutdown_sequence - progress p)%nat as n eqn:E. revert p E.
  induction n as [|n IH]; intros p E Hp.
  - exists p. split; [done|]. unfold finished. pose proof (progress_bound p Hp). lia.
  - destruct (lookup_lt_is_Some_2 shutdown_sequence (progress p)) as [a Ha]; [lia|].
    destruct (main_can_advance p a) as (q & Hq & E'); [by apply reachable_inv|done|].
    destruct (IH q) as (r & Hr & Hf); [lia|by eapply rtc_trans|].
    exists r. split; [by eapply rtc_trans|done].
Qed.

(** At the end of the sequence everything has been joined and written. *)
Lemma finished_complete p :
  shutdown_inv p → finished p →
  (∀ t, t ∈ returned p) ∧ written p = pushed p ∧ log_queue p = [].
Proof.
  intros Hp Hf.
  assert (∀ t, t ∈ returned p) as Hr.
  { intros t. apply (inv_joined p Hp). rewrite Hf, take_ge by done.
    destruct t; cbn; set_solver. }
  split; [done|]. destruct (inv_drained p Hp (Hr logger_thread)) as [_ E].
  split; [|done]. by rewrite (inv_log p Hp), E, app_nil_r.
Qed.

(** The shutdown of main loses no log message and cannot get stuck: from
    every state the program can be in, main can still execute its whole
    sequence; and whenever it has, the four threads have returned and every
    message that any of them pushed has been written, in order. *)
Theorem shutdown_complete p :
  reachable p →
  (∃ q, rtc step p q ∧ finished q)
  ∧ (finished p → (∀ t, t ∈ returned p) ∧ written p = pushed p ∧ log_queue p = []).
Proof.
  intros H. split; [by apply main_can_finish|by apply finished_complete, reachable_inv].
Qed.

(** A run in which a thread logs a last message while the logger has others. *)
Lemma shutdown_complete_witness :
  ∃ p, reachable p ∧ progress p = 3%nat
    ∧ written p = ["a"%string] ∧ pushed p = ["a"; "b"]%string
    ∧ ∃ q, rtc step p q ∧ finished q.
Proof.
  set (p := mkProgram 3 ({[listener_thread]} ∪ ∅) ({[listener_thread]} ∪ ∅) ["b"%string] ["a"; "b"]%string
              ["a"%string]).
  assert (reachable p) as H.
  { eapply rtc_l; [apply (thread_logs _ listener_thread "a"); cbn; set_solver|].
    eapply rtc_l; [apply (main_prints _ sigint_text); reflexivity|].
    eapply rtc_l; [apply (main_requests _ listener_thread); reflexivity|].
    eapply rtc_l; [apply (logger_writes _ "a" []); [cbn; set_solver|reflexivity]|].
    eapply rtc_l; [apply (thread_logs _ parser_thread "b"); cbn; set_solver|].
    eapply rtc_l; [apply (thread_returns _ listener_thread); cbn; set_solver|].
    eapply rtc_l; [apply (main_joins _ listener_thread); [reflexivity|cbn; set_solver]|].
    reflexivity. }
  exists p. split; [exact H|]. split_and!; [reflexivity..|].
  exact (proj1 (shutdown_complete p H)).
Defined.
