(* ===== verification/Pipeline.v ===== *)
(** * The pipeline: from the socket to the drone table

    The listener, the parser and the business logic composed through the two
    queues that connect them: what one thread has queued arrives at the next,
    at any pace, in the rounds of the next thread's loop. *)

From S2P Require Import Prelude Telemetry ThreadSafeQueue Worker RingBuffer Endian Scan StreamingParser ParserCorrect ParserTheorems ParserProperties BusinessLogic LogicCorrect LogicProperties Posix Listener ListenerCorrect ToyKernel.

(** The data queue of the listener, the telemetry queue of the parser. *)
Definition queued_chunks (l : Listener.NetworkListener) : list DataChunk :=
  m_queue (Listener.m_queue l).
Definition queued_telemetry {B} (p : StreamingParser B) : list Telemetry :=
  m_queue (StreamingParser.m_parsed_queue p).

(** The thread has been scheduled for every one of [items]. *)
Definition served {T E} (rounds : list (Round T E)) (items : list T) : Prop :=
  prompt rounds ∧ concat (map arrivals rounds) = items ∧ length rounds = length items.

(** The threads that read the listener's and the parser's output. *)
Definition parser_thread `{Host} (rounds : list (Round DataChunk unit)) : outcome bool * Parser :=
  StreamingParser.run rounds (new_parser (new_queue 0) (new_queue 0) (new_queue 0)).
Definition logic_thread (start : Z) (rounds : list (Round Telemetry Z)) (stop : Z)
  : outcome bool * BusinessLogic.BusinessLogic :=
  BusinessLogic.run start rounds stop (BusinessLogic.new_logic (new_queue 0) (new_queue 0)).

(** ** What a thread has handled *)

(** The items a thread has handled are a prefix of those queued for it. *)
Lemma handled_prefix {T E} (rounds : list (Round T E)) n (xs left items : list T) :
  concat (map arrivals rounds) `prefix_of` items →
  concat (map arrivals (take n rounds)) = xs ++ left → xs `prefix_of` items.
Proof.
  intros Hp Hq. transitivity (concat (map arrivals rounds)); [|done].
  rewrite <-(take_drop n rounds), map_app, concat_app, Hq, <-app_assoc.
  by apply prefix_app_r.
Qed.

(** A thread that has been served has handled everything. *)
Lemma served_all {T E} (rounds : list (Round T E)) o xs left items :
  served rounds items → loop_outcome o → loop_progress o (length xs) rounds left →
  concat (map arrivals (take (started o (length xs)) rounds)) = xs ++ left → xs = items.
Proof.
  intros (Hp & Hi & Hlen) Ho Hpr Hq.
  destruct (prompt_keeps_up rounds o xs left Hp Ho Hpr Hq) as [Hn Hall].
  rewrite Hall in Hi. subst items. rewrite <-Hn, length_app in Hlen.
  destruct left; [by rewrite app_nil_r|]. simpl in Hlen. lia.
Qed.

Lemma served_prefix {T E} (rounds : list (Round T E)) items :
  served rounds items → concat (map arrivals rounds) `prefix_of` items.
Proof. by intros (_ & -> & _). Qed.

(** Any items can be served, one in every round. *)
Lemma can_be_served {T E} (e : E) (items : list T) :
  served (map (λ x, mkRound [x] false false e) items) items.
Proof.
  assert (∀ l : list T, concat (map arrivals (map (λ x, mkRound [x] false false e) l)) = l)
    as Hc by (intros l; induction l as [|x l IH]; simpl; congruence).
  split; [split|split; [done|by rewrite length_map]].
  - by apply Forall_map, Forall_true.
  - intros k Hk. rewrite length_map in Hk. rewrite firstn_map, Hc, length_take. lia.
Qed.

(** A prefix of a stream of packets is read as a prefix of the packets. *)
Lemma prefix_received l ts :
  Forall sendable ts → l `prefix_of` concat (map encode_packet ts) →
  received (scan l).1 `prefix_of` ts.
Proof.
  intros Hts [k Hk]. pose proof (scan_packets ts [] Hts) as Hs.
  rewrite app_nil_r, Hk, scan_app in Hs. apply (f_equal (received ∘ fst)) in Hs.
  cbn [compose fst] in Hs. rewrite !received_app, received_map in Hs.
  change (received (scan []).1) with ([] : list Telemetry) in Hs. rewrite app_nil_r in Hs.
  rewrite <-Hs. by apply prefix_app_r.
Qed.

Section Pipeline.
Context {W : Type} `{PosixLaws W} `{Host}.

(** The chunks read from a socket are chunks of that client. *)
Lemma received_chunks fd (w : W) chunks r w' :
  receives fd w chunks r w' → Forall (carries fd) (map (mkDataChunk fd) chunks).
Proof.
  intros Hr. apply receives_sizes in Hr. apply Forall_map.
  eapply Forall_impl; [exact Hr|]. intros c [Hne Hc]. split; [done|]. split; [done|].
  cbn [data]. unfold max_chunk. unfold Listener.RECV_BUF_SIZE in *. lia.
Qed.

(** The parser thread on a part of what a client sent. *)
Lemma parser_on_client fd chunks ts rounds :
  Forall (carries fd) (map (mkDataChunk fd) chunks) → Forall sendable ts →
  concat chunks = concat (map encode_packet ts) →
  concat (map arrivals rounds) `prefix_of` map (mkDataChunk fd) chunks →
  ∃ o p', parser_thread rounds = (o, p') ∧ loop_outcome o
    ∧ queued_telemetry p' `prefix_of` ts
    ∧ (served rounds (map (mkDataChunk fd) chunks) → queued_telemetry p' = ts).
Proof.
  intros Hc Hts Hbytes Hrounds.
  destruct (parser_session (new_queue 0) (new_queue 0) (new_queue 0) rounds)
    as (o & p' & cs & E & Ho & Hq & Hpr & Hout & _); [done..|].
  cbn [m_queue new_queue app] in Hq, Hout. exists o, p'. split; [exact E|]. split; [done|].
  assert (stream (map (mkDataChunk fd) chunks) = concat chunks) as Hstream
    by (unfold stream; rewrite map_map; cbn [data]; by rewrite map_id).
  assert (cs `prefix_of` map (mkDataChunk fd) chunks) as Hcs by (by eapply handled_prefix).
  assert (Forall (carries fd) cs) as Hcs'.
  { destruct Hcs as [k Hk]. rewrite Hk in Hc. by apply Forall_app in Hc as [? _]. }
  destruct (abs_run_session ∅ fd cs undecided_empty Hcs') as [Habs _].
  rewrite lookup_empty in Habs. cbn [default app] in Habs.
  unfold queued_telemetry. rewrite Hout, Habs, map_snd_pair, delivered_events.
  split.
  - apply prefix_received; [done|]. rewrite <-Hbytes, <-Hstream.
    destruct Hcs as [k ->]. unfold stream. rewrite map_app, concat_app. by apply prefix_app_r.
  - intros Hs. rewrite (served_all rounds o cs _ _ Hs Ho Hpr Hq), Hstream, Hbytes.
    pose proof (scan_packets ts [] Hts) as Hscan. rewrite app_nil_r in Hscan.
    rewrite Hscan. cbn [fst]. rewrite received_app, received_map.
    change (received (scan []).1) with ([] : list Telemetry). by rewrite app_nil_r.
Qed.

(** The business-logic thread on a part of what the parser delivered. *)
Lemma logic_on_telemetry start rounds stop items :
  concat (map arrivals rounds) `prefix_of` items →
  ∃ o b' xs, logic_thread start rounds stop = (o, b') ∧ loop_outcome o
    ∧ xs `prefix_of` items ∧ BusinessLogic.m_drones b' = latest xs
    ∧ (served rounds items → xs = items).
Proof.
  intros Hr. destruct (run_session (new_queue 0) (new_queue 0) start rounds stop eq_refl)
    as (o & b' & xs & E & Ho & _ & Hq & Hpr & Hd & _).
  cbn [m_queue new_queue app] in Hq.
  exists o, b', (map snd xs). split; [exact E|]. split; [done|]. split; [|split; [done|]].
  - by eapply handled_prefix.
  - intros Hs. eapply served_all; [exact Hs|exact Ho| |].
    + rewrite length_map. exact Hpr.
    + rewrite length_map. exact Hq.
Qed.

(** From the socket to the drone table. A client sends packets; [recv] cuts
    their bytes into chunks anywhere. The listener queues those chunks, and
    for every pace at which they reach the parser thread, and every pace at
    which what that delivers reaches the business-logic thread, whatever stop
    requests and clock readings come between: no thread dies, and the drone
    table is that of the first [n] packets sent, for some [n]. When both
    threads have been scheduled for all their items, it is the table of all of
    them. *)
Theorem socket_to_table fd l (w : W) chunks r w' fuel ts :
  ready l → queued_chunks l = [] → receives fd w chunks r w' → (length chunks < fuel)%nat →
  Forall sendable ts → concat chunks = concat (map encode_packet ts) →
  ∃ l', Listener.handle_client_data fuel fd (l, w) = (Ok (still_alive r), (l', w'))
  ∧ ∀ parser_rounds, concat (map arrivals parser_rounds) `prefix_of` queued_chunks l' →
  ∃ o p', parser_thread parser_rounds = (o, p') ∧ loop_outcome o
  ∧ ∀ start logic_rounds stop,
      concat (map arrivals logic_rounds) `prefix_of` queued_telemetry p' →
  ∃ o' b' n, logic_thread start logic_rounds stop = (o', b') ∧ loop_outcome o'
  ∧ BusinessLogic.m_drones b' = latest (take n ts)
  ∧ (served parser_rounds (queued_chunks l') → served logic_rounds (queued_telemetry p') →
     BusinessLogic.m_drones b' = latest ts).
Proof.
  intros Hr Hempty Hrec Hf Hts Hbytes.
  destruct (handle_client_data_run fd w chunks r w' Hrec fuel l Hr Hf) as (l' & E & [Hq _ _ _ _]).
  assert (queued_chunks l' = map (mkDataChunk fd) chunks) as Hl'.
  { unfold queued_chunks in *. rewrite Hq. cbn [m_queue]. by rewrite Hempty. }
  exists l'. split; [exact E|]. rewrite Hl'. intros prounds Hp.
  destruct (parser_on_client fd chunks ts prounds (received_chunks _ _ _ _ _ Hrec) Hts Hbytes Hp)
    as (o & p' & Ep & Ho & Hpre & Hall).
  exists o, p'. split; [exact Ep|]. split; [exact Ho|]. intros start lrounds stop Hlr.
  destruct (logic_on_telemetry start lrounds stop _ Hlr) as (o' & b' & xs & Eb & Ho' & Hx & Hd & Hxs).
  destruct (transitivity Hx Hpre) as [k Hk].
  exists o', b', (length xs). split; [exact Eb|]. split; [exact Ho'|]. rewrite Hd. split.
  - by rewrite Hk, take_app_length.
  - intros Hs1 Hs2. by rewrite (Hxs Hs2), (Hall Hs1).
Qed.

End Pipeline.

(** ** Witness *)

#[local] Instance pipeline_host : Host := little.

(** A packet that arrives in two pieces. *)
Definition pieces : list (list byte) := Eval vm_compute in map data sample_cut.

Definition sending_machine : Kernel := fresh_kernel {[0; 1; 2]} [] pieces [].

Lemma sending_machine_receives :
  ∃ w', receives 5 sending_machine pieces (mkRet (-1) EAGAIN) w'.
Proof.
  eexists. eapply receives_more; [reflexivity|reflexivity|].
  eapply receives_more; [reflexivity|reflexivity|].
  eapply receives_end; [reflexivity|]. discriminate.
Qed.

Lemma socket_to_table_witness :
  ∃ w' l', Listener.handle_client_data 3 5
      (Listener.new_listener 9000 (new_queue 0) (new_queue 0), sending_machine)
    = (Ok true, (l', w'))
  ∧ ∀ parser_rounds, concat (map arrivals parser_rounds) `prefix_of` queued_chunks l' →
  ∃ o p', parser_thread parser_rounds = (o, p') ∧ loop_outcome o
  ∧ ∀ start logic_rounds stop,
      concat (map arrivals logic_rounds) `prefix_of` queued_telemetry p' →
  ∃ o' b' n, logic_thread start logic_rounds stop = (o', b') ∧ loop_outcome o'
  ∧ BusinessLogic.m_drones b' = latest (take n [sample])
  ∧ (served parser_rounds (queued_chunks l') → served logic_rounds (queued_telemetry p') →
     BusinessLogic.m_drones b' = latest [sample]).
Proof.
  destruct sending_machine_receives as [w' Hr]. exists w'.
  apply (socket_to_table 5 (Listener.new_listener 9000 (new_queue 0) (new_queue 0)) sending_machine
    pieces (mkRet (-1) EAGAIN) w' 3 [sample]).
  - by split.
  - reflexivity.
  - exact Hr.
  - simpl. lia.
  - constructor; [apply sample_sendable|constructor].
  - vm_compute. reflexivity.
Defined.
