(* ===== verification/Threads.v ===== *)
(** * The actions of the threads

    Between two points where another thread may interfere, a thread performs
    one action: it sets itself up, looks at its stop token, pops an item and
    handles it, or cleans up. The [run] functions of the components are cut
    into such actions here, and shown to be exactly their sequences; the whole
    program ([System.v]) interleaves them. *)

From S2P Require Import Prelude Telemetry ThreadSafeQueue Worker Endian ByteBuffer StreamingParser BusinessLogic AsyncLogger Posix Triples Listener.

(** ** Consumer threads *)

(** Where a consumer is in its [run] function. *)
Inductive pc := Starting | Checking | Popping | Finishing | Returned.

#[export] Instance pc_eq_dec : EqDecision pc.
Proof. solve_decision. Defined.

(** How an action changes the place of a consumer, given what its stop token
    answers, and how many items it pops. *)
Inductive consumer_turn : bool → pc → pc → nat → Prop :=
| turn_start stop : consumer_turn stop Starting Checking 0
| turn_goes_on : consumer_turn false Checking Popping 0
| turn_leaves : consumer_turn true Checking Finishing 0
| turn_pops stop : consumer_turn stop Popping Checking 1
| turn_gives_up : consumer_turn true Popping Finishing 0
| turn_returns stop : consumer_turn stop Finishing Returned 0
| turn_drains stop : consumer_turn stop Finishing Finishing 1.

(** A consumer leaves its loop only when it is asked to. *)
Lemma turn_asked stop a a' n :
  consumer_turn stop a a' n → a' = Finishing ∨ a' = Returned → stop = true ∨ a = Finishing.
Proof. intros [] [[=]|[=]]; auto. Qed.

Section Consumer.
Context {S T E : Type} `{HasQueue S T}.
Context (start_up : E → M S unit) (handle : E → T → M S unit) (finish : E → M S pc).

(** The action at [at_pc], and where the thread is after it; [stop] is what the
    stop token answers, [e] what else the action reads (a clock). *)
Definition consumer_action (e : E) (stop : bool) (at_pc : pc) : M S pc :=
  match at_pc with
  | Starting => start_up e;; mret Checking
  | Checking => mret (if stop then Finishing else Popping)
  | Popping =>
      maybe_item ← pop_from stop;
      match maybe_item with
      | None => mret Finishing
      | Some item => handle e item;; mret Checking
      end
  | Finishing => finish e
  | Returned => mret Returned
  end.

(** What popping comes to. *)
Lemma popping_empty e stop s :
  m_queue (queue_of s) = [] →
  consumer_action e stop Popping s
  = if stop then (Ok Finishing, set_queue (queue_of s) s) else (Blocked, s).
Proof.
  intros Hq. unfold consumer_action, mbind, M_bind. rewrite pop_from_cases, Hq. by destruct stop.
Qed.

Lemma popping_item e stop s item rest s' :
  m_queue (queue_of s) = item :: rest →
  handle e item (set_queue (mkQueue rest (m_max_size (queue_of (T:=T) s))) s) = (Ok tt, s') →
  consumer_action e stop Popping s = (Ok Checking, s').
Proof.
  intros Hq Hh. unfold consumer_action, mbind, M_bind, mret, M_ret.
  by rewrite pop_from_cases, Hq, Hh.
Qed.

(** The loop of [Worker.v] as a sequence of actions. *)
Fixpoint loop_actions (rounds : list (Round T E)) : M S bool :=
  match rounds with
  | [] => mret false
  | r :: rounds =>
      arrive (arrivals r);;
      p ← consumer_action (env r) (stop_check r) Checking;
      p ← (match p with
           | Popping => consumer_action (env r) (stop_in_pop r) Popping
           | p => mret p
           end);
      match p with Checking => loop_actions rounds | _ => mret true end
  end.

Lemma worker_loop_actions rounds s : worker_loop handle rounds s = loop_actions rounds s.
Proof.
  revert s. induction rounds as [|r rounds IH]; intros s; [done|].
  cbn [worker_loop loop_actions]. unfold arrive. rewrite !bind_modify.
  unfold worker_iteration, consumer_action. destruct (stop_check r); [done|]. mrun.
  destruct (pop_from (stop_in_pop r) _) as [[[item|]|x| | |] s1]; try done.
  by destruct (handle (env r) item s1) as [[[]|x| | |] s2].
Qed.

End Consumer.

(** ** The three consumers *)

Section Parser.
Context {B : Type} `{ByteBuffer B} `{Host}.

Definition parser_action : unit → bool → pc → M (StreamingParser B) pc :=
  consumer_action (λ _ : unit, start_up) (λ _, handle_chunk) (λ _, shut_down;; mret Returned).

Definition parser_loop_actions : list (Round DataChunk unit) → M (StreamingParser B) bool :=
  loop_actions (λ _ : unit, start_up) (λ _, handle_chunk) (λ _, shut_down;; mret Returned).

Definition parser_actions (rounds : list (Round DataChunk unit)) : M (StreamingParser B) bool :=
  parser_action tt false Starting;;
  finished ← parser_loop_actions rounds;
  if (finished : bool) then parser_action tt true Finishing;; mret true else mret false.

Lemma parser_run_actions rounds p : run rounds p = parser_actions rounds p.
Proof.
  unfold parser_actions, run, run_loop, parser_action, consumer_action. unfold mbind, M_bind, mret, M_ret.
  destruct (start_up p) as [[[]|x| | |] p1]; try done.
  unfold parser_loop_actions.
  rewrite (worker_loop_actions (λ _ : unit, start_up) _ (λ _, shut_down;; mret Returned)).
  destruct (loop_actions _ _ _ rounds p1) as [[[]|x| | |] p2]; try done.
  by destruct (shut_down p2) as [[[]|x| | |] p3].
Qed.

End Parser.

Definition logic_loop_actions : list (Round Telemetry Z) → M BusinessLogic.BusinessLogic bool :=
  loop_actions BusinessLogic.start_up BusinessLogic.handle_telemetry
    (λ stop, BusinessLogic.shut_down stop;; mret Returned).

Definition logic_action : Z → bool → pc → M BusinessLogic.BusinessLogic pc :=
  consumer_action BusinessLogic.start_up BusinessLogic.handle_telemetry
    (λ stop, BusinessLogic.shut_down stop;; mret Returned).

Definition logic_actions (start : Z) (rounds : list (Round Telemetry Z)) (stop : Z)
  : M BusinessLogic.BusinessLogic bool :=
  logic_action start false Starting;;
  finished ← logic_loop_actions rounds;
  if (finished : bool) then logic_action stop true Finishing;; mret true else mret false.

Lemma logic_run_actions start rounds stop l :
  BusinessLogic.run start rounds stop l = logic_actions start rounds stop l.
Proof.
  unfold logic_actions, BusinessLogic.run, BusinessLogic.run_loop, logic_action, consumer_action.
  unfold mbind, M_bind, mret, M_ret.
  destruct (BusinessLogic.start_up start l) as [[[]|x| | |] l1]; try done.
  unfold logic_loop_actions.
  rewrite (worker_loop_actions BusinessLogic.start_up _
    (λ stop, BusinessLogic.shut_down stop;; mret Returned)).
  destruct (loop_actions _ _ _ rounds l1) as [[[]|x| | |] l2]; try done.
  by destruct (BusinessLogic.shut_down stop l2) as [[[]|x| | |] l3].
Qed.

(** The logger's second loop pops one message per action. *)
Definition logger_action : unit → bool → pc → M AsyncLogger.AsyncLogger pc :=
  consumer_action (λ _, mret tt) (λ _, AsyncLogger.write_message)
    (λ _, c ← AsyncLogger.drain_step;
          mret (match c with Continue => Finishing | Break => Returned end)).

Fixpoint drain_actions (fuel : nat) : M AsyncLogger.AsyncLogger unit :=
  match fuel with
  | O => lift OutOfFuel
  | Datatypes.S fuel =>
      p ← logger_action tt true Finishing;
      match p with Returned => mret tt | _ => drain_actions fuel end
  end.

Lemma logger_drain_actions fuel l :
  while_true fuel AsyncLogger.drain_step l = drain_actions fuel l.
Proof.
  revert l. induction fuel as [|fuel IH]; intros l; [done|].
  cbn [while_true drain_actions]. unfold logger_action, consumer_action, mbind, M_bind, mret, M_ret.
  by destruct (AsyncLogger.drain_step l) as [[[]|x| | |] l1].
Qed.

(** ** The listener *)

Inductive listener_pc := SettingUp | Registering | LoopHead | Waiting | ListenerReturned.

#[export] Instance listener_pc_eq_dec : EqDecision listener_pc.
Proof. solve_decision. Defined.

Section Listener.
Context {W : Type} `{Posix W}.

(** [Registering] is the constructor of the stop callback, which calls it when
    the stop has been requested already; in [Waiting], [epoll_wait] returns and
    its events are dispatched. *)
Definition listener_action (fuel : nat) (stop : bool) (at_pc : listener_pc)
  : M (Listener.Listening (W:=W)) listener_pc :=
  match at_pc with
  | SettingUp => Listener.setup_server_socket;; Listener.setup_epoll;; mret Registering
  | Registering => (if stop then Listener.shutdown_waker else mret tt);; mret LoopHead
  | LoopHead => mret (if stop then ListenerReturned else Waiting)
  | Waiting =>
      c ← Listener.event_step fuel false;
      mret (match c with Continue => LoopHead | Break => ListenerReturned end)
  | ListenerReturned => mret ListenerReturned
  end.

(** A relation that the parts of [run] preserve is preserved by every action. *)
Lemma preserves_listener_action (R : Listener.Listening (W:=W) → Listener.Listening → Prop)
    `{!PreOrder R} fuel stop at_pc :
  preserves R Listener.setup_server_socket → preserves R Listener.setup_epoll →
  preserves R Listener.shutdown_waker → preserves R (Listener.event_step fuel false) →
  preserves R (listener_action fuel stop at_pc).
Proof. intros H1 H2 H3 H4. destruct at_pc; unfold listener_action; preserving. Qed.

Fixpoint event_actions (fuel : nat) (stops : list bool) : M (Listener.Listening (W:=W)) bool :=
  match stops with
  | [] => mret false
  | stop :: stops =>
      p ← listener_action fuel stop LoopHead;
      p ← (match p with Waiting => listener_action fuel stop Waiting | p => mret p end);
      match p with LoopHead => event_actions fuel stops | _ => mret true end
  end.

Lemma event_loop_actions fuel stops s :
  Listener.event_loop fuel stops s = event_actions fuel stops s.
Proof.
  revert s. induction stops as [|stop stops IH]; intros s; [done|].
  cbn [Listener.event_loop event_actions]. unfold listener_action. destruct stop; [done|].
  unfold mbind, M_bind, mret, M_ret.
  by destruct (Listener.event_step fuel false s) as [[[]|x| | |] s1].
Qed.

Definition listener_actions (fuel : nat) (already : bool) (stops : list bool)
  : M (Listener.Listening (W:=W)) bool :=
  listener_action fuel already SettingUp;;
  listener_action fuel already Registering;;
  event_actions fuel stops.

Lemma listener_run_actions fuel already stops s :
  Listener.run fuel already stops s = listener_actions fuel already stops s.
Proof.
  unfold listener_actions, Listener.run, listener_action, mbind, M_bind, mret, M_ret.
  destruct (Listener.setup_server_socket s) as [[[]|x| | |] s1]; try done.
  destruct (Listener.setup_epoll s1) as [[[]|x| | |] s2]; try done.
  destruct already; [destruct (Listener.shutdown_waker s2) as [[[]|x| | |] s3]; try done|];
    apply event_loop_actions.
Qed.

End Listener.
