(* ===== verification/System.v ===== *)
(** * The whole program

    The four threads, [main] and the kernel, interleaved: a step relation on the
    state of all of them. A thread takes one action of [Threads.v] at a time;
    what an action pushes is performed item by item, in order, before the
    thread's next action, so that the pushes of different threads interleave
    freely. [main] is the polling of the signal flag and the shutdown sequence
    of [Main.v]. An exception that leaves a thread ends the process. *)

From S2P Require Import Prelude Telemetry ThreadSafeQueue Worker RingBuffer Endian StreamingParser BusinessLogic AsyncLogger Posix Listener Threads Main.

Module System.

Import Main.

(** The polling of [g_shutdown_requested], and then the shutdown sequence, of
    which the first [done] actions are done. *)
Inductive main_pc := Polling | Stopping (done : nat).

#[global] Instance main_pc_eq_dec : EqDecision main_pc.
Proof. solve_decision. Defined.

(** [x.m_queue.push(item)] of the oldest push not yet performed: the item, what
    is still to be pushed, and the queue afterwards. *)
Definition hand_over {T} (pending shared : ThreadSafeQueue T)
  : option (T * ThreadSafeQueue T * ThreadSafeQueue T) :=
  match m_queue pending with
  | [] => None
  | item :: rest =>
      match push_default item shared with
      | Ok (true, shared) => Some (item, mkQueue rest (m_max_size pending), shared)
      | _ => None
      end
  end.

Section System.
Context {W : Type} `{PosixWake W} `{Host}.

(** ** State *)

(** Each shared queue is kept in the component that pops from it; the queues a
    component pushes to hold, in its record, the pushes it has yet to perform.
    [chunks] and [messages] are the history of the pushes to the data queue and
    to the log queue; [stdout] is all that was written to [std::cout], of which
    the logger's record has the part that is not [main]'s. *)
Record System := mkSystem {
  world : W;
  network_listener : Listener.NetworkListener;
  at_listener : listener_pc;
  parser : StreamingParser RingBuffer.RingBuffer;
  at_parser : pc;
  business_logic : BusinessLogic.BusinessLogic;
  at_logic : pc;
  async_logger : AsyncLogger.AsyncLogger;
  at_logger : pc;
  g_shutdown_requested : bool;
  at_main : main_pc;
  stop_requested : gset thread;
  chunks : list DataChunk;
  messages : list string;
  stdout : list string
}.

(** The process: running, ended by [std::terminate] because of an uncaught
    exception, or with undefined behaviour. *)
Inductive Process := Running (s : System) | Terminated (e : exn) | Broken.

Definition with_listener (a : listener_pc) (lw : Listener.Listening) (s : System) : System :=
  mkSystem lw.2 lw.1 a (parser s) (at_parser s) (business_logic s) (at_logic s)
    (async_logger s) (at_logger s) (g_shutdown_requested s) (at_main s) (stop_requested s)
    (chunks s) (messages s) (stdout s).
Definition with_parser (a : pc) (p : StreamingParser RingBuffer.RingBuffer) (s : System) : System :=
  mkSystem (world s) (network_listener s) (at_listener s) p a (business_logic s) (at_logic s)
    (async_logger s) (at_logger s) (g_shutdown_requested s) (at_main s) (stop_requested s)
    (chunks s) (messages s) (stdout s).
Definition with_logic (a : pc) (l : BusinessLogic.BusinessLogic) (s : System) : System :=
  mkSystem (world s) (network_listener s) (at_listener s) (parser s) (at_parser s) l a
    (async_logger s) (at_logger s) (g_shutdown_requested s) (at_main s) (stop_requested s)
    (chunks s) (messages s) (stdout s).
(** What the logger has written in between is new on [std::cout]. *)
Definition with_logger (a : pc) (l : AsyncLogger.AsyncLogger) (s : System) : System :=
  mkSystem (world s) (network_listener s) (at_listener s) (parser s) (at_parser s)
    (business_logic s) (at_logic s) l a (g_shutdown_requested s) (at_main s) (stop_requested s)
    (chunks s) (messages s)
    (stdout s ++ drop (length (AsyncLogger.cout (async_logger s))) (AsyncLogger.cout l)).
Definition with_main (m : main_pc) (ts : gset thread) (s : System) : System :=
  mkSystem (world s) (network_listener s) (at_listener s) (parser s) (at_parser s)
    (business_logic s) (at_logic s) (async_logger s) (at_logger s) (g_shutdown_requested s) m ts
    (chunks s) (messages s) (stdout s).
Definition with_flag (b : bool) (s : System) : System :=
  mkSystem (world s) (network_listener s) (at_listener s) (parser s) (at_parser s)
    (business_logic s) (at_logic s) (async_logger s) (at_logger s) b (at_main s)
    (stop_requested s) (chunks s) (messages s) (stdout s).
Definition with_history (cs : list DataChunk) (ms : list string) (s : System) : System :=
  mkSystem (world s) (network_listener s) (at_listener s) (parser s) (at_parser s)
    (business_logic s) (at_logic s) (async_logger s) (at_logger s) (g_shutdown_requested s)
    (at_main s) (stop_requested s) cs ms (stdout s).

Definition with_stdout (out : list string) (s : System) : System :=
  mkSystem (world s) (network_listener s) (at_listener s) (parser s) (at_parser s)
    (business_logic s) (at_logic s) (async_logger s) (at_logger s) (g_shutdown_requested s)
    (at_main s) (stop_requested s) (chunks s) (messages s) out.

Definition with_world (w : W) (s : System) : System :=
  with_listener (at_listener s) (network_listener s, w) s.

(** ** Before the threads start *)

(** [main] up to the launch of the threads, when [out] has been written to
    [std::cout] already; the constructor of the logger may throw. *)
Definition boot `{AsyncLogger.Filesystem} (arguments : list string) (out : list string) (w : W)
  : outcome System :=
  '(port, log_file_path) ← command_line arguments;
  let out := out ++ banner port log_file_path in
  logger ← AsyncLogger.new_logger (new_queue 0) log_file_path out;
  Ok (mkSystem w (Listener.new_listener port (new_queue 0) (new_queue 0)) SettingUp
        (new_parser (new_queue 0) (new_queue 0) (new_queue 0)) Starting
        (BusinessLogic.new_logic (new_queue 0) (new_queue 0)) Starting
        logger Starting false Polling ∅ [] [] out).

(** ** Steps *)

(** The pushes of the last action have been performed. *)
Definition listener_idle (s : System) : Prop :=
  m_queue (Listener.m_queue (network_listener s)) = []
  ∧ m_queue (Listener.m_log_queue (network_listener s)) = [].
Definition parser_idle (s : System) : Prop :=
  m_queue (m_parsed_queue (parser s)) = [] ∧ m_queue (m_log_queue (parser s)) = [].
Definition logic_idle (s : System) : Prop :=
  m_queue (BusinessLogic.m_log_queue (business_logic s)) = [].

(** The thread function has returned. *)
Definition has_returned (t : thread) (s : System) : Prop :=
  match t with
  | listener_thread => at_listener s = ListenerReturned ∧ listener_idle s
  | parser_thread => at_parser s = Returned ∧ parser_idle s
  | logic_thread => at_logic s = Returned ∧ logic_idle s
  | logger_thread => at_logger s = Returned
  end.

Definition stopping (t : thread) (s : System) : bool := bool_decide (t ∈ stop_requested s).

(** What an action that has come out as [r] makes of the process; a thread that
    waits does not step. *)
Definition resume {A S} (r : outcome A * S) (next : A → S → System) : option Process :=
  match r with
  | (Ok a, c) => Some (Running (next a c))
  | (Throw e, _) => Some (Terminated e)
  | (Undefined, _) => Some Broken
  | (Blocked, _) | (OutOfFuel, _) => None
  end.

(** The world after [listener_thread.request_stop()]: the stop callback runs if
    it is registered. *)
Definition stop_callback (s : System) : W :=
  match at_listener s with
  | LoopHead | Waiting =>
      (Listener.shutdown_waker (network_listener s, world s)).2.2
  | _ => world s
  end.

Definition request_stop_of (t : thread) (n : nat) (s : System) : System :=
  let s := match t with
           | listener_thread => with_world (stop_callback s) s
           | _ => s
           end in
  with_main (Stopping (S n)) ({[t]} ∪ stop_requested s) s.

Inductive step : Process → Process → Prop :=
(* the threads *)
| listener_acts s fuel q :
    at_listener s ≠ ListenerReturned → listener_idle s →
    (at_listener s = Waiting →
     epoll_ready (Posix.get (Listener.m_epoll_fd (network_listener s))) (world s)) →
    resume (listener_action fuel (stopping listener_thread s) (at_listener s)
              (network_listener s, world s)) (λ a lw, with_listener a lw s) = Some q →
    step (Running s) q
| parser_acts s q :
    at_parser s ≠ Returned → parser_idle s →
    resume (parser_action tt (stopping parser_thread s) (at_parser s) (parser s))
      (λ a p, with_parser a p s) = Some q →
    step (Running s) q
| logic_acts s now q :
    at_logic s ≠ Returned → logic_idle s →
    resume (logic_action now (stopping logic_thread s) (at_logic s) (business_logic s))
      (λ a l, with_logic a l s) = Some q →
    step (Running s) q
| logger_acts s q :
    at_logger s ≠ Returned →
    resume (logger_action tt (stopping logger_thread s) (at_logger s) (async_logger s))
      (λ a l, with_logger a l s) = Some q →
    step (Running s) q
(* their pushes *)
| listener_queues s c mine theirs :
    hand_over (Listener.m_queue (network_listener s)) (m_raw_queue (parser s))
      = Some (c, mine, theirs) →
    step (Running s)
      (Running (with_history (chunks s ++ [c]) (messages s)
        (with_parser (at_parser s) (set_raw_queue theirs (parser s))
          (with_listener (at_listener s)
             (Listener.set_queue mine (network_listener s), world s) s))))
| parser_delivers s t mine theirs :
    hand_over (m_parsed_queue (parser s)) (BusinessLogic.m_parsed_queue (business_logic s))
      = Some (t, mine, theirs) →
    step (Running s)
      (Running (with_logic (at_logic s) (BusinessLogic.set_parsed_queue theirs (business_logic s))
        (with_parser (at_parser s) (set_parsed_queue mine (parser s)) s)))
| listener_logs s m mine theirs :
    hand_over (Listener.m_log_queue (network_listener s))
      (AsyncLogger.m_log_queue (async_logger s)) = Some (m, mine, theirs) →
    step (Running s)
      (Running (with_history (chunks s) (messages s ++ [m])
        (with_logger (at_logger s) (AsyncLogger.set_log_queue theirs (async_logger s))
          (with_listener (at_listener s)
             (Listener.set_log_queue mine (network_listener s), world s) s))))
| parser_logs s m mine theirs :
    hand_over (m_log_queue (parser s)) (AsyncLogger.m_log_queue (async_logger s))
      = Some (m, mine, theirs) →
    step (Running s)
      (Running (with_history (chunks s) (messages s ++ [m])
        (with_logger (at_logger s) (AsyncLogger.set_log_queue theirs (async_logger s))
          (with_parser (at_parser s) (set_log_queue mine (parser s)) s))))
| logic_logs s m mine theirs :
    hand_over (BusinessLogic.m_log_queue (business_logic s))
      (AsyncLogger.m_log_queue (async_logger s)) = Some (m, mine, theirs) →
    step (Running s)
      (Running (with_history (chunks s) (messages s ++ [m])
        (with_logger (at_logger s) (AsyncLogger.set_log_queue theirs (async_logger s))
          (with_logic (at_logic s) (BusinessLogic.set_log_queue mine (business_logic s)) s))))
(* the signal handler and main *)
| signal_handler s :
    step (Running s) (Running (with_flag true s))
| main_leaves_polling s :
    at_main s = Polling → g_shutdown_requested s = true →
    step (Running s) (Running (with_main (Stopping 0) (stop_requested s) s))
| main_requests_stop s n t :
    at_main s = Stopping n → shutdown_sequence !! n = Some (request_stop t) →
    step (Running s) (Running (request_stop_of t n s))
| main_joins_thread s n t :
    at_main s = Stopping n → shutdown_sequence !! n = Some (join t) → has_returned t s →
    step (Running s) (Running (with_main (Stopping (S n)) (stop_requested s) s))
| main_prints_text s n text :
    at_main s = Stopping n → shutdown_sequence !! n = Some (print text) →
    step (Running s)
      (Running (with_main (Stopping (S n)) (stop_requested s)
        (with_stdout (stdout s ++ [text]) s)))
(* the network *)
| kernel_steps s w :
    kernel_moves (world s) w → step (Running s) (Running (with_world w s)).

(** ** Case analysis *)

(** An action after which the process goes on has come out well. *)
Lemma resume_running {A S} (r : outcome A * S) (next : A → S → System) s' :
  resume r next = Some (Running s') → ∃ a c, r = (Ok a, c) ∧ s' = next a c.
Proof. destruct r as [[a|e| | |] c]; try done. intros [= <-]. by exists a, c. Qed.

(** [main] has executed its shutdown sequence and returns; then the listener is
    destroyed. *)
Definition finished (s : System) : Prop := at_main s = Stopping (length shutdown_sequence).

Definition exit_world (s : System) : W :=
  Listener.destroy_listener (network_listener s) (world s).

End System.

(** The cases of a step [Hs] after which the process goes on. *)
Ltac step_cases Hs :=
  inversion Hs as [? fuel ? Ha Hi Hw E|? ? Ha Hi E|? now ? Ha Hi E|? ? Ha E|? x ? ? E|? x ? ? E
    |? x ? ? E|? x ? ? E|? x ? ? E|?|? Em Ef|? n t Em Eq|? n t Em Eq Hr|? n x Em Eq|? w Hm]; subst;
  try (apply resume_running in E as (a & c & E & ->)).

Arguments System : clear implicits.
Arguments Process : clear implicits.
End System.
