(* ===== verification/SystemInvariant.v ===== *)
(** * Invariants of the whole program

    What holds in every state the program can reach: each component's own
    invariant, what the threads have taken off their queues, that the listener
    can be woken up, and that nothing is lost between the threads. *)

From S2P Require Import Prelude Telemetry ThreadSafeQueue Worker RingBuffer Endian Scan StreamingParser ParserCorrect ParserTheorems BusinessLogic LogicCorrect AsyncLogger LoggerProperties Posix Triples Listener ListenerOwnership ListenerWake Threads Main System.

Import System.

#[local] Set Warnings "-clear-no-such-hyp".

(** ** One action of each thread *)

Lemma hand_over_some {T} (pending shared mine theirs : ThreadSafeQueue T) x :
  hand_over pending shared = Some (x, mine, theirs) →
  m_queue pending = x :: m_queue mine ∧ m_queue theirs = m_queue shared ++ [x]
  ∧ m_max_size mine = m_max_size pending ∧ m_max_size theirs = m_max_size shared.
Proof.
  unfold hand_over, push_default, push. destruct (m_queue pending) as [|y rest]; [done|].
  destruct (0 <? m_max_size shared).
  - unfold wait. destruct (zlen _ <? _); [|done]. simpl. by intros [= <- <- <-].
  - simpl. by intros [= <- <- <-].
Qed.

(** With an unbounded queue on the other side, a push is always possible. *)
Lemma hand_over_possible {T} (pending shared : ThreadSafeQueue T) :
  m_max_size shared = 0 → m_queue pending ≠ [] →
  ∃ x mine theirs, hand_over pending shared = Some (x, mine, theirs).
Proof.
  intros Hu Hne. unfold hand_over. destruct (m_queue pending) as [|x rest]; [done|].
  rewrite push_unbounded by done. by eexists _, _, _.
Qed.

Section Actions.
Context `{Host}.
Implicit Types p : StreamingParser RingBuffer.RingBuffer.

(** The effects of the chunks taken so far. *)
Definition effects (taken : list DataChunk) : list effect := map snd (abs_run ∅ taken).1.

Record parser_ok (taken : list DataChunk) p : Prop := {
  parser_unbounded : unbounded p;
  parser_raw : m_max_size (m_raw_queue p) = 0;
  parser_clients : clients_repr (m_clients p) (abs_run ∅ taken).2;
  parser_failures : m_crc_failures p = u64 (counted (effects taken))
}.

Lemma effects_snoc taken c :
  effects (taken ++ [c]) = effects taken ++ (abs_chunk (abs_run ∅ taken).2 c).1
  ∧ (abs_run ∅ (taken ++ [c])).2 = (abs_chunk (abs_run ∅ taken).2 c).2.
Proof.
  unfold effects. rewrite abs_run_app, abs_run_cons. cbn [fst snd abs_run].
  by rewrite app_nil_r, map_app, map_snd_pair.
Qed.

(** The lines of the parser's log, up to each point of its thread. *)
Definition parser_lines (a : pc) (taken : list DataChunk) : list string :=
  match a with
  | Starting => []
  | Checking | Popping | Finishing => running_text :: logged (effects taken)
  | Returned =>
      running_text :: logged (effects taken) ++ [shutdown_text (u64 (counted (effects taken)))]
  end.

(** What an action of the parser, which takes the chunks [new], comes to. *)
Record parser_acted (taken new : list DataChunk) p (a : pc) (stop : bool) (a' : pc) p' : Prop := {
  acted_raw : m_queue (m_raw_queue p) = new ++ m_queue (m_raw_queue p');
  acted_ok : parser_ok (taken ++ new) p';
  acted_parsed :
    delivered (effects (taken ++ new))
    = delivered (effects taken) ++ m_queue (m_parsed_queue p');
  acted_turn : consumer_turn stop a a' (length new);
  acted_last : a' = Returned → shutdown_text (m_crc_failures p') ∈ m_queue (m_log_queue p');
  acted_logged : (a = Starting → taken = []) →
    parser_lines a' (taken ++ new) = parser_lines a taken ++ m_queue (m_log_queue p')
}.

Lemma parser_acted_nothing taken p p' a stop a' :
  parser_ok taken p' → m_raw_queue p' = m_raw_queue p → m_queue (m_parsed_queue p') = [] →
  consumer_turn stop a a' 0 →
  (a' = Returned → shutdown_text (m_crc_failures p') ∈ m_queue (m_log_queue p')) →
  ((a = Starting → taken = []) →
   parser_lines a' taken = parser_lines a taken ++ m_queue (m_log_queue p')) →
  parser_acted taken [] p a stop a' p'.
Proof. intros Hok Hraw Hpar Hs Hl Hlog. split; rewrite ?app_nil_r, ?Hraw, ?Hpar, ?app_nil_r; done. Qed.

Lemma parser_ok_log taken text p :
  parser_ok taken p → parser_ok taken (apply_effect p (Log text)).
Proof. by intros []. Qed.

Lemma parser_action_ok taken p a stop :
  parser_ok taken p → m_queue (m_parsed_queue p) = [] → m_queue (m_log_queue p) = [] →
  a ≠ Returned →
  (parser_action tt stop a p = (Blocked, p) ∧ stop = false ∧ a = Popping
   ∧ m_queue (m_raw_queue p) = [])
  ∨ ∃ a' new p', parser_action tt stop a p = (Ok a', p') ∧ parser_acted taken new p a stop a' p'.
Proof.
  intros Hok Hpar Hlog Ha. pose proof Hok as [Hu Hraw Hcl Hfail].
  unfold parser_action. destruct a; [| | | |done]; [unfold consumer_action..| |].
  - right. unfold start_up. rewrite (M_bind_ok _ _ _ _ _ (push_log_ok p running_text Hu)).
    eexists _, [], _. split; [done|].
    apply parser_acted_nothing; [by apply parser_ok_log|done..|constructor|done|].
    intros Ht. cbn. by rewrite Hlog, Ht.
  - right. eexists _, [], _. split; [done|].
    apply parser_acted_nothing; [done..| |by destruct stop|].
    + destruct stop; constructor.
    + intros _. rewrite Hlog, app_nil_r. by destruct stop.
  - destruct (m_queue (m_raw_queue p)) as [|c rest] eqn:Eq.
    { rewrite popping_empty by done. destruct stop; [|by left]. right.
      eexists _, [], _. split; [done|].
      apply parser_acted_nothing; [by destruct p|by destruct p|done|constructor|done|].
      intros _. destruct p; cbn in Hlog |- *. by rewrite Hlog, app_nil_r. }
    right. set (p1 := set_raw_queue (mkQueue rest (m_max_size (m_raw_queue p))) p).
    destruct (handle_chunk_ok p1 (abs_run ∅ taken).2 c Hu Hcl) as (cs & E & Hr).
    erewrite popping_item; [|exact Eq|exact E].
    destruct (effects_snoc taken c) as [He Hls]. set (es := (abs_chunk _ c).1) in *.
    eexists _, [c], _. split; [done|]. split.
    + cbn [m_raw_queue set_clients]. by rewrite Eq, m_raw_queue_apply.
    + split; [by apply (apply_effects_unbounded p1)| |by rewrite Hls|].
      * cbn [m_raw_queue set_clients]. by rewrite m_raw_queue_apply.
      * cbn [m_crc_failures set_clients].
        rewrite apply_effects_failures by (cbn; rewrite Hfail; by apply wrap_bounds).
        cbn [m_crc_failures set_raw_queue p1]. rewrite Hfail, He, counted_app.
        unfold wrap. by rewrite Zplus_mod_idemp_l.
    + rewrite He, delivered_app. cbn [m_parsed_queue set_clients].
      rewrite apply_effects_parsed. unfold p1. cbn [m_parsed_queue set_raw_queue]. by rewrite Hpar.
    + constructor.
    + done.
    + intros _. cbn [parser_lines m_log_queue set_clients].
      rewrite apply_effects_log, He, logged_app. unfold p1. cbn [m_log_queue set_raw_queue].
      by rewrite Hlog.
  - right. unfold consumer_action, shut_down. mrun. rewrite (push_log_ok p) by done.
    eexists _, [], _. split; [done|].
    apply parser_acted_nothing; [by apply parser_ok_log|done..|constructor| |].
    + intros _. simpl. rewrite Hlog. set_solver.
    + intros _. cbn. by rewrite Hlog, Hfail.
Qed.

End Actions.

(** ** The business logic *)

(** The telemetry handled so far, and the log lines not yet pushed. *)
Record logic_ok (handled : list Telemetry) (l : BusinessLogic.BusinessLogic) : Prop := {
  logic_queue : m_max_size (BusinessLogic.m_parsed_queue l) = 0;
  logic_follows : ∃ start last reported,
    follows start [] (mkRef handled last reported (m_queue (BusinessLogic.m_log_queue l))) l
}.

Record logic_acted (handled new : list Telemetry) l (a : pc) (stop : bool) (a' : pc) l' : Prop := {
  logic_acted_parsed :
    m_queue (BusinessLogic.m_parsed_queue l) = new ++ m_queue (BusinessLogic.m_parsed_queue l');
  logic_acted_ok : logic_ok (handled ++ new) l';
  logic_acted_turn : consumer_turn stop a a' (length new);
  logic_acted_last : a' = Returned →
    ∃ elapsed, BusinessLogic.summary_text (u64 (zlen (handled ++ new))) (drones (handled ++ new))
                 (BusinessLogic.rate (u64 (zlen (handled ++ new))) elapsed)
               ∈ m_queue (BusinessLogic.m_log_queue l')
}.

Lemma logic_acted_nothing handled l l' a stop a' :
  logic_ok handled l' → BusinessLogic.m_parsed_queue l' = BusinessLogic.m_parsed_queue l →
  consumer_turn stop a a' 0 → a' ≠ Returned →
  logic_acted handled [] l a stop a' l'.
Proof. intros Hok Hq Hs Ha. split; rewrite ?app_nil_r, ?Hq; done. Qed.

Lemma logic_action_ok handled l now a stop :
  logic_ok handled l → m_queue (BusinessLogic.m_log_queue l) = [] → a ≠ Returned →
  (logic_action now stop a l = (Blocked, l) ∧ stop = false ∧ a = Popping
   ∧ m_queue (BusinessLogic.m_parsed_queue l) = [])
  ∨ ∃ a' new l', logic_action now stop a l = (Ok a', l') ∧ logic_acted handled new l a stop a' l'.
Proof.
  intros Hok Hlog Ha. pose proof Hok as [Hpq (start & last & rep & Hf)].
  rewrite Hlog in Hf. pose proof Hf as [Hu _ Hd Hn Hst Hla Hre].
  unfold logic_action. destruct a; [| | | |done]; [unfold consumer_action..| |].
  - right. rewrite (M_bind_ok _ _ _ _ _ (start_up_ok now l Hu)). eexists _, [], _. split; [done|].
    apply logic_acted_nothing; [|done|constructor|done]. split; [done|].
    exists now, now, rep. split; try done.
  - right. eexists _, [], _. split; [done|].
    apply logic_acted_nothing; [done..| |by destruct stop]. destruct stop; constructor.
  - destruct (m_queue (BusinessLogic.m_parsed_queue l)) as [|t rest] eqn:Eq.
    { rewrite popping_empty by done. destruct stop; [|by left]. right.
      eexists _, [], _. split; [done|].
      apply logic_acted_nothing; [by destruct l|by destruct l|constructor|done]. }
    right. set (l1 := BusinessLogic.set_parsed_queue
      (mkQueue rest (m_max_size (BusinessLogic.m_parsed_queue l))) l).
    assert (follows start [] (mkRef handled last rep []) l1) as Hf1 by (by destruct Hf; split).
    destruct (handle_telemetry_ok start [] _ l1 now t Hf1) as (l' & E & Hf' & Hq).
    erewrite popping_item; [|exact Eq|exact E].
    eexists _, [t], _. split; [done|]. split; [by rewrite Hq| |constructor|done].
    split; [by rewrite Hq|]. pose proof (follows_log _ _ _ _ Hf') as Hw.
    rewrite app_nil_l in Hw.
    unfold ref_step in Hf', Hw. cbn [last_report seen reported written] in Hf', Hw.
    destruct (within_interval last now); cbn [written] in Hw;
      eexists start, _, _; rewrite Hw; exact Hf'.
  - right. unfold consumer_action. rewrite (M_bind_ok _ _ _ _ _ (shut_down_ok now l Hu)).
    eexists _, [], _. split; [done|].
    split; rewrite ?app_nil_r; try done; [|constructor|].
    + split; [done|]. exists start, last, rep. split; try done.
    + intros _. exists (BusinessLogic.seconds (now - BusinessLogic.m_start_time l)).
      unfold add_lines, BusinessLogic.active_drone_count.
      cbn [BusinessLogic.m_log_queue BusinessLogic.set_log_queue m_queue].
      rewrite Hlog, Hn, Hd, size_latest. by left.
Qed.

(** ** The logger *)

Record logger_acted (l : AsyncLogger.AsyncLogger) (a : pc) (stop : bool) (a' : pc) l' : Prop := {
  logger_acted_out :
    AsyncLogger.cout l ++ m_queue (AsyncLogger.m_log_queue l)
    = AsyncLogger.cout l' ++ m_queue (AsyncLogger.m_log_queue l');
  logger_acted_queue :
    m_max_size (AsyncLogger.m_log_queue l') = m_max_size (AsyncLogger.m_log_queue l);
  logger_acted_turn : ∃ n, consumer_turn stop a a' n
    ∧ length (m_queue (AsyncLogger.m_log_queue l)) = (n + length (m_queue (AsyncLogger.m_log_queue l')))%nat;
  logger_acted_last : a' = Returned → m_queue (AsyncLogger.m_log_queue l') = [];
  (* it writes one message or none *)
  logger_acted_one :
    (AsyncLogger.cout l' = AsyncLogger.cout l ∧
     m_queue (AsyncLogger.m_log_queue l') = m_queue (AsyncLogger.m_log_queue l))
    ∨ ∃ m, m_queue (AsyncLogger.m_log_queue l) = m :: m_queue (AsyncLogger.m_log_queue l')
           ∧ AsyncLogger.cout l' = AsyncLogger.cout l ++ [m] ∧ a' ≠ Returned
}.

Lemma write_message_run m l :
  ∃ l', AsyncLogger.write_message m l = (Ok tt, l')
    ∧ AsyncLogger.cout l' = AsyncLogger.cout l ++ [m]
    ∧ AsyncLogger.m_log_queue l' = AsyncLogger.m_log_queue l.
Proof.
  unfold AsyncLogger.write_message. rewrite bind_modify, bind_gets. unfold id.
  destruct l as [q [o d b] c]. destruct o; by eexists.
Qed.

Lemma logger_acted_nothing l a stop a' l' :
  AsyncLogger.cout l' = AsyncLogger.cout l →
  AsyncLogger.m_log_queue l' = AsyncLogger.m_log_queue l → consumer_turn stop a a' 0 →
  (a' = Returned → m_queue (AsyncLogger.m_log_queue l) = []) → logger_acted l a stop a' l'.
Proof.
  intros Hc Hq Ht Hr. split; rewrite ?Hc, ?Hq; [done|done|by exists 0%nat|done|by left].
Qed.

Lemma logger_acted_writes l a stop a' l' m rest :
  m_queue (AsyncLogger.m_log_queue l) = m :: rest →
  AsyncLogger.cout l' = AsyncLogger.cout l ++ [m] →
  AsyncLogger.m_log_queue l' = mkQueue rest (m_max_size (AsyncLogger.m_log_queue l)) →
  consumer_turn stop a a' 1 → a' ≠ Returned → logger_acted l a stop a' l'.
Proof.
  intros Eq Hc Hq Ht Hr. split; rewrite ?Hc, ?Hq, ?Eq; try done.
  - by rewrite <-app_assoc.
  - by exists 1%nat.
  - right. by exists m.
Qed.

Lemma logger_action_ok l a stop :
  a ≠ Returned →
  (logger_action tt stop a l = (Blocked, l) ∧ stop = false ∧ a = Popping
   ∧ m_queue (AsyncLogger.m_log_queue l) = [])
  ∨ ∃ a' l', logger_action tt stop a l = (Ok a', l') ∧ logger_acted l a stop a' l'.
Proof.
  intros Ha. unfold logger_action. destruct a; [| | | |done]; [unfold consumer_action..| |].
  - right. eexists _, _. split; [done|]. by apply logger_acted_nothing; [..|constructor|].
  - right. eexists _, _. split; [done|].
    apply logger_acted_nothing; [done|done| |by destruct stop]. destruct stop; constructor.
  - destruct (m_queue (AsyncLogger.m_log_queue l)) as [|m rest] eqn:Eq.
    { rewrite popping_empty by done. destruct stop; [|by left]. right. eexists _, _. split; [done|].
      by apply logger_acted_nothing; [..|constructor|]. }
    right. set (l1 := AsyncLogger.set_log_queue
      (mkQueue rest (m_max_size (AsyncLogger.m_log_queue l))) l).
    destruct (write_message_run m l1) as (l' & E & Hc & Hq).
    erewrite popping_item; [|exact Eq|exact E]. eexists _, _. split; [done|].
    by apply (logger_acted_writes _ _ _ _ _ m rest); [..|constructor|].
  - right. unfold consumer_action, AsyncLogger.drain_step, worker_iteration. mrun. rewrite pop_from_cases.
    cbn [queue_of AsyncLogger.log_ref stop_in_pop AsyncLogger.drain_round].
    destruct (m_queue (AsyncLogger.m_log_queue l)) as [|m rest] eqn:Eq.
    { eexists _, _. split; [done|]. by apply logger_acted_nothing; [..|constructor|]. }
    cbn [set_queue AsyncLogger.log_ref]. set (l1 := AsyncLogger.set_log_queue _ l).
    destruct (write_message_run m l1) as (l' & E & Hc & Hq). rewrite E.
    eexists _, _. split; [done|].
    by apply (logger_acted_writes _ _ _ _ _ m rest); [..|constructor|].
Qed.

(** ** The listener *)

Section Listener.
Context {W : Type} `{PosixWake W}.

(** From the registration of the stop callback to the end of the loop the
    listener can be woken up, and it will be if it has been asked to stop. *)
Definition can_wake (a : listener_pc) (stop : bool) (lw : Listener.Listening (W:=W)) : Prop :=
  match a with
  | Registering => attentive false lw
  | LoopHead | Waiting => attentive stop lw
  | SettingUp | ListenerReturned => True
  end.

Definition listener_acted (base : gset Z) (a : listener_pc) (stop : bool)
    (r : outcome listener_pc * Listener.Listening (W:=W)) : Prop :=
  match r with
  | (Ok a', lw) => owns base lw ∧ can_wake a' stop lw
  | (Throw _, _) => a = SettingUp
  | (OutOfFuel, _) => a = Waiting
  | (Undefined, _) | (Blocked, _) => False
  end.

Lemma event_step_acted base fuel stop lw :
  owns base lw → attentive stop lw → listener_acted base Waiting stop (listener_action fuel stop Waiting lw).
Proof.
  intros Ho Ha. unfold listener_action. pose proof (event_step_safe base fuel false lw Ho) as Hs.
  pose proof (event_step_attentive stop base fuel false lw) as Hw.
  unfold quiet, runs in Hs. unfold mbind, M_bind, mret, M_ret.
  destruct (Listener.event_step fuel false lw) as [[c|e| | |] lw']; try done.
  - split; [done|]. destruct c; [by apply Hw|done].
  - by destruct Hs.
Qed.

Lemma listener_action_ok base fuel a stop lw :
  owns base lw → can_wake a stop lw → a ≠ ListenerReturned →
  listener_acted base a stop (listener_action fuel stop a lw).
Proof.
  intros Ho Hw Ha. destruct a; [| | |by apply event_step_acted|done]; unfold listener_action.
  - pose proof (setup_server_socket_safe base lw Ho) as Hs. unfold loopless, runs in Hs.
    unfold mbind, M_bind, mret, M_ret.
    destruct (Listener.setup_server_socket lw) as [[[]|e| | |] lw1]; try done.
    + pose proof (setup_epoll_safe base lw1 Hs) as Hs1. unfold loopless, runs in Hs1.
      destruct (Listener.setup_epoll lw1) as [[[]|e| | |] lw2] eqn:E; try done.
      * split; [done|]. by eapply setup_epoll_attentive.
      * by destruct Hs1.
    + by destruct Hs.
  - destruct stop.
    + destruct (shutdown_waker_attentive false lw Hw) as (lw' & E & Ha' & _).
      pose proof (waker_safe base true lw (λ _ _, False) Ho) as Hs. unfold runs in Hs.
      unfold mbind, M_bind, mret, M_ret. rewrite E in Hs |- *. done.
    + split; [done|exact Hw].
  - destruct stop; by split.
Qed.

End Listener.

(** ** The whole program *)

Section Invariant.
Context {W : Type} `{PosixWake W} `{Host}.
Implicit Types s : System W.

(** The parser has taken the chunks [taken], the business logic has handled the
    telemetry [handled], and everything between is in the queues. *)
Record data_flow (taken : list DataChunk) (handled : list Telemetry) s : Prop := {
  flow_chunks : chunks s = taken ++ m_queue (m_raw_queue (parser s));
  flow_parser : parser_ok taken (parser s);
  flow_telemetry :
    delivered (effects taken)
    = handled ++ m_queue (BusinessLogic.m_parsed_queue (business_logic s))
      ++ m_queue (m_parsed_queue (parser s));
  flow_logic : logic_ok handled (business_logic s);
  flow_summary : at_logic s = Returned →
    ∃ elapsed, BusinessLogic.summary_text (u64 (zlen handled)) (drones handled)
                 (BusinessLogic.rate (u64 (zlen handled)) elapsed)
               ∈ messages s ++ m_queue (BusinessLogic.m_log_queue (business_logic s))
}.

(** The messages: those written and those queued, after the output [out] there
    was before. *)
Record log_flow (out : list string) s : Prop := {
  flow_messages :
    out ++ messages s
    = AsyncLogger.cout (async_logger s) ++ m_queue (AsyncLogger.m_log_queue (async_logger s));
  flow_unbounded : m_max_size (AsyncLogger.m_log_queue (async_logger s)) = 0;
  flow_shutdown : at_parser s = Returned →
    shutdown_text (m_crc_failures (parser s)) ∈ messages s ++ m_queue (m_log_queue (parser s))
}.

(** A consumer leaves its loop only when it has been asked to. *)
Definition leaves_when_asked s : Prop :=
  ∀ t a, (t, a) ∈ [(Main.parser_thread, at_parser s); (Main.logic_thread, at_logic s);
                   (Main.logger_thread, at_logger s)] →
    a = Finishing ∨ a = Returned → t ∈ stop_requested s.

Record sys_inv (base : gset Z) (out : list string) s : Prop := {
  sys_listener : owns base (network_listener s, world s);
  sys_wake : can_wake (at_listener s) (stopping Main.listener_thread s)
               (network_listener s, world s);
  sys_data : ∃ taken handled, data_flow taken handled s;
  sys_log : log_flow out s;
  sys_asked : leaves_when_asked s
}.

Definition process_inv (base : gset Z) (out : list string) (p : Process W) : Prop :=
  match p with
  | Running s => sys_inv base out s
  | Terminated _ => True
  | Broken => False
  end.

(** ** Preservation *)

Lemma stopping_true t s : stopping t s = true ↔ t ∈ stop_requested s.
Proof. apply bool_decide_eq_true. Qed.

(** A consumer that moves from [a] to [a'] leaves its loop only when asked. *)
Lemma asked_step s t a a' :
  leaves_when_asked s →
  (t, a) ∈ [(Main.parser_thread, at_parser s); (Main.logic_thread, at_logic s);
            (Main.logger_thread, at_logger s)] →
  (a' = Finishing ∨ a' = Returned → stopping t s = true ∨ a = Finishing) →
  a' = Finishing ∨ a' = Returned → t ∈ stop_requested s.
Proof.
  intros Hl Hin Hstep Ha'. destruct (Hstep Ha') as [Hs|Hf]; [by apply stopping_true|].
  apply (Hl t a Hin). by left.
Qed.

Lemma inv_listener_acts base out s fuel q :
  sys_inv base out s → at_listener s ≠ ListenerReturned →
  resume (listener_action fuel (stopping Main.listener_thread s) (at_listener s)
            (network_listener s, world s)) (λ a lw, with_listener a lw s) = Some q →
  process_inv base out q.
Proof.
  intros [Ho Hw Hd Hl Hk] Ha E.
  pose proof (listener_action_ok base fuel _ _ _ Ho Hw Ha) as Hacted. unfold listener_acted in Hacted.
  destruct (listener_action _ _ _ _) as [[a|e| | |] [l w]]; simplify_eq/=; try done.
  destruct Hacted as [Ho' Hw'].
  destruct Hd as (taken & handled & []), Hl. split; [done..|by exists taken, handled; split|by split|done].
Qed.

Lemma inv_parser_acts base out s q :
  sys_inv base out s → at_parser s ≠ Returned → parser_idle s →
  resume (parser_action tt (stopping Main.parser_thread s) (at_parser s) (parser s))
    (λ a p, with_parser a p s) = Some q →
  process_inv base out q.
Proof.
  intros [Ho Hw (taken & handled & Hd) Hl Hk] Ha [Hi1 Hi2] E.
  destruct Hd as [D1 D2 D3 D4 D5]. destruct Hl as [L1 L2 L3].
  destruct (parser_action_ok taken _ _ (stopping Main.parser_thread s) D2 Hi1 Hi2 Ha)
    as [[E' _]|(a' & new & p' & E' & [A1 A2 A3 A4 A5])]; rewrite E' in E; simplify_eq/=.
  split; [done|done| | |].
  - exists (taken ++ new), handled. split; simpl; [by rewrite D1, A1, app_assoc|done| |done|done].
    rewrite A3, D3, Hi1, app_nil_r. by rewrite app_assoc.
  - split; simpl; [done|done|]. intros Hr. apply elem_of_app. right. by apply A5.
  - intros t a Hin. simpl in Hin. rewrite elem_of_cons in Hin. destruct Hin as [[= -> ->]|Hin].
    + simpl. apply (asked_step s _ (at_parser s)); [done|set_solver|by eapply turn_asked].
    + apply Hk. set_solver.
Qed.

Lemma inv_logic_acts base out s now q :
  sys_inv base out s → at_logic s ≠ Returned → logic_idle s →
  resume (logic_action now (stopping Main.logic_thread s) (at_logic s) (business_logic s))
    (λ a l, with_logic a l s) = Some q →
  process_inv base out q.
Proof.
  intros [Ho Hw (taken & handled & Hd) Hl Hk] Ha Hi E.
  destruct Hd as [D1 D2 D3 D4 D5]. destruct Hl as [L1 L2 L3].
  destruct (logic_action_ok handled _ now _ (stopping Main.logic_thread s) D4 Hi Ha)
    as [[E' _]|(a' & new & l' & E' & [A1 A2 A3 A4])]; rewrite E' in E; simplify_eq/=.
  split; [done|done| | |].
  - exists taken, (handled ++ new). split; simpl; [done|done| |done|].
    + by rewrite D3, A1, <-!app_assoc.
    + intros ->. destruct (A4 eq_refl) as [elapsed Hin]. exists elapsed.
      apply elem_of_app. by right.
  - by split.
  - intros t a Hin. simpl in Hin. rewrite !elem_of_cons in Hin.
    destruct Hin as [?|[[= -> ->]|Hin]]; [apply Hk; set_solver| |apply Hk; set_solver].
    simpl. apply (asked_step s _ (at_logic s)); [done|set_solver|by eapply turn_asked].
Qed.

Lemma inv_logger_acts base out s q :
  sys_inv base out s → at_logger s ≠ Returned →
  resume (logger_action tt (stopping Main.logger_thread s) (at_logger s) (async_logger s))
    (λ a l, with_logger a l s) = Some q →
  process_inv base out q.
Proof.
  intros [Ho Hw (taken & handled & []) [L1 L2 L3] Hk] Ha E.
  destruct (logger_action_ok (async_logger s) _ (stopping Main.logger_thread s) Ha)
    as [[E' _]|(a' & l' & E' & [A1 A2 A3 _ _])]; rewrite E' in E; simplify_eq/=.
  split; [done|done|exists taken, handled; by split| |].
  - split; simpl; [by rewrite L1, A1|by rewrite A2|done].
  - intros t a Hin. simpl in Hin. rewrite !elem_of_cons in Hin.
    destruct Hin as [?|[?|[[= -> ->]|Hin]]]; [apply Hk; set_solver..| |apply Hk; set_solver].
    simpl. destruct A3 as (n & A3 & _).
    apply (asked_step s _ (at_logger s)); [done|set_solver|by eapply turn_asked].
Qed.

(** What the listener's queues hold does not concern its descriptors. *)
Lemma owns_queues base l l' (w : W) :
  owns base (l, w) →
  m_max_size (Listener.m_queue l') = m_max_size (Listener.m_queue l) →
  m_max_size (Listener.m_log_queue l') = m_max_size (Listener.m_log_queue l) →
  Listener.m_server_fd l' = Listener.m_server_fd l → Listener.m_epoll_fd l' = Listener.m_epoll_fd l →
  Listener.m_event_fd l' = Listener.m_event_fd l → Listener.m_clients l' = Listener.m_clients l →
  owns base (l', w).
Proof.
  intros [Hl Hc Hq] Q1 Q2 E1 E2 E3 E4. split.
  - unfold layout_of in *. simpl in *. by rewrite E1, E2, E3, E4.
  - simpl. by rewrite E4.
  - simpl. by rewrite Q1, Q2.
Qed.

Lemma can_wake_queues a b l l' (w : W) :
  can_wake a b (l, w) →
  Listener.m_epoll_fd l' = Listener.m_epoll_fd l → Listener.m_event_fd l' = Listener.m_event_fd l →
  can_wake a b (l', w).
Proof.
  intros Hw E1 E2. destruct a; try done; destruct Hw as [H3 H4 H5 H6]; simpl in *;
    split; simpl; by rewrite ?E1, ?E2.
Qed.

Lemma inv_listener_queues base out s c mine theirs :
  sys_inv base out s →
  hand_over (Listener.m_queue (network_listener s)) (m_raw_queue (parser s))
    = Some (c, mine, theirs) →
  sys_inv base out (with_history (chunks s ++ [c]) (messages s)
    (with_parser (at_parser s) (set_raw_queue theirs (parser s))
      (with_listener (at_listener s) (Listener.set_queue mine (network_listener s), world s) s))).
Proof.
  intros [Ho Hw (taken & handled & [D1 D2 D3 D4 D5]) [L1 L2 L3] Hk] E.
  destruct (hand_over_some _ _ _ _ _ E) as (E1 & E2 & E3 & E4). split.
  - by eapply owns_queues.
  - by eapply can_wake_queues.
  - exists taken, handled. split; simpl; [by rewrite D1, E2, app_assoc| |done..].
    destruct D2. split; [done|by simpl; rewrite E4|done|done].
  - by split.
  - exact Hk.
Qed.

Lemma inv_parser_delivers base out s t mine theirs :
  sys_inv base out s →
  hand_over (m_parsed_queue (parser s)) (BusinessLogic.m_parsed_queue (business_logic s))
    = Some (t, mine, theirs) →
  sys_inv base out
    (with_logic (at_logic s) (BusinessLogic.set_parsed_queue theirs (business_logic s))
      (with_parser (at_parser s) (set_parsed_queue mine (parser s)) s)).
Proof.
  intros [Ho Hw (taken & handled & [D1 D2 D3 D4 D5]) [L1 L2 L3] Hk] E.
  destruct (hand_over_some _ _ _ _ _ E) as (E1 & E2 & E3 & E4).
  split; [done|done| |by split|exact Hk].
  exists taken, handled. split; simpl; [done| | | |done].
  - destruct D2 as [[Hu1 Hu2] Hraw Hcl Hfail]. split; [|done|done|done]. split; [|done]. simpl. by rewrite E3.
  - by rewrite D3, E1, E2, <-app_assoc.
  - destruct D4 as [Q (start & last & rep & [])]. split; [by simpl; rewrite E4|].
    exists start, last, rep. by split.
Qed.

(** A pending push is among the messages once it has been performed. *)
Lemma pushed_message {T} (x m : T) (ms mine pending : list T) :
  pending = m :: mine → x ∈ ms ++ pending → x ∈ (ms ++ [m]) ++ mine.
Proof. intros ->. by rewrite <-app_assoc. Qed.

Lemma inv_listener_logs base out s m mine theirs :
  sys_inv base out s →
  hand_over (Listener.m_log_queue (network_listener s)) (AsyncLogger.m_log_queue (async_logger s))
    = Some (m, mine, theirs) →
  sys_inv base out (with_history (chunks s) (messages s ++ [m])
    (with_logger (at_logger s) (AsyncLogger.set_log_queue theirs (async_logger s))
      (with_listener (at_listener s)
         (Listener.set_log_queue mine (network_listener s), world s) s))).
Proof.
  intros [Ho Hw (taken & handled & [D1 D2 D3 D4 D5]) [L1 L2 L3] Hk] E.
  destruct (hand_over_some _ _ _ _ _ E) as (E1 & E2 & E3 & E4). split.
  - by eapply owns_queues.
  - by eapply can_wake_queues.
  - exists taken, handled. split; simpl; try done.
    intros Hr. destruct (D5 Hr) as [el Hin]. exists el. set_solver.
  - split; simpl; [by rewrite app_assoc, L1, E2, app_assoc|by rewrite E4|].
    intros Hr. specialize (L3 Hr). set_solver.
  - exact Hk.
Qed.

Lemma inv_parser_logs base out s m mine theirs :
  sys_inv base out s →
  hand_over (m_log_queue (parser s)) (AsyncLogger.m_log_queue (async_logger s))
    = Some (m, mine, theirs) →
  sys_inv base out (with_history (chunks s) (messages s ++ [m])
    (with_logger (at_logger s) (AsyncLogger.set_log_queue theirs (async_logger s))
      (with_parser (at_parser s) (set_log_queue mine (parser s)) s))).
Proof.
  intros [Ho Hw (taken & handled & [D1 D2 D3 D4 D5]) [L1 L2 L3] Hk] E.
  destruct (hand_over_some _ _ _ _ _ E) as (E1 & E2 & E3 & E4). split; [done|done| | |exact Hk].
  - exists taken, handled. split; simpl; try done.
    + destruct D2 as [[Hu1 Hu2] Hraw Hcl Hfail]. split; [|done|done|done]. split; [done|]. simpl. by rewrite E3.
    + intros Hr. destruct (D5 Hr) as [el Hin]. exists el. set_solver.
  - split; simpl; [by rewrite app_assoc, L1, E2, app_assoc|by rewrite E4|].
    intros Hr. eapply pushed_message; [exact E1|by apply L3].
Qed.

Lemma inv_logic_logs base out s m mine theirs :
  sys_inv base out s →
  hand_over (BusinessLogic.m_log_queue (business_logic s))
    (AsyncLogger.m_log_queue (async_logger s)) = Some (m, mine, theirs) →
  sys_inv base out (with_history (chunks s) (messages s ++ [m])
    (with_logger (at_logger s) (AsyncLogger.set_log_queue theirs (async_logger s))
      (with_logic (at_logic s) (BusinessLogic.set_log_queue mine (business_logic s)) s))).
Proof.
  intros [Ho Hw (taken & handled & [D1 D2 D3 D4 D5]) [L1 L2 L3] Hk] E.
  destruct (hand_over_some _ _ _ _ _ E) as (E1 & E2 & E3 & E4). split; [done|done| | |exact Hk].
  - exists taken, handled. split; simpl; try done.
    + destruct D4 as [Q (start & last & rep & [])]. split; [done|].
      exists start, last, rep. split; try done. simpl. by rewrite E3.
    + intros Hr. destruct (D5 Hr) as [el Hin]. exists el. by eapply pushed_message.
  - split; simpl; [by rewrite app_assoc, L1, E2, app_assoc|by rewrite E4|].
    intros Hr. specialize (L3 Hr). set_solver.
Qed.

(** Only [main] and the kernel move. *)
Lemma inv_main base out s (w : W) m ts :
  sys_inv base out s → owns base (network_listener s, w) →
  can_wake (at_listener s) (bool_decide (Main.listener_thread ∈ ts)) (network_listener s, w) →
  stop_requested s ⊆ ts →
  sys_inv base out (with_main m ts (with_world w s)).
Proof.
  intros [_ _ (taken & handled & []) [] Hk] Ho Hw Hts.
  split; [done|exact Hw|exists taken, handled; by split|by split|].
  intros t a Hin Ha. by apply Hts, (Hk t a).
Qed.

Lemma inv_stdout base out s text :
  sys_inv base out s → sys_inv base out (with_stdout text s).
Proof.
  intros [Ho Hw (taken & handled & []) [] Hk].
  split; [done|done|exists taken, handled; by split|by split|done].
Qed.

(** The stop callback wakes the listener. *)
Lemma stop_callback_wakes base s b :
  owns base (network_listener s, world s) →
  can_wake (at_listener s) b (network_listener s, world s) →
  owns base (network_listener s, stop_callback s)
  ∧ can_wake (at_listener s) true (network_listener s, stop_callback s).
Proof.
  intros Ho Hw. unfold stop_callback. destruct (at_listener s) eqn:Ea; try by split.
  all: destruct (shutdown_waker_attentive b _ Hw) as ([l' w'] & E & Ha & El); simpl in El; subst l';
    pose proof (waker_safe base true _ (λ _ _, False) Ho) as Hs; unfold runs in Hs;
    rewrite E in Hs |- *; by split.
Qed.

Lemma can_wake_more a b lw : can_wake a true lw → can_wake a b lw.
Proof. destruct a; try done; intros [H3 H4 H5 H6]; split; auto. Qed.

Lemma stopping_more t s ts :
  t ∉ ts → bool_decide (t ∈ ts ∪ stop_requested s) = stopping t s.
Proof. intros Hn. apply bool_decide_ext. set_solver. Qed.

Lemma inv_request_stop base out s t n :
  sys_inv base out s → sys_inv base out (request_stop_of t n s).
Proof.
  intros Hs. pose proof Hs as [Ho Hw _ _ _]. unfold request_stop_of.
  destruct (decide (t = Main.listener_thread)) as [->|Ht].
  - destruct (stop_callback_wakes base s _ Ho Hw) as [Ho' Hw'].
    apply (inv_main base out s (stop_callback s)); [done|done| |set_solver].
    by apply can_wake_more.
  - replace (match t with Main.listener_thread => _ | _ => s end) with s by (by destruct t).
    apply (inv_main base out s (world s)); [done|done| |set_solver].
    rewrite stopping_more by set_solver. exact Hw.
Qed.

Lemma inv_kernel base out s w :
  sys_inv base out s → kernel_moves (world s) w → sys_inv base out (with_world w s).
Proof.
  intros Hs Hm. pose proof Hs as [Ho Hw _ _ _]. destruct (moves_wake _ _ Hm) as (E1 & E2 & E3).
  replace (with_world w s) with (with_main (at_main s) (stop_requested s) (with_world w s))
    by (by destruct s).
  apply (inv_main base out s w); [done|by eapply owns_world| |done].
  change (bool_decide _) with (stopping Main.listener_thread s).
  destruct (at_listener s); try done; destruct Hw as [H3 H4 H5 H6]; split; simpl in *; auto.
Qed.

Theorem step_process_inv base out p q :
  step p q → process_inv base out p → process_inv base out q.
Proof.
  intros Hstep Hp. destruct Hstep; simpl in Hp.
  - by eapply inv_listener_acts.
  - by eapply inv_parser_acts.
  - by eapply inv_logic_acts.
  - by eapply inv_logger_acts.
  - by eapply inv_listener_queues.
  - by eapply inv_parser_delivers.
  - by eapply inv_listener_logs.
  - by eapply inv_parser_logs.
  - by eapply inv_logic_logs.
  - destruct Hp as [Ho Hw (taken & handled & []) [] Hk].
    split; [done|done|exists taken, handled; by split|by split|done].
  - pose proof Hp as [Ho Hw _ _ _].
    by apply (inv_main base out s (world s)).
  - by apply inv_request_stop.
  - pose proof Hp as [Ho Hw _ _ _].
    by apply (inv_main base out s (world s)).
  - pose proof (inv_stdout base out s (stdout s ++ [text]) Hp) as Hs. pose proof Hs as [Ho Hw _ _ _].
    by apply (inv_main base out (with_stdout (stdout s ++ [text]) s) (world s)).
  - by apply inv_kernel.
Qed.

(** What every step keeps holds in every state of a run. *)
Lemma running_invariant (I : System W → Prop) s s' :
  (∀ s1 s2, step (Running s1) (Running s2) → I s1 → I s2) →
  rtc step (Running s) (Running s') → I s → I s'.
Proof.
  intros Hstep Hr Hs. set (P q := match q with Running s => I s | _ => True end).
  enough (P (Running s')) by done. apply (rtc_ind_r (R := step) P (Running s)); [done| |done].
  intros q r _ Hqr Hq. destruct r as [r| |]; [|done..].
  destruct q as [q| |]; [|inversion Hqr..]. by eapply Hstep.
Qed.

(** The program as [main] starts it. *)
Lemma new_logger_queue `{AsyncLogger.Filesystem} q path out l :
  AsyncLogger.new_logger q path out = Ok l →
  AsyncLogger.m_log_queue l = q ∧ AsyncLogger.cout l = out.
Proof.
  unfold AsyncLogger.new_logger. destruct path; [by intros [= <-]|].
  destruct (if AsyncLogger.has_parent_path _ then _ else _) as [[]|e| | |]; try done. simpl.
  destruct (AsyncLogger.open_append _); [done|]. by intros [= <-].
Qed.

Lemma boot_cases `{AsyncLogger.Filesystem} arguments out (w : W) s :
  boot arguments out w = Ok s →
  ∃ port path logger,
    Main.command_line arguments = Ok (port, path)
    ∧ AsyncLogger.new_logger (new_queue 0) path (out ++ Main.banner port path) = Ok logger
    ∧ s = mkSystem w (Listener.new_listener port (new_queue 0) (new_queue 0)) SettingUp
            (new_parser (new_queue 0) (new_queue 0) (new_queue 0)) Starting
            (BusinessLogic.new_logic (new_queue 0) (new_queue 0)) Starting
            logger Starting false Polling ∅ [] [] (out ++ Main.banner port path).
Proof.
  unfold boot. destruct (Main.command_line arguments) as [[port path]|e| | |]; try done.
  cbn [mbind outcome_bind].
  destruct (AsyncLogger.new_logger _ path _) as [logger|e| | |] eqn:El; try done.
  intros [= <-]. by exists port, path, logger.
Qed.

Lemma boot_inv `{AsyncLogger.Filesystem} arguments out (w : W) s :
  boot arguments out w = Ok s → sys_inv (open_fds w) (stdout s) s.
Proof.
  intros (port & path & logger & _ & El & ->)%boot_cases.
  apply new_logger_queue in El as [Eq Ec]. split; simpl.
  - by apply new_listener_owns.
  - done.
  - exists [], []. split; simpl; try done.
    + split; [done|done|apply clients_repr_empty|done].
    + split; [done|]. exists 0, 0, 0. by split.
  - split; simpl; [by rewrite Ec, Eq|by rewrite Eq|done].
  - intros t a Hin [-> | ->]; simpl in Hin; rewrite !elem_of_cons in Hin;
      destruct Hin as [?|[?|[?|[]%elem_of_nil]]]; simplify_eq.
Qed.

Lemma reachable_inv_process base out s p :
  rtc step (Running s) p → sys_inv base out s → process_inv base out p.
Proof.
  intros Hr Hs. apply (rtc_ind_r (R := step) (process_inv base out) (Running s)); [done| |done].
  intros q r _ Hstep. by apply step_process_inv.
Qed.

End Invariant.
