(* ===== verification/SystemTypes.v ===== *)
(** * What the program's data look like

    Every chunk on its way to the parser fits in the listener's buffer, every
    telemetry on its way to the drone table is one that the protocol can carry,
    the counters are in their range, and no client's ring buffer is ever too
    full for a chunk that is coming. *)

From S2P Require Import Prelude ByteBuffer RingBuffer Telemetry ThreadSafeQueue Worker Endian Scan StreamingParser ParserCorrect ParserTheorems BusinessLogic LogicCorrect AsyncLogger Posix Triples Listener ListenerOwnership ListenerChunks Threads Main System SystemInvariant.

Import System.

Section Types.
Context {W : Type} `{PosixWake W} `{Host}.
Implicit Types (s : System W) (base : gset Z) (out : list string).

(** ** The chunks *)

(** The receive buffer has its size, and the chunks queued and to be queued fit
    in it. *)
Record chunks_fit s : Prop := {
  fit_listener : fitting (network_listener s);
  fit_chunks : Forall small (chunks s)
}.

Lemma fit_acts s fuel stop a' lw' :
  chunks_fit s →
  listener_action fuel stop (at_listener s) (network_listener s, world s) = (Ok a', lw') →
  chunks_fit (with_listener a' lw' s).
Proof.
  intros [Hl Hc] E. split; [|done]. cbn [network_listener with_listener].
  pose proof (preserves_listener_action stays_fitting fuel stop (at_listener s)
    tidy_setup_server_socket tidy_setup_epoll tidy_waker (tidy_event_step _ _)) as Ht.
  specialize (Ht (network_listener s, world s) Hl). by rewrite E in Ht.
Qed.

Lemma step_chunks_fit s s' : step (Running s) (Running s') → chunks_fit s → chunks_fit s'.
Proof.
  intros Hs Hf. pose proof Hf as [[Hb Hq] Hc].
  step_cases Hs; try (by split; [split|]).
  - by eapply fit_acts.
  - apply hand_over_some in E as (E & _). rewrite E in Hq. apply Forall_cons in Hq as [Hsm Hq].
    split; [by split|]. cbn [chunks with_history]. apply Forall_app. split; [done|by constructor].
  - destruct t; (split; [by split|done]).
Qed.

(** ** Invariants along a run *)

Lemma boot_chunks_fit `{AsyncLogger.Filesystem} arguments out (w : W) s :
  boot arguments out w = Ok s → chunks_fit s.
Proof.
  intros (port & path & logger & _ & _ & ->)%boot_cases. split; [|done]. split; [|done].
  by apply zlen_replicate.
Qed.

Lemma reachable_chunks_fit s s' :
  rtc step (Running s) (Running s') → chunks_fit s → chunks_fit s'.
Proof. apply running_invariant, step_chunks_fit. Qed.

(** ** The ring buffers *)

(** What of a client is unread. *)
Definition buffered (id : Z) s : Z :=
  match m_clients (parser s) !! id with
  | Some c => RingBuffer.size (ring_buffer c)
  | None => 0
  end.

Lemma buffered_small taken s id :
  parser_ok taken (parser s) → 0 <= buffered id s < 262.
Proof.
  intros [_ _ Hc _]. unfold buffered. pose proof (Hc id) as Hid.
  pose proof (abs_run_undecided ∅ taken undecided_empty id) as Hu.
  destruct Hid as [c l Hinv|]; [|lia]. simpl in Hu.
  change (RingBuffer.size (ring_buffer c)) with (bb_size (ring_buffer c)).
  rewrite (size_ok c l Hinv). pose proof (needmore_bound _ Hu). pose proof (zlen_nonneg l). lia.
Qed.

(** ** Well-typed states *)

Record well_typed s : Prop := {
  typed_chunks :
    Forall small (m_queue (m_raw_queue (parser s)) ++ m_queue (Listener.m_queue (network_listener s)));
  typed_buffer : zlen (Listener.m_recv_buf (network_listener s)) = Listener.RECV_BUF_SIZE;
  typed_clients : ∀ id c, m_clients (parser s) !! id = Some c →
    RingBuffer.wf (ring_buffer c) ∧ RingBuffer.capacity (ring_buffer c) = DEFAULT_CAPACITY;
  typed_failures : is_u64 (m_crc_failures (parser s));
  typed_telemetry :
    Forall sendable (m_queue (BusinessLogic.m_parsed_queue (business_logic s))
                     ++ m_queue (m_parsed_queue (parser s)));
  typed_drones : ∀ id t, BusinessLogic.m_drones (business_logic s) !! id = Some t →
    sendable t ∧ drone_id t = id;
  typed_count : is_u64 (BusinessLogic.m_packets_processed (business_logic s))
}.

Lemma latest_typed ts id t : Forall sendable ts → latest ts !! id = Some t → sendable t ∧ drone_id t = id.
Proof.
  intros Hts. rewrite latest_lookup. intros Hl%last_Some_elem_of.
  apply list_elem_of_In, List.filter_In in Hl as [Hin Hid%bool_decide_eq_true].
  split; [|done]. rewrite Forall_forall in Hts. apply Hts. by apply list_elem_of_In.
Qed.

Lemma inv_well_typed base out s : sys_inv base out s → chunks_fit s → well_typed s.
Proof.
  intros [_ _ (taken & handled & [D1 D2 D3 [_ (? & ? & ? & D4)] _]) _ _] [[Hb Hq] Hc].
  pose proof (abs_run_sendable ∅ taken) as Hs. fold (effects taken) in Hs.
  rewrite D3 in Hs. apply Forall_app in Hs as [Hh Hs]. split.
  - apply Forall_app. split; [|done]. rewrite D1 in Hc. by apply Forall_app in Hc as [_ ?].
  - done.
  - intros id c E. pose proof (parser_clients _ _ D2 id) as Hid. rewrite E in Hid.
    inversion Hid as [? l Hinv|]; subst. by destruct Hinv as (Hwf & Hcap & _).
  - rewrite (parser_failures _ _ D2). by apply wrap_bounds.
  - done.
  - intros id t. rewrite (follows_drones _ _ _ _ D4). by apply latest_typed.
  - rewrite (follows_processed _ _ _ _ D4). by apply wrap_bounds.
Qed.

End Types.
