(* ===== verification/SystemTrace.v ===== *)
(** * From what was read to the drone table

    The chunks queued by the listener are those of the kernel's transcript, in
    every state of a run; so what the parser counts and what the business logic
    keeps is what the specification of [Traffic.v] hears in a part of the
    transcript, and in all of it once the queues between the threads are empty. *)

From S2P Require Import Prelude Telemetry ThreadSafeQueue Worker RingBuffer Endian Scan StreamingParser ParserCorrect ParserTheorems BusinessLogic LogicCorrect AsyncLogger Posix Triples Listener ListenerOwnership ListenerChunks ListenerTrace Traffic Threads Main System SystemInvariant SystemTypes.

Import System.

Section Trace.
Context {W : Type} `{PosixTrace W} `{Host}.
Implicit Types (s : System W) (base : gset Z) (out : list string).

(** The listener's queue, what has come in, and the chunks that have been
    pushed. *)
Record forwarded s : Prop := {
  forwarded_ordinary : Forall ordinary (transcript (world s));
  forwarded_chunks :
    map chunk_of (transcript (world s))
    = chunks s ++ m_queue (Listener.m_queue (network_listener s))
}.

(** Nothing is read or queued. *)
Lemma forwarded_same s s' :
  forwarded s → transcript (world s') = transcript (world s) →
  chunks s' ++ m_queue (Listener.m_queue (network_listener s'))
  = chunks s ++ m_queue (Listener.m_queue (network_listener s)) → forwarded s'.
Proof. intros [Ho Hc] Et Ec. split; by rewrite Et, ?Ec. Qed.

Lemma faithful_action s fuel stop :
  faithful (network_listener s, world s)
    (listener_action fuel stop (at_listener s) (network_listener s, world s)).2.
Proof.
  apply (preserves_listener_action faithful); [apply faithfully_setup_server_socket
    |apply faithfully_setup_epoll|apply faithfully_waker|apply faithfully_event_step].
Qed.

Lemma forwarded_acts s fuel stop a' lw' :
  m_max_size (Listener.m_queue (network_listener s)) = 0 → forwarded s →
  listener_action fuel stop (at_listener s) (network_listener s, world s) = (Ok a', lw') →
  forwarded (with_listener a' lw' s).
Proof.
  intros Hu [Ho Hc] E.
  destruct (faithful_action s fuel stop Hu) as (es & [_ E1 E2 E3]).
  rewrite E in E1, E3. cbn [fst snd] in E1, E3. split; cbn.
  - rewrite E1. by apply Forall_app.
  - by rewrite E1, E3, map_app, Hc, app_assoc.
Qed.

(** The stop callback reads nothing. *)
Lemma stop_callback_transcript s : transcript (stop_callback s) = transcript (world s).
Proof.
  unfold stop_callback. destruct (at_listener s); try done; apply write_event_transcript.
Qed.

(** What has come in stays. *)
Lemma step_transcript base out s s' :
  sys_inv base out s → step (Running s) (Running s') →
  transcript (world s) `prefix_of` transcript (world s').
Proof.
  intros Hinv Hs. pose proof (sys_listener _ _ _ Hinv) as [_ _ [Hu _]].
  step_cases Hs; try done.
  - destruct (faithful_action s fuel (stopping Main.listener_thread s) Hu) as (es & [_ E1 _ _]).
    rewrite E in E1. cbn [snd] in E1. exists es. exact E1.
  - destruct t; [|done..]. change (transcript (world s) `prefix_of` transcript (stop_callback s)).
    by rewrite stop_callback_transcript.
  - change (transcript (world s) `prefix_of` transcript w). by rewrite (moves_transcript _ _ Hm).
Qed.

Lemma step_forwarded base out s s' :
  sys_inv base out s → step (Running s) (Running s') → forwarded s → forwarded s'.
Proof.
  intros Hinv Hs Hf. pose proof (sys_listener _ _ _ Hinv) as [_ _ [Hu _]].
  step_cases Hs; try (by apply (forwarded_same s)).
  - by eapply forwarded_acts.
  - apply hand_over_some in E as (E & _). apply (forwarded_same s); [done|done|].
    cbn. by rewrite E, <-app_assoc.
  - apply (forwarded_same s); [done| |by destruct t].
    destruct t; [apply stop_callback_transcript|done..].
  - apply (forwarded_same s); [done|by apply moves_transcript|done].
Qed.

Lemma boot_forwarded `{AsyncLogger.Filesystem} arguments out (w : W) s :
  boot arguments out w = Ok s → transcript w = [] → forwarded s.
Proof.
  intros (port & path & logger & _ & _ & ->)%boot_cases Hw. split; cbn; rewrite Hw; [constructor|done].
Qed.

Lemma reachable_forwarded base out s s' :
  sys_inv base out s → rtc step (Running s) (Running s') → forwarded s → forwarded s'.
Proof.
  intros Hi Hr Hf. enough (sys_inv base out s' ∧ forwarded s') as [_ ?] by done.
  apply (running_invariant (λ s, sys_inv base out s ∧ forwarded s) s s'); [|exact Hr|done].
  intros s1 s2 Hs [Hi1 Hf1]. split; [by apply (step_process_inv base out _ _ Hs)|].
  by eapply step_forwarded.
Qed.

(** ** What the threads have made of it *)

(** Nothing is on its way between the threads. *)
Record settled s : Prop := {
  settled_listener : m_queue (Listener.m_queue (network_listener s)) = [];
  settled_raw : m_queue (m_raw_queue (parser s)) = [];
  settled_parser : m_queue (m_parsed_queue (parser s)) = [];
  settled_logic : m_queue (BusinessLogic.m_parsed_queue (business_logic s)) = []
}.

Lemma chunk_of_split es cs cs' :
  map chunk_of es = cs ++ cs' →
  ∃ es1 es2, es = es1 ++ es2 ∧ cs = map chunk_of es1 ∧ cs' = map chunk_of es2.
Proof. intros (l1 & l2 & -> & <- & <-)%map_eq_app. by exists l1, l2. Qed.

(** The parser has worked off the events [parsed] of all that were heard, and the
    business logic the telemetry [handled] of these. *)
Record worked_off (all parsed : list event) (handled : list Telemetry) s : Prop := {
  worked_parsed : parsed `prefix_of` all;
  worked_handled : handled `prefix_of` received parsed;
  worked_failures : m_crc_failures (parser s) = u64 (failures parsed);
  worked_drones : BusinessLogic.m_drones (business_logic s) = latest handled;
  worked_count : BusinessLogic.m_packets_processed (business_logic s) = u64 (zlen handled);
  worked_settled : settled s → parsed = all ∧ handled = received all
}.

Lemma proper_transcript s : forwarded s → chunks_fit s → Forall proper (transcript (world s)).
Proof.
  intros [Ho Hc] [[_ Hq] Hs]. apply Forall_and. split; [done|].
  assert (Forall small (map chunk_of (transcript (world s)))) as Hall
    by (rewrite Hc; by apply Forall_app).
  by apply (Forall_map chunk_of small) in Hall.
Qed.

Lemma flow_worked_off taken handled s :
  data_flow taken handled s → chunks_fit s → forwarded s →
  ∃ parsed, worked_off (map snd (heard (transcript (world s))).1) parsed handled s.
Proof.
  intros [D1 D2 D3 [_ (? & ? & ? & D4)] _] Hfit Hf.
  pose proof (proper_transcript s Hf Hfit) as Hp. destruct Hf as [_ Hc].
  rewrite D1, <-app_assoc in Hc. apply chunk_of_split in Hc as (es1 & es2 & Et & -> & Hrest).
  rewrite Et in Hp |- *. apply Forall_app in Hp as [Hp1 Hp2].
  destruct (heard_parsed es1 Hp1) as (_ & Hd & Hn). fold (effects (map chunk_of es1)) in Hd, Hn.
  rewrite D3 in Hd.
  exists (map snd (heard es1).1). split.
  - destruct (heard_prefix es1 es2) as [k ->]. rewrite map_app. by apply prefix_app_r.
  - rewrite <-Hd. by apply prefix_app_r.
  - by rewrite (parser_failures _ _ D2), Hn.
  - apply (follows_drones _ _ _ _ D4).
  - apply (follows_processed _ _ _ _ D4).
  - intros [S1 S2 S3 S4]. rewrite S1, S2 in Hrest. rewrite S3, S4, app_nil_r in Hd.
    destruct es2; [|done]. rewrite app_nil_r. split; [done|]. by rewrite <-Hd.
Qed.

Lemma inv_worked_off base out s :
  sys_inv base out s → chunks_fit s → forwarded s →
  ∃ parsed handled, worked_off (map snd (heard (transcript (world s))).1) parsed handled s.
Proof.
  intros [_ _ (taken & handled & Hd) _ _] Hfit Hf.
  destruct (flow_worked_off taken handled s Hd Hfit Hf) as (parsed & Hw). by exists parsed, handled.
Qed.

End Trace.
