(* ===== verification/SystemRefines.v ===== *)
(** * The whole program implements the shutdown specification

    [Main.v] says abstractly what the threads and [main] may do about the log
    and about stopping. Every step of the whole program is a step, or some, or
    none, of that specification. *)

From S2P Require Import Prelude Telemetry ThreadSafeQueue Worker RingBuffer Endian StreamingParser BusinessLogic AsyncLogger Posix Listener Threads Main System SystemInvariant.

Import System.

Section Refinement.
Context {W : Type} `{PosixWake W} `{Host}.
Implicit Types (s : System W) (p : Main.Program) (out : list string).

#[export] Instance has_returned_dec t s : Decision (has_returned t s).
Proof. destruct t; simpl; unfold listener_idle, parser_idle, logic_idle; apply _. Defined.

Definition progress_of (m : main_pc) : nat := match m with Polling => 0 | Stopping n => n end.

(** The state [p] of the specification is that of the program, which had
    written [out] before the threads started. *)
Record abstracts_log out s p : Prop := {
  abs_progress : Main.progress p = progress_of (at_main s);
  abs_asked : Main.asked p = stop_requested s;
  abs_queue : Main.log_queue p = m_queue (AsyncLogger.m_log_queue (async_logger s));
  abs_pushed : Main.pushed p = messages s;
  abs_written : AsyncLogger.cout (async_logger s) = out ++ Main.written p
}.

Definition abstracts_returned s p : Prop := ∀ t, t ∈ Main.returned p ↔ has_returned t s.

Definition abstracts out s p : Prop := abstracts_log out s p ∧ abstracts_returned s p.

(** At most the thread [t] may have returned just now; then the specification
    lets it return. *)
Lemma catch_up out s p t :
  t ≠ Main.logger_thread → abstracts_log out s p →
  (∀ u, u ∈ Main.returned p → has_returned u s) →
  (∀ u, u ≠ t → has_returned u s → u ∈ Main.returned p) →
  ∃ p', rtc Main.step p p' ∧ abstracts out s p'.
Proof.
  intros Ht Hlog Hret Hothers. destruct (decide (t ∈ Main.returned p)) as [Hin|Hin].
  { exists p. split; [done|]. split; [done|]. intros u. split; [apply Hret|].
    intros Hu. destruct (decide (u = t)) as [->|]; auto. }
  destruct (decide (has_returned t s)) as [Hr|Hr].
  - eexists. split; [by apply rtc_once, (Main.thread_returns p t)|]. split; [by destruct Hlog|].
    intros u. cbn [Main.returned]. rewrite elem_of_union, elem_of_singleton.
    destruct (decide (u = t)) as [->|Hne]; [tauto|].
    split; [intros [?|?]; [done|by apply Hret]|intros Hu; right; by apply Hothers].
  - exists p. split; [done|]. split; [done|]. intros u. split; [apply Hret|].
    intros Hu. destruct (decide (u = t)) as [->|]; auto; done.
Qed.

(** A step that the specification does not see, but for a return. *)
Lemma unseen out s s' p t :
  t ≠ Main.logger_thread → abstracts out s p → abstracts_log out s' p →
  (∀ u, has_returned u s → has_returned u s') →
  (∀ u, u ≠ t → has_returned u s' → has_returned u s) →
  ∃ p', rtc Main.step p p' ∧ abstracts out s' p'.
Proof.
  intros Ht [_ Hret] Hlog Hk Hn. apply (catch_up out s' p t); [done|done| |].
  - intros u Hu. by apply Hk, Hret.
  - intros u Hu Hs. apply Hret. by apply Hn.
Qed.

(** A thread hands a message over. *)
Lemma logs out s s' p t m :
  t ≠ Main.logger_thread → abstracts out s p → ¬ has_returned t s →
  abstracts_log out s' (Main.mkProgram (Main.progress p) (Main.asked p) (Main.returned p)
    (Main.log_queue p ++ [m]) (Main.pushed p ++ [m]) (Main.written p)) →
  (∀ u, has_returned u s → has_returned u s') →
  (∀ u, u ≠ t → has_returned u s' → has_returned u s) →
  ∃ p', rtc Main.step p p' ∧ abstracts out s' p'.
Proof.
  intros Ht [_ Hret] Hnot Hlog Hk Hn.
  edestruct (catch_up out s' _ t Ht Hlog) as (p' & Hp' & Ha).
  - intros u Hu. by apply Hk, Hret.
  - intros u Hu Hs. apply Hret. by apply Hn.
  - exists p'. split; [|done]. eapply rtc_l; [|exact Hp'].
    apply (Main.thread_logs p t m Ht). intros Hin. by apply Hnot, Hret.
Qed.

(** What a hand-over says about the thread that had pushes to perform. *)
Lemma had_pending {T} (pending shared mine theirs : ThreadSafeQueue T) x :
  hand_over pending shared = Some (x, mine, theirs) → m_queue pending ≠ [].
Proof. intros E. destruct (hand_over_some _ _ _ _ _ E) as [-> _]. done. Qed.

(** ** The simulation *)

Lemma simulates_logger base out s a' l' p :
  sys_inv base out s → abstracts out s p → at_logger s ≠ Returned →
  logger_action tt (stopping Main.logger_thread s) (at_logger s) (async_logger s) = (Ok a', l') →
  ∃ p', rtc Main.step p p' ∧ abstracts out (with_logger a' l' s) p'.
Proof.
  intros Hinv [[A1 A2 A3 A4 A5] Hret] Ha E.
  destruct (logger_action_ok (async_logger s) _ (stopping Main.logger_thread s) Ha)
    as [[E' _]|(a & l & E' & [_ _ Hstop Hlast Hone])]; rewrite E' in E; simplify_eq.
  assert (Main.logger_thread ∉ Main.returned p) as Hnot by (rewrite (Hret Main.logger_thread); done).
  assert (∀ u, u ≠ Main.logger_thread →
    (has_returned u (with_logger a' l' s) ↔ u ∈ Main.returned p)) as Hsame
    by (intros u Hu; rewrite (Hret u); by destruct u).
  destruct Hone as [[Hc Hq]|(m & Hq & Hc & Ha')].
  - destruct (decide (a' = Returned)) as [->|Ha'].
    + eexists. split; [apply rtc_once, Main.logger_returns|].
      * rewrite A2. apply (asked_step s _ (at_logger s) Returned); [apply Hinv|set_solver| |by right].
        destruct Hstop as (n & Ht & _). by eapply turn_asked.
      * done.
      * by rewrite A3, <-Hq, Hlast.
      * split; [split; simpl; try done; [by rewrite A3, Hq|by rewrite Hc]|].
        intros u. cbn [Main.returned]. rewrite elem_of_union, elem_of_singleton.
        destruct (decide (u = Main.logger_thread)) as [->|Hu]; [naive_solver|].
        rewrite (Hsame u Hu). tauto.
    + exists p. split; [done|]. split; [split; simpl; try done; [by rewrite A3, Hq|by rewrite Hc]|].
      intros u. destruct (decide (u = Main.logger_thread)) as [->|Hu]; [naive_solver|].
      by rewrite (Hsame u Hu).
  - eexists. split; [eapply rtc_once, (Main.logger_writes p m); [done|by rewrite A3, Hq]|].
    split; [split; simpl; try done; by rewrite Hc, A5, app_assoc|].
    intros u. cbn [Main.returned]. destruct (decide (u = Main.logger_thread)) as [->|Hu].
    + split; [done|]. intros Hr. by destruct Ha'.
    + by rewrite (Hsame u Hu).
Qed.

(** An action of [main]'s shutdown sequence. *)
Lemma simulates_main out s s' p n a :
  abstracts out s p → at_main s = Stopping n → Main.shutdown_sequence !! n = Some a →
  (∀ t, a = Main.join t → has_returned t s) →
  at_main s' = Stopping (S n) →
  stop_requested s' = match a with
                      | Main.request_stop t => {[t]} ∪ stop_requested s
                      | _ => stop_requested s
                      end →
  async_logger s' = async_logger s → messages s' = messages s →
  (∀ u, has_returned u s' ↔ has_returned u s) →
  ∃ p', rtc Main.step p p' ∧ abstracts out s' p'.
Proof.
  intros [[A1 A2 A3 A4 A5] Hret] Em E Hj Em' Es El Ec Hu. rewrite Em in A1. cbn in A1.
  rewrite <-A1 in E.
  destruct a as [t|t|x]; (eexists; split;
    [apply rtc_once; first [by apply (Main.main_requests p t)
       |apply (Main.main_joins p t); [done|by apply Hret, Hj]|by apply (Main.main_prints p x)]|]);
    (split; [split; cbn; rewrite ?Em', ?Es, ?El, ?Ec, ?A1, ?A2; done|]);
    intros u; cbn [Main.returned]; by rewrite Hu, (Hret u).
Qed.

(** Whoever has pushes to perform has not returned. *)
Lemma pending_listener s c mine theirs shared :
  hand_over (Listener.m_queue (network_listener s)) shared = Some (c, mine, theirs) →
  ¬ has_returned Main.listener_thread s.
Proof. intros E%had_pending [_ [Hi _]]. done. Qed.

Lemma pending_listener_log s c mine theirs shared :
  hand_over (Listener.m_log_queue (network_listener s)) shared = Some (c, mine, theirs) →
  ¬ has_returned Main.listener_thread s.
Proof. intros E%had_pending [_ [_ Hi]]. done. Qed.

Lemma pending_parser s c mine theirs shared :
  hand_over (m_parsed_queue (parser s)) shared = Some (c, mine, theirs) →
  ¬ has_returned Main.parser_thread s.
Proof. intros E%had_pending [_ [Hi _]]. done. Qed.

Lemma pending_parser_log s c mine theirs shared :
  hand_over (m_log_queue (parser s)) shared = Some (c, mine, theirs) →
  ¬ has_returned Main.parser_thread s.
Proof. intros E%had_pending [_ [_ Hi]]. done. Qed.

Lemma pending_logic_log s c mine theirs shared :
  hand_over (BusinessLogic.m_log_queue (business_logic s)) shared = Some (c, mine, theirs) →
  ¬ has_returned Main.logic_thread s.
Proof. intros E%had_pending [_ Hi]. done. Qed.

(** The other threads are where they were. *)
Ltac others := let u := fresh "u" in intros u; destruct u; done.

Lemma simulation base out s s' p :
  step (Running s) (Running s') → sys_inv base out s → abstracts out s p →
  ∃ p', rtc Main.step p p' ∧ abstracts out s' p'.
Proof.
  intros Hstep Hinv Habs. pose proof Habs as [Hlog Hret]. pose proof Hlog as [A1 A2 A3 A4 A5].
  step_cases Hstep.
  - apply (unseen out s _ p Main.listener_thread); [done|done|done| |others].
    intros [] Hu; try done. by destruct Hu.
  - apply (unseen out s _ p Main.parser_thread); [done|done|done| |others].
    intros [] Hu; try done. by destruct Hu.
  - apply (unseen out s _ p Main.logic_thread); [done|done|done| |others].
    intros [] Hu; try done. by destruct Hu.
  - by apply (simulates_logger base out).
  - pose proof (pending_listener s _ _ _ _ E) as Hnot.
    apply (unseen out s _ p Main.listener_thread); [done|done|done| |others].
    intros [] Hu; done.
  - pose proof (pending_parser s _ _ _ _ E) as Hnot.
    apply (unseen out s _ p Main.parser_thread); [done|done|done| |others].
    intros [] Hu; done.
  - pose proof (pending_listener_log s _ _ _ _ E) as Hnot. destruct (hand_over_some _ _ _ _ _ E) as (_ & E2 & _).
    apply (logs out s _ p Main.listener_thread x); [done|done|done| | |others].
    + split; simpl; try done; [by rewrite E2, A3|by rewrite A4].
    + intros [] Hu; done.
  - pose proof (pending_parser_log s _ _ _ _ E) as Hnot. destruct (hand_over_some _ _ _ _ _ E) as (_ & E2 & _).
    apply (logs out s _ p Main.parser_thread x); [done|done|done| | |others].
    + split; simpl; try done; [by rewrite E2, A3|by rewrite A4].
    + intros [] Hu; done.
  - pose proof (pending_logic_log s _ _ _ _ E) as Hnot. destruct (hand_over_some _ _ _ _ _ E) as (_ & E2 & _).
    apply (logs out s _ p Main.logic_thread x); [done|done|done| | |others].
    + split; simpl; try done; [by rewrite E2, A3|by rewrite A4].
    + intros [] Hu; done.
  - exists p. split; [done|]. split; [by split|]. intros u. rewrite (Hret u). by destruct u.
  - exists p. split; [done|]. split; [split; simpl; try done; by rewrite A1, Em|].
    intros u. rewrite (Hret u). by destruct u.
  - apply (simulates_main out s _ p n _ Habs Em Eq); try done; try (by destruct t).
  - apply (simulates_main out s _ p n _ Habs Em Eq); try done. by intros ? [= <-].
  - by apply (simulates_main out s _ p n _ Habs Em Eq).
  - exists p. split; [done|]. split; [by split|]. intros u. rewrite (Hret u). by destruct u.
Qed.

Lemma boot_abstracts `{AsyncLogger.Filesystem} arguments out (w : W) s :
  boot arguments out w = Ok s → abstracts (stdout s) s Main.launched.
Proof.
  intros (port & path & logger & _ & El & ->)%boot_cases.
  apply new_logger_queue in El as [Eq Ec].
  split; [split; simpl; by rewrite ?Eq, ?Ec, ?app_nil_r|].
  intros t. simpl. split; [set_solver|]. destruct t; simpl; naive_solver.
Qed.

(** Every reachable state of the program is one of the specification. *)
Lemma reachable_abstracts base out s0 p0 s :
  rtc step (Running s0) (Running s) → sys_inv base out s0 → abstracts out s0 p0 →
  ∃ p, rtc Main.step p0 p ∧ abstracts out s p.
Proof.
  intros Hr Hinv Habs.
  set (P q := rtc step (Running s0) q ∧ match q with
    | Running s => ∃ p, rtc Main.step p0 p ∧ abstracts out s p
    | _ => True end).
  enough (P (Running s)) as [_ He] by exact He.
  apply (rtc_ind_r (R := step) P (Running s0)); [by split; [|exists p0]| |done].
  intros q r _ Hstep [Hq IH]. split; [by eapply rtc_r|].
  destruct r as [s1|e|]; [|done..]. destruct q as [s2|e|]; [|inversion Hstep..].
  destruct IH as (p & Hp & Ha). pose proof (reachable_inv_process base out s0 _ Hq Hinv) as Hinv2.
  destruct (simulation base out s2 s1 p Hstep Hinv2 Ha) as (p' & Hp' & Ha').
  exists p'. split; [by etransitivity|done].
Qed.

End Refinement.
