(* ===== verification/SystemOutput.v ===== *)
(** * What the program writes

    The log file holds what the logger wrote to stdout, and stdout holds the
    lines of the logger and those of [main], each in their order. *)

From S2P Require Import Prelude ThreadSafeQueue Worker Endian StreamingParser BusinessLogic AsyncLogger LoggerProperties Posix Listener Threads Main System SystemInvariant SystemTypes SystemRefines.

Import System.

(** [zs] is [xs] and [ys] interleaved. *)
Inductive woven {A} : list A → list A → list A → Prop :=
| woven_nil : woven [] [] []
| woven_left x xs ys zs : woven xs ys zs → woven (x :: xs) ys (x :: zs)
| woven_right y xs ys zs : woven xs ys zs → woven xs (y :: ys) (y :: zs).

Lemma woven_left_snoc {A} (x : A) xs ys zs : woven xs ys zs → woven (xs ++ [x]) ys (zs ++ [x]).
Proof. induction 1; simpl; by repeat constructor. Qed.

Lemma woven_right_snoc {A} (y : A) xs ys zs : woven xs ys zs → woven xs (ys ++ [y]) (zs ++ [y]).
Proof. induction 1; simpl; by repeat constructor. Qed.

(** What [main] prints in the first [n] actions of its shutdown sequence. *)
Definition printed (n : nat) : list string :=
  omap (λ a, match a with Main.print text => Some text | _ => None end)
    (take n Main.shutdown_sequence).

Lemma printed_next n a :
  Main.shutdown_sequence !! n = Some a →
  printed (S n) = printed n ++ match a with Main.print text => [text] | _ => [] end.
Proof.
  intros E. unfold printed. rewrite (take_S_r _ _ _ E), omap_app. by destruct a.
Qed.

Section Output.
Context {W : Type} `{PosixWake W} `{Host}.
Implicit Types (s : System W) (out : list string).

(** ** The log file *)

(** The logger has written [ms]: to stdout, after [out], and to the file [f]. *)
Definition logger_wrote out (f : AsyncLogger.ofstream) (ms : list string)
    (l : AsyncLogger.AsyncLogger) : Prop :=
  AsyncLogger.cout l = out ++ ms
  ∧ AsyncLogger.m_log_file l = if AsyncLogger.is_open f then mirrored ms f else f.

Definition log_written out f s : Prop := ∃ ms, logger_wrote out f ms (async_logger s).

Lemma write_message_wrote out f ms m l :
  logger_wrote out f ms l → ∃ ms', logger_wrote out f ms' (AsyncLogger.write_message m l).2.
Proof.
  intros Hl. exists (ms ++ [m]).
  destruct (write_message_ok (AsyncLogger.mkLogger (AsyncLogger.m_log_queue l) f out) ms l m Hl)
    as (l' & -> & Hl' & _). exact Hl'.
Qed.

Lemma logger_action_wrote out f ms stop a l :
  logger_wrote out f ms l →
  ∃ ms', logger_wrote out f ms' (logger_action tt stop a l).2.
Proof.
  intros Hl. unfold logger_action. destruct a; [unfold consumer_action..| |]; try by exists ms.
  - mrun. rewrite pop_from_cases. destruct (m_queue (queue_of l)) as [|m rest].
    { destruct stop; [|by exists ms]. exists ms. by destruct Hl. }
    set (l1 := set_queue _ l). destruct (write_message_wrote out f ms m l1) as [ms' Hms'].
    { by destruct Hl. }
    exists ms'. by destruct (AsyncLogger.write_message m l1) as [[[]|e| | |] l2].
  - unfold AsyncLogger.drain_step, worker_iteration. mrun. rewrite pop_from_cases.
    cbn [queue_of AsyncLogger.log_ref stop_in_pop AsyncLogger.drain_round].
    destruct (m_queue (AsyncLogger.m_log_queue l)) as [|m rest]; [exists ms; by destruct Hl|].
    cbn [set_queue AsyncLogger.log_ref]. set (l1 := AsyncLogger.set_log_queue _ l).
    destruct (write_message_wrote out f ms m l1) as [ms' Hms']; [by destruct Hl|].
    exists ms'. by destruct (AsyncLogger.write_message m l1) as [[[]|e| | |] l2].
Qed.

Lemma step_log_written out f s s' :
  step (Running s) (Running s') → log_written out f s → log_written out f s'.
Proof.
  intros Hs [ms Hl].
  step_cases Hs; try (exists ms; by destruct Hl).
  - destruct (logger_action_wrote out f ms (stopping Main.logger_thread s) (at_logger s)
      (async_logger s) Hl) as [ms' Hms']. rewrite E in Hms'. by exists ms'.
  - exists ms. by destruct t.
Qed.

(** ** stdout *)

(** After [out], stdout holds what the logger has written and what [main] has
    printed. *)
Record stdout_of out ms tail s : Prop := {
  stdout_cout : AsyncLogger.cout (async_logger s) = out ++ ms;
  stdout_all : stdout s = out ++ tail;
  stdout_woven : woven (printed (progress_of (at_main s))) ms tail
}.

Definition stdout_woven_after out s : Prop := ∃ ms tail, stdout_of out ms tail s.

(** Nothing is written. *)
Lemma silent_stdout out s s' :
  stdout_woven_after out s → AsyncLogger.cout (async_logger s') = AsyncLogger.cout (async_logger s) →
  stdout s' = stdout s → at_main s' = at_main s → stdout_woven_after out s'.
Proof.
  intros (ms & tail & [Hc Ho Hw]) Ec Eo Em. exists ms, tail. split; by rewrite ?Ec, ?Eo, ?Em.
Qed.

(** The logger writes one message or none. *)
Lemma logger_step_stdout out s a' l' :
  stdout_woven_after out s →
  AsyncLogger.cout l' = AsyncLogger.cout (async_logger s)
  ∨ (∃ m, AsyncLogger.cout l' = AsyncLogger.cout (async_logger s) ++ [m]) →
  stdout_woven_after out (with_logger a' l' s).
Proof.
  intros (ms & tail & [Hc Ho Hw]) [E|[m E]].
  - exists ms, tail. split; cbn; [by rewrite E|by rewrite E, drop_all, app_nil_r|done].
  - exists (ms ++ [m]), (tail ++ [m]). split; cbn.
    + by rewrite E, Hc, app_assoc.
    + by rewrite E, drop_app_length, Ho, app_assoc.
    + by apply woven_right_snoc.
Qed.

(** [main] goes on. *)
Lemma main_step_stdout out s n a tail' s' :
  stdout_woven_after out s → at_main s = Stopping n → Main.shutdown_sequence !! n = Some a →
  tail' = match a with Main.print text => [text] | _ => [] end →
  at_main s' = Stopping (S n) → async_logger s' = async_logger s → stdout s' = stdout s ++ tail' →
  stdout_woven_after out s'.
Proof.
  intros (ms & tail & [Hc Ho Hw]) Em E -> Em' El Eo. rewrite Em in Hw. cbn in Hw.
  exists ms, (tail ++ match a with Main.print text => [text] | _ => [] end).
  split; [by rewrite El|by rewrite Eo, Ho, app_assoc|].
  rewrite Em'. cbn [progress_of]. rewrite (printed_next n a E).
  destruct a; rewrite ?app_nil_r; [done..|]. by apply woven_left_snoc.
Qed.

Lemma step_stdout out s s' :
  step (Running s) (Running s') → stdout_woven_after out s → stdout_woven_after out s'.
Proof.
  intros Hs Hst.
  step_cases Hs; try (by apply (silent_stdout out s)).
  - destruct (logger_action_ok (async_logger s) _ (stopping Main.logger_thread s) Ha)
      as [[E' _]|(a' & l' & E' & [_ _ _ _ Hone])]; rewrite E' in E; simplify_eq/=.
    apply logger_step_stdout; [done|]. destruct Hone as [[? _]|(m & _ & ? & _)]; [by left|right; by exists m].
  - apply (silent_stdout out s); [done..| |done]. cbn. by rewrite drop_all, app_nil_r.
  - apply (silent_stdout out s); [done..| |done]. cbn. by rewrite drop_all, app_nil_r.
  - apply (silent_stdout out s); [done..| |done]. cbn. by rewrite drop_all, app_nil_r.
  - destruct Hst as (ms & tail & [? ? Hwv]). exists ms, tail. split; [done|done|]. by rewrite Em in Hwv.
  - apply (main_step_stdout out s n _ [] _ Hst Em Eq); destruct t; cbn; by rewrite ?app_nil_r.
  - apply (main_step_stdout out s n _ [] _ Hst Em Eq); cbn; by rewrite ?app_nil_r.
  - by apply (main_step_stdout out s n _ [x] _ Hst Em Eq).
Qed.

(** ** Along a run *)

Lemma new_logger_cases `{AsyncLogger.Filesystem} q path out l :
  AsyncLogger.new_logger q path out = Ok l →
  AsyncLogger.cout l = out ∧ fresh (AsyncLogger.m_log_file l).
Proof.
  unfold AsyncLogger.new_logger. destruct path as [|c path]; [by intros [= <-]|].
  destruct (if AsyncLogger.has_parent_path _ then _ else _) as [[]|e| | |]; try done.
  cbn [mbind outcome_bind]. destruct (AsyncLogger.open_append _); [done|]. by intros [= <-].
Qed.

Lemma boot_log_written `{AsyncLogger.Filesystem} arguments out (w : W) s :
  boot arguments out w = Ok s →
  log_written (stdout s) (AsyncLogger.m_log_file (async_logger s)) s
  ∧ fresh (AsyncLogger.m_log_file (async_logger s)).
Proof.
  intros (port & path & logger & _ & [Ec Hf]%new_logger_cases & ->)%boot_cases.
  split; [|done]. exists []. split; cbn; [by rewrite Ec, app_nil_r|].
  by destruct (AsyncLogger.is_open _).
Qed.

Lemma boot_stdout `{AsyncLogger.Filesystem} arguments out (w : W) s :
  boot arguments out w = Ok s → stdout_woven_after (stdout s) s.
Proof.
  intros (port & path & logger & _ & El & ->)%boot_cases.
  apply new_logger_queue in El as [_ Ec]. exists [], [].
  split; cbn; [by rewrite Ec, app_nil_r|by rewrite app_nil_r|constructor].
Qed.

Lemma reachable_log_written out f s s' :
  rtc step (Running s) (Running s') → log_written out f s → log_written out f s'.
Proof. apply running_invariant. intros s1 s2. apply step_log_written. Qed.

Lemma reachable_stdout out s s' :
  rtc step (Running s) (Running s') → stdout_woven_after out s → stdout_woven_after out s'.
Proof. apply running_invariant. intros s1 s2. apply step_stdout. Qed.

End Output.
