(* ===== verification/SystemLive.v ===== *)
(** * The whole program can always shut down

    From every state the program can reach there is a way on, through steps of
    its own, to the end of [main]; the only other end is an uncaught exception
    of the listener's set-up. *)

From S2P Require Import Prelude Telemetry ThreadSafeQueue Worker RingBuffer Endian StreamingParser BusinessLogic AsyncLogger Posix Triples Listener ListenerOwnership ListenerCorrect ListenerWake Threads Main MainProperties System SystemInvariant SystemRefines.

Import System.

(** ** How far a thread is from returning *)

(** An item in the queue is worth more than the way back to popping. *)
Definition pc_work (a : pc) : nat :=
  match a with Starting => 5 | Checking => 4 | Popping => 3 | Finishing => 1 | Returned => 0 end.

Definition consumer_work {T} (a : pc) (q : ThreadSafeQueue T) : nat :=
  2 * length (m_queue q) + pc_work a.

(** Every action takes a consumer nearer to its return, as long as nothing
    arrives. *)
Lemma turn_work {T} stop a a' n (q q' : ThreadSafeQueue T) :
  consumer_turn stop a a' n → length (m_queue q) = (n + length (m_queue q'))%nat →
  (consumer_work a' q' < consumer_work a q)%nat.
Proof. unfold consumer_work. intros [] E; cbn [pc_work]; lia. Qed.

Definition listener_rank (a : listener_pc) : nat :=
  match a with
  | SettingUp => 4 | Registering | Waiting => 3 | LoopHead => 2 | ListenerReturned => 0
  end.

Section ListenerNearer.
Context {W : Type} `{PosixWake W} `{!PosixBursts W}.

(** Once it is asked to stop, so does every action of the listener. *)
Lemma listener_nearer fuel a (lw : Listener.Listening (W:=W)) a' lw' :
  listener_action fuel true a lw = (Ok a', lw') → a ≠ ListenerReturned →
  (listener_rank a' < listener_rank a)%nat.
Proof.
  intros E Ha. destruct a; cbn [listener_action] in E; try done; unfold mbind, M_bind, mret, M_ret in E.
  - destruct (Listener.setup_server_socket lw) as [[[]|e| | |] lw1]; try done.
    destruct (Listener.setup_epoll lw1) as [[[]|e| | |] lw2]; try done. simplify_eq/=. lia.
  - destruct (Listener.shutdown_waker lw) as [[[]|e| | |] lw1]; try done. simplify_eq/=. lia.
  - simplify_eq/=. lia.
  - destruct (Listener.event_step fuel false lw) as [[c|e| | |] lw1]; try done.
    injection E as <- <-. destruct c; cbn; lia.
Qed.

(** With enough fuel an action of the listener comes out, or its set-up throws. *)
Lemma listener_action_ends base a stop (lw : Listener.Listening (W:=W)) :
  owns base lw → can_wake a stop lw → a ≠ ListenerReturned →
  ∃ fuel, match listener_action fuel stop a lw with
          | (Ok _, _) => True
          | (Throw _, _) => a = SettingUp
          | _ => False
          end.
Proof.
  intros Ho Hw Ha. exists (S (next_burst lw)).
  pose proof (listener_action_ok base (S (next_burst lw)) a stop lw Ho Hw Ha) as Hacted.
  unfold listener_acted in Hacted.
  destruct (listener_action _ stop a lw) as [[a'|e| | |] lw'] eqn:E; try done. subst a.
  pose proof (event_step_ends base (S (next_burst lw)) false lw Ho ltac:(lia)) as He.
  unfold runs in He. cbn [listener_action] in E. unfold mbind, M_bind, mret, M_ret in E.
  by destruct (Listener.event_step _ false lw) as [[c|e| | |] lw1].
Qed.

End ListenerNearer.

(** ** Running on *)

Section Live.
Context {W : Type} `{PosixWake W} `{!PosixBursts W} `{Host}.
Implicit Types (s : System W) (base : gset Z) (out : list string).

(** A state that the program can be in. *)
Definition live base out s : Prop :=
  sys_inv base out s ∧ ∃ p, Main.reachable p ∧ abstracts out s p.

Lemma live_step base out s s' : step (Running s) (Running s') → live base out s → live base out s'.
Proof.
  intros Hs [Hi (p & Hp & Ha)]. split; [by apply (step_process_inv base out _ _ Hs)|].
  destruct (simulation base out s s' p Hs Hi Ha) as (p' & Hp' & Ha').
  exists p'. split; [by eapply rtc_trans|done].
Qed.

Lemma live_shutdown base out s :
  live base out s → ∃ p, shutdown_inv p ∧ abstracts out s p.
Proof. intros [_ (p & Hp & Ha)]. exists p. split; [by apply reachable_inv|done]. Qed.

(** [main] asks a thread to stop before it joins it. *)
Lemma live_asked base out s n t :
  live base out s → at_main s = Stopping n → Main.shutdown_sequence !! n = Some (Main.join t) →
  t ∈ stop_requested s.
Proof.
  intros Hl Hm E. destruct (live_shutdown _ _ _ Hl) as (p & Hp & [[A1 A2 _ _ _] _]).
  rewrite <-A2. apply joined_was_asked; [done|]. by rewrite A1, Hm.
Qed.

(** From [s] the process can come to a state of [P], or to an uncaught
    exception. *)
Definition outcome_in (P : System W → Prop) (q : Process W) : Prop :=
  match q with Running s => P s | Terminated _ => True | Broken => False end.

Definition can_reach s (P : System W → Prop) : Prop :=
  ∃ q, rtc step (Running s) q ∧ outcome_in P q.

Lemma can_reach_here s (P : System W → Prop) : P s → can_reach s P.
Proof. intros HP. by exists (Running s). Qed.

Lemma can_reach_on base out s (P Q : System W → Prop) :
  live base out s → can_reach s P → (∀ s', live base out s' → P s' → can_reach s' Q) →
  can_reach s Q.
Proof.
  intros Hl (q & Hq & HP) Hon. destruct q as [s'|e|]; [|by exists (Terminated e)|done].
  destruct (Hon s') as (r & Hr & HQ); [|done|exists r; split; [by etransitivity|done]].
  clear Hon HP. remember (Running s) as p0 eqn:E0. remember (Running s') as q0 eqn:E1.
  revert s Hl E0. induction Hq as [|p q r Hpq Hqr IH]; intros s Hl E0; simplify_eq; [done|].
  destruct q as [s1|e|].
  - apply (IH eq_refl s1); [by eapply live_step|done].
  - inversion Hqr as [|? ? ? Hbad]; inversion Hbad.
  - inversion Hqr as [|? ? ? Hbad]; inversion Hbad.
Qed.

Lemma can_step base out s q (P : System W → Prop) :
  live base out s → step (Running s) q →
  outcome_in (λ s', live base out s' → can_reach s' P) q → can_reach s P.
Proof.
  intros Hl Hs Hq. destruct q as [s'|e|]; [|exists (Terminated e); by split; [apply rtc_once|]|done].
  destruct (Hq (live_step _ _ _ _ Hs Hl)) as (r & Hr & HP). exists r. by split; [eapply rtc_l|].
Qed.

(** ** Driving one thread to its return *)

(** [main] waits while the thread goes on. *)
Definition main_waits s s' : Prop := at_main s' = at_main s ∧ stop_requested s' = stop_requested s.

Definition nearer (rank pending : System W → nat) s s' : Prop :=
  main_waits s s' ∧ (rank s' < rank s ∨ rank s' = rank s ∧ pending s' < pending s)%nat.

Lemma drive base out t (rank pending : System W → nat) :
  (∀ s, live base out s → t ∈ stop_requested s → ¬ has_returned t s →
    ∃ q, step (Running s) q ∧ outcome_in (nearer rank pending s) q) →
  ∀ s, live base out s → t ∈ stop_requested s →
    can_reach s (λ s', has_returned t s' ∧ at_main s' = at_main s).
Proof.
  intros Hstep s. remember (rank s) as r eqn:Er. revert s Er.
  induction (lt_wf r) as [r _ IHr]. intros s. remember (pending s) as k eqn:Ek. revert s Ek.
  induction (lt_wf k) as [k _ IHk]. intros s -> -> Hl Ht.
  destruct (decide (has_returned t s)) as [Hr|Hr]; [by apply can_reach_here|].
  destruct (Hstep s Hl Ht Hr) as (q & Hq & Hn). apply (can_step base out s q); [done|done|].
  destruct q as [s'|e|]; [|done..]. destruct Hn as [[Em Es] Hlt]. intros Hl'. rewrite <-Em.
  destruct Hlt as [Hlt|[E Hlt]].
  - apply (IHr _ Hlt); [done|done|by rewrite Es].
  - apply (IHk _ Hlt); [done|done|done|by rewrite Es].
Qed.

(** What a thread has still to do, and what it has still to push. *)
Definition listener_work s : nat := listener_rank (at_listener s).
Definition parser_work s : nat := consumer_work (at_parser s) (m_raw_queue (parser s)).
Definition logic_work s : nat :=
  consumer_work (at_logic s) (BusinessLogic.m_parsed_queue (business_logic s)).
Definition logger_work s : nat :=
  consumer_work (at_logger s) (AsyncLogger.m_log_queue (async_logger s)).

Definition listener_pending s : nat :=
  length (m_queue (Listener.m_queue (network_listener s)))
  + length (m_queue (Listener.m_log_queue (network_listener s))).
Definition parser_pending s : nat :=
  length (m_queue (m_parsed_queue (parser s))) + length (m_queue (m_log_queue (parser s))).
Definition logic_pending s : nat := length (m_queue (BusinessLogic.m_log_queue (business_logic s))).

Lemma handed_shorter {T} (pending shared mine theirs : ThreadSafeQueue T) x :
  hand_over pending shared = Some (x, mine, theirs) →
  length (m_queue pending) = S (length (m_queue mine)).
Proof. intros E. destruct (hand_over_some _ _ _ _ _ E) as [-> _]. done. Qed.

Lemma stopping_asked t s : t ∈ stop_requested s → stopping t s = true.
Proof. apply stopping_true. Qed.

Lemma parser_goes_on base out s :
  live base out s → Main.parser_thread ∈ stop_requested s → ¬ has_returned Main.parser_thread s →
  ∃ q, step (Running s) q ∧ outcome_in (nearer parser_work parser_pending s) q.
Proof.
  intros [[_ _ (taken & handled & [_ D2 _ D4 _]) [_ L2 _] _] _] Ht Hr.
  destruct (decide (m_queue (m_parsed_queue (parser s)) = [])) as [E1|E1];
    [destruct (decide (m_queue (m_log_queue (parser s)) = [])) as [E2|E2]|].
  - assert (at_parser s ≠ Returned) as Ha by (intros Ha; apply Hr; by split).
    destruct (parser_action_ok taken _ _ (stopping Main.parser_thread s) D2 E1 E2 Ha)
      as [(_ & Hs & _)|(a' & new & p' & E & [A1 _ _ A4 _])]; rewrite (stopping_asked _ _ Ht) in *; [done|].
    eexists. split; [apply parser_acts; [done|by split|by rewrite (stopping_asked _ _ Ht), E]|].
    split; [done|]. left. eapply turn_work; [exact A4|]. by rewrite A1, length_app.
  - destruct (hand_over_possible (m_log_queue (parser s)) (AsyncLogger.m_log_queue (async_logger s)))
      as (m & mine & theirs & E); [done..|].
    eexists. split; [by apply parser_logs|]. split; [done|]. right. split; [done|].
    apply handed_shorter in E. unfold parser_pending. cbn. lia.
  - destruct (hand_over_possible (m_parsed_queue (parser s))
      (BusinessLogic.m_parsed_queue (business_logic s))) as (m & mine & theirs & E); [apply D4|done|].
    eexists. split; [by eapply parser_delivers|]. split; [done|]. right. split; [done|].
    apply handed_shorter in E. unfold parser_pending. cbn. lia.
Qed.

Lemma logic_goes_on base out s :
  live base out s → Main.logic_thread ∈ stop_requested s → ¬ has_returned Main.logic_thread s →
  ∃ q, step (Running s) q ∧ outcome_in (nearer logic_work logic_pending s) q.
Proof.
  intros [[_ _ (taken & handled & [_ _ _ D4 _]) [_ L2 _] _] _] Ht Hr.
  destruct (decide (m_queue (BusinessLogic.m_log_queue (business_logic s)) = [])) as [E1|E1].
  - assert (at_logic s ≠ Returned) as Ha by (intros Ha; apply Hr; by split).
    destruct (logic_action_ok handled _ 0 _ (stopping Main.logic_thread s) D4 E1 Ha)
      as [(_ & Hs & _)|(a' & new & l' & E & [A1 _ A3 _])]; rewrite (stopping_asked _ _ Ht) in *; [done|].
    eexists. split; [apply (logic_acts s 0); [done|done|by rewrite (stopping_asked _ _ Ht), E]|].
    split; [done|]. left. eapply turn_work; [exact A3|]. by rewrite A1, length_app.
  - destruct (hand_over_possible (BusinessLogic.m_log_queue (business_logic s))
      (AsyncLogger.m_log_queue (async_logger s))) as (m & mine & theirs & E); [done..|].
    eexists. split; [by apply logic_logs|]. split; [done|]. right. split; [done|].
    apply handed_shorter in E. unfold logic_pending. cbn. lia.
Qed.

Lemma logger_goes_on base out s :
  live base out s → Main.logger_thread ∈ stop_requested s → ¬ has_returned Main.logger_thread s →
  ∃ q, step (Running s) q ∧ outcome_in (nearer logger_work (λ _, 0%nat) s) q.
Proof.
  intros _ Ht Ha.
  destruct (logger_action_ok (async_logger s) _ (stopping Main.logger_thread s) Ha)
    as [(_ & Hs & _)|(a' & l' & E & [_ _ (n & A3 & A4) _ _])]; rewrite (stopping_asked _ _ Ht) in *; [done|].
  eexists. split; [apply logger_acts; [done|by rewrite (stopping_asked _ _ Ht), E]|].
  split; [done|]. left. by eapply turn_work.
Qed.

Lemma listener_goes_on base out s :
  live base out s → Main.listener_thread ∈ stop_requested s →
  ¬ has_returned Main.listener_thread s →
  ∃ q, step (Running s) q
       ∧ outcome_in (nearer listener_work listener_pending s) q.
Proof.
  intros [[Ho Hw (taken & handled & [_ D2 _ _ _]) [_ L2 _] _] _] Ht Hr.
  destruct (decide (m_queue (Listener.m_queue (network_listener s)) = [])) as [E1|E1];
    [destruct (decide (m_queue (Listener.m_log_queue (network_listener s)) = [])) as [E2|E2]|].
  - assert (at_listener s ≠ ListenerReturned) as Ha by (intros Ha; apply Hr; by split).
    rewrite (stopping_asked _ _ Ht) in Hw.
    destruct (listener_action_ends base _ true _ Ho Hw Ha) as (fuel & Hends).
    destruct (listener_action fuel true (at_listener s) (network_listener s, world s))
      as [[a'|e| | |] lw'] eqn:E; try done.
    all: eexists; split; [apply (listener_acts s fuel); [done|by split| |by rewrite (stopping_asked _ _ Ht), E]|].
    + intros Hwait. rewrite Hwait in Hw. destruct Hw as [_ _ Hin Hup]. eapply raised_ready; eauto.
    + split; [done|]. left. by eapply listener_nearer.
    + intros Hwait. congruence.
    + done.
  - destruct (hand_over_possible (Listener.m_log_queue (network_listener s))
      (AsyncLogger.m_log_queue (async_logger s))) as (m & mine & theirs & E); [done..|].
    eexists. split; [by apply listener_logs|]. split; [done|]. right. split; [done|].
    apply handed_shorter in E. unfold listener_pending. cbn. lia.
  - destruct (hand_over_possible (Listener.m_queue (network_listener s)) (m_raw_queue (parser s)))
      as (m & mine & theirs & E); [apply D2|done|].
    eexists. split; [by apply listener_queues|]. split; [done|]. right. split; [done|].
    apply handed_shorter in E. unfold listener_pending. cbn. lia.
Qed.

Lemma thread_comes_back base out s t :
  live base out s → t ∈ stop_requested s →
  can_reach s (λ s', has_returned t s' ∧ at_main s' = at_main s).
Proof.
  intros Hl Ht. destruct t.
  - by eapply drive; [apply listener_goes_on|..].
  - by eapply drive; [apply parser_goes_on|..].
  - by eapply drive; [apply logic_goes_on|..].
  - by eapply drive; [apply logger_goes_on|..].
Qed.

(** ** [main] *)

Lemma main_goes_on base out s n :
  live base out s → at_main s = Stopping n → (n < length Main.shutdown_sequence)%nat →
  can_reach s (λ s', at_main s' = Stopping (S n)).
Proof.
  intros Hl Hm Hn. destruct (lookup_lt_is_Some_2 _ _ Hn) as [[t|t|x] E].
  - eapply (can_step base out); [done|by apply (main_requests_stop s n t)|].
    intros _. by apply can_reach_here.
  - apply (can_reach_on base out s _ _ Hl (thread_comes_back _ _ _ _ Hl (live_asked _ _ _ _ _ Hl Hm E))).
    intros s' Hl' [Hr Hm']. rewrite Hm in Hm'.
    eapply (can_step base out); [done|by apply (main_joins_thread s' n t)|].
    intros _. by apply can_reach_here.
  - eapply (can_step base out); [done|by apply (main_prints_text s n x)|].
    intros _. by apply can_reach_here.
Qed.

Lemma main_comes_to base out s n :
  live base out s → at_main s = Stopping n → (n <= length Main.shutdown_sequence)%nat →
  can_reach s finished.
Proof.
  remember (length Main.shutdown_sequence - n)%nat as k eqn:Ek. revert s n Ek.
  induction k as [|k IH]; intros s n Ek Hl Hm Hn.
  - apply can_reach_here. unfold finished. rewrite Hm. f_equal. lia.
  - apply (can_reach_on base out s _ _ Hl (main_goes_on _ _ _ _ Hl Hm ltac:(lia))).
    intros s' Hl' Hm'. apply (IH s' (S n)); [lia|done|done|lia].
Qed.

Lemma can_finish base out s : live base out s → can_reach s finished.
Proof.
  intros Hl. destruct (at_main s) as [|n] eqn:Hm.
  - eapply (can_step base out); [done|apply signal_handler|]. intros Hl1.
    eapply (can_step base out); [done|by apply main_leaves_polling|]. intros Hl2.
    apply (main_comes_to base out _ 0); [done|done|lia].
  - apply (main_comes_to base out s n); [done|done|].
    destruct Hl as [_ (p & Hp & [[A1 _ _ _ _] _])]. rewrite Hm in A1. cbn in A1. rewrite <-A1.
    by apply progress_bound.
Qed.

(** ** Uncaught exceptions *)

(** Only the listener's set-up lets an exception through. *)
Lemma throws_in_setup base out s e :
  sys_inv base out s → step (Running s) (Terminated e) →
  at_listener s = SettingUp
  ∧ ∃ lw, listener_action 0 false SettingUp (network_listener s, world s) = (Throw e, lw).
Proof.
  intros [Ho Hw (taken & handled & [_ D2 _ D4 _]) _ _] Hs.
  inversion Hs as [? fuel ? Ha Hi Hr E|? ? Ha Hi E|? now ? Ha Hi E|? ? Ha E| | | | | | | | | | |]; subst.
  - pose proof (listener_action_ok base fuel _ _ _ Ho Hw Ha) as Hok. unfold listener_acted in Hok.
    destruct (listener_action fuel _ _ _) as [[a'|e'| | |] lw] eqn:El; simplify_eq/=.
    split; [done|]. exists lw. by rewrite Hok in El.
  - destruct Hi as [Hi1 Hi2].
    destruct (parser_action_ok taken _ _ (stopping Main.parser_thread s) D2 Hi1 Hi2 Ha)
      as [[E' _]|(a' & new & p' & E' & _)]; rewrite E' in E; simplify_eq/=.
  - destruct (logic_action_ok handled _ now _ (stopping Main.logic_thread s) D4 Hi Ha)
      as [[E' _]|(a' & new & l' & E' & _)]; rewrite E' in E; simplify_eq/=.
  - destruct (logger_action_ok (async_logger s) _ (stopping Main.logger_thread s) Ha)
      as [[E' _]|(a' & l' & E' & _)]; rewrite E' in E; simplify_eq/=.
Qed.

(** The set-up is not entered again. *)
Lemma setup_once_step s s' :
  step (Running s) (Running s') →
  at_listener s' = SettingUp → at_listener s = SettingUp.
Proof.
  intros Hs Ha'.
  step_cases Hs; try done; [|by destruct t]. cbn in Ha'. subst a.
  destruct (at_listener s); [done|exfalso..]; cbn [listener_action] in E;
    unfold mbind, M_bind, mret, M_ret in E.
  - destruct (stopping _ _); [|done].
    by destruct (Listener.shutdown_waker _) as [[[]|e| | |] lw1].
  - by destruct (stopping _ _).
  - destruct (Listener.event_step fuel false _) as [[[]|e| | |] lw1]; done.
  - done.
Qed.

Lemma throws_before_setup base out s e :
  sys_inv base out s → rtc step (Running s) (Terminated e) → at_listener s = SettingUp.
Proof.
  intros Hi Hr. remember (Running s) as p0 eqn:E0. remember (Terminated e) as q0 eqn:E1.
  revert s Hi E0. induction Hr as [|p q r Hpq Hqr IH]; intros s Hi E0; simplify_eq.
  destruct q as [s1|e1|]; [|by apply (throws_in_setup base out s e1)|].
  - eapply setup_once_step; [done|]. apply IH; [done| |done].
    by apply (step_process_inv base out _ _ Hpq).
  - inversion Hqr as [|? ? ? Hbad]; inversion Hbad.
Qed.

End Live.
