(* ===== verification/SystemExec.v ===== *)
(** * Running the whole program

    The step relation of [System.v] as a function of who moves: a schedule is a
    list of choices, and running it gives a path of steps. Every step but those
    of the network is such a choice, so that nothing is left out. *)

From S2P Require Import Prelude Telemetry ThreadSafeQueue RingBuffer Endian StreamingParser BusinessLogic AsyncLogger Posix Listener Threads Main System.

Import System.

Module Exec.

(** Who moves next; the listener's action gets fuel for its loops, the business
    logic's the time. *)
Inductive choice :=
| ListenerActs (fuel : nat) | ParserActs | LogicActs (now : Z) | LoggerActs
| ListenerQueues | ParserDelivers | ListenerLogs | ParserLogs | LogicLogs
| Signal | MainActs.

#[global] Instance choice_eq_dec : EqDecision choice.
Proof. solve_decision. Defined.

Section Exec.
Context {W : Type} `{PosixWake W} `{Host} `{Hdec : !∀ ep (w : W), Decision (epoll_ready ep w)}.
Implicit Types s : System W.

#[export] Instance listener_idle_dec s : Decision (listener_idle s).
Proof. unfold listener_idle. apply _. Defined.
#[export] Instance parser_idle_dec s : Decision (parser_idle s).
Proof. unfold parser_idle. apply _. Defined.
#[export] Instance logic_idle_dec s : Decision (logic_idle s).
Proof. unfold logic_idle. apply _. Defined.
#[export] Instance returned_dec t s : Decision (has_returned t s).
Proof. destruct t; cbn; apply _. Defined.

(** [epoll_wait] does not return before an event is there. *)
Definition may_go_on s : Prop :=
  at_listener s = Waiting →
  epoll_ready (Posix.get (Listener.m_epoll_fd (network_listener s))) (world s).

#[export] Instance may_go_on_dec s : Decision (may_go_on s).
Proof. unfold may_go_on. apply _. Defined.

(** What [main] does next. *)
Definition main_acts s : option (Process W) :=
  match at_main s with
  | Polling =>
      if g_shutdown_requested s
      then Some (Running (with_main (Stopping 0) (stop_requested s) s)) else None
  | Stopping n =>
      match Main.shutdown_sequence !! n with
      | Some (Main.request_stop t) => Some (Running (request_stop_of t n s))
      | Some (Main.join t) =>
          if decide (has_returned t s)
          then Some (Running (with_main (Stopping (S n)) (stop_requested s) s)) else None
      | Some (Main.print text) =>
          Some (Running (with_main (Stopping (S n)) (stop_requested s)
            (with_stdout (stdout s ++ [text]) s)))
      | None => None
      end
  end.

(** The state after a hand-over, if there is anything to hand over. *)
Definition handing {T} (pending shared : ThreadSafeQueue T)
    (next : T → ThreadSafeQueue T → ThreadSafeQueue T → System W) : option (Process W) :=
  match hand_over pending shared with
  | Some (x, mine, theirs) => Some (Running (next x mine theirs))
  | None => None
  end.

(** The process after [c], if it is possible. *)
Definition choose (c : choice) s : option (Process W) :=
  match c with
  | ListenerActs fuel =>
      if decide (at_listener s ≠ ListenerReturned ∧ listener_idle s ∧ may_go_on s)
      then resume (listener_action fuel (stopping Main.listener_thread s) (at_listener s)
                     (network_listener s, world s)) (λ a lw, with_listener a lw s)
      else None
  | ParserActs =>
      if decide (at_parser s ≠ Returned ∧ parser_idle s)
      then resume (parser_action tt (stopping Main.parser_thread s) (at_parser s) (parser s))
             (λ a p, with_parser a p s)
      else None
  | LogicActs now =>
      if decide (at_logic s ≠ Returned ∧ logic_idle s)
      then resume (logic_action now (stopping Main.logic_thread s) (at_logic s)
                     (business_logic s)) (λ a l, with_logic a l s)
      else None
  | LoggerActs =>
      if decide (at_logger s ≠ Returned)
      then resume (logger_action tt (stopping Main.logger_thread s) (at_logger s)
                     (async_logger s)) (λ a l, with_logger a l s)
      else None
  | ListenerQueues =>
      handing (Listener.m_queue (network_listener s)) (m_raw_queue (parser s))
        (λ c mine theirs, with_history (chunks s ++ [c]) (messages s)
          (with_parser (at_parser s) (set_raw_queue theirs (parser s))
            (with_listener (at_listener s)
               (Listener.set_queue mine (network_listener s), world s) s)))
  | ParserDelivers =>
      handing (m_parsed_queue (parser s)) (BusinessLogic.m_parsed_queue (business_logic s))
        (λ _ mine theirs,
          with_logic (at_logic s) (BusinessLogic.set_parsed_queue theirs (business_logic s))
            (with_parser (at_parser s) (set_parsed_queue mine (parser s)) s))
  | ListenerLogs =>
      handing (Listener.m_log_queue (network_listener s)) (AsyncLogger.m_log_queue (async_logger s))
        (λ m mine theirs, with_history (chunks s) (messages s ++ [m])
          (with_logger (at_logger s) (AsyncLogger.set_log_queue theirs (async_logger s))
            (with_listener (at_listener s)
               (Listener.set_log_queue mine (network_listener s), world s) s)))
  | ParserLogs =>
      handing (m_log_queue (parser s)) (AsyncLogger.m_log_queue (async_logger s))
        (λ m mine theirs, with_history (chunks s) (messages s ++ [m])
          (with_logger (at_logger s) (AsyncLogger.set_log_queue theirs (async_logger s))
            (with_parser (at_parser s) (set_log_queue mine (parser s)) s)))
  | LogicLogs =>
      handing (BusinessLogic.m_log_queue (business_logic s))
        (AsyncLogger.m_log_queue (async_logger s))
        (λ m mine theirs, with_history (chunks s) (messages s ++ [m])
          (with_logger (at_logger s) (AsyncLogger.set_log_queue theirs (async_logger s))
            (with_logic (at_logic s)
               (BusinessLogic.set_log_queue mine (business_logic s)) s)))
  | Signal => Some (Running (with_flag true s))
  | MainActs => main_acts s
  end.

Lemma handing_some {T} (pending shared : ThreadSafeQueue T) next q :
  handing pending shared next = Some q →
  ∃ x mine theirs, hand_over pending shared = Some (x, mine, theirs)
    ∧ q = Running (next x mine theirs).
Proof.
  unfold handing. destruct (hand_over pending shared) as [[[x mine] theirs]|]; [|done].
  intros [= <-]. by exists x, mine, theirs.
Qed.

Lemma choose_step c s q : choose c s = Some q → step (Running s) q.
Proof.
  destruct c; cbn [choose]; intros E.
  1-4: case_decide as Hd; [|done].
  - destruct Hd as (Ha & Hi & Hw). by eapply listener_acts.
  - destruct Hd as (Ha & Hi). by apply parser_acts.
  - destruct Hd as (Ha & Hi). by eapply logic_acts.
  - by apply logger_acts.
  - apply handing_some in E as (x & mine & theirs & E & ->). by apply listener_queues.
  - apply handing_some in E as (x & mine & theirs & E & ->). by eapply parser_delivers.
  - apply handing_some in E as (x & mine & theirs & E & ->). by apply listener_logs.
  - apply handing_some in E as (x & mine & theirs & E & ->). by apply parser_logs.
  - apply handing_some in E as (x & mine & theirs & E & ->). by apply logic_logs.
  - injection E as <-. apply signal_handler.
  - unfold main_acts in E. destruct (at_main s) as [|n] eqn:Em.
    + destruct (g_shutdown_requested s) eqn:Eg; simplify_eq. by apply main_leaves_polling.
    + destruct (Main.shutdown_sequence !! n) as [[t|t|x]|] eqn:Es; [|case_decide| |]; simplify_eq.
      * by apply main_requests_stop.
      * by eapply main_joins_thread.
      * by apply main_prints_text.
Qed.

(** Every step is a choice, or one of the network. *)
Lemma step_chosen s q :
  step (Running s) q →
  (∃ c, choose c s = Some q) ∨ ∃ w, kernel_moves (world s) w ∧ q = Running (with_world w s).
Proof.
  intros Hs.
  inversion Hs as [? fuel ? Ha Hi Hw E|? ? Ha Hi E|? now ? Ha Hi E|? ? Ha E|? c ? ? E|? t ? ? E
    |? m ? ? E|? m ? ? E|? m ? ? E|?|? Em Ef|? n t Em Eq|? n t Em Eq Hr|? n x Em Eq|? w Hm]; subst;
    [left..|right; by exists w].
  - exists (ListenerActs fuel). cbn [choose]. by rewrite decide_True.
  - exists ParserActs. cbn [choose]. by rewrite decide_True.
  - exists (LogicActs now). cbn [choose]. by rewrite decide_True.
  - exists LoggerActs. cbn [choose]. by rewrite decide_True.
  - exists ListenerQueues. cbn [choose]. unfold handing. by rewrite E.
  - exists ParserDelivers. cbn [choose]. unfold handing. by rewrite E.
  - exists ListenerLogs. cbn [choose]. unfold handing. by rewrite E.
  - exists ParserLogs. cbn [choose]. unfold handing. by rewrite E.
  - exists LogicLogs. cbn [choose]. unfold handing. by rewrite E.
  - by exists Signal.
  - exists MainActs. cbn [choose]. unfold main_acts. by rewrite Em, Ef.
  - exists MainActs. cbn [choose]. unfold main_acts. by rewrite Em, Eq.
  - exists MainActs. cbn [choose]. unfold main_acts. rewrite Em, Eq. by rewrite decide_True.
  - exists MainActs. cbn [choose]. unfold main_acts. by rewrite Em, Eq.
Qed.

(** A schedule; a choice that is not possible is skipped. *)
Fixpoint schedule (cs : list choice) s : Process W :=
  match cs with
  | [] => Running s
  | c :: cs =>
      match choose c s with
      | Some (Running s') => schedule cs s'
      | Some q => q
      | None => schedule cs s
      end
  end.

Lemma schedule_steps cs s : rtc step (Running s) (schedule cs s).
Proof.
  revert s. induction cs as [|c cs IH]; intros s; [done|]. cbn [schedule].
  destruct (choose c s) as [q|] eqn:E; [|done]. apply choose_step in E.
  destruct q as [s'| |]; [|by apply rtc_once..]. by eapply rtc_l.
Qed.

Lemma schedule_snoc cs c s :
  schedule (cs ++ [c]) s
  = match schedule cs s with
    | Running s' => default (Running s') (choose c s')
    | q => q
    end.
Proof.
  revert s. induction cs as [|c' cs IH]; intros s; cbn [schedule app].
  - by destruct (choose c s) as [[s'| |]|].
  - destruct (choose c' s) as [[s'| |]|]; [apply IH|done..|apply IH].
Qed.

End Exec.

(** Everybody in turn: first the pushes, then the threads. *)
Definition everybody (fuel : nat) (now : Z) : list choice :=
  [ListenerQueues; ListenerLogs; ParserDelivers; ParserLogs; LogicLogs;
   LoggerActs; ListenerActs fuel; ParserActs; LogicActs now; MainActs].

Fixpoint rounds (n fuel : nat) (now : Z) : list choice :=
  match n with
  | O => []
  | S n => everybody fuel now ++ rounds n fuel now
  end.

End Exec.
