(* ===== verification/SystemInevitable.v ===== *)
(** * Once it has begun, the shutdown ends

    After [main] has asked the listener to stop, every step of a thread or of
    [main] uses up a measure that neither the network nor further signals can
    fill again, and as long as [main] has not finished such a step is possible:
    whatever the scheduler does, the program ends. *)

From S2P Require Import Prelude Telemetry ThreadSafeQueue Worker RingBuffer Endian StreamingParser BusinessLogic AsyncLogger Posix Triples Listener ListenerOwnership Threads Main MainProperties System SystemInvariant SystemRefines SystemLive SystemExec.

Import System.

(** ** Whose steps they are *)

Section Sides.
Context {W : Type} `{PosixWake W} `{Host} `{Hdec : !∀ ep (w : W), Decision (epoll_ready ep w)}.
Implicit Types s : System W.

(** A step of a thread or of [main]. *)
Definition acts s (q : Process W) : Prop := ∃ c, c ≠ Exec.Signal ∧ Exec.choose c s = Some q.

(** A step of the rest of the world: a signal or the network. *)
Definition outside s s' : Prop :=
  s' = with_flag true s ∨ ∃ w, kernel_moves (world s) w ∧ s' = with_world w s.

Lemma acts_step s q : acts s q → step (Running s) q.
Proof. intros (c & _ & E). by eapply Exec.choose_step. Qed.

Lemma outside_step s s' : outside s s' → step (Running s) (Running s').
Proof. intros [->|(w & Hw & ->)]; [apply signal_handler|by apply kernel_steps]. Qed.

(** Every step is on one of the two sides. *)
Lemma step_sides s q :
  step (Running s) q → acts s q ∨ ∃ s', q = Running s' ∧ outside s s'.
Proof.
  intros [[c E]|(w & Hw & ->)]%Exec.step_chosen.
  - destruct (decide (c = Exec.Signal)) as [->|Hc]; [|left; by exists c].
    injection E as <-. right. eexists. split; [done|by left].
  - right. eexists. split; [done|]. right. by exists w.
Qed.

(** Whatever the outside world does in between and whichever of the possible
    steps is taken each time, the process comes to [P]. *)
Inductive inevitably (P : Process W → Prop) : Process W → Prop :=
| inevitably_here q : P q → inevitably P q
| inevitably_later s :
    (∀ s', rtc outside s s' → ∃ q, acts s' q) →
    (∀ s' q, rtc outside s s' → acts s' q → inevitably P q) →
    inevitably P (Running s).

End Sides.

(** ** The measure *)

Section Inevitable.
Context {W : Type} `{PosixWake W} `{!PosixBursts W} `{Host}
  `{Hdec : !∀ ep (w : W), Decision (epoll_ready ep w)}.
Implicit Types (s : System W) (base : gset Z) (out : list string).

Definition main_work s : nat :=
  match at_main s with
  | Polling => S (length Main.shutdown_sequence)
  | Stopping n => length Main.shutdown_sequence - n
  end.

(** What comes first may add to what comes later. *)
Definition work s : list nat :=
  [main_work s; listener_work s; listener_pending s; parser_work s; parser_pending s;
   logic_work s; logic_pending s; logger_work s].

Lemma outside_work s s' :
  outside s s' → work s' = work s ∧ stop_requested s' = stop_requested s.
Proof. by intros [->|(w & _ & ->)]. Qed.

Lemma outsides_work s s' :
  rtc outside s s' → work s' = work s ∧ stop_requested s' = stop_requested s.
Proof.
  induction 1 as [s|s1 s2 s3 H12 _ [E1 E2]]; [done|].
  destruct (outside_work _ _ H12) as [E3 E4]. by rewrite E1, E2.
Qed.

Lemma outsides_main s s' : rtc outside s s' → at_main s' = at_main s.
Proof. induction 1 as [s|s1 s2 s3 [->|(w & _ & ->)] _ IH]; done. Qed.

Lemma outsides_steps s s' : rtc outside s s' → rtc step (Running s) (Running s').
Proof. induction 1; [done|]. eapply rtc_l; [by apply outside_step|done]. Qed.

Lemma main_acts_work s s' : Exec.main_acts s = Some (Running s') → lex (work s') (work s).
Proof.
  unfold Exec.main_acts. destruct (at_main s) as [|n] eqn:Em.
  - destruct (g_shutdown_requested s); [|done]. intros [= <-]. left. split; [|done].
    unfold main_work. rewrite Em. cbn. lia.
  - destruct (Main.shutdown_sequence !! n) as [a|] eqn:E; [|done].
    apply lookup_lt_Some in E. intros Hs. left. split; [|done].
    assert (at_main s' = Stopping (S n)) as Em'
      by (destruct a; [|case_decide|]; simplify_eq; done).
    unfold main_work. rewrite Em, Em'. lia.
Qed.

Lemma handing_work {T} (pending shared : ThreadSafeQueue T) next s' (P : Prop) :
  Exec.handing pending shared next = Some (Running s') →
  (∀ x mine theirs, length (m_queue pending) = S (length (m_queue mine)) →
    s' = next x mine theirs → P) → P.
Proof.
  intros (x & mine & theirs & E & [= ->])%Exec.handing_some Hnext.
  eapply Hnext; [by eapply handed_shorter|done].
Qed.

Lemma acts_work base out s s' :
  live base out s → Main.listener_thread ∈ stop_requested s → acts s (Running s') →
  lex (work s') (work s).
Proof.
  intros [[Ho Hw (taken & handled & [_ D2 _ D4 _]) _ _] _] Ht (c & Hc & E).
  destruct c; cbn [Exec.choose] in E; [case_decide as Hd; [|done]..| | | | | |done|].
  - destruct Hd as (Ha & Hi & _). rewrite (stopping_asked _ _ Ht) in E.
    destruct (listener_action fuel true _ _) as [[a'|e| | |] lw'] eqn:El; simplify_eq/=.
    pose proof (listener_nearer _ _ _ _ _ El Ha). right. split; [done|]. by left.
  - destruct Hd as (Ha & Hi1 & Hi2).
    destruct (parser_action_ok taken _ _ (stopping Main.parser_thread s) D2 Hi1 Hi2 Ha)
      as [[E' _]|(a' & new & p' & E' & [A1 _ _ A4 _])]; rewrite E' in E; simplify_eq/=.
    do 3 (right; split; [done|]). left. split; [|done].
    eapply turn_work; [exact A4|]. by rewrite A1, length_app.
  - destruct Hd as (Ha & Hi).
    destruct (logic_action_ok handled _ now _ (stopping Main.logic_thread s) D4 Hi Ha)
      as [[E' _]|(a' & new & l' & E' & [A1 _ A3 _])]; rewrite E' in E; simplify_eq/=.
    do 5 (right; split; [done|]). left. split; [|done].
    eapply turn_work; [exact A3|]. by rewrite A1, length_app.
  - destruct (logger_action_ok (async_logger s) _ (stopping Main.logger_thread s) Hd)
      as [[E' _]|(a' & l' & E' & [_ _ (n & A3 & A4) _ _])]; rewrite E' in E; simplify_eq/=.
    do 7 (right; split; [done|]). left. split; [|done]. by eapply turn_work.
  - eapply handing_work; [exact E|]. intros x mine theirs Hlen ->.
    do 2 (right; split; [done|]). left. split; [|done]. unfold listener_pending. cbn. lia.
  - eapply handing_work; [exact E|]. intros x mine theirs Hlen ->.
    do 4 (right; split; [done|]). left. split; [|done]. unfold parser_pending. cbn. lia.
  - eapply handing_work; [exact E|]. intros x mine theirs Hlen ->.
    do 2 (right; split; [done|]). left. split; [|done]. unfold listener_pending. cbn. lia.
  - eapply handing_work; [exact E|]. intros x mine theirs Hlen ->.
    do 4 (right; split; [done|]). left. split; [|done]. unfold parser_pending. cbn. lia.
  - eapply handing_work; [exact E|]. intros x mine theirs Hlen ->.
    do 6 (right; split; [done|]). left. split; [|done]. unfold logic_pending. cbn. lia.
  - by apply main_acts_work.
Qed.

(** ** Progress *)

(** A step that changes the work is no step from outside. *)
Lemma working_step_acts s q :
  step (Running s) q → outcome_in (λ s', work s' ≠ work s) q → acts s q.
Proof.
  intros Hs Hw. destruct (step_sides s q Hs) as [?|(s' & -> & Ho)]; [done|].
  destruct (outside_work s s' Ho) as [E _]. by destruct Hw.
Qed.

(** A thread that has been asked to stop and has not returned can go on. *)
Lemma thread_acts base out s t :
  live base out s → t ∈ stop_requested s → ¬ has_returned t s → ∃ q, acts s q.
Proof.
  intros Hl Ht Hr. destruct t.
  - destruct (listener_goes_on base out s Hl Ht Hr) as (q & Hq & Hn). exists q.
    apply working_step_acts; [done|]. destruct q as [s'| |]; [|done..].
    destruct Hn as [_ Hn]. intros [= _ E1 E2 _ _ _ _ _]. lia.
  - destruct (parser_goes_on base out s Hl Ht Hr) as (q & Hq & Hn). exists q.
    apply working_step_acts; [done|]. destruct q as [s'| |]; [|done..].
    destruct Hn as [_ Hn]. intros [= _ _ _ E1 E2 _ _ _]. lia.
  - destruct (logic_goes_on base out s Hl Ht Hr) as (q & Hq & Hn). exists q.
    apply working_step_acts; [done|]. destruct q as [s'| |]; [|done..].
    destruct Hn as [_ Hn]. intros [= _ _ _ _ _ E1 E2 _]. lia.
  - destruct (logger_goes_on base out s Hl Ht Hr) as (q & Hq & Hn). exists q.
    apply working_step_acts; [done|]. destruct q as [s'| |]; [|done..].
    destruct Hn as [_ Hn]. intros [= _ _ _ _ _ _ _ E1]. lia.
Qed.

(** Where [main] is once the listener has been asked. *)
Lemma asked_progress base out s :
  live base out s → Main.listener_thread ∈ stop_requested s →
  ∃ n, at_main s = Stopping n ∧ (n <= length Main.shutdown_sequence)%nat.
Proof.
  intros [_ (p & Hp & [[A1 A2 _ _ _] _])] Ht. pose proof (reachable_inv p Hp) as Hinv.
  rewrite <-A2 in Ht. apply (inv_asked p Hinv) in Ht.
  pose proof (progress_bound p Hp) as Hb. rewrite A1 in Ht, Hb.
  destruct (at_main s) as [|n]; [|by exists n]. exfalso. cbn in Ht. set_solver.
Qed.

(** There is always a step to take, until [main] has finished. *)
Lemma asked_acts base out s :
  live base out s → Main.listener_thread ∈ stop_requested s → ¬ finished s → ∃ q, acts s q.
Proof.
  intros Hl Ht Hf. destruct (asked_progress base out s Hl Ht) as (n & Em & Hn).
  assert (n < length Main.shutdown_sequence)%nat as Hlt.
  { destruct (decide (n = length Main.shutdown_sequence)) as [->|]; [done|lia]. }
  destruct (lookup_lt_is_Some_2 _ _ Hlt) as [a E].
  assert (Exec.main_acts s ≠ None → ∃ q, acts s q) as Hmain.
  { intros Hq. destruct (Exec.main_acts s) as [q|] eqn:Eq; [|done]. exists q, Exec.MainActs. done. }
  destruct a as [t|t|x].
  - apply Hmain. unfold Exec.main_acts. by rewrite Em, E.
  - destruct (decide (has_returned t s)) as [Hr|Hr].
    + apply Hmain. unfold Exec.main_acts. by rewrite Em, E, decide_True.
    + apply (thread_acts base out s t); [done| |done]. by eapply live_asked.
  - apply Hmain. unfold Exec.main_acts. by rewrite Em, E.
Qed.

(** ** The end *)

Lemma asked_stays s q :
  acts s q → Main.listener_thread ∈ stop_requested s →
  match q with Running s' => Main.listener_thread ∈ stop_requested s' | _ => True end.
Proof.
  intros (c & _ & E) Ht. destruct q as [s'| |]; [|done..].
  destruct c; cbn [Exec.choose] in E; try case_decide; try done;
    try (by eapply handing_work; [exact E|intros x mine theirs _ ->]).
  - by destruct (listener_action _ _ _ _) as [[a'|e| | |] c]; simplify_eq/=.
  - by destruct (parser_action _ _ _ _) as [[a'|e| | |] c]; simplify_eq/=.
  - by destruct (logic_action _ _ _ _) as [[a'|e| | |] c]; simplify_eq/=.
  - by destruct (logger_action _ _ _ _) as [[a'|e| | |] c]; simplify_eq/=.
  - by injection E as <-.
  - unfold Exec.main_acts in E. destruct (at_main s) as [|n].
    + destruct (g_shutdown_requested s); by simplify_eq.
    + destruct (_ !! n) as [[t|t|x]|]; [|case_decide| |]; simplify_eq; [|done..].
      destruct t; cbn; set_solver.
Qed.

Lemma live_steps base out s s' :
  rtc step (Running s) (Running s') → live base out s → live base out s'.
Proof. apply running_invariant. intros s1 s2. apply live_step. Qed.

Lemma shutdown_ends base out s :
  live base out s → Main.listener_thread ∈ stop_requested s →
  inevitably (λ q, match q with
    | Running s' => finished s'
    | Terminated _ => at_listener s = SettingUp
    | Broken => False
    end) (Running s).
Proof.
  intros Hl0 Ht0. set (P := λ q : Process W, _).
  enough (∀ ms s1, work s1 = ms → rtc step (Running s) (Running s1) →
    Main.listener_thread ∈ stop_requested s1 → inevitably P (Running s1)) as He by by eapply He.
  intros ms. induction (lex_acc ms) as [ms _ IH]. intros s1 <- Hr Ht.
  destruct (decide (at_main s1 = Stopping (length Main.shutdown_sequence))) as [Hf|Hf];
    [by apply inevitably_here|].
  assert (∀ s2, rtc outside s1 s2 → rtc step (Running s) (Running s2) ∧ live base out s2
    ∧ Main.listener_thread ∈ stop_requested s2 ∧ work s2 = work s1) as Hout.
  { intros s2 Ho. destruct (outsides_work _ _ Ho) as [Ew Es].
    assert (rtc step (Running s) (Running s2)) by (etransitivity; [exact Hr|by apply outsides_steps]).
    split; [done|]. split; [by eapply live_steps|]. by rewrite Es. }
  apply inevitably_later.
  - intros s2 Ho. destruct (Hout s2 Ho) as (_ & Hl2 & Ht2 & Ew).
    apply (asked_acts base out s2); [done|done|]. intros Hf2. apply Hf.
    unfold finished in Hf2. by rewrite (outsides_main _ _ Ho) in Hf2.
  - intros s2 q Ho Hq. destruct (Hout s2 Ho) as (Hr2 & Hl2 & Ht2 & Ew).
    pose proof (acts_step _ _ Hq) as Hs. pose proof (asked_stays _ _ Hq Ht2) as Ht3.
    assert (rtc step (Running s) q) as Hrq by (by eapply rtc_r).
    destruct q as [s3|e|].
    + apply (IH (work s3)); [|done|done|done]. rewrite <-Ew. by apply (acts_work base out).
    + apply inevitably_here. exact (throws_before_setup _ _ _ _ (proj1 Hl0) Hrq).
    + exfalso. exact (reachable_inv_process _ _ _ _ Hrq (proj1 Hl0)).
Qed.

End Inevitable.
