(* ===== verification/Fairness.v ===== *)
(** * Fair runs

    A library on the infinite runs of any transition system whose steps belong
    to actors. A run is fair when no actor is kept waiting for ever while it can
    move. What one can show with a measure - that the actor whose turn it is
    brings the system nearer to a goal, and that nobody takes it further away -
    then comes about in every fair run ([fair_leads_to]). *)

From S2P Require Import Prelude.

Section Fairness.
Context {P A : Type}.
Variable step : P → P → Prop.
(** [moves a p q]: the actor [a] takes the system from [p] to [q]. *)
Variable moves : A → P → P → Prop.

Definition can_move (a : A) (p : P) : Prop := ∃ q, moves a p q.

(** An infinite run; a run that has ended stays where it is. Weak fairness: at
    every time, every actor moves later on or is unable to at some later time. *)
Record fair_run (σ : nat → P) : Prop := {
  fair_steps n : σ (S n) = σ n ∨ step (σ n) (σ (S n));
  fair_turns a n : ∃ m, (n <= m)%nat ∧ (¬ can_move a (σ m) ∨ moves a (σ m) (σ (S m)))
}.

(** Whenever [Pre] holds, [Post] holds then or later. *)
Definition leads_to (σ : nat → P) (Pre Post : P → Prop) : Prop :=
  ∀ n, Pre (σ n) → ∃ m, (n <= m)%nat ∧ Post (σ m).

Lemma leads_to_trans σ Pre Mid Post :
  leads_to σ Pre Mid → leads_to σ Mid Post → leads_to σ Pre Post.
Proof.
  intros H1 H2 n Hn. destruct (H1 n Hn) as (m & Hm & Hmid).
  destruct (H2 m Hmid) as (k & Hk & Hpost). exists k. split; [lia|done].
Qed.

Lemma leads_to_now σ (Pre Post : P → Prop) : (∀ p, Pre p → Post p) → leads_to σ Pre Post.
Proof. intros Hi n Hn. exists n. split; [lia|by apply Hi]. Qed.

Lemma leads_to_weaken σ (Pre Pre' Post Post' : P → Prop) :
  (∀ p, Pre' p → Pre p) → (∀ p, Post p → Post' p) → leads_to σ Pre Post → leads_to σ Pre' Post'.
Proof.
  intros H1 H2 H n Hn. destruct (H n (H1 _ Hn)) as (m & Hm & Hp). exists m. split; [done|by apply H2].
Qed.

(** What every step keeps. *)
Lemma fair_invariant σ (I : P → Prop) n m :
  fair_run σ → (∀ p q, step p q → I p → I q) → I (σ n) → (n <= m)%nat → I (σ m).
Proof.
  intros Hf Hs Hn Hm. induction Hm as [|m Hm IH]; [done|].
  destruct (fair_steps σ Hf m) as [->|Hst]; [done|by apply (Hs (σ m))].
Qed.

Lemma fair_path σ n m : fair_run σ → (n <= m)%nat → rtc step (σ n) (σ m).
Proof.
  intros Hf Hm. apply (fair_invariant σ (λ p, rtc step (σ n) p) n m Hf); [|done|done].
  intros p q Hpq Hp. by eapply rtc_r.
Qed.

(** ** Progress by the actor whose turn it is *)

Section Progress.
Variables (Pre Post : P → Prop) (measure : P → list nat) (turn : P → A).

(** No step leaves [Pre] but for [Post], or makes the measure larger; one that
    leaves the measure alone does not change whose turn it is. *)
Definition no_setback (p q : P) : Prop :=
  Post q ∨ Pre q ∧ (lex (measure q) (measure p) ∨ measure q = measure p ∧ turn q = turn p).

Definition advance_of (p q : P) : Prop := Post q ∨ Pre q ∧ lex (measure q) (measure p).

Hypothesis turn_can : ∀ p, Pre p → Post p ∨ can_move (turn p) p.
Hypothesis others_wait : ∀ p q, Pre p → step p q → no_setback p q.
Hypothesis turn_advances : ∀ p q, Pre p → moves (turn p) p q → advance_of p q.

(** From [n] on the goal is reached, the measure has gone down, or it is still
    the same actor's turn. *)
Lemma fair_waiting σ n k :
  fair_run σ → Pre (σ n) →
  (∃ m, (n <= m)%nat ∧ Post (σ m))
  ∨ (∃ m, (n <= m)%nat ∧ Pre (σ m) ∧ lex (measure (σ m)) (measure (σ n)))
  ∨ Pre (σ (n + k)%nat) ∧ measure (σ (n + k)%nat) = measure (σ n)
    ∧ turn (σ (n + k)%nat) = turn (σ n).
Proof.
  intros Hf Hn. induction k as [|k IH].
  { right. right. rewrite Nat.add_0_r. done. }
  destruct IH as [?|[?|(Hp & Em & Et)]]; [by left|by right; left|].
  rewrite Nat.add_succ_r.
  destruct (fair_steps σ Hf (n + k)) as [E|Hs]; [rewrite E; by right; right|].
  destruct (others_wait _ _ Hp Hs) as [Hpost|[Hp' [Hlt|[Em' Et']]]].
  - left. exists (S (n + k)). split; [lia|done].
  - right. left. exists (S (n + k)). rewrite <-Em. split; [lia|done].
  - right. right. by rewrite Em', Et'.
Qed.

Theorem fair_leads_to σ : fair_run σ → leads_to σ Pre Post.
Proof.
  intros Hf n Hn. remember (measure (σ n)) as ms eqn:E. revert n Hn E.
  induction (lex_acc ms) as [ms _ IH]. intros n Hn ->.
  assert (∀ m, (n <= m)%nat → Pre (σ m) → lex (measure (σ m)) (measure (σ n)) →
    ∃ m, (n <= m)%nat ∧ Post (σ m)) as Hdown.
  { intros m Hm Hp Hlt. destruct (IH _ Hlt m Hp eq_refl) as (k & Hk & Hpost).
    exists k. split; [lia|done]. }
  destruct (fair_turns σ Hf (turn (σ n)) n) as (m & Hm & Hturn).
  destruct (fair_waiting σ n (m - n) Hf Hn) as [?|[(k & Hk & Hp & Hlt)|(Hp & Em & Et)]];
    [done|by apply (Hdown k)|].
  replace (n + (m - n))%nat with m in * by lia. rewrite <-Et in Hturn.
  destruct Hturn as [Hnot|Hmove].
  - destruct (turn_can _ Hp) as [Hpost|Hcan]; [by exists m|done].
  - destruct (turn_advances _ _ Hp Hmove) as [Hpost|[Hp' Hlt]].
    + exists (S m). split; [lia|done].
    + apply (Hdown (S m)); [lia|done|by rewrite <-Em].
Qed.

End Progress.

(** ** Runs that end *)

(** A path that comes to a state where nobody can move is a fair run. *)
Lemma ended_run_fair (σ : nat → P) (last : nat) :
  (∀ n, σ (S n) = σ n ∨ step (σ n) (σ (S n))) → (∀ n, (last <= n)%nat → σ n = σ last) →
  (∀ a, ¬ can_move a (σ last)) → fair_run σ.
Proof.
  intros Hs Hend Hnone. split; [done|]. intros a n. exists (Nat.max n last). split; [lia|].
  left. rewrite Hend by lia. apply Hnone.
Qed.

End Fairness.
