(* ===== verification/SystemFair.v ===== *)
(** * Fair runs of the program

    The actors are the four threads and [main]; a thread's moves are its actions
    and the pushes that these have left to perform. In a fair run no actor is
    kept waiting for ever. Then the program does what one expects of it without
    any help: a requested shutdown is completed, and what has been queued for a
    thread is taken. *)

From S2P Require Import Prelude Telemetry ThreadSafeQueue Worker RingBuffer Endian StreamingParser ParserCorrect BusinessLogic AsyncLogger Posix Triples Listener ListenerOwnership Threads Main MainProperties System SystemInvariant SystemRefines SystemLive SystemExec SystemInevitable Fairness.

Import System.

(** ** Actors *)

Inductive actor := ThreadOf (t : Main.thread) | MainThread.

#[export] Instance actor_eq_dec : EqDecision actor.
Proof. solve_decision. Defined.

(** Whose move a choice is; the signal is nobody's. *)
Definition owner (c : Exec.choice) : option actor :=
  match c with
  | Exec.ListenerActs _ | Exec.ListenerQueues | Exec.ListenerLogs =>
      Some (ThreadOf Main.listener_thread)
  | Exec.ParserActs | Exec.ParserDelivers | Exec.ParserLogs => Some (ThreadOf Main.parser_thread)
  | Exec.LogicActs _ | Exec.LogicLogs => Some (ThreadOf Main.logic_thread)
  | Exec.LoggerActs => Some (ThreadOf Main.logger_thread)
  | Exec.Signal => None
  | Exec.MainActs => Some MainThread
  end.

Section Fair.
Context {W : Type} `{PosixWake W} `{!PosixBursts W} `{Host}
  `{Hdec : !∀ ep (w : W), Decision (epoll_ready ep w)}.
Implicit Types (s : System W) (p q : Process W) (base : gset Z) (out : list string).

Definition moves (a : actor) p q : Prop :=
  ∃ s c, p = Running s ∧ owner c = Some a ∧ Exec.choose c s = Some q.

(** A fair run of the program, from any state. *)
Definition fair (σ : nat → Process W) : Prop := fair_run step moves σ.

Lemma moves_acts a s q : moves a (Running s) q → acts s q.
Proof. intros (s' & c & [= <-] & Ho & E). exists c. split; [|done]. by intros ->. Qed.

Lemma can_move_by a c s q :
  owner c = Some a → Exec.choose c s = Some q → can_move moves a (Running s).
Proof. intros Ho E. by exists q, s, c. Qed.

(** ** Who can move *)

Lemma handing_can {T} (pending shared : ThreadSafeQueue T) next :
  m_max_size shared = 0 → m_queue pending ≠ [] →
  ∃ q : Process W, Exec.handing pending shared next = Some q.
Proof.
  intros Hu Hne. destruct (hand_over_possible pending shared Hu Hne) as (x & mine & theirs & E).
  exists (Running (next x mine theirs)). unfold Exec.handing. by rewrite E.
Qed.

Lemma not_nil_length {T} (l : list T) : l ≠ [] ↔ (0 < length l)%nat.
Proof. destruct l; cbn; split; try done; lia. Qed.

(** A thread with pushes to perform. *)
Lemma listener_pushes base out s :
  sys_inv base out s → (0 < listener_pending s)%nat →
  can_move moves (ThreadOf Main.listener_thread) (Running s).
Proof.
  intros [_ _ (taken & handled & [_ D2 _ _ _]) [_ L2 _] _] Hp. unfold listener_pending in Hp.
  destruct (decide (m_queue (Listener.m_queue (network_listener s)) = [])) as [E1|E1].
  - rewrite E1 in Hp. edestruct (handing_can (Listener.m_log_queue (network_listener s))
      (AsyncLogger.m_log_queue (async_logger s))) as [q E]; [done|by apply not_nil_length|].
    by apply (can_move_by _ Exec.ListenerLogs s q).
  - edestruct (handing_can (Listener.m_queue (network_listener s)) (m_raw_queue (parser s)))
      as [q E]; [apply D2|done|]. by apply (can_move_by _ Exec.ListenerQueues s q).
Qed.

Lemma parser_pushes base out s :
  sys_inv base out s → (0 < parser_pending s)%nat →
  can_move moves (ThreadOf Main.parser_thread) (Running s).
Proof.
  intros [_ _ (taken & handled & [_ _ _ D4 _]) [_ L2 _] _] Hp. unfold parser_pending in Hp.
  destruct (decide (m_queue (m_parsed_queue (parser s)) = [])) as [E1|E1].
  - rewrite E1 in Hp. edestruct (handing_can (m_log_queue (parser s))
      (AsyncLogger.m_log_queue (async_logger s))) as [q E]; [done|by apply not_nil_length|].
    by apply (can_move_by _ Exec.ParserLogs s q).
  - edestruct (handing_can (m_parsed_queue (parser s))
      (BusinessLogic.m_parsed_queue (business_logic s))) as [q E]; [apply D4|done|].
    by apply (can_move_by _ Exec.ParserDelivers s q).
Qed.

Lemma logic_pushes base out s :
  sys_inv base out s → (0 < logic_pending s)%nat →
  can_move moves (ThreadOf Main.logic_thread) (Running s).
Proof.
  intros [_ _ _ [_ L2 _] _] Hp.
  edestruct (handing_can (BusinessLogic.m_log_queue (business_logic s))
    (AsyncLogger.m_log_queue (async_logger s))) as [q E]; [done|by apply not_nil_length|].
  by apply (can_move_by _ Exec.LogicLogs s q).
Qed.

Lemma nothing_pending {T U} (l : list T) (k : list U) : (length l + length k = 0)%nat → l = [] ∧ k = [].
Proof. destruct l, k; cbn; [done|lia..]. Qed.

(** A consumer that has something to take, or is told to stop. *)
Definition has_work {T} (a : pc) (stop : bool) (queue : ThreadSafeQueue T) : Prop :=
  a ≠ Returned ∧ (a = Popping → stop = true ∨ m_queue queue ≠ []).

Lemma parser_works base out s :
  sys_inv base out s → parser_pending s = 0%nat →
  has_work (at_parser s) (stopping Main.parser_thread s) (m_raw_queue (parser s)) →
  can_move moves (ThreadOf Main.parser_thread) (Running s).
Proof.
  intros [_ _ (taken & handled & [_ D2 _ _ _]) _ _] [Hi1 Hi2]%nothing_pending [Ha Hpop].
  destruct (parser_action_ok taken _ _ (stopping Main.parser_thread s) D2 Hi1 Hi2 Ha)
    as [(_ & Hs & Ep & Eq)|(a' & new & p' & E & _)].
  - destruct (Hpop Ep); congruence.
  - eapply (can_move_by _ Exec.ParserActs); [done|]. cbn [Exec.choose].
    rewrite decide_True by done. by rewrite E.
Qed.

Lemma logic_works base out s :
  sys_inv base out s → logic_pending s = 0%nat →
  has_work (at_logic s) (stopping Main.logic_thread s) (BusinessLogic.m_parsed_queue (business_logic s)) →
  can_move moves (ThreadOf Main.logic_thread) (Running s).
Proof.
  intros [_ _ (taken & handled & [_ _ _ D4 _]) _ _] Hi%nil_length_inv [Ha Hpop].
  destruct (logic_action_ok handled _ 0 _ (stopping Main.logic_thread s) D4 Hi Ha)
    as [(_ & Hs & Ep & Eq)|(a' & new & l' & E & _)].
  - destruct (Hpop Ep); congruence.
  - eapply (can_move_by _ (Exec.LogicActs 0)); [done|]. cbn [Exec.choose].
    rewrite decide_True by done. by rewrite E.
Qed.

Lemma logger_works s :
  has_work (at_logger s) (stopping Main.logger_thread s) (AsyncLogger.m_log_queue (async_logger s)) →
  can_move moves (ThreadOf Main.logger_thread) (Running s).
Proof.
  intros [Ha Hpop].
  destruct (logger_action_ok (async_logger s) _ (stopping Main.logger_thread s) Ha)
    as [(_ & Hs & Ep & Eq)|(a' & l' & E & _)].
  - destruct (Hpop Ep); congruence.
  - eapply (can_move_by _ Exec.LoggerActs); [done|]. cbn [Exec.choose].
    rewrite decide_True by done. by rewrite E.
Qed.

(** The listener, once it has been asked to stop. *)
Lemma listener_works base out s :
  sys_inv base out s → listener_pending s = 0%nat → at_listener s ≠ ListenerReturned →
  Main.listener_thread ∈ stop_requested s →
  can_move moves (ThreadOf Main.listener_thread) (Running s).
Proof.
  intros [Ho Hw _ _ _] [Hi1 Hi2]%nothing_pending Ha Ht. apply stopping_asked in Ht as Hs.
  rewrite Hs in Hw.
  destruct (listener_action_ends base _ true _ Ho Hw Ha) as (fuel & Hends).
  destruct (Exec.choose (Exec.ListenerActs fuel) s) as [q|] eqn:E;
    [by apply (can_move_by _ (Exec.ListenerActs fuel) s q)|exfalso].
  cbn [Exec.choose] in E. rewrite decide_True, Hs in E.
  - by destruct (listener_action fuel true (at_listener s) (network_listener s, world s))
      as [[a'|e| | |] lw'].
  - split; [done|]. split; [done|]. intros Hwait. rewrite Hwait in Hw.
    destruct Hw as [_ _ Hin Hup]. eapply raised_ready; eauto.
Qed.

(** A thread that has been asked to stop and has not returned can move. *)
Lemma thread_can base out s t :
  sys_inv base out s → t ∈ stop_requested s → ¬ has_returned t s →
  can_move moves (ThreadOf t) (Running s).
Proof.
  intros Hi Ht Hr. apply stopping_asked in Ht as Hs. destruct t.
  - destruct (Nat.eq_0_gt_0_cases (listener_pending s)) as [Hp|Hp]; [|by eapply listener_pushes].
    apply (listener_works base out); [done|done| |done]. intros Ha. apply Hr.
    split; [done|by apply nothing_pending].
  - destruct (Nat.eq_0_gt_0_cases (parser_pending s)) as [Hp|Hp]; [|by eapply parser_pushes].
    apply (parser_works base out); [done|done|]. split; [|by left]. intros Ha. apply Hr.
    split; [done|by apply nothing_pending].
  - destruct (Nat.eq_0_gt_0_cases (logic_pending s)) as [Hp|Hp]; [|by eapply logic_pushes].
    apply (logic_works base out); [done|done|]. split; [|by left]. intros Ha. apply Hr.
    split; [done|by apply nil_length_inv].
  - apply logger_works. split; [done|by left].
Qed.

(** ** A requested shutdown is completed *)

(** Whose move brings the shutdown nearer to its end: [main]'s, unless it waits
    for a thread. *)
Definition shutting (s : System W) : actor :=
  match at_main s with
  | Polling => MainThread
  | Stopping n =>
      match Main.shutdown_sequence !! n with
      | Some (Main.join t) => if decide (has_returned t s) then MainThread else ThreadOf t
      | _ => MainThread
      end
  end.

Definition asked s : Prop := Main.listener_thread ∈ stop_requested s.

(** Before the listener is asked only [main] counts, afterwards everybody. *)
Definition shutdown_measure s : list nat :=
  if decide (asked s) then work s else main_work s :: replicate 7 0%nat.

(** [main] can move when it has something to do. *)
Lemma main_can base out s :
  live base out s → g_shutdown_requested s = true → ¬ finished s →
  (∀ n t, at_main s = Stopping n → Main.shutdown_sequence !! n = Some (Main.join t) →
     has_returned t s) →
  can_move moves MainThread (Running s).
Proof.
  intros Hl Hflag Hf Hret.
  destruct (Exec.choose Exec.MainActs s) as [q|] eqn:E;
    [by apply (can_move_by _ Exec.MainActs s q)|exfalso].
  cbn [Exec.choose] in E. unfold Exec.main_acts in E. destruct (at_main s) as [|n] eqn:Em.
  { by rewrite Hflag in E. }
  destruct (Main.shutdown_sequence !! n) as [[t|t|x]|] eqn:Eq; [done| |done|].
  - by rewrite decide_True in E by (by eapply Hret).
  - apply lookup_ge_None in Eq. destruct Hl as [_ (p & Hp & [[A1 _ _ _ _] _])].
    apply progress_bound in Hp. rewrite A1, Em in Hp. cbn [progress_of] in Hp.
    apply Hf. unfold finished. rewrite Em. f_equal. lia.
Qed.

Lemma shutting_can base out s :
  live base out s → g_shutdown_requested s = true → ¬ finished s →
  can_move moves (shutting s) (Running s).
Proof.
  intros Hl Hflag Hf. unfold shutting. destruct (at_main s) as [|n] eqn:Em.
  { apply (main_can base out); [done..|congruence]. }
  destruct (Main.shutdown_sequence !! n) as [[t|t|x]|] eqn:Eq;
    try (apply (main_can base out); [done..|congruence]).
  destruct (decide (has_returned t s)) as [Hr|Hr].
  - apply (main_can base out); [done..|]. intros n' t' E. simplify_eq. congruence.
  - apply (thread_can base out); [apply Hl| |done]. by eapply live_asked.
Qed.

(** [main] joins nobody before it has asked the listener. *)
Lemma joins_when_asked base out s n t :
  live base out s → at_main s = Stopping n → Main.shutdown_sequence !! n = Some (Main.join t) →
  asked s.
Proof.
  intros Hl Em E. destruct (live_shutdown _ _ _ Hl) as (p & Hp & [[A1 A2 _ _ _] _]).
  unfold asked. rewrite <-A2. apply (inv_asked p Hp). rewrite A1, Em. cbn [progress_of].
  destruct n as [|[|n]]; [done..|]. cbn. set_solver.
Qed.

Lemma unasked_shutting base out s : live base out s → ¬ asked s → shutting s = MainThread.
Proof.
  intros Hl Ha. unfold shutting. destruct (at_main s) as [|n] eqn:Em; [done|].
  destruct (Main.shutdown_sequence !! n) as [[t|t|x]|] eqn:Eq; try done.
  destruct Ha. by eapply joins_when_asked.
Qed.

(** Only [main] requests stops, and its moves use up its own work. *)
Lemma choice_main c s s' :
  Exec.choose c s = Some (Running s') →
  (c = Exec.MainActs ∧ (main_work s' < main_work s)%nat)
  ∨ (c ≠ Exec.MainActs ∧ at_main s' = at_main s ∧ stop_requested s' = stop_requested s).
Proof.
  intros E. destruct c; cbn [Exec.choose] in E; try case_decide; try done;
    try (right; by eapply handing_work; [exact E|intros x mine theirs _ ->]).
  - right. by apply resume_running in E as (a & c & _ & ->).
  - right. by apply resume_running in E as (a & c & _ & ->).
  - right. by apply resume_running in E as (a & c & _ & ->).
  - right. by apply resume_running in E as (a & c & _ & ->).
  - right. by injection E as <-.
  - left. split; [done|]. destruct (main_acts_work _ _ E) as [[? _]|[Ew _]]; [done|exfalso].
    unfold Exec.main_acts in E. unfold main_work in Ew. destruct (at_main s) as [|n] eqn:Em.
    + by destruct (g_shutdown_requested s); simplify_eq.
    + destruct (Main.shutdown_sequence !! n) as [a|] eqn:Eq; [|done].
      assert (at_main s' = Stopping (S n)) as Em'
        by (destruct a as [t|t|x]; [|case_decide|]; simplify_eq; by try destruct t).
      apply lookup_lt_Some in Eq. rewrite Em' in Ew. lia.
Qed.

Lemma flag_stays s s' :
  step (Running s) (Running s') → g_shutdown_requested s = true → g_shutdown_requested s' = true.
Proof. intros Hs Hf. step_cases Hs; try done. by destruct t. Qed.

Lemma outside_shutting s s' : outside s s' → shutting s' = shutting s.
Proof. intros [->|(w & _ & ->)]; unfold shutting; done. Qed.

Definition shutdown_begun base out p : Prop :=
  match p with Running s => live base out s ∧ g_shutdown_requested s = true | _ => False end.

Definition ended p : Prop :=
  match p with Running s => finished s | Terminated _ => True | Broken => False end.

Definition of_running {A} (d : A) (f : System W → A) p : A :=
  match p with Running s => f s | _ => d end.

(** Along the way: no step sets the shutdown back, and a move of the one whose
    turn it is brings it on. *)
Lemma asked_measure s s' :
  at_main s' = at_main s → stop_requested s' = stop_requested s → ¬ asked s →
  shutdown_measure s' = shutdown_measure s.
Proof.
  intros Em Es Ha. unfold shutdown_measure, main_work, asked in *. rewrite Em, Es.
  by rewrite !decide_False.
Qed.

Lemma main_step_measure s s' :
  asked s ∨ (main_work s' < main_work s)%nat → lex (work s') (work s) →
  (asked s → asked s') → lex (shutdown_measure s') (shutdown_measure s).
Proof.
  intros Hor Hlex Hk. unfold shutdown_measure.
  destruct (decide (asked s)) as [Ha|Ha]; [by rewrite decide_True by auto|].
  destruct Hor as [?|Hlt]; [done|]. destruct (decide (asked s')); left; by split.
Qed.

Lemma choice_shutdown base out c s s' :
  live base out s → Exec.choose c s = Some (Running s') → c ≠ Exec.Signal →
  lex (shutdown_measure s') (shutdown_measure s)
  ∨ ¬ asked s ∧ c ≠ Exec.MainActs
    ∧ shutdown_measure s' = shutdown_measure s ∧ shutting s' = shutting s.
Proof.
  intros Hl E Hc. assert (acts s (Running s')) as Hact by (by exists c).
  assert (asked s → asked s') as Hk by exact (asked_stays s (Running s') Hact).
  destruct (decide (asked s)) as [Ha|Ha].
  { left. apply main_step_measure; [by left| |done]. by apply (acts_work base out). }
  destruct (choice_main c s s' E) as [[-> Hlt]|(Hm & Em & Es)].
  - left. apply main_step_measure; [by right| |done]. by apply main_acts_work.
  - right. split; [done|]. split; [done|]. split; [by apply asked_measure|].
    assert (live base out s') as Hl' by (eapply live_step; [by eapply Exec.choose_step|done]).
    rewrite (unasked_shutting base out s) by done. apply (unasked_shutting base out); [done|].
    unfold asked. by rewrite Es.
Qed.

Lemma begun_step base out s s' :
  step (Running s) (Running s') → shutdown_begun base out (Running s) →
  shutdown_begun base out (Running s').
Proof. intros Hs [Hl Hf]. split; [by eapply live_step|by eapply flag_stays]. Qed.

(** After a step the process goes on, or it has ended as it may. *)
Lemma begun_or_ended base out s q (Q : System W → Prop) :
  step (Running s) q → shutdown_begun base out (Running s) →
  (∀ s', q = Running s' → shutdown_begun base out q → Q s') →
  ended q ∨ shutdown_begun base out q ∧ match q with Running s' => Q s' | _ => False end.
Proof.
  intros Hs Hb HQ. destruct q as [s'|e|]; [right|by left|].
  - pose proof (begun_step _ _ _ _ Hs Hb) as Hb'. split; [done|by apply HQ].
  - exfalso. exact (step_process_inv base out _ _ Hs (proj1 (proj1 Hb))).
Qed.

Lemma shutdown_comes base out σ : fair σ → leads_to σ (shutdown_begun base out) ended.
Proof.
  apply (fair_leads_to _ _ _ _ (of_running [] shutdown_measure) (of_running MainThread shutting)).
  - intros [s| |]; [|done..]. intros [Hl Hf].
    destruct (decide (at_main s = Stopping (length Main.shutdown_sequence))) as [?|Hn]; [by left|].
    right. by apply (shutting_can base out).
  - intros [s| |] q; [|done..]. intros Hb Hs. pose proof Hb as [Hl _].
    destruct (begun_or_ended base out s q (λ s',
      lex (shutdown_measure s') (shutdown_measure s)
      ∨ shutdown_measure s' = shutdown_measure s ∧ shutting s' = shutting s) Hs Hb)
      as [?|[Hb' Hq]]; [|by left|].
    + intros s' -> _. destruct (step_sides s _ Hs) as [(c & Hc & E)|(s1 & [= <-] & Ho)].
      * destruct (choice_shutdown base out c s s' Hl E Hc) as [?|(_ & _ & Em & Et)];
          [by left|by right].
      * right. destruct (outside_work _ _ Ho) as [Ew Es].
        split; [|by apply outside_shutting]. unfold shutdown_measure, asked. rewrite Ew, Es.
        unfold main_work. by rewrite (outsides_main s s' (rtc_once _ _ Ho)).
    + right. split; [done|]. by destruct q.
  - intros [s| |] q; [|done..]. intros Hb (s1 & c & [= <-] & Ho & E). pose proof Hb as [Hl _].
    apply Exec.choose_step in E as Hs.
    destruct (begun_or_ended base out s q (λ s', lex (shutdown_measure s') (shutdown_measure s))
      Hs Hb) as [?|[Hb' Hq]]; [|by left|].
    + intros s' -> _.
      destruct (choice_shutdown base out c s s' Hl E) as [?|(Ha & Hc & _)]; [by intros ->|done|].
      exfalso. cbn [of_running] in Ho. rewrite (unasked_shutting base out) in Ho by done.
      by destruct c.
    + right. split; [done|]. by destruct q.
Qed.

(** ** Schedules as fair runs *)

(** When everybody has come to an end, nobody can move. *)
Lemma ended_nobody s a :
  (∀ t, has_returned t s) → finished s → ¬ can_move moves a (Running s).
Proof.
  intros Hr Hf (q & s' & c & [= <-] & Ho & E).
  destruct (Hr Main.listener_thread) as [Hl [Hl1 Hl2]].
  destruct (Hr Main.parser_thread) as [Hp [Hp1 Hp2]].
  destruct (Hr Main.logic_thread) as [Hg Hg1]. pose proof (Hr Main.logger_thread) as Hw.
  assert (∀ T (pending shared : ThreadSafeQueue T) next,
    m_queue pending = [] → Exec.handing (W:=W) pending shared next ≠ Some q) as Hnone.
  { intros T pending shared next Hq. unfold Exec.handing, hand_over. by rewrite Hq. }
  destruct c; try done; cbn [Exec.choose] in E; try (by eapply Hnone; [|exact E]);
    try (rewrite decide_False in E by (cbn in *; tauto); done).
  unfold Exec.main_acts in E. by rewrite Hf in E.
Qed.

(** The run of a schedule that ends so. *)
Definition scheduled (cs : list Exec.choice) s (n : nat) : Process W :=
  Exec.schedule (take n cs) s.

Lemma scheduled_fair cs s s' :
  Exec.schedule cs s = Running s' → (∀ t, has_returned t s') → finished s' →
  fair (scheduled cs s).
Proof.
  intros E Hr Hf. apply (ended_run_fair _ _ _ (length cs)).
  - intros n. unfold scheduled. destruct (cs !! n) as [c|] eqn:Ec.
    + rewrite (take_S_r _ _ _ Ec), Exec.schedule_snoc.
      destruct (Exec.schedule (take n cs) s) as [s1| |]; [|by left..].
      destruct (Exec.choose c s1) as [q|] eqn:Eq; [|by left]. right. by eapply Exec.choose_step.
    + apply lookup_ge_None in Ec. left. by rewrite !take_ge by lia.
  - intros n Hn. unfold scheduled. by rewrite !take_ge by lia.
  - intros a. unfold scheduled. rewrite take_ge by done. rewrite E. by apply ended_nobody.
Qed.

End Fair.
