(* ===== verification/SystemServed.v ===== *)
(** * What is queued is taken

    In a fair run, until a shutdown is requested, a thread performs the pushes it
    has to perform ([Producer]) and takes what is queued for it ([Consumer]).
    Both are interfaces on the state of the whole program: the threads implement
    them, and the theorems on fair runs are proved against them. *)

From S2P Require Import Prelude Telemetry ThreadSafeQueue Worker RingBuffer Endian StreamingParser ParserCorrect ParserTheorems BusinessLogic AsyncLogger Posix Triples Listener ListenerOwnership Threads Main MainProperties System SystemInvariant SystemRefines SystemLive SystemExec SystemInevitable Fairness SystemFair.

Import System.

Section Served.
Context {W : Type} `{PosixWake W} `{Host}
  `{Hdec : !∀ ep (w : W), Decision (epoll_ready ep w)}.
Implicit Types (s : System W) (p q : Process W) (base : gset Z) (out : list string) (a : actor).

(** ** Before a shutdown is requested *)

(** As long as the signal has not come, [main] polls and nobody is stopped. *)
Record unasked s : Prop := {
  unasked_flag : g_shutdown_requested s = false;
  unasked_main : at_main s = Polling;
  unasked_stop : stop_requested s = ∅
}.

(** A state of a run, unasked unless the flag is set. *)
Record sound base out s : Prop := {
  sound_inv : sys_inv base out s;
  sound_unasked : g_shutdown_requested s = true ∨ unasked s
}.

Lemma unasked_stopping t s : unasked s → stopping t s = false.
Proof. intros [_ _ E]. unfold stopping. rewrite E. by apply bool_decide_eq_false. Qed.

Lemma unasked_choice c s s' :
  Exec.choose c s = Some (Running s') → unasked s → g_shutdown_requested s' = true ∨ unasked s'.
Proof.
  intros E [Hf Hm Hs]. destruct c; cbn [Exec.choose] in E; try case_decide; try done;
    try (right; by eapply handing_work; [exact E|intros x mine theirs _ ->]);
    try (right; by apply resume_running in E as (b & c & _ & ->)).
  - left. by injection E as <-.
  - unfold Exec.main_acts in E. by rewrite Hm, Hf in E.
Qed.

Lemma sound_step base out s s' :
  step (Running s) (Running s') → sound base out s → sound base out s'.
Proof.
  intros Hs [Hi Hu]. split; [by apply (step_process_inv base out _ _ Hs)|].
  destruct Hu as [Hf|Hu]; [left; by eapply flag_stays|].
  apply Exec.step_chosen in Hs as [[c E]|(w & _ & [= ->])]; [by eapply unasked_choice|].
  right. by destruct Hu.
Qed.

(** ** An actor brings about its goal *)

Section Drives.
Variables (base : gset Z) (out : list string) (a : actor).
Variables (I G : System W → Prop) (measure : System W → list nat).

(** Not yet there, and there or no longer to be expected. *)
Definition awaiting p : Prop :=
  match p with Running s => sound base out s ∧ unasked s ∧ I s | _ => False end.

Definition or_stopped p : Prop :=
  match p with
  | Running s => sound base out s ∧ (g_shutdown_requested s = true ∨ G s)
  | Terminated _ => True
  | Broken => False
  end.

Hypothesis others_keep : ∀ c s s',
  sound base out s → unasked s → I s → owner c ≠ Some a → c ≠ Exec.Signal →
  Exec.choose c s = Some (Running s') → I s' ∧ measure s' = measure s.
Hypothesis network_keeps : ∀ s w, I s → I (with_world w s) ∧ measure (with_world w s) = measure s.
Hypothesis own_advances : ∀ c s s',
  sound base out s → unasked s → I s → owner c = Some a →
  Exec.choose c s = Some (Running s') → G s' ∨ I s' ∧ lex (measure s') (measure s).
Hypothesis own_can : ∀ s, sound base out s → unasked s → I s → can_move moves a (Running s).

Lemma awaiting_step s q :
  step (Running s) q → awaiting (Running s) →
  match q with
  | Running s' => sound base out s' ∧ (g_shutdown_requested s' = true ∨ unasked s')
  | Terminated _ => True
  | Broken => False
  end.
Proof.
  intros Hs (Hso & _ & _). destruct q as [s'| |]; [|done|].
  - pose proof (sound_step _ _ _ _ Hs Hso) as Hso'. split; [done|apply Hso'].
  - exact (step_process_inv base out _ _ Hs (sound_inv _ _ _ Hso)).
Qed.

Lemma actor_drives σ : fair σ → leads_to σ awaiting or_stopped.
Proof.
  apply (fair_leads_to _ _ _ _ (of_running [] measure) (λ _, a)).
  - intros [s| |]; [|done..]. intros (Hso & Hu & Hi). right. by apply own_can.
  - intros [s| |] q; [|done..]. intros Haw Hs. pose proof (awaiting_step s q Hs Haw) as Hq.
    destruct Haw as (Hso & Hu & Hi). destruct q as [s'| |]; [|by left|done].
    destruct Hq as [Hso' [Hf|Hu']]; [left; by split; [|left]|].
    apply Exec.step_chosen in Hs as [[c E]|(w & _ & [= ->])].
    + destruct (decide (owner c = Some a)) as [Ho|Ho].
      * destruct (own_advances c s s') as [?|[Hi' Hlt]]; [done..|left; by split; [|right]|].
        right. split; [by split|by left].
      * destruct (others_keep c s s') as [Hi' Em]; try done.
        { intros ->. injection E as <-. by destruct Hu'. }
        right. split; [by split|by right].
    + destruct (network_keeps s w Hi) as [Hi' Em]. right. split; [by split|by right].
  - intros [s| |] q; [|done..]. intros Haw (s1 & c & [= <-] & Ho & E).
    apply Exec.choose_step in E as Hs. pose proof (awaiting_step s q Hs Haw) as Hq.
    destruct Haw as (Hso & Hu & Hi). destruct q as [s'| |]; [|by left|done].
    destruct Hq as [Hso' [Hf|Hu']]; [left; by split; [|left]|].
    destruct (own_advances c s s') as [?|[Hi' Hlt]]; [done..|left; by split; [|right]|].
    right. by split.
Qed.

End Drives.

(** What is brought about in turn. *)
Lemma then_drives base out σ (I G K : System W → Prop) :
  leads_to σ (awaiting base out I) (or_stopped base out G) →
  leads_to σ (awaiting base out G) (or_stopped base out K) →
  leads_to σ (awaiting base out I) (or_stopped base out K).
Proof.
  intros Hfst Hsnd n Hn. destruct (Hfst n Hn) as (m & Hm & Hp).
  destruct (σ m) as [s| |] eqn:E; [|exists m; by rewrite E|done].
  destruct Hp as [Hso [Hf|Hg]]; [exists m; rewrite E; by split; [|split; [|left]]|].
  destruct (sound_unasked _ _ _ Hso) as [Hf|Hu]; [exists m; rewrite E; by split; [|split; [|left]]|].
  destruct (Hsnd m) as (k & Hk & Hpost); [by rewrite E|]. exists k. split; [lia|done].
Qed.

(** What holds in [s] or is brought about. *)
Lemma unless_drives base out σ (I J G : System W → Prop) :
  (∀ s, sound base out s → J s → G s ∨ I s) →
  leads_to σ (awaiting base out I) (or_stopped base out G) →
  leads_to σ (awaiting base out J) (or_stopped base out G).
Proof.
  intros Hor Hl n Hn. destruct (σ n) as [s| |] eqn:E; [|done..].
  destruct Hn as (Hso & Hu & Hj). destruct (Hor s Hso Hj) as [Hg|Hi].
  - exists n. rewrite E. split; [lia|]. split; [done|by right].
  - destruct (Hl n) as (m & Hm & Hp); [by rewrite E|]. by exists m.
Qed.

Lemma or_stopped_weaken base out σ I (G K : System W → Prop) :
  (∀ s, sound base out s → G s → K s) →
  leads_to σ (awaiting base out I) (or_stopped base out G) →
  leads_to σ (awaiting base out I) (or_stopped base out K).
Proof.
  intros Hk. apply leads_to_weaken; [done|]. intros [s| |] Hp; [|done..].
  destruct Hp as [Hso [Hf|Hg]]; (split; [done|]); [by left|right; by apply Hk].
Qed.

(** ** Producers *)

(** A thread whose actions leave it pushes to perform, of which we follow those to
    one queue: [pushed] so far, and [unpushed] among all its [duties]. *)
Class Producer a := {
  pushed : System W → nat;
  unpushed : System W → nat;
  duties : System W → nat;
  unpushed_duties s : (unpushed s <= duties s)%nat;
  push_own base out c s s' :
    sys_inv base out s → (0 < duties s)%nat → owner c = Some a →
    Exec.choose c s = Some (Running s') →
    (duties s' < duties s)%nat ∧ (pushed s' + unpushed s' = pushed s + unpushed s)%nat;
  push_others base out c s s' :
    sys_inv base out s → owner c ≠ Some a → Exec.choose c s = Some (Running s') →
    pushed s' = pushed s ∧ unpushed s' = unpushed s ∧ duties s' = duties s;
  push_network s w :
    pushed (with_world w s) = pushed s ∧ unpushed (with_world w s) = unpushed s
    ∧ duties (with_world w s) = duties s;
  push_can base out s : sys_inv base out s → (0 < duties s)%nat → can_move moves a (Running s)
}.

(** A producer performs its pushes. *)
Lemma producer_pushes a `{!Producer a} base out N σ :
  fair σ →
  leads_to σ (awaiting base out (λ s, N <= pushed s + unpushed s)%nat)
             (or_stopped base out (λ s, N <= pushed s)%nat).
Proof.
  intros Hf.
  apply (unless_drives base out σ (λ s, pushed s < N <= pushed s + unpushed s)%nat);
    [intros s _ Hs; lia|].
  apply (actor_drives base out a _ _ (λ s, [duties s])); [..|done].
  - intros c s s' [Hi _] _ HI Ho _ E.
    destruct (push_others base out c s s' Hi Ho E) as (E1 & E2 & E3). by rewrite E1, E2, E3.
  - intros s w HI. destruct (push_network s w) as (E1 & E2 & E3). by rewrite E1, E2, E3.
  - intros c s s' [Hi _] _ HI Ho E. pose proof (unpushed_duties s).
    destruct (push_own base out c s s' Hi ltac:(lia) Ho E) as [Hlt Heq].
    destruct (decide (N <= pushed s')%nat); [by left|right]. split; [lia|by left].
  - intros s [Hi _] _ HI. pose proof (unpushed_duties s). eapply push_can; [exact Hi|lia].
Qed.

(** ** Consumers *)

(** How far a consumer is from popping. *)
Definition turns (a : pc) : nat := match a with Starting => 2 | Checking => 1 | _ => 0 end.

(** A thread that takes items off a queue, of which it has [taken] some while
    others are [waiting], and that has [chores] to do before its next action. *)
Class Consumer a := {
  place : System W → pc;
  taken : System W → nat;
  waiting : System W → nat;
  chores : System W → nat;
  consume_own base out c s s' :
    sys_inv base out s → unasked s → owner c = Some a → Exec.choose c s = Some (Running s') →
    (taken s' + waiting s' = taken s + waiting s)%nat
    ∧ ((chores s' < chores s)%nat ∧ place s' = place s ∧ taken s' = taken s
       ∨ ∃ n, consumer_turn false (place s) (place s') n ∧ taken s' = (n + taken s)%nat);
  consume_others base out c s s' :
    sys_inv base out s → unasked s → owner c ≠ Some a → Exec.choose c s = Some (Running s') →
    place s' = place s ∧ taken s' = taken s ∧ chores s' = chores s
    ∧ (waiting s <= waiting s')%nat;
  consume_network s w :
    place (with_world w s) = place s ∧ taken (with_world w s) = taken s
    ∧ chores (with_world w s) = chores s ∧ waiting (with_world w s) = waiting s;
  consume_runs base out s :
    sys_inv base out s → unasked s → place s ≠ Finishing ∧ place s ≠ Returned;
  consume_can base out s :
    sys_inv base out s → unasked s → (0 < waiting s)%nat → can_move moves a (Running s)
}.

(** A consumer takes what is queued for it. *)
Lemma consumer_takes a `{!Consumer a} base out N σ :
  fair σ →
  leads_to σ (awaiting base out (λ s, N <= taken s + waiting s)%nat)
             (or_stopped base out (λ s, N <= taken s)%nat).
Proof.
  intros Hf.
  apply (unless_drives base out σ (λ s, taken s < N <= taken s + waiting s)%nat);
    [intros s _ Hs; lia|].
  apply (actor_drives base out a _ _ (λ s, [N - taken s; turns (place s); chores s]%nat));
    [..|done].
  - intros c s s' [Hi _] Hu HI Ho _ E.
    destruct (consume_others base out c s s' Hi Hu Ho E) as (E1 & E2 & E3 & E4).
    rewrite E1, E2, E3. split; [lia|done].
  - intros s w HI. destruct (consume_network s w) as (E1 & E2 & E3 & E4). by rewrite E1, E2, E3, E4.
  - intros c s s' [Hi _] Hu HI Ho E.
    destruct (consume_own base out c s s' Hi Hu Ho E) as [Et Hown].
    destruct (consume_runs base out s Hi Hu) as [Hnf Hnr].
    destruct (decide (N <= taken s')%nat) as [?|Hn]; [by left|right]. split; [lia|].
    destruct Hown as [(Hlt & Ep & Ek)|(n & Hturn & Ek)].
    + rewrite Ep, Ek. do 2 (right; split; [done|]). by left.
    + inversion Hturn as [? E1 E2 E3|E1 E2 E3| |? E1 E2 E3| |? E1|? E1]; try congruence;
        rewrite <-?E1, <-?E2; subst n; cbn [turns].
      * right. split; [lia|]. left. split; [lia|done].
      * right. split; [lia|]. left. split; [lia|done].
      * left. split; [lia|done].
  - intros s [Hi _] Hu HI. eapply consume_can; [exact Hi|done|lia].
Qed.

End Served.
