(* ===== verification/SystemDelivery.v ===== *)
(** * The threads as producers and consumers, and delivery

    The listener produces chunks for the parser, the parser telemetry for the
    business logic; the parser, the business logic and the logger consume. Put
    together: in a fair run everything that has been read from the network is
    eventually handled, unless a shutdown is requested first, and every message
    that has been logged is written. *)

From S2P Require Import Prelude Telemetry ThreadSafeQueue Worker RingBuffer Endian Scan StreamingParser ParserCorrect ParserTheorems BusinessLogic LogicCorrect AsyncLogger Posix Triples Listener ListenerOwnership ListenerChunks ListenerTrace Traffic Threads Main MainProperties System SystemInvariant SystemTypes SystemTrace SystemRefines SystemLive SystemExec SystemInevitable Fairness SystemFair SystemServed.

Import System.

(** Prefixes of one list are comparable. *)
Lemma prefix_shorter {A} (l k m : list A) :
  l `prefix_of` m → k `prefix_of` m → (length l <= length k)%nat → l `prefix_of` k.
Proof.
  intros Hl Hk Hlen. destruct (prefix_weak_total l k m Hl Hk) as [?|Hkl]; [done|].
  by rewrite (prefix_length_eq k l).
Qed.

Section Delivery.
Context {W : Type} `{PosixWake W} `{!PosixBursts W} `{Host}
  `{Hdec : !∀ ep (w : W), Decision (epoll_ready ep w)}.
Implicit Types (s : System W) (base : gset Z) (out : list string).

(** ** Case analysis on a choice *)

(** What [main] changes. *)
Lemma main_acts_changes s s' :
  Exec.main_acts s = Some (Running s') →
  ∃ m ts o w, s' = with_main m ts (with_stdout o (with_world w s)).
Proof.
  assert (s = with_stdout (stdout s) (with_world (world s) s)) as Heta by (by destruct s).
  unfold Exec.main_acts. destruct (at_main s) as [|n].
  - destruct (g_shutdown_requested s); intros [= <-]. by eexists _, _, (stdout s), (world s); f_equal.
  - destruct (Main.shutdown_sequence !! n) as [[t|t|x]|]; [|case_decide| |]; intros; simplify_eq.
    + unfold request_stop_of. destruct t.
      * by eexists _, _, (stdout s), _.
      * by eexists _, _, (stdout s), (world s).
      * by eexists _, _, (stdout s), (world s).
      * by eexists _, _, (stdout s), (world s).
    + by eexists _, _, (stdout s), (world s).
    + by eexists _, _, _, (world s).
Qed.

(** ** Producers *)

#[export, refine] Instance listener_produces : Producer (W:=W) (ThreadOf Main.listener_thread) := {
  pushed s := length (chunks s);
  unpushed s := length (m_queue (Listener.m_queue (network_listener s)));
  duties := listener_pending
}.
Proof.
  - intros s. unfold listener_pending. lia.
  - intros base out c s s' _ Hp Ho E. destruct c; try done; cbn [Exec.choose] in E.
    + case_decide as Hd; [|done]. destruct Hd as (_ & [Hi1 Hi2] & _).
      unfold listener_pending in Hp. rewrite Hi1, Hi2 in Hp. cbn in Hp. lia.
    + apply Exec.handing_some in E as (x & mine & theirs & E & [= ->]).
      apply handed_shorter in E. unfold listener_pending. cbn. rewrite length_app. cbn. lia.
    + apply Exec.handing_some in E as (x & mine & theirs & E & [= ->]).
      apply handed_shorter in E. unfold listener_pending. cbn. lia.
  - intros base out c s s' _ Ho E. destruct c; try done; cbn [Exec.choose] in E; try case_decide; try done.
    + by apply resume_running in E as (b & c & _ & ->).
    + by apply resume_running in E as (b & c & _ & ->).
    + by apply resume_running in E as (b & c & _ & ->).
    + by apply Exec.handing_some in E as (x & mine & theirs & E & [= ->]).
    + by apply Exec.handing_some in E as (x & mine & theirs & E & [= ->]).
    + by apply Exec.handing_some in E as (x & mine & theirs & E & [= ->]).
    + by injection E as <-.
    + by apply main_acts_changes in E as (m & ts & o & w & ->).
  - done.
  - intros base out s. apply listener_pushes.
Defined.

(** The chunks the parser has taken, and the telemetry it has made of them. *)
Definition parser_taken s : list DataChunk :=
  take (length (chunks s) - length (m_queue (m_raw_queue (parser s)))) (chunks s).
Definition telemetry_made s : list Telemetry := delivered (effects (parser_taken s)).

Lemma taken_flow base out s :
  sys_inv base out s → ∃ handled, data_flow (parser_taken s) handled s.
Proof.
  intros [_ _ (taken & handled & Hd) _ _]. exists handled. pose proof Hd as [D1 _ _ _ _].
  enough (parser_taken s = taken) as -> by done. unfold parser_taken. rewrite D1, length_app.
  replace (_ + _ - _)%nat with (length taken) by lia. apply take_app_length.
Qed.

(** The telemetry is handled, waiting, or yet to be pushed. *)
Lemma made_flow base out s :
  sys_inv base out s →
  ∃ handled, logic_ok handled (business_logic s)
    ∧ telemetry_made s = handled ++ m_queue (BusinessLogic.m_parsed_queue (business_logic s))
                           ++ m_queue (m_parsed_queue (parser s)).
Proof. intros (handled & [_ _ D3 D4 _])%taken_flow. by exists handled. Qed.

Lemma made_length base out s :
  sys_inv base out s →
  (length (m_queue (BusinessLogic.m_parsed_queue (business_logic s)))
   + length (m_queue (m_parsed_queue (parser s))) <= length (telemetry_made s))%nat.
Proof. intros (handled & _ & ->)%made_flow. rewrite !length_app. lia. Qed.

Lemma chunks_length base out s :
  sys_inv base out s → (length (m_queue (m_raw_queue (parser s))) <= length (chunks s))%nat.
Proof. intros [_ _ (taken & handled & [-> _ _ _ _]) _ _]. rewrite length_app. lia. Qed.

(** A push to the data queue is not yet taken. *)
Lemma queues_taken s c mine theirs :
  (length (m_queue (m_raw_queue (parser s))) <= length (chunks s))%nat →
  m_queue theirs = m_queue (m_raw_queue (parser s)) ++ [c] →
  parser_taken (with_history (chunks s ++ [c]) (messages s)
    (with_parser (at_parser s) (set_raw_queue theirs (parser s))
      (with_listener (at_listener s) (Listener.set_queue mine (network_listener s), world s) s)))
  = parser_taken s.
Proof.
  intros Hle E. unfold parser_taken. cbn [chunks parser with_history with_parser m_raw_queue set_raw_queue].
  rewrite E, !length_app. cbn [length].
  replace (length (chunks s) + 1 - (length (m_queue (m_raw_queue (parser s))) + 1))%nat
    with (length (chunks s) - length (m_queue (m_raw_queue (parser s))))%nat by lia.
  apply take_app_le. lia.
Qed.

(** The parser's action makes what it leaves to be pushed. *)
Lemma action_made base out s a' p' :
  sys_inv base out s → at_parser s ≠ Returned → parser_idle s →
  parser_action tt (stopping Main.parser_thread s) (at_parser s) (parser s) = (Ok a', p') →
  telemetry_made (with_parser a' p' s) = telemetry_made s ++ m_queue (m_parsed_queue p')
  ∧ ∃ n, consumer_turn (stopping Main.parser_thread s) (at_parser s) a' n
      ∧ length (m_queue (m_raw_queue (parser s))) = (n + length (m_queue (m_raw_queue p')))%nat.
Proof.
  intros Hi Ha [Hi1 Hi2] E. destruct (taken_flow _ _ _ Hi) as (handled & [D1 D2 _ _ _]).
  destruct (parser_action_ok _ _ _ (stopping Main.parser_thread s) D2 Hi1 Hi2 Ha)
    as [(E' & _)|(a1 & new & p1 & E' & [A1 A2 A3 A4 A5])]; rewrite E' in E; simplify_eq.
  split.
  - unfold telemetry_made. rewrite <-A3. do 2 f_equal. unfold parser_taken at 1.
    cbn [chunks parser with_parser]. rewrite D1, A1, app_assoc, (length_app _ (m_queue (m_raw_queue p'))).
    replace (_ + _ - _)%nat with (length (parser_taken s ++ new)) by lia. apply take_app_length.
  - exists (length new). split; [done|]. by rewrite A1, length_app.
Qed.

#[export, refine] Instance parser_produces : Producer (W:=W) (ThreadOf Main.parser_thread) := {
  pushed s := (length (telemetry_made s) - length (m_queue (m_parsed_queue (parser s))))%nat;
  unpushed s := length (m_queue (m_parsed_queue (parser s)));
  duties := parser_pending
}.
Proof.
  - intros s. unfold parser_pending. lia.
  - intros base out c s s' Hi Hp Ho E. pose proof (made_length _ _ _ Hi).
    destruct c; try done; cbn [Exec.choose] in E.
    + case_decide as Hd; [|done]. destruct Hd as (_ & [Hi1 Hi2]).
      unfold parser_pending in Hp. rewrite Hi1, Hi2 in Hp. cbn in Hp. lia.
    + apply Exec.handing_some in E as (x & mine & theirs & E & [= ->]).
      apply handed_shorter in E. unfold parser_pending. cbn in *.
      change (telemetry_made _) with (telemetry_made s). lia.
    + apply Exec.handing_some in E as (x & mine & theirs & E & [= ->]).
      apply handed_shorter in E. unfold parser_pending. cbn in *.
      change (telemetry_made _) with (telemetry_made s). lia.
  - intros base out c s s' Hi Ho E. destruct c; try done; cbn [Exec.choose] in E; try case_decide; try done.
    + by apply resume_running in E as (b & c & _ & ->).
    + by apply resume_running in E as (b & c & _ & ->).
    + by apply resume_running in E as (b & c & _ & ->).
    + apply Exec.handing_some in E as (x & mine & theirs & E & [= ->]).
      apply hand_over_some in E as (_ & E & _). unfold telemetry_made.
      rewrite (queues_taken s x mine theirs) by (done || by eapply chunks_length). done.
    + by apply Exec.handing_some in E as (x & mine & theirs & E & [= ->]).
    + by apply Exec.handing_some in E as (x & mine & theirs & E & [= ->]).
    + by injection E as <-.
    + by apply main_acts_changes in E as (m & ts & o & w & ->).
  - done.
  - intros base out s. apply parser_pushes.
Defined.

(** ** Consumers *)

Lemma unasked_place base out s t a :
  sys_inv base out s → unasked s →
  (t, a) ∈ [(Main.parser_thread, at_parser s); (Main.logic_thread, at_logic s);
            (Main.logger_thread, at_logger s)] → a ≠ Finishing ∧ a ≠ Returned.
Proof.
  intros [_ _ _ _ Hk] [_ _ Hs] Hin. split; intros Ha;
    (assert (t ∈ stop_requested s) as Ht by (apply (Hk t a Hin); auto); rewrite Hs in Ht; set_solver).
Qed.

(** A consumer with something in its queue has work. *)
Lemma waiting_work {T} a stop (queue : ThreadSafeQueue T) :
  a ≠ Returned → (0 < length (m_queue queue))%nat → has_work a stop queue.
Proof. intros Ha Hq. split; [done|]. intros _. right. by apply not_nil_length. Qed.

#[export, refine] Instance parser_consumes : Consumer (W:=W) (ThreadOf Main.parser_thread) := {
  place := at_parser;
  taken s := (length (chunks s) - length (m_queue (m_raw_queue (parser s))))%nat;
  waiting s := length (m_queue (m_raw_queue (parser s)));
  chores := parser_pending
}.
Proof.
  - intros base out c s s' Hi Hu Ho E. pose proof (chunks_length _ _ _ Hi).
    destruct c; try done; cbn [Exec.choose] in E.
    + case_decide as Hd; [|done]. destruct Hd as (Ha & Hidle).
      apply resume_running in E as (a' & p' & E & ->).
      destruct (action_made _ _ _ _ _ Hi Ha Hidle E) as [_ (n & Ht & Hq)].
      rewrite unasked_stopping in Ht by done. cbn. split; [lia|]. right. exists n. split; [done|lia].
    + apply Exec.handing_some in E as (x & mine & theirs & E & [= ->]).
      apply handed_shorter in E. split; [done|]. left. unfold parser_pending. cbn. split; [lia|done].
    + apply Exec.handing_some in E as (x & mine & theirs & E & [= ->]).
      apply handed_shorter in E. split; [done|]. left. unfold parser_pending. cbn. split; [lia|done].
  - intros base out c s s' Hi _ Ho E. pose proof (chunks_length _ _ _ Hi).
    destruct c; try done; cbn [Exec.choose] in E; try case_decide; try done.
    + by apply resume_running in E as (b & c & _ & ->).
    + by apply resume_running in E as (b & c & _ & ->).
    + by apply resume_running in E as (b & c & _ & ->).
    + apply Exec.handing_some in E as (x & mine & theirs & E & [= ->]).
      apply hand_over_some in E as (_ & E & _). cbn. rewrite E, !length_app. cbn.
      split; [done|]. split; [lia|]. split; [done|lia].
    + by apply Exec.handing_some in E as (x & mine & theirs & E & [= ->]).
    + by apply Exec.handing_some in E as (x & mine & theirs & E & [= ->]).
    + by injection E as <-.
    + by apply main_acts_changes in E as (m & ts & o & w & ->).
  - done.
  - intros base out s Hi Hu. apply (unasked_place base out s Main.parser_thread); [done..|set_solver].
  - intros base out s Hi Hu Hw.
    destruct (Nat.eq_0_gt_0_cases (parser_pending s)) as [Hp|Hp]; [|by eapply parser_pushes].
    apply (parser_works base out); [done|done|]. apply waiting_work; [|done].
    apply (unasked_place base out s Main.parser_thread); [done..|set_solver].
Defined.

#[export, refine] Instance logic_consumes : Consumer (W:=W) (ThreadOf Main.logic_thread) := {
  place := at_logic;
  taken s := (length (telemetry_made s) - length (m_queue (m_parsed_queue (parser s)))
              - length (m_queue (BusinessLogic.m_parsed_queue (business_logic s))))%nat;
  waiting s := length (m_queue (BusinessLogic.m_parsed_queue (business_logic s)));
  chores := logic_pending
}.
Proof.
  - intros base out c s s' Hi Hu Ho E. pose proof (made_length _ _ _ Hi).
    destruct c; try done; cbn [Exec.choose] in E.
    + case_decide as Hd; [|done]. destruct Hd as (Ha & Hidle).
      apply resume_running in E as (a' & l' & E & ->).
      destruct (made_flow _ _ _ Hi) as (handled & D4 & _).
      destruct (logic_action_ok handled _ now _ (stopping Main.logic_thread s) D4 Hidle Ha)
        as [(E' & _)|(a1 & new & l1 & E' & [A1 _ A3 _])]; rewrite E' in E; simplify_eq.
      rewrite unasked_stopping in A3 by done.
      apply (f_equal length) in A1. rewrite length_app in A1.
      change (telemetry_made (with_logic a' l' s)) with (telemetry_made s). cbn.
      split; [lia|]. right. exists (length new). split; [done|lia].
    + apply Exec.handing_some in E as (x & mine & theirs & E & [= ->]).
      apply handed_shorter in E. split; [done|]. left. unfold logic_pending. cbn. split; [lia|done].
  - intros base out c s s' Hi _ Ho E. pose proof (made_length _ _ _ Hi).
    destruct c; try done; cbn [Exec.choose] in E; try case_decide as Hd; try done.
    + by apply resume_running in E as (b & c & _ & ->).
    + destruct Hd as (Ha & Hidle). apply resume_running in E as (a' & p' & E & ->).
      destruct (action_made _ _ _ _ _ Hi Ha Hidle E) as [Em _]. destruct Hidle as [Hidle _].
      rewrite Em, length_app. cbn. rewrite Hidle. cbn. split; [done|]. split; [lia|done].
    + by apply resume_running in E as (b & c & _ & ->).
    + apply Exec.handing_some in E as (x & mine & theirs & E & [= ->]).
      apply hand_over_some in E as (_ & E & _). unfold telemetry_made.
      rewrite (queues_taken s x mine theirs) by (done || by eapply chunks_length). done.
    + apply Exec.handing_some in E as (x & mine & theirs & E & [= ->]).
      apply handed_shorter in E as Hlen. apply hand_over_some in E as (_ & E & _).
      change (telemetry_made (with_logic _ _ _)) with (telemetry_made s). cbn.
      rewrite E, length_app. cbn. split; [done|]. split; [lia|]. split; [done|lia].
    + by apply Exec.handing_some in E as (x & mine & theirs & E & [= ->]).
    + by apply Exec.handing_some in E as (x & mine & theirs & E & [= ->]).
    + by injection E as <-.
    + by apply main_acts_changes in E as (m & ts & o & w & ->).
  - done.
  - intros base out s Hi Hu. apply (unasked_place base out s Main.logic_thread); [done..|set_solver].
  - intros base out s Hi Hu Hw.
    destruct (Nat.eq_0_gt_0_cases (logic_pending s)) as [Hp|Hp]; [|by eapply logic_pushes].
    apply (logic_works base out); [done|done|]. apply waiting_work; [|done].
    apply (unasked_place base out s Main.logic_thread); [done..|set_solver].
Defined.

(** The logger has no pushes of its own; it writes what it takes. *)
#[export, refine] Instance logger_consumes : Consumer (W:=W) (ThreadOf Main.logger_thread) := {
  place := at_logger;
  taken s := length (AsyncLogger.cout (async_logger s));
  waiting s := length (m_queue (AsyncLogger.m_log_queue (async_logger s)));
  chores _ := 0%nat
}.
Proof.
  - intros base out c s s' Hi Hu Ho E. destruct c; try done; cbn [Exec.choose] in E.
    case_decide as Ha; [|done]. apply resume_running in E as (a' & l' & E & ->).
    destruct (logger_action_ok (async_logger s) _ (stopping Main.logger_thread s) Ha)
      as [(E' & _)|(a1 & l1 & E' & [A1 _ (n & A3 & A4) _ _])]; rewrite E' in E; simplify_eq.
    rewrite unasked_stopping in A3 by done.
    apply (f_equal length) in A1. rewrite !length_app in A1.
    cbn. split; [lia|]. right. exists n. split; [done|lia].
  - intros base out c s s' Hi _ Ho E. destruct c; try done; cbn [Exec.choose] in E; try case_decide; try done.
    + by apply resume_running in E as (b & c & _ & ->).
    + by apply resume_running in E as (b & c & _ & ->).
    + by apply resume_running in E as (b & c & _ & ->).
    + by apply Exec.handing_some in E as (x & mine & theirs & E & [= ->]).
    + by apply Exec.handing_some in E as (x & mine & theirs & E & [= ->]).
    + apply Exec.handing_some in E as (x & mine & theirs & E & [= ->]).
      apply hand_over_some in E as (_ & E & _). cbn. rewrite E, length_app. do 3 (split; [done|]). lia.
    + apply Exec.handing_some in E as (x & mine & theirs & E & [= ->]).
      apply hand_over_some in E as (_ & E & _). cbn. rewrite E, length_app. do 3 (split; [done|]). lia.
    + apply Exec.handing_some in E as (x & mine & theirs & E & [= ->]).
      apply hand_over_some in E as (_ & E & _). cbn. rewrite E, length_app. do 3 (split; [done|]). lia.
    + by injection E as <-.
    + by apply main_acts_changes in E as (m & ts & o & w & ->).
  - done.
  - intros base out s Hi Hu. apply (unasked_place base out s Main.logger_thread); [done..|set_solver].
  - intros base out s Hi Hu Hw. apply logger_works. apply waiting_work; [|done].
    apply (unasked_place base out s Main.logger_thread); [done..|set_solver].
Defined.

(** ** Messages are written *)

Lemma step_messages s s' : step (Running s) (Running s') → messages s `prefix_of` messages s'.
Proof.
  intros Hs. step_cases Hs; try done; try (by apply prefix_app_r). by destruct t.
Qed.

Lemma reachable_messages s s' :
  rtc step (Running s) (Running s') → messages s `prefix_of` messages s'.
Proof.
  intros Hr. apply (running_invariant (λ s1, messages s `prefix_of` messages s1) s s'); [|done..].
  intros s1 s2 Hs Hp. etransitivity; [exact Hp|by apply step_messages].
Qed.

(** What the logger has written once it has taken as many messages as there
    were. *)
Lemma taken_writes base out s ms :
  sys_inv base out s → ms `prefix_of` messages s →
  (length (out ++ ms) <= taken (Consumer:=logger_consumes) s)%nat →
  out ++ ms `prefix_of` AsyncLogger.cout (async_logger s).
Proof.
  intros [_ _ _ [L1 _ _] _] Hms Hlen. eapply prefix_shorter; [by apply prefix_app| |exact Hlen].
  rewrite L1. by apply prefix_app_r.
Qed.

(** The messages that there are in [s] are written, unless a shutdown comes. *)
Lemma messages_written base out (σ : nat → Process W) n s :
  fair σ → σ n = Running s → sound base out s →
  ∃ m, (n <= m)%nat ∧
    match σ m with
    | Running s' => g_shutdown_requested s' = true
        ∨ (messages s `prefix_of` messages s' →
           out ++ messages s `prefix_of` AsyncLogger.cout (async_logger s'))
    | Terminated _ => True
    | Broken => False
    end.
Proof.
  intros Hf En Hso. destruct (sound_unasked _ _ _ Hso) as [Hflag|Hu].
  { exists n. rewrite En. split; [lia|by left]. }
  destruct (consumer_takes (ThreadOf Main.logger_thread) base out (length (out ++ messages s)) σ Hf n)
    as (m & Hm & Hp).
  { rewrite En. split; [done|]. split; [done|]. pose proof Hso as [[_ _ _ [L1 _ _] _] _].
    apply (f_equal length) in L1. rewrite (length_app (AsyncLogger.cout _)) in L1. cbn. lia. }
  exists m. split; [done|]. destruct (σ m) as [s'|e|]; [|done..].
  destruct Hp as [[Hi _] [?|Ht]]; [by left|right]. intros Hms. by eapply taken_writes.
Qed.

End Delivery.

(** ** Everything is delivered *)

Section Delivered.
Context {W : Type} `{PosixTrace W} `{!PosixBursts W} `{Host}
  `{Hdec : !∀ ep (w : W), Decision (epoll_ready ep w)}.
Implicit Types (s : System W) (base : gset Z) (out : list string) (es : list traffic).

(** A sound state of a run, with its chunks where they belong, that has read
    [es]. *)
Record traced base out es s : Prop := {
  traced_sound : sound base out s;
  traced_fit : chunks_fit s;
  traced_forwarded : forwarded s;
  traced_since : es `prefix_of` transcript (world s)
}.

Lemma traced_step base out es s s' :
  step (Running s) (Running s') → traced base out es s → traced base out es s'.
Proof.
  intros Hs [Hso Hfit Hfw Hes]. pose proof Hso as [Hi _]. split.
  - by eapply sound_step.
  - by eapply step_chunks_fit.
  - by eapply step_forwarded.
  - etransitivity; [exact Hes|by eapply step_transcript].
Qed.

Definition traced_process base out es (p : Process W) : Prop :=
  match p with Running s => traced base out es s | Terminated _ => True | Broken => False end.

Lemma fair_traced base out es (σ : nat → Process W) n m :
  fair σ → traced_process base out es (σ n) → (n <= m)%nat → traced_process base out es (σ m).
Proof.
  intros Hf Hn Hm. eapply (fair_invariant _ _ σ _ n m Hf); [|exact Hn|exact Hm].
  intros [s|e|] [s'|e'|] Hs Hp; try done; try (by inversion Hs); [by eapply traced_step|].
  exact (step_process_inv base out _ _ Hs (sound_inv _ _ _ (traced_sound _ _ _ _ Hp))).
Qed.

(** The chunks of what had been read are the first ones. *)
Lemma traced_chunks base out es s :
  traced base out es s →
  map chunk_of es `prefix_of` chunks s ++ m_queue (Listener.m_queue (network_listener s)).
Proof.
  intros [_ _ [_ Hc] [k Hk]]. rewrite <-Hc, Hk, map_app. by apply prefix_app_r.
Qed.

(** Once the parser has taken as many chunks as had been read, it has made the
    telemetry in them. *)
Lemma taken_makes base out es s :
  traced base out es s → (length es <= length (parser_taken s))%nat →
  delivered (effects (map chunk_of es)) `prefix_of` telemetry_made s.
Proof.
  intros Ht Hlen. pose proof Ht as [[Hi _] _ _ _].
  destruct (taken_flow _ _ _ Hi) as (handled & [D1 _ _ _ _]).
  assert (map chunk_of es `prefix_of` parser_taken s) as [k Hk].
  { eapply prefix_shorter; [exact (traced_chunks _ _ _ _ Ht)| |by rewrite length_map].
    rewrite D1, <-app_assoc. by apply prefix_app_r. }
  unfold telemetry_made. rewrite Hk. unfold effects.
  rewrite abs_run_app. cbn [fst]. rewrite map_app, delivered_app. by apply prefix_app_r.
Qed.

Lemma taken_length base out s :
  sys_inv base out s →
  length (parser_taken s) = (length (chunks s) - length (m_queue (m_raw_queue (parser s))))%nat.
Proof. intros Hi. unfold parser_taken. rewrite length_take. lia. Qed.

(** What has been read comes to the parser, and what has been made of it to the
    business logic. *)
Lemma chunks_come base out (σ : nat → Process W) N :
  fair σ →
  leads_to σ
    (awaiting base out (λ s, N <= length (chunks s)
       + length (m_queue (Listener.m_queue (network_listener s))))%nat)
    (or_stopped base out (λ s, N <= length (parser_taken s))%nat).
Proof.
  intros Hf. eapply then_drives;
    [exact (producer_pushes (ThreadOf Main.listener_thread) base out N σ Hf)|].
  eapply (or_stopped_weaken base out σ _ (λ s, N <= taken (Consumer:=parser_consumes) s)%nat).
  - intros s [Hi _] HN. by rewrite (taken_length _ _ _ Hi).
  - eapply unless_drives; [|exact (consumer_takes (ThreadOf Main.parser_thread) base out N σ Hf)].
    intros s [Hi _] HN. right. pose proof (chunks_length _ _ _ Hi). cbn in *. lia.
Qed.

Lemma telemetry_comes base out (σ : nat → Process W) N :
  fair σ →
  leads_to σ
    (awaiting base out (λ s, N <= length (telemetry_made s))%nat)
    (or_stopped base out (λ s, N <= taken (Consumer:=logic_consumes) s)%nat).
Proof.
  intros Hf. eapply (unless_drives base out σ
    (λ s, N <= pushed (Producer:=parser_produces) s + unpushed (Producer:=parser_produces) s)%nat).
  - intros s [Hi _] HN. right. pose proof (made_length _ _ _ Hi). cbn. lia.
  - eapply then_drives; [exact (producer_pushes (ThreadOf Main.parser_thread) base out N σ Hf)|].
    eapply unless_drives; [|exact (consumer_takes (ThreadOf Main.logic_thread) base out N σ Hf)].
    intros s [Hi _] HN. right. pose proof (made_length _ _ _ Hi). cbn in *. lia.
Qed.

(** The telemetry that the clients had sent by the time they had been read up to
    [es], all handled. *)
Definition handled_all es s : Prop :=
  ∃ parsed handled,
    worked_off (map snd (heard (transcript (world s))).1) parsed handled s
    ∧ received (map snd (heard es).1) `prefix_of` handled.

Lemma heard_made base out es s :
  traced base out es s →
  received (map snd (heard es).1) = delivered (effects (map chunk_of es)).
Proof.
  intros [_ Hfit Hfw [k Hk]]. pose proof (proper_transcript s Hfw Hfit) as Hproper.
  rewrite Hk in Hproper. apply Forall_app in Hproper as [Hproper _].
  symmetry. apply (heard_parsed es Hproper).
Qed.

(** Once the business logic has taken as much telemetry as was in it. *)
Lemma taken_handles base out es s :
  traced base out es s → (length es <= length (parser_taken s))%nat →
  (length (received (map snd (heard es).1)) <= taken (Consumer:=logic_consumes) s)%nat →
  handled_all es s.
Proof.
  intros Ht Hes Hlen. pose proof (taken_makes _ _ _ _ Ht Hes) as Hp.
  pose proof Ht as [[Hi _] Hfit Hfw [k Hk]].
  destruct (taken_flow _ _ _ Hi) as (handled & Hd).
  destruct (flow_worked_off _ handled s Hd Hfit Hfw) as (parsed & Hw).
  exists parsed, handled. split; [done|].
  rewrite <-(heard_made base out es s Ht) in Hp. pose proof (flow_telemetry _ _ _ Hd) as Hmade. fold (telemetry_made s) in Hmade.
  eapply prefix_shorter; [exact Hp|rewrite Hmade; by apply prefix_app_r|].
  cbn in Hlen. apply (f_equal length) in Hmade. rewrite !length_app in Hmade. lia.
Qed.

(** The parser does not give back what it has taken. *)
Lemma step_taken base out s s' :
  sys_inv base out s → step (Running s) (Running s') →
  (length (parser_taken s) <= length (parser_taken s'))%nat.
Proof.
  intros Hinv Hs. pose proof (chunks_length _ _ _ Hinv).
  step_cases Hs; try (unfold parser_taken; cbn; rewrite !length_take; lia).
  - destruct (action_made _ _ _ _ _ Hinv Ha Hi E) as [_ (n & _ & Hq)].
    unfold parser_taken. cbn. rewrite !length_take. lia.
  - apply hand_over_some in E as (_ & E & _). by rewrite (queues_taken s x mine theirs) by done.
  - destruct t; unfold parser_taken; cbn; rewrite !length_take; lia.
Qed.

Lemma fair_taken base out es N (σ : nat → Process W) n m s s' :
  fair σ → (n <= m)%nat → σ n = Running s → σ m = Running s' → traced base out es s →
  (N <= length (parser_taken s))%nat → traced base out es s' ∧ (N <= length (parser_taken s'))%nat.
Proof.
  intros Hf Hm En Em Ht HN.
  set (P := λ p : Process W, traced_process base out es p
    ∧ match p with Running s => (N <= length (parser_taken s))%nat | _ => True end).
  enough (P (σ m)) as [HP ?] by (rewrite Em in *; done).
  apply (fair_invariant _ _ σ P n m Hf); [|by rewrite En|done].
  intros [s1|e|] [s2|e'|] Hs [Hp HN1]; try done; try (by inversion Hs).
  - split; [by eapply traced_step|]. destruct Hp as [[Hi _] _ _ _].
    pose proof (step_taken base out s1 s2 Hi Hs). lia.
  - exfalso. exact (step_process_inv base out _ _ Hs (sound_inv _ _ _ (traced_sound _ _ _ _ Hp))).
Qed.

(** What had been read when the run was in [s] is handled. *)
Lemma fair_delivers base out (σ : nat → Process W) n s :
  fair σ → σ n = Running s → traced base out (transcript (world s)) s →
  ∃ m, (n <= m)%nat ∧
    match σ m with
    | Running s' => g_shutdown_requested s' = true ∨ handled_all (transcript (world s)) s'
    | Terminated _ => True
    | Broken => False
    end.
Proof.
  intros Hf En Ht. set (es := transcript (world s)) in *. pose proof Ht as [Hso _ [_ Hc] _].
  destruct (sound_unasked _ _ _ Hso) as [Hflag|Hu].
  { exists n. rewrite En. split; [lia|by left]. }
  destruct (chunks_come base out σ (length es) Hf n) as (m & Hm & Hp).
  { rewrite En. split; [done|]. split; [done|]. unfold es. apply (f_equal length) in Hc.
    rewrite length_map, length_app in Hc. lia. }
  assert (traced_process base out es (σ m)) as Htm
    by (eapply fair_traced; [exact Hf| |exact Hm]; by rewrite En).
  destruct (σ m) as [s1|e|] eqn:Em; [|exists m; by rewrite Em|done].
  destruct Hp as [Hso1 [Hflag|HN]]; [exists m; rewrite Em; split; [done|by left]|].
  destruct (sound_unasked _ _ _ Hso1) as [Hflag|Hu1]; [exists m; rewrite Em; split; [done|by left]|].
  destruct (telemetry_comes base out σ (length (received (map snd (heard es).1))) Hf m)
    as (k & Hk & Hp).
  { rewrite Em. split; [done|]. split; [done|]. apply prefix_length.
    rewrite (heard_made base out es s1 Htm). by apply (taken_makes base out es s1). }
  destruct (σ k) as [s2|e|] eqn:Ek; [|exists k; rewrite Ek; split; [lia|done]|done].
  exists k. rewrite Ek. split; [lia|].
  destruct Hp as [_ [Hflag|HK]]; [by left|right].
  destruct (fair_taken base out es (length es) σ m k s1 s2 Hf Hk Em Ek Htm HN) as [Ht2 HN2].
  by apply (taken_handles base out).
Qed.

End Delivered.
