(* ===== verification/SystemLog.v ===== *)
(** * The log of the whole program

    Every message begins with the name of what it is about, which tells its
    author. What the parser and the business logic have logged is, line by line,
    what their references say for the chunks and the telemetry they have taken;
    the rest of the log is the listener's. *)

From S2P Require Import Prelude Telemetry ThreadSafeQueue Worker RingBuffer Endian Scan StreamingParser ParserCorrect ParserTheorems BusinessLogic LogicCorrect AsyncLogger Posix Triples Listener ListenerWalk ListenerLines Threads Main System SystemInvariant SystemDelivery.

Import System.

(** ** Authors *)

Inductive author := ByListener | ByParser | ByLogic.

#[export] Instance author_eq_dec : EqDecision author.
Proof. solve_decision. Defined.

Fixpoint starts_with (p m : string) : bool :=
  match p, m with
  | EmptyString, _ => true
  | String a p, String b m => Ascii.eqb a b && starts_with p m
  | _, _ => false
  end.

Definition author_of (m : string) : option author :=
  if starts_with "[NetworkListener] " m then Some ByListener
  else if starts_with "[StreamingParser] " m then Some ByParser
  else if starts_with "[BusinessLogic] " m || starts_with "[ALERT] " m
          || starts_with "[Throughput] " m then Some ByLogic
  else None.

Definition by_author (a : author) (m : string) : bool := bool_decide (author_of m = Some a).

(** The lines of one author. *)
Definition lines_by (a : author) (ms : list string) : list string := List.filter (by_author a) ms.

Lemma lines_by_snoc a ms m :
  lines_by a (ms ++ [m]) = lines_by a ms ++ (if by_author a m then [m] else []).
Proof. unfold lines_by. rewrite List.filter_app. cbn. by destruct (by_author a m). Qed.

Abbreviation written_by a := (λ m, author_of m = Some a) (only parsing).

Lemma own_line_author m : own_line m → author_of m = Some ByListener.
Proof. by intros [rest ->]. Qed.

(** *** The parser's *)

Definition tagged (e : effect) : Prop :=
  match e with Log text => author_of text = Some ByParser | _ => True end.

Lemma events_tagged es : Forall tagged (events_effects es).
Proof.
  unfold events_effects. apply Forall_bind, Forall_true. intros []; by repeat constructor.
Qed.

Lemma abs_run_tagged ls cs : Forall tagged (map snd (abs_run ls cs).1).
Proof.
  revert ls. induction cs as [|c cs IH]; intros ls; [constructor|].
  rewrite abs_run_cons. cbn [fst]. rewrite map_app, map_snd_pair. apply Forall_app.
  split; [|apply IH]. unfold abs_chunk. destruct (data c) as [|b bytes]; [by repeat constructor|].
  destruct (_ <? _); [by repeat constructor|]. destruct (scan _) as [es rest]. apply events_tagged.
Qed.

Lemma logged_tagged es : Forall tagged es → Forall (written_by ByParser) (logged es).
Proof.
  induction 1 as [|e es He Hes IH]; [constructor|]. destruct e as [| |text]; [exact IH..|].
  by constructor.
Qed.

Lemma parser_lines_author a taken : Forall (written_by ByParser) (parser_lines a taken).
Proof.
  pose proof (logged_tagged _ (abs_run_tagged ∅ taken)) as He. fold (effects taken) in He.
  destruct a; cbn; repeat constructor; try done. apply Forall_app. by split; [|repeat constructor].
Qed.

(** *** The business logic's *)

(** What it has logged after the packets [xs], each with its time. *)
Definition logic_lines (start : Z) (xs : list (Z * Telemetry)) : list string :=
  BusinessLogic.running_text :: lines start start 0 [] xs.

Definition last_line (start stop : Z) (ts : list Telemetry) : string :=
  BusinessLogic.summary_text (u64 (zlen ts)) (drones ts)
    (BusinessLogic.rate (u64 (zlen ts)) (BusinessLogic.seconds (stop - start))).

Lemma alerts_author t : Forall (written_by ByLogic) (alerts t).
Proof. unfold alerts. destruct (exceeds 120 _), (exceeds 50 _); by repeat constructor. Qed.

Lemma lines_author start last window seen xs :
  Forall (written_by ByLogic) (lines start last window seen xs).
Proof.
  revert last window seen. induction xs as [|[now t] xs IH]; intros last window seen; [constructor|].
  cbn [lines]. apply Forall_app. split; [apply alerts_author|].
  destruct (within_interval last now); [apply IH|]. by constructor; [|apply IH].
Qed.

Lemma logic_lines_author start xs : Forall (written_by ByLogic) (logic_lines start xs).
Proof. constructor; [done|apply lines_author]. Qed.

(** ** One action of the business logic *)

(** Its members after the packets [r] has seen, whatever has been pushed. *)
Definition in_step (start : Z) (r : reference) (l : BusinessLogic.BusinessLogic) : Prop :=
  follows start [] (mkRef (seen r) (last_report r) (reported r)
    (m_queue (BusinessLogic.m_log_queue l))) l.

Definition replay (start : Z) (xs : list (Z * Telemetry)) : reference :=
  foldl (ref_step start) (mkRef [] start 0 []) xs.

Lemma replay_lines start xs :
  written (replay start xs) = lines start start 0 [] xs ∧ seen (replay start xs) = map snd xs.
Proof.
  unfold replay. destruct (ref_lines start (mkRef [] start 0 []) xs) as [-> ->].
  cbn [written seen reported last_report app]. by rewrite (@zlen_nil Telemetry), Z.sub_0_r.
Qed.

(** It has handled [handled] and logged [said], up to a point of its thread. *)
Definition logic_said (a : pc) (handled : list Telemetry) (said : list string)
    (l : BusinessLogic.BusinessLogic) : Prop :=
  match a with
  | Starting => handled = [] ∧ said = [] ∧ ∃ start last, in_step start (mkRef [] last 0 []) l
  | Checking | Popping | Finishing => ∃ start xs,
      handled = map snd xs ∧ said = logic_lines start xs ∧ in_step start (replay start xs) l
  | Returned => ∃ start xs stop,
      handled = map snd xs ∧ said = logic_lines start xs ++ [last_line start stop handled]
  end.

Lemma logic_said_author a handled said l :
  logic_said a handled said l → Forall (written_by ByLogic) said.
Proof.
  destruct a; cbn [logic_said]; [by intros (_ & -> & _)| | | |].
  1-3: intros (start & xs & _ & -> & _); apply logic_lines_author.
  intros (start & xs & stop & _ & ->). apply Forall_app.
  split; [apply logic_lines_author|by repeat constructor].
Qed.

(** What one packet adds does not depend on what was written before. *)
Lemma ref_step_adds start r x :
  ∃ new, ref_step start (mkRef (seen r) (last_report r) (reported r) []) x
         = mkRef (seen (ref_step start r x)) (last_report (ref_step start r x))
             (reported (ref_step start r x)) new
    ∧ written (ref_step start r x) = written r ++ new.
Proof.
  destruct x as [now t]. unfold ref_step. cbn [seen last_report reported].
  destruct (within_interval (last_report r) now); eexists; split; done.
Qed.

Lemma in_step_queues start r l l' :
  in_step start r l →
  l' = BusinessLogic.set_parsed_queue (BusinessLogic.m_parsed_queue l')
         (BusinessLogic.set_log_queue (BusinessLogic.m_log_queue l') l) →
  m_max_size (BusinessLogic.m_log_queue l') = m_max_size (BusinessLogic.m_log_queue l) →
  in_step start r l'.
Proof. intros [H1 _ H3 H4 H5 H6 H7] -> Hm. split; cbn in *; try done. by rewrite <-Hm in H1. Qed.

Lemma logic_said_queues a handled said l l' :
  logic_said a handled said l →
  l' = BusinessLogic.set_parsed_queue (BusinessLogic.m_parsed_queue l')
         (BusinessLogic.set_log_queue (BusinessLogic.m_log_queue l') l) →
  m_max_size (BusinessLogic.m_log_queue l') = m_max_size (BusinessLogic.m_log_queue l) →
  logic_said a handled said l'.
Proof.
  intros Hs E Hm. destruct a; cbn [logic_said] in *.
  - destruct Hs as (-> & -> & start & last & Hi). split_and!; [done..|]. exists start, last.
    by apply (in_step_queues _ _ l).
  - naive_solver eauto using in_step_queues.
  - naive_solver eauto using in_step_queues.
  - naive_solver eauto using in_step_queues.
  - done.
Qed.

(** One packet. *)
Lemma handle_said start xs now t l :
  in_step start (replay start xs) l → m_queue (BusinessLogic.m_log_queue l) = [] →
  ∃ l', BusinessLogic.handle_telemetry now t l = (Ok tt, l')
    ∧ BusinessLogic.m_parsed_queue l' = BusinessLogic.m_parsed_queue l
    ∧ in_step start (replay start (xs ++ [(now, t)])) l'
    ∧ logic_lines start (xs ++ [(now, t)])
      = logic_lines start xs ++ m_queue (BusinessLogic.m_log_queue l').
Proof.
  intros Hi Hq. unfold in_step in Hi. rewrite Hq in Hi.
  destruct (handle_telemetry_ok _ _ _ _ now t Hi) as (l' & E & Hf & Hp).
  exists l'. split; [done|]. split; [done|].
  destruct (ref_step_adds start (replay start xs) (now, t)) as (new & Er & Ew). rewrite Er in Hf.
  assert (replay start (xs ++ [(now, t)]) = ref_step start (replay start xs) (now, t)) as Es
    by (unfold replay; by rewrite foldl_app).
  pose proof (follows_log _ _ _ _ Hf) as Hl. cbn [app written] in Hl. split.
  - unfold in_step. by rewrite Es, Hl.
  - unfold logic_lines. rewrite <-!(proj1 (replay_lines _ _)), Es, Ew, Hl. done.
Qed.

Lemma logic_action_said now stop a handled said l a' l' :
  logic_said a handled said l → m_queue (BusinessLogic.m_log_queue l) = [] → a ≠ Returned →
  logic_action now stop a l = (Ok a', l') →
  ∃ new, m_queue (BusinessLogic.m_parsed_queue l) = new ++ m_queue (BusinessLogic.m_parsed_queue l')
    ∧ logic_said a' (handled ++ new) (said ++ m_queue (BusinessLogic.m_log_queue l')) l'.
Proof.
  intros Hs Hq Ha E. unfold logic_action in E. destruct a; [| | | |done].
  - destruct Hs as (-> & -> & start & last & Hi). pose proof (follows_unbounded _ _ _ _ Hi) as Hu.
    unfold consumer_action in E. rewrite (M_bind_ok _ _ _ _ _ (start_up_ok now l Hu)) in E.
    injection E as <- <-. exists []. split; [done|]. exists now, []. split_and!; [done| |].
    + cbn. by rewrite Hq.
    + destruct Hi as [H1 _ H3 H4 H5 H6 H7]. by split.
  - destruct Hs as (start & xs & -> & -> & Hi). injection E as <- <-. exists []. split; [done|].
    rewrite Hq, !app_nil_r. destruct stop; exists start, xs; done.
  - destruct Hs as (start & xs & -> & -> & Hi).
    destruct (m_queue (BusinessLogic.m_parsed_queue l)) as [|t rest] eqn:Eq.
    { rewrite popping_empty in E by done. destruct stop; [|done]. injection E as <- <-.
      exists []. split; [by cbn; rewrite Eq|]. cbn. rewrite Hq, !app_nil_r.
      exists start, xs. split_and!; [done..|]. by apply (in_step_queues _ _ l); [|destruct l|]. }
    set (l1 := BusinessLogic.set_parsed_queue
      (mkQueue rest (m_max_size (BusinessLogic.m_parsed_queue l))) l).
    destruct (handle_said start xs now t l1) as (l2 & E2 & Hp & Hi2 & Hl);
      [by apply (in_step_queues _ _ l)|done|].
    erewrite popping_item in E; [|exact Eq|exact E2]. injection E as <- <-.
    exists [t]. split; [by rewrite Hp|]. exists start, (xs ++ [(now, t)]).
    by rewrite map_app, <-Hl.
  - destruct Hs as (start & xs & -> & -> & Hi). pose proof (follows_unbounded _ _ _ _ Hi) as Hu.
    unfold consumer_action in E. rewrite (M_bind_ok _ _ _ _ _ (shut_down_ok now l Hu)) in E.
    injection E as <- <-. exists []. split; [done|]. exists start, xs, now.
    rewrite app_nil_r. split; [done|]. unfold add_lines, last_line, BusinessLogic.active_drone_count.
    cbn [BusinessLogic.m_log_queue BusinessLogic.set_log_queue m_queue]. rewrite Hq.
    destruct Hi as [_ _ H3 H4 H5 _ _]. cbn [seen] in *.
    rewrite H3, H4, H5, size_latest, (proj2 (replay_lines _ _)). done.
Qed.

(** ** The whole program *)

Section Log.
Context {W : Type} `{PosixWake W} `{Host}.
Implicit Types (s : System W).

(** The telemetry the business logic has taken. *)
Definition logic_taken s : list Telemetry :=
  take (length (telemetry_made s)
        - (length (m_queue (BusinessLogic.m_parsed_queue (business_logic s)))
           + length (m_queue (m_parsed_queue (parser s))))) (telemetry_made s).

(** It is determined by what is made and what is queued. *)
Lemma logic_taken_is s handled :
  telemetry_made s = handled ++ m_queue (BusinessLogic.m_parsed_queue (business_logic s))
                       ++ m_queue (m_parsed_queue (parser s)) →
  logic_taken s = handled.
Proof.
  intros E. unfold logic_taken. rewrite E, <-length_app, (length_app handled).
  replace (_ + _ - _)%nat with (length handled) by lia. apply take_app_length.
Qed.

Lemma logic_taken_flow base out s :
  sys_inv base out s →
  telemetry_made s = logic_taken s ++ m_queue (BusinessLogic.m_parsed_queue (business_logic s))
                       ++ m_queue (m_parsed_queue (parser s)).
Proof. intros (handled & _ & E)%made_flow. by rewrite (logic_taken_is _ _ E). Qed.

(** What has been logged and what is yet to be pushed, author by author. *)
Record logs s : Prop := {
  logs_listener : own_lines (network_listener s);
  logs_start : at_parser s = Starting → parser_taken s = [];
  logs_parser :
    lines_by ByParser (messages s) ++ m_queue (m_log_queue (parser s))
    = parser_lines (at_parser s) (parser_taken s);
  logs_logic :
    logic_said (at_logic s) (logic_taken s)
      (lines_by ByLogic (messages s) ++ m_queue (BusinessLogic.m_log_queue (business_logic s)))
      (business_logic s);
  logs_authors : Forall (λ m, is_Some (author_of m)) (messages s)
}.

(** The listener acts. *)
Lemma listener_logs s fuel stop a' lw' :
  logs s →
  listener_action fuel stop (at_listener s) (network_listener s, world s) = (Ok a', lw') →
  logs (with_listener a' lw' s).
Proof.
  intros [L1 L2 L3 L4 L5] E. split; [|done..]. cbn [network_listener with_listener].
  pose proof (preserves_listener_action stays_own fuel stop (at_listener s)
    signs_setup_server_socket signs_setup_epoll signs_waker (signs_event_step _ _)) as Ht.
  specialize (Ht (network_listener s, world s) L1). by rewrite E in Ht.
Qed.

(** The parser acts. *)
Lemma parser_logs base out s a' p' :
  sys_inv base out s → logs s → at_parser s ≠ Returned → parser_idle s →
  parser_action tt (stopping Main.parser_thread s) (at_parser s) (parser s) = (Ok a', p') →
  logs (with_parser a' p' s).
Proof.
  intros Hi [L1 L2 L3 L4 L5] Ha Hidle E. pose proof Hidle as [Hi1 Hi2].
  pose proof (logic_taken_flow _ _ _ Hi) as Hmade. rewrite Hi1, app_nil_r in Hmade.
  destruct (action_made _ _ _ _ _ Hi Ha Hidle E) as [Hm _].
  destruct (taken_flow _ _ _ Hi) as (handled & [D1 D2 _ _ _]).
  destruct (parser_action_ok _ _ _ (stopping Main.parser_thread s) D2 Hi1 Hi2 Ha)
    as [(E' & _)|(a1 & new & p1 & E' & [A1 A2 A3 A4 A5 A6])]; rewrite E' in E; simplify_eq.
  assert (parser_taken (with_parser a' p' s) = parser_taken s ++ new) as Ht.
  { unfold parser_taken at 1. cbn [chunks parser with_parser].
    rewrite D1, A1, app_assoc, (length_app _ (m_queue (m_raw_queue p'))).
    replace (_ + _ - _)%nat with (length (parser_taken s ++ new)) by lia. apply take_app_length. }
  split; [done| | | |done].
  - rewrite Ht. cbn [at_parser with_parser]. intros ->. inversion A4; subst; done.
  - rewrite Ht. cbn [at_parser parser messages with_parser]. rewrite A6 by done.
    by rewrite <-L3, Hi2, app_nil_r.
  - rewrite (logic_taken_is _ (logic_taken s)); [exact L4|]. rewrite Hm, Hmade.
    cbn [business_logic parser with_parser]. by rewrite <-app_assoc.
Qed.

(** The business logic acts. *)
Lemma logic_logs base out s now a' l' :
  sys_inv base out s → logs s → at_logic s ≠ Returned → logic_idle s →
  logic_action now (stopping Main.logic_thread s) (at_logic s) (business_logic s) = (Ok a', l') →
  logs (with_logic a' l' s).
Proof.
  intros Hi [L1 L2 L3 L4 L5] Ha Hidle E. pose proof (logic_taken_flow _ _ _ Hi) as Hmade.
  rewrite Hidle, app_nil_r in L4.
  destruct (logic_action_said _ _ _ _ _ _ _ _ L4 Hidle Ha E) as (new & Hq & Hs).
  split; [done..| |done]. rewrite (logic_taken_is _ (logic_taken s ++ new)); [exact Hs|].
  change (telemetry_made (with_logic a' l' s)) with (telemetry_made s). rewrite Hmade, Hq.
  cbn [business_logic parser with_logic]. by rewrite <-!app_assoc.
Qed.

(** A line is its author's and nobody else's. *)
Lemma lines_by_own a ms m : author_of m = Some a → lines_by a (ms ++ [m]) = lines_by a ms ++ [m].
Proof.
  intros Hm. rewrite lines_by_snoc. unfold by_author. by rewrite bool_decide_eq_true_2.
Qed.

Lemma lines_by_other a b ms m :
  author_of m = Some b → a ≠ b → lines_by a (ms ++ [m]) = lines_by a ms.
Proof.
  intros Hm Hab. rewrite lines_by_snoc. unfold by_author.
  rewrite bool_decide_eq_false_2, app_nil_r by naive_solver. done.
Qed.

Lemma authors_snoc ms m b :
  author_of m = Some b → Forall (λ m, is_Some (author_of m)) ms →
  Forall (λ m, is_Some (author_of m)) (ms ++ [m]).
Proof. intros Hm Hms. apply Forall_app. split; [done|]. constructor; [by exists b|constructor]. Qed.

(** What is pending has its author too. *)
Lemma pending_author a ms m rest :
  Forall (written_by a) (lines_by a ms ++ m :: rest) → author_of m = Some a.
Proof. intros Hf. apply Forall_app in Hf as [_ Hf]. by apply Forall_cons in Hf as [? _]. Qed.

(** Pushes. *)
Lemma queued_logs base out s c mine theirs :
  sys_inv base out s → logs s →
  hand_over (Listener.m_queue (network_listener s)) (m_raw_queue (parser s)) = Some (c, mine, theirs) →
  logs (with_history (chunks s ++ [c]) (messages s)
    (with_parser (at_parser s) (set_raw_queue theirs (parser s))
      (with_listener (at_listener s) (Listener.set_queue mine (network_listener s), world s) s))).
Proof.
  intros Hi [L1 L2 L3 L4 L5] (_ & E & _)%hand_over_some.
  pose proof (queues_taken s c mine theirs ltac:(by eapply chunks_length) E) as Ht.
  split; [done|rewrite Ht; exact L2|rewrite Ht; exact L3| |done].
  unfold logic_taken, telemetry_made. rewrite Ht. exact L4.
Qed.

Lemma delivered_logs base out s x mine theirs :
  sys_inv base out s → logs s →
  hand_over (m_parsed_queue (parser s)) (BusinessLogic.m_parsed_queue (business_logic s))
    = Some (x, mine, theirs) →
  logs (with_logic (at_logic s) (BusinessLogic.set_parsed_queue theirs (business_logic s))
    (with_parser (at_parser s) (set_parsed_queue mine (parser s)) s)).
Proof.
  intros Hi [L1 L2 L3 L4 L5] (E1 & E2 & _)%hand_over_some.
  pose proof (logic_taken_flow _ _ _ Hi) as Hmade. rewrite E1 in Hmade.
  set (s' := with_logic _ _ _). assert (logic_taken s' = logic_taken s) as Ht.
  { apply logic_taken_is. change (telemetry_made s') with (telemetry_made s). rewrite Hmade.
    cbn [business_logic parser with_logic with_parser BusinessLogic.m_parsed_queue
      BusinessLogic.set_parsed_queue m_parsed_queue set_parsed_queue s'].
    by rewrite E2, <-!app_assoc. }
  split; [done..| |done]. rewrite Ht.
  apply (logic_said_queues _ _ _ (business_logic s)); [exact L4| |done].
  by destruct (business_logic s).
Qed.

Lemma listener_pushed_logs s m mine theirs :
  logs s →
  hand_over (Listener.m_log_queue (network_listener s)) (AsyncLogger.m_log_queue (async_logger s))
    = Some (m, mine, theirs) →
  logs (with_history (chunks s) (messages s ++ [m])
    (with_logger (at_logger s) (AsyncLogger.set_log_queue theirs (async_logger s))
      (with_listener (at_listener s)
         (Listener.set_log_queue mine (network_listener s), world s) s))).
Proof.
  intros [L1 L2 L3 L4 L5] (E & _)%hand_over_some. unfold own_lines in L1. rewrite E in L1.
  apply Forall_cons in L1 as [Hm%own_line_author L1].
  split; cbn [messages with_history]; [done|done| | |by eapply authors_snoc];
    by rewrite (lines_by_other _ _ _ _ Hm).
Qed.

Lemma parser_pushed_logs s m mine theirs :
  logs s →
  hand_over (m_log_queue (parser s)) (AsyncLogger.m_log_queue (async_logger s))
    = Some (m, mine, theirs) →
  logs (with_history (chunks s) (messages s ++ [m])
    (with_logger (at_logger s) (AsyncLogger.set_log_queue theirs (async_logger s))
      (with_parser (at_parser s) (set_log_queue mine (parser s)) s))).
Proof.
  intros [L1 L2 L3 L4 L5] (E & _)%hand_over_some. rewrite E in L3.
  assert (author_of m = Some ByParser) as Hm.
  { eapply pending_author. rewrite L3. apply parser_lines_author. }
  split; cbn [messages with_history]; [done|done| | |by eapply authors_snoc].
  - rewrite (lines_by_own _ _ _ Hm), <-app_assoc. exact L3.
  - by rewrite (lines_by_other _ _ _ _ Hm).
Qed.

Lemma logic_pushed_logs s m mine theirs :
  logs s →
  hand_over (BusinessLogic.m_log_queue (business_logic s))
    (AsyncLogger.m_log_queue (async_logger s)) = Some (m, mine, theirs) →
  logs (with_history (chunks s) (messages s ++ [m])
    (with_logger (at_logger s) (AsyncLogger.set_log_queue theirs (async_logger s))
      (with_logic (at_logic s) (BusinessLogic.set_log_queue mine (business_logic s)) s))).
Proof.
  intros [L1 L2 L3 L4 L5] (E & _ & Hmax & _)%hand_over_some. rewrite E in L4.
  assert (author_of m = Some ByLogic) as Hm.
  { eapply pending_author. by eapply logic_said_author. }
  split; cbn [messages with_history]; [done|done| | |by eapply authors_snoc].
  - by rewrite (lines_by_other _ _ _ _ Hm).
  - rewrite (lines_by_own _ _ _ Hm), <-app_assoc.
    apply (logic_said_queues _ _ _ (business_logic s)); [exact L4| |done].
    by destruct (business_logic s).
Qed.

Lemma step_logs base out s s' :
  sys_inv base out s → step (Running s) (Running s') → logs s → logs s'.
Proof.
  intros Hinv Hs Hl. pose proof Hl as [L1 L2 L3 L4 L5].
  step_cases Hs; try (by split).
  - by eapply listener_logs.
  - by eapply parser_logs.
  - by eapply logic_logs.
  - by eapply queued_logs.
  - by eapply delivered_logs.
  - by apply listener_pushed_logs.
  - by apply parser_pushed_logs.
  - by apply logic_pushed_logs.
  - destruct t; by split.
Qed.

(** ** Along a run *)

Lemma boot_logs `{AsyncLogger.Filesystem} arguments out (w : W) s :
  boot arguments out w = Ok s → logs s.
Proof.
  intros (port & path & logger & _ & _ & ->)%boot_cases.
  split; [constructor|done|done| |constructor]. split_and!; [done..|]. exists 0, 0. by split.
Qed.

Lemma reachable_logs base out s s' :
  sys_inv base out s → rtc step (Running s) (Running s') → logs s → logs s'.
Proof.
  intros Hi Hr Hl. enough (sys_inv base out s' ∧ logs s') as [_ ?] by done.
  apply (running_invariant (λ s, sys_inv base out s ∧ logs s) s s'); [|exact Hr|done].
  intros s1 s2 Hs [Hi1 Hl1]. split; [by apply (step_process_inv base out _ _ Hs)|].
  by eapply step_logs.
Qed.

(** ** The business logic's log, whole *)

(** All that it will have logged when it stops at [stop]. *)
Definition logic_log (start stop : Z) (xs : list (Z * Telemetry)) : list string :=
  logic_lines start xs ++ [last_line start stop (map snd xs)].

Lemma logic_said_log a handled said l :
  logic_said a handled said l →
  ∃ start stop xs, handled = map snd xs
    ∧ said `prefix_of` logic_log start stop xs ∧ (a = Returned → said = logic_log start stop xs).
Proof.
  unfold logic_log. destruct a; cbn [logic_said].
  2-4: intros (start & xs & -> & -> & _); exists start, 0, xs;
    (split_and!; [done|by apply prefix_app_r|done]).
  - intros (-> & -> & _). exists 0, 0, []. split_and!; [done|by apply prefix_nil|done].
  - intros (start & xs & stop & -> & ->). by exists start, stop, xs.
Qed.

End Log.
