(* ===== verification/SystemProperties.v ===== *)
(** * Properties of the whole program

    What every run guarantees, whatever the network and the scheduler do: no
    undefined behaviour and no lost data, well-typed state, buffers that never
    overflow, the shutdown specification of [Main.v], and a shutdown that can
    always be completed and that leaves nothing behind. *)

From S2P Require Import Prelude ByteBuffer RingBuffer Telemetry ThreadSafeQueue Worker Endian Scan StreamingParser ParserCorrect ParserTheorems BusinessLogic LogicCorrect AsyncLogger LoggerProperties Posix Triples Listener ListenerOwnership ListenerChunks ToyKernel Threads Main MainProperties System SystemInvariant SystemTypes SystemRefines SystemOutput SystemLive SystemExec SystemInevitable.

Import System.

Section Properties.
Context {W : Type} `{PosixWake W} `{Host} `{AsyncLogger.Filesystem}.
Implicit Types (s : System W) (w : W) (out : list string).

(** Started with [arguments] on the machine [w], with [out] already on stdout,
    the program starts its threads in [s0] and comes to [q]. *)
Record run_of (arguments : list string) out w s0 (q : Process W) : Prop := {
  run_boots : boot arguments out w = Ok s0;
  run_steps : rtc step (Running s0) q
}.

Lemma run_inv arguments out w s0 q :
  run_of arguments out w s0 q → process_inv (open_fds w) (stdout s0) q.
Proof. intros [Hb Hr]. eapply reachable_inv_process; [exact Hr|by eapply boot_inv]. Qed.

Lemma run_abstracts arguments out w s0 s :
  run_of arguments out w s0 (Running s) → ∃ p, Main.reachable p ∧ abstracts (stdout s0) s p.
Proof.
  intros [Hb Hr]. apply (reachable_abstracts (open_fds w) (stdout s0) s0 Main.launched s Hr);
    [by eapply boot_inv|by eapply boot_abstracts].
Qed.

Lemma run_live arguments out w s0 s :
  run_of arguments out w s0 (Running s) → live (open_fds w) (stdout s0) s.
Proof. intros Hr. split; [exact (run_inv _ _ _ _ _ Hr)|by eapply run_abstracts]. Qed.

Lemma run_fits arguments out w s0 s :
  run_of arguments out w s0 (Running s) → chunks_fit s.
Proof. intros [Hb Hr]. eapply reachable_chunks_fit; [exact Hr|by eapply boot_chunks_fit]. Qed.

(** What is in the log file of the program, and what of the messages to come
    gets there. *)
Definition log_file s : list string := AsyncLogger.disk (AsyncLogger.m_log_file (async_logger s)).
Definition logged s (ms : list string) : list string :=
  on_disk (AsyncLogger.fates (AsyncLogger.m_log_file (async_logger s))) ms.
Definition log_file_open s : Prop := AsyncLogger.is_open (AsyncLogger.m_log_file (async_logger s)) = true.

(** An exception that ends the process comes from the listener's set-up. *)
Lemma run_terminates arguments out w s0 e :
  run_of arguments out w s0 (Terminated e) →
  ∃ s lw, run_of arguments out w s0 (Running s) ∧ at_listener s = SettingUp
    ∧ listener_action 0 false SettingUp (network_listener s, world s) = (Throw e, lw).
Proof.
  intros [Hb Hr]. apply rtc_inv_r in Hr as [Heq|(q & Hq & Hs)]; [done|].
  destruct q as [s|e'|]; [|inversion Hs..].
  assert (run_of arguments out w s0 (Running s)) as Hrun by done.
  destruct (throws_in_setup _ _ s e (run_inv _ _ _ _ _ Hrun) Hs) as [Ha [lw E]].
  by exists s, lw.
Qed.

(** At the end everybody has returned and the logger has written everything. *)
Lemma run_finished arguments out w s0 s :
  run_of arguments out w s0 (Running s) → finished s →
  (∀ t, has_returned t s) ∧ AsyncLogger.cout (async_logger s) = stdout s0 ++ messages s.
Proof.
  intros Hr Hf.
  destruct (live_shutdown _ _ _ (run_live _ _ _ _ _ Hr)) as (p & Hp & [[A1 A2 A3 A4 A5] Hret]).
  destruct (finished_complete p Hp) as (Hall & Hw & Hq).
  { unfold Main.finished. rewrite A1. by rewrite Hf. }
  split; [intros t; apply Hret, Hall|]. by rewrite A5, Hw, A4.
Qed.

Lemma finished_stdout arguments out w s0 s :
  run_of arguments out w s0 (Running s) → finished s →
  AsyncLogger.cout (async_logger s) = stdout s0 ++ messages s →
  ∃ port path tail, Main.command_line arguments = Ok (port, path)
    ∧ stdout s = out ++ Main.banner port path ++ tail
    ∧ woven [Main.sigint_text; Main.goodbye_text] (messages s) tail.
Proof.
  intros [Hb Hr] Hf Hcout.
  destruct (reachable_stdout _ _ _ Hr (boot_stdout _ _ _ _ Hb)) as (ms & tail & [Hms Hall Hw]).
  rewrite Hms in Hcout. apply (inj (app _)) in Hcout as ->.
  destruct (boot_cases _ _ _ _ Hb) as (port & path & logger & Hc & _ & Hs0).
  exists port, path, tail. split; [done|]. split; [by rewrite Hall, Hs0, app_assoc|].
  by rewrite Hf in Hw.
Qed.

Lemma finished_log_file arguments out w s0 s :
  run_of arguments out w s0 (Running s) →
  AsyncLogger.cout (async_logger s) = stdout s0 ++ messages s →
  log_file_open s → log_file s = log_file s0 ++ logged s0 (messages s).
Proof.
  intros [Hb Hr] Hcout Hopen. destruct (boot_log_written _ _ _ _ Hb) as [Hw Hf].
  destruct (reachable_log_written _ _ _ _ Hr Hw) as [ms [Hms Hfile]].
  rewrite Hms in Hcout. apply (inj (app _)) in Hcout as <-.
  unfold log_file, logged, log_file_open in *. rewrite Hfile in Hopen |- *.
  destruct (AsyncLogger.is_open (AsyncLogger.m_log_file (async_logger s0))) eqn:E; [|congruence].
  by rewrite mirrored_disk.
Qed.

(** C1: the program as a whole. Whatever the scheduler, the kernel and the
    clients do, and however the four threads interleave: there is no undefined
    behaviour; the process ends by an uncaught exception only if the listener's
    set-up throws it; and in every other state nothing that was queued is lost,
    duplicated or reordered. The chunks queued by the listener are those the
    parser has taken and those in the data queue; what the parser delivered of
    those it has taken is what the business logic has handled, followed by what
    is still on its way; drone table and packet counter are those of the
    telemetry handled, and the failure counter that of the chunks taken; and
    the messages logged are those the logger has written to stdout and those in
    the log queue. *)
Theorem program_loses_nothing arguments out w s0 q :
  run_of arguments out w s0 q →
  match q with
  | Running s => ∃ taken handled,
      chunks s = taken ++ m_queue (m_raw_queue (parser s))
      ∧ delivered (effects taken)
        = handled ++ m_queue (BusinessLogic.m_parsed_queue (business_logic s))
          ++ m_queue (m_parsed_queue (parser s))
      ∧ BusinessLogic.m_drones (business_logic s) = latest handled
      ∧ BusinessLogic.m_packets_processed (business_logic s) = u64 (zlen handled)
      ∧ m_crc_failures (parser s) = u64 (counted (effects taken))
      ∧ stdout s0 ++ messages s
        = AsyncLogger.cout (async_logger s) ++ m_queue (AsyncLogger.m_log_queue (async_logger s))
  | Terminated e => ∃ s lw,
      run_of arguments out w s0 (Running s) ∧ at_listener s = SettingUp
      ∧ listener_action 0 false SettingUp (network_listener s, world s) = (Throw e, lw)
  | Broken => False
  end.
Proof.
  intros Hr. pose proof (run_inv _ _ _ _ _ Hr) as Hinv.
  destruct q as [s|e|]; [|by apply run_terminates|done].
  destruct Hinv as [_ _ (taken & handled & [D1 D2 D3 [_ (? & ? & ? & D4)] _]) [L1 _ _] _].
  exists taken, handled. split_and!; [done|done| | | |done].
  - by rewrite (follows_drones _ _ _ _ D4).
  - by rewrite (follows_processed _ _ _ _ D4).
  - apply (parser_failures _ _ D2).
Qed.

(** C13: every state of a run is well typed. The chunks on their way to the
    parser fit in the receive buffer, which keeps its 4096 bytes; every ring
    buffer satisfies its invariant; the telemetry on its way to the drone table
    and in it is telemetry that a packet can carry, and the table maps every
    identifier to telemetry with that identifier; the counters are 64-bit. *)
Theorem program_well_typed arguments out w s0 s :
  run_of arguments out w s0 (Running s) → well_typed s.
Proof.
  intros Hr. eapply inv_well_typed; [exact (run_inv _ _ _ _ _ Hr)|by eapply run_fits].
Qed.

(** C12: in the running program the exception of a full ring buffer is never
    thrown: every chunk in the data queue fits in what is free of its client's
    ring buffer, in every state of a run. *)
Theorem buffers_never_overflow arguments out w s0 s c :
  run_of arguments out w s0 (Running s) → c ∈ m_queue (m_raw_queue (parser s)) →
  buffered (client_id c) s + zlen (data c) <= DEFAULT_CAPACITY.
Proof.
  intros Hr Hc. pose proof (run_inv _ _ _ _ _ Hr) as [_ _ (taken & handled & [D1 D2 _ _ _]) _ _].
  pose proof (run_fits _ _ _ _ _ Hr) as [_ Hf]. rewrite D1 in Hf.
  apply Forall_app in Hf as [_ Hf]. rewrite Forall_forall in Hf. specialize (Hf c Hc).
  pose proof (buffered_small taken s (client_id c) D2) as Hb.
  unfold small, Listener.RECV_BUF_SIZE, DEFAULT_CAPACITY in *. lia.
Qed.

(** C14: the program implements the shutdown specification of [Main.v]: every
    state of a run is, as far as the log, the stop requests and the returned
    threads go, a state that the specification can reach. *)
Theorem program_refines_shutdown arguments out w s0 s :
  run_of arguments out w s0 (Running s) → ∃ p, Main.reachable p ∧ abstracts (stdout s0) s p.
Proof. apply run_abstracts. Qed.

(** The program can always be shut down. From every state of a run there is
    a way to the end of [main], in which every thread is joined; only if the
    listener has not finished its set-up may that end the process by an
    exception instead. In particular no thread is stuck: a consumer that sleeps
    is woken by its stop request, and the listener's [epoll_wait] by the
    eventfd that the stop callback writes to. *)
Theorem program_can_shut_down `{!PosixBursts W} arguments out w s0 s :
  run_of arguments out w s0 (Running s) →
  ∃ q, rtc step (Running s) q
    ∧ match q with
      | Running s' => finished s'
      | Terminated _ => at_listener s = SettingUp
      | Broken => False
      end.
Proof.
  intros Hr. pose proof (run_live _ _ _ _ _ Hr) as Hl.
  destruct (can_finish _ _ _ Hl) as (q & Hq & Hf). exists q. split; [done|].
  destruct q as [s'|e|]; [done| |done]. exact (throws_before_setup _ _ _ _ (proj1 Hl) Hq).
Qed.

(** C11: a shutdown that has begun ends. Once [main] has asked the listener to
    stop, the end of [main] is inevitable, if no client floods the listener:
    whichever possible step of a thread or of [main] the scheduler takes each
    time, and whatever signals, connections and data come in between, in bursts
    that are finite, there is a next step until [main] has finished, and it does
    finish; only a listener that has not finished its set-up may end the process
    by an exception instead. No fairness is assumed between the threads. That the
    bursts are finite is the assumption [PosixBursts]: what is accepted and read
    between two waits of the listener comes to an end, for its accept and drain
    loops look at no stop token before they do ([flooded_for_ever] in
    [ListenerProperties.v]). *)
Theorem shutdown_inevitable `{!PosixBursts W} `{!∀ ep (w : W), Decision (epoll_ready ep w)}
    arguments out w s0 s :
  run_of arguments out w s0 (Running s) → Main.listener_thread ∈ stop_requested s →
  inevitably (λ q, match q with
    | Running s' => finished s'
    | Terminated _ => at_listener s = SettingUp
    | Broken => False
    end) (Running s).
Proof. intros Hr. apply (shutdown_ends (open_fds w) (stdout s0)). by eapply run_live. Qed.

(** C8: when [main] returns, nothing is left behind: the four threads have
    returned; stdout holds the banner, the messages logged and, woven into them,
    the two lines of [main], each in their order; the log file, if it is open,
    holds the messages after what it held, up to the first that the device
    refuses, if any; among the messages are the parser's last one, with the number
    of packets rejected, and the summary of the business logic, with the numbers
    of packets and of drones; and once the listener is destroyed the process has
    open only the descriptors it started with. *)
Theorem clean_exit arguments out w s0 s :
  run_of arguments out w s0 (Running s) → finished s →
  (∀ t, has_returned t s)
  ∧ (∃ port path tail,
      Main.command_line arguments = Ok (port, path)
      ∧ stdout s = out ++ Main.banner port path ++ tail
      ∧ woven [Main.sigint_text; Main.goodbye_text] (messages s) tail)
  ∧ (log_file_open s → log_file s = log_file s0 ++ logged s0 (messages s))
  ∧ shutdown_text (m_crc_failures (parser s)) ∈ messages s
  ∧ (∃ elapsed,
      BusinessLogic.summary_text (BusinessLogic.m_packets_processed (business_logic s))
        (BusinessLogic.active_drone_count (business_logic s))
        (BusinessLogic.rate (BusinessLogic.m_packets_processed (business_logic s)) elapsed)
      ∈ messages s)
  ∧ open_fds (exit_world s) = open_fds w.
Proof.
  intros Hr Hf. pose proof (run_inv _ _ _ _ _ Hr) as [Ho _ (taken & handled & Hd) [_ _ L3] _].
  destruct Hd as [_ _ _ [_ (start & last & rep & D4)] D5].
  destruct (run_finished _ _ _ _ _ Hr Hf) as [Hreturned Hcout].
  destruct (Hreturned Main.parser_thread) as [Hpa [_ Hpl]].
  destruct (Hreturned Main.logic_thread) as [Hla Hll].
  split; [done|]. split; [|split; [|split; [|split]]].
  - by apply (finished_stdout _ _ _ _ _ Hr).
  - by apply (finished_log_file _ _ _ _ _ Hr).
  - specialize (L3 Hpa). by rewrite Hpl, app_nil_r in L3.
  - destruct (D5 Hla) as [elapsed Hin]. unfold logic_idle in Hll. rewrite Hll, app_nil_r in Hin.
    exists elapsed. unfold BusinessLogic.active_drone_count.
    by rewrite (follows_processed _ _ _ _ D4), (follows_drones _ _ _ _ D4), size_latest.
  - by apply destroy_listener_closes.
Qed.

End Properties.

(** ** Witnesses *)

(** A run on the small kernel: a client connects and sends one packet in two
    pieces; then the program is interrupted. *)
#[local] Instance demo_host : Host := little.

#[local] Instance demo_filesystem : AsyncLogger.Filesystem :=
  {| AsyncLogger.create_directories _ := Ok tt;
     AsyncLogger.open_append _ := inr ["earlier"%string];
     AsyncLogger.device := [] |}.

(** Altitude 300. *)
Definition demo_telemetry : Telemetry := mkTelemetry "d1" 0 0 0x4072C00000000000 0 7.

Definition demo_packet : list byte := Eval vm_compute in encode_packet demo_telemetry.

Definition demo_machine : Kernel :=
  fresh_kernel {[0; 1; 2]} ["10.0.0.7"%string] [take 20 demo_packet; drop 20 demo_packet]
    [[(3, EPOLLIN)]; [(6, EPOLLIN)]].

Definition demo_arguments : list string := ["8080"%string].
Definition demo_banner : list string := Main.banner 8080 Main.default_log_file.

(** The program before its threads run, and after a schedule. *)
Definition started_on {W} (w : W) : System W :=
  mkSystem w (Listener.new_listener 8080 (new_queue 0) (new_queue 0)) SettingUp
    (new_parser (new_queue 0) (new_queue 0) (new_queue 0)) Starting
    (BusinessLogic.new_logic (new_queue 0) (new_queue 0)) Starting
    (AsyncLogger.mkLogger (new_queue 0) (AsyncLogger.mkStream true true ["earlier"%string] [] []) demo_banner)
    Starting false Polling ∅ [] [] demo_banner.

Section Demo.
Context {W : Type} `{PosixWake W} `{Hdec : !∀ ep (w : W), Decision (epoll_ready ep w)}.

Definition running (q : Process W) : bool :=
  match q with Running _ => true | _ => false end.

Definition after (cs : list Exec.choice) (w : W) : System W :=
  match Exec.schedule cs (started_on w) with Running s => s | _ => started_on w end.

Lemma after_schedule cs w :
  running (Exec.schedule cs (started_on w)) = true →
  Exec.schedule cs (started_on w) = Running (after cs w).
Proof. unfold after. by destruct (Exec.schedule cs (started_on w)). Qed.

Lemma after_run cs w :
  running (Exec.schedule cs (started_on w)) = true →
  run_of demo_arguments [] w (started_on w) (Running (after cs w)).
Proof.
  intros Hr%after_schedule. split; [reflexivity|]. rewrite <-Hr. apply Exec.schedule_steps.
Qed.

End Demo.

Definition demo_start : System Kernel := started_on demo_machine.
Definition demo_after (cs : list Exec.choice) : System Kernel := after cs demo_machine.

Lemma demo_run cs :
  running (Exec.schedule cs demo_start) = true →
  run_of demo_arguments [] demo_machine demo_start (Running (demo_after cs)).
Proof. apply after_run. Qed.

(** The client's bytes are in the data queue. *)
Definition busy : list Exec.choice :=
  [Exec.ListenerActs 20; Exec.ListenerLogs;
   Exec.ListenerActs 20; Exec.ListenerActs 20; Exec.ListenerActs 20; Exec.ListenerLogs;
   Exec.ListenerActs 20; Exec.ListenerActs 20; Exec.ListenerQueues; Exec.ListenerQueues].

(** The packet has been handled, and then everything is shut down. *)
Definition whole_run : list Exec.choice :=
  Exec.rounds 12 20 5 ++ [Exec.Signal] ++ Exec.rounds 30 20 2000000000.

Lemma busy_run :
  run_of demo_arguments [] demo_machine demo_start (Running (demo_after busy)).
Proof. apply demo_run. vm_compute. reflexivity. Defined.

Lemma complete_run :
  run_of demo_arguments [] demo_machine demo_start (Running (demo_after whole_run)).
Proof. apply demo_run. vm_compute. reflexivity. Defined.

(** What the whole run comes to: the telemetry in the drone table, and this on
    stdout and in the log file. *)
Definition demo_messages : list string := map (λ text, text +:+ newline)
  ["[NetworkListener] Listening on port 8080"; "[StreamingParser] Running";
   "[BusinessLogic] Running"; "[NetworkListener] Client connected (fd=6, addr=10.0.0.7)";
   "[ALERT] Drone d1 altitude 300 exceeds threshold 120"]%string.
Definition demo_last_messages : list string := map (λ text, text +:+ newline)
  ["[NetworkListener] Shutdown event received. Shutting down...";
   "[StreamingParser] Shutting down (CRC failures: 0)";
   "[BusinessLogic] Shutting down (processed 1 packets, 1 unique drones, avg 0.5 pkt/s)"]%string.

Example whole_run_result :
  let s := demo_after whole_run in
  finished s ∧ BusinessLogic.m_drones (business_logic s) = latest [demo_telemetry]
  ∧ stdout s = demo_banner ++ demo_messages ++ [Main.sigint_text] ++ demo_last_messages
                 ++ [Main.goodbye_text]
  ∧ log_file s = "earlier"%string :: demo_messages ++ demo_last_messages.
Proof. vm_compute. split_and!; reflexivity. Qed.

(** "All threads joined" is printed before the logger is joined: another
    message may follow it. *)
Definition late_logger : list Exec.choice :=
  Exec.rounds 12 20 5 ++ [Exec.Signal]
  ++ mjoin (replicate 30 (filter (λ c, c ≠ Exec.LoggerActs) (Exec.everybody 20 2000000000)))
  ++ Exec.rounds 10 20 2000000000.

Example goodbye_is_not_last :
  finished (demo_after late_logger)
  ∧ ∃ before, stdout (demo_after late_logger)
              = before ++ [Main.sigint_text; Main.goodbye_text] ++ demo_last_messages.
Proof. vm_compute. split; [reflexivity|]. by eexists (_ :: _ :: _ :: _ :: _ :: _ :: _ :: []). Qed.

Lemma program_loses_nothing_witness :
  let s := demo_after busy in
  map data (m_queue (m_raw_queue (parser s))) = [take 20 demo_packet; drop 20 demo_packet]
  ∧ ∃ taken handled,
      chunks s = taken ++ m_queue (m_raw_queue (parser s))
      ∧ delivered (effects taken)
        = handled ++ m_queue (BusinessLogic.m_parsed_queue (business_logic s))
          ++ m_queue (m_parsed_queue (parser s))
      ∧ BusinessLogic.m_drones (business_logic s) = latest handled
      ∧ BusinessLogic.m_packets_processed (business_logic s) = u64 (zlen handled)
      ∧ m_crc_failures (parser s) = u64 (counted (effects taken))
      ∧ demo_banner ++ messages s
        = AsyncLogger.cout (async_logger s) ++ m_queue (AsyncLogger.m_log_queue (async_logger s)).
Proof.
  split; [vm_compute; reflexivity|].
  exact (program_loses_nothing demo_arguments [] demo_machine demo_start
    (Running (demo_after busy)) busy_run).
Defined.

Lemma program_well_typed_witness : well_typed (demo_after busy).
Proof.
  exact (program_well_typed demo_arguments [] demo_machine demo_start _ busy_run).
Defined.

Lemma buffers_never_overflow_witness :
  let c := mkDataChunk 6 (take 20 demo_packet) in
  c ∈ m_queue (m_raw_queue (parser (demo_after busy)))
  ∧ buffered 6 (demo_after busy) + zlen (data c) <= DEFAULT_CAPACITY.
Proof.
  assert (mkDataChunk 6 (take 20 demo_packet) ∈ m_queue (m_raw_queue (parser (demo_after busy))))
    as Hc.
  { replace (m_queue (m_raw_queue (parser (demo_after busy))))
      with [mkDataChunk 6 (take 20 demo_packet); mkDataChunk 6 (drop 20 demo_packet)]
      by (vm_compute; reflexivity). left. }
  split; [exact Hc|].
  exact (buffers_never_overflow demo_arguments [] demo_machine demo_start _ _ busy_run Hc).
Defined.

Lemma program_refines_shutdown_witness :
  ∃ p, Main.reachable p ∧ abstracts demo_banner (demo_after busy) p.
Proof.
  exact (program_refines_shutdown demo_arguments [] demo_machine demo_start _ busy_run).
Defined.

Lemma program_can_shut_down_witness :
  at_listener (demo_after busy) ≠ SettingUp
  ∧ ∃ q, rtc step (Running (demo_after busy)) q
      ∧ match q with
        | Running s' => finished s'
        | Terminated _ => at_listener (demo_after busy) = SettingUp
        | Broken => False
        end.
Proof.
  split; [vm_compute; discriminate|].
  exact (program_can_shut_down demo_arguments [] demo_machine demo_start _ busy_run).
Defined.

(** The packet is in the data queue when the shutdown begins. *)
Definition interrupted : list Exec.choice :=
  busy ++ [Exec.Signal; Exec.MainActs; Exec.MainActs; Exec.MainActs].

Lemma interrupted_run :
  run_of demo_arguments [] demo_machine demo_start (Running (demo_after interrupted)).
Proof. apply demo_run. vm_compute. reflexivity. Defined.

Lemma shutdown_inevitable_witness :
  at_listener (demo_after interrupted) ≠ SettingUp
  ∧ Main.listener_thread ∈ stop_requested (demo_after interrupted)
  ∧ inevitably (λ q, match q with
      | Running s' => finished s'
      | Terminated _ => at_listener (demo_after interrupted) = SettingUp
      | Broken => False
      end) (Running (demo_after interrupted)).
Proof.
  assert (Main.listener_thread ∈ stop_requested (demo_after interrupted)) as Ht
    by (vm_compute; reflexivity).
  split; [vm_compute; discriminate|]. split; [exact Ht|].
  exact (shutdown_inevitable demo_arguments [] demo_machine demo_start _ interrupted_run Ht).
Defined.

Lemma clean_exit_witness :
  let s := demo_after whole_run in
  finished s ∧ log_file_open s
  ∧ (∀ t, has_returned t s)
  ∧ (∃ port path tail,
      Main.command_line demo_arguments = Ok (port, path)
      ∧ stdout s = [] ++ Main.banner port path ++ tail
      ∧ woven [Main.sigint_text; Main.goodbye_text] (messages s) tail)
  ∧ (log_file_open s → log_file s = log_file demo_start ++ logged demo_start (messages s))
  ∧ shutdown_text (m_crc_failures (parser s)) ∈ messages s
  ∧ (∃ elapsed,
      BusinessLogic.summary_text (BusinessLogic.m_packets_processed (business_logic s))
        (BusinessLogic.active_drone_count (business_logic s))
        (BusinessLogic.rate (BusinessLogic.m_packets_processed (business_logic s)) elapsed)
      ∈ messages s)
  ∧ open_fds (exit_world s) = {[0; 1; 2]}.
Proof.
  assert (finished (demo_after whole_run)) as Hf by (vm_compute; reflexivity).
  split; [exact Hf|]. split; [vm_compute; reflexivity|].
  exact (clean_exit demo_arguments [] demo_machine demo_start _ complete_run Hf).
Defined.
