(* ===== verification/Tester.v ===== *)
(** * The load tester (tests/drone_load_test.py)

    The Python client that plays drones against the server: its own CRC and
    packet encoder, the random telemetry, the six behavioural profiles, the
    statistics they share and the assignment of profiles to drones. A coroutine
    is a computation in [M] over the statistics, the outside world and the bytes
    written so far; everything random, timed or external is a [question] to the
    world. The dashboard and the rates of sending are not modelled. *)

From S2P Require Import Prelude Endian Telemetry Float64.

Module Tester.

(** ** CRC *)

(** Python's integers have no width. *)
Definition crc_bit (crc : Z) : Z :=
  if negb (Z.land crc 1 =? 0) then Z.lxor (Z.shiftr crc 1) 0xA001 else Z.shiftr crc 1.

Definition crc_byte (crc : Z) (b : byte) : Z := Nat.iter 8 crc_bit (Z.lxor crc (byte_val b)).

Definition crc16_modbus (data : list byte) : Z := Z.land (foldl crc_byte 0xFFFF data) 0xFFFF.

(** ** Packets *)

(** [struct.pack] of an unsigned field of [n] bytes, big-endian; a value out of
    range is a [struct.error]. *)
Definition pack_uint (n : nat) (v : Z) : outcome (list byte) :=
  if (0 <=? v) && (v <? 256 ^ Z.of_nat n) then Ok (be_bytes n v)
  else Throw (Out_of_range "struct.error").

(** [struct.pack] of a float, whose bit pattern is what a [double] is here. *)
Definition pack_double (v : double) : list byte := be_bytes 8 v.

(** [str.encode("ascii")] *)
Definition encode_ascii (s : string) : outcome (list byte) :=
  let bytes := String.list_byte_of_string s in
  if forallb (λ b, byte_val b <? 128) bytes then Ok bytes
  else Throw (Out_of_range "UnicodeEncodeError").

Definition serialize_payload (t : Telemetry) : outcome (list byte) :=
  id_bytes ← encode_ascii (drone_id t);
  id_len ← pack_uint 2 (zlen id_bytes);
  time ← pack_uint 8 (timestamp t);
  Ok (id_len ++ id_bytes
      ++ pack_double (latitude t) ++ pack_double (longitude t)
      ++ pack_double (altitude t) ++ pack_double (speed t) ++ time).

Definition build_packet (t : Telemetry) (corrupt_crc : bool) : outcome (list byte) :=
  payload ← serialize_payload t;
  header_bytes ← pack_uint 2 PACKET_HEADER;
  length_bytes ← pack_uint 2 (zlen payload);
  let raw := header_bytes ++ length_bytes ++ payload in
  let crc := crc16_modbus raw in
  let crc := if corrupt_crc then Z.lxor crc 0xBEEF else crc in
  crc_bytes ← pack_uint 2 crc;
  Ok (raw ++ crc_bytes).

(** ** Profiles and statistics *)

Inductive ProfileType := NORMAL | THRESHOLD | CORRUPTED | CHURNER | RAMPER | TRICKLER.

#[export] Instance ProfileType_eq_dec : EqDecision ProfileType.
Proof. solve_decision. Defined.

(** [list(ProfileType)] *)
Definition profiles : list ProfileType :=
  [NORMAL; THRESHOLD; CORRUPTED; CHURNER; RAMPER; TRICKLER].

Record Stats := mkStats {
  packets_sent : Z;
  bytes_sent : Z;
  connections_opened : Z;
  connections_closed : Z;
  corrupt_packets_sent : Z;
  connect_failures : Z;
  send_errors : Z;
  per_profile : ProfileType → Z;
  active_drones : Z
}.

Definition new_stats : Stats := mkStats 0 0 0 0 0 0 0 (λ _, 0) 0.

Definition record_packet (profile : ProfileType) (nbytes : Z) (corrupt : bool) (st : Stats)
  : Stats :=
  mkStats (packets_sent st + 1) (bytes_sent st + nbytes)
    (connections_opened st) (connections_closed st)
    (if corrupt then corrupt_packets_sent st + 1 else corrupt_packets_sent st)
    (connect_failures st) (send_errors st)
    (λ p, if decide (p = profile) then per_profile st p + 1 else per_profile st p)
    (active_drones st).

Definition record_connect (st : Stats) : Stats :=
  mkStats (packets_sent st) (bytes_sent st)
    (connections_opened st + 1) (connections_closed st) (corrupt_packets_sent st)
    (connect_failures st) (send_errors st) (per_profile st) (active_drones st + 1).

Definition record_disconnect (st : Stats) : Stats :=
  mkStats (packets_sent st) (bytes_sent st)
    (connections_opened st) (connections_closed st + 1) (corrupt_packets_sent st)
    (connect_failures st) (send_errors st) (per_profile st) (active_drones st - 1).

Definition record_connect_failure (st : Stats) : Stats :=
  mkStats (packets_sent st) (bytes_sent st)
    (connections_opened st) (connections_closed st) (corrupt_packets_sent st)
    (connect_failures st + 1) (send_errors st) (per_profile st) (active_drones st).

Definition record_send_error (st : Stats) : Stats :=
  mkStats (packets_sent st) (bytes_sent st)
    (connections_opened st) (connections_closed st) (corrupt_packets_sent st)
    (connect_failures st) (send_errors st + 1) (per_profile st) (active_drones st).

(** ** The world *)

(** What a coroutine asks, with the type of the answer: whether [time.time()] is
    before [end_time]; [int(time.time())]; [random.uniform], [random.randint]
    and whether [random.random()] is below some bound; whether a connection
    comes about and whether bytes could be written; and the rest, which has no
    answer. *)
Inductive question : Type → Type :=
| BeforeEnd : question bool
| Now : question Z
| Uniform (lo hi : Z) : question double
| RandInt (lo hi : Z) : question Z
| Chance : question bool
| OpenConnection : question bool
| Write (data : list byte) : question bool
| Close : question unit
| Sleep : question unit.

Class World (W : Type) := ask_world : ∀ {A}, question A → W → A * W.

(** What the documentation promises of the answers. A uniform number lies within
    its bounds, stated for the bounds the tester uses. *)
Definition documented {A} (q : question A) : A → Prop :=
  match q with
  | Now => is_u64
  | Uniform lo hi => λ b,
      0 <= lo <= hi ∧ hi <= 500 →
      is_u64 b ∧ is_finite (of_bits b) = true
      ∧ lo * 2 ^ 1074 <= scaled (of_bits b) <= hi * 2 ^ 1074
  | RandInt lo hi => λ z, lo <= hi → lo <= z <= hi
  | _ => λ _, True
  end.

(** The clock reaches the end of the test: [looks_left] bounds how many more
    times it can be read before that. *)
Class WorldLaws (W : Type) `{World W} := {
  looks_left : W → nat;
  answer_documented {A} (q : question A) (w : W) : documented q (ask_world q w).1;
  answer_looks {A} (q : question A) (w : W) : (looks_left (ask_world q w).2 <= looks_left w)%nat;
  look_taken (w : W) :
    (ask_world BeforeEnd w).1 = true →
    (looks_left (ask_world BeforeEnd w).2 < looks_left w)%nat
}.

(** ** Coroutines *)

(** [streams]: for every connection of the drone so far, the pieces that have
    been written to it. *)
Record Drone (W : Type) := mkDrone {
  world : W;
  stats : Stats;
  streams : list (list (list byte))
}.
Arguments mkDrone {W} _ _ _.
Arguments world {W} _.
Arguments stats {W} _.
Arguments streams {W} _.

(** The last connection gets another piece. *)
Fixpoint append_last (data : list byte) (ss : list (list (list byte))) : list (list (list byte)) :=
  match ss with
  | [] => []
  | [pieces] => [pieces ++ [data]]
  | pieces :: ss => pieces :: append_last data ss
  end.

(** [try: m finally: f] *)
Definition finally {S A} (m : M S A) (f : M S unit) : M S A := λ s,
  match m s with
  | (Ok a, s') => (f;; mret a) s'
  | (Throw e, s') => (f;; throw e) s'
  | r => r
  end.

Section Coroutines.
Context {W : Type} `{World W}.

Definition ask {A} (q : question A) : M (Drone W) A := λ d,
  let '(a, w) := ask_world q (world d) in (Ok a, mkDrone w (stats d) (streams d)).

Definition record (f : Stats → Stats) : M (Drone W) unit :=
  modify (λ d, mkDrone (world d) (f (stats d)) (streams d)).

Definition with_streams (f : list (list (list byte)) → list (list (list byte)))
  : M (Drone W) unit := modify (λ d, mkDrone (world d) (stats d) (f (streams d))).

Definition tcp_connect : M (Drone W) bool :=
  connected ← ask OpenConnection;
  (if (connected : bool) then with_streams (λ ss, ss ++ [[]]) else mret tt);; mret connected.

Definition send_packet (data : list byte) : M (Drone W) bool :=
  written ← ask (Write data);
  (if (written : bool) then with_streams (append_last data) else mret tt);; mret written.

(** The [finally] clause of every profile. *)
Definition hang_up : M (Drone W) unit := ask Close;; record record_disconnect.

Definition random_telemetry (id : string) (force_threshold : bool) : M (Drone W) Telemetry :=
  lat ← ask (Uniform 29 34);
  lon ← ask (Uniform 34 36);
  alt ← ask (Uniform 0 100);
  speed ← ask (Uniform 0 40);
  ts ← ask Now;
  if force_threshold then
    high ← ask Chance;
    if (high : bool)
    then alt ← ask (Uniform 121 500); mret (mkTelemetry id lat lon alt speed ts)
    else speed ← ask (Uniform 51 200); mret (mkTelemetry id lat lon alt speed ts)
  else mret (mkTelemetry id lat lon alt speed ts).

(** Send, break on an error, count, sleep. *)
Definition transmit (profile : ProfileType) (pkt : list byte) (corrupt : bool)
  : M (Drone W) control :=
  sent ← send_packet pkt;
  if negb sent then record record_send_error;; mret Break
  else record (record_packet profile (zlen pkt) corrupt);; ask Sleep;; mret Continue.

(** [while time.time() < end_time: body], with [fuel] rounds at most. *)
Definition while_before_end (fuel : nat) (body : M (Drone W) control) : M (Drone W) unit :=
  while_true fuel (going ← ask BeforeEnd; if (going : bool) then body else mret Break).

(** Connect, count, and hang up at the end of [body] whatever happens. *)
Definition with_connection (body : M (Drone W) unit) : M (Drone W) unit :=
  connected ← tcp_connect;
  if negb connected then record record_connect_failure
  else record record_connect;; finally body hang_up.

Definition run_normal (fuel : nat) (id : string) : M (Drone W) unit :=
  with_connection (while_before_end fuel (
    t ← random_telemetry id false;
    pkt ← lift (build_packet t false);
    transmit NORMAL pkt false)).

Definition run_threshold (fuel : nat) (id : string) : M (Drone W) unit :=
  with_connection (while_before_end fuel (
    t ← random_telemetry id true;
    pkt ← lift (build_packet t false);
    transmit THRESHOLD pkt false)).

Definition run_corrupted (fuel : nat) (id : string) : M (Drone W) unit :=
  with_connection (while_before_end fuel (
    corrupt ← ask Chance;
    t ← random_telemetry id false;
    pkt ← lift (build_packet t corrupt);
    transmit CORRUPTED pkt corrupt)).

(** [for _ in range(burst)] *)
Fixpoint send_burst (burst : nat) (id : string) : M (Drone W) unit :=
  match burst with
  | O => mret tt
  | Datatypes.S burst =>
      going ← ask BeforeEnd;
      if negb going then mret tt
      else
        t ← random_telemetry id false;
        pkt ← lift (build_packet t false);
        c ← transmit CHURNER pkt false;
        match c with
        | Continue => send_burst burst id
        | Break => mret tt
        end
  end.

Definition run_churner (fuel : nat) (id : string) : M (Drone W) unit :=
  while_before_end fuel (
    connected ← tcp_connect;
    if negb connected then record record_connect_failure;; ask Sleep;; mret Continue
    else
      record record_connect;;
      burst ← ask (RandInt 3 10);
      finally (send_burst (Z.to_nat burst) id) hang_up;;
      ask Sleep;; mret Continue).

Definition run_ramper (fuel : nat) (id : string) : M (Drone W) unit :=
  started ← ask BeforeEnd;
  if negb started then mret tt
  else
    ask Sleep;;
    connected ← tcp_connect;
    if negb connected then record record_connect_failure
    else
      record record_connect;;
      remaining ← ask BeforeEnd;
      if negb remaining then hang_up
      else
        finally (while_before_end fuel (
          t ← random_telemetry id false;
          pkt ← lift (build_packet t false);
          transmit RAMPER pkt false)) hang_up.

(** The packet from [offset] on, in pieces of one to four bytes. *)
Fixpoint trickle (fuel : nat) (offset : Z) (pkt : list byte) : M (Drone W) bool :=
  match fuel with
  | O => lift OutOfFuel
  | Datatypes.S fuel =>
      if offset <? zlen pkt then
        chunk_size ← ask (RandInt 1 4);
        ok ← send_packet (slice offset chunk_size pkt);
        if negb ok then mret false else ask Sleep;; trickle fuel (offset + chunk_size) pkt
      else mret true
  end.

(** A piece has at least one byte, so the packet's length is fuel enough. *)
Definition run_trickler (fuel : nat) (id : string) : M (Drone W) unit :=
  with_connection (while_before_end fuel (
    t ← random_telemetry id false;
    pkt ← lift (build_packet t false);
    ok ← trickle (Datatypes.S (length pkt)) 0 pkt;
    if negb ok then record record_send_error;; mret Break
    else record (record_packet TRICKLER (zlen pkt) false);; ask Sleep;; mret Continue)).

(** [PROFILE_RUNNERS] *)
Definition run (p : ProfileType) : nat → string → M (Drone W) unit :=
  match p with
  | NORMAL => run_normal
  | THRESHOLD => run_threshold
  | CORRUPTED => run_corrupted
  | CHURNER => run_churner
  | RAMPER => run_ramper
  | TRICKLER => run_trickler
  end.

End Coroutines.

(** ** Drones *)

(** [f"DRONE-{i + 1:04d}"] *)
Definition drone_name (i : nat) : string := ("DRONE-" +:+ padded 4 (Z.of_nat i + 1))%string.

(** The dict of the first [n] drones. *)
Fixpoint assign_profiles (n : nat) : gmap string ProfileType :=
  match n with
  | O => ∅
  | Datatypes.S i => <[drone_name i := nth (i mod length profiles) profiles NORMAL]> (assign_profiles i)
  end.

End Tester.
