(* ===== verification/TesterCorrect.v ===== *)
(** * The load tester speaks the protocol

    The tester's checksum and encoder against the server's, and what a drone has
    written to its connections, kept through every step of its coroutine. *)

From S2P Require Import Prelude Telemetry Endian Crc16 Payload Scan Float64 BusinessLogic LogicCorrect Triples Main MainProperties Tester.

Import Tester.

(** ** Checksum and encoder *)

Lemma crc_bit_step c : crc_bit c = shift_step c.
Proof.
  unfold crc_bit, shift_step. change 1 with (Z.ones 1) at 1. rewrite Z.land_ones by lia.
  change (2 ^ 1) with 2. rewrite Zmod_odd. destruct (Z.odd c); simpl; [done|].
  by rewrite Z.lxor_0_r.
Qed.

Lemma crc_byte_server c b : 0 <= c < 65536 → crc_byte c b = crc16_byte c b.
Proof.
  intros Hc. destruct (crc16_byte_steps c b Hc) as [-> _]. unfold crc_byte.
  generalize (Z.lxor c (byte_val b)). intros z.
  assert (∀ n, Nat.iter n crc_bit z = steps n z) as Hi; [|by apply Hi].
  induction n as [|n IH]; [done|]. simpl. by rewrite IH, crc_bit_step.
Qed.

(** Python's integers hold what the server's 16 bits do. *)
Lemma crc16_modbus_server data : crc16_modbus data = crc16 data.
Proof.
  unfold crc16_modbus. change 0xFFFF with (Z.ones 16) at 2. rewrite Z.land_ones by lia.
  change (2 ^ 16) with 65536. enough (foldl crc_byte 0xFFFF data = crc16 data) as ->
    by (apply Z.mod_small, crc16_bound).
  unfold crc16. assert (0 <= 0xFFFF < 65536) as Hc by done. revert Hc. generalize 0xFFFF.
  induction data as [|b data IH]; intros c Hc; [done|]. simpl. rewrite crc_byte_server by done.
  apply IH. by apply crc16_byte_steps.
Qed.

(** A packet as the tester means it: the telemetry, and whether to damage the
    checksum. *)
Abbreviation item := (Telemetry * bool)%type (only parsing).

Definition checksum (i : item) : Z :=
  let crc := crc16 (frame_body (encode_payload i.1)) in
  if i.2 then Z.lxor crc 0xBEEF else crc.

Definition wire (i : item) : list byte := framed (encode_payload i.1) (checksum i).

(** What the server makes of it. *)
Definition understood (i : item) : event := if i.2 then CrcMismatch else Received i.1.

(** Identifiers the encoder accepts. *)
Definition acceptable (id : string) : bool :=
  forallb (λ b, byte_val b <? 128) (String.list_byte_of_string id)
  && (zlen (String.list_byte_of_string id) <=? 214).

Lemma wire_valid t : wire (t, false) = encode_packet t.
Proof. done. Qed.

#[local] Arguments wire : simpl never.

Lemma checksum_bound i : 0 <= checksum i < 65536.
Proof.
  unfold checksum. pose proof (crc16_bound (frame_body (encode_payload i.1))).
  destruct i.2; [|done]. by apply (lxor_bound 16).
Qed.

Lemma checksum_damaged t : checksum (t, true) ≠ crc16 (frame_body (encode_payload t)).
Proof.
  unfold checksum. cbn [fst snd]. intros E. apply (f_equal (λ z, Z.lxor z
    (crc16 (frame_body (encode_payload t))))) in E.
  rewrite Z.lxor_nilpotent, Z.lxor_comm, <-Z.lxor_assoc, Z.lxor_nilpotent in E. done.
Qed.

Lemma pack_uint_ok n v : 0 <= v < 256 ^ Z.of_nat n → pack_uint n v = Ok (be_bytes n v).
Proof. intros Hv. unfold pack_uint. rewrite andb_true_intro; [done|lia]. Qed.

Lemma build_packet_ok t corrupt :
  acceptable (drone_id t) = true → telemetry_ok t →
  build_packet t corrupt = Ok (wire (t, corrupt)) ∧ sendable t.
Proof.
  unfold acceptable. intros [Ha Hz]%andb_true_iff Ht. apply Z.leb_le in Hz.
  pose proof (zlen_nonneg (String.list_byte_of_string (drone_id t))).
  pose proof (ok_timestamp t Ht) as Hts. unfold is_u64 in Hts.
  split; [|by split]. unfold build_packet, serialize_payload, encode_ascii. rewrite Ha.
  rewrite bind_ok, (pack_uint_ok 2 (zlen _)) by (simpl; lia).
  rewrite bind_ok, (pack_uint_ok 8 (timestamp t)) by done.
  rewrite !bind_ok. change (pack_uint 2 PACKET_HEADER) with (Ok (be_bytes 2 PACKET_HEADER)).
  rewrite bind_ok. change (_ ++ _ ++ pack_double (latitude t) ++ _) with (encode_payload t).
  rewrite (pack_uint_ok 2 (zlen _)) by (rewrite zlen_encode_payload; simpl; lia). rewrite bind_ok.
  cbv zeta. rewrite crc16_modbus_server.
  change (be_bytes 2 PACKET_HEADER ++ _ ++ encode_payload t) with (frame_body (encode_payload t)).
  pose proof (checksum_bound (t, corrupt)) as Hc. unfold checksum in Hc. cbn [fst snd] in Hc.
  by rewrite pack_uint_ok by (simpl; lia).
Qed.

(** ** What the server's scanner finds in a stream of items *)

(** The damaged packets of [items] hold no byte behind their first that could start
    a frame. *)
Definition no_false_header (items : list item) : Prop :=
  Forall (λ i, i.2 = true → Byte.xaa ∉ tail (wire i)) items.

(** A packet that was cut off before its end. *)
Definition cut_off (bytes : list byte) : Prop :=
  ∃ t more, sendable t ∧ encode_packet t = bytes ++ more ∧ more ≠ [].

Lemma cut_off_nil : cut_off [].
Proof.
  exists default_telemetry, (encode_packet default_telemetry). split_and!; [|done|].
  - by repeat split.
  - by vm_compute.
Qed.

Lemma wire_cons i : ∃ b l, wire i = b :: l.
Proof.
  pose proof (zlen_frame_body (encode_payload i.1)) as Hz. unfold wire, framed.
  pose proof (zlen_nonneg (encode_payload i.1)). destruct (frame_body _) as [|b l].
  - rewrite zlen_nil in Hz. lia.
  - by eexists b, _.
Qed.

Lemma cut_off_scan bytes : cut_off bytes → scan bytes = ([], bytes).
Proof.
  intros (t & more & Ht & E & Hm). apply scan_needmore. apply dec_stable. intros Hc.
  destruct (sendable_payload t Ht) as [Hp _].
  pose proof (classify_app bytes more Hc) as Ha. rewrite <-E in Ha.
  unfold encode_packet in Ha. rewrite <-(app_nil_r (encode_frame _)), classify_frame in Ha by done.
  pose proof (advance_length bytes) as Hl. rewrite <-Ha, advance_accept in Hl.
  apply (f_equal length) in E. rewrite length_app in E. unfold encode_packet in E.
  destruct more as [|b more]; [done|]. cbn [length] in E. lia.
Qed.

Lemma scan_item i k :
  sendable i.1 → (i.2 = true → Byte.xaa ∉ tail (wire i)) →
  (scan (wire i ++ k)).1 = understood i :: (scan k).1.
Proof.
  destruct i as [t []]; cbn [fst snd understood]; intros Ht Hn;
    destruct (sendable_payload t Ht) as [Hp He].
  - destruct (wire_cons (t, true)) as (b & l & E). specialize (Hn eq_refl). rewrite E in Hn |- *.
    assert (classify ((b :: l) ++ k) = BadCrc) as Hc.
    { rewrite <-E. unfold wire. cbn [fst]. rewrite classify_framed by (done || apply checksum_bound).
      by rewrite (proj2 (Z.eqb_neq _ _) (checksum_damaged t)). }
    rewrite scan_advance by (by rewrite Hc). rewrite Hc. cbn [emits advance fst app skipn].
    rewrite drop_0. by rewrite (scan_noise_events l k Hn).
  - rewrite wire_valid. unfold encode_packet. rewrite scan_frame by done. cbn [fst].
    by rewrite He.
Qed.

Lemma scan_items items cut :
  Forall (λ i, sendable i.1) items → no_false_header items → cut_off cut →
  (scan (concat (map wire items) ++ cut)).1 = map understood items.
Proof.
  intros Hs Hn Hc. induction items as [|i items IH]; [by simpl; rewrite cut_off_scan|].
  apply Forall_cons in Hs as [Hi Hs]. apply Forall_cons in Hn as [Hi' Hn].
  cbn [map concat]. rewrite <-app_assoc, scan_item by done. by rewrite IH.
Qed.

(** ** Damage that can be seen in the bytes

    [clear] reads a stream of bytes frame by frame, a damaged frame being as long
    as its length field says, and finds whether any of the damaged frames holds a
    byte, behind its first, that could start a frame. *)

Fixpoint undisturbed (fuel : nat) (l : list byte) : bool :=
  match fuel with
  | O => true
  | Datatypes.S fuel =>
      match classify l with
      | NeedMore | Resync => true
      | Accept p => undisturbed fuel (drop (length p + 6) l)
      | BadCrc =>
          let n := Z.to_nat (field_at 2 2 l + 6) in
          bool_decide (Byte.xaa ∉ tail (take n l)) && undisturbed fuel (drop n l)
      end
  end.

(** A frame is not empty: the length is fuel enough. *)
Definition clear (l : list byte) : bool := undisturbed (length l) l.

Lemma classify_wire i k :
  sendable i.1 → classify (wire i ++ k) = if i.2 then BadCrc else Accept (encode_payload i.1).
Proof.
  intros Hs. destruct (sendable_payload _ Hs) as [Hp _]. unfold wire.
  rewrite classify_framed by (done || apply checksum_bound). destruct i as [t []]; cbn [fst snd].
  - by rewrite (proj2 (Z.eqb_neq _ _) (checksum_damaged t)).
  - unfold checksum. by rewrite Z.eqb_refl.
Qed.

Lemma length_wire i : length (wire i) = (length (encode_payload i.1) + 6)%nat.
Proof.
  unfold wire, framed. rewrite length_app, length_be_bytes.
  pose proof (zlen_frame_body (encode_payload i.1)). unfold zlen in *. lia.
Qed.

Lemma length_field_wire i k :
  sendable i.1 → Z.to_nat (field_at 2 2 (wire i ++ k) + 6) = length (wire i).
Proof.
  intros Hs. destruct (sendable_payload _ Hs) as [Hp _].
  assert (field_at 2 2 (wire i ++ k) = zlen (encode_payload i.1)) as ->.
  { unfold wire, framed, frame_body. rewrite <-!app_assoc.
    apply field_at_encoded; [apply zlen_be_bytes|done|lia]. }
  rewrite length_wire. unfold zlen. lia.
Qed.

(** Of what the tester writes, [clear] says what it should. *)
Lemma undisturbed_items items cut fuel :
  Forall (λ i, sendable i.1) items → cut_off cut →
  (length (concat (map wire items) ++ cut) <= fuel)%nat →
  undisturbed fuel (concat (map wire items) ++ cut) = true ↔ no_false_header items.
Proof.
  intros Hs Hc. revert fuel. induction Hs as [|i items Hi Hs IH]; intros fuel Hf.
  - split; [by constructor|]. intros _. destruct fuel; [done|]. cbn [map concat app undisturbed].
    assert (classify cut = NeedMore) as ->; [|done].
    pose proof (scan_rest cut) as Hr. by rewrite cut_off_scan in Hr.
  - cbn [map concat] in Hf |- *. rewrite <-app_assoc in Hf |- *. rewrite length_app in Hf.
    destruct fuel as [|fuel]; [rewrite length_wire in Hf; lia|].
    cbn [undisturbed]. rewrite classify_wire by done. unfold no_false_header.
    rewrite Forall_cons. specialize (IH fuel). rewrite length_wire in Hf.
    destruct i as [t []]; cbn [fst snd].
    + rewrite length_field_wire, take_app_length, drop_app_length by done.
      rewrite andb_true_iff, bool_decide_eq_true, IH by (cbn in Hf; lia). naive_solver.
    + change (length (encode_payload t) + 6)%nat with (length (encode_payload (t, false).1) + 6)%nat.
      rewrite <-length_wire, drop_app_length, IH by (cbn in Hf; lia). naive_solver.
Qed.

Lemma clear_items items cut :
  Forall (λ i, sendable i.1) items → cut_off cut →
  clear (concat (map wire items) ++ cut) = true ↔ no_false_header items.
Proof. intros Hs Hc. by apply undisturbed_items. Qed.

(** *** The bytes determine the packets *)

Lemma wire_inj i i' k k' :
  sendable i.1 → sendable i'.1 → wire i ++ k = wire i' ++ k' → i = i' ∧ k = k'.
Proof.
  intros Hs Hs' E. pose proof (classify_wire i k Hs) as Hc.
  pose proof (length_field_wire i k Hs) as Hl.
  rewrite E, classify_wire in Hc by done. rewrite E, length_field_wire in Hl by done.
  apply app_inj_1 in E as [Ew ->]; [|done]. split; [|done].
  destruct (sendable_payload _ Hs) as [_ Hp]. destruct (sendable_payload _ Hs') as [_ Hp'].
  assert (encode_payload i.1 = encode_payload i'.1) as Ep.
  { unfold wire, framed, frame_body in Ew. rewrite !length_wire in Hl. rewrite <-!app_assoc in Ew.
    apply app_inv_head in Ew. apply app_inj_1 in Ew as [_ Ew]; [|by rewrite !length_be_bytes].
    apply app_inj_1 in Ew as [Ew _]; [done|lia]. }
  rewrite Ep, Hp' in Hp. injection Hp as Et. destruct i as [t []], i' as [t' []]; cbn in *; congruence.
Qed.

Lemma items_determined items items' cut cut' :
  Forall (λ i, sendable i.1) items → Forall (λ i, sendable i.1) items' →
  cut_off cut → cut_off cut' →
  concat (map wire items) ++ cut = concat (map wire items') ++ cut' → items = items'.
Proof.
  assert (∀ i k cut, sendable i.1 → cut_off cut → cut ≠ wire i ++ k) as Hn.
  { intros i k c Hs Hc ->. pose proof (scan_rest (wire i ++ k)) as Hr.
    rewrite cut_off_scan in Hr by done. cbn [snd] in Hr. rewrite classify_wire in Hr by done.
    by destruct i.2. }
  intros Hs. revert items'. induction Hs as [|i items Hi Hs IH]; intros items' Hs' Hc Hc' E.
  - destruct Hs' as [|i' items' Hi' Hs']; [done|]. cbn in E. rewrite <-app_assoc in E.
    by destruct (Hn _ _ _ Hi' Hc E).
  - cbn in E. rewrite <-app_assoc in E. destruct Hs' as [|i' items' Hi' Hs'].
    { by destruct (Hn _ _ _ Hi Hc' (eq_sym E)). }
    cbn in E. rewrite <-app_assoc in E. apply wire_inj in E as [-> E]; [|done..].
    f_equal. by apply IH.
Qed.

Lemma received_understood items : received (map understood items) = map fst (List.filter (negb ∘ snd) items).
Proof.
  induction items as [|[t []] items IH]; [done| |]; cbn [map understood List.filter negb compose snd].
  - done.
  - cbn [map fst]. rewrite <-IH. done.
Qed.

(** ** Names *)

Lemma digits_zeros n s : Main.digits 0 (zeros n +:+ s)%string = Main.digits 0 s.
Proof. induction n as [|n IH]; [done|]. cbn [zeros]. exact IH. Qed.

Lemma digits_padded n z : 0 <= z → Main.digits 0 (padded n z) = z.
Proof.
  intros Hz. unfold padded, to_string. rewrite digits_zeros. destruct z as [|p|p]; [done| |lia].
  change (pretty (Z.pos p)) with (pretty_N_go (N.pos p) ""). by rewrite digits_numeral.
Qed.

Lemma drone_name_inj i j : drone_name i = drone_name j → i = j.
Proof.
  unfold drone_name. intros E. simplify_eq/=.
  apply (f_equal (Main.digits 0)) in E. rewrite !digits_padded in E by lia. lia.
Qed.

Lemma assign_profiles_lookup n i :
  assign_profiles n !! drone_name i
  = if decide (i < n)%nat then Some (nth (i mod 6) profiles NORMAL) else None.
Proof.
  induction n as [|n IH]; [done|]. cbn [assign_profiles]. destruct (decide (i = n)) as [->|Hne].
  - rewrite lookup_insert_eq. by rewrite decide_True by lia.
  - rewrite lookup_insert_ne by (intros E%drone_name_inj; lia). rewrite IH.
    repeat case_decide; (lia || done).
Qed.

Lemma assign_profiles_names n id p :
  assign_profiles n !! id = Some p → ∃ i, (i < n)%nat ∧ id = drone_name i.
Proof.
  induction n as [|n IH]; [done|]. cbn [assign_profiles]. intros Hl.
  destruct (decide (drone_name n = id)) as [<-|Hne]; [by exists n; split; [lia|]|].
  rewrite lookup_insert_ne in Hl by done. destruct (IH Hl) as (i & Hi & ->).
  exists i. split; [lia|done].
Qed.

Lemma assign_profiles_size n : size (assign_profiles n) = n.
Proof.
  induction n as [|n IH]; [done|]. cbn [assign_profiles].
  rewrite map_size_insert_None, IH; [done|]. rewrite assign_profiles_lookup.
  by rewrite decide_False by lia.
Qed.

Lemma names_acceptable i : (i < 1000)%nat → acceptable (drone_name i) = true.
Proof.
  assert (forallb (λ i, acceptable (drone_name i)) (seq 0 1000) = true) as Hf by by vm_compute.
  intros Hi. rewrite forallb_forall in Hf. apply Hf, in_seq. lia.
Qed.

(** ** Thresholds *)

(** The doubles between two whole numbers. *)
Definition between (lo hi : Z) (b : double) : Prop :=
  is_u64 b ∧ is_finite (of_bits b) = true
  ∧ lo * 2 ^ 1074 <= scaled (of_bits b) <= hi * 2 ^ 1074.

Lemma exceeds_between n lo hi b :
  between lo hi b → (hi <= n → exceeds n b = false) ∧ (n < lo → exceeds n b = true).
Proof.
  intros (_ & Hf & Hb). assert (0 < 2 ^ 1074) as Hp by (by apply Z.pow_pos_nonneg).
  assert (exceeds n b = (n * 2 ^ 1074 <? scaled (of_bits b))) as ->.
  { unfold exceeds. by destruct (of_bits b). }
  split; intros Hn; [apply Z.ltb_ge|apply Z.ltb_lt]; nia.
Qed.

Lemma no_alerts t :
  exceeds 120 (altitude t) = false → exceeds 50 (speed t) = false → alerts t = [].
Proof. intros Ha Hs. unfold alerts. by rewrite Ha, Hs. Qed.

Lemma some_alert t :
  exceeds 120 (altitude t) = true ∨ exceeds 50 (speed t) = true → alerts t ≠ [].
Proof.
  unfold alerts. destruct (exceeds 120 _), (exceeds 50 _); intros [|]; done.
Qed.

(** ** What a drone has said *)

Lemma Forall_snoc {A} (P : A → Prop) l x : Forall P l → P x → Forall P (l ++ [x]).
Proof. intros Hl Hx. apply Forall_app. by split; [|constructor]. Qed.

Lemma Forall2_snoc {A B} (R : A → B → Prop) l k x y :
  Forall2 R l k → R x y → Forall2 R (l ++ [x]) (k ++ [y]).
Proof. intros Hl Hx. apply Forall2_app; [done|]. by constructor. Qed.

(** A packet that profile [p] sends in the name of [id]. *)
Record typical (p : ProfileType) (id : string) (i : item) : Prop := {
  typical_id : drone_id i.1 = id;
  typical_sendable : sendable i.1;
  typical_corrupt : i.2 = true → p = CORRUPTED;
  typical_alerts : alerts i.1 = [] ↔ p ≠ THRESHOLD
}.

(** What was said on one connection: packets, and the beginning of another. *)
Abbreviation speech := (list item * list byte)%type (only parsing).

Definition written (pieces : list (list byte)) (u : speech) : Prop :=
  concat pieces = concat (map wire u.1) ++ u.2.

Definition damaged (items : list item) : Z := zlen (List.filter snd items).

Section Talk.
Context {W : Type} `{WorldLaws W}.
Variables (base : Drone W) (p : ProfileType) (id : string).
Hypothesis id_ok : acceptable id = true.
Implicit Types (d : Drone W) (told : list speech) (items : list item).

(** The statistics after [items] on [opened] connections, [closed] of which have
    been closed. *)
Record counted items (opened closed : Z) (st : Stats) : Prop := {
  counted_packets : packets_sent st = packets_sent (stats base) + zlen items;
  counted_bytes : bytes_sent st = bytes_sent (stats base) + zlen (concat (map wire items));
  counted_corrupt :
    corrupt_packets_sent st = corrupt_packets_sent (stats base) + damaged items;
  counted_profile q :
    per_profile st q = per_profile (stats base) q + (if decide (q = p) then zlen items else 0);
  counted_opened : connections_opened st = connections_opened (stats base) + opened;
  counted_closed : connections_closed st = connections_closed (stats base) + closed;
  counted_active : active_drones st = active_drones (stats base) + opened - closed
}.

(** [told] is what the drone has said since [base], a speech per connection, and
    it will look at the clock at most [n] more times; [opened] and [closed]
    connections have been counted. *)
Record talk (n : nat) told (opened closed : Z) d : Prop := {
  talk_looks : (looks_left (world d) <= n)%nat;
  talk_streams : ∃ ss, streams d = streams base ++ ss ∧ Forall2 written ss told;
  talk_typical : Forall (λ u : speech, Forall (typical p id) u.1) told;
  talk_counted : counted (concat (map fst told)) opened closed (stats d)
}.

Lemma talk_start n : (looks_left (world base) <= n)%nat → talk n [] 0 0 base.
Proof.
  intros Hn. split; [done|by exists []; rewrite app_nil_r|done|].
  split; try intros q; unfold damaged; cbn; rewrite ?zlen_nil; try case_decide; lia.
Qed.

Lemma talk_weaken n m told opened closed d : (n <= m)%nat → talk n told opened closed d → talk m told opened closed d.
Proof. intros Hm [Hn Hs Ht Hc]. split; [lia|done..]. Qed.

(** ** The elementary steps *)

(** A question and its answer. *)
Lemma runs_ask {A} (q : question A) n told opened closed d (Q : A → Drone W → Prop) R :
  talk n told opened closed d →
  (∀ a d', documented q a → talk n told opened closed d' → Q a d') →
  runs (ask q) d Q R.
Proof.
  intros [Hn Hs Ht Hc] HQ. unfold runs, ask.
  pose proof (answer_documented q (world d)) as Hd. pose proof (answer_looks q (world d)) as Hl.
  destruct (ask_world q (world d)) as [a w]. apply HQ; [done|]. split; cbn in *; [lia|done..].
Qed.

(** Looking at the clock. *)
Lemma runs_look n told opened closed d (Q : bool → Drone W → Prop) R :
  talk n told opened closed d →
  (∀ (a : bool) d', (if a then ∃ m, (m < n)%nat ∧ talk m told opened closed d' else talk n told opened closed d') → Q a d') →
  runs (ask BeforeEnd) d Q R.
Proof.
  intros [Hn Hs Ht Hc] HQ. unfold runs, ask.
  pose proof (answer_looks BeforeEnd (world d)) as Hl. pose proof (look_taken (world d)) as Hm.
  destruct (ask_world BeforeEnd (world d)) as [a w]. cbn in *. apply HQ. destruct a.
  - exists (looks_left w). specialize (Hm eq_refl). split; [lia|]. by split; cbn.
  - split; cbn; [lia|done..].
Qed.

(** A change of the statistics alone. *)
Lemma runs_record f n told opened opened' closed closed' d (Q : unit → Drone W → Prop) R :
  talk n told opened closed d →
  (counted (concat (map fst told)) opened closed (stats d) →
   counted (concat (map fst told)) opened' closed' (f (stats d))) →
  (∀ d', talk n told opened' closed' d' → Q tt d') →
  runs (record f) d Q R.
Proof.
  intros [Hn Hs Ht Hc] Hf HQ. apply runs_modify, HQ. split; cbn; [done..|by apply Hf].
Qed.

Lemma append_last_snoc data ss pieces :
  append_last data (ss ++ [pieces]) = ss ++ [pieces ++ [data]].
Proof.
  induction ss as [|x ss IH]; [done|]. cbn [append_last app]. rewrite IH.
  by destruct ss.
Qed.

Lemma written_snoc pieces (u : speech) data :
  written pieces u → written (pieces ++ [data]) (u.1, u.2 ++ data).
Proof. unfold written. intros E. rewrite concat_app, E, <-app_assoc. cbn. by rewrite app_nil_r. Qed.

Lemma all_items_snoc told items cut :
  concat (map fst (told ++ [(items, cut)])) = concat (map fst told) ++ items.
Proof. rewrite map_app, concat_app. cbn. by rewrite app_nil_r. Qed.

(** The last speech, and what is before it. *)
Lemma talk_last n told items cut opened closed d :
  talk n (told ++ [(items, cut)]) opened closed d →
  ∃ ss pieces, streams d = streams base ++ ss ++ [pieces]
    ∧ Forall2 written ss told ∧ written pieces (items, cut)
    ∧ Forall (λ u : speech, Forall (typical p id) u.1) told ∧ Forall (typical p id) items.
Proof.
  intros [_ (ss & Hs & Hf) Ht _]. apply Forall2_app_inv_r in Hf as (ss1 & ss2 & H1 & H2 & ->).
  apply Forall2_cons_inv_r in H2 as (pieces & ss3 & Hw & H3 & ->).
  apply Forall2_nil_inv_r in H3 as ->. apply Forall_app in Ht as [Ht Hi].
  exists ss1, pieces. split_and!; [done..|by rewrite Forall_singleton in Hi].
Qed.

Lemma runs_tcp_connect n told opened closed d (Q : bool → Drone W → Prop) R :
  talk n told opened closed d →
  (∀ d', talk n told opened closed d' → Q false d') →
  (∀ d', talk n (told ++ [([], [])]) opened closed d' → Q true d') →
  runs tcp_connect d Q R.
Proof.
  intros Hk Hf Ht. apply runs_bind. apply (runs_ask _ n told opened closed); [done|].
  intros [] d1 _ Hk1; apply runs_bind; [apply runs_modify|apply runs_ret]; apply runs_ret;
    [apply Ht|by apply Hf].
  destruct Hk1 as [Hn (ss & Hs & Hw) Hty Hc]. split; cbn; [done| | |].
  - exists (ss ++ [[]]). rewrite Hs, app_assoc. split; [done|]. by apply Forall2_snoc.
  - by apply Forall_snoc.
  - by rewrite all_items_snoc, app_nil_r.
Qed.

(** A piece is written at the end of the last speech, or nothing is. *)
Lemma runs_send_packet data n told items cut opened closed d (Q : bool → Drone W → Prop) R :
  talk n (told ++ [(items, cut)]) opened closed d →
  (∀ d', talk n (told ++ [(items, cut)]) opened closed d' → Q false d') →
  (∀ d', talk n (told ++ [(items, cut ++ data)]) opened closed d' → Q true d') →
  runs (send_packet data) d Q R.
Proof.
  intros Hk Hf Ht. apply runs_bind. apply (runs_ask _ n (told ++ [(items, cut)]) opened closed); [done|].
  intros [] d1 _ Hk1; apply runs_bind; [apply runs_modify|apply runs_ret]; apply runs_ret;
    [apply Ht|by apply Hf].
  destruct (talk_last _ _ _ _ _ _ _ Hk1) as (ss & pieces & Hs & Hw & Hl & Hty & Hi).
  destruct Hk1 as [Hn _ _ Hc]. split; cbn; [done| | |].
  - exists (ss ++ [pieces ++ [data]]). rewrite Hs, app_assoc, append_last_snoc, <-app_assoc.
    split; [done|]. apply Forall2_snoc; [done|]. by apply (written_snoc _ _ data) in Hl.
  - by apply Forall_snoc.
  - by rewrite all_items_snoc in Hc |- *.
Qed.

(** A packet that is complete is counted. *)
Lemma runs_record_packet i n told items opened closed d (Q : unit → Drone W → Prop) R :
  talk n (told ++ [(items, wire i)]) opened closed d → typical p id i →
  (∀ d', talk n (told ++ [(items ++ [i], [])]) opened closed d' → Q tt d') →
  runs (record (record_packet p (zlen (wire i)) i.2)) d Q R.
Proof.
  intros Hk Hi HQ. apply runs_modify, HQ.
  destruct (talk_last _ _ _ _ _ _ _ Hk) as (ss & pieces & Hs & Hw & Hl & Hty & His).
  destruct Hk as [Hn _ _ Hc]. rewrite all_items_snoc in Hc. split; cbn; [done| | |].
  - exists (ss ++ [pieces]). split; [done|]. apply Forall2_snoc; [done|].
    unfold written in *. cbn [fst snd] in *. rewrite Hl, map_app, concat_app. cbn. by rewrite !app_nil_r.
  - apply Forall_snoc; [done|]. by apply Forall_snoc.
  - rewrite all_items_snoc, app_assoc. destruct Hc as [H1 H2 H3 H4 H5 H6 H7].
    revert H1 H2 H3 H4. generalize (concat (map fst told) ++ items). intros all H1 H2 H3 H4.
    split; unfold damaged in *; cbn; try done.
    + rewrite H1, zlen_app, zlen_cons, zlen_nil. lia.
    + rewrite H2, map_app, concat_app, zlen_app. cbn. rewrite app_nil_r. lia.
    + rewrite H3, List.filter_app, zlen_app. cbn. destruct i.2; rewrite ?zlen_cons, ?zlen_nil; lia.
    + intros q. specialize (H4 q). case_decide; rewrite ?zlen_app, ?zlen_cons, ?zlen_nil; lia.
Qed.

(** ** Stages of a coroutine *)

Definition plain told : Prop := Forall (λ u : speech, cut_off u.2) told.

(** On a connection, between two packets. *)
Definition conversing told n d : Prop :=
  ∃ items, talk n (told ++ [(items, [])]) (zlen told + 1) (zlen told) d.

(** On a connection on which nothing more will be said. *)
Definition closing told n d : Prop :=
  ∃ items cut, cut_off cut ∧ talk n (told ++ [(items, cut)]) (zlen told + 1) (zlen told) d.

(** On no connection. *)
Definition quiet n d : Prop := ∃ told, plain told ∧ talk n told (zlen told) (zlen told) d.

Lemma conversing_closing told n d : conversing told n d → closing told n d.
Proof. intros [items Hk]. exists items, []. split; [apply cut_off_nil|done]. Qed.

Lemma quiet_looks n d : quiet n d → (looks_left (world d) <= n)%nat.
Proof. by intros (told & _ & [Hn _ _ _]). Qed.

Lemma conversing_looks told n d : conversing told n d → (looks_left (world d) <= n)%nat.
Proof. by intros (items & [Hn _ _ _]). Qed.

Lemma quiet_weaken n m d : (n <= m)%nat → quiet n d → quiet m d.
Proof.
  intros Hm (told & Hp & Hk). exists told. split; [done|by apply (talk_weaken n)].
Qed.

Lemma conversing_weaken told n m d : (n <= m)%nat → conversing told n d → conversing told m d.
Proof. intros Hm [items Hk]. exists items. by apply (talk_weaken n). Qed.

Lemma closing_weaken told n m d : (n <= m)%nat → closing told n d → closing told m d.
Proof.
  intros Hm (items & cut & Hc & Hk). exists items, cut. split; [done|by apply (talk_weaken n)].
Qed.

(** ** Pieces of the profiles *)

(** Nothing is thrown in a [try] block here. *)
Lemma runs_finally {A} (m : M (Drone W) A) f d (Q : A → Drone W → Prop) :
  runs m d (λ a d', runs f d' (λ _ d'', Q a d'') never) never → runs (finally m f) d Q never.
Proof.
  unfold runs, finally, never. destruct (m d) as [[a|e| | |] d']; try done.
  unfold mbind, M_bind. by destruct (f d') as [[[]|e| | |] d''].
Qed.

Lemma runs_hang_up told n d :
  plain told → closing told n d → runs hang_up d (λ _ d', quiet n d') never.
Proof.
  intros Hp (items & cut & Hc & Hk). apply runs_bind. eapply runs_ask; [exact Hk|].
  intros _ d1 _ Hk1. eapply (runs_record _ _ _ _ (zlen told + 1) _ (zlen told + 1)); [exact Hk1| |].
  - intros [H1 H2 H3 H4 H5 H6 H7]. split; cbn; try done; lia.
  - intros d2 Hk2. exists (told ++ [(items, cut)]). split; [by apply Forall_snoc|].
    by rewrite zlen_app, zlen_cons, zlen_nil.
Qed.

(** [record_connect] after a connection has come about. *)
Lemma runs_record_connect told n d :
  talk n (told ++ [([], [])]) (zlen told) (zlen told) d →
  runs (record record_connect) d (λ _ d', conversing told n d') never.
Proof.
  intros Hk. eapply (runs_record _ _ _ _ (zlen told + 1) _ (zlen told)); [exact Hk| |].
  - intros [H1 H2 H3 H4 H5 H6 H7]. split; cbn; try done; lia.
  - intros d1 Hk1. by exists [].
Qed.

(** Counters that are not bounded by what was said. *)
Lemma runs_record_failure f n told opened closed d :
  f = record_connect_failure ∨ f = record_send_error →
  talk n told opened closed d →
  runs (record f) d (λ _ d', talk n told opened closed d') never.
Proof.
  intros Hf Hk. eapply (runs_record _ _ _ opened opened closed closed); [exact Hk| |done].
  intros [H1 H2 H3 H4 H5 H6 H7]. by destruct Hf as [-> | ->]; split.
Qed.

Lemma runs_random_telemetry (force : bool) n told opened closed d :
  force = bool_decide (p = THRESHOLD) → talk n told opened closed d →
  runs (random_telemetry id force) d
    (λ t d', (∀ c, (c = true → p = CORRUPTED) → typical p id (t, c)) ∧ drone_id t = id
             ∧ telemetry_ok t ∧ talk n told opened closed d') never.
Proof.
  intros Hforce Hk.
  do 5 (apply runs_bind; eapply runs_ask; [eassumption|];
        let a := fresh "a" in let d := fresh "d" in let Ha := fresh "Ha" in
        intros a d Ha ?; cbn [documented] in Ha).
  specialize (Ha ltac:(lia)). specialize (Ha0 ltac:(lia)). specialize (Ha1 ltac:(lia)).
  specialize (Ha2 ltac:(lia)).
  assert (∀ alt speed (d' : Drone W), is_u64 alt → is_u64 speed →
    (alerts (mkTelemetry id a a0 alt speed a3) = [] ↔ p ≠ THRESHOLD) →
    talk n told opened closed d' →
    let t := mkTelemetry id a a0 alt speed a3 in
    (∀ c, (c = true → p = CORRUPTED) → typical p id (t, c)) ∧ drone_id t = id
    ∧ telemetry_ok t ∧ talk n told opened closed d') as Hfinish.
  { intros alt speed d' Halt Hspeed Hal Hend t. assert (telemetry_ok t) by (by destruct Ha, Ha0).
    split_and!; [|done..]. intros c Hc. split; [done| |done|done]. split; [done|].
    pose proof id_ok as Hz. unfold acceptable in Hz. apply andb_true_iff in Hz as [_ Hz].
    by apply Z.leb_le in Hz. }
  subst force. case_bool_decide as Hp.
  - apply runs_bind. eapply runs_ask; [eassumption|]. intros [] d5 _ ?;
      (apply runs_bind; eapply runs_ask; [eassumption|]; intros b d6 Hb ?; apply runs_ret);
      specialize (Hb ltac:(lia)); apply Hfinish; try done; try by destruct Ha1, Ha2, Hb.
    + split; [|done]. intros E. exfalso. revert E. apply some_alert. left.
      by apply (exceeds_between 120 121 500).
    + split; [|done]. intros E. exfalso. revert E. apply some_alert. right.
      by apply (exceeds_between 50 51 200).
  - apply runs_ret, Hfinish; try done; try by destruct Ha1, Ha2.
    split; [done|]. intros _. apply no_alerts; cbn.
    + by apply (exceeds_between 120 0 100).
    + by apply (exceeds_between 50 0 40).
Qed.

(** A packet of random telemetry. *)
Lemma runs_packet (corrupt : bool) n told opened closed d (k : list byte → M (Drone W) control) Q :
  (corrupt = true → p = CORRUPTED) → talk n told opened closed d →
  (∀ i d', typical p id i → i.2 = corrupt → talk n told opened closed d' → runs (k (wire i)) d' Q never) →
  runs (t ← random_telemetry id (bool_decide (p = THRESHOLD));
        pkt ← lift (build_packet t corrupt); k pkt) d Q never.
Proof.
  intros Hc Hk HQ. apply runs_bind. eapply runs_consequence; [by apply runs_random_telemetry| |done].
  intros t d1 (Hty & Hid & Hok & Hk1). apply runs_bind.
  destruct (build_packet_ok t corrupt) as [-> _]; [by rewrite Hid|done|].
  by apply (HQ (t, corrupt)); [apply Hty| |].
Qed.

Lemma runs_transmit i told n d :
  conversing told n d → typical p id i →
  runs (transmit p (wire i) i.2) d (λ _ d', conversing told n d') never.
Proof.
  intros [items Hk] Hi. apply runs_bind. eapply runs_send_packet; [exact Hk| |]; intros d1 Hk1.
  - apply runs_bind. eapply runs_consequence; [eapply runs_record_failure; [by right|exact Hk1]| |done].
    intros [] d2 Hk2. apply runs_ret. by exists items.
  - apply runs_bind. eapply runs_record_packet; [exact Hk1|done|]. intros d2 Hk2.
    apply runs_bind. eapply runs_ask; [exact Hk2|]. intros _ d3 _ Hk3. apply runs_ret.
    by exists (items ++ [i]).
Qed.

(** A look at the clock, at a stage. *)
Definition stage (I : nat → Drone W → Prop) : Prop :=
  (∀ n m d, (n <= m)%nat → I n d → I m d)
  ∧ ∀ n d, I n d → runs (ask BeforeEnd) d
      (λ (a : bool) d', if a then ∃ m, (m < n)%nat ∧ I m d' else I n d') never.

Lemma conversing_stage told : stage (conversing told).
Proof.
  split; [intros n m d; apply conversing_weaken|]. intros n d [items Hk].
  eapply runs_look; [exact Hk|]. intros [] d1 Hk1; [|by exists items].
  destruct Hk1 as (m & Hm & Hk1). exists m. split; [done|by exists items].
Qed.

Lemma quiet_stage : stage quiet.
Proof.
  split; [intros n m d; apply quiet_weaken|]. intros n d (told & Hp & Hk).
  eapply runs_look; [exact Hk|]. intros [] d1 Hk1; [|by exists told].
  destruct Hk1 as (m & Hm & Hk1). exists m. split; [done|by exists told].
Qed.

(** The loops end: every round looks at the clock. *)
Lemma runs_while_before_end (I Q : nat → Drone W → Prop) fuel body n d :
  stage I → (∀ n d, I n d → Q n d) → (∀ n m d, (n <= m)%nat → Q n d → Q m d) →
  (∀ n d, I n d → runs body d (λ c d', match c with Continue => I n d' | Break => Q n d' end) never) →
  I n d → (n < fuel)%nat →
  runs (while_before_end fuel body) d (λ _ d', Q n d') never.
Proof.
  intros [Hw Hl] Hq Hqw Hb. unfold while_before_end.
  revert n d. induction fuel as [|fuel IH]; intros n d Hi Hn; [lia|]. cbn [while_true].
  apply runs_bind, runs_bind. eapply runs_consequence; [by apply (Hl n)| |done].
  intros [] d1; [|intros Hi1; by apply runs_ret, runs_ret, Hq].
  intros (m & Hm & Hi1). eapply runs_consequence; [by apply (Hb m)| |done].
  intros [] d2 Hd2; [|by apply runs_ret, (Hqw m); [lia|]].
  eapply runs_consequence; [apply (IH m); [done|lia]| |done].
  intros [] d3. apply Hqw. lia.
Qed.

(** A profile's loop on one connection. *)
Lemma runs_talking fuel body told n d :
  (∀ n d, conversing told n d → runs body d
     (λ c d', match c with Continue => conversing told n d' | Break => closing told n d' end) never) →
  plain told → conversing told n d → (n < fuel)%nat →
  runs (finally (while_before_end fuel body) hang_up) d (λ _ d', quiet n d') never.
Proof.
  intros Hb Hp Hd Hn. apply runs_finally. eapply runs_consequence; [|intros ? ?; by apply runs_hang_up|done].
  apply (runs_while_before_end (conversing told) (closing told)); try done.
  - apply conversing_stage.
  - intros ? ?. apply conversing_closing.
  - intros ? ? ?. apply closing_weaken.
Qed.

(** The body of the loops that send whole packets. *)
Lemma runs_send_whole (corrupt : bool) told n d :
  (corrupt = true → p = CORRUPTED) → conversing told n d →
  runs (t ← random_telemetry id (bool_decide (p = THRESHOLD));
        pkt ← lift (build_packet t corrupt); transmit p pkt corrupt) d
    (λ c d', match c with
             | Continue => conversing told n d'
             | Break => closing told n d'
             end) never.
Proof.
  intros Hc [items Hk]. eapply runs_packet; [done|exact Hk|]. intros i d1 Hi <- Hk1.
  eapply runs_consequence; [apply runs_transmit; [by exists items|done]| |done].
  intros [] d2 Hd2; [done|by apply conversing_closing].
Qed.

Lemma runs_with_connection body n d :
  (∀ told d', plain told → conversing told n d' →
     runs (finally body hang_up) d' (λ _ d'', quiet n d'') never) →
  quiet n d → runs (with_connection body) d (λ _ d', quiet n d') never.
Proof.
  intros Hb (told & Hp & Hk). apply runs_bind. eapply runs_tcp_connect; [exact Hk| |]; intros d1 Hk1.
  - eapply runs_consequence; [eapply runs_record_failure; [by left|exact Hk1]| |done].
    intros [] d2 Hk2. by exists told.
  - apply runs_bind. eapply runs_consequence; [by apply runs_record_connect| |done].
    intros [] d2 Hd2. by apply (Hb told).
Qed.

(** ** The trickling profile *)

Lemma drop_slice_take (off k : Z) (pkt : list byte) :
  0 <= off → 0 <= k →
  take (Z.to_nat off) pkt ++ slice off k pkt = take (Z.to_nat (off + k)) pkt.
Proof.
  intros Ho Hk. unfold slice. rewrite take_take_drop. f_equal. lia.
Qed.

(** The pieces make the whole packet, or what was sent of it is cut off. *)
Lemma runs_trickle i fuel offset items told n opened closed d (Q : bool → Drone W → Prop) :
  typical p id i → i.2 = false → 0 <= offset →
  talk n (told ++ [(items, take (Z.to_nat offset) (wire i))]) opened closed d →
  (length (drop (Z.to_nat offset) (wire i)) < fuel)%nat →
  (∀ cut d', cut_off cut → talk n (told ++ [(items, cut)]) opened closed d' → Q false d') →
  (∀ d', talk n (told ++ [(items, wire i)]) opened closed d' → Q true d') →
  runs (trickle fuel offset (wire i)) d Q never.
Proof.
  intros Hi Hv Ho Hk Hf Hcut Hall. revert offset d Ho Hk Hf.
  induction fuel as [|fuel IH]; intros offset d Ho Hk Hf; [lia|]. cbn [trickle].
  rewrite length_drop in Hf. destruct (Z.ltb_spec offset (zlen (wire i))) as [Hlt|Hge].
  - apply runs_bind. eapply runs_ask; [exact Hk|]. intros size d1 Hs Hk1.
    cbn [documented] in Hs. specialize (Hs ltac:(lia)).
    apply runs_bind. eapply runs_send_packet; [exact Hk1| |]; intros d2 Hk2.
    + apply runs_ret. eapply Hcut; [|exact Hk2].
      exists i.1, (drop (Z.to_nat offset) (wire i)). split_and!.
      * by apply Hi.
      * rewrite take_drop. destruct i as [t c]. cbn in *. by subst c.
      * intros E. apply (f_equal length) in E. rewrite length_drop in E. unfold zlen in *.
        cbn in E. lia.
    + rewrite drop_slice_take in Hk2 by lia. apply runs_bind.
      eapply runs_ask; [exact Hk2|]. intros _ d3 _ Hk3.
      apply IH; [lia|done|]. rewrite length_drop. unfold zlen in *. lia.
  - apply runs_ret, Hall. by rewrite take_ge in Hk by (unfold zlen in *; lia).
Qed.

(** ** The profiles *)

Lemma runs_normal fuel n d :
  p = NORMAL → quiet n d → (n < fuel)%nat → runs (run_normal fuel id) d (λ _ d', quiet n d') never.
Proof.
  intros Hp Hq Hn. apply runs_with_connection; [|done]. intros told d1 Ht Hc.
  eapply runs_talking; [|done..]. clear - Hp id_ok. intros n d Hc.
  pose proof (runs_send_whole false told n d ltac:(done) Hc) as Hs. by rewrite Hp in Hs.
Qed.

Lemma runs_threshold fuel n d :
  p = THRESHOLD → quiet n d → (n < fuel)%nat →
  runs (run_threshold fuel id) d (λ _ d', quiet n d') never.
Proof.
  intros Hp Hq Hn. apply runs_with_connection; [|done]. intros told d1 Ht Hc.
  eapply runs_talking; [|done..]. clear - Hp id_ok. intros n d Hc.
  pose proof (runs_send_whole false told n d ltac:(done) Hc) as Hs. by rewrite Hp in Hs.
Qed.

Lemma runs_corrupted fuel n d :
  p = CORRUPTED → quiet n d → (n < fuel)%nat →
  runs (run_corrupted fuel id) d (λ _ d', quiet n d') never.
Proof.
  intros Hp Hq Hn. apply runs_with_connection; [|done]. intros told d1 Ht Hc.
  eapply runs_talking; [|done..]. clear - Hp id_ok. intros n d [items Hk].
  apply runs_bind. eapply runs_ask; [exact Hk|]. intros corrupt d2 _ Hk2.
  pose proof (runs_send_whole corrupt told n d2 ltac:(done) ltac:(by exists items)) as Hs.
  by rewrite Hp in Hs.
Qed.

Lemma runs_send_burst burst told n d :
  p = CHURNER → conversing told n d →
  runs (send_burst burst id) d (λ _ d', conversing told n d') never.
Proof.
  intros Hp. revert n d. induction burst as [|burst IH]; intros n d Hd; [by apply runs_ret|].
  cbn [send_burst]. apply runs_bind. destruct (conversing_stage told) as [_ Hl].
  eapply runs_consequence; [by apply (Hl n)| |done].
  intros [] d1; [|intros Hd1; by apply runs_ret]. intros (m & Hm & Hd1). cbn [negb].
  destruct Hd1 as [items Hk1].
  assert (p = THRESHOLD ↔ False) as Ht by (by rewrite Hp).
  apply runs_bind. eapply runs_consequence; [apply (runs_random_telemetry false); [|exact Hk1]| |done].
  { by rewrite bool_decide_eq_false_2 by tauto. }
  intros t d2 (Hty & Hid & Hok & Hk2). apply runs_bind.
  destruct (build_packet_ok t false) as [-> _]; [by rewrite Hid|done|]. apply runs_bind.
  eapply runs_consequence; [rewrite <-Hp; apply (runs_transmit (t, false)); [by exists items|by apply Hty]| |done].
  intros [] d3 Hd3; [|by apply runs_ret, (conversing_weaken told m); [lia|]].
  eapply runs_consequence; [by apply (IH m)| |done]. intros [] d4. apply conversing_weaken. lia.
Qed.

Lemma runs_churner fuel n d :
  p = CHURNER → quiet n d → (n < fuel)%nat →
  runs (run_churner fuel id) d (λ _ d', quiet n d') never.
Proof.
  intros Hp Hq Hn. apply (runs_while_before_end quiet quiet); try done; [apply quiet_stage| |].
  { intros ? ? ?. apply quiet_weaken. }
  clear - Hp id_ok. intros n d (told & Ht & Hk).
  apply runs_bind. eapply runs_tcp_connect; [exact Hk| |]; intros d1 Hk1; cbn [negb].
  - apply runs_bind. eapply runs_consequence; [eapply runs_record_failure; [by left|exact Hk1]| |done].
    intros [] d2 Hk2. apply runs_bind. eapply runs_ask; [exact Hk2|]. intros [] d3 _ Hk3.
    apply runs_ret. by exists told.
  - apply runs_bind. eapply runs_consequence; [by apply runs_record_connect| |done].
    intros [] d2 [items Hk2]. apply runs_bind. eapply runs_ask; [exact Hk2|]. intros burst d3 _ Hk3.
    apply runs_bind, runs_finally.
    eapply runs_consequence; [apply runs_send_burst; [done|by exists items]| |done].
    intros [] d4 Hd4. eapply runs_consequence;
      [by apply (runs_hang_up told), conversing_closing| |done].
    intros [] d5 (told' & Ht' & Hk5). apply runs_bind. eapply runs_ask; [exact Hk5|].
    intros [] d6 _ Hk6. apply runs_ret. by exists told'.
Qed.

Lemma runs_ramper fuel n d :
  p = RAMPER → quiet n d → (n < fuel)%nat → runs (run_ramper fuel id) d (λ _ d', quiet n d') never.
Proof.
  intros Hp Hq Hn. apply runs_bind. destruct quiet_stage as [Hw Hl].
  eapply runs_consequence; [by apply (Hl n)| |done].
  intros [] d1; [|intros Hd1; by apply runs_ret]. intros (m & Hm & told & Ht & Hk1). cbn [negb].
  apply runs_bind. eapply runs_ask; [exact Hk1|]. intros [] d2 _ Hk2.
  apply runs_bind. eapply runs_tcp_connect; [exact Hk2| |]; intros d3 Hk3; cbn [negb].
  { eapply runs_consequence; [eapply runs_record_failure; [by left|exact Hk3]| |done].
    intros [] d4 Hk4. apply (Hw m); [lia|]. by exists told. }
  apply runs_bind. eapply runs_consequence; [by apply runs_record_connect| |done].
  intros [] d4 Hd4. apply runs_bind. destruct (conversing_stage told) as [_ Hc].
  eapply runs_consequence; [by apply (Hc m)| |done]. intros [] d5; cbn [negb].
  - intros (k & Hlt & Hd5). eapply runs_consequence; [eapply (runs_talking _ _ told k); [|done..|lia]| |done].
    + clear - Hp id_ok. intros n d Hc.
      pose proof (runs_send_whole false told n d ltac:(done) Hc) as Hs. by rewrite Hp in Hs.
    + intros [] d6. apply Hw. lia.
  - intros Hd5. eapply runs_consequence; [by apply (runs_hang_up told), conversing_closing| |done].
    intros [] d6. apply Hw. lia.
Qed.

Lemma runs_trickler fuel n d :
  p = TRICKLER → quiet n d → (n < fuel)%nat →
  runs (run_trickler fuel id) d (λ _ d', quiet n d') never.
Proof.
  intros Hp Hq Hn. apply runs_with_connection; [|done]. intros told d1 Ht Hc.
  eapply runs_talking; [|done..]. clear - Hp id_ok. intros n d [items Hk].
  assert (p = THRESHOLD ↔ False) as Hth by (by rewrite Hp).
  apply runs_bind. eapply runs_consequence; [apply (runs_random_telemetry false); [|exact Hk]| |done].
  { by rewrite bool_decide_eq_false_2 by tauto. }
  intros t d2 (Hty & Hid & Hok & Hk2). apply runs_bind.
  destruct (build_packet_ok t false) as [-> _]; [by rewrite Hid|done|]. apply runs_bind.
  eapply (runs_trickle (t, false) _ 0 items told); [by apply Hty|done|done| |rewrite length_drop; lia| |].
  { by rewrite take_0. }
  - intros cut d3 Hcut Hk3. cbn [negb]. apply runs_bind.
    eapply runs_consequence; [eapply runs_record_failure; [by right|exact Hk3]| |done].
    intros [] d4 Hk4. apply runs_ret. by exists items, cut.
  - intros d3 Hk3. cbn [negb]. apply runs_bind. rewrite <-Hp.
    eapply (runs_record_packet (t, false)); [exact Hk3|by apply Hty|]. intros d4 Hk4.
    apply runs_bind. eapply runs_ask; [exact Hk4|]. intros [] d5 _ Hk5. apply runs_ret.
    by exists (items ++ [(t, false)]).
Qed.

(** Whatever its profile, a drone that has started says what it should, and
    comes to an end with all its connections closed. *)
Lemma runs_profile fuel :
  (looks_left (world base) < fuel)%nat →
  runs (run p fuel id) base (λ _ d', quiet (looks_left (world base)) d') never.
Proof.
  intros Hn. assert (quiet (looks_left (world base)) base) as Hq.
  { exists []. split; [by constructor|by apply talk_start]. }
  assert (∀ q, p = q →
    runs (run q fuel id) base (λ _ d', quiet (looks_left (world base)) d') never) as Hr;
    [|by apply Hr].
  intros [] E; cbn [run];
    [apply runs_normal|apply runs_threshold|apply runs_corrupted|apply runs_churner
    |apply runs_ramper|apply runs_trickler]; done.
Qed.

End Talk.
