(* ===== verification/TesterProgress.v ===== *)
(** * The load tester keeps sending

    A world whose clock and coins are on record ([Timed]), and what a drone has
    made of them: whenever it has found that the test was not over yet, it has
    sent a packet or recorded a failure; it has stopped only because the test was
    over or because of a failure; and it has damaged a packet whenever the coin
    has told it to. *)

From S2P Require Import Prelude Telemetry Float64 Triples Tester.

Import Tester.

(** ** The clock on record *)

(** A world, and every answer so far to the question whether the test goes on
    and to a toss of the coin. *)
Record Timed (W : Type) := mkTimed { inner : W; clock : list bool; coins : list bool }.
Arguments mkTimed {W} _ _ _.
Arguments inner {W} _.
Arguments clock {W} _.
Arguments coins {W} _.

Definition noted {A} (q : question A) : A → list bool :=
  match q with BeforeEnd => λ b, [b] | _ => λ _, [] end.

Definition tossed {A} (q : question A) : A → list bool :=
  match q with Chance => λ b, [b] | _ => λ _, [] end.

(** A world is never guessed. *)
#[export] Hint Mode World ! : typeclass_instances.

#[export] Instance timed_world `{World W} : World (Timed W) := λ A q w,
  let '(a, w') := ask_world q (inner w) in
  (a, mkTimed w' (clock w ++ noted q a) (coins w ++ tossed q a)).

#[export] Instance timed_laws `{WorldLaws W} : WorldLaws (Timed W).
Proof.
  refine {| looks_left := λ w, looks_left (inner w) |}; unfold ask_world, timed_world.
  - intros A q w. pose proof (answer_documented q (inner w)).
    by destruct (ask_world q (inner w)).
  - intros A q w. pose proof (answer_looks q (inner w)). by destruct (ask_world q (inner w)).
  - intros w. pose proof (look_taken (inner w)). by destruct (ask_world BeforeEnd (inner w)).
Defined.

(** A drone whose clock and coins are on record from now on. *)
Definition timed {W} (d : Drone W) : Drone (Timed W) :=
  mkDrone (mkTimed (world d) [] []) (stats d) (streams d).

Section Progress.
Context {W : Type} `{World W}.
Implicit Types (d : Drone (Timed W)).

(** How often the test was not over yet, how often the coin has fallen heads, and
    whether the test was over at last. *)
Definition seen d : Z := zlen (List.filter id (clock (world d))).
Definition heads d : Z := zlen (List.filter id (coins (world d))).
Definition over d : Prop := last (clock (world d)) = Some false.

Definition failed d : Z := send_errors (stats d) + connect_failures (stats d).

(** ** The elementary steps *)

Definition untouched d d' : Prop := stats d' = stats d ∧ clock (world d') = clock (world d).

#[local] Instance untouched_preorder : PreOrder untouched.
Proof.
  split; [done|]. intros d1 d2 d3 [E1 E2] [E3 E4]. split; congruence.
Qed.

Lemma ask_untouched {A} (q : question A) :
  (∀ a, noted q a = []) → preserves untouched (ask q).
Proof.
  intros Hq d. unfold ask, ask_world, timed_world. destruct (ask_world q (inner (world d))) as [a w].
  split; cbn; [done|by rewrite Hq, app_nil_r].
Qed.

Lemma with_streams_untouched f : preserves untouched (with_streams f).
Proof. by intros d. Qed.

Lemma lift_untouched {A} (o : outcome A) : preserves untouched (lift o).
Proof. by intros d. Qed.

#[local] Hint Resolve with_streams_untouched lift_untouched : preserves.
#[local] Hint Extern 1 (preserves _ (ask _)) => apply ask_untouched; reflexivity : preserves.

Lemma random_telemetry_untouched id force : preserves untouched (random_telemetry id force).
Proof. unfold random_telemetry. preserving. Qed.

Lemma tcp_connect_untouched : preserves untouched tcp_connect.
Proof. unfold tcp_connect. preserving. Qed.

Lemma send_packet_untouched data : preserves untouched (send_packet data).
Proof. unfold send_packet. preserving. Qed.

#[local] Hint Resolve random_telemetry_untouched tcp_connect_untouched send_packet_untouched
  : preserves.

Lemma trickle_untouched fuel offset pkt : preserves untouched (trickle fuel offset pkt).
Proof.
  revert offset. induction fuel as [|fuel IH]; intros offset; cbn [trickle]; preserving.
Qed.

#[local] Hint Resolve trickle_untouched : preserves.

(** ** What a drone owes *)

Variables (base : Drone (Timed W)) (p : ProfileType).

(** The rounds in which it has neither sent a packet nor failed; a round of a
    churning drone's outer loop is a connection. *)
Definition due d : Z :=
  seen d - packets_sent (stats d) - send_errors (stats d)
  - (if decide (p = CHURNER) then connections_opened (stats d) + connect_failures (stats d) else 0).

Record ahead (k : Z) d : Prop := {
  ahead_due : due d = due base + k;
  ahead_errors : send_errors (stats base) <= send_errors (stats d);
  ahead_failures : connect_failures (stats base) <= connect_failures (stats d)
}.

(** It has stopped, and for a reason. *)
Definition ended (k : Z) d : Prop := ahead k d ∧ (over d ∨ failed base < failed d).

Lemma ahead_untouched k d d' : untouched d d' → ahead k d → ahead k d'.
Proof.
  intros [E1 E2] [H1 H2 H3]. split; [|by rewrite E1..]. rewrite <-H1.
  unfold due, seen. by rewrite E1, E2.
Qed.

Lemma returning_untouched {A} (m : M (Drone (Timed W)) A) k d (Q : A → Drone (Timed W) → Prop) :
  preserves untouched m → ahead k d → (∀ a d', ahead k d' → Q a d') → returning m d Q.
Proof.
  intros Hm Hk HQ. eapply returning_consequence; [by apply (preserves_returning untouched)|].
  intros a d' Hu. by apply HQ, (ahead_untouched k d).
Qed.

Lemma returning_look k d (Q : bool → Drone (Timed W) → Prop) :
  ahead k d → (∀ d', ahead (k + 1) d' → Q true d') → (∀ d', ended k d' → Q false d') →
  returning (ask BeforeEnd) d Q.
Proof.
  intros [H1 H2 H3] Ht Hf a d'. unfold ask, ask_world, timed_world.
  destruct (ask_world BeforeEnd (inner (world d))) as [b w]. intros [= <- <-].
  unfold due, seen in H1. destruct b; [apply Ht|apply Hf; split; [|left; by apply last_snoc]];
    (split; [|done..]); unfold due, seen; cbn; rewrite List.filter_app, zlen_app; cbn;
    rewrite ?zlen_cons, ?zlen_nil; lia.
Qed.

(** A recorded event and what it changes. *)
Lemma returning_record f k k' d :
  ahead k d →
  (let st := stats d in let st' := f (stats d) in
   send_errors st <= send_errors st' ∧ connect_failures st <= connect_failures st'
   ∧ packets_sent st' + send_errors st'
     + (if decide (p = CHURNER) then connections_opened st' + connect_failures st' else 0)
     = packets_sent st + send_errors st
       + (if decide (p = CHURNER) then connections_opened st + connect_failures st else 0) + (k - k')) →
  returning (record f) d (λ _ d', ahead k' d' ∧ stats d' = f (stats d) ∧ clock (world d') = clock (world d)).
Proof.
  intros [H1 H2 H3] (Hf1 & Hf2 & Hf3). apply returning_modify.
  split_and!; [|done..]. split; cbn; [|lia..]. unfold due, seen in *. cbn. lia.
Qed.

(** A failure ends a drone's run. *)
Lemma returning_failure f k k' d :
  f = record_send_error ∧ k' = k - 1
  ∨ f = record_connect_failure ∧ k' = k - (if decide (p = CHURNER) then 1 else 0) →
  ahead k d → returning (record f) d (λ _ d', ended k' d').
Proof.
  intros Hf Hk. eapply returning_consequence; [apply (returning_record f k k' d Hk)|].
  - destruct Hf as [[-> ->]|[-> ->]]; cbn; case_decide; lia.
  - intros _ d' (Hk' & E & _). split; [done|right]. unfold failed. rewrite E.
    destruct Hk as [_ H2 H3]. destruct Hf as [[-> _]|[-> _]]; cbn; lia.
Qed.

Lemma returning_connect k d :
  ahead k d →
  returning (record record_connect) d (λ _ d', ahead (k - if decide (p = CHURNER) then 1 else 0) d').
Proof.
  intros Hk. eapply returning_consequence; [apply (returning_record _ k (k - if decide (p = CHURNER) then 1 else 0) d Hk)|by intros _ d' []].
  cbn. case_decide; lia.
Qed.

(** What a round comes to. *)
Definition round_done (k : Z) (c : control) d : Prop :=
  match c with Continue => ahead k d | Break => ended k d end.

Lemma returning_sent (q : ProfileType) (n : Z) (c ok : bool) k d :
  ahead (k + 1) d →
  returning (if negb ok then record record_send_error;; mret Break
             else record (record_packet q n c);; ask Sleep;; mret Continue) d (round_done k).
Proof.
  intros Hk. destruct ok; cbn [negb]; apply returning_bind.
  - eapply returning_consequence; [apply (returning_record _ (k + 1) k d Hk)|].
    { cbn. case_decide; lia. }
    intros _ d2 [Hk2 _]. apply returning_bind.
    eapply returning_untouched; [preserving|exact Hk2|]. intros _ d3 Hk3.
    by apply returning_ret.
  - eapply returning_consequence; [apply (returning_failure _ (k + 1) k); [left; split; [done|lia]|done]|].
    intros [] d2 Hd2. by apply returning_ret.
Qed.

(** The rounds that send a packet each. *)
Lemma returning_rounds fuel body k d :
  (∀ d, ahead (k + 1) d → returning body d (round_done k)) →
  ahead k d → returning (while_before_end fuel body) d (λ _ d', ended k d').
Proof.
  intros Hb. apply (returning_while (ahead k) (ended k)). intros d1 Hk. apply returning_bind.
  eapply returning_look; [exact Hk|by apply Hb|]. intros d2 Hd2. by apply returning_ret.
Qed.

Lemma returning_finally {A} (m : M (Drone (Timed W)) A) f d (Q : A → Drone (Timed W) → Prop) :
  returning m d (λ a d', returning f d' (λ _ d'', Q a d'')) → returning (finally m f) d Q.
Proof.
  intros Hm a d2. unfold finally. destruct (m d) as [[b|e| | |] d1] eqn:E; try done;
    unfold mbind, M_bind; destruct (f d1) as [[[]|e'| | |] d3] eqn:E'; try done.
  intros [= <- <-]. by apply (Hm b d1 E tt d3).
Qed.

(** Hanging up changes nothing of this. *)
Lemma returning_hang_up d :
  returning hang_up d
    (λ _ d', (∀ k, ahead k d → ahead k d') ∧ (∀ k, ended k d → ended k d')).
Proof.
  apply returning_bind.
  eapply returning_consequence; [apply (preserves_returning untouched); preserving|].
  intros [] d1 [E1 E2]. apply returning_modify.
  assert (∀ k, ahead k d → ahead k (mkDrone (world d1) (record_disconnect (stats d1)) (streams d1)))
    as Ha.
  { intros k [H1 H2 H3]. split; cbn; rewrite E1; [|done..]. rewrite <-H1. unfold due, seen. cbn.
    by rewrite E2. }
  split; [done|]. intros k [Hk He]. split; [by apply Ha|].
  destruct He as [He|He]; [left|right]; [by unfold over; cbn; rewrite E2|].
  unfold failed in *. cbn. by rewrite E1.
Qed.

Lemma returning_then_hang_up (m : M (Drone (Timed W)) unit) k d :
  returning m d (λ _ d', ended k d') → returning (finally m hang_up) d (λ _ d', ended k d').
Proof.
  intros Hm. apply returning_finally. eapply returning_consequence; [exact Hm|].
  intros [] d1 Hd1. eapply returning_consequence; [apply returning_hang_up|].
  intros [] d2 [_ H2]. by apply H2.
Qed.

(** The next statement does not matter here. *)
Ltac skip_statement :=
  apply returning_bind; eapply returning_untouched; [preserving|eassumption|];
  let x := fresh "x" in let d := fresh "d" in intros x d ?.

(** A packet is made and sent. *)
Lemma returning_packet force id c q k d :
  ahead (k + 1) d →
  returning (t ← random_telemetry id force; pkt ← lift (build_packet t c); transmit q pkt c) d
    (round_done k).
Proof.
  intros Hk. do 3 skip_statement.
  by apply returning_sent.
Qed.

(** ** The profiles *)

Lemma returning_with_connection body d :
  p ≠ CHURNER → (∀ d, ahead 0 d → returning body d (λ _ d', ended 0 d')) →
  ahead 0 d → returning (with_connection body) d (λ _ d', ended 0 d').
Proof.
  intros Hp Hb Hk. apply returning_bind.
  eapply returning_untouched; [preserving|exact Hk|]. intros [] d1 Hk1; cbn [negb].
  - apply returning_bind. eapply returning_consequence; [by apply (returning_connect 0)|].
    rewrite decide_False by done. intros [] d2 Hk2. by apply returning_then_hang_up, Hb.
  - apply (returning_failure _ 0); [|done]. right. by rewrite decide_False.
Qed.

Lemma returning_corrupted fuel id d :
  p = CORRUPTED → ahead 0 d → returning (run_corrupted fuel id) d (λ _ d', ended 0 d').
Proof.
  intros Hp. apply returning_with_connection; [by rewrite Hp|]. intros d1. apply returning_rounds.
  intros d2 Hk. apply returning_bind. eapply returning_untouched; [preserving|exact Hk|].
  intros c d3 Hk3. by apply returning_packet.
Qed.

Lemma returning_trickler fuel id d :
  p = TRICKLER → ahead 0 d → returning (run_trickler fuel id) d (λ _ d', ended 0 d').
Proof.
  intros Hp. apply returning_with_connection; [by rewrite Hp|]. intros d1. apply returning_rounds.
  intros d2 Hk. do 3 skip_statement.
  by apply returning_sent.
Qed.

Lemma returning_steady q force fuel id d :
  p ≠ CHURNER → ahead 0 d →
  returning (with_connection (while_before_end fuel (
    t ← random_telemetry id force; pkt ← lift (build_packet t false); transmit q pkt false))) d
    (λ _ d', ended 0 d').
Proof.
  intros Hp. apply returning_with_connection; [done|]. intros d1. apply returning_rounds.
  intros d2 Hk. by apply returning_packet.
Qed.

Lemma returning_burst burst id k d :
  ahead k d → returning (send_burst burst id) d (λ _ d', ahead k d').
Proof.
  revert d. induction burst as [|burst IH]; intros d Hk; [by apply returning_ret|].
  cbn [send_burst]. apply returning_bind. eapply returning_look; [exact Hk| |].
  - intros d1 Hk1. cbn [negb]. do 2 skip_statement. apply returning_bind.
    assert (returning (transmit CHURNER x0 false) d2 (round_done k)) as Ht
      by (skip_statement; by apply returning_sent).
    eapply returning_consequence; [exact Ht|]. intros [] d3; [apply IH|].
    intros [Hk3 _]. by apply returning_ret.
  - intros d1 [Hk1 _]. by apply returning_ret.
Qed.

Lemma returning_churner fuel id d :
  p = CHURNER → ahead 0 d → returning (run_churner fuel id) d (λ _ d', ended 0 d').
Proof.
  intros Hp. apply returning_rounds. clear d. intros d Hk. skip_statement.
  destruct x; cbn [negb]; apply returning_bind.
  - eapply returning_consequence; [by apply returning_connect|].
    rewrite decide_True by done. intros [] d1 Hk1. skip_statement. apply returning_bind.
    apply returning_finally. eapply returning_consequence; [by apply returning_burst|].
    intros [] d3 Hk3. eapply returning_consequence; [apply returning_hang_up|].
    intros [] d4 [Hk4 _]. specialize (Hk4 _ Hk3). skip_statement. by apply returning_ret.
  - eapply returning_consequence; [eapply (returning_failure _ (0 + 1) 0); [|done]|].
    { right. by rewrite decide_True. }
    intros [] d1 [Hk1 _]. skip_statement. by apply returning_ret.
Qed.

Lemma returning_ramper fuel id d :
  p = RAMPER → ahead 0 d →
  returning (run_ramper fuel id) d (λ _ d', ∃ k, k <= 2 ∧ ended k d').
Proof.
  intros Hp Hk. apply returning_bind. eapply returning_look; [exact Hk| |];
    [|by intros d1 Hd1; apply returning_ret; exists 0].
  intros d1 Hk1. cbn [negb]. do 2 skip_statement. destruct x0; cbn [negb].
  - apply returning_bind. eapply returning_consequence; [by apply returning_connect|].
    rewrite decide_False by (by rewrite Hp). intros [] d4 Hk4. apply returning_bind.
    eapply returning_look; [exact Hk4| |]; intros d5 Hk5; cbn [negb].
    + eapply returning_consequence; [apply (returning_then_hang_up _ 2)|by intros [] d6; exists 2].
      apply returning_rounds; [|done]. intros d6 Hk6. by apply returning_packet.
    + eapply returning_consequence; [apply returning_hang_up|].
      intros [] d6 [_ H6]. eexists. split; [|by apply H6]. done.
  - eapply returning_consequence; [apply (returning_failure _ (0 + 1) 1); [|done]|].
    { right. by rewrite decide_False by (by rewrite Hp). }
    intros [] d4 Hd4. by exists 1.
Qed.

(** ** The coin of a corrupting drone *)

(** Every head is a damaged packet, but for writes that failed and for a packet
    that is still to be sent. *)
Definition honest (pending : bool) d : Prop :=
  0 <= (heads d - heads base)
       - (corrupt_packets_sent (stats d) - corrupt_packets_sent (stats base)) - Z.b2z pending
    <= send_errors (stats d) - send_errors (stats base).

Definition unmoved d d' : Prop := stats d' = stats d ∧ coins (world d') = coins (world d).

#[local] Instance unmoved_preorder : PreOrder unmoved.
Proof. split; [done|]. intros d1 d2 d3 [E1 E2] [E3 E4]. split; congruence. Qed.

Lemma ask_unmoved {A} (q : question A) :
  (∀ a, tossed q a = []) → preserves unmoved (ask q).
Proof.
  intros Hq d. unfold ask, ask_world, timed_world. destruct (ask_world q (inner (world d))) as [a w].
  split; cbn; [done|by rewrite Hq, app_nil_r].
Qed.

Lemma with_streams_unmoved f : preserves unmoved (with_streams f).
Proof. by intros d. Qed.

Lemma lift_unmoved {A} (o : outcome A) : preserves unmoved (lift o).
Proof. by intros d. Qed.

#[local] Hint Resolve with_streams_unmoved lift_unmoved : preserves.
#[local] Hint Extern 1 (preserves unmoved (ask _)) => apply ask_unmoved; reflexivity : preserves.

Lemma random_telemetry_unmoved id : preserves unmoved (random_telemetry id false).
Proof. unfold random_telemetry. preserving. Qed.

Lemma tcp_connect_unmoved : preserves unmoved tcp_connect.
Proof. unfold tcp_connect. preserving. Qed.

Lemma send_packet_unmoved data : preserves unmoved (send_packet data).
Proof. unfold send_packet. preserving. Qed.

#[local] Hint Resolve random_telemetry_unmoved tcp_connect_unmoved send_packet_unmoved : preserves.

Lemma returning_unmoved {A} (m : M (Drone (Timed W)) A) b d (Q : A → Drone (Timed W) → Prop) :
  preserves unmoved m → honest b d → (∀ a d', honest b d' → Q a d') → returning m d Q.
Proof.
  intros Hm Hd HQ. eapply returning_consequence; [by apply (preserves_returning unmoved)|].
  intros a d' [E1 E2]. apply HQ. unfold honest, heads in *. by rewrite E1, E2.
Qed.

Ltac skip_unmoved :=
  apply returning_bind; eapply returning_unmoved; [preserving|eassumption|];
  let x := fresh "x" in let d := fresh "d" in intros x d ?.

Lemma returning_toss d :
  honest false d → returning (ask Chance) d (λ b d', honest b d').
Proof.
  intros Hd b d'. unfold ask, ask_world, timed_world.
  destruct (ask_world Chance (inner (world d))) as [c w]. intros [= <- <-].
  unfold honest, heads in *. cbn. rewrite List.filter_app, zlen_app. cbn.
  unfold zlen in *. destruct c; cbn in *; lia.
Qed.

Lemma returning_tally f b d :
  honest b d →
  (let st := stats d in let st' := f (stats d) in
   0 <= corrupt_packets_sent st + Z.b2z b - corrupt_packets_sent st'
     <= send_errors st' - send_errors st) →
  returning (record f) d (λ _ d', honest false d').
Proof.
  intros Hd Hf. apply returning_modify. unfold honest, heads in *. cbn in *. lia.
Qed.

Lemma returning_damage id d :
  honest false d →
  returning (corrupt ← ask Chance; t ← random_telemetry id false;
             pkt ← lift (build_packet t corrupt); transmit CORRUPTED pkt corrupt) d
    (λ _ d', honest false d').
Proof.
  intros Hd. apply returning_bind. eapply returning_consequence; [by apply returning_toss|].
  intros b d1 Hd1. do 3 skip_unmoved. destruct x1; cbn [negb]; apply returning_bind;
    (eapply returning_consequence; [eapply returning_tally; [eassumption|]|]).
  - cbn. destruct b; cbn; lia.
  - intros [] d5 Hd5. skip_unmoved. by apply returning_ret.
  - cbn. destruct b; cbn; lia.
  - intros [] d5 Hd5. by apply returning_ret.
Qed.

Lemma returning_honest fuel id :
  returning (run_corrupted fuel id) base (λ _ d', honest false d').
Proof.
  assert (honest false base) as Hb by (unfold honest; cbn; lia).
  assert (∀ f b d, honest b d → f = record_connect ∨ f = record_disconnect
    ∨ f = record_connect_failure → returning (record f) d (λ _ d', honest b d')) as Hr.
  { intros f b d Hd Hf. apply returning_modify. by destruct Hf as [->|[->| ->]]. }
  skip_unmoved. destruct x; cbn [negb]; [|by apply Hr; [|right; right]]. apply returning_bind.
  eapply returning_consequence; [eapply Hr; [eassumption|by left]|]. intros [] d1 Hd1.
  apply returning_finally. eapply returning_consequence.
  - apply (returning_while (honest false) (honest false)); [|exact Hd1]. intros d2 Hd2.
    skip_unmoved. destruct x; [|by apply returning_ret].
    eapply returning_consequence; [by apply returning_damage|]. by intros [].
  - intros [] d2 Hd2. skip_unmoved. apply Hr; [done|]. right. by left.
Qed.

Lemma returning_run fuel id :
  returning (run p fuel id) base
    (λ _ d', ∃ k, k <= (if decide (p = RAMPER) then 2 else 0) ∧ ended k d').
Proof.
  assert (ahead 0 base) as Hk by (split; lia).
  assert (∀ m : M (Drone (Timed W)) unit, returning m base (λ _ d', ended 0 d') →
    returning m base (λ _ d', ∃ k, k <= (if decide (p = RAMPER) then 2 else 0) ∧ ended k d')) as Hz.
  { intros m Hm. eapply returning_consequence; [exact Hm|]. intros [] d Hd. exists 0.
    split; [by case_decide|done]. }
  assert (∀ q, p = q → returning (run q fuel id) base
    (λ _ d', ∃ k, k <= (if decide (p = RAMPER) then 2 else 0) ∧ ended k d')) as Hr; [|by apply Hr].
  intros [] Hp; cbn [run].
  - apply Hz, returning_steady; [by rewrite Hp|done].
  - apply Hz, returning_steady; [by rewrite Hp|done].
  - by apply Hz, returning_corrupted.
  - by apply Hz, returning_churner.
  - rewrite decide_True by done. by apply returning_ramper.
  - by apply Hz, returning_trickler.
Qed.

End Progress.

(** ** What a run has made of its time *)

(** As often as the clock has shown that the test was not over, a packet was
    sent or a write has failed: apart from a churning drone's look before it
    opens a connection, and the two looks of a ramping drone before its first
    packet. The run has ended because the test was over, or because a connection
    or a write has failed. A corrupting drone has damaged a packet as often as its
    coin has fallen heads, but for a write that has failed. *)
Record kept_busy {W} `{World W} (p : ProfileType) (d d' : Drone (Timed W)) : Prop := {
  busy_looks :
    seen d' - seen d
    <= packets_sent (stats d') - packets_sent (stats d)
       + (send_errors (stats d') - send_errors (stats d))
       + match p with
         | CHURNER => connections_opened (stats d') - connections_opened (stats d)
                      + (connect_failures (stats d') - connect_failures (stats d))
         | RAMPER => 2
         | _ => 0
         end;
  busy_end : over d' ∨ failed d < failed d';
  busy_coins :
    p = CORRUPTED →
    0 <= (heads d' - heads d) - (corrupt_packets_sent (stats d') - corrupt_packets_sent (stats d))
      <= send_errors (stats d') - send_errors (stats d)
}.

Lemma run_busy {W} `{World W} p fuel id (d d' : Drone (Timed W)) :
  run p fuel id d = (Ok tt, d') → kept_busy p d d'.
Proof.
  intros E. destruct (returning_run d p fuel id tt d' E) as (k & Hle & [Hd _ _] & He).
  split; [|done|].
  - unfold due in Hd. repeat case_decide; destruct p; (done || lia).
  - intros ->. pose proof (returning_honest d fuel id tt d' E) as Hc. unfold honest in Hc.
    cbn in Hc. lia.
Qed.
