(* ===== verification/TesterProperties.v ===== *)
(** * The load tester against the server: claims

    What the drones of tests/drone_load_test.py say is what the server's scanner
    hears, the tester's statistics are what the server counts, and the time of the
    test is spent sending. *)

From S2P Require Import Prelude Telemetry Endian Crc16 Payload Scan Float64 BusinessLogic LogicCorrect Triples Tester TesterCorrect TesterProgress.

Import Tester.

(** ** What is heard *)

(** What was written on a connection, and that the server's scanner finds it: the
    pieces are the packets [items], which the bytes determine, and maybe the
    beginning of another. If some of them may have been damaged, none of the
    damaged frames in the bytes may hold, behind its first byte, one that could
    start a frame. *)
Record heard (p : ProfileType) (pieces : list (list byte)) (items : list (Telemetry * bool))
  : Prop := {
  heard_written : ∃ cut, cut_off cut ∧ concat pieces = concat (map wire items) ++ cut;
  heard_understood :
    (p = CORRUPTED → clear (concat pieces) = true) →
    (scan (concat pieces)).1 = map understood items
}.

(** Packets that are not damaged need no further condition. *)
Lemma undamaged p id items :
  p ≠ CORRUPTED → Forall (typical p id) items →
  no_false_header items ∧ List.filter (negb ∘ snd) items = items ∧ damaged items = 0.
Proof.
  intros Hp Ht. induction Ht as [|[t c] items [_ _ Hc _] Ht (IH1 & IH2 & IH3)];
    [by repeat split; constructor|].
  destruct c; [by exfalso; apply Hp, Hc|]. split_and!.
  - by constructor.
  - cbn. by f_equal.
  - exact IH3.
Qed.

Lemma typical_sendables p id items : Forall (typical p id) items → Forall (λ i, sendable i.1) items.
Proof. intros Ht. eapply Forall_impl; [exact Ht|]. by intros i []. Qed.

Lemma written_heard p id pieces (u : list (Telemetry * bool) * list byte) :
  Forall (typical p id) u.1 → cut_off u.2 → written pieces u → heard p pieces u.1.
Proof.
  intros Ht Hc Hw. unfold written in Hw. pose proof (typical_sendables p id _ Ht) as Hs.
  split; [by exists u.2|]. intros Hp. rewrite Hw in Hp |- *. apply scan_items; [done| |done].
  destruct (decide (p = CORRUPTED)) as [E|E].
  - by apply (clear_items _ u.2 Hs Hc), Hp.
  - by apply (undamaged p id).
Qed.

(** Everything that a drone's run has said and counted. *)
Lemma drone_run `{WorldLaws W} n id p fuel (d : Drone W) :
  assign_profiles n !! id = Some p → (n <= 1000)%nat → (looks_left (world d) < fuel)%nat →
  ∃ d' ss (told : list (list (Telemetry * bool))),
    run p fuel id d = (Ok tt, d') ∧ streams d' = streams d ++ ss
    ∧ Forall2 (heard p) ss told ∧ Forall (Forall (typical p id)) told
    ∧ counted d p (concat told) (zlen told) (zlen told) (stats d').
Proof.
  intros Ha Hn Hf. destruct (assign_profiles_names n id p Ha) as (i & Hi & ->).
  pose proof (runs_profile d p (drone_name i) (names_acceptable i ltac:(lia)) fuel Hf) as Hr.
  apply runs_returns in Hr as ([] & d' & E & told & Hp & [_ (ss & Hs & Hw) Ht Hc]).
  exists d', ss, (map fst told). split_and!; [done|done| |by apply Forall_map|].
  - clear Hc E Hs. induction Hw as [|pieces u ss told Hu Hw IH]; [constructor|].
    apply Forall_cons in Hp as [Hp1 Hp2]. apply Forall_cons in Ht as [Ht1 Ht2].
    constructor; [|by apply IH]. by apply (written_heard p (drone_name i)).
  - assert (zlen (map fst told) = zlen told) as -> by (unfold zlen; by rewrite length_map). done.
Qed.

(** ** The claims *)

Section Claims.
Context {W : Type} `{WorldLaws W}.
Implicit Types (d : Drone W).

(** C39: the load tester and the server agree on the protocol, and the tester
    tests. Whatever the network, the clock and the random numbers do, the
    coroutine of any of the up to 1000 drones of a test comes to its end without
    an exception, having closed every connection it has opened. The bytes of each
    of its connections are the packets it has sent, one after the other and in
    pieces of any size, and maybe the beginning of another; the statistics have
    counted them. The server's scanner finds exactly these packets, in order:
    telemetry in the drone's name, which raises an alert exactly when the profile
    is THRESHOLD, and a CRC mismatch for each packet that was damaged on purpose,
    which only the profile CORRUPTED does. For this profile the bytes must be
    [clear]: no damaged frame among them holds, behind its first byte, one that
    could start a frame. And the time is used: whenever the clock has shown that
    the test was not over, a packet was sent or something has failed (but for a
    connection of the churning drone and two looks of the ramping one); the end
    came with the end of the test or with a failure; and the corrupting drone has
    damaged a packet whenever the coin has told it to, unless a write has failed. *)
Theorem load_test_understood n id p fuel d :
  assign_profiles n !! id = Some p → (n <= 1000)%nat → (looks_left (world d) < fuel)%nat →
  ∃ (d' : Drone (Timed W)) ss told,
    run p fuel id (timed d) = (Ok tt, d') ∧ streams d' = streams d ++ ss
    ∧ Forall2 (heard p) ss told ∧ Forall (Forall (typical p id)) told
    ∧ counted (timed d) p (concat told) (zlen told) (zlen told) (stats d')
    ∧ kept_busy p (timed d) d'.
Proof.
  intros Ha Hn Hf. pose proof (drone_run n id p fuel (timed d) Ha Hn) as Hr. destruct (Hr Hf)
    as (d' & ss & told & E & Hs & Hh & Ht & Hc).
  exists d', ss, told. split_and!; [done..|]. by apply (run_busy p fuel id).
Qed.

(** The packets the server receives on all of the connections. *)
Definition delivered (ss : list (list (list byte))) : list Telemetry :=
  concat (map (λ pieces, received (scan (concat pieces)).1) ss).

(** The statistics are what the server sees. For a drone of any profile but
    CORRUPTED, the packets that the tester has counted, in all and for the
    profile, are as many as the server receives on the drone's connections, no
    packet is counted as corrupt, and the number of active drones is what it
    was. *)
Theorem load_test_counts n id p fuel d :
  assign_profiles n !! id = Some p → p ≠ CORRUPTED → (n <= 1000)%nat →
  (looks_left (world d) < fuel)%nat →
  ∃ d' ss,
    run p fuel id d = (Ok tt, d') ∧ streams d' = streams d ++ ss
    ∧ Forall (λ t, drone_id t = id) (delivered ss)
    ∧ packets_sent (stats d') = packets_sent (stats d) + zlen (delivered ss)
    ∧ per_profile (stats d') p = per_profile (stats d) p + zlen (delivered ss)
    ∧ corrupt_packets_sent (stats d') = corrupt_packets_sent (stats d)
    ∧ active_drones (stats d') = active_drones (stats d).
Proof.
  intros Ha Hp Hn Hf. destruct (drone_run n id p fuel d Ha Hn Hf) as (d' & ss & told & E & Hs & Hh & Ht & Hc).
  assert (delivered ss = map fst (concat told)) as Hd.
  { revert Hh Ht. clear - Hp. intros Hh.
    induction Hh as [|pieces items ss told [_ Hi] Hh IH]; intros Ht; [done|].
    apply Forall_cons in Ht as [Ht1 Ht2]. destruct (undamaged p id items Hp Ht1) as (_ & Hu & _).
    unfold delivered. cbn [map concat]. by rewrite Hi, received_understood, Hu, map_app, <-IH by done. }
  apply Forall_concat in Ht. destruct (undamaged p id _ Hp Ht) as (_ & _ & Hz).
  exists d', ss. rewrite Hd. destruct Hc as [H1 H2 H3 H4 H5 H6 H7].
  assert (zlen (map fst (concat told)) = zlen (concat told)) as ->
    by (unfold zlen; by rewrite length_map).
  split_and!; [done..| |done| | |].
  - apply Forall_map. eapply Forall_impl; [exact Ht|]. by intros i [].
  - rewrite H4. by rewrite decide_True.
  - lia.
  - lia.
Qed.

End Claims.

(** ** A concrete world

    The clock stops after a number of looks; connections come about, the network
    takes a number of writes, tossed coins fall alternately, and every number is
    drawn as low as possible. *)

Record Toy := mkToy { looks : nat; writes : nat; coin : bool }.

(** The double of a small whole number. *)
Definition whole (n : Z) : double :=
  if n =? 0 then 0
  else Z.shiftl (1023 + Z.log2 n) 52 + Z.shiftl (n - 2 ^ Z.log2 n) (52 - Z.log2 n).

#[local] Instance toy_world : World Toy := λ A q w,
  match q in question A return A * Toy with
  | BeforeEnd =>
      match looks w with
      | O => (false, w)
      | Datatypes.S n => (true, mkToy n (writes w) (coin w))
      end
  | Now => (1700000000, w)
  | Uniform lo _ => (whole (Z.max 0 (Z.min 500 lo)), w)
  | RandInt lo _ => (lo, w)
  | Chance => (coin w, mkToy (looks w) (writes w) (negb (coin w)))
  | OpenConnection => (true, w)
  | Write _ =>
      match writes w with
      | O => (false, w)
      | Datatypes.S n => (true, mkToy (looks w) n (coin w))
      end
  | Close | Sleep => (tt, w)
  end.

Lemma whole_between n : 0 <= n <= 500 → between n n (whole n).
Proof.
  assert (forallb (λ n, (0 <=? whole (Z.of_nat n)) && (whole (Z.of_nat n) <? 2 ^ 64)
    && is_finite (of_bits (whole (Z.of_nat n)))
    && (scaled (of_bits (whole (Z.of_nat n))) =? Z.of_nat n * 2 ^ 1074)) (seq 0 501) = true) as Hf
    by by vm_compute.
  intros Hn. rewrite forallb_forall in Hf. specialize (Hf (Z.to_nat n)).
  rewrite Z2Nat.id in Hf by lia. specialize (Hf ltac:(apply in_seq; lia)).
  apply andb_true_iff in Hf as [Hf Hs%Z.eqb_eq]. apply andb_true_iff in Hf as [Hb Hfin].
  unfold between, is_u64. rewrite Hs. split_and!; [lia|lia|done|lia|lia].
Qed.

#[local] Instance toy_laws : WorldLaws Toy.
Proof.
  refine {| looks_left := looks |}.
  - intros A q w. destruct q; try done.
    intros [Hl Hh]. cbn [ask_world toy_world documented fst].
    replace (Z.max 0 (Z.min 500 lo)) with lo by lia.
    destruct (whole_between lo ltac:(lia)) as (H1 & H2 & H3). split_and!; [done..| |].
    + lia.
    + assert (0 < 2 ^ 1074) by (by apply Z.pow_pos_nonneg). nia.
  - intros A q w. destruct q; cbn; try lia; [destruct (looks w) eqn:E|destruct (writes w)]; cbn; lia.
  - intros w. cbn. destruct (looks w) eqn:E; cbn; [done|lia].
Defined.

Definition fresh (looks writes : nat) : Drone Toy := mkDrone (mkToy looks writes true) new_stats [].

(** What the scanner finds on the connections of a drone that has run. *)
Definition found (p : ProfileType) (id : string) (looks writes : nat) : list (list event) :=
  map (λ pieces, (scan (concat pieces)).1) (streams (run p 20 id (fresh looks writes)).2).

Definition example_packet (id : string) (alt speed : Z) : Telemetry :=
  mkTelemetry id (whole 29) (whole 34) (whole alt) (whole speed) 1700000000.

(** The corrupted profile damages every other packet; the threshold profile
    exceeds one threshold or the other; the churner comes back; the trickler's
    second packet is cut off. *)
Example profiles_heard :
  found CORRUPTED "DRONE-0003" 3 10
    = [[CrcMismatch; Received (example_packet "DRONE-0003" 0 0); CrcMismatch]]
  ∧ found THRESHOLD "DRONE-0002" 2 10
    = [[Received (example_packet "DRONE-0002" 121 0); Received (example_packet "DRONE-0002" 0 51)]]
  ∧ found CHURNER "DRONE-0004" 6 10
    = [[Received (example_packet "DRONE-0004" 0 0); Received (example_packet "DRONE-0004" 0 0);
        Received (example_packet "DRONE-0004" 0 0)]; [Received (example_packet "DRONE-0004" 0 0)]]
  ∧ found TRICKLER "DRONE-0006" 5 70 = [[Received (example_packet "DRONE-0006" 0 0)]].
Proof. vm_compute. repeat split. Qed.

(** The bytes of the corrupting drone are clear here. *)
Example profiles_clear :
  map (λ pieces, clear (concat pieces)) (streams (run CORRUPTED 20 "DRONE-0003" (fresh 3 10)).2)
  = [true].
Proof. vm_compute. reflexivity. Qed.

Lemma load_test_understood_witness :
  ∃ d' ss told,
    run CORRUPTED 20 "DRONE-0003" (timed (fresh 3 10)) = (Ok tt, d') ∧ streams d' = [] ++ ss
    ∧ Forall2 (heard CORRUPTED) ss told ∧ Forall (Forall (typical CORRUPTED "DRONE-0003")) told
    ∧ counted (timed (fresh 3 10)) CORRUPTED (concat told) (zlen told) (zlen told) (stats d')
    ∧ kept_busy CORRUPTED (timed (fresh 3 10)) d'.
Proof.
  apply (load_test_understood 6 "DRONE-0003" CORRUPTED 20 (fresh 3 10)).
  - vm_compute. reflexivity.
  - lia.
  - cbn. lia.
Defined.

Lemma load_test_counts_witness :
  ∃ d' ss,
    run TRICKLER 20 "DRONE-0006" (fresh 5 70) = (Ok tt, d') ∧ streams d' = [] ++ ss
    ∧ Forall (λ t, drone_id t = "DRONE-0006"%string) (delivered ss)
    ∧ packets_sent (stats d') = 0 + zlen (delivered ss)
    ∧ per_profile (stats d') TRICKLER = 0 + zlen (delivered ss)
    ∧ corrupt_packets_sent (stats d') = 0
    ∧ active_drones (stats d') = 0.
Proof.
  apply (load_test_counts 6 "DRONE-0006" TRICKLER 20 (fresh 5 70)).
  - vm_compute. reflexivity.
  - discriminate.
  - lia.
  - cbn. lia.
Defined.

(** The assignment: [n] drones, the profiles in turn. *)
Example profiles_in_turn :
  map (λ i, assign_profiles 8 !! drone_name i) (seq 0 9)
  = [Some NORMAL; Some THRESHOLD; Some CORRUPTED; Some CHURNER; Some RAMPER; Some TRICKLER;
     Some NORMAL; Some THRESHOLD; None]
  ∧ map drone_name [0; 41; 999]%nat = ["DRONE-0001"; "DRONE-0042"; "DRONE-1000"]%string.
Proof. vm_compute. split; reflexivity. Qed.
