(* ===== verification/OutputProperties.v ===== *)
(** * Properties of the whole program: what is logged

    The log of a run, line by line: whose each line is, and that the lines of the
    parser and of the business logic are those of their references. *)

From S2P Require Import Prelude Telemetry ThreadSafeQueue Worker RingBuffer Endian Scan StreamingParser ParserCorrect ParserTheorems BusinessLogic LogicCorrect AsyncLogger LoggerProperties Posix Listener ListenerLines ToyKernel Threads Main System SystemInvariant SystemDelivery SystemExec SystemProperties SystemLog.

Import System.

Section Properties.
Context {W : Type} `{PosixWake W} `{Host} `{AsyncLogger.Filesystem}.
Implicit Types (s : System W).

Lemma run_logs arguments out w s0 s : run_of arguments out w s0 (Running s) → logs s.
Proof.
  intros [Hb Hr]. eapply reachable_logs; [by eapply boot_inv|exact Hr|by eapply boot_logs].
Qed.

(** C9: the log is exact. In every run each message is the listener's, the
    parser's or the business logic's, and begins with a name that tells which.
    The parser's lines, so far, are its greeting, what the reference parser logs
    for the chunks it has taken, and its farewell with the number of failures
    among them. The business logic's lines are those of its reference for the
    telemetry it has taken: its greeting, the alerts and reports, the summary.
    The pushes of the different threads may fall in any order, but each thread's
    lines are in theirs. When [main] returns, all of them have been written to
    stdout; the log file, if it is open, has after what it held the messages up to
    the first that the device refuses, if any; and the lines of the parser and of
    the business logic are complete. *)
Theorem log_is_exact arguments out w s0 s :
  run_of arguments out w s0 (Running s) →
  Forall (λ m, is_Some (author_of m)) (messages s)
  ∧ lines_by ByParser (messages s) `prefix_of` parser_lines (at_parser s) (parser_taken s)
  ∧ ∃ start stop xs,
      logic_taken s = map snd xs
      ∧ lines_by ByLogic (messages s) `prefix_of` logic_log start stop xs
      ∧ (finished s →
         AsyncLogger.cout (async_logger s) = stdout s0 ++ messages s
         ∧ (log_file_open s → log_file s = log_file s0 ++ logged s0 (messages s))
         ∧ lines_by ByParser (messages s) = parser_lines Returned (parser_taken s)
         ∧ lines_by ByLogic (messages s) = logic_log start stop xs).
Proof.
  intros Hr. destruct (run_logs _ _ _ _ _ Hr) as [_ _ Hp Hl Ha].
  split; [done|]. split; [rewrite <-Hp; by apply prefix_app_r|].
  destruct (logic_said_log _ _ _ _ Hl) as (start & stop & xs & Ht & Hpre & Hend).
  exists start, stop, xs. split; [done|].
  split; [etransitivity; [by apply prefix_app_r|exact Hpre]|]. intros Hf.
  destruct (run_finished _ _ _ _ _ Hr Hf) as [Hreturned Hcout].
  destruct (Hreturned Main.parser_thread) as [Hpa [_ Hpl]].
  destruct (Hreturned Main.logic_thread) as [Hla Hll]. unfold logic_idle in Hll.
  split; [done|]. split; [by apply (finished_log_file _ _ _ _ _ Hr)|]. split.
  - rewrite Hpl, app_nil_r in Hp. by rewrite Hp, Hpa.
  - rewrite Hll, app_nil_r in Hend. by apply Hend.
Qed.

End Properties.

(** ** Witness *)

#[local] Existing Instance demo_host.
#[local] Existing Instance demo_filesystem.

Lemma log_is_exact_witness :
  let s := demo_after whole_run in
  finished s
  ∧ Forall (λ m, is_Some (author_of m)) (messages s)
  ∧ lines_by ByParser (messages s) `prefix_of` parser_lines (at_parser s) (parser_taken s)
  ∧ ∃ start stop xs,
      logic_taken s = map snd xs
      ∧ lines_by ByLogic (messages s) `prefix_of` logic_log start stop xs
      ∧ (finished s →
         AsyncLogger.cout (async_logger s) = stdout demo_start ++ messages s
         ∧ (log_file_open s → log_file s = log_file demo_start ++ logged demo_start (messages s))
         ∧ lines_by ByParser (messages s) = parser_lines Returned (parser_taken s)
         ∧ lines_by ByLogic (messages s) = logic_log start stop xs).
Proof.
  split; [vm_compute; reflexivity|].
  exact (log_is_exact demo_arguments [] demo_machine demo_start _ complete_run).
Defined.

(** The lines of the run, by author. *)
Example whole_run_authors :
  let s := demo_after whole_run in
  lines_by ByParser (messages s)
    = map (λ text, text +:+ newline)%string
        ["[StreamingParser] Running"; "[StreamingParser] Shutting down (CRC failures: 0)"]%string
  ∧ logic_taken s = [demo_telemetry]
  ∧ length (lines_by ByListener (messages s)) = 3%nat.
Proof. vm_compute. repeat split. Qed.
