(* ===== verification/TraceProperties.v ===== *)
(** * Properties of the whole program: from the network to the drone table

    What the program does with what the clients send, in every state of a run:
    the counters and the drone table are those of a specification that knows
    nothing of threads, queues, chunks or buffers. *)

From S2P Require Import Prelude Telemetry ThreadSafeQueue Worker RingBuffer Endian Scan StreamingParser ParserCorrect ParserTheorems BusinessLogic LogicCorrect AsyncLogger Posix Recorder Listener ListenerTrace Traffic ToyKernel Threads Main System SystemInvariant SystemTypes SystemTrace SystemExec SystemProperties.

Import System.

(** ** Who reports a drone *)

(** The telemetry of the drone [d]. *)
Definition of_drone (d : string) (ts : list Telemetry) : list Telemetry :=
  List.filter (λ t, bool_decide (drone_id t = d)) ts.

Lemma of_drone_app d ts ts' : of_drone d (ts ++ ts') = of_drone d ts ++ of_drone d ts'.
Proof. apply List.filter_app. Qed.

(** When only [fd] reports [d], nothing else matters for [d]. *)
Lemma of_drone_only fd d (all : list (Z * event)) :
  (∀ fd' t, (fd', Received t) ∈ all → drone_id t = d → fd' = fd) →
  of_drone d (received (map snd all)) = of_drone d (received (events_of fd all)).
Proof.
  induction all as [|[fd' e] all IH]; intros Hd; [done|].
  change ((fd', e) :: all) with ([(fd', e)] ++ all).
  rewrite map_app, events_of_app, !received_app, !of_drone_app, IH
    by (intros fd1 t Hin; apply Hd; by right).
  f_equal. change [(fd', e)] with (map (pair fd') [e]). rewrite events_of_tagged, map_snd_pair.
  destruct (Z.eqb_spec fd' fd) as [->|Hne]; [done|]. destruct e as [t| |]; [|done..].
  cbn. rewrite bool_decide_false; [done|]. intros Ht. apply Hne, (Hd fd' t); [by left|done].
Qed.

(** An event of [all] is one of its client's. *)
Lemma events_of_elem fd e (all : list (Z * event)) : (fd, e) ∈ all ↔ e ∈ events_of fd all.
Proof.
  unfold events_of. rewrite list_elem_of_fmap. split.
  - intros Hin. exists (fd, e). split; [done|]. apply list_elem_of_In, List.filter_In.
    split; [by apply list_elem_of_In|apply Z.eqb_refl].
  - intros ([fd' e'] & -> & Hin). apply list_elem_of_In, List.filter_In in Hin as [Hin Hfd].
    apply Z.eqb_eq in Hfd. cbn in Hfd. subst. by apply list_elem_of_In.
Qed.

Lemma received_elem t (es : list event) : t ∈ received es ↔ Received t ∈ es.
Proof.
  unfold received. rewrite list_elem_of_omap. split.
  - by intros ([t'| |] & Hin & [= ->]).
  - intros Hin. by exists (Received t).
Qed.

Lemma failures_none (es : list event) :
  (∀ e, e ∈ es → ∃ t, e = Received t) → failures es = 0.
Proof.
  induction es as [|e es IH]; intros Hes; [done|].
  change (e :: es) with ([e] ++ es). rewrite failures_app, IH by (intros e' He; apply Hes; by right).
  by destruct (Hes e) as [t ->]; [left|].
Qed.

Section Properties.
Context {W : Type} `{PosixTrace W} `{Host} `{AsyncLogger.Filesystem}.
Implicit Types (s : System W) (w : W) (out : list string).

(** Each client's events, and how far the threads are with them. *)
Lemma network_heard arguments out w s0 s :
  run_of arguments out w s0 (Running s) → transcript w = [] →
  ∃ (all : list (Z * event)) parsed handled,
    (∀ fd, events_of fd all = said fd (transcript (world s)))
    ∧ worked_off (map snd all) parsed handled s.
Proof.
  intros Hr Hw. destruct Hr as [Hb Hsteps]. pose proof (boot_inv _ _ _ _ Hb) as Hinv.
  exists (heard (transcript (world s))).1.
  destruct (inv_worked_off (open_fds w) (stdout s0) s) as (parsed & handled & Hwo).
  - exact (reachable_inv_process _ _ _ _ Hsteps Hinv).
  - eapply reachable_chunks_fit; [exact Hsteps|by eapply boot_chunks_fit].
  - eapply reachable_forwarded; [exact Hinv|exact Hsteps|by eapply boot_forwarded].
  - exists parsed, handled. split; [|done]. intros fd. apply heard_said.
Qed.

(** C2: from the network to the drone table. Take any state that the program
    reaches on a machine where nothing had been read before. What the clients
    said is, for each descriptor, what the scanner finds in the bytes that
    [recv] has returned, connection by connection; the events of the different
    clients come in some order [all], each client's own in their order. The
    parser has worked off a part of [all] and its failure counter is that of
    this part; the business logic has handled a part of the telemetry in it,
    and the drone table and the packet counter are those of this telemetry.
    When nothing is on its way between the threads, they are those of all that
    was said. *)
Theorem network_to_table arguments out w s0 s :
  run_of arguments out w s0 (Running s) → transcript w = [] →
  ∃ (all : list (Z * event)) parsed handled,
    (∀ fd, events_of fd all = said fd (transcript (world s)))
    ∧ worked_off (map snd all) parsed handled s.
Proof. apply network_heard. Qed.

(** In the clients' own words: on every descriptor the bytes of each connection
    are encoded packets. *)
Definition packets_sent (sent : Z → list (list Telemetry)) (es : list traffic) : Prop :=
  ∀ fd, connections fd es = map (λ ts, concat (map encode_packet ts)) (sent fd)
        ∧ Forall (Forall sendable) (sent fd).

Lemma packets_all sent es all fd e :
  packets_sent sent es → (∀ fd, events_of fd all = said fd es) → (fd, e) ∈ all →
  ∃ t, e = Received t ∧ t ∈ concat (sent fd).
Proof.
  intros Hs Hall Hin%events_of_elem. destruct (Hs fd) as [Hc Hok].
  rewrite Hall, (said_packets fd es (sent fd) Hc Hok) in Hin.
  apply list_elem_of_fmap in Hin as (t & -> & Ht). by exists t.
Qed.

(** C3: packets reach the drone table. If the bytes of every connection are
    encoded packets, cut by the network in any way, and nothing is on its way
    between the threads, then no packet has been rejected, the drones in the
    table are those that some client has reported, and for a drone that only one
    client reports the table holds the last telemetry that this client has sent
    for it, in any of its connections. *)
Theorem packets_reach_table arguments out w s0 s sent :
  run_of arguments out w s0 (Running s) → transcript w = [] → settled s →
  packets_sent sent (transcript (world s)) →
  m_crc_failures (parser s) = 0
  ∧ (∀ d, d ∈ dom (BusinessLogic.m_drones (business_logic s))
      ↔ ∃ fd t, t ∈ concat (sent fd) ∧ drone_id t = d)
  ∧ (∀ d fd, (∀ fd' t, t ∈ concat (sent fd') → drone_id t = d → fd' = fd) →
      BusinessLogic.m_drones (business_logic s) !! d = last (of_drone d (concat (sent fd)))).
Proof.
  intros Hr Hw Hset Hs.
  destruct (network_heard _ _ _ _ _ Hr Hw) as (all & parsed & handled & Hall & Hwo).
  destruct (worked_settled _ _ _ _ Hwo Hset) as [-> ->]. destruct Hwo as [_ _ -> -> _ _].
  pose proof (λ fd e, packets_all sent _ all fd e Hs Hall) as Hp.
  assert (∀ fd, received (events_of fd all) = concat (sent fd)) as Hfd.
  { intros fd. destruct (Hs fd) as [Hc Hok]. by rewrite Hall, (said_packets _ _ _ Hc Hok), received_map. }
  split_and!.
  - rewrite (failures_none (map snd all)); [done|].
    intros e ([fd e'] & -> & Hin)%list_elem_of_fmap. destruct (Hp fd e' Hin) as (t & -> & _). by exists t.
  - intros d. rewrite dom_latest, elem_of_list_to_set, list_elem_of_fmap. split.
    + intros (t & -> & Ht%received_elem). apply list_elem_of_fmap in Ht as ([fd e] & E & Hin).
      cbn in E. subst e. destruct (Hp fd _ Hin) as (t' & E & Ht'). simplify_eq. by exists fd, t'.
    + intros (fd & t & Ht & <-). exists t. split; [done|]. rewrite <-Hfd in Ht.
      apply received_elem, events_of_elem in Ht. apply received_elem, list_elem_of_fmap.
      by exists (fd, Received t).
  - intros d fd Honly. rewrite latest_lookup, <-Hfd. fold (of_drone d (received (map snd all))).
    rewrite (of_drone_only fd d all); [done|]. intros fd' t Hin Hd.
    destruct (Hp fd' _ Hin) as (t' & E & Ht'). simplify_eq. by apply (Honly fd' t').
Qed.

End Properties.

(** ** Witnesses *)

#[local] Existing Instance demo_host.
#[local] Existing Instance demo_filesystem.

(** The client's packet has come in and nothing is on its way. *)
Definition served_run : list Exec.choice := Exec.rounds 12 20 5.

Definition recorded_machine : Recorded Kernel := unrecorded demo_machine.
Definition served_state : System (Recorded Kernel) := after served_run recorded_machine.

Lemma served_run_of :
  run_of demo_arguments [] recorded_machine (started_on recorded_machine) (Running served_state).
Proof. apply after_run. vm_compute. reflexivity. Defined.

Definition served_traffic : list traffic :=
  [Read 6 (take 20 demo_packet); Read 6 (drop 20 demo_packet)].

Lemma served_transcript : transcript (world served_state) = served_traffic.
Proof. vm_compute. reflexivity. Defined.

Lemma network_to_table_witness :
  transcript (world served_state) = served_traffic
  ∧ ∃ (all : list (Z * event)) parsed handled,
      (∀ fd, events_of fd all = said fd (transcript (world served_state)))
      ∧ worked_off (map snd all) parsed handled served_state.
Proof.
  split; [exact served_transcript|].
  exact (network_to_table demo_arguments [] recorded_machine (started_on recorded_machine)
    served_state served_run_of eq_refl).
Defined.

(** One connection on descriptor 6, with one packet. *)
Definition demo_sent (fd : Z) : list (list Telemetry) :=
  if fd =? 6 then [[demo_telemetry]] else [[]].

Lemma demo_packets_sent : packets_sent demo_sent served_traffic.
Proof.
  intros fd. unfold demo_sent, served_traffic, connections. cbn [foldl connection_step fst snd].
  rewrite (Z.eqb_sym 6 fd). destruct (fd =? 6); (split; [vm_compute; reflexivity|]).
  - apply Forall_singleton, Forall_singleton. split; [|vm_compute; discriminate].
    by repeat split; vm_compute.
  - by apply Forall_singleton.
Qed.

Lemma packets_reach_table_witness :
  m_crc_failures (parser served_state) = 0
  ∧ (∀ d, d ∈ dom (BusinessLogic.m_drones (business_logic served_state))
      ↔ ∃ fd t, t ∈ concat (demo_sent fd) ∧ drone_id t = d)
  ∧ (∀ d fd, (∀ fd' t, t ∈ concat (demo_sent fd') → drone_id t = d → fd' = fd) →
      BusinessLogic.m_drones (business_logic served_state) !! d
      = last (of_drone d (concat (demo_sent fd)))).
Proof.
  apply (packets_reach_table demo_arguments [] recorded_machine (started_on recorded_machine)
    served_state demo_sent served_run_of).
  - reflexivity.
  - by split; vm_compute.
  - rewrite served_transcript. exact demo_packets_sent.
Defined.
