(* ===== verification/LoadTest.v ===== *)
(** * The load test as a whole

    A fleet of drones of tests/drone_load_test.py on one side, the program on the
    other, and between them a network that carries every connection of a drone
    to a descriptor of the server. What the tester has counted is what the server
    counts. *)

From S2P Require Import Prelude Telemetry Scan BusinessLogic LogicCorrect ThreadSafeQueue StreamingParser ParserCorrect ParserTheorems Posix ListenerTrace Traffic Listener ToyKernel Threads System SystemInvariant SystemTrace SystemExec SystemProperties Recorder TraceProperties Tester TesterCorrect TesterProperties.

Import System.

(** ** Totals *)

Fixpoint total {A} (f : A → Z) (l : list A) : Z :=
  match l with [] => 0 | x :: l => f x + total f l end.

Section Totals.
Context {A B : Type}.
Implicit Types (f : A → Z) (l : list A).

Lemma total_app f l l' : total f (l ++ l') = total f l + total f l'.
Proof. induction l as [|x l IH]; cbn; [done|]. rewrite IH. lia. Qed.

Lemma total_concat f (ls : list (list A)) : total f (concat ls) = total (total f) ls.
Proof. induction ls as [|l ls IH]; cbn; [done|]. by rewrite total_app, IH. Qed.

Lemma total_map f (g : B → A) (l : list B) : total f (map g l) = total (λ x, f (g x)) l.
Proof. induction l as [|x l IH]; cbn; [done|]. by rewrite IH. Qed.

Lemma total_perm f l l' : l ≡ₚ l' → total f l = total f l'.
Proof. induction 1; cbn; lia. Qed.

Lemma total_zero f l : (∀ x, x ∈ l → f x = 0) → total f l = 0.
Proof.
  induction l as [|x l IH]; intros Hf; cbn; [done|].
  rewrite (Hf x), IH by first [by left | intros y Hy; apply Hf; by right]. done.
Qed.

Lemma total_plus f f' l : total (λ x, f x + f' x) l = total f l + total f' l.
Proof. induction l as [|x l IH]; cbn; [done|]. rewrite IH. lia. Qed.

Lemma total_positive f l :
  (∀ x, 0 <= f x) → 0 < total f l ↔ ∃ x, x ∈ l ∧ 0 < f x.
Proof.
  intros Hf. induction l as [|x l IH]; cbn.
  - split; [lia|]. by intros (x & Hx%elem_of_nil & _).
  - assert (0 <= total f l) as Hn by (clear IH; induction l as [|y l IH]; cbn; specialize (Hf y) || idtac; lia).
    specialize (Hf x). split.
    + intros Hp. destruct (Z.lt_ge_cases 0 (f x)) as [Hx|Hx]; [exists x; split; [by left|done]|].
      destruct (proj1 IH ltac:(lia)) as (y & Hy & Hy'). exists y. split; [by right|done].
    + intros (y & [->|Hy]%elem_of_cons & Hy'); [lia|].
      enough (0 < total f l) by lia. apply IH. by exists y.
Qed.

(** One element only counts. *)
Lemma total_single (a : A) n l `{!EqDecision A} :
  NoDup l → a ∈ l → total (λ x, if decide (a = x) then n else 0) l = n.
Proof.
  induction 1 as [|x l Hx Hl IH]; intros Ha; [by apply elem_of_nil in Ha|]. cbn.
  case_decide as Hax.
  - subst x. rewrite total_zero; [lia|]. intros y Hy. case_decide; [by subst|done].
  - apply elem_of_cons in Ha as [->|Ha]; [done|]. rewrite IH by done. lia.
Qed.

End Totals.

Lemma total_Forall2 {A B} (f : A → Z) (g : B → Z) l k :
  Forall2 (λ x y, f x = g y) l k → total f l = total g k.
Proof. induction 1; cbn; lia. Qed.

(** ** What is heard on all descriptors *)

(** A measure of events that adds up. *)
Class Additive (g : list event → Z) := {
  additive_nil : g [] = 0;
  additive_app es es' : g (es ++ es') = g es + g es'
}.

#[export] Instance additive_received : Additive (λ es, zlen (received es)).
Proof. split; [done|]. intros es es'. by rewrite received_app, zlen_app. Qed.

#[export] Instance additive_failures : Additive failures.
Proof. split; [done|]. apply failures_app. Qed.

#[export] Instance additive_filter (P : Telemetry → bool) :
  Additive (λ es, zlen (List.filter P (received es))).
Proof. split; [done|]. intros es es'. by rewrite received_app, List.filter_app, zlen_app. Qed.

Lemma additive_concat g `{!Additive g} ess : g (concat ess) = total g ess.
Proof. induction ess as [|es ess IH]; cbn; [apply additive_nil|]. by rewrite additive_app, IH. Qed.

Lemma additive_by_fd g `{!Additive g} (fds : list Z) (all : list (Z * event)) :
  NoDup fds → (∀ fd e, (fd, e) ∈ all → fd ∈ fds) →
  g (map snd all) = total (λ fd, g (events_of fd all)) fds.
Proof.
  intros Hd. induction all as [|[fd e] all IH]; intros Hin.
  - rewrite total_zero; [apply additive_nil|]. intros fd _. apply additive_nil.
  - change ((fd, e) :: all) with (map (pair fd) [e] ++ all).
    rewrite map_app, additive_app, IH by (intros fd' e' He; apply (Hin fd' e'); by right).
    rewrite map_snd_pair, <-(total_single fd (g [e]) fds Hd) by (apply (Hin fd e); by left).
    rewrite <-total_plus. apply total_Forall2, Forall2_same_length_lookup_2; [done|].
    intros i x y Hx Hy. simplify_eq. rewrite events_of_app, events_of_tagged, additive_app.
    destruct (Z.eqb_spec fd x); case_decide; try done. by rewrite additive_nil.
Qed.

(** Only the descriptors in [fds] have had traffic. *)
Definition fd_of (e : traffic) : Z := match e with Read fd _ | Removed fd => fd end.

Lemma silent_connections fd es : Forall (λ e, fd_of e ≠ fd) es → connections fd es = [[]].
Proof.
  unfold connections. intros Hes.
  assert (foldl (connection_step fd) ([], []) es = ([], [])) as ->; [|done].
  generalize (@nil (list byte), @nil byte).
  induction Hes as [|e es He Hes IH]; intros st; [done|]. cbn [foldl].
  assert (connection_step fd st e = st) as ->; [|apply IH].
  destruct e; cbn in *; by rewrite (proj2 (Z.eqb_neq _ _)).
Qed.

Lemma heard_only_on (fds : list Z) es all :
  Forall (λ e, fd_of e ∈ fds) es → (∀ fd, events_of fd all = said fd es) →
  ∀ fd e, (fd, e) ∈ all → fd ∈ fds.
Proof.
  intros Hes Hall fd e He%events_of_elem. destruct (decide (fd ∈ fds)) as [|Hn]; [done|].
  rewrite Hall in He. unfold said in He. rewrite silent_connections in He.
  - by apply elem_of_nil in He.
  - eapply Forall_impl; [exact Hes|]. cbn. by intros e' He' <-.
Qed.

(** Every measure of all that is heard is that of the connections. *)
Lemma additive_heard g `{!Additive g} (fds : list Z) es (all : list (Z * event)) :
  NoDup fds → Forall (λ e, fd_of e ∈ fds) es → (∀ fd, events_of fd all = said fd es) →
  g (map snd all)
  = total (λ bytes, g (scan bytes).1) (concat (map (λ fd, connections fd es) fds)).
Proof.
  intros Hd Hes Hall. rewrite (additive_by_fd g fds all Hd (heard_only_on fds es all Hes Hall)).
  rewrite total_concat, total_map. apply total_Forall2, Forall2_same_length_lookup_2; [done|].
  intros i x y Hx Hy. simplify_eq. rewrite Hall. unfold said.
  by rewrite additive_concat, total_map by done.
Qed.

(** ** The fleet *)

(** A drone's coroutine, before and after its run. *)
Record Flight (W : Type) := mkFlight {
  callsign : string;
  profile : Tester.ProfileType;
  before : Tester.Drone W;
  after : Tester.Drone W
}.
Arguments mkFlight {W} _ _ _ _.
Arguments callsign {W} _.
Arguments profile {W} _.
Arguments before {W} _.
Arguments after {W} _.

Section Fleet.
Context {W : Type} `{Tester.WorldLaws W}.
Implicit Types (f : Flight W) (fleet : list (Flight W)).

(** One of the [n] drones of a test, flown to its end. The coroutines share the
    statistics, each change of which adds to a counter: here each drone counts
    for itself from zero. *)
Record flown (n fuel : nat) f : Prop := {
  flown_assigned : Tester.assign_profiles n !! callsign f = Some (profile f);
  flown_fuel : (Tester.looks_left (Tester.world (before f)) < fuel)%nat;
  flown_streams : Tester.streams (before f) = [];
  flown_stats : Tester.stats (before f) = Tester.new_stats;
  flown_run : Tester.run (profile f) fuel (callsign f) (before f) = (Ok tt, after f)
}.

(** The packets of [f] that the server should receive, and those it should not. *)
Definition good_packets f : Z :=
  Tester.packets_sent (Tester.stats (after f)) - Tester.corrupt_packets_sent (Tester.stats (after f)).
Definition bad_packets f : Z := Tester.corrupt_packets_sent (Tester.stats (after f)).

(** What a drone has said is what it has counted. *)
Record counts_for f (told : list (list (Telemetry * bool))) : Prop := {
  counts_heard : Forall2 (heard (profile f)) (Tester.streams (after f)) told;
  counts_typical : Forall (Forall (typical (profile f) (callsign f))) told;
  counts_good : good_packets f = zlen (received (map understood (concat told)));
  counts_bad : bad_packets f = failures (map understood (concat told))
}.

Lemma understood_counts items :
  zlen (received (map understood items)) = zlen items - damaged items
  ∧ failures (map understood items) = damaged items.
Proof.
  induction items as [|[t c] items [IH1 IH2]]; [done|].
  change (map understood ((t, c) :: items)) with ([understood (t, c)] ++ map understood items).
  rewrite received_app, failures_app, zlen_app, IH1, IH2, zlen_cons.
  unfold damaged. cbn [List.filter snd]. destruct c; [rewrite zlen_cons|]; split;
    [change (zlen (received [understood (t, true)])) with 0
    |change (failures [understood (t, true)]) with 1
    |change (zlen (received [understood (t, false)])) with 1
    |change (failures [understood (t, false)]) with 0]; lia.
Qed.

Lemma flown_counts n fuel f :
  (n <= 1000)%nat → flown n fuel f → ∃ told, counts_for f told.
Proof.
  intros Hn [F1 F2 F3 F4 F5].
  destruct (drone_run n (callsign f) (profile f) fuel (before f) F1 Hn F2)
    as (d' & ss & told & E & Hs & Hh & Ht & Hc).
  rewrite F5 in E. injection E as <-. rewrite F3 in Hs. exists told.
  destruct Hc as [H1 _ H3 _ _ _ _]. rewrite F4 in H1, H3.
  cbn [Tester.packets_sent Tester.corrupt_packets_sent Tester.new_stats] in H1, H3.
  destruct (understood_counts (concat told)) as [E1 E2].
  split; [by rewrite Hs|done|..]; unfold good_packets, bad_packets; lia.
Qed.

(** The network carries the drones' connections, in any order, to descriptors of
    the server; other connections say nothing. *)
Record carried fleet (fds : list Z) es : Prop := {
  carried_once : NoDup fds;
  carried_all : Forall (λ e, fd_of e ∈ fds) es;
  carried_bytes : ∃ k, concat (map (λ fd, connections fd es) fds)
    ≡ₚ map (@concat byte) (concat (map (λ f, Tester.streams (after f)) fleet)) ++ replicate k []
}.

(** What a corrupting drone has written is clear: no damaged frame in it holds,
    behind its first byte, one that could start a frame. *)
Definition clear_flight f : Prop :=
  profile f = Tester.CORRUPTED →
  Forall (λ pieces, clear (concat pieces) = true) (Tester.streams (after f)).

Lemma drone_total g `{!Additive g} f told :
  counts_for f told → clear_flight f →
  total (λ pieces, g (scan (concat pieces)).1) (Tester.streams (after f))
  = g (map understood (concat told)).
Proof.
  unfold clear_flight. intros [Hh _ _ _].
  induction Hh as [|pieces items ss told [_ Hi] Hh IH]; intros Hc.
  - symmetry. apply additive_nil.
  - cbn [total concat map]. rewrite map_app, additive_app, IH, Hi; [done|..];
      intros Hp; specialize (Hc Hp); by apply Forall_cons in Hc as [Hc1 Hc2].
Qed.

Lemma fleet_total g `{!Additive g} fleet fds es all tolds :
  carried fleet fds es → (∀ fd, events_of fd all = said fd es) →
  Forall2 counts_for fleet tolds → Forall clear_flight fleet →
  g (map snd all) = total (λ told, g (map understood (concat told))) tolds.
Proof.
  intros [Hd Hes [k Hp]] Hall Hf Hc. rewrite (additive_heard g fds es all Hd Hes Hall).
  rewrite (total_perm _ _ _ Hp), total_app, total_map, total_concat, total_map.
  rewrite (total_zero _ (replicate k [])), Z.add_0_r.
  - clear Hp. induction Hf as [|f told fleet tolds Hft Hf IH]; [done|].
    apply Forall_cons in Hc as [Hc1 Hc2]. cbn [total map]. f_equal; [by apply drone_total|].
    by apply IH.
  - intros bytes [-> _]%elem_of_replicate. apply additive_nil.
Qed.

Lemma good_total fleet tolds :
  Forall2 counts_for fleet tolds →
  total (λ told, zlen (received (map understood (concat told)))) tolds = total good_packets fleet
  ∧ total (λ told, failures (map understood (concat told))) tolds = total bad_packets fleet.
Proof. induction 1 as [|f told fleet tolds [_ _ E1 E2] Hf [IH1 IH2]]; cbn [total]; lia. Qed.

Lemma received_measure t es :
  t ∈ received es ↔ 0 < zlen (List.filter (λ u, bool_decide (u = t)) (received es)).
Proof.
  generalize (received es). intros l. split.
  - intros Hin%list_elem_of_In. assert (In t (List.filter (λ u, bool_decide (u = t)) l)) as Hf
      by (apply List.filter_In; split; [done|by apply bool_decide_eq_true_2]).
    destruct (List.filter _ l) as [|u k]; [done|]. rewrite zlen_cons. pose proof (zlen_nonneg k). lia.
  - destruct (List.filter _ l) as [|u k] eqn:E; [done|]. intros _.
    assert (In u (List.filter (λ u, bool_decide (u = t)) l)) as Hf by (rewrite E; by left).
    apply List.filter_In in Hf as [Hin ->%bool_decide_eq_true]. by apply list_elem_of_In.
Qed.

(** A drone whose packets are heard has been heard on one of its connections. *)
Lemma fleet_heard fleet fds es all tolds t :
  carried fleet fds es → (∀ fd, events_of fd all = said fd es) →
  Forall2 counts_for fleet tolds → Forall clear_flight fleet →
  t ∈ received (map snd all) ↔ ∃ told, told ∈ tolds ∧ t ∈ received (map understood (concat told)).
Proof.
  intros Hc Hall Hf Hcl. rewrite received_measure.
  pose proof (fleet_total (λ es, zlen (List.filter (λ u, bool_decide (u = t)) (received es)))
    fleet fds es all tolds Hc Hall Hf Hcl) as E. cbn beta in E.
  rewrite E, total_positive by (intros; apply zlen_nonneg).
  split; intros (told & Ht & Hm); exists told; (split; [done|]); by apply received_measure.
Qed.

Lemma told_typical f told t :
  counts_for f told → t ∈ received (map understood (concat told)) →
  drone_id t = callsign f ∧ (alerts t = [] ↔ profile f ≠ Tester.THRESHOLD).
Proof.
  intros [_ Ht _ _] Hin. rewrite received_understood in Hin.
  apply list_elem_of_fmap in Hin as ([t' c] & -> & Hin%list_elem_of_In).
  apply List.filter_In in Hin as [Hin%list_elem_of_In _].
  apply Forall_concat in Ht. rewrite Forall_forall in Ht. by destruct (Ht _ Hin).
Qed.

(** The telemetry of the drones that have been heard. *)
Lemma fleet_drones fleet tolds (ts : list Telemetry) :
  Forall2 counts_for fleet tolds →
  (∀ t, t ∈ ts ↔ ∃ told, told ∈ tolds ∧ t ∈ received (map understood (concat told))) →
  (∀ d, d ∈ dom (latest ts) ↔ ∃ f, f ∈ fleet ∧ callsign f = d ∧ 0 < good_packets f)
  ∧ ∀ d t, latest ts !! d = Some t →
      ∃ f, f ∈ fleet ∧ callsign f = d ∧ (alerts t = [] ↔ profile f ≠ Tester.THRESHOLD).
Proof.
  intros Hf Hts.
  assert (∀ t, t ∈ ts → ∃ f told, f ∈ fleet ∧ counts_for f told
    ∧ t ∈ received (map understood (concat told))) as Hfrom.
  { intros t (told & [i Hi]%list_elem_of_lookup & Hin)%Hts.
    destruct (Forall2_lookup_r _ _ _ _ _ Hf Hi) as (f & Hfi & Hc).
    exists f, told. split_and!; [by eapply list_elem_of_lookup_2|done|done]. }
  split.
  - intros d. rewrite dom_latest, elem_of_list_to_set, list_elem_of_fmap. split.
    + intros (t & -> & (f & told & Hfl & Hc & Hin)%Hfrom). exists f.
      destruct (told_typical f told t Hc Hin) as [-> _]. split_and!; [done..|].
      rewrite (counts_good _ _ Hc). destruct (received _); [by apply elem_of_nil in Hin|].
      rewrite zlen_cons. pose proof (zlen_nonneg l). lia.
    + intros (f & [i Hi]%list_elem_of_lookup & <- & Hp).
      destruct (Forall2_lookup_l _ _ _ _ _ Hf Hi) as (told & Ht & Hc).
      rewrite (counts_good _ _ Hc) in Hp.
      destruct (received (map understood (concat told))) as [|t l] eqn:E; [done|].
      assert (t ∈ received (map understood (concat told))) as Hin by (rewrite E; by left).
      exists t. split; [by destruct (told_typical f told t Hc Hin)|].
      apply Hts. exists told. split; [by eapply list_elem_of_lookup_2|done].
  - intros d t Hl. rewrite latest_lookup in Hl. apply last_Some_elem_of in Hl.
    apply list_elem_of_In, List.filter_In in Hl as [Hin%list_elem_of_In <-%bool_decide_eq_true].
    destruct (Hfrom t Hin) as (f & told & Hfl & Hc & Hin').
    destruct (told_typical f told t Hc Hin') as [-> Ha]. by exists f.
Qed.

End Fleet.

(** ** The claim *)

Section Claim.
Context {W : Type} `{Tester.WorldLaws W}.
Context {K : Type} `{PosixTrace K} `{Endian.Host} `{AsyncLogger.AsyncLogger.Filesystem}.
Implicit Types (fleet : list (Flight W)) (s : System K) (w : K).

(** C4: the load test comes out even. Let any of the drones of a test fly, each
    to its end, whatever network, clock and random numbers do; let the network
    carry their connections to the server ([carried]: each to a descriptor, whole
    and in order, and nothing else), which cuts the streams as it likes and
    schedules its threads as it likes; and let nothing be on its way any more.
    Then, if the bytes that the drones with the profile CORRUPTED have written are
    clear (no damaged frame among them holds, behind its first byte, one that
    could start a frame), the server has processed as many packets as the tester
    has counted as sent and not as corrupt, and rejected as many as it has counted
    as corrupt; the table has the drones that have sent a packet that was not
    damaged, and only these; and the telemetry in the table exceeds a threshold
    exactly for those that have been assigned the profile THRESHOLD. *)
Theorem load_test_comes_out_even n fuel fleet arguments out w s0 s fds :
  (n <= 1000)%nat → Forall (flown n fuel) fleet →
  run_of arguments out w s0 (Running s) → transcript w = [] → settled s →
  carried fleet fds (transcript (world s)) → Forall clear_flight fleet →
  BusinessLogic.BusinessLogic.m_packets_processed (business_logic s)
    = u64 (total good_packets fleet)
  ∧ m_crc_failures (parser s) = u64 (total bad_packets fleet)
  ∧ (∀ d, d ∈ dom (BusinessLogic.BusinessLogic.m_drones (business_logic s))
      ↔ ∃ f, f ∈ fleet ∧ callsign f = d ∧ 0 < good_packets f)
  ∧ ∀ d t, BusinessLogic.BusinessLogic.m_drones (business_logic s) !! d = Some t →
      ∃ f, f ∈ fleet ∧ callsign f = d ∧ (alerts t = [] ↔ profile f ≠ Tester.THRESHOLD).
Proof.
  intros Hn Hfl Hr Hw Hset Hc Hcl.
  assert (∃ tolds, Forall2 counts_for fleet tolds) as [tolds Hf].
  { clear Hc Hcl. induction Hfl as [|f fleet Hf Hfl [tolds IH]]; [by exists []; constructor|].
    destruct (flown_counts n fuel f Hn Hf) as [told Ht]. exists (told :: tolds). by constructor. }
  destruct (network_heard _ _ _ _ _ Hr Hw) as (all & parsed & handled & Hall & Hwo).
  destruct (worked_settled _ _ _ _ Hwo Hset) as [-> ->]. destruct Hwo as [_ _ -> -> -> _].
  destruct (good_total fleet tolds Hf) as [<- <-].
  rewrite (fleet_total failures fleet fds _ all tolds Hc Hall Hf Hcl).
  pose proof (fleet_total (λ es, zlen (received es)) fleet fds _ all tolds Hc Hall Hf Hcl) as E.
  cbn beta in E. rewrite E. split; [done|]. split; [done|].
  apply (fleet_drones fleet tolds); [done|]. intros t. by apply (fleet_heard fleet fds (transcript (world s))).
Qed.

End Claim.

(** ** Witness *)

#[local] Existing Instance demo_host.
#[local] Existing Instance demo_filesystem.
#[local] Existing Instance TesterProperties.toy_world.
#[local] Existing Instance TesterProperties.toy_laws.

(** Two of the drones of a test: one that damages every other packet, and one
    that exceeds a threshold with every packet. *)
Definition flight (id : string) (p : Tester.ProfileType) (looks writes : nat)
  : Flight TesterProperties.Toy :=
  mkFlight id p (TesterProperties.fresh looks writes)
    (Tester.run p 20 id (TesterProperties.fresh looks writes)).2.

Definition damager : Flight TesterProperties.Toy := flight "DRONE-0003" Tester.CORRUPTED 2 10.
Definition climber : Flight TesterProperties.Toy := flight "DRONE-0002" Tester.THRESHOLD 1 10.
Definition demo_fleet : list (Flight TesterProperties.Toy) := [damager; climber].

(** What they write to their one connection each. *)
Definition damager_pieces : list (list byte) :=
  Eval vm_compute in concat (Tester.streams (after damager)).
Definition climber_pieces : list (list byte) :=
  Eval vm_compute in concat (Tester.streams (after climber)).

(** The first hangs up and then the second is heard. *)
Definition fleet_machine : Recorded Kernel :=
  unrecorded (fresh_kernel {[0; 1; 2]} ["10.0.0.3"; "10.0.0.2"]%string
    (damager_pieces ++ [[]] ++ climber_pieces) [[(3, EPOLLIN)]; [(6, EPOLLIN)]; [(7, EPOLLIN)]]).

Definition fleet_schedule : list Exec.choice := Exec.rounds 15 20 5.
Definition fleet_state : System (Recorded Kernel) :=
  SystemProperties.after fleet_schedule fleet_machine.

Definition fleet_traffic : list traffic :=
  map (Read 6) damager_pieces ++ [Removed 6] ++ map (Read 7) climber_pieces.

(** What can be seen of a state. *)
Definition observed {K} `{PosixTrace K} (s : System K) :=
  (transcript (world s),
   (m_queue (Listener.Listener.m_queue (network_listener s)), m_queue (m_raw_queue (parser s)),
    m_queue (m_parsed_queue (parser s)),
    m_queue (BusinessLogic.BusinessLogic.m_parsed_queue (business_logic s))),
   (BusinessLogic.BusinessLogic.m_packets_processed (business_logic s), m_crc_failures (parser s),
    map fst (map_to_list (BusinessLogic.BusinessLogic.m_drones (business_logic s))))).

Lemma observed_settled (s : System (Recorded Kernel)) es n m ids :
  observed s = (es, ([], [], [], []), (n, m, ids)) →
  transcript (world s) = es ∧ settled s
  ∧ BusinessLogic.BusinessLogic.m_packets_processed (business_logic s) = n
  ∧ m_crc_failures (parser s) = m.
Proof. unfold observed. intros [= E1 E2 E3 E4 E5 E6 E7 E8]. by split_and!. Qed.

Lemma fleet_observed :
  match Exec.schedule fleet_schedule (started_on fleet_machine) with
  | Running s => observed s
    = (fleet_traffic, ([], [], [], []), (2, 1, ["DRONE-0003"; "DRONE-0002"]%string))
  | _ => False
  end.
Proof. vm_compute. reflexivity. Qed.

(** A flight came to its end, having written [pieces]. *)
Record landed (f : Flight TesterProperties.Toy) (pieces : list (list byte)) (good bad : Z) : Prop := {
  landed_run : (Tester.run (profile f) 20 (callsign f) (before f)).1 = Ok tt;
  landed_streams : Tester.streams (after f) = [pieces];
  landed_good : good_packets f = good;
  landed_bad : bad_packets f = bad
}.

Lemma damager_landed : landed damager damager_pieces 1 1.
Proof. split; vm_compute; reflexivity. Qed.

Lemma climber_landed : landed climber climber_pieces 1 0.
Proof. split; vm_compute; reflexivity. Qed.

Lemma flight_flown id p looks writes :
  Tester.assign_profiles 6 !! id = Some p → (looks < 20)%nat →
  fst (Tester.run p 20 id (TesterProperties.fresh looks writes)) = Ok tt →
  flown 6 20 (flight id p looks writes).
Proof.
  intros Ha Hl Hr. split; [done|done|done|done|]. cbn [profile callsign before after flight].
  by destruct (Tester.run p 20 id _) as [o d]; cbn in Hr |- *; subst o.
Qed.

Lemma demo_fleet_flown : Forall (flown 6 20) demo_fleet.
Proof.
  constructor; [|constructor; [|constructor]]; apply flight_flown.
  - by vm_compute.
  - lia.
  - exact (landed_run _ _ _ _ damager_landed).
  - by vm_compute.
  - lia.
  - exact (landed_run _ _ _ _ climber_landed).
Qed.

Lemma fleet_running :
  Exec.schedule fleet_schedule (started_on fleet_machine) = Running fleet_state
  ∧ transcript (world fleet_state) = fleet_traffic ∧ settled fleet_state
  ∧ BusinessLogic.BusinessLogic.m_packets_processed (business_logic fleet_state) = 2
  ∧ m_crc_failures (parser fleet_state) = 1.
Proof.
  pose proof fleet_observed as E. unfold fleet_state, SystemProperties.after.
  destruct (Exec.schedule fleet_schedule (started_on fleet_machine)); [|done..].
  split; [done|by eapply observed_settled].
Qed.

Lemma demo_fleet_run :
  run_of demo_arguments [] fleet_machine (started_on fleet_machine) (Running fleet_state).
Proof. apply after_run. by rewrite (proj1 fleet_running). Qed.

Lemma demo_fleet_carried : carried demo_fleet [6; 7] (transcript (world fleet_state)).
Proof.
  rewrite (proj1 (proj2 fleet_running)). split.
  - apply NoDup_cons. split; [set_solver|]. apply NoDup_singleton.
  - unfold fleet_traffic. rewrite !Forall_app, !Forall_map, Forall_singleton.
    split_and!; [apply Forall_true| |apply Forall_true]; set_solver.
  - exists 1%nat.
    assert (concat (map (λ fd, connections fd fleet_traffic) [6; 7])
      = [concat damager_pieces; []; concat climber_pieces]) as -> by (vm_compute; reflexivity).
    unfold demo_fleet. cbn [map].
    rewrite (landed_streams _ _ _ _ damager_landed), (landed_streams _ _ _ _ climber_landed).
    cbn [concat map app replicate]. apply perm_skip, perm_swap.
Qed.

Lemma demo_fleet_clear : Forall clear_flight demo_fleet.
Proof.
  constructor; [|constructor; [|constructor]]; [|by intros [=]]. intros _.
  rewrite (landed_streams _ _ _ _ damager_landed). apply Forall_singleton. vm_compute. reflexivity.
Qed.

Lemma load_test_comes_out_even_witness :
  let s := fleet_state in
  BusinessLogic.BusinessLogic.m_packets_processed (business_logic s)
    = u64 (total good_packets demo_fleet)
  ∧ m_crc_failures (parser s) = u64 (total bad_packets demo_fleet)
  ∧ (∀ d, d ∈ dom (BusinessLogic.BusinessLogic.m_drones (business_logic s))
      ↔ ∃ f, f ∈ demo_fleet ∧ callsign f = d ∧ 0 < good_packets f)
  ∧ ∀ d t, BusinessLogic.BusinessLogic.m_drones (business_logic s) !! d = Some t →
      ∃ f, f ∈ demo_fleet ∧ callsign f = d ∧ (alerts t = [] ↔ profile f ≠ Tester.THRESHOLD).
Proof.
  apply (load_test_comes_out_even 6 20 demo_fleet demo_arguments [] fleet_machine
    (started_on fleet_machine) fleet_state [6; 7]).
  - lia.
  - exact demo_fleet_flown.
  - exact demo_fleet_run.
  - reflexivity.
  - exact (proj1 (proj2 (proj2 fleet_running))).
  - exact demo_fleet_carried.
  - exact demo_fleet_clear.
Defined.

(** What both sides have counted. *)
Example demo_fleet_counts :
  BusinessLogic.BusinessLogic.m_packets_processed (business_logic fleet_state) = 2
  ∧ m_crc_failures (parser fleet_state) = 1
  ∧ map good_packets demo_fleet = [1; 1] ∧ map bad_packets demo_fleet = [1; 0].
Proof.
  destruct fleet_running as (_ & _ & _ & -> & ->). unfold demo_fleet. cbn [map].
  rewrite (landed_good _ _ _ _ damager_landed), (landed_good _ _ _ _ climber_landed).
  rewrite (landed_bad _ _ _ _ damager_landed), (landed_bad _ _ _ _ climber_landed). done.
Qed.
