(* ===== verification/FairProperties.v ===== *)
(** * Properties of the fair runs of the program

    What is sure to happen when the scheduler keeps nobody waiting for ever: a
    requested shutdown is completed, everything that is read from the network is
    handled, and every message that is logged is written. *)

From S2P Require Import Prelude Telemetry ThreadSafeQueue Worker RingBuffer Endian Scan StreamingParser ParserCorrect BusinessLogic LogicCorrect AsyncLogger Posix Recorder Triples Listener ListenerOwnership ListenerChunks ListenerTrace Traffic ToyKernel Threads Main System SystemInvariant SystemTypes SystemTrace SystemRefines SystemLive SystemExec SystemInevitable SystemProperties TraceProperties Fairness SystemFair SystemServed SystemDelivery.

Import System.

Section Properties.
Context {W : Type} `{PosixWake W} `{!PosixBursts W} `{Host} `{AsyncLogger.Filesystem}
  `{Hdec : !∀ ep (w : W), Decision (epoll_ready ep w)}.
Implicit Types (s : System W) (w : W) (out : list string) (σ : nat → Process W).

(** A fair run of the program, from the start of its threads. *)
Record fair_run_of (arguments : list string) out w s0 σ : Prop := {
  fair_boots : boot arguments out w = Ok s0;
  fair_starts : σ 0%nat = Running s0;
  fair_goes : fair σ
}.

Lemma fair_run_to arguments out w s0 σ n :
  fair_run_of arguments out w s0 σ → run_of arguments out w s0 (σ n).
Proof.
  intros [Hb E0 Hf]. split; [done|]. rewrite <-E0. by apply (fair_path _ moves); [|lia].
Qed.

Lemma fair_run_on arguments out w s0 σ n m s :
  fair_run_of arguments out w s0 σ → (n <= m)%nat → σ n = Running s → rtc step (Running s) (σ m).
Proof. intros [_ _ Hf] Hm <-. by apply (fair_path _ moves). Qed.

Lemma fair_terminates arguments out w s0 σ n m s e :
  fair_run_of arguments out w s0 σ → (n <= m)%nat → σ n = Running s → σ m = Terminated e →
  at_listener s = SettingUp.
Proof.
  intros Hf Hm En Em. pose proof (fair_run_to _ _ _ _ _ n Hf) as Hr. rewrite En in Hr.
  apply (throws_before_setup (open_fds w) (stdout s0) s e); [exact (run_inv _ _ _ _ _ Hr)|].
  rewrite <-Em. by eapply fair_run_on.
Qed.

Lemma run_sound arguments out w s0 s :
  run_of arguments out w s0 (Running s) → sound (open_fds w) (stdout s0) s.
Proof.
  intros [Hb Hr]. apply (running_invariant (sound (open_fds w) (stdout s0)) s0 s); [|done|].
  - intros s1 s2. apply sound_step.
  - split; [by eapply boot_inv|]. right.
    by apply boot_cases in Hb as (port & path & logger & _ & _ & ->).
Qed.

(** C5: in a fair run a requested shutdown is completed, if no client floods the
    listener: when the signal has come, wherever the threads are, [main] notices
    it, stops and joins every thread and comes to its end; only a listener that is
    still setting itself up may end the process by an exception instead. That
    nobody floods it is the assumption [PosixBursts]: what is accepted and read
    between two waits of the listener is finite, though it may be of any size and
    need not come to an end over the whole run. Without it the listener may stay
    in its drain loop, which looks at no stop token ([flooded_for_ever] in
    [ListenerProperties.v]). *)
Theorem fair_shutdown arguments out w s0 σ n s :
  fair_run_of arguments out w s0 σ → σ n = Running s → g_shutdown_requested s = true →
  ∃ m, (n <= m)%nat ∧
    match σ m with
    | Running s' => finished s'
    | Terminated _ => at_listener s = SettingUp
    | Broken => False
    end.
Proof.
  intros Hf En Hflag. pose proof (fair_run_to _ _ _ _ _ n Hf) as Hr. rewrite En in Hr.
  pose proof (run_live _ _ _ _ _ Hr) as Hl.
  destruct (shutdown_comes (open_fds w) (stdout s0) σ (fair_goes _ _ _ _ _ Hf) n) as (m & Hm & He).
  { by rewrite En. }
  exists m. split; [done|]. destruct (σ m) as [s'|e|] eqn:Em; [done| |done].
  by eapply fair_terminates.
Qed.

(** C7: in a fair run every message that is logged is written to stdout, if no
    client floods the listener ([PosixBursts]: what is accepted and read between
    two of its waits is finite): whatever a thread has pushed to the log queue
    comes out of the logger, in its place, whether or not a shutdown is requested.
    The only other outcome is a process that was ended by an exception of the
    listener's set-up, in which the listener still was. *)
Theorem fair_logging arguments out w s0 σ n s :
  fair_run_of arguments out w s0 σ → σ n = Running s →
  ∃ m, (n <= m)%nat ∧
    match σ m with
    | Running s' => stdout s0 ++ messages s `prefix_of` AsyncLogger.cout (async_logger s')
    | Terminated _ => at_listener s = SettingUp
    | Broken => False
    end.
Proof.
  intros Hf En. pose proof (fair_run_to _ _ _ _ _ n Hf) as Hr. rewrite En in Hr.
  destruct (messages_written (open_fds w) (stdout s0) σ n s (fair_goes _ _ _ _ _ Hf) En
    (run_sound _ _ _ _ _ Hr)) as (m & Hm & Hp).
  assert (∀ k s', (n <= k)%nat → σ k = Running s' → messages s `prefix_of` messages s') as Hgrow.
  { intros k s' Hk Ek. apply (reachable_messages s s'). rewrite <-Ek.
    by eapply fair_run_on. }
  destruct (σ m) as [s1|e|] eqn:Em; [|exists m; rewrite Em; split; [done|by eapply fair_terminates]|done].
  destruct Hp as [Hflag|Hw]; [|exists m; rewrite Em; split; [done|by apply Hw, (Hgrow m)]].
  destruct (fair_shutdown _ _ _ _ _ m s1 Hf Em Hflag) as (k & Hk & Hend).
  exists k. split; [lia|]. destruct (σ k) as [s2|e|] eqn:Ek; [| |done].
  - pose proof (fair_run_to _ _ _ _ _ k Hf) as Hr2. rewrite Ek in Hr2.
    destruct (run_finished _ _ _ _ _ Hr2 Hend) as [_ ->]. apply prefix_app, (Hgrow k); [lia|done].
  - apply (fair_terminates _ _ _ _ σ n k s e Hf); [lia|done..].
Qed.

End Properties.

Section Delivery.
Context {W : Type} `{PosixTrace W} `{!PosixBursts W} `{Host} `{AsyncLogger.Filesystem}
  `{Hdec : !∀ ep (w : W), Decision (epoll_ready ep w)}.
Implicit Types (s : System W) (w : W) (out : list string) (σ : nat → Process W).

(** C6: in a fair run what is read from the network is handled, if no client
    floods the listener ([PosixBursts]: what is accepted and read between two of
    its waits is finite). All the telemetry in the bytes that [recv] has returned
    up to some time is, at some later time, in the drone table and in the packet
    counter, unless a shutdown is requested before: the listener queues its
    chunks, the parser takes and decodes them and delivers, and the business logic
    takes what is delivered, whatever else the network does in the meantime. The
    only other outcome is a process that was ended by an exception of the
    listener's set-up, in which the listener still was. *)
Theorem fair_delivery arguments out w s0 σ n s :
  fair_run_of arguments out w s0 σ → transcript w = [] → σ n = Running s →
  ∃ m, (n <= m)%nat ∧
    match σ m with
    | Running s' => g_shutdown_requested s' = true ∨ handled_all (transcript (world s)) s'
    | Terminated _ => at_listener s = SettingUp
    | Broken => False
    end.
Proof.
  intros Hf Hw En. pose proof (fair_run_to _ _ _ _ _ n Hf) as Hr. rewrite En in Hr.
  destruct (fair_delivers (open_fds w) (stdout s0) σ n s (fair_goes _ _ _ _ _ Hf) En)
    as (m & Hm & Hp).
  { destruct Hr as [Hb Hsteps]. split; [by eapply run_sound| | |done].
    - eapply reachable_chunks_fit; [exact Hsteps|by eapply boot_chunks_fit].
    - eapply reachable_forwarded; [by eapply boot_inv|exact Hsteps|by eapply boot_forwarded]. }
  exists m. split; [done|]. destruct (σ m) as [s1|e|] eqn:Em; [done| |done].
  by eapply fair_terminates.
Qed.

End Delivery.

(** ** Witnesses *)

#[local] Existing Instance demo_host.
#[local] Existing Instance demo_filesystem.

(** The schedule of the demonstration, for ever. *)
Definition demo_run_fair (n : nat) : Process (Recorded Kernel) :=
  scheduled whole_run (started_on recorded_machine) n.

Definition demo_state (n : nat) : System (Recorded Kernel) :=
  after (take n whole_run) recorded_machine.

Lemma demo_fair_run :
  fair_run_of demo_arguments [] recorded_machine (started_on recorded_machine) demo_run_fair.
Proof.
  split; [reflexivity|reflexivity|].
  apply (scheduled_fair whole_run _ (after whole_run recorded_machine)).
  - apply after_schedule. vm_compute. reflexivity.
  - intros []; vm_compute; split_and?; reflexivity.
  - vm_compute. reflexivity.
Qed.

(** The client's packet has just been read; the signal has just come. *)
Definition reading : nat := 57.
Definition signalled : nat := 121.

Lemma demo_reading : demo_run_fair reading = Running (demo_state reading).
Proof. apply after_schedule. vm_compute. reflexivity. Qed.

Lemma demo_signalled : demo_run_fair signalled = Running (demo_state signalled).
Proof. apply after_schedule. vm_compute. reflexivity. Qed.

Lemma fair_shutdown_witness :
  at_listener (demo_state signalled) ≠ SettingUp
  ∧ g_shutdown_requested (demo_state signalled) = true
  ∧ ∃ m, (signalled <= m)%nat ∧
    match demo_run_fair m with
    | Running s' => finished s'
    | Terminated _ => at_listener (demo_state signalled) = SettingUp
    | Broken => False
    end.
Proof.
  assert (g_shutdown_requested (demo_state signalled) = true) as Hf by (vm_compute; reflexivity).
  split; [vm_compute; discriminate|]. split; [exact Hf|].
  exact (fair_shutdown demo_arguments [] recorded_machine (started_on recorded_machine) demo_run_fair
    signalled (demo_state signalled) demo_fair_run demo_signalled Hf).
Defined.

Lemma fair_logging_witness :
  messages (demo_state signalled) = demo_messages
  ∧ ∃ m, (signalled <= m)%nat ∧
    match demo_run_fair m with
    | Running s' => demo_banner ++ messages (demo_state signalled)
                      `prefix_of` AsyncLogger.cout (async_logger s')
    | Terminated _ => at_listener (demo_state signalled) = SettingUp
    | Broken => False
    end.
Proof.
  split; [vm_compute; reflexivity|].
  exact (fair_logging demo_arguments [] recorded_machine (started_on recorded_machine) demo_run_fair
    signalled (demo_state signalled) demo_fair_run demo_signalled).
Defined.

(** The packet has been read and nothing has been made of it yet. *)
Lemma fair_delivery_witness :
  received (map snd (heard (transcript (world (demo_state reading)))).1) = [demo_telemetry]
  ∧ BusinessLogic.m_drones (business_logic (demo_state reading)) = ∅
  ∧ ∃ m, (reading <= m)%nat ∧
    match demo_run_fair m with
    | Running s' => g_shutdown_requested s' = true
        ∨ handled_all (transcript (world (demo_state reading))) s'
    | Terminated _ => at_listener (demo_state reading) = SettingUp
    | Broken => False
    end.
Proof.
  split; [vm_compute; reflexivity|]. split; [vm_compute; reflexivity|].
  apply (fair_delivery demo_arguments [] recorded_machine (started_on recorded_machine) demo_run_fair
    reading (demo_state reading) demo_fair_run).
  - reflexivity.
  - exact demo_reading.
Defined.

(** A shutdown discards what is in the data queue: the client's packet has been
    read and queued, and the program ends without having handled it. *)
Definition hasty_run : list Exec.choice :=
  busy ++ [Exec.Signal] ++ mjoin (replicate 6 [Exec.MainActs; Exec.ListenerActs 20; Exec.ListenerLogs])
  ++ Exec.rounds 40 20 5.

Example shutdown_discards :
  let s := after hasty_run recorded_machine in
  finished s ∧ BusinessLogic.m_drones (business_logic s) = ∅
  ∧ received (map snd (heard (transcript (world s))).1) = [demo_telemetry].
Proof. vm_compute. split_and!; reflexivity. Qed.
